(* ===== verification/_CoqProject ===== *)
-Q . S2P
Prelude.v
Std.v
Sys.v
Submission.v
Ring.v
Kern.v
Mmap.v
SubQueue.v
CompQueue.v
Uring.v
Rings.v
UringProps.v
Demo.v
QueueOps.v
Queues.v
RingsTso.v
Caches.v
UringNew.v
Registration.v
RegistrationProps.v
Unpark.v
UnparkProps.v
UnparkTso.v
Device.v
UringDevice.v
Reactor.v
ReactorProps.v
AsyncIo.v
AsyncProps.v
Clients.v
ClientProps.v
AsyncDemo.v
Termination.v
ReactorNew.v
Overrun.v
Net.v
NetDemo.v
Runtime.v
Timeout.v
Echo.v
Serve.v
EchoExample.v
Conn.v
Server.v
Main.v
ServerDemo.v
