(* ===== verification/Prelude.v ===== *)
(** * rust-io-uring: a verification development

    The repository is a stack of crates that make Linux's io_uring usable from
    Rust: [io-uring-sys] (the kernel's ABI), [io-uring] (the two rings, mapped
    into memory the kernel shares), [tokio-uring-reactor] (a reactor that turns
    completions into futures), [tokio-uring] (a runtime around it) and
    [echo-async] (a server).  This development models that stack bottom-up, one
    file per part, and proves each part against an abstract account of the one
    below it.  Names are those of the source wherever two do not collide; a
    method [m] of a type [T] is [T_m] or [m].  Paths below are under [src/].

    ** How code becomes definitions

    [Prelude]: code that changes state is a function [M S A], from a state to
    an [outcome] and a state.  An outcome is [Done], [Panic] (unwinding, so that
    [with_drop] and [drop_on_failure] run destructors), [UB] (an access outside
    a live allocation, a read of uninitialised bytes) or [Hang] (a wait that
    never ends, a loop out of fuel).  Rust's [Result] is [result], its [?] is
    [try_bind].  [wp m Q s] says that [m] from [s] ends normally with [Q].
    Integers are [Z] with their width written out; arithmetic that Rust checks in
    debug builds consults the class [Build].  [Std] has the parts of Rust's
    library the code uses.

    ** The parts

    - [io-uring-sys/src/lib.rs, macros.rs]: [Sys] (layouts, constants, flag
      types, entries with their unions as bytes, system call wrappers);
      [submission.rs]: [Submission].
    - [io-uring/src/mmap.rs]: [Mmap].  [io-uring/src/lib.rs]: [SubQueue],
      [CompQueue] (every operation of the two queues, access by access), [Uring]
      (the constructors, destructors and calls on the ring's file).  The memory
      they share with the kernel, and the steps the kernel may take between any
      two accesses, are [Kern]; counters and masks are [Ring].
    - [tokio-uring-reactor/src/registration.rs]: [Registration], over a heap of
      reference-counted cells.  [unpark.rs] and [lib.rs]: [Unpark].
      [reactor.rs]: [Reactor] (completion state, parking, queueing, delivery),
      [ReactorNew] (construction and drop; also [tokio_uring::Runtime::new]),
      [AsyncIo] ([Handle], [Park for Reactor]).  [reactor/async_*.rs]: [AsyncIo].
      [net.rs, io.rs]: [Net].
    - [tokio-uring/src/lib.rs]: [Runtime]; [examples/echo.rs]: [EchoExample].
    - [echo-async/src/timeout.rs]: [Timeout]; [serve_tcp.rs]: [Serve];
      [main.rs]: [Echo] (the handler of a connection as a sequence of calls),
      [Conn] (the same as the state machine of its task, over the reactor's
      reads and writes), [Main] ([main], and that of [examples/echo.rs]).
      [Server] puts all its tasks on one reactor.

    They meet at three interfaces.  [Rings] is the abstract state of a ring pair
    (entries staged and published, requests in flight, completions unread, the
    completion slots and those of completions read but not given back; the kernel
    loses a completion only when all slots are in use), and [uring_rep] what it means for shared memory to represent it; [QueueOps]
    proves each queue operation against it with the kernel moving.  [Device] is
    the contract [RingDeviceOk] of what the reactor asks of a ring, in the same
    terms; [UringDevice] proves that the queues keep it, and the reactor and its
    futures are proved against it alone.  [Clients] are programs: any sequence of
    commands that start, poll and drop the futures, park the reactor or drop it.
    [Server] is one such program whose commands come from the tasks' own code:
    an executor polls the serving task and those of the connections and parks the
    reactor, in any order; their futures are the clients.

    ** What is proved

    - The rings ([Queues], [Caches]): over any interleaving with the kernel no
      operation fails (with debug logging off, and but for the panic of
      [pending_submissions] with overflow checks, at the wrap-around), entries
      and completions arrive in order and exactly once, a ring of entries at most
      is outstanding, a failing closure submits nothing; the cached counters
      cannot be observed.
      [RingsTso] has the same order and exactly-once guarantee on x86, where the
      stores of both sides wait in store buffers.
    - Overruns: a completion is lost only when there are more requests than
      completion slots, and then for good ([completions_lost_only_on_overrun] in
      [Queues]); its registration then waits for ever, whatever the reactor does
      ([lost_completion_never_arrives] in [ReactorProps]).  The code does not
      prevent it, and [Overrun] runs the reactor into it.  The theorems on
      programs and on the server therefore ask for a kernel that loses nothing
      ([lossless]) or for room in the completion queue at every point of the run
      ([room_left], [keeps_room], [server_room]).
    - Set-up ([UringProps], [UringNew], [ReactorNew]): constructors give back
      everything they acquired on every failing path, their errors are those of
      the system call that failed ([uring_fails], [call_fails]), slots lie inside
      the mappings, and what [Reactor::new] builds runs every program safely;
      [register_buffers] truncates the length of its slice.
    - Entries ([Submission], [Sys]): type, overwriting, round trips, ABI offsets,
      and when [Debug] reads uninitialised bytes.
    - Registrations ([RegistrationProps]): one delivery, no lost wake-up, memory
      alive as long as a side needs it.
    - Waking ([UnparkTso]): with the orderings of the source on x86 store buffers
      an [unpark] can be lost, through the relaxed store of [clear_unpark], and
      only if the reactor's thread looks for work while that store has not reached
      the memory; with a [SeqCst] store none is.  [UnparkProps]: the write to the
      pipe does not block.
    - The reactor and its futures ([ReactorProps], [AsyncProps], [ClientProps],
      [Termination]): parking returns and delivers every completion, as it was
      posted and in the order of arrival ([took]); reads, writes and watches
      submit what they should, are refused only when every submission slot is
      taken ([refused], [sq_full]), and give their result, buffer and file back;
      every program is safe, its requests keep the data put there ([puts]), none
      stalls, also when the reactor is dropped while requests are outstanding;
      loops terminate with one result.
    - Above it ([Net], [Runtime], [Timeout], [Echo], [Serve], [EchoExample]): the
      stream of connections is never left without an armed watch; the current
      reactor is scoped; deadlines are exact; the server gives every connection
      a task and stops only for an error or 30 idle seconds; the handler echoes
      what the socket takes.
    - The whole program ([Conn], [Server], [Main]): [main] ends early only by the
      panics it asks for; the server it runs never fails and forgets no task,
      and every poll of a connection's task echoes what the reactor read.

    ** Builds

    Two of the conditions under which the code is right are not the caller's but
    the build's.  With overflow checks ([overflow_checks], on in debug builds)
    [pending_submissions], which every turn of the reactor calls, panics once the
    32-bit tail has wrapped around and the head has not
    ([pending_submissions_counts]), and negating a result of [i32::MIN] panics.
    With debug logging ([log_debug]; [main]'s [env_logger::init] takes it from the
    environment) the line [submit_with] logs for a [poll_add] reads uninitialised
    bytes ([Debug_undefined_iff_poll_add]).  The theorems say which they exclude,
    as hypotheses of their own: those on the queues debug logging, those on
    programs, futures and the server over a ring device overflow checks (the
    real rings do not keep its contract [RingDeviceOk] with them), those that put the reactor
    on the real rings ([UringDevice], [ReactorNew], [Main]) both.  Set-up,
    registrations and entries need neither.

    [Demo], [AsyncDemo], [NetDemo] and [ServerDemo] are concrete rings, devices
    and programs, at which the theorems are applied.  The device of [AsyncDemo]
    has eight completion slots and loses what does not fit.

    ** Fuel

    Only loops whose end depends on the outside carry fuel: draining the
    completion queue (a bound from the requests outstanding is enough, and any
    larger one gives the same run, [reactor_loops_terminate]), repeating an
    interrupted [accept] ([incoming_never_misses] bounds it by the interruptions),
    and the server's loops, bounded by the data or connections still to come; on
    the reactor a connection's task does at most two turns in one poll, as an
    operation just started is never done ([Conn_poll_spec]).
    Running out is [Hang], which the theorems exclude.

    ** Parameters

    Code outside the repository is an argument, with what is relied on as the
    laws of a class: the kernel ([Kernel] and [KernelOk]: it does only protocol
    steps; [World] and [WorldOk]: [io_uring_enter] returns when it need not wait
    or can be woken), libc ([Libc], [LibcPipe], [LibcTimer] with [LibcOk] and
    [LibcFdOk]; [LibcPoll] its poll constants), the allocator ([Alloc]), the
    type test of [Any] ([Boxed]), threads that hold [Unpark] handles ([Others]),
    [accept] and [bind] ([Accept], [TcpBind]), the executor and the timer
    ([Executor], [Timer], [TimeoutErrors]; [RunsServer]: it polls and parks until
    no task is left), sockets as the servers see them ([Peer], [Sockets],
    [Listener], [Spawner]), growing a [Vec] ([VecAlloc]), standard error
    ([Stderr]).  [OsOk] says that these calls return and that [accept] gives
    finitely many connections without time passing.

    ** Not modelled, and what is left

    The repository's code that only forwards (accessors, [AsRawFd] of wrappers,
    [Debug] that prints a constant or a field, [IntoIterator], [Default] of an
    enum) has no definition, nor have imports, printing and [env_logger].  The
    example's combinators of the [futures] crate are written as the awaits they
    stand for.  When [main] is over, the runtime's drop is that of [ReactorNew]
    and [AsyncIo]; the drop of the executor's tasks is the executor's.  Rust's
    memory model is not modelled: the files above the queues take the shared
    memory as sequentially consistent, which [RingsTso] justifies for the rings
    and [UnparkTso] examines for the flags of [unpark.rs], both on x86, the only
    processors the crates have system call numbers for.  Descriptors close when
    the operating system says so. *)

From stdpp Require Export prelude strings gmap list numbers.
From Stdlib Require Export ZArith Lia.

Declare Scope rust_scope.
Delimit Scope rust_scope with rust.

(** ** Rust's [Result], and the four ways a piece of Rust code can end *)

Inductive result (T E : Type) : Type :=
| Ok (t : T)
| Err (e : E).
Arguments Ok {T E} t.
Arguments Err {T E} e.

(** [Done] is normal termination, [Panic] an unwinding panic, [UB] undefined
    behaviour (an access outside a live allocation, a read of uninitialised
    bytes), [Hang] a system call that never returns. *)
Inductive outcome (A : Type) : Type :=
| Done (a : A)
| Panic (why : string)
| UB (why : string)
| Hang (why : string).
Arguments Done {A} a.
Arguments Panic {A} why.
Arguments UB {A} why.
Arguments Hang {A} why.

(** Stateful Rust code over a state [S].  The state is kept when the code
    panics: destructors run during unwinding and observe it. *)
Definition M (S A : Type) : Type := S → outcome A * S.

#[export] Instance M_ret S : MRet (M S) := λ A a s, (Done a, s).
#[export] Instance M_bind S : MBind (M S) := λ A B k m s,
  match m s with
  | (Done a, s') => k a s'
  | (Panic w, s') => (Panic w, s')
  | (UB w, s') => (UB w, s')
  | (Hang w, s') => (Hang w, s')
  end.

(** [x ←? m; k] is Rust's [let x = m?; k]. *)
Definition try_bind {S A B E : Type} (m : M S (result A E))
    (k : A → M S (result B E)) : M S (result B E) :=
  m ≫= λ r, match r with Ok a => k a | Err e => mret (Err e) end.
Notation "x ←? y ; z" := (try_bind y (λ x, z))
  (at level 20, y at level 100, z at level 200, only parsing) : rust_scope.
Notation "' x ←? y ; z" := (try_bind y (λ x : _, z))
  (at level 20, x pattern, y at level 100, z at level 200, only parsing) : rust_scope.

Definition panic {S A} (why : string) : M S A := λ s, (Panic why, s).
Definition undefined {S A} (why : string) : M S A := λ s, (UB why, s).
Definition hang {S A} (why : string) : M S A := λ s, (Hang why, s).
Definition gets {S A} (f : S → A) : M S A := λ s, (Done (f s), s).
Definition modify {S} (f : S → S) : M S unit := λ s, (Done tt, f s).
Definition embed {S A} (o : outcome A) : M S A := λ s, (o, s).
Definition assert {S} (b : bool) (why : string) : M S unit :=
  if b then mret tt else panic why.
Definition expect {S A} (o : option A) (why : string) : M S A :=
  match o with Some a => mret a | None => panic why end.
(** A raw-pointer access: [None] is a pointer to no live object. *)
Definition deref {S A} (o : option A) (why : string) : M S A :=
  match o with Some a => mret a | None => undefined why end.

(** Run code of a component inside the state of the whole. *)
Definition zoom {S T A} (get : S → T) (put : T → S → S) (m : M T A) : M S A :=
  λ s, let '(o, t) := m (get s) in (o, put t s).

(** A value with a destructor [d] that lives while [m] runs: [d] runs on
    normal exit and on unwinding; a panic inside an unwinding destructor
    aborts the process. *)
Definition with_drop {S A} (m : M S A) (d : M S unit) : M S A := λ s,
  match m s with
  | (Done a, s') => (d ≫= λ _, mret a) s'
  | (Panic w, s') =>
      match d s' with
      | (Done _, s'') => (Panic w, s'')
      | (Panic _, s'') => (Panic "abort: panic in a destructor during unwinding", s'')
      | (UB w', s'') => (UB w', s'')
      | (Hang w', s'') => (Hang w', s'')
      end
  | (o, s') => (o, s')
  end.

(** A value with destructor [d] that [m] moves into its result when it
    succeeds: [d] runs when [m] returns an error or unwinds. *)
Definition drop_on_failure {S A E} (m : M S (result A E)) (d : M S unit)
    : M S (result A E) := λ s,
  match m s with
  | (Done (Ok a), s') => (Done (Ok a), s')
  | (Done (Err e), s') => (d ≫= λ _, mret (Err e)) s'
  | (Panic w, s') =>
      match d s' with
      | (Done _, s'') => (Panic w, s'')
      | (Panic _, s'') => (Panic "abort: panic in a destructor during unwinding", s'')
      | (UB w', s'') => (UB w', s'')
      | (Hang w', s'') => (Hang w', s'')
      end
  | (o, s') => (o, s')
  end.

(** [for i in i0..i0 + n { body(i) }] *)
Fixpoint for_range {S} (i0 : Z) (n : nat) (body : Z → M S unit) : M S unit :=
  match n with
  | O => mret tt
  | S n => body i0 ≫= λ _, for_range (i0 + 1)%Z n body
  end.

Lemma run_bind_done {S X Y} (m : M S X) (k : X → M S Y) s x s' :
  m s = (Done x, s') → (m ≫= k) s = k x s'.
Proof. intros Hm. unfold mbind, M_bind. by rewrite Hm. Qed.

(** ** Weakest preconditions: [m] ends normally and [Q] holds of its result *)

Definition wp {S A} (m : M S A) (Q : A → S → Prop) (s : S) : Prop :=
  match m s with (Done a, s') => Q a s' | _ => False end.

Section wp_rules.
Context {S : Type}.
Implicit Types s : S.

Lemma wp_ret {A} (a : A) Q s : wp (mret a) Q s ↔ Q a s.
Proof. done. Qed.
Lemma wp_bind {A B} (m : M S A) (k : A → M S B) Q s :
  wp (m ≫= k) Q s ↔ wp m (λ a s', wp (k a) Q s') s.
Proof. unfold wp, mbind, M_bind. by destruct (m s) as [[]]. Qed.
Lemma wp_mono {A} (m : M S A) (Q Q' : A → S → Prop) s :
  wp m Q s → (∀ a s', Q a s' → Q' a s') → wp m Q' s.
Proof. unfold wp. destruct (m s) as [[]]; eauto. Qed.
Lemma wp_gets {A} (f : S → A) Q s : wp (gets f) Q s ↔ Q (f s) s.
Proof. done. Qed.
Lemma wp_modify (f : S → S) Q s : wp (modify f) Q s ↔ Q tt (f s).
Proof. done. Qed.
Lemma wp_run {A} (m : M S A) Q s :
  wp m Q s ↔ ∃ a s', m s = (Done a, s') ∧ Q a s'.
Proof.
  unfold wp. split.
  - destruct (m s) as [[]]; by eauto.
  - by intros (a & s' & -> & HQ).
Qed.
(** The result and the state reached are those of the run. *)
Lemma wp_saw {A} (m : M S A) Q s : wp m Q s → wp m (λ a s', m s = (Done a, s') ∧ Q a s') s.
Proof. unfold wp. by destruct (m s) as [[]]. Qed.
Lemma wp_assert (b : bool) why (Q : unit → S → Prop) s :
  wp (assert b why) Q s ↔ b = true ∧ Q tt s.
Proof. destruct b; unfold wp; simpl; split; first [by eauto | by intros []]. Qed.
Lemma wp_deref {A} (o : option A) why (Q : A → S → Prop) s :
  wp (deref o why) Q s ↔ ∃ a, o = Some a ∧ Q a s.
Proof. destruct o; unfold wp; simpl; split; first [done | by eauto | by intros (? & [= <-] & ?) | by intros (? & ? & ?)]. Qed.
Lemma wp_expect {A} (o : option A) why (Q : A → S → Prop) s :
  wp (expect o why) Q s ↔ ∃ a, o = Some a ∧ Q a s.
Proof. destruct o; unfold wp; simpl; split; first [done | by eauto | by intros (? & [= <-] & ?) | by intros (? & ? & ?)]. Qed.
Lemma wp_embed {A} (o : outcome A) (Q : A → S → Prop) s :
  wp (embed o) Q s ↔ ∃ a, o = Done a ∧ Q a s.
Proof. destruct o; unfold wp; simpl; split; first [done | by eauto | by intros (? & [= <-] & ?) | by intros (? & ? & ?)]. Qed.
Lemma wp_try_bind {A B E} (m : M S (result A E)) (k : A → M S (result B E)) Q s :
  wp (try_bind m k) Q s ↔
  wp m (λ r s', match r with Ok a => wp (k a) Q s' | Err e => Q (Err e) s' end) s.
Proof.
  unfold try_bind. rewrite wp_bind. unfold wp.
  destruct (m s) as [[[]|?|?|?] s']; reflexivity.
Qed.
Lemma wp_with_drop {A} (m : M S A) (d : M S unit) Q s :
  wp (with_drop m d) Q s ↔ wp m (λ a s', wp d (λ _ s'', Q a s'') s') s.
Proof.
  unfold wp, with_drop, mbind, M_bind. destruct (m s) as [[] s']; try done.
  - by destruct (d s') as [[]].
  - by destruct (d s') as [[]].
Qed.
Lemma wp_drop_on_failure {A E} (m : M S (result A E)) (d : M S unit) Q s :
  wp (drop_on_failure m d) Q s ↔
  wp m (λ r s', match r with Ok _ => Q r s' | Err _ => wp d (λ _ s'', Q r s'') s' end) s.
Proof.
  unfold wp, drop_on_failure, mbind, M_bind. destruct (m s) as [[[]|?|?|?] s']; try done.
  - by destruct (d s') as [[]].
  - by destruct (d s') as [[]].
Qed.
Lemma wp_zoom {T A} (get : S → T) (put : T → S → S) (m : M T A) Q s :
  wp (zoom get put m) Q s ↔ wp m (λ a t, Q a (put t s)) (get s).
Proof. unfold wp, zoom. by destruct (m (get s)) as [[]]. Qed.
End wp_rules.

Create HintDb wp.
#[export] Hint Rewrite @wp_ret @wp_bind @wp_gets @wp_modify @wp_assert @wp_deref
  @wp_expect @wp_embed @wp_try_bind @wp_with_drop
  @wp_drop_on_failure @wp_zoom : wp.

(** [wp_simp] runs the code forward as far as the rules determine it. *)
Ltac wp_simp := repeat first [progress autorewrite with wp | progress simpl].

(** [wp_use H] steps over a call whose specification is [H]; the
    postcondition becomes a premise. *)
Ltac wp_use H := eapply wp_mono; [eapply H|]; simpl.

(** ** What holds all along a run, after every initial part of its commands *)

Section along.
Context {X Y S : Type} (run : list X → M S Y).

Definition along (P : Y → S → Prop) (xs : list X) (s : S) : Prop :=
  ∀ xs0 y s', xs0 `prefix_of` xs → run xs0 s = (Done y, s') → P y s'.
Definition along_b (p : Y → S → bool) (xs : list X) (s : S) : bool :=
  forallb (λ n, match run (take n xs) s with (Done y, s') => p y s' | _ => true end)
    (seq 0 (length xs + 1)).

Lemma along_always P xs s : (∀ y s', P y s') → along P xs s.
Proof. by intros HP ? ? ? _ _. Qed.
Lemma along_eval p (P : Y → S → Prop) xs s : (∀ y s', p y s' = true → P y s') →
  along_b p xs s = true → along P xs s.
Proof.
  intros HP Hb xs0 y s' [rest ->] Hrun. apply HP. unfold along_b in Hb.
  rewrite List.forallb_forall in Hb. specialize (Hb (length xs0)).
  rewrite take_app_length, Hrun in Hb. apply Hb, List.in_seq. rewrite length_app. lia.
Qed.
End along.

(** ** What code leaves alone: a part [f] of the state that [m] never changes *)

Definition preserves {S V A} (f : S → V) (m : M S A) : Prop := ∀ s, f (m s).2 = f s.

Section preserves.
Context {S V : Type} (f : S → V).

Lemma preserves_ret {A} (a : A) : preserves f (mret a : M S A).
Proof. done. Qed.
Lemma preserves_bind {A B} (m : M S A) (k : A → M S B) :
  preserves f m → (∀ a, preserves f (k a)) → preserves f (m ≫= k).
Proof.
  intros Hm Hk s. unfold mbind, M_bind. specialize (Hm s).
  destruct (m s) as [[] s']; simpl in *; [by rewrite Hk|done..].
Qed.
Lemma preserves_gets {A} (g : S → A) : preserves f (gets g).
Proof. done. Qed.
Lemma preserves_modify (g : S → S) : (∀ s, f (g s) = f s) → preserves f (modify g).
Proof. intros Hg s. apply Hg. Qed.
Lemma preserves_fail {A} (o : outcome A) : preserves f (λ s, (o, s)).
Proof. done. Qed.
Lemma preserves_expect {A} (o : option A) why : preserves f (expect o why).
Proof. by destruct o. Qed.
(** Of a component that is no part of it, and of one it is a part of. *)
Lemma preserves_zoom {T A} (get : S → T) (put : T → S → S) (m : M T A) :
  (∀ t s, f (put t s) = f s) → preserves f (zoom get put m).
Proof. intros Hp s. unfold zoom. destruct (m (get s)) as [o t]. apply Hp. Qed.
Lemma preserves_zoom_in {T A} (g : T → V) (get : S → T) (put : T → S → S) (m : M T A) :
  (∀ t s, f (put t s) = g t) → (∀ s, g (get s) = f s) → preserves g m → preserves f (zoom get put m).
Proof.
  intros Hp Hg Hm s. unfold zoom. specialize (Hm (get s)). destruct (m (get s)) as [o t]. simpl in *.
  by rewrite Hp, Hm.
Qed.
Lemma wp_preserves {A} (m : M S A) Q s : preserves f m → wp m Q s → wp m (λ a s', Q a s' ∧ f s' = f s) s.
Proof. intros Hm. unfold wp. specialize (Hm s). by destruct (m s) as [[] s']. Qed.
End preserves.

Create HintDb preserves.
#[export] Hint Resolve preserves_ret preserves_gets preserves_fail preserves_expect : preserves.
(** Walks through the code; calls are found in the hint database. *)
Ltac solve_preserves := repeat first
  [ solve [eauto with preserves] | apply preserves_bind; [|intros ?] | case_match ].

(** ** Build profile *)

(** [overflow_checks] and [debug_assertions] are Cargo's settings of those
    names (on in the [dev] profile, off in [release]); [log_debug] says whether the [log] facade's
    level enables [log::debug!], which then formats its arguments. *)
Class Build := { overflow_checks : bool; debug_assertions : bool; log_debug : bool }.

Definition release_build : Build :=
  {| overflow_checks := false; debug_assertions := false; log_debug := false |}.
Definition debug_build : Build :=
  {| overflow_checks := true; debug_assertions := true; log_debug := false |}.

(** ** Machine integers: a [w]-bit unsigned value is a [Z] in [0, 2^w) *)

Local Open Scope Z_scope.

#[global] Arguments Z.eqb : simpl never.
#[global] Arguments Z.leb : simpl never.
#[global] Arguments Z.ltb : simpl never.
#[global] Arguments Z.land : simpl never.
#[global] Arguments Z.lor : simpl never.
#[global] Arguments Z.lxor : simpl never.

Definition wrap (w x : Z) : Z := x mod 2 ^ w.
Definition in_u (w x : Z) : Prop := 0 ≤ x < 2 ^ w.
(** [x as i32] of an unsigned (or already signed) value. *)
Definition as_i32 (x : Z) : Z := (x + 2 ^ 31) mod 2 ^ 32 - 2 ^ 31.

Section checked_arith.
Context `{Build}.
(** [a - b], [a + b] at type [u<w>] on the operators [-] and [+]. *)
Definition sub_u (w a b : Z) : outcome Z :=
  if b <=? a then Done (a - b)
  else if overflow_checks then Panic "attempt to subtract with overflow"
  else Done (wrap w (a - b)).
Definition add_u (w a b : Z) : outcome Z :=
  if a + b <? 2 ^ w then Done (a + b)
  else if overflow_checks then Panic "attempt to add with overflow"
  else Done (wrap w (a + b)).
(** [-a] at type [i32]. *)
Definition neg_i32 (a : Z) : outcome Z :=
  if decide (a = - 2 ^ 31) then
    if overflow_checks then Panic "attempt to negate with overflow" else Done a
  else Done (- a).
End checked_arith.

Lemma wrap_in_u w x : 0 ≤ w → in_u w (wrap w x).
Proof. intros. unfold in_u, wrap. apply Z.mod_pos_bound, Z.pow_pos_nonneg; lia. Qed.
Lemma wrap_id w x : in_u w x → wrap w x = x.
Proof. intros. by apply Z.mod_small. Qed.
Lemma wrap_idemp w x : wrap w (wrap w x) = wrap w x.
Proof. unfold wrap. apply Zmod_mod. Qed.

Lemma as_i32_id x : - 2 ^ 31 ≤ x < 2 ^ 31 → as_i32 x = x.
Proof. intros. unfold as_i32. rewrite Z.mod_small; lia. Qed.
Lemma as_i32_range x : - 2 ^ 31 ≤ as_i32 x < 2 ^ 31.
Proof. unfold as_i32. pose proof (Z.mod_pos_bound (x + 2 ^ 31) (2 ^ 32)). lia. Qed.
Lemma wrap_as_i32 x : wrap 32 (as_i32 x) = wrap 32 x.
Proof.
  unfold wrap, as_i32. rewrite Zminus_mod_idemp_l. f_equal. lia.
Qed.

Create HintDb rust discriminated.
#[export] Hint Resolve wrap_in_u wrap_id as_i32_id as_i32_range : rust.
#[export] Hint Rewrite wrap_idemp wrap_as_i32 : rust.

(** ** Flag sets ([bitflags!]) *)

(** Every flag type of the crate declares [_ALL = !0], so its set of known
    bits is the whole word. *)
Definition all_bits (w : Z) : Z := Z.ones w.
Definition from_bits_truncate (w bits : Z) : Z := Z.land bits (all_bits w).
Definition has_flag (flags f : Z) : bool := Z.land flags f =? f.

Lemma from_bits_truncate_id w bits : 0 ≤ w → in_u w bits → from_bits_truncate w bits = bits.
Proof.
  intros Hw Hb. unfold from_bits_truncate, all_bits.
  rewrite Z.land_ones by done. by apply Z.mod_small.
Qed.

