(* ===== verification/Std.v ===== *)
(** * The parts of Rust's [core] and [std] the crates use

    [io::Error] and its kinds, fat pointers to slices, and the byte view of
    memory in which unions live: a byte is [None] while it is uninitialised. *)

From S2P Require Import Prelude.

Local Open Scope Z_scope.

(** ** [std::io::Error] *)

Inductive ErrorKind : Type :=
| Interrupted | WouldBlock | TimedOut | Other | OtherOsError.

#[export] Instance ErrorKind_eq_dec : EqDecision ErrorKind.
Proof. solve_decision. Defined.

(** [Os code] is [Error::from_raw_os_error(code)], [Custom] is [Error::new]. *)
Inductive io_error : Type :=
| Os (code : Z)
| Custom (kind : ErrorKind) (msg : string).

#[export] Instance io_error_eq_dec : EqDecision io_error.
Proof. solve_decision. Defined.

(** [Error::kind] on Linux, for the kinds the crates test. *)
Definition EINTR : Z := 4.
Definition EAGAIN : Z := 11.
Definition ETIMEDOUT : Z := 110.
Definition kind (e : io_error) : ErrorKind :=
  match e with
  | Custom k _ => k
  | Os c =>
      if decide (c = EINTR) then Interrupted
      else if decide (c = EAGAIN) then WouldBlock
      else if decide (c = ETIMEDOUT) then TimedOut
      else OtherOsError
  end.

(** ** Fat pointers: [*const [T]] *)

Record slice_ptr : Type := { as_ptr : Z; slice_len : Z }.

(** ** Bytes, initialised or not *)

Abbreviation mbyte := (option Z).

Fixpoint le_bytes (n : nat) (x : Z) : list Z :=
  match n with
  | O => []
  | S n => x mod 256 :: le_bytes n (x / 256)
  end.
Fixpoint of_le (bs : list Z) : Z :=
  match bs with
  | [] => 0
  | b :: bs => b + 256 * of_le bs
  end.

(** A typed read of the bytes: [None] when one of them is uninitialised. *)
Fixpoint read_int (bs : list mbyte) : option Z :=
  match bs with
  | [] => Some 0
  | Some b :: bs => x ← read_int bs; Some (b + 256 * x)
  | None :: _ => None
  end.
Definition int_bytes (n : nat) (x : Z) : list mbyte := Some <$> le_bytes n x.
Definition uninit (n : nat) : list mbyte := replicate n None.
Definition zeroed (n : nat) : list mbyte := replicate n (Some 0).

Lemma length_le_bytes n x : length (le_bytes n x) = n.
Proof. revert x. induction n; simpl; auto. Qed.
Lemma length_int_bytes n x : length (int_bytes n x) = n.
Proof. unfold int_bytes. by rewrite length_fmap, length_le_bytes. Qed.

Lemma pow256_S n : 256 ^ Z.of_nat (S n) = 256 * 256 ^ Z.of_nat n.
Proof. rewrite Nat2Z.inj_succ, Z.pow_succ_r by lia. done. Qed.

Lemma of_le_bytes n x : of_le (le_bytes n x) = x mod 256 ^ Z.of_nat n.
Proof.
  revert x. induction n as [|n IH]; intros x; cbn [le_bytes of_le].
  - by rewrite Z.mod_1_r.
  - rewrite IH, pow256_S.
    rewrite Z.rem_mul_r by (try apply Z.pow_nonzero; lia). lia.
Qed.

Lemma read_int_init bs : read_int (Some <$> bs) = Some (of_le bs).
Proof. induction bs as [|b bs IH]; csimpl; [done|]. by rewrite IH. Qed.
Lemma read_int_bytes n x : read_int (int_bytes n x) = Some (x mod 256 ^ Z.of_nat n).
Proof. unfold int_bytes. by rewrite read_int_init, of_le_bytes. Qed.
Lemma read_uninit (bs : list mbyte) : None ∈ bs → read_int bs = None.
Proof.
  induction bs as [|[b|] bs IH]; csimpl; intros H.
  - by apply not_elem_of_nil in H.
  - apply elem_of_cons in H as [|H]; [done|]. by rewrite IH.
  - done.
Qed.

#[export] Hint Rewrite length_le_bytes length_int_bytes of_le_bytes read_int_bytes : rust.
