(* ===== verification/Sys.v ===== *)
(** * [io-uring-sys/src/lib.rs]: the kernel ABI

    The structures shared with the kernel (their [repr(C)] layouts, which the
    crate asserts at compile time), the operation codes and flag sets, the
    submission entry with its unions as bytes, the completion entry, and the
    system call wrappers. *)

From S2P Require Import Prelude Std.

Local Open Scope Z_scope.

(** ** C layouts *)

Record layout : Type := { size_of : Z; align_of : Z }.

Definition prim (n : Z) : layout := {| size_of := n; align_of := n |}.
Definition align_up (x a : Z) : Z := (x + a - 1) / a * a.

(** [#[repr(C)] struct]: each field at the next multiple of its alignment,
    the whole padded to the largest alignment. *)
Fixpoint place (at_ : Z) (fs : list layout) : list Z * Z :=
  match fs with
  | [] => ([], at_)
  | f :: fs =>
      let o := align_up at_ (align_of f) in
      let '(os, e) := place (o + size_of f) fs in (o :: os, e)
  end.
Definition max_align (fs : list layout) : Z := foldr (λ f m, Z.max (align_of f) m) 1 fs.
Definition repr_C (fs : list layout) : layout :=
  {| size_of := align_up (place 0 fs).2 (max_align fs); align_of := max_align fs |}.
Definition field_offsets (fs : list layout) : list Z := (place 0 fs).1.
Definition repr_C_union (fs : list layout) : layout :=
  {| size_of := align_up (foldr (λ f m, Z.max (size_of f) m) 0 fs) (max_align fs);
     align_of := max_align fs |}.
Definition array_of (f : layout) (n : Z) : layout :=
  {| size_of := n * size_of f; align_of := align_of f |}.

Definition u8 := prim 1.
Definition u16 := prim 2.
Definition u32 := prim 4.
Definition u64 := prim 8.
Definition i32 := prim 4.

Definition SubmissionQueueRingOffsets_fields : list layout :=
  [u32; u32; u32; u32; u32; u32; u32; array_of u32 3].
Definition CompletionQueueRingOffsets_fields : list layout :=
  [u32; u32; u32; u32; u32; u32; array_of u64 2].
Definition SetupParameters_fields : list layout :=
  [u32; u32; u32; u32; u32; array_of u32 5;
   repr_C SubmissionQueueRingOffsets_fields; repr_C CompletionQueueRingOffsets_fields].
Definition SubmissionEntryOperationFlags_fields : list layout := [u32; u32; u32; u16].
Definition SubmissionEntryFixedOp_fields : list layout := [u16].
Definition SubmissionEntryExtraData_fields : list layout :=
  [repr_C SubmissionEntryFixedOp_fields; array_of u64 3].
Definition SubmissionEntry_fields : list layout :=
  [repr_C [u8]; u8; repr_C [u16]; i32; u64; u64; u32;
   repr_C_union SubmissionEntryOperationFlags_fields; u64;
   repr_C_union SubmissionEntryExtraData_fields].
Definition CompletionEntry_fields : list layout := [u64; i32; u32].

(** [static_assert!(e1, ..., en)]: the length [(true && e1 && ...) as usize - 1]
    of an array type; a constant that underflows does not compile. *)
Definition static_assert (es : list bool) : option Z :=
  let n := Z.b2z (foldl andb true es) - 1 in
  if n <? 0 then None else Some n.

Definition abi_assertions : list bool :=
  [ size_of (repr_C SetupParameters_fields) =? 120;
    size_of (repr_C SubmissionQueueRingOffsets_fields) =? 40;
    size_of (repr_C CompletionQueueRingOffsets_fields) =? 40;
    size_of (repr_C SubmissionEntry_fields) =? 64;
    size_of (repr_C_union SubmissionEntryOperationFlags_fields) =? 4;
    size_of (repr_C_union SubmissionEntryExtraData_fields) =? 24;
    size_of (repr_C CompletionEntry_fields) =? 16;
    true ].

(** ** Set-up parameters and ring offsets *)

Record SubmissionQueueRingOffsets : Type := {
  sqo_head : Z; sqo_tail : Z; sqo_ring_mask : Z; sqo_ring_entries : Z;
  sqo_flags : Z; sqo_dropped : Z; sqo_array : Z }.
Record CompletionQueueRingOffsets : Type := {
  cqo_head : Z; cqo_tail : Z; cqo_ring_mask : Z; cqo_ring_entries : Z;
  cqo_overflow : Z; cqo_cqes : Z }.
Record SetupParameters : Type := {
  sq_entries : Z; cq_entries : Z; setup_flags : Z;
  sq_thread_cpu : Z; sq_thread_idle : Z;
  sq_off : SubmissionQueueRingOffsets; cq_off : CompletionQueueRingOffsets }.

Definition SUBMISSION_QUEUE_RING_OFFSET : Z := 0.
Definition COMPLETION_QUEUE_RING_OFFSET : Z := 0x8000000.
Definition SUBMISSION_QUEUE_ENTRIES_OFFSET : Z := 0x10000000.

Definition SubmissionQueueRingOffsets_default : SubmissionQueueRingOffsets :=
  {| sqo_head := 0; sqo_tail := 0; sqo_ring_mask := 0; sqo_ring_entries := 0;
     sqo_flags := 0; sqo_dropped := 0; sqo_array := 0 |}.
Definition CompletionQueueRingOffsets_default : CompletionQueueRingOffsets :=
  {| cqo_head := 0; cqo_tail := 0; cqo_ring_mask := 0; cqo_ring_entries := 0;
     cqo_overflow := 0; cqo_cqes := 0 |}.
Definition SetupParameters_new (flags : Z) : SetupParameters :=
  {| sq_entries := 0; cq_entries := 0; setup_flags := flags;
     sq_thread_cpu := 0; sq_thread_idle := 0;
     sq_off := SubmissionQueueRingOffsets_default;
     cq_off := CompletionQueueRingOffsets_default |}.

(** ** Flag sets *)

Definition EnterFlags_GETEVENTS : Z := Z.shiftl 1 0.
Definition EnterFlags_SQ_WAKEUP : Z := Z.shiftl 1 1.
Definition SetupFlags_IOPOLL : Z := Z.shiftl 1 0.
Definition SetupFlags_SQPOLL : Z := Z.shiftl 1 1.
Definition SetupFlags_SQ_AFF : Z := Z.shiftl 1 2.
Definition SubmissionQueueFlags_NEED_WAKEUP : Z := Z.shiftl 1 0.
Definition SubmissionEntryFlags_FIXED_FILE : Z := Z.shiftl 1 0.
Definition ReadWriteFlags_HIPRI : Z := 0x1.
Definition ReadWriteFlags_DSYNC : Z := 0x2.
Definition ReadWriteFlags_SYNC : Z := 0x4.
Definition ReadWriteFlags_NOWAIT : Z := 0x8.
Definition ReadWriteFlags_APPEND : Z := 0x10.
Definition ReadWriteFlags_SUPPORTED : Z :=
  Z.lor (Z.lor (Z.lor (Z.lor (Z.lor 0 ReadWriteFlags_HIPRI) ReadWriteFlags_DSYNC)
    ReadWriteFlags_SYNC) ReadWriteFlags_NOWAIT) ReadWriteFlags_APPEND.
Definition FsyncFlags_DATASYNC : Z := Z.shiftl 1 0.

(** The constants of the [libc] crate the poll flags are defined from. *)
Class LibcPoll := {
  POLLIN : Z; POLLOUT : Z; POLLPRI : Z; POLLERR : Z; POLLNVAL : Z; POLLRDNORM : Z;
  POLLRDBAND : Z; POLLWRNORM : Z; POLLWRBAND : Z; POLLHUP : Z }.

Section poll_flags.
Context `{LibcPoll}.
Definition PollFlags_IN : Z := wrap 16 POLLIN.
Definition PollFlags_OUT : Z := wrap 16 POLLOUT.
Definition PollFlags_PRI : Z := wrap 16 POLLPRI.
Definition PollFlags_ERR : Z := wrap 16 POLLERR.
Definition PollFlags_NVAL : Z := wrap 16 POLLNVAL.
Definition PollFlags_RDNORM : Z := wrap 16 POLLRDNORM.
Definition PollFlags_RDBAND : Z := wrap 16 POLLRDBAND.
Definition PollFlags_WRNORM : Z := wrap 16 POLLWRNORM.
Definition PollFlags_WRBAND : Z := wrap 16 POLLWRBAND.
Definition PollFlags_HUP : Z := wrap 16 POLLHUP.
Definition PollFlags_RDHUP : Z := 0x2000.
Definition PollFlags_MSG : Z := 0x0400.
End poll_flags.

(** What [bitflags!] makes of a declaration: a type of [fs_width] bits, whose
    [all()] is the union of the declared flags, to which [from_bits_truncate]
    cuts its argument. *)
Record FlagSet : Type := { fs_width : Z; fs_flags : list (string * Z) }.
Definition fs_all (fs : FlagSet) : Z := foldr Z.lor 0 (fs_flags fs).*2.
Definition fs_truncate (fs : FlagSet) (bits : Z) : Z := Z.land bits (fs_all fs).

Definition EnterFlags : FlagSet := {| fs_width := 32; fs_flags :=
  [("GETEVENTS", EnterFlags_GETEVENTS); ("SQ_WAKEUP", EnterFlags_SQ_WAKEUP);
   ("_ALL", Z.ones 32)] |}.
Definition SetupFlags : FlagSet := {| fs_width := 32; fs_flags :=
  [("IOPOLL", SetupFlags_IOPOLL); ("SQPOLL", SetupFlags_SQPOLL); ("SQ_AFF", SetupFlags_SQ_AFF);
   ("_ALL", Z.ones 32)] |}.
Definition SubmissionQueueFlags : FlagSet := {| fs_width := 32; fs_flags :=
  [("NEED_WAKEUP", SubmissionQueueFlags_NEED_WAKEUP); ("_ALL", Z.ones 32)] |}.
Definition SubmissionEntryFlags : FlagSet := {| fs_width := 8; fs_flags :=
  [("FIXED_FILE", SubmissionEntryFlags_FIXED_FILE); ("_ALL", Z.ones 8)] |}.
Definition ReadWriteFlags : FlagSet := {| fs_width := 32; fs_flags :=
  [("HIPRI", ReadWriteFlags_HIPRI); ("DSYNC", ReadWriteFlags_DSYNC); ("SYNC", ReadWriteFlags_SYNC);
   ("NOWAIT", ReadWriteFlags_NOWAIT); ("APPEND", ReadWriteFlags_APPEND);
   ("SUPPORTED", ReadWriteFlags_SUPPORTED); ("_ALL", Z.ones 32)] |}.
Definition FsyncFlags : FlagSet := {| fs_width := 32; fs_flags :=
  [("DATASYNC", FsyncFlags_DATASYNC); ("_ALL", Z.ones 32)] |}.
Definition PollFlags `{LibcPoll} : FlagSet := {| fs_width := 16; fs_flags :=
  [("IN", PollFlags_IN); ("OUT", PollFlags_OUT); ("PRI", PollFlags_PRI); ("ERR", PollFlags_ERR);
   ("NVAL", PollFlags_NVAL); ("RDNORM", PollFlags_RDNORM); ("RDBAND", PollFlags_RDBAND);
   ("WRNORM", PollFlags_WRNORM); ("WRBAND", PollFlags_WRBAND); ("HUP", PollFlags_HUP);
   ("RDHUP", PollFlags_RDHUP); ("MSG", PollFlags_MSG); ("_ALL", Z.ones 16)] |}.

(** A word of [w] bits is below [!0]. *)
Lemma lor_ones w x : 0 ≤ w → in_u w x → Z.lor x (Z.ones w) = Z.ones w.
Proof.
  intros Hw [Hx0 Hx]. apply Z.bits_inj'. intros n Hn. rewrite Z.lor_spec.
  destruct (Z.ltb_spec n w) as [Hlt|Hge].
  - rewrite Z.ones_spec_low by lia. apply orb_true_r.
  - rewrite Z.ones_spec_high, orb_false_r by lia.
    destruct (Z.eq_dec x 0) as [->|]; [apply Z.bits_0|].
    apply Z.bits_above_log2; [done|]. apply Z.log2_lt_pow2; [lia|].
    eapply Z.lt_le_trans; [exact Hx|]. by apply Z.pow_le_mono_r.
Qed.
(** "don't truncate any bits": every flag type is all its bits. *)
Lemma flag_sets_full `{LibcPoll} : Forall (λ fs, fs_all fs = all_bits (fs_width fs))
  [EnterFlags; SetupFlags; SubmissionQueueFlags; SubmissionEntryFlags; ReadWriteFlags; FsyncFlags;
   PollFlags].
Proof.
  do 6 (apply List.Forall_cons; [by vm_compute|]). apply List.Forall_cons; [|apply List.Forall_nil].
  unfold fs_all, all_bits. cbn [fs_flags PollFlags fmap list_fmap snd foldr fs_width]. rewrite Z.lor_0_r.
  repeat (rewrite lor_ones; [|lia|first [apply wrap_in_u; lia|split; by vm_compute]]). done.
Qed.
Lemma flag_sets_keep_bits `{LibcPoll} fs bits :
  fs ∈ [EnterFlags; SetupFlags; SubmissionQueueFlags; SubmissionEntryFlags; ReadWriteFlags; FsyncFlags;
   PollFlags] → in_u (fs_width fs) bits → 0 ≤ fs_width fs →
  fs_truncate fs bits = from_bits_truncate (fs_width fs) bits ∧ fs_truncate fs bits = bits.
Proof.
  intros Hin Hb Hw. pose proof flag_sets_full as Hall. rewrite list.Forall_forall in Hall.
  unfold fs_truncate. rewrite (Hall _ Hin). split; [done|]. by apply from_bits_truncate_id.
Qed.

(** ** Operation codes *)

Inductive Operation : Type :=
| Nop | Readv | Writev | Fsync | ReadFixed | WriteFixed | PollAdd | PollRemove.

#[export] Instance Operation_eq_dec : EqDecision Operation.
Proof. solve_decision. Defined.

(** [op as u8]: the declared discriminants. *)
Definition Operation_as_u8 (op : Operation) : Z :=
  match op with
  | Nop => 0 | Readv => 1 | Writev => 2 | Fsync => 3
  | ReadFixed => 4 | WriteFixed => 5 | PollAdd => 6 | PollRemove => 7
  end.
Definition Operation_default : Operation := Nop.
(** [RawOperation(pub u8)] *)
Definition RawOperation_from (op : Operation) : Z := Operation_as_u8 op.
Definition RawOperation_decode (raw : Z) : option Operation :=
  match raw with
  | 0 => Some Nop
  | 1 => Some Readv
  | 2 => Some Writev
  | 3 => Some Fsync
  | 4 => Some ReadFixed
  | 5 => Some WriteFixed
  | 6 => Some PollAdd
  | 7 => Some PollRemove
  | _ => None
  end.

(** [Debug]: the name of a known operation, or the raw code. *)
Definition RawOperation_fmt (raw : Z) : Operation + Z :=
  match RawOperation_decode raw with
  | Some op => inl op
  | None => inr raw
  end.

(** ** Submission and completion entries *)

(** [union SubmissionEntryOperationFlags]: four bytes.  A union built from
    one field leaves the bytes that field does not cover uninitialised. *)
Definition op_flags_from_u32 (raw : Z) : list mbyte := int_bytes 4 raw.
Definition op_flags_from_ReadWriteFlags (rw_flags : Z) : list mbyte := int_bytes 4 rw_flags.
Definition op_flags_from_FsyncFlags (fsync_flags : Z) : list mbyte := int_bytes 4 fsync_flags.
Definition op_flags_from_PollFlags (poll_events : Z) : list mbyte :=
  int_bytes 2 poll_events ++ uninit 2.

(** Reading a field of the union. *)
Definition op_flags_raw (b : list mbyte) : option Z := read_int b.
Definition op_flags_poll_events (b : list mbyte) : option Z := read_int (take 2 b).

Record SubmissionEntry : Type := {
  sqe_opcode : Z; sqe_flags : Z; sqe_ioprio : Z; sqe_fd : Z;
  sqe_off : Z; sqe_addr : Z; sqe_len : Z;
  sqe_op_flags : list mbyte; sqe_user_data : Z;
  sqe_extra : list mbyte (* [union SubmissionEntryExtraData]: 24 bytes *) }.

Record CompletionEntry : Type := {
  cqe_user_data : Z; cqe_res : Z; cqe_flags : Z }.

(** [self.extra.fixed.buf_index = v]: two bytes, in place. *)
Definition extra_set_buf_index (v : Z) (e : list mbyte) : list mbyte :=
  int_bytes 2 v ++ drop 2 e.
Definition extra_buf_index (e : list mbyte) : option Z := read_int (take 2 e).

(** [#[derive(Debug)]] reads every field, and the hand-written [Debug] of the
    unions reads every union field: what is printed, or undefined behaviour
    when an uninitialised byte is read as an integer. *)
Definition read_for_debug (name : string) (o : option Z) : outcome (string * Z) :=
  match o with Some v => Done (name, v) | None => UB "read of uninitialised bytes" end.
Definition outcome_all {A} (os : list (outcome A)) : outcome (list A) :=
  foldr (λ o acc, match o, acc with
                  | Done a, Done l => Done (a :: l)
                  | Done _, bad => bad
                  | Panic w, _ => Panic w | UB w, _ => UB w | Hang w, _ => Hang w
                  end) (Done []) os.
Definition SubmissionEntryOperationFlags_fmt (b : list mbyte) : outcome (list (string * Z)) :=
  outcome_all [read_for_debug "raw" (op_flags_raw b);
               read_for_debug "rw_flags" (op_flags_raw b);
               read_for_debug "fsync_flags" (op_flags_raw b);
               read_for_debug "poll_events" (op_flags_poll_events b)].
Definition SubmissionEntryExtraData_fmt (e : list mbyte) : outcome (list (string * Z)) :=
  outcome_all [read_for_debug "fixed" (extra_buf_index e)].
Definition SubmissionEntry_fmt (e : SubmissionEntry) : outcome (list (string * Z)) :=
  match SubmissionEntryOperationFlags_fmt (sqe_op_flags e),
        SubmissionEntryExtraData_fmt (sqe_extra e) with
  | Done fs, Done xs =>
      Done ([("opcode", sqe_opcode e); ("flags", sqe_flags e); ("ioprio", sqe_ioprio e);
             ("fd", sqe_fd e); ("off", sqe_off e); ("addr", sqe_addr e);
             ("len", sqe_len e)] ++ fs ++ [("user_data", sqe_user_data e)] ++ xs)%list
  | UB w, _ | _, UB w => UB w
  | Panic w, _ | _, Panic w => Panic w
  | Hang w, _ | _, Hang w => Hang w
  end.

(** ** System calls *)

Definition SYS_io_uring_setup : Z := 425.
Definition SYS_io_uring_enter : Z := 426.
Definition SYS_io_uring_register : Z := 427.

(** What the crates use of [libc] with an effect outside the process, over a
    state [S] of the operating system: [libc::syscall] (number, arguments, the
    [c_long] result); the same for [io_uring_setup], which also updates the
    parameters its second argument points to; the thread's [errno], behind
    [io::Error::last_os_error]; the calls on mappings and descriptors. *)
Class Libc (S : Type) := {
  syscall : Z → list Z → M S Z;
  syscall_setup : Z → Z → SetupParameters → M S (Z * SetupParameters);
  errno : M S Z;
  mmap : Z → Z → Z → Z → Z → Z → M S Z; (* addr len prot flags fd offset *)
  munmap : Z → Z → M S Z;
  close : Z → M S unit;
  sizeof_sigset_t : Z;
  PROT_READ : Z; PROT_WRITE : Z; MAP_SHARED : Z; MAP_POPULATE : Z; MAP_FAILED : Z }.

Definition as_i64 (x : Z) : Z := (x + 2 ^ 63) mod 2 ^ 64 - 2 ^ 63.

Section syscalls.
Context {S : Type} `{Libc S}.

Definition last_os_error : M S io_error := e ← errno; mret (Os e).

Definition io_uring_setup (entries : Z) (params : SetupParameters)
    : M S (Z * SetupParameters) :=
  r ← syscall_setup SYS_io_uring_setup entries params; mret (as_i32 r.1, r.2).
Definition io_uring_enter (fd to_submit min_complete flags sig : Z) : M S Z :=
  r ← syscall SYS_io_uring_enter
    [fd; to_submit; min_complete; flags; as_i64 sig; as_i64 sizeof_sigset_t];
  mret (as_i32 r).
Definition io_uring_register (fd opcode arg nr_args : Z) : M S Z :=
  r ← syscall SYS_io_uring_register [fd; opcode; as_i64 arg; nr_args];
  mret (as_i32 r).
End syscalls.

(** [RegisterOpCode] *)
Definition REGISTER_BUFFERS : Z := 0.
Definition UNREGISTER_BUFFERS : Z := 1.
Definition REGISTER_FILES : Z := 2.
Definition UNREGISTER_FILES : Z := 3.

(** ** Properties of the ABI *)

(** The assertions the crate makes at compile time hold of the [repr(C)]
    layouts of its structures, the eight conditions together, so the constant
    [static_assert!] builds does not underflow; and the fields of the
    submission entry lie at the offsets the kernel reads them from. *)
Theorem abi_layout :
  static_assert abi_assertions = Some 0 ∧
  field_offsets SubmissionEntry_fields = [0; 1; 2; 4; 8; 16; 24; 28; 32; 40] ∧
  field_offsets CompletionEntry_fields = [0; 8; 12] ∧
  field_offsets SetupParameters_fields = [0; 4; 8; 12; 16; 20; 40; 80].
Proof. vm_compute. repeat split. Qed.

(** [RawOperation::decode] inverts the encoding of an operation, and
    accepts exactly the bytes that encode one. *)
Theorem RawOperation_roundtrip op raw :
  RawOperation_decode (RawOperation_from op) = Some op ∧
  (RawOperation_decode raw = Some op ↔ raw = RawOperation_from op).
Proof.
  split; [by destruct op|]. split; [|by intros ->; destruct op].
  unfold RawOperation_decode.
  destruct raw as [|[[[]|[]|]|[[]|[]|]|]|]; intros [= <-]; done.
Qed.
