(* ===== verification/Submission.v ===== *)
(** * [io-uring-sys/src/submission.rs]: filling submission entries

    I/O priorities and their 16-bit encoding, file descriptor targets, and the
    methods of [SubmissionEntry] that fill an entry for each operation. *)

From S2P Require Import Prelude Std Sys.

Local Open Scope Z_scope.

(** ** I/O priorities *)

Inductive IoPriorityLevel : Type :=
| Level0 | Level1 | Level2 | Level3 | Level4 | Level5 | Level6 | Level7.

#[export] Instance IoPriorityLevel_eq_dec : EqDecision IoPriorityLevel.
Proof. solve_decision. Defined.

Definition IoPriorityLevel_as_u8 (l : IoPriorityLevel) : Z :=
  match l with
  | Level0 => 0 | Level1 => 1 | Level2 => 2 | Level3 => 3
  | Level4 => 4 | Level5 => 5 | Level6 => 6 | Level7 => 7
  end.
Definition IoPriorityLevel_try_from (v : Z) : option IoPriorityLevel :=
  match v with
  | 0 => Some Level0
  | 1 => Some Level1
  | 2 => Some Level2
  | 3 => Some Level3
  | 4 => Some Level4
  | 5 => Some Level5
  | 6 => Some Level6
  | 7 => Some Level7
  | _ => None
  end.

Inductive IoPriority : Type :=
| IoPriority_None
| IoPriority_Realtime (l : IoPriorityLevel)
| IoPriority_BestEffort (l : IoPriorityLevel)
| IoPriority_Idle.

#[export] Instance IoPriority_eq_dec : EqDecision IoPriority.
Proof. solve_decision. Defined.

Definition IoPriority_default : IoPriority := IoPriority_None.

(** The argument is the [u16] of an [EncodedIoPriority]; [e.0 as u8] keeps its
    low eight bits. *)
Definition IoPriority_try_from (e : Z) : option IoPriority :=
  match Z.shiftr e 13 with
  | 0 => Some IoPriority_None
  | 1 => l ← IoPriorityLevel_try_from (wrap 8 e); Some (IoPriority_Realtime l)
  | 2 => l ← IoPriorityLevel_try_from (wrap 8 e); Some (IoPriority_BestEffort l)
  | 3 => Some IoPriority_Idle
  | _ => None
  end.
Definition IoPriority_into (p : IoPriority) : Z :=
  match p with
  | IoPriority_None => Z.shiftl 0 13
  | IoPriority_Realtime l => Z.lor (Z.shiftl 1 13) (IoPriorityLevel_as_u8 l)
  | IoPriority_BestEffort l => Z.lor (Z.shiftl 2 13) (IoPriorityLevel_as_u8 l)
  | IoPriority_Idle => Z.shiftl 3 13
  end.

(** ** File descriptor targets *)

Inductive FileDescriptor : Type :=
| FD (fd : Z)       (* an [i32] *)
| Fixed (ndx : Z).  (* a [u32] index into the registered files *)

Definition FileDescriptor_wf (f : FileDescriptor) : Prop :=
  match f with FD fd => - 2 ^ 31 ≤ fd < 2 ^ 31 | Fixed ndx => in_u 32 ndx end.

(** The [match fd] every filling method contains: the entry's flags (reset
    to the default just before) and its [fd] field. *)
Definition set_target (f : FileDescriptor) : Z * Z :=
  match f with
  | FD fd => (0, fd)
  | Fixed ndx => (Z.lor 0 SubmissionEntryFlags_FIXED_FILE, as_i32 ndx)
  end.

(** ** Filling an entry *)

Definition zeroed_entry : SubmissionEntry :=
  {| sqe_opcode := 0; sqe_flags := 0; sqe_ioprio := 0; sqe_fd := 0;
     sqe_off := 0; sqe_addr := 0; sqe_len := 0;
     sqe_op_flags := zeroed 4; sqe_user_data := 0; sqe_extra := zeroed 24 |}.
(** [*self = core::mem::zeroed()] *)
Definition clear (self : SubmissionEntry) : SubmissionEntry := zeroed_entry.

Definition iov (self : SubmissionEntry) (op : Operation) (prio : IoPriority)
    (fd : FileDescriptor) (offset flags : Z) (iov : slice_ptr) : SubmissionEntry :=
  let '(fl, n) := set_target fd in
  {| sqe_opcode := RawOperation_from op; sqe_flags := fl;
     sqe_ioprio := IoPriority_into prio; sqe_fd := n;
     sqe_off := offset; sqe_addr := as_ptr iov; sqe_len := wrap 32 (slice_len iov);
     sqe_op_flags := op_flags_from_ReadWriteFlags flags;
     sqe_user_data := sqe_user_data self;
     sqe_extra := extra_set_buf_index 0 (sqe_extra self) |}.

Definition readv (self : SubmissionEntry) prio fd offset flags iovec : SubmissionEntry :=
  iov self Readv prio fd offset flags iovec.
Definition writev (self : SubmissionEntry) prio fd offset flags iovec : SubmissionEntry :=
  iov self Writev prio fd offset flags iovec.

Definition io_fixed (self : SubmissionEntry) (op : Operation) (prio : IoPriority)
    (fd : FileDescriptor) (offset flags buf_index : Z) (buf : slice_ptr) : SubmissionEntry :=
  let '(fl, n) := set_target fd in
  {| sqe_opcode := RawOperation_from op; sqe_flags := fl;
     sqe_ioprio := IoPriority_into prio; sqe_fd := n;
     sqe_off := offset; sqe_addr := as_ptr buf; sqe_len := wrap 32 (slice_len buf);
     sqe_op_flags := op_flags_from_ReadWriteFlags flags;
     sqe_user_data := sqe_user_data self;
     sqe_extra := extra_set_buf_index buf_index (sqe_extra self) |}.

Definition read_fixed (self : SubmissionEntry) prio fd offset flags buf_index buf :=
  io_fixed self ReadFixed prio fd offset flags buf_index buf.
Definition write_fixed (self : SubmissionEntry) prio fd offset flags buf_index buf :=
  io_fixed self WriteFixed prio fd offset flags buf_index buf.

Definition fsync (self : SubmissionEntry) (fd : FileDescriptor) (flags offset len : Z)
    : SubmissionEntry :=
  let '(fl, n) := set_target fd in
  {| sqe_opcode := RawOperation_from Fsync; sqe_flags := fl; sqe_ioprio := 0; sqe_fd := n;
     sqe_off := offset; sqe_addr := 0; sqe_len := len;
     sqe_op_flags := op_flags_from_FsyncFlags flags;
     sqe_user_data := sqe_user_data self;
     sqe_extra := extra_set_buf_index 0 (sqe_extra self) |}.
Definition fsync_full (self : SubmissionEntry) (fd : FileDescriptor) (flags : Z) :=
  fsync self fd flags 0 0.

Definition poll_add (self : SubmissionEntry) (fd : FileDescriptor) (flags : Z)
    : SubmissionEntry :=
  let '(fl, n) := set_target fd in
  {| sqe_opcode := RawOperation_from PollAdd; sqe_flags := fl; sqe_ioprio := 0; sqe_fd := n;
     sqe_off := 0; sqe_addr := 0; sqe_len := 0;
     sqe_op_flags := op_flags_from_PollFlags flags;
     sqe_user_data := sqe_user_data self;
     sqe_extra := extra_set_buf_index 0 (sqe_extra self) |}.

Definition poll_remove (self : SubmissionEntry) (match_user_data : Z) : SubmissionEntry :=
  {| sqe_opcode := RawOperation_from PollRemove; sqe_flags := 0; sqe_ioprio := 0; sqe_fd := 0;
     sqe_off := 0; sqe_addr := match_user_data; sqe_len := 0;
     sqe_op_flags := op_flags_from_u32 0;
     sqe_user_data := sqe_user_data self;
     sqe_extra := extra_set_buf_index 0 (sqe_extra self) |}.

(** [entry.user_data = v] *)
Definition set_user_data (v : Z) (e : SubmissionEntry) : SubmissionEntry :=
  {| sqe_opcode := sqe_opcode e; sqe_flags := sqe_flags e; sqe_ioprio := sqe_ioprio e;
     sqe_fd := sqe_fd e; sqe_off := sqe_off e; sqe_addr := sqe_addr e; sqe_len := sqe_len e;
     sqe_op_flags := sqe_op_flags e; sqe_user_data := v; sqe_extra := sqe_extra e |}.

(** ** Well-formed entries: every field within its Rust type *)

Definition mbyte_wf (b : mbyte) : Prop := match b with Some x => in_u 8 x | None => True end.

Definition bytes_ok (n : nat) (bs : list mbyte) : Prop :=
  length bs = n ∧ Forall mbyte_wf bs.

Record sqe_wf (e : SubmissionEntry) : Prop := {
  wf_opcode : in_u 8 (sqe_opcode e);
  wf_flags : in_u 8 (sqe_flags e);
  wf_ioprio : in_u 16 (sqe_ioprio e);
  wf_fd : - 2 ^ 31 ≤ sqe_fd e < 2 ^ 31;
  wf_off : in_u 64 (sqe_off e);
  wf_addr : in_u 64 (sqe_addr e);
  wf_len : in_u 32 (sqe_len e);
  wf_op_flags : bytes_ok 4 (sqe_op_flags e);
  wf_user_data : in_u 64 (sqe_user_data e);
  wf_extra : bytes_ok 24 (sqe_extra e) }.

(** The operations a client can ask of an entry, as data: what the methods
    above are called with. *)
Inductive request : Type :=
| ReqReadv (prio : IoPriority) (fd : FileDescriptor) (offset flags : Z) (v : slice_ptr)
| ReqWritev (prio : IoPriority) (fd : FileDescriptor) (offset flags : Z) (v : slice_ptr)
| ReqReadFixed (prio : IoPriority) (fd : FileDescriptor) (offset flags ndx : Z) (b : slice_ptr)
| ReqWriteFixed (prio : IoPriority) (fd : FileDescriptor) (offset flags ndx : Z) (b : slice_ptr)
| ReqFsync (fd : FileDescriptor) (flags offset len : Z)
| ReqPollAdd (fd : FileDescriptor) (flags : Z)
| ReqPollRemove (match_user_data : Z).

Definition fill (r : request) (e : SubmissionEntry) : SubmissionEntry :=
  match r with
  | ReqReadv p f o fl v => readv e p f o fl v
  | ReqWritev p f o fl v => writev e p f o fl v
  | ReqReadFixed p f o fl n b => read_fixed e p f o fl n b
  | ReqWriteFixed p f o fl n b => write_fixed e p f o fl n b
  | ReqFsync f fl o l => fsync e f fl o l
  | ReqPollAdd f fl => poll_add e f fl
  | ReqPollRemove u => poll_remove e u
  end.

Definition slice_wf (v : slice_ptr) : Prop := in_u 64 (as_ptr v) ∧ in_u 64 (slice_len v).
Definition request_wf (r : request) : Prop :=
  match r with
  | ReqReadv _ f o fl v | ReqWritev _ f o fl v =>
      FileDescriptor_wf f ∧ in_u 64 o ∧ in_u 32 fl ∧ slice_wf v
  | ReqReadFixed _ f o fl n v | ReqWriteFixed _ f o fl n v =>
      FileDescriptor_wf f ∧ in_u 64 o ∧ in_u 32 fl ∧ in_u 16 n ∧ slice_wf v
  | ReqFsync f fl o l => FileDescriptor_wf f ∧ in_u 32 fl ∧ in_u 64 o ∧ in_u 32 l
  | ReqPollAdd f fl => FileDescriptor_wf f ∧ in_u 16 fl
  | ReqPollRemove u => in_u 64 u
  end.
Definition request_op (r : request) : Operation :=
  match r with
  | ReqReadv _ _ _ _ _ => Readv | ReqWritev _ _ _ _ _ => Writev
  | ReqReadFixed _ _ _ _ _ _ => ReadFixed | ReqWriteFixed _ _ _ _ _ _ => WriteFixed
  | ReqFsync _ _ _ _ => Fsync | ReqPollAdd _ _ => PollAdd | ReqPollRemove _ => PollRemove
  end.
Definition request_target (r : request) : option FileDescriptor :=
  match r with
  | ReqReadv _ f _ _ _ | ReqWritev _ f _ _ _ | ReqReadFixed _ f _ _ _ _
  | ReqWriteFixed _ f _ _ _ _ | ReqFsync f _ _ _ | ReqPollAdd f _ => Some f
  | ReqPollRemove _ => None
  end.

(** What the kernel reads back from the [flags] and [fd] fields. *)
Definition entry_target (e : SubmissionEntry) : FileDescriptor :=
  if has_flag (sqe_flags e) SubmissionEntryFlags_FIXED_FILE
  then Fixed (wrap 32 (sqe_fd e)) else FD (sqe_fd e).

(** ** Properties of the encodings *)

(** [IoPriority::try_from] inverts the conversion into the 16-bit
    encoding, and the encoding fits in a [u16]. *)
Theorem IoPriority_roundtrip p :
  IoPriority_try_from (IoPriority_into p) = Some p ∧ in_u 16 (IoPriority_into p).
Proof. destruct p as [|[]|[]|]; by vm_compute. Qed.

(** Bits 8 to 12 of an encoding with a level, bits 0 to 12 of one without. *)
Definition reserved_bits (p : IoPriority) (e : Z) : Z :=
  match p with
  | IoPriority_None | IoPriority_Idle => e mod 2 ^ 13
  | _ => e mod 2 ^ 13 - e mod 2 ^ 8
  end.

Lemma level_try_from_spec v l :
  IoPriorityLevel_try_from v = Some l ↔ v = IoPriorityLevel_as_u8 l.
Proof.
  split; [|by intros ->; destruct l].
  unfold IoPriorityLevel_try_from.
  destruct v as [|[[[]|[]|]|[[]|[]|]|]|]; intros [= <-]; done.
Qed.

Lemma IoPriority_into_value p :
  IoPriority_into p =
  match p with
  | IoPriority_None => 0
  | IoPriority_Realtime l => 2 ^ 13 + IoPriorityLevel_as_u8 l
  | IoPriority_BestEffort l => 2 * 2 ^ 13 + IoPriorityLevel_as_u8 l
  | IoPriority_Idle => 3 * 2 ^ 13
  end.
Proof. by destruct p as [|[]|[]|]. Qed.

(** Decoding ignores the reserved bits: [try_from] accepts an encoding
    exactly when its class (the top three bits) is 0 or 3, or 1 or 2 with a low
    byte below eight, and re-encoding the result gives the value back with its
    reserved bits cleared.  So [into] after [try_from] is not the identity:
    the encoding [0x2103] decodes to real-time level 3, which encodes to [0x2003]. *)
Theorem IoPriority_decode_clears_reserved e p (He : in_u 16 e)
    (Hp : IoPriority_try_from e = Some p) :
  IoPriority_into p = e - reserved_bits p e ∧
  (IoPriority_into p = e ↔ reserved_bits p e = 0).
Proof.
  assert (H : IoPriority_into p = e - reserved_bits p e); [|rewrite H; lia].
  rewrite IoPriority_into_value. unfold IoPriority_try_from, wrap in Hp.
  rewrite Z.shiftr_div_pow2 in Hp by lia. unfold in_u in He.
  pose proof (Z.div_mod e (2 ^ 13)). pose proof (Z.mod_pos_bound e (2 ^ 13)).
  assert (Hlev : ∀ l, IoPriorityLevel_try_from (e mod 2 ^ 8) = Some l →
    IoPriorityLevel_as_u8 l = e mod 2 ^ 8) by (intros l Hl; symmetry; by apply level_try_from_spec).
  destruct (e / 2 ^ 13) as [|[[]|[]|]|] eqn:Hc; try done;
    try (destruct (IoPriorityLevel_try_from _) as [l|] eqn:Hl; [specialize (Hlev l eq_refl)|done]);
    simpl in Hp; injection Hp as <-; unfold reserved_bits; lia.
Qed.
Lemma IoPriority_decode_clears_reserved_witness :
  IoPriority_into (IoPriority_Realtime Level3) = 0x2003 ∧
  IoPriority_into (IoPriority_Realtime Level3) = 0x2103 - reserved_bits (IoPriority_Realtime Level3) 0x2103.
Proof.
  split; [done|].
  apply (IoPriority_decode_clears_reserved 0x2103 (IoPriority_Realtime Level3)); [|done].
  unfold in_u; lia.
Defined.

Lemma int_bytes_wf n x : Forall mbyte_wf (int_bytes n x).
Proof.
  unfold int_bytes. apply Forall_fmap. revert x.
  induction n as [|n IH]; intros x; simpl; constructor; [|apply IH].
  unfold mbyte_wf, in_u. simpl. apply Z.mod_pos_bound. lia.
Qed.
Lemma replicate_wf n b : mbyte_wf b → Forall mbyte_wf (replicate n b).
Proof. intros. by apply Forall_replicate. Qed.

Lemma bytes_ok_int n x : bytes_ok n (int_bytes n x).
Proof. split; [by rewrite length_int_bytes|apply int_bytes_wf]. Qed.
Lemma bytes_ok_app n k bs cs : bytes_ok n bs → bytes_ok k cs → bytes_ok (n + k) (bs ++ cs)%list.
Proof. intros [<- ?] [<- ?]. split; [apply length_app|by apply Forall_app]. Qed.
Lemma bytes_ok_buf_index v e : bytes_ok 24 e → bytes_ok 24 (extra_set_buf_index v e).
Proof.
  intros [Hl HF]. apply (bytes_ok_app 2 22); [apply bytes_ok_int|].
  split; [rewrite length_drop; lia|by apply Forall_drop].
Qed.
Lemma bytes_ok_poll fl : bytes_ok 4 (op_flags_from_PollFlags fl).
Proof. apply (bytes_ok_app 2 2); [apply bytes_ok_int|]. split; [done|by apply replicate_wf]. Qed.

Lemma set_target_wf f : FileDescriptor_wf f →
  in_u 8 (set_target f).1 ∧ - 2 ^ 31 ≤ (set_target f).2 < 2 ^ 31.
Proof.
  destruct f as [fd|ndx]; simpl; intros Hf; unfold in_u.
  - lia.
  - pose proof (as_i32_range ndx). split; [by vm_compute|lia].
Qed.
Lemma IoPriority_into_u16 p : in_u 16 (IoPriority_into p).
Proof. by destruct p as [|[]|[]|]; vm_compute. Qed.
Lemma opcode_u8 op : in_u 8 (RawOperation_from op).
Proof. by destruct op; vm_compute. Qed.
Lemma in_u_0 w : 0 ≤ w → in_u w 0.
Proof. intros. split; [lia|]. apply Z.pow_pos_nonneg; lia. Qed.
#[export] Hint Resolve bytes_ok_int bytes_ok_buf_index bytes_ok_poll IoPriority_into_u16
  opcode_u8 in_u_0 : rust.

Lemma clear_wf e : sqe_wf (clear e).
Proof.
  constructor; simpl; try (apply in_u_0; lia); try lia.
  - split; [done|]. apply (replicate_wf 4). simpl. apply in_u_0; lia.
  - split; [done|]. apply (replicate_wf 24). simpl. apply in_u_0; lia.
Qed.
Lemma set_user_data_wf v e : in_u 64 v → sqe_wf e → sqe_wf (set_user_data v e).
Proof. intros ? []. by constructor. Qed.

(** C37: filling an entry, whatever it held before, leaves every field within
    its Rust type: the opcode is the operation's, a slice longer than [u32] is
    truncated to its low 32 bits, an index into the registered files is stored
    as an [i32], and the unions keep their four and 24 bytes. *)
Theorem fill_wf r e (Hr : request_wf r) (He : sqe_wf e) :
  sqe_wf (fill r e) ∧ RawOperation_decode (sqe_opcode (fill r e)) = Some (request_op r).
Proof.
  assert (Hx : ∀ v, bytes_ok 24 (extra_set_buf_index v (sqe_extra e)))
    by (intros; apply bytes_ok_buf_index, He).
  assert (Hu := wf_user_data _ He).
  split; [|destruct r as [? []|? []|? []|? []|[]|[]|]; reflexivity].
  destruct r as [? f|? f|? f|? f|f|f|]; simpl in Hr; destruct_and?;
    try match goal with H : FileDescriptor_wf ?f |- _ => pose proof (set_target_wf f H) end;
    unfold fill, readv, writev, read_fixed, write_fixed, iov, io_fixed, fsync, poll_add,
      poll_remove, slice_wf in *; try destruct (set_target f); destruct_and?;
    constructor; simpl in *; auto with rust lia; try (apply wrap_in_u; lia);
    try (apply in_u_0; lia); try apply bytes_ok_int; try apply Hx.
  all: solve [apply bytes_ok_poll | by vm_compute].
Qed.
Lemma fill_wf_witness :
  sqe_wf (fill (ReqReadv IoPriority_None (Fixed 7) 0 0 {| as_ptr := 4096; slice_len := 2 ^ 32 + 1 |})
               zeroed_entry).
Proof. apply fill_wf; [|apply (clear_wf zeroed_entry)]. by vm_compute. Defined.

(** C38: the target survives the encoding into the [flags] and [fd] fields: the
    kernel reads back the plain descriptor, or the index into the registered
    files, that the operation was asked for. *)
Theorem target_roundtrip r e f (Hf : FileDescriptor_wf f) (Hr : request_target r = Some f) :
  entry_target (fill r e) = f.
Proof.
  assert (H : ∀ e', (sqe_flags e', sqe_fd e') = set_target f → entry_target e' = f).
  { intros e'. unfold entry_target. destruct f as [fd|ndx]; intros [= -> ->]; [done|].
    simpl. change (has_flag _ _) with true. cbv iota. f_equal.
    rewrite wrap_as_i32. by apply wrap_id. }
  apply H. clear H Hf. revert Hr.
  destruct r; simpl; intros [= ->];
    unfold readv, writev, read_fixed, write_fixed, iov, io_fixed, fsync, poll_add;
    by destruct (set_target f).
Qed.
Lemma target_roundtrip_witness :
  entry_target (fill (ReqPollAdd (Fixed (2 ^ 32 - 1)) 1)
    zeroed_entry)
  = Fixed (2 ^ 32 - 1).
Proof. apply target_roundtrip; [unfold FileDescriptor_wf, in_u; lia|done]. Defined.

(** No stale data reaches the kernel: after [clear] and one filling method,
    an entry does not depend on what the slot held, and of an entry that was
    not cleared only the [user_data] and bytes 2 to 23 of the extra data
    survive a filling method. *)
Theorem fill_overwrites r e e' :
  fill r (clear e) = fill r (clear e') ∧
  (sqe_user_data e = sqe_user_data e' → drop 2 (sqe_extra e) = drop 2 (sqe_extra e') →
   fill r e = fill r e').
Proof.
  split; [done|]. intros Hu Hx.
  destruct r as [? f|? f|? f|? f|f|f|]; simpl;
    unfold readv, writev, read_fixed, write_fixed, iov, io_fixed, fsync, poll_add, poll_remove,
      extra_set_buf_index; try destruct (set_target f); by rewrite Hu, Hx.
Qed.
Lemma fill_overwrites_witness :
  fill (ReqPollRemove 8) (set_user_data 2 (fill (ReqFsync (FD 3) 1 0 0) zeroed_entry))
  = fill (ReqPollRemove 8) (set_user_data 2 (fill (ReqReadFixed IoPriority_Idle (FD 4) 0 0 9
      {| as_ptr := 64; slice_len := 8 |}) (clear
    {| sqe_opcode := 0; sqe_flags := 0; sqe_ioprio := 0; sqe_fd := 0; sqe_off := 0; sqe_addr := 0;
       sqe_len := 0; sqe_op_flags := []; sqe_user_data := 0; sqe_extra := [] |}))).
Proof. apply fill_overwrites; reflexivity. Defined.

(** C39: formatting an entry with [Debug], which [submit_with] does when debug
    logging is on, is defined for every operation except [poll_add]: the
    [PollFlags] member covers two of the four bytes of the operation flags, and
    printing the [raw] member reads the two uninitialised ones. *)
Theorem Debug_undefined_iff_poll_add r e
    (Hx : ∃ v, extra_buf_index (sqe_extra e) = Some v) :
  (∃ w, SubmissionEntry_fmt (fill r e) = UB w) ↔ request_op r = PollAdd.
Proof.
  assert (Hb : ∀ v, ∃ x, extra_buf_index (extra_set_buf_index v (sqe_extra e)) = Some x).
  { intros v. exists (v mod 256 ^ Z.of_nat 2). unfold extra_buf_index, extra_set_buf_index.
    rewrite take_app_le by done. rewrite take_ge by done. apply read_int_bytes. }
  assert (H4 : ∀ v, ∃ l, SubmissionEntryOperationFlags_fmt (int_bytes 4 v) = Done l).
  { intros v. by eexists. }
  split; intros H.
  - destruct H as [w Hw].
    destruct r; [..|done|]; exfalso; revert Hw; unfold SubmissionEntry_fmt, fill;
      unfold readv, writev, read_fixed, write_fixed, iov, io_fixed, fsync, poll_remove;
      try destruct (set_target _); cbn [sqe_op_flags sqe_extra];
      unfold op_flags_from_ReadWriteFlags, op_flags_from_FsyncFlags, op_flags_from_u32;
      match goal with |- context [int_bytes 4 ?v] => destruct (H4 v) as [l ->] end;
      match goal with |- context [extra_set_buf_index ?v _] =>
        destruct (Hb v) as [x Hx'] end;
      unfold SubmissionEntryExtraData_fmt; rewrite Hx'; done.
  - destruct r; try done. simpl. unfold poll_add. destruct (set_target _).
    eexists. reflexivity.
Qed.
Lemma Debug_undefined_iff_poll_add_witness :
  (∃ w, SubmissionEntry_fmt (fill (ReqPollAdd (FD 5) 1) zeroed_entry) = UB w).
Proof.
  apply Debug_undefined_iff_poll_add; [by eexists|reflexivity].
Defined.
