(* ===== verification/Ring.v ===== *)
(** * Rings indexed by free-running 32-bit counters

    Both queues of [io-uring] are power-of-two rings whose [head] and [tail]
    are free-running [u32] counters, masked only to find a slot.  This file has
    the arithmetic of such counters and the predicate [ring_rep], which relates
    the slots between [head] and [tail] to the list of entries they hold. *)

From S2P Require Import Prelude.

Local Open Scope Z_scope.

(** [ring_mask] is one less than a power of two that fits in a [u32]. *)
Definition mask_ok (mask : Z) : Prop := ∃ k, 0 ≤ k ≤ 31 ∧ mask = 2 ^ k - 1.
(** The number of slots. *)
Definition entries (mask : Z) : Z := mask + 1.
(** [ndx & ring_mask] *)
Definition slot (mask ndx : Z) : Z := Z.land ndx mask.
(** The number of increments that take counter [h] to counter [t]. *)
Definition dist (h t : Z) : Z := wrap 32 (t - h).
(** [0 == (h ^ t) & ring_mask]: the counters point to the same slot. *)
Definition same_slot (mask h t : Z) : bool := 0 =? Z.land (Z.lxor h t) mask.
(** [ndx.wrapping_add(1)] *)
Definition next_ndx (ndx : Z) : Z := wrap 32 (ndx + 1).

Lemma entries_pos mask : mask_ok mask → 0 < entries mask ≤ 2 ^ 31.
Proof.
  intros (k & Hk & ->). unfold entries.
  pose proof (Z.pow_pos_nonneg 2 k). pose proof (Z.pow_le_mono_r 2 k 31). lia.
Qed.
Lemma slot_mod mask ndx : mask_ok mask → slot mask ndx = ndx mod entries mask.
Proof.
  intros (k & Hk & ->). unfold slot, entries.
  replace (2 ^ k - 1) with (Z.ones k) by (rewrite Z.ones_equiv; lia).
  rewrite Z.land_ones by lia. f_equal. rewrite Z.ones_equiv. lia.
Qed.

(** ** Counter arithmetic *)

Lemma mod_mod_mul x n q : 0 < n → 0 < q → (x mod (n * q)) mod n = x mod n.
Proof.
  intros. rewrite (Z.mod_eq x (n * q)) by lia.
  replace (x - n * q * (x / (n * q))) with (x + - (q * (x / (n * q))) * n) by lia.
  apply Z_mod_plus_full.
Qed.
Lemma entries_divides mask : mask_ok mask → ∃ q, 0 < q ∧ 2 ^ 32 = entries mask * q.
Proof.
  intros (k & Hk & ->). exists (2 ^ (32 - k)). unfold entries.
  split; [apply Z.pow_pos_nonneg; lia|].
  replace (2 ^ k - 1 + 1) with (2 ^ k) by lia. rewrite <-Z.pow_add_r by lia. f_equal. lia.
Qed.
Lemma slot_wrap mask x : mask_ok mask → slot mask (wrap 32 x) = slot mask x.
Proof.
  intros Hm. pose proof (entries_pos _ Hm). destruct (entries_divides _ Hm) as (q & ? & Hq).
  rewrite !slot_mod by done. unfold wrap. rewrite Hq. apply mod_mod_mul; lia.
Qed.
Lemma slot_bounds mask x : mask_ok mask → 0 ≤ slot mask x < entries mask.
Proof.
  intros Hm. rewrite slot_mod by done. apply Z.mod_pos_bound.
  pose proof (entries_pos _ Hm). lia.
Qed.

Lemma dist_range h t : in_u 32 (dist h t).
Proof. apply wrap_in_u. lia. Qed.
Lemma dist_0 h t : in_u 32 h → in_u 32 t → dist h t = 0 ↔ h = t.
Proof.
  unfold in_u, dist, wrap. intros Hh Ht. split; [|intros ->; by rewrite Z.sub_diag].
  intros Hd. apply Z.mod_divide in Hd as [q Hq]; [|lia]. assert (q = 0) by lia. lia.
Qed.
Lemma dist_refl h : dist h h = 0.
Proof. unfold dist. by rewrite Z.sub_diag. Qed.
Lemma dist_next_r h t : dist h t + 1 < 2 ^ 32 → dist h (next_ndx t) = dist h t + 1.
Proof.
  unfold dist, next_ndx, wrap. intros.
  rewrite Zminus_mod_idemp_l. replace (t + 1 - h) with (t - h + 1) by lia.
  rewrite <-Zplus_mod_idemp_l. apply Z.mod_small.
  pose proof (Z.mod_pos_bound (t - h) (2 ^ 32)). lia.
Qed.
Lemma dist_next_l h t : 0 < dist h t → dist (next_ndx h) t = dist h t - 1.
Proof.
  unfold dist, next_ndx, wrap. intros.
  rewrite Zminus_mod_idemp_r. replace (t - (h + 1)) with (t - h - 1) by lia.
  rewrite <-Zminus_mod_idemp_l. apply Z.mod_small.
  pose proof (Z.mod_pos_bound (t - h) (2 ^ 32)). lia.
Qed.
Lemma dist_add h a b : dist h a + dist a b < 2 ^ 32 → dist h b = dist h a + dist a b.
Proof.
  unfold dist, wrap. intros.
  replace (b - h) with ((a - h) + (b - a)) by lia.
  rewrite Zplus_mod. apply Z.mod_small.
  pose proof (Z.mod_pos_bound (a - h) (2 ^ 32)). pose proof (Z.mod_pos_bound (b - a) (2 ^ 32)). lia.
Qed.
Lemma dist_offset h t : in_u 32 t → wrap 32 (h + dist h t) = t.
Proof.
  intros. unfold wrap, dist, wrap. rewrite Zplus_mod_idemp_r.
  replace (h + (t - h)) with t by lia. by apply Z.mod_small.
Qed.
Lemma next_ndx_range x : in_u 32 (next_ndx x).
Proof. apply wrap_in_u. lia. Qed.

(** The code's subtraction [t - h] agrees with the distance unless the
    counters straddle the wrap-around. *)
Lemma dist_sub h t : in_u 32 h → in_u 32 t → h ≤ t → dist h t = t - h.
Proof. unfold in_u, dist, wrap. intros. apply Z.mod_small. lia. Qed.

(** ** Same slot: empty or full *)

Lemma land_lxor_distr a b m : Z.land (Z.lxor a b) m = Z.lxor (Z.land a m) (Z.land b m).
Proof.
  apply Z.bits_inj'. intros i Hi. rewrite Z.land_spec, !Z.lxor_spec, !Z.land_spec.
  by destruct (Z.testbit a i), (Z.testbit b i), (Z.testbit m i).
Qed.
Lemma same_slot_spec mask h t : same_slot mask h t = true ↔ slot mask h = slot mask t.
Proof.
  unfold same_slot, slot. rewrite Z.eqb_eq, land_lxor_distr. split.
  - intros H. apply Z.lxor_eq. done.
  - intros ->. by rewrite Z.lxor_nilpotent.
Qed.
Lemma slot_dist_mod mask h t :
  mask_ok mask → slot mask h = slot mask t ↔ dist h t mod entries mask = 0.
Proof.
  intros Hm. pose proof (entries_pos _ Hm). destruct (entries_divides _ Hm) as (q & ? & Hq).
  rewrite !slot_mod by done. unfold dist, wrap. rewrite Hq, mod_mod_mul by lia.
  split; intros He.
  - rewrite Zminus_mod, He, Z.sub_diag. by apply Z.mod_0_l; lia.
  - apply Z.mod_divide in He as [c Hc]; [|lia].
    replace t with (h + c * entries mask) by lia. by rewrite Z_mod_plus_full.
Qed.
Lemma slot_full mask h t : mask_ok mask → dist h t ≤ entries mask →
  slot mask h = slot mask t ↔ dist h t = 0 ∨ dist h t = entries mask.
Proof.
  intros Hm Hd. pose proof (entries_pos _ Hm). pose proof (dist_range h t) as Hr.
  unfold in_u in Hr. rewrite slot_dist_mod by done. split.
  - intros He. apply Z.mod_divide in He as [c Hc]; [|lia].
    assert (c = 0 ∨ c = 1) as [->| ->] by nia; lia.
  - intros [-> | ->]; [by rewrite Z.mod_0_l by lia|by apply Z.mod_same; lia].
Qed.

(** Slots less than a ring apart are different. *)
Lemma slot_inj mask h i j : mask_ok mask → 0 ≤ i < entries mask → 0 ≤ j < entries mask →
  slot mask (h + i) = slot mask (h + j) → i = j.
Proof.
  intros Hm Hi Hj. pose proof (entries_pos _ Hm). rewrite !slot_mod by done. intros He.
  assert ((i - j) mod entries mask = 0) as Hz.
  { replace (i - j) with ((h + i) - (h + j)) by lia. rewrite Zminus_mod, He, Z.sub_diag.
    apply Z.mod_0_l; lia. }
  apply Z.mod_divide in Hz as [c Hc]; [|lia]. assert (c = 0) by nia. lia.
Qed.

(** ** The entries between two counters *)

(** The slots from counter [h] up to counter [t], read through [get], hold [l]. *)
Definition ring_rep {A} (get : Z → option A) (mask h t : Z) (l : list A) : Prop :=
  Z.of_nat (length l) = dist h t ∧
  ∀ i a, l !! i = Some a → get (slot mask (h + Z.of_nat i)) = Some a.

Section ring_rep.
Context {A : Type}.
Implicit Types (get : Z → option A) (l : list A).

Lemma ring_rep_nil get mask h : ring_rep get mask h h [].
Proof. split; [by rewrite dist_refl|done]. Qed.
Lemma ring_rep_empty get mask h t l :
  in_u 32 h → in_u 32 t → ring_rep get mask h t l → l = [] ↔ h = t.
Proof.
  intros Hh Ht [Hl _]. rewrite <-dist_0, <-Hl by done.
  destruct l; simpl; split; try done; lia.
Qed.

(** Storing at the tail slot of a ring that is not full appends. *)
Lemma ring_rep_push get get' mask h t l a :
  mask_ok mask → ring_rep get mask h t l → Z.of_nat (length l) < entries mask → in_u 32 t →
  get' (slot mask t) = Some a →
  (∀ s, s ≠ slot mask t → get' s = get s) →
  ring_rep get' mask h (next_ndx t) (l ++ [a])%list.
Proof.
  intros Hm [Hl Hget] Hn Ht Ha Hne. pose proof (entries_pos _ Hm). split.
  - rewrite length_app, dist_next_r; simpl; lia.
  - assert (slot mask (h + Z.of_nat (length l)) = slot mask t) as Hs.
    { rewrite Hl, <-(slot_wrap mask (h + _)), dist_offset by done. done. }
    intros i b Hi. apply lookup_snoc_Some in Hi as [[Hlt Hi]|[-> <-]]; [|by rewrite Hs].
    rewrite Hne; [by apply Hget|]. rewrite <-Hs. intros He.
    apply slot_inj in He; try done; lia.
Qed.

(** Advancing the head of a non-empty ring takes the first entry off. *)
Lemma ring_rep_pop get mask h t a l :
  mask_ok mask → ring_rep get mask h t (a :: l) →
  get (slot mask h) = Some a ∧ ring_rep get mask (next_ndx h) t l.
Proof.
  intros Hm [Hl Hget]. simpl in Hl. split.
  - rewrite <-(Z.add_0_r h). by apply (Hget 0%nat).
  - split; [rewrite dist_next_l; lia|]. intros i b Hi.
    specialize (Hget (S i) b Hi). rewrite <-Hget. f_equal. unfold next_ndx.
    rewrite <-(slot_wrap mask (wrap 32 (h + 1) + _)), <-(slot_wrap mask (h + _)) by done.
    f_equal. unfold wrap. rewrite Zplus_mod_idemp_l. f_equal. lia.
Qed.

(** Entries outside the ring may change. *)
Lemma ring_rep_ext get get' mask h t l :
  ring_rep get mask h t l → (∀ s, is_Some (get s) → get' s = get s) →
  ring_rep get' mask h t l.
Proof.
  intros [Hl Hget] He. split; [done|]. intros i a Hi.
  rewrite He; [by apply Hget|]. rewrite (Hget i a Hi). done.
Qed.

(** A store at the tail slot of a ring that is not full leaves it alone. *)
Lemma ring_rep_store get get' mask h t l :
  mask_ok mask → ring_rep get mask h t l → Z.of_nat (length l) < entries mask → in_u 32 t →
  (∀ s, s ≠ slot mask t → get' s = get s) → ring_rep get' mask h t l.
Proof.
  intros Hm [Hl Hget] Hn Ht Hne. split; [done|]. intros i a Hi.
  rewrite Hne; [by apply Hget|]. apply lookup_lt_Some in Hi.
  assert (slot mask (h + Z.of_nat (length l)) = slot mask t) as <-.
  { rewrite Hl, <-(slot_wrap mask (h + _)), dist_offset by done. done. }
  intros He. apply slot_inj in He; try done; lia.
Qed.

Lemma ring_rep_det get mask h t l l' :
  ring_rep get mask h t l → ring_rep get mask h t l' → l = l'.
Proof.
  intros [Hl Hg] [Hl' Hg']. apply list_eq_same_length with (length l); [lia|done|].
  intros i x y _ Hx Hy. apply Hg in Hx. apply Hg' in Hy. congruence.
Qed.
End ring_rep.

#[export] Hint Resolve dist_range next_ndx_range : rust.
