(* ===== verification/Kern.v ===== *)
(** * The memory shared with the kernel, and the kernel's side of the protocol

    The state of the shared rings, the accesses the crates make to it, and the
    steps the kernel may take on it, as the doc comments of
    [SubmissionQueueRingOffsets] and [CompletionQueueRingOffsets] in
    [io-uring-sys/src/lib.rs] describe them: it increments the submission
    queue's [head] after an entry was taken over, writes a completion entry at
    the completion queue's [tail] and increments that, counts what it had to
    drop, and never touches the counters user space owns. *)

From S2P Require Import Prelude Std Sys Submission Ring.

Local Open Scope Z_scope.

(** Where the rings lie: addresses of the members in the mapped memory. *)
Record Geometry : Type := {
  g_sq_head : Z; g_sq_tail : Z; g_sq_mask : Z; g_sq_flags : Z; g_sq_dropped : Z;
  g_array : Z; g_sces : Z;
  g_cq_head : Z; g_cq_tail : Z; g_cq_mask : Z; g_cq_overflow : Z; g_cqes : Z }.

Definition counters (g : Geometry) : list Z :=
  [g_sq_head g; g_sq_tail g; g_sq_flags g; g_sq_dropped g;
   g_cq_head g; g_cq_tail g; g_cq_overflow g].

(** The members are distinct, and the index array is apart from them. *)
Record geo_wf (g : Geometry) : Prop := {
  geo_nodup : NoDup (counters g);
  geo_array : ∀ i, 0 ≤ i < entries (g_sq_mask g) → (g_array g + 4 * i) ∉ counters g;
  geo_sq_mask : mask_ok (g_sq_mask g);
  geo_cq_mask : mask_ok (g_cq_mask g) }.

(** What a step of the kernel did. *)
Inductive kevent : Type :=
| Take (e : SubmissionEntry)    (* took an entry over *)
| Discard                       (* dropped an entry with a bad index *)
| Post (x : CompletionEntry)    (* completed a request *)
| Lose (e : SubmissionEntry)    (* completed a request, but the ring was full *)
| Idle.

(** The shared memory by address, cell by cell of the type the code accesses
    it at; the requests the kernel has taken over and not completed; what the
    kernel has done so far; the number of times user space has looked at the
    shared counters. *)
Record Kern : Type := {
  geo : Geometry;
  u32s : gmap Z Z;
  sqes : gmap Z SubmissionEntry;
  cqes : gmap Z CompletionEntry;
  fly : list SubmissionEntry;
  klog : list kevent;
  looks : nat }.

Definition set_u32s (f : gmap Z Z → gmap Z Z) (k : Kern) : Kern :=
  {| geo := geo k; u32s := f (u32s k); sqes := sqes k; cqes := cqes k; fly := fly k;
     klog := klog k; looks := looks k |}.
Definition set_sqes (f : gmap Z SubmissionEntry → gmap Z SubmissionEntry) (k : Kern) : Kern :=
  {| geo := geo k; u32s := u32s k; sqes := f (sqes k); cqes := cqes k; fly := fly k;
     klog := klog k; looks := looks k |}.
Definition set_cqes (f : gmap Z CompletionEntry → gmap Z CompletionEntry) (k : Kern) : Kern :=
  {| geo := geo k; u32s := u32s k; sqes := sqes k; cqes := f (cqes k); fly := fly k;
     klog := klog k; looks := looks k |}.
Definition set_fly (l : list SubmissionEntry) (k : Kern) : Kern :=
  {| geo := geo k; u32s := u32s k; sqes := sqes k; cqes := cqes k; fly := l;
     klog := klog k; looks := looks k |}.
Definition set_looks (n : nat) (k : Kern) : Kern :=
  {| geo := geo k; u32s := u32s k; sqes := sqes k; cqes := cqes k; fly := fly k;
     klog := klog k; looks := n |}.
Definition log_event (ev : kevent) (k : Kern) : Kern :=
  {| geo := geo k; u32s := u32s k; sqes := sqes k; cqes := cqes k; fly := fly k;
     klog := (klog k ++ [ev])%list; looks := looks k |}.

(** ** What the kernel may do *)

Definition completion_of (e : SubmissionEntry) (res flags : Z) : CompletionEntry :=
  {| cqe_user_data := sqe_user_data e; cqe_res := res; cqe_flags := flags |}.

Definition sqe_addr_of (g : Geometry) (i : Z) : Z :=
  g_sces g + size_of (repr_C SubmissionEntry_fields) * i.
Definition cqe_addr_of (g : Geometry) (i : Z) : Z :=
  g_cqes g + size_of (repr_C CompletionEntry_fields) * i.
Definition array_addr_of (g : Geometry) (i : Z) : Z := g_array g + size_of u32 * i.

Inductive kdo (k : Kern) : kevent → Kern → Prop :=
| kdo_consume h t i e :
    u32s k !! g_sq_head (geo k) = Some h →
    u32s k !! g_sq_tail (geo k) = Some t →
    h ≠ t →
    u32s k !! array_addr_of (geo k) (slot (g_sq_mask (geo k)) h) = Some i →
    0 ≤ i < entries (g_sq_mask (geo k)) →
    sqes k !! sqe_addr_of (geo k) i = Some e →
    kdo k (Take e) (set_fly (fly k ++ [e])%list (set_u32s <[g_sq_head (geo k) := next_ndx h]> k))
| kdo_drop h t i d :
    u32s k !! g_sq_head (geo k) = Some h →
    u32s k !! g_sq_tail (geo k) = Some t →
    h ≠ t →
    u32s k !! array_addr_of (geo k) (slot (g_sq_mask (geo k)) h) = Some i →
    ¬ (0 ≤ i < entries (g_sq_mask (geo k))) →
    u32s k !! g_sq_dropped (geo k) = Some d →
    kdo k Discard (set_u32s (λ m, <[g_sq_dropped (geo k) := next_ndx d]>
                            (<[g_sq_head (geo k) := next_ndx h]> m)) k)
| kdo_complete h t e l1 l2 res flags :
    fly k = (l1 ++ e :: l2)%list →
    u32s k !! g_cq_head (geo k) = Some h →
    u32s k !! g_cq_tail (geo k) = Some t →
    dist h t < entries (g_cq_mask (geo k)) →
    kdo k (Post (completion_of e res flags)) (set_fly (l1 ++ l2)%list
              (set_cqes <[cqe_addr_of (geo k) (slot (g_cq_mask (geo k)) t) :=
                           completion_of e res flags]>
                (set_u32s <[g_cq_tail (geo k) := next_ndx t]> k)))
| kdo_overflow h t o e l1 l2 :
    fly k = (l1 ++ e :: l2)%list →
    u32s k !! g_cq_head (geo k) = Some h →
    u32s k !! g_cq_tail (geo k) = Some t →
    dist h t = entries (g_cq_mask (geo k)) →
    u32s k !! g_cq_overflow (geo k) = Some o →
    kdo k (Lose e) (set_fly (l1 ++ l2)%list (set_u32s <[g_cq_overflow (geo k) := next_ndx o]> k))
| kdo_flags fl :
    kdo k Idle (set_u32s <[g_sq_flags (geo k) := fl]> k).

Inductive kstep (k : Kern) : kevent → Kern → Prop :=
| kstep_do ev k' : kdo k ev k' → kstep k ev (log_event ev k').

(** A move of a kernel that only does what [P] allows, and any move. *)
Definition kmove_in (P : kevent → Prop) (k k' : Kern) : Prop := ∃ ev, P ev ∧ kstep k ev k'.
Definition anything (ev : kevent) : Prop := True.
Abbreviation kmove := (kmove_in anything).

(** The kernel runs concurrently: [turn n] is everything it does up to the
    [n]-th time user space loads from the shared memory. *)
Class Kernel := turn : nat → Kern → Kern.
Class KernelDoes (P : kevent → Prop) (K : Kernel) : Prop :=
  turn_ok : ∀ n k, rtc (kmove_in P) k (turn n k).
Abbreviation KernelOk := (KernelDoes anything).

(** A kernel that only moves when told to, for sequences in which its steps
    are written out. *)
#[export] Instance quiet : Kernel := λ _ k, k.
#[export] Instance quiet_ok : KernelOk quiet.
Proof. intros n k. apply rtc_refl. Qed.

(** ** The accesses of user space *)

Section access.
Context `{Kernel}.

(** [AtomicU32::load], and reads through [*mut u32]. *)
Definition load (a : Z) : M Kern Z := λ k,
  let k' := set_looks (S (looks k)) (turn (looks k) k) in
  match u32s k' !! a with
  | Some v => (Done v, k')
  | None => (UB "load outside the mapped ring", k')
  end.
(** [AtomicU32::store], and writes through [*mut u32]. *)
Definition store (a v : Z) : M Kern unit := λ k,
  match u32s k !! a with
  | Some _ => (Done tt, set_u32s <[a := v]> k)
  | None => (UB "store outside the mapped ring", k)
  end.
End access.

(** ** A kernel that runs

    An executable kernel, to run the development's definitions on concrete
    memory: it takes over the next published entry, or else completes the
    oldest request in flight with result 0, a bounded number of times. *)

Definition exec_take (k : Kern) : option (kevent * Kern) :=
  h ← u32s k !! g_sq_head (geo k);
  t ← u32s k !! g_sq_tail (geo k);
  i ← u32s k !! array_addr_of (geo k) (slot (g_sq_mask (geo k)) h);
  e ← sqes k !! sqe_addr_of (geo k) i;
  if decide (h ≠ t ∧ 0 ≤ i < entries (g_sq_mask (geo k))) then
    Some (Take e, set_fly (fly k ++ [e])%list (set_u32s <[g_sq_head (geo k) := next_ndx h]> k))
  else None.
Definition exec_post (k : Kern) : option (kevent * Kern) :=
  h ← u32s k !! g_cq_head (geo k);
  t ← u32s k !! g_cq_tail (geo k);
  match fly k with
  | e :: l =>
      if decide (dist h t < entries (g_cq_mask (geo k))) then
        Some (Post (completion_of e 0 0),
              set_fly l
                (set_cqes <[cqe_addr_of (geo k) (slot (g_cq_mask (geo k)) t) :=
                             completion_of e 0 0]>
                  (set_u32s <[g_cq_tail (geo k) := next_ndx t]> k)))
      else None
  | [] => None
  end.
Definition exec_one (k : Kern) : Kern :=
  match exec_take k with
  | Some (ev, k') => log_event ev k'
  | None => match exec_post k with Some (ev, k') => log_event ev k' | None => k end
  end.

Lemma exec_take_sound k ev k' : exec_take k = Some (ev, k') → kdo k ev k'.
Proof.
  unfold exec_take. intros Hx. repeat case_match || simplify_option_eq.
  destruct_and!. by eapply kdo_consume.
Qed.
Lemma exec_post_sound k ev k' : exec_post k = Some (ev, k') → kdo k ev k'.
Proof.
  unfold exec_post. intros Hx. destruct (fly k) as [|e l] eqn:Hf; simplify_option_eq.
  by eapply (kdo_complete k _ _ e [] l).
Qed.
Lemma exec_one_sound k : rtc kmove k (exec_one k).
Proof.
  unfold exec_one. destruct (exec_take k) as [[ev k']|] eqn:Ht.
  { apply rtc_once. exists ev. split; [done|]. by apply kstep_do, exec_take_sound. }
  destruct (exec_post k) as [[ev k']|] eqn:Hp; [|done].
  apply rtc_once. exists ev. split; [done|]. by apply kstep_do, exec_post_sound.
Qed.

(** Two steps at every look. *)
Definition eager : Kernel := λ _ k, exec_one (exec_one k).
#[export] Instance eager_ok : KernelOk eager.
Proof. intros n k. etrans; apply exec_one_sound. Qed.
