(* ===== verification/Mmap.v ===== *)
(** * [io-uring/src/mmap.rs]: mapped memory

    [MappedMemory] owns one [mmap]ed region and unmaps it when dropped. *)

From S2P Require Import Prelude Std Sys.

Local Open Scope Z_scope.

Record MappedMemory : Type := { mm_addr : Z; mm_len : Z }.

Section mapped_memory.
Context {S : Type} `{Libc S} `{Build}.

Definition MappedMemory_map (fd offset len : Z) : M S (result MappedMemory io_error) :=
  addr ← mmap 0 len (Z.lor PROT_READ PROT_WRITE) (Z.lor MAP_SHARED MAP_POPULATE) fd offset;
  if decide (addr = MAP_FAILED) then
    e ← last_os_error; mret (Err e)
  else mret (Ok {| mm_addr := addr; mm_len := len |}).

Definition as_mut_ptr (self : MappedMemory) : Z := mm_addr self.

(** [get_field]: [self.addr as usize + (offset as usize)]. *)
Definition get_field (self : MappedMemory) (offset : Z) : outcome Z :=
  add_u 64 (mm_addr self) offset.

(** [Drop]; a failing [munmap] is only logged, with [last_os_error]. *)
Definition MappedMemory_drop (self : MappedMemory) : M S unit :=
  if decide (mm_len self = 0) then mret tt
  else r ← munmap (mm_addr self) (mm_len self);
    if decide (r = 0) then mret tt else _ ← last_os_error; mret tt.
End mapped_memory.
