(* ===== verification/SubQueue.v ===== *)
(** * [io-uring/src/lib.rs]: the submission queue

    [SubmissionQueue] and [BulkSubmission].  The queue object caches the
    kernel's [head] and stages entries behind its own [local_tail]; dropping a
    [BulkSubmission] publishes them. *)

From S2P Require Import Prelude Std Sys Submission Ring Kern Mmap.

Local Open Scope Z_scope.

(** [k_head], [k_tail], [k_flags], [k_dropped] and [sces] are addresses. *)
Record SubmissionQueue : Type := {
  sq_mmap : MappedMemory;
  sq_k_head : Z; cached_head : Z;
  sq_k_tail : Z; local_tail : Z;
  sq_ring_mask : Z;
  k_flags : Z; k_dropped : Z;
  sq_mmap_entries : MappedMemory;
  sces : Z }.

Definition set_cached_head (v : Z) (q : SubmissionQueue) : SubmissionQueue :=
  {| sq_mmap := sq_mmap q; sq_k_head := sq_k_head q; cached_head := v;
     sq_k_tail := sq_k_tail q; local_tail := local_tail q; sq_ring_mask := sq_ring_mask q;
     k_flags := k_flags q; k_dropped := k_dropped q; sq_mmap_entries := sq_mmap_entries q;
     sces := sces q |}.
Definition set_local_tail (v : Z) (q : SubmissionQueue) : SubmissionQueue :=
  {| sq_mmap := sq_mmap q; sq_k_head := sq_k_head q; cached_head := cached_head q;
     sq_k_tail := sq_k_tail q; local_tail := v; sq_ring_mask := sq_ring_mask q;
     k_flags := k_flags q; k_dropped := k_dropped q; sq_mmap_entries := sq_mmap_entries q;
     sces := sces q |}.

Inductive SubmissionError (E : Type) : Type :=
| QueueFull
| FillError (e : E).
Arguments QueueFull {E}.
Arguments FillError {E} e.

(** [Display] and [Error::source], for an error type with a [Display]. *)
Definition SubmissionError_fmt {E} (display : E → string) (e : SubmissionError E) : string :=
  match e with
  | QueueFull => "submission error: queue full"
  | FillError e => "submission error: " +:+ display e
  end.
Definition SubmissionError_source {E} (e : SubmissionError E) : option E :=
  match e with QueueFull => None | FillError e => Some e end.

(** The queue object and the shared memory. *)
Definition SQS : Type := SubmissionQueue * Kern.

Definition on_queue (f : SubmissionQueue → SubmissionQueue) : M SQS unit :=
  modify (λ s, (f s.1, s.2)).
Definition on_shared {A} (m : M Kern A) : M SQS A :=
  zoom (λ s : SQS, s.2) (λ k s, (s.1, k)) m.

Section submission_queue.
Context `{Kernel} `{Build}.

Definition flush_tail : M SQS unit :=
  q ← gets fst; on_shared (store (sq_k_tail q) (local_tail q)).

Definition refresh_head : M SQS Z :=
  q ← gets fst;
  h ← on_shared (load (sq_k_head q));
  on_queue (set_cached_head h);; mret h.

Definition head : M SQS Z :=
  q ← gets fst;
  (if negb (cached_head q =? local_tail q) then
     if 0 =? Z.land (Z.lxor (cached_head q) (local_tail q)) (sq_ring_mask q)
     then refresh_head;; mret tt
     else mret tt
   else mret tt);;
  gets (λ s : SQS, cached_head s.1).

Definition is_full : M SQS bool :=
  h ← head;
  q ← gets fst;
  mret (negb (h =? local_tail q)
        && (0 =? Z.land (Z.lxor (cached_head q) (local_tail q)) (sq_ring_mask q))).

Definition flags : M SQS Z :=
  q ← gets fst;
  v ← on_shared (load (k_flags q)); mret (from_bits_truncate 32 v).

Definition dropped : M SQS Z :=
  q ← gets fst; on_shared (load (k_dropped q)).

Definition has_pending_submissions : M SQS bool :=
  h ← refresh_head;
  q ← gets fst;
  mret (negb (h =? local_tail q)).

(** [self.local_tail - self.refresh_head()] *)
Definition pending_submissions : M SQS Z :=
  q ← gets fst;
  h ← refresh_head;
  embed (sub_u 32 (local_tail q) h).

(** The slot [&mut *self.0.sces.add((ndx & ring_mask) as usize)]. *)
Definition slot_addr (q : SubmissionQueue) (ndx : Z) : Z :=
  sces q + size_of (repr_C SubmissionEntry_fields) * Z.land ndx (sq_ring_mask q).

(** Run [f] on the entry at address [a], in place. *)
Definition with_entry {A} (a : Z) (f : M SubmissionEntry A) : M Kern A := λ k,
  match sqes k !! a with
  | Some e => let '(o, e') := f e in (o, set_sqes <[a := e']> k)
  | None => (UB "submission entry outside the mapped ring", k)
  end.

(** The entry is formatted when [log::debug!] is enabled. *)
Definition log_submit : M SubmissionEntry unit :=
  if log_debug then e ← gets id; _ ← embed (SubmissionEntry_fmt e); mret tt else mret tt.

(** [BulkSubmission::submit_with]: [f] fills the cleared entry. *)
Definition submit_with {E} (f : M SubmissionEntry (result unit E))
    : M SQS (result unit (SubmissionError E)) :=
  full ← is_full;
  if (full : bool) then mret (Err QueueFull)
  else
    ndx ← gets (λ s : SQS, local_tail s.1);
    a ← gets (λ s : SQS, slot_addr s.1 ndx);
    r ← on_shared (with_entry a (modify clear;; f));
    match r with
    | Err e => mret (Err (FillError e))
    | Ok _ =>
        on_shared (with_entry a log_submit);;
        on_queue (set_local_tail (wrap 32 (ndx + 1)));;
        mret (Ok tt)
    end.

(** [queue.bulk()], one or more uses, and the drop of the [BulkSubmission],
    which flushes the tail on every way out. *)
Definition bulk {A} (body : M SQS A) : M SQS A := with_drop body flush_tail.
End submission_queue.
