(* ===== verification/CompQueue.v ===== *)
(** * [io-uring/src/lib.rs]: the completion queue

    [CompletionQueue] and the iterator [BulkCompletion].  The queue object
    caches the kernel's [tail] and advances its own [local_head]; dropping the
    iterator hands the slots back to the kernel. *)

From S2P Require Import Prelude Std Sys Submission Ring Kern Mmap.

Local Open Scope Z_scope.

(** [k_head], [k_tail], [k_overflow] and [k_cqes] are addresses. *)
Record CompletionQueue : Type := {
  cq_mmap : MappedMemory;
  cq_k_head : Z; local_head : Z;
  cq_k_tail : Z; cached_tail : Z;
  cq_ring_mask : Z;
  k_overflow : Z; k_cqes : Z }.

Definition set_local_head (v : Z) (q : CompletionQueue) : CompletionQueue :=
  {| cq_mmap := cq_mmap q; cq_k_head := cq_k_head q; local_head := v;
     cq_k_tail := cq_k_tail q; cached_tail := cached_tail q; cq_ring_mask := cq_ring_mask q;
     k_overflow := k_overflow q; k_cqes := k_cqes q |}.
Definition set_cached_tail (v : Z) (q : CompletionQueue) : CompletionQueue :=
  {| cq_mmap := cq_mmap q; cq_k_head := cq_k_head q; local_head := local_head q;
     cq_k_tail := cq_k_tail q; cached_tail := v; cq_ring_mask := cq_ring_mask q;
     k_overflow := k_overflow q; k_cqes := k_cqes q |}.

(** The queue object and the shared memory. *)
Definition CQS : Type := CompletionQueue * Kern.

Definition on_cqueue (f : CompletionQueue → CompletionQueue) : M CQS unit :=
  modify (λ s, (f s.1, s.2)).
Definition on_cshared {A} (m : M Kern A) : M CQS A :=
  zoom (λ s : CQS, s.2) (λ k s, (s.1, k)) m.

Section completion_queue.
Context `{Kernel}.

Definition flush_head : M CQS unit :=
  q ← gets fst; on_cshared (store (cq_k_head q) (local_head q)).

Definition refresh_tail : M CQS Z :=
  q ← gets fst;
  t ← on_cshared (load (cq_k_tail q));
  on_cqueue (set_cached_tail t);; mret t.

Definition is_empty : M CQS bool :=
  q ← gets fst;
  if cached_tail q =? local_head q then
    refresh_tail;;
    gets (λ s : CQS, cached_tail s.1 =? local_head s.1)
  else mret false.

Definition overflow : M CQS Z :=
  q ← gets fst; on_cshared (load (k_overflow q)).

(** [&*self.0.k_cqes.add((ndx & ring_mask) as usize)] *)
Definition cqe_slot_addr (q : CompletionQueue) (ndx : Z) : Z :=
  k_cqes q + size_of (repr_C CompletionEntry_fields) * Z.land ndx (cq_ring_mask q).

Definition read_cqe (a : Z) : M CQS CompletionEntry :=
  k ← gets snd;
  deref (cqes k !! a) "completion entry outside the mapped ring".

(** [BulkCompletion::next] *)
Definition next : M CQS (option CompletionEntry) :=
  empty ← is_empty;
  if (empty : bool) then mret None
  else
    ndx ← gets (λ s : CQS, local_head s.1);
    a ← gets (λ s : CQS, cqe_slot_addr s.1 ndx);
    item ← read_cqe a;
    on_cqueue (set_local_head (wrap 32 (ndx + 1)));;
    mret (Some item).
End completion_queue.
