(* ===== verification/Uring.v ===== *)
(** * [io-uring/src/lib.rs]: setting a ring up, and the calls on its file

    [Uring], [UringFile], and the constructors of the two queues, which map the
    rings, read the constants the kernel left in them, and check them.  The
    state is a process: the shared memory and the mappings and descriptors it
    owns. *)

From S2P Require Import Prelude Std Sys Submission Ring Kern Mmap SubQueue CompQueue.

Local Open Scope Z_scope.
Local Open Scope rust_scope.

Record Proc : Type := { kern : Kern; maps : list (Z * Z); fds : list Z }.

Definition set_kern (k : Kern) (p : Proc) : Proc :=
  {| kern := k; maps := maps p; fds := fds p |}.
Definition on_kern {A} (m : M Kern A) : M Proc A := zoom kern set_kern m.

(** [UringFile] is a descriptor. *)
Record Uring : Type := { u_file : Z; u_sq : SubmissionQueue; u_cq : CompletionQueue }.

(** ** [UringFile]: the calls on a ring's descriptor *)

Section file_calls.
Context {S : Type} `{!Libc S}.

Definition enter (fd to_submit min_complete flags : Z) (sig : option Z)
    : M S (result unit io_error) :=
  let sig := match sig with Some p => p | None => 0 end in
  r ← io_uring_enter fd to_submit min_complete flags sig;
  if r <? 0 then e ← last_os_error; mret (Err e) else mret (Ok tt).

Definition register (fd opcode arg nr_args : Z) : M S (result unit io_error) :=
  r ← io_uring_register fd opcode arg nr_args;
  if negb (r =? 0) then e ← last_os_error; mret (Err e) else mret (Ok tt).
Definition register_buffers (fd : Z) (buffers : slice_ptr) : M S (result unit io_error) :=
  register fd REGISTER_BUFFERS (as_ptr buffers) (wrap 32 (slice_len buffers)).
Definition unregister_buffers (fd : Z) : M S (result unit io_error) :=
  register fd UNREGISTER_BUFFERS 0 0.
Definition register_files (fd : Z) (files : slice_ptr) : M S (result unit io_error) :=
  assert (slice_len files <=? 2 ^ 32 - 1) "assertion failed: fds.len() <= u32::max_value()";;
  register fd REGISTER_FILES (as_ptr files) (wrap 32 (slice_len files)).
Definition unregister_files (fd : Z) : M S (result unit io_error) :=
  register fd UNREGISTER_FILES 0 0.
End file_calls.

Section uring.
Context `{!Kernel} `{!Libc Proc} `{!Build}.

(** [u32::is_power_of_two] *)
Definition is_power_of_two (x : Z) : bool := (0 <? x) && (Z.land x (x - 1) =? 0).

Definition UringFile_new (entries : Z) (params : SetupParameters)
    : M Proc (result (Z * SetupParameters) io_error) :=
  '(res, params) ← io_uring_setup entries params;
  if res <? 0 then e ← last_os_error; mret (Err e)
  else mret (Ok (res, params)).

Definition UringFile_drop (fd : Z) : M Proc unit := close fd.

(** What the queue constructors check of the constants in the mapping. *)
Definition check_ring (n ring_entries ring_mask : Z) : M Proc unit :=
  assert (n =? ring_entries) "assertion failed: `(left == right)`";;
  assert (is_power_of_two ring_entries) "assertion failed: ring_entries.is_power_of_two()";;
  m ← embed (sub_u 32 ring_entries 1);
  assert (ring_mask =? m) "assertion failed: `(left == right)`".

Definition SubmissionQueue_new (fd : Z) (offsets : SubmissionQueueRingOffsets) (sq_entries : Z)
    : M Proc (result SubmissionQueue io_error) :=
  mm ←? MappedMemory_map fd SUBMISSION_QUEUE_RING_OFFSET
         (sqo_array offsets + size_of u32 * sq_entries);
  drop_on_failure (
    mme ←? MappedMemory_map fd SUBMISSION_QUEUE_ENTRIES_OFFSET
            (size_of (repr_C SubmissionEntry_fields) * sq_entries);
    drop_on_failure (
      k_head ← embed (get_field mm (sqo_head offsets));
      cached_head ← on_kern (load k_head);
      k_tail ← embed (get_field mm (sqo_tail offsets));
      local_tail ← on_kern (load k_tail);
      k_ring_mask ← embed (get_field mm (sqo_ring_mask offsets));
      ring_mask ← on_kern (load k_ring_mask);
      k_ring_entries ← embed (get_field mm (sqo_ring_entries offsets));
      ring_entries ← on_kern (load k_ring_entries);
      k_flags ← embed (get_field mm (sqo_flags offsets));
      k_dropped ← embed (get_field mm (sqo_dropped offsets));
      k_array ← embed (get_field mm (sqo_array offsets));
      check_ring sq_entries ring_entries ring_mask;;
      for_range 0 (Z.to_nat ring_entries)
        (λ i, on_kern (store (k_array + size_of u32 * i) i));;
      mret (Ok {| sq_mmap := mm; sq_k_head := k_head; cached_head := cached_head;
                  sq_k_tail := k_tail; local_tail := local_tail; sq_ring_mask := ring_mask;
                  k_flags := k_flags; k_dropped := k_dropped; sq_mmap_entries := mme;
                  sces := as_mut_ptr mme |}))
      (MappedMemory_drop mme))
    (MappedMemory_drop mm).

(** Fields are dropped in declaration order. *)
Definition SubmissionQueue_drop (q : SubmissionQueue) : M Proc unit :=
  MappedMemory_drop (sq_mmap q);; MappedMemory_drop (sq_mmap_entries q).

Definition CompletionQueue_new (fd : Z) (offsets : CompletionQueueRingOffsets) (cq_entries : Z)
    : M Proc (result CompletionQueue io_error) :=
  mm ←? MappedMemory_map fd COMPLETION_QUEUE_RING_OFFSET
         (cqo_cqes offsets + size_of (repr_C CompletionEntry_fields) * cq_entries);
  drop_on_failure (
    k_head ← embed (get_field mm (cqo_head offsets));
    local_head ← on_kern (load k_head);
    k_tail ← embed (get_field mm (cqo_tail offsets));
    cached_tail ← on_kern (load k_tail);
    k_ring_mask ← embed (get_field mm (cqo_ring_mask offsets));
    ring_mask ← on_kern (load k_ring_mask);
    k_ring_entries ← embed (get_field mm (cqo_ring_entries offsets));
    ring_entries ← on_kern (load k_ring_entries);
    k_overflow ← embed (get_field mm (cqo_overflow offsets));
    k_cqes ← embed (get_field mm (cqo_cqes offsets));
    check_ring cq_entries ring_entries ring_mask;;
    mret (Ok {| cq_mmap := mm; cq_k_head := k_head; local_head := local_head;
                cq_k_tail := k_tail; cached_tail := cached_tail; cq_ring_mask := ring_mask;
                k_overflow := k_overflow; k_cqes := k_cqes |}))
    (MappedMemory_drop mm).

Definition CompletionQueue_drop (c : CompletionQueue) : M Proc unit :=
  MappedMemory_drop (cq_mmap c).

Definition Uring_new (entries : Z) (params : SetupParameters) : M Proc (result Uring io_error) :=
  fp ←? UringFile_new entries params;
  drop_on_failure (
    sq ←? SubmissionQueue_new fp.1 (sq_off fp.2) (sq_entries fp.2);
    drop_on_failure (
      cq ←? CompletionQueue_new fp.1 (cq_off fp.2) (cq_entries fp.2);
      mret (Ok {| u_file := fp.1; u_sq := sq; u_cq := cq |}))
      (SubmissionQueue_drop sq))
    (UringFile_drop fp.1).

Definition Uring_drop (u : Uring) : M Proc unit :=
  UringFile_drop (u_file u);; SubmissionQueue_drop (u_sq u);; CompletionQueue_drop (u_cq u).
End uring.
