(* ===== verification/Rings.v ===== *)
(** * What the two rings promise: the abstract queues and their representation

    [Rings] is the abstract state of a ring pair: the entries staged for the
    kernel and how many of them are published, the requests in flight, the
    completions not yet read.  [kact] is what the kernel may do to it.
    [uring_rep] relates it to the queue objects and the shared memory, and
    [kstep_sim] shows that every step of the kernel on the memory is a step of
    [kact]. *)

From S2P Require Import Prelude Std Sys Submission Ring Kern Mmap SubQueue CompQueue.

Local Open Scope Z_scope.

(** ** Abstract state *)

Record Rings : Type := mkRings {
  staged : list SubmissionEntry;      (* kernel's head .. our tail *)
  published : nat;                    (* how many of them the kernel can see *)
  in_flight : list SubmissionEntry;   (* taken over, not completed *)
  completed : list CompletionEntry;   (* our head .. kernel's tail *)
  log : list kevent;                  (* what the kernel did so far *)
  held : nat;                         (* completions read, their slots not given back *)
  room : Z }.                         (* completion slots *)

Inductive kact : Rings → kevent → Rings → Prop :=
| kact_take e st n fl cp lg hd rm :
    kact (mkRings (e :: st) (S n) fl cp lg hd rm) (Take e)
         (mkRings st n (fl ++ [e]) cp (lg ++ [Take e]) hd rm)
| kact_post st n l1 e l2 cp res flags lg hd rm :
    kact (mkRings st n (l1 ++ e :: l2) cp lg hd rm) (Post (completion_of e res flags))
         (mkRings st n (l1 ++ l2) (cp ++ [completion_of e res flags])
            (lg ++ [Post (completion_of e res flags)]) hd rm)
| kact_lose st n l1 e l2 cp lg hd rm :
    kact (mkRings st n (l1 ++ e :: l2) cp lg hd rm) (Lose e)
         (mkRings st n (l1 ++ l2) cp (lg ++ [Lose e]) hd rm)
| kact_idle st n fl cp lg hd rm :
    kact (mkRings st n fl cp lg hd rm) Idle (mkRings st n fl cp (lg ++ [Idle]) hd rm).

(** A completion is lost only when every slot is in use. *)
Definition overflows (A : Rings) (ev : kevent) : Prop :=
  match ev with Lose _ => Z.of_nat (held A + length (completed A)) = room A | _ => True end.
Definition kacts_in (P : kevent → Prop) (A A' : Rings) : Prop :=
  ∃ ev, P ev ∧ overflows A ev ∧ kact A ev A'.
Abbreviation kacts := (kacts_in anything).

(** The kernel's log, by kind. *)
Definition takes (lg : list kevent) : list SubmissionEntry :=
  omap (λ ev, match ev with Take e => Some e | _ => None end) lg.
Definition posts (lg : list kevent) : list CompletionEntry :=
  omap (λ ev, match ev with Post x => Some x | _ => None end) lg.
Definition losses (lg : list kevent) : list SubmissionEntry :=
  omap (λ ev, match ev with Lose e => Some e | _ => None end) lg.

(** ** What is outstanding *)

(** The requests of which no completion was delivered, by [user_data]. *)
Definition pending_ops (A : Rings) : list Z :=
  (sqe_user_data <$> staged A) ++ (sqe_user_data <$> in_flight A) ++
  (cqe_user_data <$> completed A).
Definition lost_ops (A : Rings) : list Z :=
  sqe_user_data <$> losses (log A).

(** The completion slots that are in use, or will be: as long as there are enough
    of them the kernel loses no completion. *)
Definition in_use (A : Rings) : nat := (length (pending_ops A) + held A)%nat.

(** On the way from [A] to [A'] the completions [xs] were taken: the first of
    those that were there and of those that arrived, in the order of their
    arrival; [A'] has the rest. *)
Definition took (A : Rings) (xs : list CompletionEntry) (A' : Rings) : Prop :=
  ∃ lg, log A' = (log A ++ lg)%list ∧ (completed A ++ posts lg)%list = (xs ++ completed A')%list.
Lemma took_same A A' : log A' = log A → completed A' = completed A → took A [] A'.
Proof. intros Hl Hc. exists []. by rewrite Hl, Hc, !app_nil_r. Qed.
Lemma posts_app l l' : posts (l ++ l') = (posts l ++ posts l')%list.
Proof. apply omap_app. Qed.
Lemma took_trans A xs A1 ys A2 : took A xs A1 → took A1 ys A2 → took A (xs ++ ys) A2.
Proof.
  intros (n1 & Hl1 & Hc1) (n2 & Hl2 & Hc2). exists (n1 ++ n2)%list. split.
  - by rewrite Hl2, Hl1, app_assoc.
  - by rewrite posts_app, app_assoc, Hc1, <-!app_assoc, Hc2.
Qed.
Lemma took_kacts A A' : rtc kacts A A' → took A [] A'.
Proof.
  induction 1 as [A|A A1 A2 (ev & _ & _ & Ha) _ IH]; [by apply took_same|].
  apply (took_trans A [] A1 []); [|done]. destruct Ha; (eexists; split; [reflexivity|]); simpl; by rewrite ?app_nil_r.
Qed.

Lemma kact_in_use A ev A' : kact A ev A' → (∀ e, ev ≠ Lose e) →
  in_use A' = in_use A ∧ held A' = held A ∧ room A' = room A ∧ lost_ops A' = lost_ops A.
Proof.
  intros Ha Hev. unfold in_use, pending_ops, lost_ops, losses.
  destruct Ha as [| |st n l1 e|]; [| |by destruct (Hev e)|]; simpl;
    rewrite ?omap_app, !length_app, !length_fmap, ?length_app; csimpl; rewrite ?app_nil_r; split_and!; done || lia.
Qed.
Lemma kact_within A ev A' : overflows A ev → kact A ev A' → Z.of_nat (in_use A) ≤ room A → ∀ e, ev ≠ Lose e.
Proof.
  intros Ho Ha Hl e ->. inversion Ha; subst. unfold in_use, pending_ops in Hl. simpl in *.
  rewrite !length_app, !length_fmap, length_app in Hl. simpl in *. lia.
Qed.
Lemma kacts_held A A' : rtc kacts A A' → held A' = held A.
Proof. induction 1 as [|? ? ? (ev & _ & _ & Ha) _ ->]; [done|]. by destruct Ha. Qed.
Lemma kacts_kept A A' : rtc kacts A A' → Z.of_nat (in_use A) ≤ room A →
  in_use A' = in_use A ∧ room A' = room A ∧ lost_ops A' = lost_ops A.
Proof.
  induction 1 as [|A A1 A2 (ev & _ & Ho & Ha) _ IH]; [done|]. intros Hl.
  destruct (kact_in_use _ _ _ Ha (kact_within _ _ _ Ho Ha Hl)) as (Hl1 & _ & Hr1 & Hlost).
  rewrite Hl1, Hr1, Hlost in IH. auto.
Qed.

(** ** Representation *)

Record sq_rep (q : SubmissionQueue) (k : Kern) (st : list SubmissionEntry) (pub : nat)
    : Prop := {
  sqr_geo : geo_wf (geo k);
  sqr_k_head : sq_k_head q = g_sq_head (geo k);
  sqr_k_tail : sq_k_tail q = g_sq_tail (geo k);
  sqr_k_flags : k_flags q = g_sq_flags (geo k);
  sqr_k_dropped : k_dropped q = g_sq_dropped (geo k);
  sqr_sces : sces q = g_sces (geo k);
  sqr_mask : sq_ring_mask q = g_sq_mask (geo k);
  sqr_flags_cell : is_Some (u32s k !! g_sq_flags (geo k));
  sqr_dropped_cell : is_Some (u32s k !! g_sq_dropped (geo k));
  sqr_array : ∀ i, 0 ≤ i < entries (g_sq_mask (geo k)) →
    u32s k !! array_addr_of (geo k) i = Some i;
  sqr_slots : ∀ i, 0 ≤ i < entries (g_sq_mask (geo k)) →
    is_Some (sqes k !! sqe_addr_of (geo k) i);
  sqr_lt : in_u 32 (local_tail q);
  sqr_ch : in_u 32 (cached_head q);
  sqr_counters : ∃ h t,
    u32s k !! g_sq_head (geo k) = Some h ∧ in_u 32 h ∧
    u32s k !! g_sq_tail (geo k) = Some t ∧ in_u 32 t ∧
    dist h t = Z.of_nat pub ∧ dist h t + dist t (local_tail q) = dist h (local_tail q) ∧
    dist (cached_head q) h + dist h (local_tail q) ≤ entries (g_sq_mask (geo k)) ∧
    ring_rep (λ s, sqes k !! sqe_addr_of (geo k) s) (g_sq_mask (geo k)) h (local_tail q) st }.

Record cq_rep (c : CompletionQueue) (k : Kern) (cp : list CompletionEntry) (hd : nat) (rm : Z)
    : Prop := {
  cqr_geo : geo_wf (geo k);
  cqr_k_head : cq_k_head c = g_cq_head (geo k);
  cqr_k_tail : cq_k_tail c = g_cq_tail (geo k);
  cqr_k_overflow : k_overflow c = g_cq_overflow (geo k);
  cqr_cqes : k_cqes c = g_cqes (geo k);
  cqr_mask : cq_ring_mask c = g_cq_mask (geo k);
  cqr_room : entries (g_cq_mask (geo k)) = rm;
  cqr_held h : u32s k !! g_cq_head (geo k) = Some h → dist h (local_head c) = Z.of_nat hd;
  cqr_overflow_cell : is_Some (u32s k !! g_cq_overflow (geo k));
  cqr_lh : in_u 32 (local_head c);
  cqr_ct : in_u 32 (cached_tail c);
  cqr_counters : ∃ h t,
    u32s k !! g_cq_head (geo k) = Some h ∧ in_u 32 h ∧
    u32s k !! g_cq_tail (geo k) = Some t ∧ in_u 32 t ∧
    dist h (local_head c) + dist (local_head c) t = dist h t ∧
    dist h t ≤ entries (g_cq_mask (geo k)) ∧
    dist (local_head c) (cached_tail c) + dist (cached_tail c) t = dist (local_head c) t ∧
    ring_rep (λ s, cqes k !! cqe_addr_of (geo k) s) (g_cq_mask (geo k)) (local_head c) t cp }.

Record uring_rep (q : SubmissionQueue) (c : CompletionQueue) (k : Kern) (A : Rings)
    : Prop := {
  ur_sq : sq_rep q k (staged A) (published A);
  ur_cq : cq_rep c k (completed A) (held A) (room A);
  ur_fly : fly k = in_flight A;
  ur_log : klog k = log A }.

(** ** Addresses *)

Lemma sqe_size : size_of (repr_C SubmissionEntry_fields) = 64.
Proof. done. Qed.
Lemma cqe_size : size_of (repr_C CompletionEntry_fields) = 16.
Proof. done. Qed.
Lemma sqe_addr_inj g i j : sqe_addr_of g i = sqe_addr_of g j → i = j.
Proof. unfold sqe_addr_of. rewrite sqe_size. lia. Qed.
Lemma cqe_addr_inj g i j : cqe_addr_of g i = cqe_addr_of g j → i = j.
Proof. unfold cqe_addr_of. rewrite cqe_size. lia. Qed.

(** The cells of [u32s] the submission queue is about. *)
Definition sq_cell (g : Geometry) (a : Z) : Prop :=
  a = g_sq_head g ∨ a = g_sq_tail g ∨
  ∃ i, 0 ≤ i < entries (g_sq_mask g) ∧ a = array_addr_of g i.
Definition cq_cell (g : Geometry) (a : Z) : Prop :=
  a = g_cq_head g ∨ a = g_cq_tail g.

Lemma array_not_counter g i a : geo_wf g → 0 ≤ i < entries (g_sq_mask g) →
  a ∈ counters g → array_addr_of g i ≠ a.
Proof. intros Hg Hi Ha <-. by apply (geo_array g Hg i). Qed.

(** Pairwise distinctness of the counters, for [lookup_insert_ne]. *)
Lemma counter_ne g i j a b : geo_wf g →
  counters g !! i = Some a → counters g !! j = Some b → i ≠ j → a ≠ b.
Proof. intros Hg Ha Hb Hne <-. by eapply Hne, (NoDup_lookup _ i j a (geo_nodup g Hg)). Qed.

Ltac counter_index t :=
  lazymatch t with
  | g_sq_head _ => constr:(0%nat) | g_sq_tail _ => constr:(1%nat)
  | g_sq_flags _ => constr:(2%nat) | g_sq_dropped _ => constr:(3%nat)
  | g_cq_head _ => constr:(4%nat) | g_cq_tail _ => constr:(5%nat)
  | g_cq_overflow _ => constr:(6%nat)
  end.
(** Closes [a ≠ b] for two counters, or for a counter and an array cell. *)
Ltac geo_ne :=
  lazymatch goal with
  | Hg : geo_wf _ |- array_addr_of _ _ ≠ _ =>
      apply (array_not_counter _ _ _ Hg); [done|unfold counters; rewrite !elem_of_cons; tauto]
  | Hg : geo_wf _ |- _ ≠ array_addr_of _ _ =>
      apply not_eq_sym, (array_not_counter _ _ _ Hg);
      [done|unfold counters; rewrite !elem_of_cons; tauto]
  | Hg : geo_wf _ |- ?a ≠ ?b =>
      let i := counter_index a in let j := counter_index b in
      apply (counter_ne _ i j a b Hg); [reflexivity|reflexivity|lia]
  end.
(** Lookups in the shared memory after stores to counters. *)
Ltac mem_simp :=
  repeat first [ rewrite lookup_insert_eq
               | rewrite lookup_insert_ne by (solve [geo_ne]) ].

(** A store to one of the other cells. *)
Lemma sq_rep_frame q k k' st pub :
  sq_rep q k st pub → geo k' = geo k → sqes k' = sqes k →
  (∀ a, sq_cell (geo k) a → u32s k' !! a = u32s k !! a) →
  is_Some (u32s k' !! g_sq_flags (geo k)) → is_Some (u32s k' !! g_sq_dropped (geo k)) →
  sq_rep q k' st pub.
Proof.
  intros [] Hg Hs Hc Hfl Hdr. constructor; rewrite ?Hg, ?Hs; try done.
  - intros i Hi. rewrite Hc by (right; right; eauto). eauto.
  - rewrite !Hc by (unfold sq_cell; tauto). done.
Qed.
Lemma cq_rep_frame c k k' cp hd rm :
  cq_rep c k cp hd rm → geo k' = geo k → cqes k' = cqes k →
  (∀ a, cq_cell (geo k) a → u32s k' !! a = u32s k !! a) →
  is_Some (u32s k' !! g_cq_overflow (geo k)) →
  cq_rep c k' cp hd rm.
Proof.
  intros [] Hg Hs Hc Hov. constructor; rewrite ?Hg, ?Hs; try done;
    rewrite !Hc by (unfold cq_cell; tauto); done.
Qed.

(** ** The kernel's steps, queue by queue *)

Lemma kstep_geo k ev k' : kstep k ev k' → geo k' = geo k.
Proof. by destruct 1 as [?? []]. Qed.

(** A store to a cell that is none of the submission queue's. *)
Lemma sq_rep_store q k st pub a v k' :
  sq_rep q k st pub → ¬ sq_cell (geo k) a →
  geo k' = geo k → sqes k' = sqes k → u32s k' = <[a := v]> (u32s k) → sq_rep q k' st pub.
Proof.
  intros Hr Ha Hg Hs Hu. eapply sq_rep_frame; [done..|rewrite Hu| |].
  - intros b Hb. rewrite lookup_insert_ne; [done|]. by intros ->.
  - rewrite Hu. destruct (decide (a = g_sq_flags (geo k))) as [->|].
    + rewrite lookup_insert_eq. eauto.
    + rewrite lookup_insert_ne by done. apply Hr.
  - rewrite Hu. destruct (decide (a = g_sq_dropped (geo k))) as [->|].
    + rewrite lookup_insert_eq. eauto.
    + rewrite lookup_insert_ne by done. apply Hr.
Qed.
Lemma cq_rep_store c k cp hd rm a v k' :
  cq_rep c k cp hd rm → ¬ cq_cell (geo k) a →
  geo k' = geo k → cqes k' = cqes k → u32s k' = <[a := v]> (u32s k) → cq_rep c k' cp hd rm.
Proof.
  intros Hr Ha Hg Hs Hu. eapply cq_rep_frame; [done..|rewrite Hu|].
  - intros b Hb. rewrite lookup_insert_ne; [done|]. by intros ->.
  - rewrite Hu. destruct (decide (a = g_cq_overflow (geo k))) as [->|].
    + rewrite lookup_insert_eq. eauto.
    + rewrite lookup_insert_ne by done. apply Hr.
Qed.

(** A counter that is not one of a queue's cells. *)
Lemma not_sq_cell g a : geo_wf g → a ∈ counters g → a ≠ g_sq_head g → a ≠ g_sq_tail g →
  ¬ sq_cell g a.
Proof.
  intros Hg Ha Hh Ht [?|[?|(i & Hi & ->)]]; [done..|].
  by eapply array_not_counter.
Qed.
Lemma not_cq_cell g a : a ≠ g_cq_head g → a ≠ g_cq_tail g → ¬ cq_cell g a.
Proof. by intros ? ? [?|?]. Qed.
Ltac in_counters := unfold counters; rewrite !elem_of_cons; tauto.

Lemma sq_rep_consume q k st pub h t i e k' :
  sq_rep q k st pub →
  u32s k !! g_sq_head (geo k) = Some h → u32s k !! g_sq_tail (geo k) = Some t → h ≠ t →
  u32s k !! array_addr_of (geo k) (slot (g_sq_mask (geo k)) h) = Some i →
  sqes k !! sqe_addr_of (geo k) i = Some e →
  geo k' = geo k → sqes k' = sqes k → u32s k' = <[g_sq_head (geo k) := next_ndx h]> (u32s k) →
  ∃ st' n, st = e :: st' ∧ pub = S n ∧ sq_rep q k' st' n.
Proof.
  intros Hr Hh Ht Hne Hi He Hg Hs Hu. pose proof Hr as [Hgw].
  destruct sqr_counters0 as (h' & t' & Hh' & Hhu & Ht' & Htu & Hpub & Hadd & Hlen & Hring).
  simplify_eq. pose proof (geo_sq_mask _ Hgw) as Hm.
  pose proof (proj1 (dist_0 h t Hhu Htu)) as Hd0.
  pose proof (dist_range h t). pose proof (dist_range t (local_tail q)). unfold in_u in *.
  assert (0 < dist h t) by (destruct (decide (dist h t = 0)); [tauto|lia]).
  destruct st as [|e' st']; [destruct Hring as [Hl _]; simpl in Hl; lia|].
  destruct pub as [|n]; [lia|]. apply ring_rep_pop in Hring as [Hget Hring]; [|done].
  pose proof (slot_bounds (g_sq_mask (geo k)) h Hm).
  rewrite (sqr_array0 (slot (g_sq_mask (geo k)) h)) in Hi by done. simplify_eq.
  exists st', n. split_and!; [done..|].
  constructor; rewrite ?Hg, ?Hs, ?Hu; try done.
  - by rewrite lookup_insert_ne by geo_ne.
  - by rewrite lookup_insert_ne by geo_ne.
  - intros j Hj. rewrite lookup_insert_ne by geo_ne. auto.
  - exists (next_ndx h), t. rewrite lookup_insert_eq, lookup_insert_ne by geo_ne.
    pose proof (entries_pos _ Hm).
    split_and!; try done; try apply next_ndx_range.
    + rewrite dist_next_l; lia.
    + rewrite !dist_next_l; lia.
    + rewrite (dist_next_l h (local_tail q)) by lia.
      destruct (decide (dist (cached_head q) h + 1 < 2 ^ 32));
        [rewrite dist_next_r by lia; lia|].
      pose proof (dist_range (cached_head q) h). unfold in_u in *. lia.
Qed.

Lemma cq_rep_complete c k cp hd rm h t x k' :
  cq_rep c k cp hd rm →
  u32s k !! g_cq_head (geo k) = Some h → u32s k !! g_cq_tail (geo k) = Some t →
  dist h t < entries (g_cq_mask (geo k)) →
  geo k' = geo k → u32s k' = <[g_cq_tail (geo k) := next_ndx t]> (u32s k) →
  cqes k' = <[cqe_addr_of (geo k) (slot (g_cq_mask (geo k)) t) := x]> (cqes k) →
  cq_rep c k' (cp ++ [x])%list hd rm.
Proof.
  intros Hr Hh Ht Hlt Hg Hu Hs. pose proof Hr as [Hgw].
  destruct cqr_counters0 as (h' & t' & Hh' & Hhu & Ht' & Htu & Hadd & Hlen & Hct & Hring).
  simplify_eq. pose proof (geo_cq_mask _ Hgw) as Hm. pose proof (entries_pos _ Hm).
  pose proof (dist_range h (local_head c)). pose proof (dist_range (local_head c) t).
  pose proof (dist_range (cached_tail c) t). pose proof (dist_range (local_head c) (cached_tail c)).
  unfold in_u in *. pose proof (proj1 Hring) as Hl.
  constructor; rewrite ?Hg, ?Hs, ?Hu; try done.
  - intros h'. rewrite lookup_insert_ne by geo_ne. apply cqr_held0.
  - by rewrite lookup_insert_ne by geo_ne.
  - exists h, (next_ndx t). rewrite lookup_insert_eq, lookup_insert_ne by geo_ne.
    split_and!; try done; try apply next_ndx_range.
    + rewrite !dist_next_r; lia.
    + rewrite dist_next_r; lia.
    + rewrite !dist_next_r; lia.
    + eapply (ring_rep_push (λ s, cqes k !! cqe_addr_of (geo k) s)); try done.
      * lia.
      * cbv beta. by rewrite lookup_insert_eq.
      * intros s Hs'. cbv beta. rewrite lookup_insert_ne; [done|].
        intros ?%cqe_addr_inj. by subst.
Qed.

(** Every slot is in use, by completions that are there or were read. *)
Lemma cq_rep_full c k cp hd rm h t : cq_rep c k cp hd rm →
  u32s k !! g_cq_head (geo k) = Some h → u32s k !! g_cq_tail (geo k) = Some t →
  dist h t = entries (g_cq_mask (geo k)) → Z.of_nat (hd + length cp) = rm.
Proof.
  intros [] Hh Ht Hd. destruct cqr_counters0 as (h' & t' & Hh' & _ & Ht' & _ & Hadd & _ & _ & Hl & _).
  simplify_eq. specialize (cqr_held0 _ Hh'). lia.
Qed.

(** Every step of the kernel on the shared memory is a step of the abstract
    queues (dropping an entry with an out-of-range index cannot happen: the
    index array is the identity). *)
Lemma kstep_sim q c k A ev k' :
  uring_rep q c k A → kstep k ev k' → ∃ A', uring_rep q c k' A' ∧ overflows A ev ∧ kact A ev A'.
Proof.
  intros [Hsq Hcq Hfly Hlog] Hst. pose proof (sqr_geo _ _ _ _ Hsq) as Hgw.
  destruct A as [st pub fl cp lg hd rm]; simpl in *. subst fl lg. destruct Hst as [ev k' Hst].
  destruct Hst as [h t i e Hh Ht Hne Hi Hib He|h t i d Hh Ht Hne Hi Hib Hd
                  |h t e l1 l2 res fg Hfl Hh Ht Hlt|h t o e l1 l2 Hfl Hh Ht Hlt Ho|fg].
  - lazymatch goal with |- ∃ _, uring_rep _ _ ?k' _ ∧ _ =>
      destruct (sq_rep_consume q k st pub h t i e k') as (st' & n & -> & -> & Hsq'); try done end.
    eexists. split; [|split; [done|apply kact_take]]. split; simpl; [exact Hsq'| |done..].
    eapply cq_rep_store; try done. apply not_cq_cell; geo_ne.
  - exfalso. pose proof (geo_sq_mask _ Hgw) as Hm.
    pose proof (slot_bounds (g_sq_mask (geo k)) h Hm) as Hb.
    rewrite (sqr_array _ _ _ _ Hsq _ Hb) in Hi. by simplify_eq.
  - rewrite Hfl. eexists. split; [|split; [done|apply kact_post]]. split; simpl; [| |done..].
    + eapply sq_rep_store; try done. apply not_sq_cell; [done|in_counters|geo_ne|geo_ne].
    + eapply cq_rep_complete; done.
  - rewrite Hfl. eexists. split; [|split; [by eapply cq_rep_full|apply kact_lose]]. split; simpl; [| |done..].
    + eapply sq_rep_store; try done. apply not_sq_cell; [done|in_counters|geo_ne|geo_ne].
    + eapply cq_rep_store; try done. apply not_cq_cell; geo_ne.
  - eexists. split; [|split; [done|apply kact_idle]]. split; simpl; [| |done..].
    + eapply sq_rep_store; try done. apply not_sq_cell; [done|in_counters|geo_ne|geo_ne].
    + eapply cq_rep_store; try done. apply not_cq_cell; geo_ne.
Qed.

Lemma rtc_kstep_sim P q c k A k' :
  uring_rep q c k A → rtc (kmove_in P) k k' →
  ∃ A', uring_rep q c k' A' ∧ rtc (kacts_in P) A A'.
Proof.
  intros Hr Hst. revert A Hr. induction Hst as [|k k1 k2 [ev [HP H1]] _ IH]; intros A Hr.
  - exists A. split; [done|apply rtc_refl].
  - destruct (kstep_sim _ _ _ _ _ _ Hr H1) as (A1 & Hr1 & Ho1 & Ha1).
    destruct (IH _ Hr1) as (A2 & Hr2 & Ha2). exists A2. split; [done|]. eapply rtc_l; [by exists ev|done].
Qed.
