(* ===== verification/UringProps.v ===== *)
(** * Setting up a ring: resources, checks, and the rings it yields *)

From S2P Require Import Prelude Std Sys Submission Ring Kern Mmap SubQueue CompQueue Uring Rings.

Local Open Scope Z_scope.
Local Open Scope rust_scope.

(** ** What the set-up code relies on in [libc]

    The parameters the kernel fills in are [u32]s; [mmap] and [munmap] add and remove exactly the mapping they are asked for
    and leave the contents of the shared memory alone, [mmap] refuses length 0
    and maps inside the 64-bit address space, and [io_uring_setup] opens a
    descriptor exactly when it returns a non-negative number. *)
Definition params_wf (ps : SetupParameters) : Prop :=
  in_u 32 (sq_entries ps) ∧ in_u 32 (cq_entries ps) ∧ in_u 32 (cqo_cqes (cq_off ps)).
Class LibcOk (L : Libc Proc) : Prop := {
  setup_spec n e ps p : ∃ r ps' p',
    syscall_setup n e ps p = (Done (r, ps'), p') ∧ maps p' = maps p ∧ params_wf ps' ∧
    fds p' = if 0 <=? as_i32 r then as_i32 r :: fds p else fds p;
  errno_spec p : ∃ e, errno p = (Done e, p);
  mmap_spec a len prot fl fd off p : ∃ r p',
    mmap a len prot fl fd off p = (Done r, p') ∧ fds p' = fds p ∧ kern p' = kern p ∧
    (len = 0 → r = MAP_FAILED) ∧ (r ≠ MAP_FAILED → 0 ≤ r ∧ r + len ≤ 2 ^ 64) ∧
    maps p' = if decide (r = MAP_FAILED) then maps p else (r, len) :: maps p;
  munmap_spec a len p : (a, len) ∈ maps p → ∃ p',
    munmap a len p = (Done 0, p') ∧ fds p' = fds p ∧ kern p' = kern p ∧ maps p ≡ₚ (a, len) :: maps p';
  close_spec fd p : fd ∈ fds p → ∃ p',
    close fd p = (Done tt, p') ∧ maps p' = maps p ∧ kern p' = kern p ∧ fds p ≡ₚ fd :: fds p' }.

(** ** Ownership of mappings and descriptors *)

Definition res : Type := list (Z * Z) * list Z.
Definition res_app (r1 r2 : res) : res := (r1.1 ++ r2.1, r1.2 ++ r2.2)%list.
Definition holds (r : res) (p : Proc) : Prop := maps p ≡ₚ r.1 ∧ fds p ≡ₚ r.2.

(** From [P] (beside anything else, [F]): on success [m] owns what [R] says of
    its result, on an error or a panic [P] again. *)
Definition acquires {A E} (P : res) (m : M Proc (result A E)) (R : A → res) : Prop :=
  ∀ F p, holds (res_app P F) p →
    match m p with
    | (Done (Ok a), p') => holds (res_app (R a) F) p'
    | (Done (Err _), p') | (Panic _, p') => holds (res_app P F) p'
    | (UB _, _) => True
    | (Hang _, _) => False
    end.
(** [d] gives [P] back. *)
Definition releases (P : res) (d : M Proc unit) : Prop :=
  ∀ F p, holds (res_app P F) p → ∃ p', d p = (Done tt, p') ∧ holds F p'.
(** [m] does not touch mappings or descriptors, and returns or panics. *)
Definition neutral {A} (m : M Proc A) : Prop :=
  ∀ p, maps (m p).2 = maps p ∧ fds (m p).2 = fds p ∧
       match (m p).1 with Hang _ => False | _ => True end.

(** An object of length 0 has no mapping ([mmap] refuses that length). *)
Definition mapping (mm : MappedMemory) : res :=
  if decide (mm_len mm = 0) then ([], []) else ([(mm_addr mm, mm_len mm)], []).
Definition sq_mappings (q : SubmissionQueue) : res :=
  res_app (mapping (sq_mmap q)) (mapping (sq_mmap_entries q)).
Definition cq_mappings (c : CompletionQueue) : res := mapping (cq_mmap c).
Definition uring_resources (u : Uring) : res :=
  res_app (cq_mappings (u_cq u)) (res_app (sq_mappings (u_sq u)) ([], [u_file u])).

Lemma mapping_fds mm : (mapping mm).2 = [].
Proof. unfold mapping. by case_decide. Qed.
Lemma res_app_assoc r1 r2 r3 : res_app r1 (res_app r2 r3) = res_app (res_app r1 r2) r3.
Proof. unfold res_app. simpl. by rewrite !app_assoc. Qed.
Lemma res_app_nil_l r : res_app ([], []) r = r.
Proof. by destruct r. Qed.
Lemma res_app_nil_r r : res_app r ([], []) = r.
Proof. unfold res_app. simpl. rewrite !app_nil_r. by destruct r. Qed.

Section rules.
Context {A B E : Type}.

(** The pattern of the constructors: acquire, then continue with the value
    guarded by its destructor. *)
Lemma acquires_try P (m : M Proc (result A E)) R (k : A → M Proc (result B E)) d R' :
  acquires P m (λ a, res_app (R a) P) →
  (∀ a, acquires (res_app (R a) P) (k a) R') →
  (∀ a, releases (R a) (d a)) →
  acquires P (a ←? m; drop_on_failure (k a) (d a)) R'.
Proof.
  intros Hm Hk Hd F p Hp. specialize (Hm F p Hp).
  unfold try_bind, mbind, M_bind. destruct (m p) as [[[a|e]|w|w|w] p1] eqn:Hmp; try done.
  specialize (Hk a F p1 Hm). unfold drop_on_failure.
  destruct (k a p1) as [[[b|e]|w|w|w] p2]; try done.
  - rewrite <-res_app_assoc in Hk. destruct (Hd a _ _ Hk) as (p3 & Hrun & Hp3).
    unfold mbind, M_bind. by rewrite Hrun.
  - rewrite <-res_app_assoc in Hk. destruct (Hd a _ _ Hk) as (p3 & Hrun & Hp3).
    by rewrite Hrun.
Qed.
Lemma acquires_neutral P (m : M Proc A) (k : A → M Proc (result B E)) R :
  neutral m → (∀ a, acquires P (k a) R) → acquires P (a ← m; k a) R.
Proof.
  intros Hm Hk F p Hp. destruct (Hm p) as (Hmaps & Hfds & Hh).
  assert (holds (res_app P F) (m p).2) as Hp' by (unfold holds; rewrite Hmaps, Hfds; done).
  unfold mbind, M_bind. destruct (m p) as [[a|w|w|w] p1]; simpl in *; try done.
  by apply Hk.
Qed.
Lemma acquires_ret P (a : A) (R : A → res) :
  (∀ F p, holds (res_app P F) p → holds (res_app (R a) F) p) →
  acquires P (mret (Ok a : result A E)) R.
Proof. intros HR F p Hp. by apply HR. Qed.
End rules.

Lemma neutral_embed {A} (o : outcome A) : (∀ w, o ≠ Hang w) → neutral (embed o).
Proof. intros Ho p. split_and!; try done. destruct o; try done. by eapply Ho. Qed.
Lemma neutral_get_field `{!Build} mm off : neutral (embed (get_field mm off)).
Proof.
  apply neutral_embed. intros w. unfold get_field, add_u. by repeat case_match.
Qed.
Lemma neutral_load `{!Kernel} a : neutral (on_kern (load a)).
Proof. intros p. unfold on_kern, zoom, load. by destruct (_ !! a). Qed.
Lemma neutral_store a v : neutral (on_kern (store a v)).
Proof. intros p. unfold on_kern, zoom, store. by destruct (_ !! a). Qed.
Lemma neutral_bind {A B} (m : M Proc A) (k : A → M Proc B) :
  neutral m → (∀ a, neutral (k a)) → neutral (m ≫= k).
Proof.
  intros Hm Hk p. destruct (Hm p) as (Hmaps & Hfds & Hh). unfold mbind, M_bind.
  destruct (m p) as [[a|w|w|w] p1]; simpl in *; try done.
  destruct (Hk a p1) as (? & ? & ?). split_and!; [congruence|congruence|done].
Qed.
Lemma neutral_assert b w : neutral (assert b w).
Proof. by destruct b. Qed.
Lemma neutral_check `{!Build} n e m : neutral (check_ring n e m).
Proof.
  repeat (apply neutral_bind; [|intros]); try apply neutral_assert.
  apply neutral_embed. intros w. unfold sub_u. by repeat case_match.
Qed.
Lemma neutral_for (body : Z → M Proc unit) i n :
  (∀ i, neutral (body i)) → neutral (for_range i n body).
Proof. intros Hb. revert i. induction n; simpl; intros i; [done|]. by apply neutral_bind. Qed.

Create HintDb res.
#[export] Hint Resolve neutral_get_field neutral_load neutral_store neutral_check
  neutral_for : res.

Section resources.
Context `{!Kernel} `{L : !Libc Proc} `{!LibcOk L} `{!Build}.

Lemma map_acquires fd off len P :
  acquires P (MappedMemory_map fd off len) (λ mm, res_app (mapping mm) P).
Proof.
  intros F p [Hm Hf]. unfold MappedMemory_map, mbind, M_bind.
  destruct (mmap_spec 0 len (Z.lor PROT_READ PROT_WRITE) (Z.lor MAP_SHARED MAP_POPULATE) fd off p)
    as (r & p1 & -> & Hfd & _ & Hz & _ & Hmp).
  destruct (decide (r = MAP_FAILED)) as [->|Hne].
  - unfold last_os_error, mbind, M_bind. destruct (errno_spec p1) as [err ->]. simpl.
    split; [by rewrite Hmp|by rewrite Hfd].
  - unfold mapping. simpl. destruct (decide (len = 0)); [by exfalso; auto|].
    split; simpl; [by rewrite Hmp, Hm|by rewrite Hfd].
Qed.
Lemma drop_releases mm : releases (mapping mm) (MappedMemory_drop mm).
Proof.
  intros F p [Hm Hf]. unfold MappedMemory_drop, mapping in *.
  destruct (decide (mm_len mm = 0)); simpl in *.
  - exists p. split; [done|by split].
  - destruct (munmap_spec (mm_addr mm) (mm_len mm) p) as (p1 & Hrun & Hfd & _ & Hmp).
    { rewrite Hm. left. }
    exists p1. unfold mbind, M_bind. rewrite Hrun. split; [done|]. split; [|by rewrite Hfd].
    rewrite Hmp in Hm. by apply Permutation.Permutation_cons_inv in Hm.
Qed.
Lemma close_releases fd : releases ([], [fd]) (UringFile_drop fd).
Proof.
  intros F p [Hm Hf]. destruct (close_spec fd p) as (p1 & Hrun & Hmp & _ & Hfd).
  { rewrite Hf. left. }
  exists p1. split; [done|]. split; [by rewrite Hmp|].
  rewrite Hfd in Hf. by apply Permutation.Permutation_cons_inv in Hf.
Qed.
Lemma releases_seq P1 P2 d1 d2 :
  releases P1 d1 → releases P2 d2 → releases (res_app P1 P2) (d1;; d2).
Proof.
  intros H1 H2 F p Hp. rewrite <-res_app_assoc in Hp.
  destruct (H1 _ _ Hp) as (p1 & Hrun1 & Hp1). destruct (H2 _ _ Hp1) as (p2 & Hrun2 & Hp2).
  exists p2. unfold mbind, M_bind. by rewrite Hrun1.
Qed.

Lemma sq_new_acquires fd off n P :
  acquires P (SubmissionQueue_new fd off n) (λ q, res_app (sq_mappings q) P).
Proof.
  unfold SubmissionQueue_new.
  apply acquires_try with mapping; [apply map_acquires| |apply drop_releases]. intros mm.
  apply acquires_try with mapping; [apply map_acquires| |apply drop_releases]. intros mme.
  do 11 (apply acquires_neutral; [auto with res|intros]).
  apply acquires_neutral; [auto with res|intros].
  apply acquires_neutral; [auto with res|intros].
  apply acquires_ret. intros F p [Hm Hf]. split; simpl in *.
  - rewrite Hm. unfold sq_mappings. simpl. solve_Permutation.
  - rewrite Hf. unfold sq_mappings. simpl. solve_Permutation.
Qed.
Lemma cq_new_acquires fd off n P :
  acquires P (CompletionQueue_new fd off n) (λ c, res_app (cq_mappings c) P).
Proof.
  unfold CompletionQueue_new.
  apply acquires_try with mapping; [apply map_acquires| |apply drop_releases]. intros mm.
  do 11 (apply acquires_neutral; [auto with res|intros]).
  apply acquires_ret. intros F p Hp. exact Hp.
Qed.
Lemma file_new_acquires n params P :
  acquires P (UringFile_new n params) (λ r, res_app ([], [r.1]) P).
Proof.
  intros F p [Hm Hf]. unfold UringFile_new, io_uring_setup, mbind, M_bind.
  destruct (setup_spec SYS_io_uring_setup n params p) as (r & ps & p1 & -> & Hmp & _ & Hfd).
  simpl. destruct (Z.ltb_spec (as_i32 r) 0).
  - unfold last_os_error, mbind, M_bind. destruct (errno_spec p1) as [err ->]. simpl.
    rewrite (proj2 (Z.leb_gt _ _)) in Hfd by lia.
    split; [by rewrite Hmp|by rewrite Hfd].
  - rewrite (proj2 (Z.leb_le _ _)) in Hfd by lia. simpl.
    split; simpl; [by rewrite Hmp|by rewrite Hfd, Hf].
Qed.
Lemma sq_drop_releases q : releases (sq_mappings q) (SubmissionQueue_drop q).
Proof. apply releases_seq; apply drop_releases. Qed.

Lemma cq_drop_releases c : releases (cq_mappings c) (CompletionQueue_drop c).
Proof. apply drop_releases. Qed.

Lemma uring_new_acquires n params P :
  acquires P (Uring_new n params) (λ u, res_app (uring_resources u) P).
Proof.
  unfold Uring_new.
  eapply acquires_try with (R := λ r : Z * SetupParameters, ([], [r.1]));
    [apply file_new_acquires| |intros; apply close_releases]. intros [fd ps]. simpl.
  apply acquires_try with sq_mappings; [apply sq_new_acquires| |apply sq_drop_releases].
  intros q F p Hp. pose proof (cq_new_acquires fd (cq_off ps) (cq_entries ps) _ F p Hp) as Hc.
  unfold try_bind, mbind, M_bind. destruct (CompletionQueue_new _ _ _ p) as [[[c|err]|?|?|?] p1];
    try done.
  simpl in *. unfold uring_resources. simpl. by rewrite <-!res_app_assoc in *.
Qed.

(** C28: setting up a ring leaks nothing: when [Uring::new] returns a ring the
    process owns exactly its three mappings and its descriptor beside what it
    owned before; when any step fails (the system call, any of the three
    [mmap]s) or an assertion on the ring constants panics, it owns exactly what
    it owned before; and dropping the ring gives everything back. *)
Theorem Uring_new_owns_its_resources n params p :
  match Uring_new n params p with
  | (Done (Ok u), p') =>
      maps p' ≡ₚ ((uring_resources u).1 ++ maps p)%list ∧ fds p' ≡ₚ u_file u :: fds p ∧
      ∃ p'', Uring_drop u p' = (Done tt, p'') ∧ maps p'' ≡ₚ maps p ∧ fds p'' ≡ₚ fds p
  | (Done (Err _), p') | (Panic _, p') => maps p' ≡ₚ maps p ∧ fds p' ≡ₚ fds p
  | (UB _, _) => True
  | (Hang _, _) => False
  end.
Proof.
  pose proof (uring_new_acquires n params ([], []) (maps p, fds p) p) as Ha.
  rewrite res_app_nil_l in Ha. specialize (Ha ltac:(by split)).
  destruct (Uring_new n params p) as [[[u|err]|?|?|?] p1]; try done.
  rewrite res_app_nil_r in Ha. pose proof Ha as [Hm Hf]. split; [exact Hm|split; [|]].
  { rewrite Hf. simpl. unfold cq_mappings. by rewrite !mapping_fds. }
  assert (releases (res_app ([], [u_file u]) (res_app (sq_mappings (u_sq u)) (cq_mappings (u_cq u))))
    (Uring_drop u)) as Hd.
  { unfold Uring_drop. apply releases_seq; [apply close_releases|].
    apply releases_seq; [apply sq_drop_releases|apply cq_drop_releases]. }
  destruct (Hd (maps p, fds p) p1) as (p2 & Hrun & Hm2 & Hf2).
  - split; [rewrite Hm|rewrite Hf]; unfold uring_resources; simpl; solve_Permutation.
  - exists p2. by split_and!.
Qed.
End resources.

(** ** The checks make every slot address valid *)

Lemma is_power_of_two_spec x : is_power_of_two x = true → ∃ k, 0 ≤ k ∧ x = 2 ^ k.
Proof.
  unfold is_power_of_two. rewrite andb_true_iff, Z.ltb_lt, Z.eqb_eq. intros [Hx Hl].
  exists (Z.log2 x). split; [apply Z.log2_nonneg|].
  pose proof (Z.log2_spec x Hx) as Hlog. destruct (decide (x = 2 ^ Z.log2 x)) as [|Hne]; [done|].
  pose proof (Z.log2_nonneg x). rewrite Z.pow_succ_r in Hlog by done.
  assert (Z.log2 (x - 1) = Z.log2 x) as Hlx.
  { apply Z.log2_unique; [done|]. rewrite Z.pow_succ_r by done. lia. }
  assert (1 ≤ x - 1) by (pose proof (Z.pow_pos_nonneg 2 (Z.log2 x)); lia).
  assert (Z.testbit (Z.land x (x - 1)) (Z.log2 x) = true) as Ht.
  { rewrite Z.land_spec, Z.bit_log2 by lia. simpl. rewrite <-Hlx. apply Z.bit_log2. lia. }
  rewrite Hl, Z.testbit_0_l in Ht. done.
Qed.

Section checks.
Context `{!Kernel} `{L : !Libc Proc} `{!LibcOk L} `{!Build}.

Lemma check_ring_spec n e m p p' : check_ring n e m p = (Done tt, p') → in_u 32 n →
  p' = p ∧ n = e ∧ m = e - 1 ∧ mask_ok m.
Proof.
  intros Hrun Hn. assert (wp (check_ring n e m) (λ _ s, s = p' ∧ s = p ∧ n = e ∧ m = e - 1 ∧
    is_power_of_two e = true) p) as Hw.
  { unfold wp. rewrite Hrun. split; [done|]. revert Hrun.
    unfold check_ring, assert, panic, embed, mbind, M_bind, sub_u, mret, M_ret.
    destruct (Z.eqb_spec n e); [|done]. destruct (is_power_of_two e) eqn:He; [|done].
    unfold is_power_of_two in He. apply andb_true_iff in He as [He%Z.ltb_lt _].
    rewrite (proj2 (Z.leb_le 1 e)) by lia. destruct (Z.eqb_spec m (e - 1)); [|done].
    by intros [= <-]. }
  unfold wp in Hw. rewrite Hrun in Hw. destruct Hw as (_ & -> & -> & -> & He).
  split_and!; try done. apply is_power_of_two_spec in He as (k & Hk & ->).
  exists k. split; [|done]. split; [done|]. unfold in_u in Hn.
  destruct (decide (k < 32)); [lia|]. pose proof (Z.pow_le_mono_r 2 32 k). lia.
Qed.

(** Runs that end well, taken apart. *)
Lemma run_bind {S A B} (m : M S A) (k : A → M S B) b s s' : (m ≫= k) s = (Done b, s') →
  ∃ a s1, m s = (Done a, s1) ∧ k a s1 = (Done b, s').
Proof. unfold mbind, M_bind. destruct (m s) as [[] s1]; naive_solver. Qed.
Lemma run_try {S A B E} (m : M S (result A E)) (k : A → M S (result B E)) b s s' :
  try_bind m k s = (Done (Ok b), s') →
  ∃ a s1, m s = (Done (Ok a), s1) ∧ k a s1 = (Done (Ok b), s').
Proof. intros ([a|e] & s1 & Hm & Hk)%run_bind; [by eauto|done]. Qed.
Lemma run_drop_on_failure {S A E} (m : M S (result A E)) d a s s' :
  drop_on_failure m d s = (Done (Ok a), s') → m s = (Done (Ok a), s').
Proof.
  unfold drop_on_failure, mbind, M_bind. destruct (m s) as [[[]| | |] s1]; try done.
  - by destruct (d s1) as [[]].
  - by destruct (d s1) as [[]].
Qed.
Ltac run_inv H := match type of H with
  | try_bind _ _ _ = _ => let Hr := fresh "Hrun" in apply run_try in H as (? & ? & Hr & H)
  | drop_on_failure _ _ _ = _ => apply run_drop_on_failure in H
  | (_ ≫= _) _ = _ => let Hr := fresh "Hrun" in apply run_bind in H as (? & ? & Hr & H)
  end.

Lemma map_run fd off len p mm p' : MappedMemory_map fd off len p = (Done (Ok mm), p') →
  mm_len mm = len ∧ 0 ≤ mm_addr mm ∧ mm_addr mm + len ≤ 2 ^ 64.
Proof.
  unfold MappedMemory_map. intros Hr. run_inv Hr.
  destruct (mmap_spec 0 len (Z.lor PROT_READ PROT_WRITE) (Z.lor MAP_SHARED MAP_POPULATE) fd off p)
    as (r & p1 & Hm & _ & _ & _ & Hb & _).
  rewrite Hm in Hrun. injection Hrun as <- <-. case_decide as Hd.
  - run_inv Hr. done.
  - injection Hr as <- _. simpl. specialize (Hb Hd). lia.
Qed.

Lemma get_field_run mm off (p : Proc) x p' : embed (get_field mm off) p = (Done x, p') →
  mm_addr mm + off < 2 ^ 64 → x = mm_addr mm + off.
Proof.
  unfold embed, get_field, add_u. intros Hr Ho. rewrite (proj2 (Z.ltb_lt _ _)) in Hr by done.
  congruence.
Qed.

(** The element [slot mask ndx] of an array of [entries mask] elements of
    [size] bytes that ends where its mapping does. *)
Lemma slot_in_mapping mask ndx size : mask_ok mask → 0 < size →
  0 ≤ size * Z.land ndx mask ∧ size * Z.land ndx mask + size ≤ size * entries mask.
Proof. intros Hm Hs. pose proof (slot_bounds mask ndx Hm) as Hb. unfold slot in Hb. nia. Qed.

Lemma sq_new_slots fd off n p q p' ndx : in_u 32 n →
  SubmissionQueue_new fd off n p = (Done (Ok q), p') →
  mm_addr (sq_mmap_entries q) ≤ slot_addr q ndx ∧
  slot_addr q ndx + size_of (repr_C SubmissionEntry_fields)
    ≤ mm_addr (sq_mmap_entries q) + mm_len (sq_mmap_entries q).
Proof.
  intros Hn Hr. unfold SubmissionQueue_new in Hr. repeat run_inv Hr.
  apply map_run in Hrun0 as (Hlen & _). repeat case_match; simplify_eq.
  match goal with Hc : check_ring _ _ _ _ = (Done ?u, _) |- _ =>
    destruct u; apply check_ring_spec in Hc as (_ & <- & -> & Hm); [|done] end.
  unfold mret, M_ret in Hr. simplify_eq. unfold slot_addr, as_mut_ptr. rewrite sqe_size in *. simpl.
  pose proof (slot_in_mapping _ ndx 64 Hm) as Hs.
  replace (entries (n - 1)) with n in Hs by (unfold entries; lia). lia.
Qed.

Lemma cq_new_slots fd off n p c p' ndx : in_u 32 n → in_u 32 (cqo_cqes off) →
  CompletionQueue_new fd off n p = (Done (Ok c), p') →
  mm_addr (cq_mmap c) ≤ cqe_slot_addr c ndx ∧
  cqe_slot_addr c ndx + size_of (repr_C CompletionEntry_fields)
    ≤ mm_addr (cq_mmap c) + mm_len (cq_mmap c).
Proof.
  intros Hn Ho Hr. unfold CompletionQueue_new in Hr. repeat run_inv Hr.
  apply map_run in Hrun as (Hlen & Ha & Hb). rewrite cqe_size in *.
  match goal with Hc : check_ring _ _ _ _ = (Done ?u, _) |- _ =>
    destruct u; apply check_ring_spec in Hc as (_ & <- & -> & Hm); [|done] end.
  pose proof (entries_pos _ Hm) as Hpos. unfold entries in Hpos. unfold in_u in Ho.
  match goal with Hc : embed (get_field _ (cqo_cqes _)) _ = _ |- _ =>
    apply get_field_run in Hc as ->; [|lia] end.
  unfold mret, M_ret in Hr. simplify_eq. unfold cqe_slot_addr. rewrite cqe_size. simpl.
  pose proof (slot_in_mapping _ ndx 16 Hm) as Hs.
  replace (entries (n - 1)) with n in Hs by (unfold entries; lia). lia.
Qed.

Lemma setup_run n params p x p' :
  UringFile_new n params p = (Done (Ok x), p') → params_wf x.2.
Proof.
  unfold UringFile_new, io_uring_setup, mbind, M_bind.
  destruct (setup_spec SYS_io_uring_setup n params p) as (r & ps & p1 & -> & _ & Hwf & _). simpl.
  destruct (as_i32 r <? 0); [|by intros [= <- _]].
  unfold last_os_error, mbind, M_bind. by destruct (errno p1) as [[] ?].
Qed.

(** C29: whatever the kernel wrote into the rings, once [Uring::new] has
    returned one, the address every submission and completion slot is accessed
    at, for any value of the ring counters, lies with its whole entry inside
    the mapping made for it: the assertions on the ring constants are enough
    for the unsafe pointer arithmetic. *)
Theorem Uring_new_slots_in_bounds n params p u p' ndx
    (Hrun : Uring_new n params p = (Done (Ok u), p')) :
  (mm_addr (sq_mmap_entries (u_sq u)) ≤ slot_addr (u_sq u) ndx ∧
   slot_addr (u_sq u) ndx + size_of (repr_C SubmissionEntry_fields)
     ≤ mm_addr (sq_mmap_entries (u_sq u)) + mm_len (sq_mmap_entries (u_sq u))) ∧
  (mm_addr (cq_mmap (u_cq u)) ≤ cqe_slot_addr (u_cq u) ndx ∧
   cqe_slot_addr (u_cq u) ndx + size_of (repr_C CompletionEntry_fields)
     ≤ mm_addr (cq_mmap (u_cq u)) + mm_len (cq_mmap (u_cq u))).
Proof.
  unfold Uring_new in Hrun. repeat run_inv Hrun.
  match goal with Hf : UringFile_new _ _ _ = _ |- _ => apply setup_run in Hf as (Hs & Hc & Ho) end.
  unfold mret, M_ret in Hrun. simplify_eq. simpl.
  split; [eapply sq_new_slots; [exact Hs|eassumption]|eapply cq_new_slots; [exact Hc|exact Ho|eassumption]].
Qed.
End checks.

(** ** Registering *)

(** [register_buffers] cuts the length of its slice down to 32 bits, so that a
    longer one is registered as a shorter one would be; [register_files] asserts
    that the length fits and passes all of it on. *)
Theorem register_buffers_truncates {S} `{!Libc S} fd l (s : S) : 0 ≤ slice_len l →
  register_buffers fd l s =
    register_buffers fd {| as_ptr := as_ptr l; slice_len := slice_len l mod 2 ^ 32 |} s ∧
  register_files fd l s =
    if slice_len l <? 2 ^ 32 then register fd REGISTER_FILES (as_ptr l) (slice_len l) s
    else (Panic "assertion failed: fds.len() <= u32::max_value()", s).
Proof.
  intros Hl. split.
  - unfold register_buffers. simpl. by rewrite (wrap_idemp 32 (slice_len l) : wrap 32 (slice_len l mod 2 ^ 32) = _).
  - unfold register_files, assert, mbind, M_bind.
    destruct (Z.leb_spec (slice_len l) (2 ^ 32 - 1)), (Z.ltb_spec (slice_len l) (2 ^ 32)); try lia; [|done].
    simpl. rewrite wrap_id; [done|]. unfold in_u. lia.
Qed.
Lemma register_buffers_truncates_witness {S} `{!Libc S} (s : S) :
  register_buffers 3 {| as_ptr := 4096; slice_len := 2 ^ 32 |} s =
  register_buffers 3 {| as_ptr := 4096; slice_len := 0 |} s.
Proof. apply (register_buffers_truncates 3 {| as_ptr := 4096; slice_len := 2 ^ 32 |} s). done. Defined.
