(* ===== verification/Demo.v ===== *)
(** * A concrete pair of rings

    Two submission slots and two completion slots whose counters start just
    below the wrap-around, on which the other files evaluate the definitions. *)

From S2P Require Import Prelude Std Sys Submission Ring Kern Mmap SubQueue CompQueue Rings.

Local Open Scope Z_scope.

Definition demo_geo : Geometry := {|
  g_sq_head := 64; g_sq_tail := 128; g_sq_mask := 1; g_sq_flags := 136; g_sq_dropped := 140;
  g_array := 320; g_sces := 4096;
  g_cq_head := 8192; g_cq_tail := 8256; g_cq_mask := 1; g_cq_overflow := 8264; g_cqes := 8320 |}.

(** Both rings empty, their counters at [c0]. *)
Definition demo_kern (c0 : Z) : Kern := {|
  geo := demo_geo;
  u32s := list_to_map [(64, c0); (128, c0); (136, 0); (140, 0); (144, 1); (148, 2);
                       (320, 0); (324, 1);
                       (8192, c0); (8256, c0); (8264, 0); (8272, 1); (8276, 2)];
  sqes := list_to_map [(4096, zeroed_entry); (4160, zeroed_entry)];
  cqes := ∅; fly := []; klog := []; looks := 0 |}.

Definition demo_sq (c0 : Z) : SubmissionQueue := {|
  sq_mmap := {| mm_addr := 0; mm_len := 328 |};
  sq_k_head := 64; cached_head := c0; sq_k_tail := 128; local_tail := c0; sq_ring_mask := 1;
  k_flags := 136; k_dropped := 140;
  sq_mmap_entries := {| mm_addr := 4096; mm_len := 128 |}; sces := 4096 |}.
Definition demo_cq (c0 : Z) : CompletionQueue := {|
  cq_mmap := {| mm_addr := 8192; mm_len := 160 |};
  cq_k_head := 8192; local_head := c0; cq_k_tail := 8256; cached_tail := c0; cq_ring_mask := 1;
  k_overflow := 8264; k_cqes := 8320 |}.

Lemma demo_geo_wf : geo_wf demo_geo.
Proof.
  assert (∀ i : Z, 0 ≤ i < 2 → i = 0 ∨ i = 1) as Hi by lia.
  constructor.
  - apply (bool_decide_unpack _). by vm_compute.
  - intros i [-> | ->]%Hi; apply (bool_decide_unpack _); by vm_compute.
  - by exists 1.
  - by exists 1.
Qed.

Lemma demo_rep c0 : in_u 32 c0 →
  uring_rep (demo_sq c0) (demo_cq c0) (demo_kern c0) (mkRings [] 0 [] [] [] 0 2).
Proof.
  intros Hc. assert (∀ i : Z, 0 ≤ i < 2 → i = 0 ∨ i = 1) as Hi by lia.
  split; [| |done..].
  - constructor; try done; simpl; try (eexists; reflexivity).
    + apply demo_geo_wf.
    + by intros i [-> | ->]%Hi.
    + intros i [-> | ->]%Hi; eexists; reflexivity.
    + exists c0, c0. rewrite !dist_refl. split_and!; try done. apply ring_rep_nil.
  - constructor; try done; simpl; try (eexists; reflexivity).
    + apply demo_geo_wf.
    + intros h [= <-]. apply dist_refl.
    + exists c0, c0. rewrite !dist_refl. split_and!; try done. apply ring_rep_nil.
Qed.
