(* ===== verification/QueueOps.v ===== *)
(** * The queue operations implement the abstract queues

    For each operation of the two queue types: run on a memory that represents
    abstract queues, with the kernel moving concurrently, it neither panics nor
    leaves the mapped memory, and its result and effect are those of the
    abstract operation. *)

From S2P Require Import Prelude Std Sys Submission Ring Kern Mmap SubQueue CompQueue Rings.

Local Open Scope Z_scope.

Definition full (q : SubmissionQueue) (A : Rings) : Prop :=
  Z.of_nat (length (staged A)) = entries (sq_ring_mask q).

(** By the cached head, which the code consults, there is a free slot. *)
Definition has_room (q : SubmissionQueue) : Prop :=
  dist (cached_head q) (local_tail q) < entries (sq_ring_mask q).

(** The abstract effects of user space. *)
Definition stage (e : SubmissionEntry) (A : Rings) : Rings :=
  mkRings (staged A ++ [e]) (published A) (in_flight A) (completed A) (log A) (held A) (room A).
Definition publish (A : Rings) : Rings :=
  mkRings (staged A) (length (staged A)) (in_flight A) (completed A) (log A) (held A) (room A).
Definition take_completion (A : Rings) : Rings :=
  mkRings (staged A) (published A) (in_flight A) (tail (completed A)) (log A) (S (held A)) (room A).
Lemma took_take A x rest : completed A = x :: rest → took A [x] (take_completion A).
Proof. intros Hx. exists []. simpl. by rewrite Hx, !app_nil_r. Qed.
Definition free_slots (A : Rings) : Rings :=
  mkRings (staged A) (published A) (in_flight A) (completed A) (log A) 0 (room A).

(** ** Loads *)

Lemma uring_rep_looks q c k A n : uring_rep q c k A → uring_rep q c (set_looks n k) A.
Proof.
  intros [Hsq Hcq Hf Hlg]. split; [| |done..].
  - eapply sq_rep_frame; try done; apply Hsq.
  - eapply cq_rep_frame; try done; apply Hcq.
Qed.

Section ops.
Context {P : kevent → Prop} `{!Kernel} `{HK : !KernelDoes P _} `{!Build}.
Implicit Types (q : SubmissionQueue) (c : CompletionQueue) (k : Kern) (A : Rings).

Lemma load_spec q c k A a :
  uring_rep q c k A →
  (∀ k' A', uring_rep q c k' A' → is_Some (u32s k' !! a)) →
  wp (load a) (λ v k', u32s k' !! a = Some v ∧
                       ∃ A', uring_rep q c k' A' ∧ rtc (kacts_in P) A A') k.
Proof.
  intros Hr Ha. unfold wp, load.
  destruct (rtc_kstep_sim _ _ _ _ _ _ Hr (turn_ok (looks k) k)) as (A' & Hr' & Hst).
  apply (uring_rep_looks _ _ _ _ (S (looks k))) in Hr'.
  destruct (Ha _ _ Hr') as [v Hv]. rewrite Hv. eauto.
Qed.

(** What the cells of a represented state hold. *)
Lemma rep_sq_head q c k A : uring_rep q c k A → ∃ h,
  u32s k !! sq_k_head q = Some h ∧ in_u 32 h ∧
  dist h (local_tail q) = Z.of_nat (length (staged A)) ∧
  dist (cached_head q) (local_tail q) =
    dist (cached_head q) h + Z.of_nat (length (staged A)) ∧
  dist (cached_head q) (local_tail q) ≤ entries (sq_ring_mask q).
Proof.
  intros [Hsq _ _ _]. pose proof Hsq as []. destruct sqr_counters as (h & t & Hh & ? & _ & _ & _ & _ & ? & [Hl _]).
  exists h. rewrite sqr_k_head, sqr_mask.
  pose proof (entries_pos _ (geo_sq_mask _ sqr_geo)).
  rewrite (dist_add (cached_head q) h) by lia. split_and!; try done; lia.
Qed.

Lemma set_cached_head_rep q c k A h :
  uring_rep q c k A → u32s k !! sq_k_head q = Some h →
  uring_rep (set_cached_head h q) c k A.
Proof.
  intros [Hsq Hcq Hf Hlg] Hh. split; [|done..]. pose proof Hsq as [].
  rewrite sqr_k_head in Hh.
  destruct sqr_counters as (h' & t & Hh' & Hhu & ? & ? & ? & ? & Hn & ?). simplify_eq.
  constructor; simpl; try done. exists h, t. rewrite dist_refl.
  pose proof (dist_range (cached_head q) h). unfold in_u in *. split_and!; done || lia.
Qed.

Lemma refresh_head_spec q c k A :
  uring_rep q c k A →
  wp refresh_head (λ h s, ∃ A', rtc (kacts_in P) A A' ∧ s.1 = set_cached_head h q ∧
    uring_rep s.1 c s.2 A' ∧ u32s s.2 !! sq_k_head q = Some h ∧ in_u 32 h ∧
    dist h (local_tail q) = Z.of_nat (length (staged A'))) (q, k).
Proof.
  intros Hr. unfold refresh_head, on_shared, on_queue. wp_simp.
  eapply wp_mono; [apply (load_spec q c k A); [done|]|].
  { intros k' A' Hr'. destruct (rep_sq_head _ _ _ _ Hr') as (h & -> & _). eauto. }
  intros h k' [Hh (A' & Hr' & Hst)]. simpl. exists A'.
  destruct (rep_sq_head _ _ _ _ Hr') as (h' & Hh' & ? & ? & _). simplify_eq.
  split_and!; try done. by apply set_cached_head_rep.
Qed.

(** [head] returns a head that is current whenever the ring looks full. *)
Lemma head_spec q c k A :
  uring_rep q c k A →
  wp head (λ h s, ∃ A', rtc (kacts_in P) A A' ∧ s.1 = set_cached_head h q ∧
    uring_rep s.1 c s.2 A' ∧
    (h ≠ local_tail q → slot (sq_ring_mask q) h = slot (sq_ring_mask q) (local_tail q) →
     dist h (local_tail q) = Z.of_nat (length (staged A')))) (q, k).
Proof.
  intros Hr. unfold head.
  assert (Hsame : set_cached_head (cached_head q) q = q) by by destruct q.
  wp_simp. destruct (Z.eqb_spec (cached_head q) (local_tail q)) as [He|He]; simpl; wp_simp.
  { exists A. rewrite Hsame. by split_and!. }
  fold (same_slot (sq_ring_mask q) (cached_head q) (local_tail q)).
  destruct (same_slot _ _ _) eqn:Hss; wp_simp.
  - eapply wp_mono; [by apply refresh_head_spec|]. simpl.
    intros h [q' k'] (A' & Hst & Hq & Hr' & _ & _ & Hd). simpl in *. subst q'. simpl.
    exists A'. done.
  - exists A. rewrite Hsame. split_and!; try done.
    intros _ ?%same_slot_spec. congruence.
Qed.

Lemma is_full_spec q c k A :
  uring_rep q c k A →
  wp is_full (λ b s, ∃ A' h, rtc (kacts_in P) A A' ∧ s.1 = set_cached_head h q ∧
    uring_rep s.1 c s.2 A' ∧
    if b then full q A' else has_room s.1) (q, k).
Proof.
  intros Hr. unfold is_full. wp_simp.
  eapply wp_mono; [by apply head_spec|]. simpl.
  intros h [q' k'] (A' & Hst & Hq & Hr' & Hfresh). simpl in *. subst q'. simpl.
  exists A', h. split_and!; try done.
  destruct (rep_sq_head _ _ _ _ Hr') as (h' & Hh' & Hu & Hlen & Hadd & Hle). simpl in *.
  fold (same_slot (sq_ring_mask q) h (local_tail q)).
  pose proof Hr' as [Hsq _ _ _]. pose proof Hsq as []. simpl in *. rewrite sqr_mask in *.
  pose proof (geo_sq_mask _ sqr_geo) as Hm. pose proof (entries_pos _ Hm).
  pose proof (dist_range h h') as Hdr. unfold in_u in Hdr. unfold full. rewrite sqr_mask.
  destruct (negb _ && _) eqn:Hb.
  - apply andb_true_iff in Hb as [Hne%negb_true_iff%Z.eqb_neq Hs%same_slot_spec].
    specialize (Hfresh Hne Hs). apply slot_full in Hs as [Hs|Hs]; try done; [|lia].
    exfalso. by apply Hne, dist_0.
  - unfold has_room. simpl. rewrite sqr_mask. apply Z.le_neq. split; [lia|]. intros Hd.
    apply andb_false_iff in Hb as [Hb|Hb].
    + apply negb_false_iff, Z.eqb_eq in Hb as ->. rewrite dist_refl in Hd. lia.
    + apply not_true_iff_false in Hb. apply Hb, same_slot_spec, slot_full; try done; lia.
Qed.

(** ** Submission *)

Lemma slot_addr_rep q c k A : uring_rep q c k A →
  slot_addr q (local_tail q) = sqe_addr_of (geo k) (slot (g_sq_mask (geo k)) (local_tail q)).
Proof. intros [[] _ _ _]. unfold slot_addr, sqe_addr_of, slot. congruence. Qed.

Lemma has_room_not_full q c k A :
  uring_rep q c k A → has_room q → Z.of_nat (length (staged A)) < entries (sq_ring_mask q).
Proof.
  intros Hr Hroom. destruct (rep_sq_head _ _ _ _ Hr) as (h & _ & _ & _ & Hadd & _).
  unfold has_room in Hroom. pose proof (dist_range (cached_head q) h) as Hd.
  unfold in_u in Hd. lia.
Qed.

Lemma write_slot_rep q c k A e :
  uring_rep q c k A → has_room q →
  uring_rep q c (set_sqes <[slot_addr q (local_tail q) := e]> k) A.
Proof.
  intros Hr Hroom. pose proof (has_room_not_full _ _ _ _ Hr Hroom) as Hlt.
  rewrite (slot_addr_rep _ _ _ _ Hr). destruct Hr as [Hsq Hcq Hf Hlg].
  split; [|eapply cq_rep_frame; try done; apply Hcq|done..].
  pose proof Hsq as []. rewrite sqr_mask in Hlt.
  constructor; simpl; try done.
  - intros i Hi. destruct (decide (i = slot (g_sq_mask (geo k)) (local_tail q))) as [->|].
    + rewrite lookup_insert_eq. eauto.
    + rewrite lookup_insert_ne by (by intros ?%sqe_addr_inj). auto.
  - destruct sqr_counters as (h & t & ? & ? & ? & ? & ? & ? & ? & Hring).
    exists h, t. split_and!; try done.
    eapply (ring_rep_store (λ s, sqes k !! sqe_addr_of (geo k) s)); try done.
    + apply geo_sq_mask, sqr_geo.
    + intros s Hs. cbv beta. rewrite lookup_insert_ne by (by intros ?%sqe_addr_inj). done.
Qed.

Lemma advance_tail_rep q c k A e :
  uring_rep q c k A → has_room q →
  sqes k !! slot_addr q (local_tail q) = Some e →
  uring_rep (set_local_tail (next_ndx (local_tail q)) q) c k (stage e A).
Proof.
  intros Hr Hroom He. pose proof (has_room_not_full _ _ _ _ Hr Hroom) as Hlt.
  rewrite (slot_addr_rep _ _ _ _ Hr) in He. destruct Hr as [Hsq Hcq Hf Hlg].
  split; [|done..]. pose proof Hsq as []. rewrite sqr_mask in Hlt.
  pose proof (geo_sq_mask _ sqr_geo) as Hm. pose proof (entries_pos _ Hm).
  constructor; simpl; try done; [apply next_ndx_range|].
  destruct sqr_counters as (h & t & ? & Hh & ? & Ht & ? & ? & Hle & Hring).
  pose proof (proj1 Hring) as Hl.
  pose proof (dist_range t (local_tail q)) as Hr1. pose proof (dist_range (cached_head q) h) as Hr2.
  pose proof (dist_range h t) as Hr3. unfold in_u in Hr1, Hr2, Hr3.
  unfold has_room in Hroom. rewrite (dist_add (cached_head q) h), sqr_mask in Hroom by lia.
  exists h, t. rewrite !dist_next_r by lia. split_and!; try done; try lia.
  eapply (ring_rep_push (λ s, sqes k !! sqe_addr_of (geo k) s)); done.
Qed.

Lemma wp_with_entry {X} a (f : M SubmissionEntry X) Q k :
  wp (with_entry a f) Q k ↔
  ∃ e, sqes k !! a = Some e ∧ wp f (λ r e', Q r (set_sqes <[a := e']> k)) e.
Proof.
  unfold wp, with_entry. destruct (sqes k !! a) as [e|]; [|split; [done|by intros (? & ? & _)]].
  split.
  - intros Hw. exists e. split; [done|]. by destruct (f e) as [[] ?].
  - intros (e' & [= <-] & Hw). by destruct (f e) as [[] ?].
Qed.

Lemma wp_log_submit Q e :
  (log_debug = true → ∃ l, SubmissionEntry_fmt e = Done l) → Q tt e → wp log_submit Q e.
Proof.
  intros Hl HQ. unfold log_submit. destruct log_debug; [|done].
  destruct (Hl eq_refl) as [l Hfmt]. wp_simp. unfold id. rewrite Hfmt. eauto.
Qed.

Lemma insert_sqes_twice a e e' k :
  set_sqes <[a := e']> (set_sqes <[a := e]> k) = set_sqes <[a := e']> k.
Proof. unfold set_sqes. simpl. by rewrite insert_insert_eq. Qed.

Lemma submit_with_spec {E} (f : M SubmissionEntry (result unit E))
    (Φ : result unit E → SubmissionEntry → Prop) q c k A :
  uring_rep q c k A →
  (∀ e, wp f Φ (clear e)) →
  (log_debug = true → ∀ e, Φ (Ok tt) e → ∃ l, SubmissionEntry_fmt e = Done l) →
  wp (submit_with f) (λ r s, ∃ A', rtc (kacts_in P) A A' ∧
    match r with
    | Err QueueFull => full q A' ∧ full s.1 A' ∧ uring_rep s.1 c s.2 A'
    | Err (FillError x) => ¬ full q A' ∧ uring_rep s.1 c s.2 A' ∧ ∃ e, Φ (Err x) e
    | Ok _ => ¬ full q A' ∧ ∃ e, Φ (Ok tt) e ∧ uring_rep s.1 c s.2 (stage e A')
    end) (q, k).
Proof.
  intros Hr Hf Hlog. unfold submit_with. wp_simp.
  eapply wp_mono; [by apply is_full_spec|]. simpl.
  intros b [q' k'] (A' & h & Hst & Hq & Hr' & Hb). simpl in *.
  destruct b; wp_simp; [by exists A'; subst q'|].
  unfold on_shared. wp_simp. rewrite wp_with_entry.
  assert (¬ full q A') as Hnf.
  { intros Hfull. apply has_room_not_full with (c := c) (k := k') (A := A') in Hb; [|done].
    subst q'. unfold full in Hfull. simpl in Hb. lia. }
  assert (is_Some (sqes k' !! slot_addr q' (local_tail q'))) as [e He].
  { rewrite (slot_addr_rep _ _ _ _ Hr'). pose proof Hr' as [Hsq _ _ _]. destruct Hsq.
    apply sqr_slots, slot_bounds, geo_sq_mask, sqr_geo. }
  exists e. split; [done|]. wp_simp. eapply wp_mono; [apply Hf|]. simpl.
  intros [[]|x] e' HΦ; wp_simp.
  - rewrite wp_with_entry. exists e'. split; [apply lookup_insert_eq|].
    apply wp_log_submit; [eauto|]. rewrite insert_sqes_twice. wp_simp.
    exists A'. split_and!; try done. exists e'. split; [done|].
    apply (advance_tail_rep q' c _ A' e'); [by apply write_slot_rep|done|].
    apply lookup_insert_eq.
  - exists A'. split_and!; try done; [by apply write_slot_rep|eauto].
Qed.

Lemma flush_tail_spec q c k A :
  uring_rep q c k A →
  wp flush_tail (λ _ s, s.1 = q ∧ uring_rep q c s.2 (publish A)) (q, k).
Proof.
  intros [Hsq Hcq Hf Hlg]. unfold flush_tail, on_shared. wp_simp.
  pose proof Hsq as []. destruct sqr_counters as (h & t & Hh & ? & Ht & ? & ? & ? & ? & Hring).
  unfold wp, store. rewrite sqr_k_tail, Ht. split; [done|]. simpl.
  split; simpl; [| |done..].
  - constructor; simpl; try done.
    + by rewrite lookup_insert_ne by geo_ne.
    + by rewrite lookup_insert_ne by geo_ne.
    + intros i Hi. rewrite lookup_insert_ne by geo_ne. auto.
    + exists h, (local_tail q). rewrite lookup_insert_eq, lookup_insert_ne by geo_ne.
      rewrite dist_refl. destruct Hring as [Hl Hring]. split_and!; try done; lia.
  - eapply cq_rep_store; try done. apply not_cq_cell; geo_ne.
Qed.

Lemma has_pending_submissions_spec q c k A :
  uring_rep q c k A →
  wp has_pending_submissions (λ b s, ∃ A', rtc (kacts_in P) A A' ∧ uring_rep s.1 c s.2 A' ∧
    (b = true ↔ staged A' ≠ [])) (q, k).
Proof.
  intros Hr. unfold has_pending_submissions. wp_simp.
  eapply wp_mono; [by apply refresh_head_spec|]. simpl.
  intros h [q' k'] (A' & Hst & Hq & Hr' & _ & Hu & Hd). simpl in *. exists A'. subst q'. simpl.
  split_and!; try done. pose proof Hr' as [Hsq _ _ _]. pose proof (sqr_lt _ _ _ _ Hsq) as Hlt.
  rewrite negb_true_iff, Z.eqb_neq, <-dist_0, Hd by done.
  destruct (staged A'); simpl; split; try done; lia.
Qed.

(** [pending_submissions] subtracts the current head [h] from the local tail;
    their distance is the number of staged entries. *)
Lemma pending_submissions_run q c k A :
  uring_rep q c k A → ∃ A' h s,
    pending_submissions (q, k) = (sub_u 32 (local_tail q) h, s) ∧
    rtc (kacts_in P) A A' ∧ uring_rep s.1 c s.2 A' ∧ u32s s.2 !! sq_k_head q = Some h ∧
    in_u 32 h ∧ in_u 32 (local_tail q) ∧
    dist h (local_tail q) = Z.of_nat (length (staged A')).
Proof.
  intros Hr. pose proof (refresh_head_spec _ _ _ _ Hr) as Hw.
  apply wp_run in Hw as (h & s & Hrun & A' & Hst & Hq & Hr' & Hhd & Hu & Hd).
  exists A', h, s. split_and!; try done; [|apply Hr].
  unfold pending_submissions. unfold mbind, M_bind. simpl. rewrite Hrun. done.
Qed.

(** ** Completion *)

Lemma rep_cq_tail q c k A : uring_rep q c k A → ∃ t,
  u32s k !! cq_k_tail c = Some t ∧ in_u 32 t ∧
  dist (local_head c) t = Z.of_nat (length (completed A)) ∧
  dist (local_head c) (cached_tail c) ≤ dist (local_head c) t.
Proof.
  intros [_ [] _ _]. destruct cqr_counters as (h & t & _ & _ & ? & ? & _ & _ & ? & [Hl _]).
  exists t. rewrite cqr_k_tail. pose proof (dist_range (cached_tail c) t) as Hd.
  unfold in_u in Hd. split_and!; try done; lia.
Qed.

Lemma set_cached_tail_rep q c k A t :
  uring_rep q c k A → u32s k !! cq_k_tail c = Some t →
  uring_rep q (set_cached_tail t c) k A.
Proof.
  intros [Hsq Hcq Hf Hlg] Ht. split; [done| |done..]. pose proof Hcq as [].
  rewrite cqr_k_tail in Ht.
  destruct cqr_counters as (h & t' & ? & ? & Ht' & ? & ? & ? & ? & ?). simplify_eq.
  constructor; simpl; try done. exists h, t. rewrite dist_refl. split_and!; done || lia.
Qed.

Lemma refresh_tail_spec q c k A :
  uring_rep q c k A →
  wp refresh_tail (λ t s, ∃ A', rtc (kacts_in P) A A' ∧ s.1 = set_cached_tail t c ∧
    uring_rep q s.1 s.2 A' ∧ in_u 32 t ∧
    dist (local_head c) t = Z.of_nat (length (completed A'))) (c, k).
Proof.
  intros Hr. unfold refresh_tail, on_cshared, on_cqueue. wp_simp.
  eapply wp_mono; [apply (load_spec q c k A); [done|]|].
  { intros k' A' Hr'. destruct (rep_cq_tail _ _ _ _ Hr') as (t & -> & _). eauto. }
  intros t k' [Ht (A' & Hr' & Hst)]. simpl. exists A'.
  destruct (rep_cq_tail _ _ _ _ Hr') as (t' & Ht' & ? & ? & _). simplify_eq.
  split_and!; try done. by apply set_cached_tail_rep.
Qed.

Lemma is_empty_spec q c k A :
  uring_rep q c k A →
  wp is_empty (λ b s, ∃ A' t, rtc (kacts_in P) A A' ∧ s.1 = set_cached_tail t c ∧
    uring_rep q s.1 s.2 A' ∧ (b = true ↔ completed A' = []) ∧
    (b = false → cached_tail s.1 ≠ local_head s.1)) (c, k).
Proof.
  intros Hr. unfold is_empty. wp_simp.
  assert (Hsame : set_cached_tail (cached_tail c) c = c) by by destruct c.
  assert (Hlen : ∀ t A', dist (local_head c) t = Z.of_nat (length (completed A')) →
    dist (local_head c) t = 0 ↔ completed A' = []).
  { intros t A' ->. destruct (completed A'); simpl; split; try done; lia. }
  destruct (Z.eqb_spec (cached_tail c) (local_head c)) as [He|He]; wp_simp.
  - eapply wp_mono; [by apply refresh_tail_spec|]. simpl.
    intros t [c' k'] (A' & Hst & Hq & Hr' & Hu & Hd). simpl in *. subst c'. simpl.
    exists A', t. split_and!; try done.
    + rewrite Z.eqb_eq, <-(Hlen _ _ Hd), dist_0; [split; intros Heq; simpl in *; congruence|apply Hr|done].
    + by intros ?%Z.eqb_neq.
  - destruct (rep_cq_tail _ _ _ _ Hr) as (t & Ht & Hu & Hd & Hle).
    exists A, (cached_tail c). rewrite Hsame. split_and!; try done.
    split; [done|]. intros Hnil%(Hlen _ _ Hd). exfalso. apply He. symmetry.
    apply dist_0; [apply Hr|apply Hr|].
    pose proof (dist_range (local_head c) (cached_tail c)) as Hd'. unfold in_u in Hd'. lia.
Qed.

Lemma pop_rep q c k A x rest :
  uring_rep q c k A → completed A = x :: rest → cached_tail c ≠ local_head c →
  cqes k !! cqe_slot_addr c (local_head c) = Some x ∧
  uring_rep q (set_local_head (next_ndx (local_head c)) c) k (take_completion A).
Proof.
  intros [Hsq Hcq Hf Hlg] Hx Hne. pose proof Hcq as [].
  destruct cqr_counters as (h & t & ? & Hh & ? & Ht & Hadd & Hle & Hct & Hring).
  rewrite Hx in Hring. pose proof (proj1 Hring) as Hl. simpl in Hl.
  apply ring_rep_pop in Hring as [Hget Hring]; [|apply geo_cq_mask, cqr_geo].
  split; [unfold cqe_slot_addr; by rewrite cqr_cqes, cqr_mask|].
  pose proof (entries_pos _ (geo_cq_mask _ cqr_geo)).
  pose proof (dist_range h (local_head c)) as Hd.
  pose proof (dist_range (local_head c) (cached_tail c)) as Hd'. unfold in_u in Hd, Hd'.
  assert (0 < dist (local_head c) (cached_tail c)).
  { destruct (decide (dist (local_head c) (cached_tail c) = 0)) as [Hz|]; [|lia].
    exfalso. apply Hne. symmetry. by apply dist_0. }
  split; [done| |done..]. constructor; simpl; try done.
  { intros h' Hh'. pose proof (cqr_held h' Hh') as Hhd. simplify_eq. rewrite dist_next_r by lia. lia. }
  { apply next_ndx_range. }
  exists h, t. rewrite dist_next_r, !dist_next_l by lia.
  unfold take_completion. simpl. rewrite Hx. simpl. split_and!; try done; lia.
Qed.

Lemma next_spec q c k A :
  uring_rep q c k A →
  wp next (λ r s, ∃ A', rtc (kacts_in P) A A' ∧
    match r with
    | None => completed A' = [] ∧ uring_rep q s.1 s.2 A'
    | Some x => ∃ rest, completed A' = x :: rest ∧ uring_rep q s.1 s.2 (take_completion A')
    end) (c, k).
Proof.
  intros Hr. unfold next, read_cqe, on_cqueue. wp_simp.
  eapply wp_mono; [by apply is_empty_spec|]. simpl.
  intros b [c' k'] (A' & t & Hst & Hc & Hr' & Hb & Hne). simpl in *.
  destruct b; wp_simp; [exists A'; split; [done|]; tauto|].
  destruct (completed A') as [|x rest] eqn:Hx; [by destruct Hb as [_ ?]; intuition|].
  destruct (pop_rep _ _ _ _ _ _ Hr' Hx (Hne eq_refl)) as [Hget Hr''].
  exists x. split; [done|]. wp_simp. exists A'. split; [done|]. by exists rest.
Qed.

Lemma flush_head_spec q c k A :
  uring_rep q c k A →
  wp flush_head (λ _ s, s.1 = c ∧ uring_rep q c s.2 (free_slots A)) (c, k).
Proof.
  intros [Hsq Hcq Hf Hlg]. unfold flush_head, on_cshared. wp_simp.
  pose proof Hcq as []. destruct cqr_counters as (h & t & Hh & ? & Ht & ? & ? & ? & ? & Hring).
  unfold wp, store. rewrite cqr_k_head, Hh. split; [done|]. simpl.
  split; simpl; [| |done..].
  - eapply sq_rep_store; try done. apply not_sq_cell; [done|in_counters|geo_ne|geo_ne].
  - pose proof (dist_range h (local_head c)) as Hd. unfold in_u in Hd.
    constructor; simpl; try done.
    + intros h'. rewrite lookup_insert_eq. intros [= <-]. apply dist_refl.
    + by rewrite lookup_insert_ne by geo_ne.
    + exists (local_head c), t. rewrite lookup_insert_eq, lookup_insert_ne by geo_ne.
      rewrite dist_refl. split_and!; try done; lia.
Qed.

(** ** [queue.bulk().submit_with(f)] as one statement *)

Lemma bulk_submit_spec {E} (f : M SubmissionEntry (result unit E))
    (Φ : result unit E → SubmissionEntry → Prop) q c k A :
  uring_rep q c k A →
  (∀ e, wp f Φ (clear e)) →
  (log_debug = true → ∀ e, Φ (Ok tt) e → ∃ l, SubmissionEntry_fmt e = Done l) →
  wp (bulk (submit_with f)) (λ r s, ∃ A', rtc (kacts_in P) A A' ∧
    match r with
    | Err QueueFull => full q A' ∧ full s.1 A' ∧ uring_rep s.1 c s.2 (publish A')
    | Err (FillError x) => ¬ full q A' ∧ uring_rep s.1 c s.2 (publish A') ∧ ∃ e, Φ (Err x) e
    | Ok _ => ¬ full q A' ∧ ∃ e, Φ (Ok tt) e ∧ uring_rep s.1 c s.2 (publish (stage e A'))
    end) (q, k).
Proof.
  intros Hr Hf Hlog. unfold bulk. wp_simp.
  eapply wp_mono; [by apply (submit_with_spec f Φ q c k A)|]. simpl.
  intros r [q' k'] (A' & Hst & Hres). simpl in *.
  destruct r as [[]|[|x]]; simpl in *.
  - destruct Hres as (Hnf & e & HΦ & Hr'). eapply wp_mono; [by apply flush_tail_spec|].
    simpl. intros _ [q2 k2] [-> Hr2]. simpl in *. exists A'. split_and!; try done. by exists e.
  - destruct Hres as (Hf' & Hf2 & Hr'). eapply wp_mono; [by apply flush_tail_spec|].
    simpl. intros _ [q2 k2] [-> Hr2]. simpl in *. by exists A'.
  - destruct Hres as (Hnf & Hr' & ?). eapply wp_mono; [by apply flush_tail_spec|].
    simpl. intros _ [q2 k2] [-> Hr2]. simpl in *. by exists A'.
Qed.

(** A closure that panics: the slot is scribbled on, nothing is staged. *)
Lemma submit_with_panic {E} (f : M SubmissionEntry (result unit E)) w e' q c k A :
  uring_rep q c k A → f zeroed_entry = (Panic w, e') →
  ∃ o s A', submit_with f (q, k) = (o, s) ∧ rtc (kacts_in P) A A' ∧ uring_rep s.1 c s.2 A' ∧
    (o = Done (Err QueueFull) ∧ full q A' ∨ o = Panic w ∧ ¬ full q A').
Proof.
  intros Hr Hf. pose proof (is_full_spec _ _ _ _ Hr) as Hw.
  apply wp_run in Hw as (b & [q' k'] & Hrun & A' & h & Hst & Hq & Hr' & Hb). simpl in *.
  unfold submit_with. unfold mbind at 1, M_bind at 1. rewrite Hrun. destruct b.
  { exists (Done (Err QueueFull)), (q', k'), A'. split_and!; try done. by left. }
  assert (¬ full q A') as Hnf.
  { intros Hfull. apply has_room_not_full with (c := c) (k := k') (A := A') in Hb; [|done].
    subst q'. unfold full in Hfull. simpl in Hb. lia. }
  assert (is_Some (sqes k' !! slot_addr q' (local_tail q'))) as [e He].
  { rewrite (slot_addr_rep _ _ _ _ Hr'). pose proof Hr' as [Hsq _ _ _]. destruct Hsq.
    apply sqr_slots, slot_bounds, geo_sq_mask, sqr_geo. }
  exists (Panic w), (q', set_sqes <[slot_addr q' (local_tail q') := e']> k'), A'.
  split_and!; try done; [|by apply write_slot_rep|by right].
  unfold on_shared, zoom, with_entry, mbind, M_bind, gets, modify. simpl. rewrite He.
  change (clear e) with zeroed_entry. by rewrite Hf.
Qed.
End ops.
