(* ===== verification/Queues.v ===== *)
(** * The rings as a system: user space and the kernel together

    A transition system with the public operations of the two queues and the
    kernel running at any point, and what it guarantees over any number of
    steps: no operation fails, entries reach the kernel in submission order,
    completions reach the client in completion order, each submission completes
    at most once, and the kernel is never shown more than a ring of entries. *)

From S2P Require Import Prelude Std Sys Submission Ring Kern Mmap SubQueue CompQueue Rings.
From S2P Require Import QueueOps Demo.

Local Open Scope Z_scope.

(** A closure for [submit_with] that fills the entry and cannot fail. *)
Definition fill_with (g : SubmissionEntry → SubmissionEntry)
    : M SubmissionEntry (result unit Empty_set) :=
  modify g;; mret (Ok tt).

(** The queue objects, the shared memory, and what the client saw: the entries
    whose submission returned [Ok], the completions [next] returned. *)
Record Sys : Type := mkSys {
  sys_q : SubmissionQueue; sys_c : CompletionQueue; sys_k : Kern;
  sent : list SubmissionEntry; received : list CompletionEntry }.

Definition sent_after {E} (r : result unit (SubmissionError E)) (e : SubmissionEntry)
    (l : list SubmissionEntry) : list SubmissionEntry :=
  match r with Ok _ => (l ++ [e])%list | Err _ => l end.
Definition received_after (r : option CompletionEntry) (l : list CompletionEntry) :=
  match r with Some x => (l ++ [x])%list | None => l end.

(** The client's view and the kernel's log agree with the abstract queues. *)
Record books (A : Rings) (snt : list SubmissionEntry) (rcv : list CompletionEntry) : Prop := {
  bk_sent : snt = (takes (log A) ++ staged A)%list;
  bk_received : posts (log A) = (rcv ++ completed A)%list;
  bk_once : (sqe_user_data <$> takes (log A)) ≡ₚ
    ((sqe_user_data <$> in_flight A) ++ (cqe_user_data <$> posts (log A))
      ++ (sqe_user_data <$> losses (log A)))%list;
  bk_published : (published A ≤ length (staged A))%nat }.

Lemma takes_app l l' : takes (l ++ l') = (takes l ++ takes l')%list.
Proof. apply omap_app. Qed.
Lemma losses_app l l' : losses (l ++ l') = (losses l ++ losses l')%list.
Proof. apply omap_app. Qed.

Lemma books_kact A ev A' snt rcv : kact A ev A' → books A snt rcv → books A' snt rcv.
Proof.
  intros Ha [Hs Hr Ho Hp].
  destruct Ha; simpl in *; constructor; simpl; rewrite ?takes_app, ?posts_app, ?losses_app;
    csimpl; rewrite ?app_nil_r; try done; try lia.
  - by rewrite <-app_assoc.
  - rewrite !fmap_app, Ho. csimpl. solve_Permutation.
  - by rewrite Hr, app_assoc.
  - rewrite Ho, !fmap_app. csimpl. solve_Permutation.
  - rewrite Ho, !fmap_app. csimpl. solve_Permutation.
Qed.
Lemma books_kacts A A' snt rcv : rtc kacts A A' → books A snt rcv → books A' snt rcv.
Proof. induction 1 as [|? ? ? (ev & _ & _ & Ha) _ IH]; [done|]. intros. by eapply IH, books_kact. Qed.

Lemma books_stage A snt rcv e : books A snt rcv → books (stage e A) (snt ++ [e]) rcv.
Proof.
  intros [-> Hr Ho Hp]. constructor; simpl; try done; [by rewrite app_assoc|].
  rewrite length_app. lia.
Qed.
Lemma books_publish A snt rcv : books A snt rcv → books (publish A) snt rcv.
Proof. intros []. by constructor. Qed.
Lemma books_release A snt rcv : books A snt rcv → books (free_slots A) snt rcv.
Proof. intros []. by constructor. Qed.
Lemma books_take A snt rcv x rest :
  books A snt rcv → completed A = x :: rest → books (take_completion A) snt (rcv ++ [x]).
Proof.
  intros [Hs Hr Ho Hp] Hx. constructor; simpl; try done.
  by rewrite Hr, Hx, <-app_assoc.
Qed.

Section system.
Context `{!Kernel} `{!Build}.

Inductive sys_step : Sys → Sys → Prop :=
| sys_submit g q c k snt rcv r s' :
    submit_with (fill_with g) (q, k) = (Done r, s') →
    sys_step (mkSys q c k snt rcv)
             (mkSys s'.1 c s'.2 (sent_after r (g zeroed_entry) snt) rcv)
| sys_flush q c k snt rcv s' :
    flush_tail (q, k) = (Done tt, s') →
    sys_step (mkSys q c k snt rcv) (mkSys s'.1 c s'.2 snt rcv)
| sys_is_full q c k snt rcv b s' :
    is_full (q, k) = (Done b, s') →
    sys_step (mkSys q c k snt rcv) (mkSys s'.1 c s'.2 snt rcv)
| sys_has_pending q c k snt rcv b s' :
    has_pending_submissions (q, k) = (Done b, s') →
    sys_step (mkSys q c k snt rcv) (mkSys s'.1 c s'.2 snt rcv)
| sys_next q c k snt rcv r s' :
    next (c, k) = (Done r, s') →
    sys_step (mkSys q c k snt rcv) (mkSys q s'.1 s'.2 snt (received_after r rcv))
| sys_release q c k snt rcv s' :
    flush_head (c, k) = (Done tt, s') →
    sys_step (mkSys q c k snt rcv) (mkSys q s'.1 s'.2 snt rcv)
| sys_turn n q c k snt rcv :
    sys_step (mkSys q c k snt rcv) (mkSys q c (turn n k) snt rcv).

(** The same, run: a failing operation stops the run. *)
Inductive op : Type :=
| OpSubmit (g : SubmissionEntry → SubmissionEntry) | OpFlush | OpNext | OpRelease | OpTurn.

Definition run_op (o : op) (s : Sys) : option Sys :=
  let '(mkSys q c k snt rcv) := s in
  match o with
  | OpSubmit g =>
      match submit_with (fill_with g) (q, k) with
      | (Done r, s') => Some (mkSys s'.1 c s'.2 (sent_after r (g zeroed_entry) snt) rcv)
      | _ => None
      end
  | OpFlush =>
      match flush_tail (q, k) with
      | (Done _, s') => Some (mkSys s'.1 c s'.2 snt rcv) | _ => None end
  | OpNext =>
      match next (c, k) with
      | (Done r, s') => Some (mkSys q s'.1 s'.2 snt (received_after r rcv)) | _ => None end
  | OpRelease =>
      match flush_head (c, k) with
      | (Done _, s') => Some (mkSys q s'.1 s'.2 snt rcv) | _ => None end
  | OpTurn => Some (mkSys q c (turn 0 k) snt rcv)
  end.
Fixpoint run (os : list op) (s : Sys) : option Sys :=
  match os with [] => Some s | o :: os => run_op o s ≫= run os end.

Lemma run_op_sound o s s' : run_op o s = Some s' → sys_step s s'.
Proof.
  destruct s as [q c k snt rcv]. destruct o; simpl; repeat case_match; intros; simplify_eq;
    repeat match goal with u : () |- _ => destruct u end; by econstructor.
Qed.
Lemma run_sound os s s' : run os s = Some s' → rtc sys_step s s'.
Proof.
  revert s. induction os as [|o os IH]; intros s; csimpl; [by intros [= ->]|].
  destruct (run_op o s) as [s1|] eqn:Ho; csimpl; [|done]. intros Hrun.
  eapply rtc_l; [by eapply run_op_sound|by apply IH].
Qed.

(** Freshly mapped rings, both empty, the kernel idle so far. *)
Definition fresh (s : Sys) : Prop :=
  (∃ lg rm, uring_rep (sys_q s) (sys_c s) (sys_k s) (mkRings [] 0 [] [] lg 0 rm) ∧
            Forall (λ ev, ev = Idle) lg) ∧
  sent s = [] ∧ received s = [].

(** The abstract queues at a state, with the books. *)
Definition sys_at (s : Sys) (A : Rings) : Prop :=
  uring_rep (sys_q s) (sys_c s) (sys_k s) A ∧ books A (sent s) (received s).
Definition sys_inv (s : Sys) : Prop := ∃ A, sys_at s A.

Lemma fresh_books lg rm : Forall (λ ev, ev = Idle) lg → books (mkRings [] 0 [] [] lg 0 rm) [] [].
Proof.
  intros Hlg. assert (takes lg = [] ∧ posts lg = [] ∧ losses lg = []) as (Ht & Hp & Hl)
    by (by induction Hlg as [|ev lg -> _ IH]).
  constructor; simpl; rewrite ?Ht, ?Hp, ?Hl; done.
Qed.
Lemma fresh_inv s : fresh s → sys_inv s.
Proof.
  intros ((lg & rm & Hr & Hlg) & Hs & Hrc). eexists. split; [done|]. rewrite Hs, Hrc. by apply fresh_books.
Qed.

Context `{!KernelOk _}.

(** Reads a postcondition off a run. *)
Lemma wp_of_run {S X} (m : M S X) Q s a s' : wp m Q s → m s = (Done a, s') → Q a s'.
Proof. unfold wp. intros Hw Hrun. by rewrite Hrun in Hw. Qed.

Lemma zeroed_fill g (e : SubmissionEntry) :
  wp (fill_with g) (λ r e', r = Ok tt ∧ e' = g zeroed_entry) (clear e).
Proof. done. Qed.

Lemma submit_fill_spec g q c k A : log_debug = false → uring_rep q c k A →
  wp (submit_with (fill_with g)) (λ r s, ∃ A', rtc kacts A A' ∧
    match r with
    | Ok _ => ¬ full q A' ∧ uring_rep s.1 c s.2 (stage (g zeroed_entry) A')
    | Err _ => full q A' ∧ uring_rep s.1 c s.2 A'
    end) (q, k).
Proof.
  intros Hlog Hr. eapply wp_mono.
  - apply (submit_with_spec (fill_with g) _ q c k A Hr (zeroed_fill g)). congruence.
  - intros [[]|[|[]]] s (A' & Hacts & Hres); exists A'; split; try done.
    + by destruct Hres as (? & e & [_ ->] & ?).
    + by destruct Hres as (? & _ & ?).
Qed.

(** What a step leaves behind: the log only grows, and nothing is lost as long
    as the completions there may be fit into their slots. *)
Definition succeeds (A A' : Rings) : Prop :=
  log A `prefix_of` log A' ∧ (Z.of_nat (in_use A) ≤ room A → lost_ops A' = lost_ops A).
Lemma succeeds_refl A A' : log A' = log A → succeeds A A'.
Proof. intros Hl. unfold succeeds, lost_ops. by rewrite Hl. Qed.
Lemma succeeds_kacts A A' A2 : rtc kacts A A' → log A2 = log A' → succeeds A A2.
Proof.
  intros Hk Hl. unfold succeeds. rewrite Hl. split.
  - clear Hl. induction Hk as [|? ? ? (ev & _ & _ & Ha) _ IH]; [done|]. etrans; [|exact IH]. by destruct Ha; eexists.
  - intros Hu. destruct (kacts_kept _ _ Hk Hu) as (_ & _ & <-). unfold lost_ops. by rewrite Hl.
Qed.

Lemma sys_step_sim (Hlog : log_debug = false) s s' A : sys_step s s' → sys_at s A →
  ∃ A', sys_at s' A' ∧ succeeds A A'.
Proof.
  intros Hst [Hr Hb].
  destruct Hst as [g q c k snt rcv r s' Hrun|q c k snt rcv s' Hrun|q c k snt rcv b s' Hrun
    |q c k snt rcv b s' Hrun|q c k snt rcv r s' Hrun|q c k snt rcv s' Hrun|n q c k snt rcv];
    unfold sys_at in *; simpl in *.
  - pose proof (wp_of_run _ _ _ _ _ (submit_fill_spec g q c k A Hlog Hr) Hrun) as (A' & Hacts & Hres).
    pose proof (books_kacts _ _ _ _ Hacts Hb). destruct r as [[]|[|[]]]; simpl in *.
    + exists (stage (g zeroed_entry) A'). split; [|by eapply succeeds_kacts].
      split; [apply Hres|]. by apply books_stage.
    + exists A'. split; [tauto|]. by eapply succeeds_kacts.
  - pose proof (wp_of_run _ _ _ _ _ (flush_tail_spec q c k A Hr) Hrun) as [-> Hr'].
    exists (publish A). split; [|by apply succeeds_refl]. split; [done|]. by apply books_publish.
  - pose proof (wp_of_run _ _ _ _ _ (is_full_spec q c k A Hr) Hrun) as (A' & h & Hacts & _ & Hr' & _).
    exists A'. split; [|by eapply succeeds_kacts]. split; [done|]. by eapply books_kacts.
  - pose proof (wp_of_run _ _ _ _ _ (has_pending_submissions_spec q c k A Hr) Hrun) as (A' & Hacts & Hr' & _).
    exists A'. split; [|by eapply succeeds_kacts]. split; [done|]. by eapply books_kacts.
  - pose proof (wp_of_run _ _ _ _ _ (next_spec q c k A Hr) Hrun) as (A' & Hacts & Hres).
    pose proof (books_kacts _ _ _ _ Hacts Hb). destruct r as [x|]; simpl in *.
    + destruct Hres as (rest & Hx & Hr'). exists (take_completion A'). split; [|by eapply succeeds_kacts].
      split; [done|]. by eapply books_take.
    + exists A'. split; [tauto|]. by eapply succeeds_kacts.
  - pose proof (wp_of_run _ _ _ _ _ (flush_head_spec q c k A Hr) Hrun) as [-> Hr'].
    exists (free_slots A). split; [|by apply succeeds_refl]. split; [done|]. by apply books_release.
  - destruct (rtc_kstep_sim _ _ _ _ _ _ Hr (turn_ok n k)) as (A' & Hr' & Hacts).
    exists A'. split; [|by eapply succeeds_kacts]. split; [done|]. by eapply books_kacts.
Qed.
Lemma sys_steps_sim (Hlog : log_debug = false) s s' A : rtc sys_step s s' → sys_at s A →
  ∃ A', sys_at s' A' ∧ log A `prefix_of` log A'.
Proof.
  intros Hst. revert A. induction Hst as [|s s1 s2 H1 _ IH]; intros A Hat; [by exists A|].
  destruct (sys_step_sim Hlog _ _ _ H1 Hat) as (A1 & Hat1 & Hp & _).
  destruct (IH _ Hat1) as (A2 & Hat2 & Hp2). exists A2. split; [done|]. by etrans.
Qed.
Lemma sys_step_inv (Hlog : log_debug = false) s s' : sys_step s s' → sys_inv s → sys_inv s'.
Proof. intros Hst (A & Hat). destruct (sys_step_sim Hlog _ _ _ Hst Hat) as (A' & ? & _). by exists A'. Qed.
Lemma sys_steps_inv (Hlog : log_debug = false) s s' :
  rtc sys_step s s' → sys_inv s → sys_inv s'.
Proof. intros Hst (A & Hat). destruct (sys_steps_sim Hlog _ _ _ Hst Hat) as (A' & ? & _). by exists A'. Qed.

Lemma staged_bound q c k A : uring_rep q c k A →
  Z.of_nat (length (staged A)) ≤ entries (sq_ring_mask q).
Proof.
  intros Hr. destruct (rep_sq_head _ _ _ _ Hr) as (h & _ & _ & _ & Hadd & Hle).
  pose proof (dist_range (cached_head q) h) as Hd. unfold in_u in Hd. lia.
Qed.

Lemma books_fifo q c k A snt rcv : uring_rep q c k A → books A snt rcv →
  takes (log A) `prefix_of` snt ∧ rcv `prefix_of` posts (log A) ∧
  (cqe_user_data <$> rcv) ⊆+ (sqe_user_data <$> snt) ∧
  Z.of_nat (length snt) - Z.of_nat (length (takes (log A))) ≤ entries (sq_ring_mask q).
Proof.
  intros Hr [Hs Hp Ho _]. split_and!.
  - rewrite Hs. by eexists.
  - rewrite Hp. by eexists.
  - rewrite Hs, fmap_app, Ho, Hp, fmap_app. apply submseteq_inserts_r, submseteq_inserts_l.
    rewrite <-app_assoc. by apply submseteq_inserts_r.
  - rewrite Hs, length_app. pose proof (staged_bound _ _ _ _ Hr). lia.
Qed.

(** C5: over any interleaving of the queue operations with the kernel,
    entries are taken over in the order they were submitted (what the kernel
    took is a prefix of what was sent), completions are delivered in the
    order they were posted, every delivered completion carries the
    [user_data] of a submission, each submission at most once, and never more
    than a ring of submitted entries is waiting for the kernel. *)
Theorem rings_fifo_exactly_once s0 s (Hlog : log_debug = false) (Hinit : fresh s0)
    (Hst : rtc sys_step s0 s) :
  takes (klog (sys_k s)) `prefix_of` sent s ∧
  received s `prefix_of` posts (klog (sys_k s)) ∧
  (cqe_user_data <$> received s) ⊆+ (sqe_user_data <$> sent s) ∧
  Z.of_nat (length (sent s)) - Z.of_nat (length (takes (klog (sys_k s))))
    ≤ entries (sq_ring_mask (sys_q s)).
Proof.
  apply fresh_inv, (sys_steps_inv Hlog _ _ Hst) in Hinit as (A & Hr & Hb).
  rewrite (ur_log _ _ _ _ Hr). by eapply books_fifo.
Qed.

(** Reading a counter of the rings. *)
Lemma load_returns q c k A a : uring_rep q c k A →
  (∀ k' A', uring_rep q c k' A' → is_Some (u32s k' !! a)) → ∃ v k', load a k = (Done v, k').
Proof.
  intros Hr Ha. pose proof (load_spec q c k A a Hr Ha) as Hw. apply wp_run in Hw as (v & k' & Hrun & _). eauto.
Qed.

(** C8: in every reachable state every operation of the two queues ends
    normally, in builds with debug logging off (with it, the log line of a
    submitted [poll_add] is undefined behaviour, [Debug_undefined_iff_poll_add]):
    no access leaves the mapped rings, nothing panics, but for one case.  A
    submission is refused exactly when the ring is full of entries the kernel has
    not taken.  [pending_submissions] returns the number of those entries, except
    in a build with overflow checks while the tail counter has wrapped around and
    the kernel's head has not: then it panics. *)
Theorem rings_never_fail s0 s g (Hlog : log_debug = false) (Hinit : fresh s0)
    (Hst : rtc sys_step s0 s) :
  let q := (sys_q s, sys_k s) in let c := (sys_c s, sys_k s) in
  (∃ r q', submit_with (fill_with g) q = (Done r, q') ∧
     (r = Err QueueFull ↔
      Z.of_nat (length (sent s)) - Z.of_nat (length (takes (klog q'.2)))
        = entries (sq_ring_mask (sys_q s)))) ∧
  (∃ q', flush_tail q = (Done tt, q')) ∧
  (∃ b q', is_full q = (Done b, q')) ∧
  (∃ b q', has_pending_submissions q = (Done b, q')) ∧
  (∃ o q' h, pending_submissions q = (o, q') ∧ u32s q'.2 !! sq_k_head (sys_q s) = Some h ∧
     o = if overflow_checks && (local_tail (sys_q s) <? h) then Panic "attempt to subtract with overflow"
         else Done (Z.of_nat (length (sent s)) - Z.of_nat (length (takes (klog q'.2))))) ∧
  ((∃ v q', flags q = (Done v, q')) ∧ (∃ v q', dropped q = (Done v, q'))) ∧
  (∃ r c', next c = (Done r, c')) ∧
  (∃ c', flush_head c = (Done tt, c')) ∧
  (∃ b c', is_empty c = (Done b, c')) ∧ (∃ v c', overflow c = (Done v, c')).
Proof.
  apply fresh_inv, (sys_steps_inv Hlog _ _ Hst) in Hinit as (A & Hr & Hb). simpl.
  split_and!.
  - pose proof (submit_fill_spec g _ _ _ _ Hlog Hr) as Hw.
    apply wp_run in Hw as (r & s' & Hrun & A' & Hacts & Hres).
    exists r, s'. split; [done|].
    assert (Hsent : sent s = (takes (log A') ++ staged A')%list)
      by apply (books_kacts _ _ _ _ Hacts Hb).
    unfold full in Hres. rewrite Hsent, length_app.
    destruct r as [[]|[|[]]]; simpl in *.
    + destruct Hres as (Hnf & Hr'). rewrite (ur_log _ _ _ _ Hr'). simpl.
      split; [done|lia].
    + destruct Hres as (Hf & Hr'). rewrite (ur_log _ _ _ _ Hr'). split; [lia|done].
  - apply flush_tail_spec, wp_run in Hr as ([] & s' & ? & _). eauto.
  - apply is_full_spec, wp_run in Hr as (? & s' & ? & _). eauto.
  - apply has_pending_submissions_spec, wp_run in Hr as (? & s' & ? & _). eauto.
  - destruct (pending_submissions_run _ _ _ _ Hr) as (A' & h & s' & Hrun & Hacts & Hr' & Hh & Hu & Hlt & Hd).
    exists (sub_u 32 (local_tail (sys_q s)) h), s', h. split_and!; [done..|].
    assert (sent s = (takes (log A') ++ staged A')%list) as Hsent by apply (books_kacts _ _ _ _ Hacts Hb).
    rewrite (ur_log _ _ _ _ Hr'), Hsent, length_app, Nat2Z.inj_add, Z.add_simpl_l, <-Hd. unfold sub_u.
    destruct (Z.leb_spec h (local_tail (sys_q s))) as [Hle|Hgt].
    + rewrite (proj2 (Z.ltb_ge _ _)) by done. by rewrite andb_false_r, dist_sub by done.
    + rewrite (proj2 (Z.ltb_lt _ _)), andb_true_r by done. by destruct overflow_checks.
  - destruct (load_returns _ _ _ _ (k_flags (sys_q s)) Hr) as (v & k' & Hrun).
    { intros k' A' [Hq _ _ _]. rewrite (sqr_k_flags _ _ _ _ Hq). apply Hq. }
    unfold flags, on_shared, zoom, mbind, M_bind, gets. simpl. rewrite Hrun. eauto.
  - destruct (load_returns _ _ _ _ (k_dropped (sys_q s)) Hr) as (v & k' & Hrun).
    { intros k' A' [Hq _ _ _]. rewrite (sqr_k_dropped _ _ _ _ Hq). apply Hq. }
    unfold dropped, on_shared, zoom, mbind, M_bind, gets. simpl. rewrite Hrun. eauto.
  - apply next_spec, wp_run in Hr as (? & s' & ? & _). eauto.
  - apply flush_head_spec, wp_run in Hr as ([] & s' & ? & _). eauto.
  - apply is_empty_spec, wp_run in Hr as (? & s' & ? & _). eauto.
  - destruct (load_returns _ _ _ _ (k_overflow (sys_c s)) Hr) as (v & k' & Hrun).
    { intros k' A' [_ Hc _ _]. rewrite (cqr_k_overflow _ _ _ _ _ Hc). apply Hc. }
    unfold overflow, on_cshared, zoom, mbind, M_bind, gets. simpl. rewrite Hrun. eauto.
Qed.

(** ** Completions that find no slot *)

(** The completion slots that are in use or will be: a slot for each submission
    whose completion was not received, and those of completions that were, until
    the iterator that read them is dropped. *)
Definition slots_taken (s : Sys) : Z :=
  Z.of_nat (length (sent s)) - Z.of_nat (length (received s)) +
  match u32s (sys_k s) !! cq_k_head (sys_c s) with
  | Some h => dist h (local_head (sys_c s))
  | None => 0
  end.
Definition careful_step (s s' : Sys) : Prop :=
  sys_step s s' ∧ slots_taken s' ≤ entries (cq_ring_mask (sys_c s')).

Fixpoint run_careful (os : list op) (s : Sys) : option Sys :=
  match os with
  | [] => Some s
  | o :: os => s ← run_op o s;
      if slots_taken s <=? entries (cq_ring_mask (sys_c s)) then run_careful os s else None
  end.
Lemma run_careful_sound os s s' : run_careful os s = Some s' → rtc careful_step s s' ∧ rtc sys_step s s'.
Proof.
  revert s. induction os as [|o os IH]; intros s; csimpl; [by intros [= ->]|].
  destruct (run_op o s) as [s1|] eqn:Ho; csimpl; [|done]. apply run_op_sound in Ho.
  destruct (Z.leb_spec (slots_taken s1) (entries (cq_ring_mask (sys_c s1)))); [|done].
  intros [Hc Hr]%IH. split; by eapply rtc_l.
Qed.

Lemma sys_at_once s A : sys_at s A → (sqe_user_data <$> takes (klog (sys_k s))) ≡ₚ
  ((sqe_user_data <$> fly (sys_k s)) ++ (cqe_user_data <$> posts (klog (sys_k s)))
    ++ (sqe_user_data <$> losses (klog (sys_k s))))%list.
Proof. intros [Hr Hb]. rewrite (ur_log _ _ _ _ Hr), (ur_fly _ _ _ _ Hr). apply Hb. Qed.

(** While nothing was lost, that is what the abstract queues have in use. *)
Lemma sys_at_slots s A : sys_at s A → lost_ops A = [] → slots_taken s = Z.of_nat (in_use A) ∧
  entries (cq_ring_mask (sys_c s)) = room A.
Proof.
  intros [Hr Hb] Hl. pose proof (ur_cq _ _ _ _ Hr) as Hc. pose proof Hb as [Hs Hp Ho _].
  unfold lost_ops in Hl. rewrite Hl, app_nil_r in Ho. apply Permutation_length in Ho.
  rewrite length_app, !length_fmap, Hp, length_app in Ho.
  rewrite (cqr_mask _ _ _ _ _ Hc), (cqr_room _ _ _ _ _ Hc). split; [|done]. unfold slots_taken, in_use, pending_ops.
  destruct (cqr_counters _ _ _ _ _ Hc) as (h & t & Hh & _). rewrite (cqr_k_head _ _ _ _ _ Hc), Hh.
  rewrite (cqr_held _ _ _ _ _ Hc h Hh), Hs, !length_app, !length_fmap. lia.
Qed.
Lemma careful_sim (Hlog : log_debug = false) s s' A : rtc careful_step s s' → sys_at s A →
  lost_ops A = [] → Z.of_nat (in_use A) ≤ room A → ∃ A', sys_at s' A' ∧ lost_ops A' = [].
Proof.
  intros Hst. revert A. induction Hst as [|s s1 s2 [H1 Hfit] _ IH]; intros A Hat Hl Hu; [by exists A|].
  destruct (sys_step_sim Hlog _ _ _ H1 Hat) as (A1 & Hat1 & _ & Hl1). rewrite Hl in Hl1.
  specialize (Hl1 Hu). destruct (sys_at_slots _ _ Hat1 Hl1) as [He Hm]. apply (IH A1); [done..|].
  by rewrite <-He, <-Hm.
Qed.

(** C10: completions are lost only on overrun, and then for good.  As long as
    there is a completion slot for every submission whose completion was not
    received and given back, every request the kernel took is in its hands or was
    completed into the ring.  Nothing in the code keeps to that, though: what the
    kernel had no slot for is not received at any later time. *)
Theorem completions_lost_only_on_overrun s0 s (Hlog : log_debug = false) (Hinit : fresh s0)
    (Hst : rtc sys_step s0 s) :
  (rtc careful_step s0 s → losses (klog (sys_k s)) = [] ∧
     (sqe_user_data <$> takes (klog (sys_k s))) ≡ₚ
     ((sqe_user_data <$> fly (sys_k s)) ++ (cqe_user_data <$> posts (klog (sys_k s))))%list) ∧
  (∀ e s', e ∈ losses (klog (sys_k s)) → rtc sys_step s s' → NoDup (sqe_user_data <$> sent s') →
     sqe_user_data e ∉ (cqe_user_data <$> received s')).
Proof.
  pose proof (fresh_inv _ Hinit) as (A0 & Hat0). split.
  - intros Hc. destruct Hinit as ((lg & rm & Hr & Hlg) & Hs & Hrc).
    assert (sys_at s0 (mkRings [] 0 [] [] lg 0 rm)) as Hat.
    { split; [done|]. rewrite Hs, Hrc. by apply fresh_books. }
    destruct (careful_sim Hlog _ _ _ Hc Hat) as (A & HatA & Hl).
    + unfold lost_ops. simpl. clear Hr Hat. by induction Hlg as [|ev lg -> _ IH].
    + pose proof (ur_cq _ _ _ _ Hr) as Hcq. pose proof (entries_pos _ (geo_cq_mask _ (cqr_geo _ _ _ _ _ Hcq))).
      pose proof (cqr_room _ _ _ _ _ Hcq). simpl in *. unfold in_use. simpl. lia.
    + pose proof (sys_at_once _ _ HatA) as Ho. unfold lost_ops in Hl.
      assert (losses (klog (sys_k s)) = []) as Hnil.
      { rewrite (ur_log _ _ _ _ (proj1 HatA)). by apply fmap_nil_inv in Hl. }
      split; [done|]. by rewrite Hnil, app_nil_r in Ho.
  - intros e s' He Hst' Hnd Hin. destruct (sys_steps_sim Hlog _ _ _ Hst Hat0) as (A & HatA & _).
    destruct (sys_steps_sim Hlog _ _ _ Hst' HatA) as (A' & [Hr' Hb'] & lg & Hlg).
    rewrite (ur_log _ _ _ _ (proj1 HatA)) in He. destruct Hb' as [Hs' Hp' Ho' _].
    assert (e ∈ losses (log A')) as He' by (rewrite Hlg, losses_app; set_solver).
    rewrite Hs', fmap_app, Ho', Hp', fmap_app in Hnd.
    apply list.NoDup_app in Hnd as (Hnd & _). apply list.NoDup_app in Hnd as (_ & _ & Hnd).
    apply list.NoDup_app in Hnd as (_ & Hno & _). eapply (Hno (sqe_user_data e)).
    + apply elem_of_app. by left.
    + apply list_elem_of_fmap. by exists e.
Qed.

(** C31: a closure that returns an error or panics submits nothing: the error
    is passed on as [FillError] (the panic unwinds), what was staged before is
    still published by the dropped [BulkSubmission], and the slot the closure
    scribbled on is not part of it. *)
Theorem failing_closure_submits_nothing {E} (f : M SubmissionEntry (result unit E)) o e' q c k A
    (Hr : uring_rep q c k A) (Hf : f zeroed_entry = (o, e'))
    (Hfail : match o with Done (Err _) | Panic _ => True | _ => False end) :
  ∃ o' s A', bulk (submit_with f) (q, k) = (o', s) ∧ rtc kacts A A' ∧
    uring_rep s.1 c s.2 (publish A') ∧
    (full q A' ∧ o' = Done (Err QueueFull) ∨
     ¬ full q A' ∧ match o with
                   | Done (Err x) => o' = Done (Err (FillError x))
                   | Panic w => o' = Panic w
                   | _ => False
                   end).
Proof.
  destruct o as [[|x]|w|?|?]; try done.
  - pose proof (bulk_submit_spec f (λ r _, r = Err x) q c k A Hr) as Hw.
    apply wp_run in Hw as (r & s & Hrun & A' & Hst & Hres).
    + exists (Done r), s, A'. split_and!; try done; destruct r as [[]|[|y]]; try tauto.
      * by destruct Hres as (_ & ? & ? & _).
      * by destruct Hres as (_ & ? & ? & _).
      * destruct Hres as (? & _ & ? & [= ->]). by right.
    + intros e. unfold wp. change (clear e) with zeroed_entry. by rewrite Hf.
    + done.
  - destruct (submit_with_panic f w e' q c k A Hr Hf) as (o' & [q' k'] & A' & Hrun & Hst & Hr' & Ho).
    pose proof (flush_tail_spec _ _ _ _ Hr') as Hw.
    apply wp_run in Hw as ([] & [q2 k2] & Hfl & [Hq Hr2]). simpl in *. subst q2.
    exists o', (q', k2), A'. unfold bulk, with_drop. rewrite Hrun.
    destruct Ho as [[-> ?]|[-> ?]]; unfold mbind, M_bind; rewrite Hfl;
      split_and!; try done; tauto.
Qed.

(** C32: [pending_submissions] counts the entries the kernel has not taken
    when subtraction wraps, as in a release build; with overflow checks it
    does so only while the tail counter is not below the kernel's head, and
    panics once the tail has wrapped around past it. *)
Theorem pending_submissions_counts q c k A (Hr : uring_rep q c k A) :
  ∃ A' h s o, pending_submissions (q, k) = (o, s) ∧ rtc kacts A A' ∧ uring_rep s.1 c s.2 A' ∧
    u32s s.2 !! sq_k_head q = Some h ∧
    (overflow_checks = false ∨ h ≤ local_tail q → o = Done (Z.of_nat (length (staged A')))) ∧
    (overflow_checks = true → local_tail q < h →
      o = Panic "attempt to subtract with overflow").
Proof.
  destruct (pending_submissions_run _ _ _ _ Hr)
    as (A' & h & s & Hrun & Hst & Hr' & Hhd & Hu & Hlt & Hd).
  exists A', h, s, (sub_u 32 (local_tail q) h). split_and!; try done.
  - unfold sub_u. intros Hor. destruct (Z.leb_spec h (local_tail q)) as [Hle|Hgt].
    + by rewrite <-Hd, dist_sub.
    + destruct Hor as [->|?]; [|lia]. by rewrite <-Hd.
  - unfold sub_u. intros -> Hgt. by rewrite (proj2 (Z.leb_gt _ _)).
Qed.
End system.

(** ** The theorems at work *)

Definition demo_sys (c0 : Z) : Sys := mkSys (demo_sq c0) (demo_cq c0) (demo_kern c0) [] [].
Lemma demo_fresh c0 : in_u 32 c0 → fresh (demo_sys c0).
Proof. intros. split; [exists [], 2; split; [by apply demo_rep|done]|done]. Qed.

Definition nop_with (u : Z) (e : SubmissionEntry) : SubmissionEntry := set_user_data u e.
(** Three submissions to a ring of two across the counters' wrap-around, with
    a kernel that takes and completes, and the completions read back. *)
Definition demo_ops : list op :=
  [OpSubmit (nop_with 8); OpSubmit (nop_with 16); OpSubmit (nop_with 24); OpFlush;
   OpNext; OpNext; OpSubmit (nop_with 24); OpFlush; OpNext; OpRelease; OpNext].
Definition demo_run : option Sys := @run eager release_build demo_ops (demo_sys (2 ^ 32 - 1)).

Example demo_run_received :
  (λ s, (sqe_user_data <$> sent s, cqe_user_data <$> received s)) <$> demo_run
  = Some ([8; 16; 24], [8; 16; 24]).
Proof. vm_compute. reflexivity. Qed.

Definition demo_end : Sys := default (demo_sys 0) demo_run.
Lemma demo_steps :
  rtc (@sys_step eager release_build) (demo_sys (2 ^ 32 - 1)) demo_end.
Proof. apply (run_sound demo_ops). vm_compute. reflexivity. Qed.

Lemma rings_fifo_exactly_once_witness :
  received demo_end `prefix_of` posts (klog (sys_k demo_end)) ∧
  length (received demo_end) = 3%nat.
Proof.
  split; [|vm_compute; reflexivity].
  apply (@rings_fifo_exactly_once eager release_build eager_ok (demo_sys (2 ^ 32 - 1)) demo_end).
  - reflexivity.
  - apply demo_fresh. unfold in_u. lia.
  - apply demo_steps.
Defined.

(** Four submissions over the same rings, one or two at a time. *)
Definition demo_careful : list op :=
  [OpSubmit (nop_with 8); OpSubmit (nop_with 16); OpFlush; OpTurn; OpTurn; OpNext; OpNext; OpRelease;
   OpSubmit (nop_with 24); OpSubmit (nop_with 32); OpFlush; OpTurn; OpTurn; OpNext; OpNext].
Definition demo_careful_run : option Sys :=
  @run_careful eager release_build demo_careful (demo_sys (2 ^ 32 - 1)).
Lemma completions_lost_only_on_overrun_witness :
  match demo_careful_run with
  | Some s => length (received s) = 4%nat ∧ losses (klog (sys_k s)) = []
  | None => False
  end.
Proof.
  destruct demo_careful_run as [s|] eqn:Hrun; [|by vm_compute in Hrun].
  destruct (run_careful_sound _ _ _ Hrun) as [Hc Hst]. split.
  - vm_compute in Hrun. injection Hrun as <-. reflexivity.
  - apply (@completions_lost_only_on_overrun eager release_build eager_ok (demo_sys (2 ^ 32 - 1)) s eq_refl).
    + apply demo_fresh. unfold in_u. lia.
    + exact Hst.
    + exact Hc.
Defined.

Lemma rings_never_fail_witness :
  ∃ r c', @next eager (sys_c demo_end, sys_k demo_end) = (Done r, c').
Proof.
  pose proof (@rings_never_fail eager release_build eager_ok (demo_sys (2 ^ 32 - 1)) demo_end
    (nop_with 8) eq_refl) as Hw.
  apply Hw; [apply demo_fresh; unfold in_u; lia|apply demo_steps].
Defined.

Lemma failing_closure_submits_nothing_witness :
  ∃ o' s A', bulk (@submit_with eager release_build Empty_set (λ e, (Panic "closure", e)))
      (demo_sq 7, demo_kern 7) = (o', s) ∧
    uring_rep s.1 (demo_cq 7) s.2 (publish A').
Proof.
  destruct (@failing_closure_submits_nothing eager release_build eager_ok Empty_set
    (λ e, (Panic "closure", e)) (Panic "closure") zeroed_entry (demo_sq 7) (demo_cq 7) (demo_kern 7)
    (mkRings [] 0 [] [] [] 0 2)) as (o' & s & A' & Hrun & _ & Hr & _).
  - apply demo_rep. unfold in_u. lia.
  - reflexivity.
  - exact I.
  - exists o', s, A'. split; [exact Hrun|exact Hr].
Defined.

Lemma pending_submissions_counts_witness :
  ∃ A' h s o, @pending_submissions quiet debug_build (demo_sq 7, demo_kern 7) = (o, s) ∧
    u32s s.2 !! 64 = Some h ∧ (h ≤ 7 → o = Done (Z.of_nat (length (staged A')))).
Proof.
  destruct (@pending_submissions_counts quiet debug_build quiet_ok (demo_sq 7) (demo_cq 7)
    (demo_kern 7) (mkRings [] 0 [] [] [] 0 2)) as (A' & h & s & o & Hrun & _ & _ & Hh & Hle & _).
  - apply demo_rep. unfold in_u. lia.
  - exists A', h, s, o. split; [exact Hrun|]. split; [exact Hh|]. intros ?. apply Hle. by right.
Defined.

(** With overflow checks the panic is reached by ordinary use: on a ring
    whose counters have come up to [2^32 - 1], one submission wraps the tail
    to 0, and asking for the number of pending submissions panics, though
    one entry is pending. *)
Theorem pending_submissions_panics_at_wrap :
  ∃ s, rtc (@sys_step quiet debug_build) (demo_sys (2 ^ 32 - 1)) s ∧
    length (sent s) = 1%nat ∧ takes (klog (sys_k s)) = [] ∧
    (@pending_submissions quiet debug_build (sys_q s, sys_k s)).1
      = Panic "attempt to subtract with overflow" ∧
    (@pending_submissions quiet release_build (sys_q s, sys_k s)).1 = Done 1.
Proof.
  destruct (@run quiet debug_build [OpSubmit (nop_with 8); OpFlush] (demo_sys (2 ^ 32 - 1)))
    as [s|] eqn:Hrun; [|by vm_compute in Hrun].
  exists s. split; [by eapply run_sound|]. vm_compute in Hrun. injection Hrun as <-.
  repeat split; vm_compute; reflexivity.
Qed.
