(* ===== verification/RingsTso.v ===== *)
(** * The rings on x86: store buffers on both sides

    [Queues] takes every access to the shared memory as seen by both sides at
    once.  Here each side, the crates and the kernel, has the store buffer of an
    x86 processor: what it stores waits there, in order, before it reaches the
    common memory; what it loads comes from its own buffer first.  The Release
    stores of the counters are plain stores there, the Acquire loads plain
    loads.  Both sides may decide on what the other is long past. *)

From S2P Require Import Prelude Std Sys Submission Ring Kern Mmap SubQueue CompQueue Rings.
From S2P Require Import QueueOps Demo Queues.

Local Open Scope Z_scope.

(** ** Stores that wait *)

(** Of user space: a submission entry, a counter. *)
Inductive uwrite : Type :=
| UEntry (a : Z) (e : SubmissionEntry)
| UCount (a v : Z).
Definition apply_u (k : Kern) (w : uwrite) : Kern :=
  match w with
  | UEntry a e => set_sqes <[a := e]> k
  | UCount a v => set_u32s <[a := v]> k
  end.

(** Of the kernel: a completion entry, a counter; with the last store of a step
    goes, for the record, what the step was and what it leaves in flight. *)
Inductive kwrite : Type :=
| KEntry (a : Z) (x : CompletionEntry)
| KCount (a v : Z)
| KStep (a v : Z) (ev : kevent) (fl : list SubmissionEntry).
Definition apply_k (k : Kern) (w : kwrite) : Kern :=
  match w with
  | KEntry a x => set_cqes <[a := x]> k
  | KCount a v => set_u32s <[a := v]> k
  | KStep a v ev fl => log_event ev (set_fly fl (set_u32s <[a := v]> k))
  end.

Definition drain_u (ws : list uwrite) (k : Kern) : Kern := foldl apply_u k ws.
Definition drain_k (ws : list kwrite) (k : Kern) : Kern := foldl apply_k k ws.

(** ** The kernel's steps, store by store *)

Inductive kplan (k : Kern) : list kwrite → Prop :=
| plan_take h t i e :
    u32s k !! g_sq_head (geo k) = Some h → u32s k !! g_sq_tail (geo k) = Some t → h ≠ t →
    u32s k !! array_addr_of (geo k) (slot (g_sq_mask (geo k)) h) = Some i →
    0 ≤ i < entries (g_sq_mask (geo k)) → sqes k !! sqe_addr_of (geo k) i = Some e →
    kplan k [KStep (g_sq_head (geo k)) (next_ndx h) (Take e) (fly k ++ [e])]
| plan_discard h t i d :
    u32s k !! g_sq_head (geo k) = Some h → u32s k !! g_sq_tail (geo k) = Some t → h ≠ t →
    u32s k !! array_addr_of (geo k) (slot (g_sq_mask (geo k)) h) = Some i →
    ¬ (0 ≤ i < entries (g_sq_mask (geo k))) → u32s k !! g_sq_dropped (geo k) = Some d →
    kplan k [KCount (g_sq_head (geo k)) (next_ndx h);
             KStep (g_sq_dropped (geo k)) (next_ndx d) Discard (fly k)]
| plan_post h t e l1 l2 res flags :
    fly k = (l1 ++ e :: l2)%list →
    u32s k !! g_cq_head (geo k) = Some h → u32s k !! g_cq_tail (geo k) = Some t →
    dist h t < entries (g_cq_mask (geo k)) →
    kplan k [KEntry (cqe_addr_of (geo k) (slot (g_cq_mask (geo k)) t)) (completion_of e res flags);
             KStep (g_cq_tail (geo k)) (next_ndx t) (Post (completion_of e res flags)) (l1 ++ l2)]
| plan_lose h t o e l1 l2 :
    fly k = (l1 ++ e :: l2)%list →
    u32s k !! g_cq_head (geo k) = Some h → u32s k !! g_cq_tail (geo k) = Some t →
    dist h t = entries (g_cq_mask (geo k)) → u32s k !! g_cq_overflow (geo k) = Some o →
    kplan k [KStep (g_cq_overflow (geo k)) (next_ndx o) (Lose e) (l1 ++ l2)]
| plan_idle fl : kplan k [KStep (g_sq_flags (geo k)) fl Idle (fly k)].

(** They are the steps of [Kern], nothing else. *)
Lemma kplan_kstep k ws : kplan k ws → ∃ ev, kstep k ev (drain_k ws k).
Proof.
  destruct 1 as [h t i e|h t i d|h t e l1 l2 res fl|h t o e l1 l2|fl].
  - exists (Take e). by apply kstep_do, (kdo_consume k h t i e).
  - exists Discard. apply (kstep_do k Discard (set_u32s (λ m, <[g_sq_dropped (geo k) := next_ndx d]>
      (<[g_sq_head (geo k) := next_ndx h]> m)) k)). by eapply kdo_drop.
  - exists (Post (completion_of e res fl)). by apply kstep_do, (kdo_complete k h t e l1 l2 res fl).
  - exists (Lose e). by apply kstep_do, (kdo_overflow k h t o e l1 l2).
  - exists Idle. by apply (kstep_do k Idle (set_u32s <[g_sq_flags (geo k) := fl]> k)), kdo_flags.
Qed.
Lemma kstep_kplan k ev k' : kstep k ev k' → ∃ ws, kplan k ws ∧ k' = drain_k ws k.
Proof.
  destruct 1 as [ev k' Hdo]. destruct Hdo; eexists; (split; [by econstructor|]); by destruct k.
Qed.

(** ** The machine *)

(** The queue objects, the common memory, what waits, what the client saw. *)
Record X86 : Type := mkX86 {
  t_q : SubmissionQueue; t_c : CompletionQueue; t_mem : Kern;
  t_ub : list uwrite; t_kb : list kwrite;
  t_sent : list SubmissionEntry; t_received : list CompletionEntry }.
(** The memory as either side sees it. *)
Definition user_view (s : X86) : Kern := drain_u (t_ub s) (t_mem s).
Definition kernel_view (s : X86) : Kern := drain_k (t_kb s) (t_mem s).

(** What [submit_with] stores. *)
Definition entry_writes {E} (q : SubmissionQueue) (r : result unit (SubmissionError E))
    (e : SubmissionEntry) : list uwrite :=
  match r with Ok _ => [UEntry (slot_addr q (local_tail q)) e] | Err _ => [] end.

Section tso.
Context `{!Build}.

(** The operations of the two queues run on the user's view, the kernel at rest:
    each loads at most one counter, before it stores. *)
Inductive x86_step : X86 → X86 → Prop :=
| x86_submit g q c m ub kb snt rcv r s' :
    submit_with (fill_with g) (q, drain_u ub m) = (Done r, s') →
    x86_step (mkX86 q c m ub kb snt rcv)
      (mkX86 s'.1 c m (ub ++ entry_writes q r (g zeroed_entry)) kb (sent_after r (g zeroed_entry) snt) rcv)
| x86_flush q c m ub kb snt rcv s' :
    flush_tail (q, drain_u ub m) = (Done tt, s') →
    x86_step (mkX86 q c m ub kb snt rcv)
      (mkX86 s'.1 c m (ub ++ [UCount (sq_k_tail q) (local_tail q)]) kb snt rcv)
| x86_has_pending q c m ub kb snt rcv b s' :
    has_pending_submissions (q, drain_u ub m) = (Done b, s') →
    x86_step (mkX86 q c m ub kb snt rcv) (mkX86 s'.1 c m ub kb snt rcv)
| x86_next q c m ub kb snt rcv r s' :
    next (c, drain_u ub m) = (Done r, s') →
    x86_step (mkX86 q c m ub kb snt rcv) (mkX86 q s'.1 m ub kb snt (received_after r rcv))
| x86_release q c m ub kb snt rcv s' :
    flush_head (c, drain_u ub m) = (Done tt, s') →
    x86_step (mkX86 q c m ub kb snt rcv)
      (mkX86 q s'.1 m (ub ++ [UCount (cq_k_head c) (local_head c)]) kb snt rcv)
(* the kernel decides on what it sees *)
| x86_kernel q c m ub kb snt rcv ws :
    kplan (drain_k kb m) ws →
    x86_step (mkX86 q c m ub kb snt rcv) (mkX86 q c m ub (kb ++ ws) snt rcv)
(* stores reach the memory *)
| x86_commit_user q c m w ub kb snt rcv :
    x86_step (mkX86 q c m (w :: ub) kb snt rcv) (mkX86 q c (apply_u m w) ub kb snt rcv)
| x86_commit_kernel q c m ub w kb snt rcv :
    x86_step (mkX86 q c m ub (w :: kb) snt rcv) (mkX86 q c (apply_k m w) ub kb snt rcv).
End tso.

(** ** What a waiting store relies on when it arrives

    [lt] is the producer's [local_tail] as of the stores that arrived. *)

Inductive uarr (k : Kern) (lt : Z) : uwrite → Z → Prop :=
| ua_entry h e :
    u32s k !! g_sq_head (geo k) = Some h → dist h lt < entries (g_sq_mask (geo k)) →
    uarr k lt (UEntry (sqe_addr_of (geo k) (slot (g_sq_mask (geo k)) lt)) e) (next_ndx lt)
| ua_tail : uarr k lt (UCount (g_sq_tail (geo k)) lt) lt
| ua_head h t v :
    u32s k !! g_cq_head (geo k) = Some h → u32s k !! g_cq_tail (geo k) = Some t →
    in_u 32 v → dist h v + dist v t = dist h t → uarr k lt (UCount (g_cq_head (geo k)) v) lt.

Inductive karr (k : Kern) : kwrite → Prop :=
| ka_entry h t x :
    u32s k !! g_cq_head (geo k) = Some h → u32s k !! g_cq_tail (geo k) = Some t →
    dist h t < entries (g_cq_mask (geo k)) →
    karr k (KEntry (cqe_addr_of (geo k) (slot (g_cq_mask (geo k)) t)) x)
| ka_take h t i e :
    u32s k !! g_sq_head (geo k) = Some h → u32s k !! g_sq_tail (geo k) = Some t → h ≠ t →
    u32s k !! array_addr_of (geo k) (slot (g_sq_mask (geo k)) h) = Some i →
    0 ≤ i < entries (g_sq_mask (geo k)) → sqes k !! sqe_addr_of (geo k) i = Some e →
    karr k (KStep (g_sq_head (geo k)) (next_ndx h) (Take e) (fly k ++ [e]))
| ka_post h t e l1 l2 res flags :
    fly k = (l1 ++ e :: l2)%list →
    u32s k !! g_cq_head (geo k) = Some h → u32s k !! g_cq_tail (geo k) = Some t →
    dist h t < entries (g_cq_mask (geo k)) →
    cqes k !! cqe_addr_of (geo k) (slot (g_cq_mask (geo k)) t) = Some (completion_of e res flags) →
    karr k (KStep (g_cq_tail (geo k)) (next_ndx t) (Post (completion_of e res flags)) (l1 ++ l2))
| ka_lose o e l1 l2 :
    fly k = (l1 ++ e :: l2)%list → u32s k !! g_cq_overflow (geo k) = Some o →
    karr k (KStep (g_cq_overflow (geo k)) (next_ndx o) (Lose e) (l1 ++ l2))
| ka_idle fl : karr k (KStep (g_sq_flags (geo k)) fl Idle (fly k)).

Fixpoint uchain (k : Kern) (lt : Z) (ws : list uwrite) (lt' : Z) : Prop :=
  match ws with
  | [] => lt = lt'
  | w :: ws => ∃ lt1, uarr k lt w lt1 ∧ uchain (apply_u k w) lt1 ws lt'
  end.
Fixpoint kchain (k : Kern) (ws : list kwrite) : Prop :=
  match ws with [] => True | w :: ws => karr k w ∧ kchain (apply_k k w) ws end.

(** What holds of the common memory. *)
Record view_ok (lt : Z) (k : Kern) : Prop := {
  vo_geo : geo_wf (geo k);
  vo_array : ∀ i, 0 ≤ i < entries (g_sq_mask (geo k)) → u32s k !! array_addr_of (geo k) i = Some i;
  vo_sq : ∃ h t, u32s k !! g_sq_head (geo k) = Some h ∧ u32s k !! g_sq_tail (geo k) = Some t ∧
    in_u 32 h ∧ in_u 32 t ∧ in_u 32 lt ∧
    dist h t + dist t lt = dist h lt ∧ dist h lt ≤ entries (g_sq_mask (geo k));
  vo_cq : ∃ h t, u32s k !! g_cq_head (geo k) = Some h ∧ u32s k !! g_cq_tail (geo k) = Some t ∧
    in_u 32 h ∧ in_u 32 t ∧ dist h t ≤ entries (g_cq_mask (geo k)) }.

(** The rule for the store at hand, at the view at hand. *)
Ltac arrive :=
  lazymatch goal with
  | |- karr ?k (KEntry _ _) => eapply (ka_entry k)
  | H : sqes _ !! sqe_addr_of _ ?i = Some ?e |- karr ?k (KStep _ _ (Take ?e) _) => eapply (ka_take k _ _ i e)
  | |- karr ?k (KStep _ _ (Post _) _) => eapply (ka_post k)
  | |- karr ?k (KStep _ _ (Lose _) _) => eapply (ka_lose k)
  | |- karr ?k (KStep _ _ Idle _) => apply (ka_idle k)
  | |- uarr ?k ?lt (UEntry _ _) _ => eapply (ua_entry k lt)
  | |- uarr ?k ?lt (UCount (g_sq_tail _) _) _ => apply (ua_tail k lt)
  | |- uarr ?k ?lt (UCount (g_cq_head _) _) _ => eapply (ua_head k lt)
  end; simpl; mem_simp.
(** The value of a cell read twice. *)
Ltac same x y := assert (x = y) as -> by congruence.
(** Reads the counters off a view. *)
Ltac open_view Hv :=
  destruct Hv as [Hg Harr (sh & st & Hsh & Hst & Hshu & Hstu & Hltu & Hsadd & Hsle)
    (ch & ct & Hch & Hct & Hchu & Hctu & Hcle)];
  pose proof (entries_pos _ (geo_sq_mask _ Hg)); pose proof (entries_pos _ (geo_cq_mask _ Hg)).

Lemma uarr_view k lt w lt' : view_ok lt k → uarr k lt w lt' → view_ok lt' (apply_u k w).
Proof.
  intros Hv Ha. pose proof Hv as Hv'. open_view Hv'.
  destruct Ha as [h e Hh Hd| |h t v Hh Ht Hvu Hadd]; [same h sh| |same h ch; same t ct];
    constructor; simpl; try done.
  - exists sh, st. rewrite !dist_next_r by (pose proof (dist_range sh st); unfold in_u in *; lia).
    split_and!; try done; [apply next_ndx_range|lia|lia].
  - by exists ch, ct.
  - intros i Hi. mem_simp. auto.
  - exists sh, lt. mem_simp. rewrite dist_refl. split_and!; done || lia.
  - exists ch, ct. mem_simp. done.
  - intros i Hi. mem_simp. auto.
  - exists sh, st. mem_simp. done.
  - exists v, ct. mem_simp. pose proof (dist_range ch v). unfold in_u in *. split_and!; done || lia.
Qed.
Lemma karr_view k lt w : view_ok lt k → karr k w → view_ok lt (apply_k k w).
Proof.
  intros Hv Ha. pose proof Hv as Hv'. open_view Hv'.
  destruct Ha as [h t x Hh Ht Hd|h t i e Hh Ht Hne Hi Hib He|h t e l1 l2 res fl Hf Hh Ht Hd Hx
    |o e l1 l2 Hf Ho|fl]; [same h ch; same t ct|same h sh; same t st|same h ch; same t ct| |];
    constructor; simpl; try done.
  all: try (intros j Hj; mem_simp; by auto).
  all: try (by exists sh, st; mem_simp). all: try (by exists ch, ct; mem_simp).
  - exists (next_ndx sh), st. mem_simp.
    pose proof (dist_0 sh st Hshu Hstu). pose proof (dist_range sh st) as Hr1.
    pose proof (dist_range st lt) as Hr2. unfold in_u in Hr1, Hr2.
    rewrite !dist_next_l by lia. split_and!; try done; [apply next_ndx_range|lia|lia].
  - exists ch, (next_ndx ct). mem_simp. rewrite dist_next_r by lia.
    split_and!; try done; [apply next_ndx_range|lia].
Qed.

(** Stores of the two sides do not meet. *)
Lemma stores_commute k lt lt' w v : view_ok lt k → uarr k lt w lt' → karr k v →
  apply_k (apply_u k w) v = apply_u (apply_k k v) w.
Proof.
  intros [Hg _ _ _] Hu Hk.
  destruct Hu; destruct Hk; simpl; unfold set_u32s, set_sqes, set_cqes, set_fly, log_event; simpl;
    try done; rewrite insert_insert_ne by geo_ne; done.
Qed.

Lemma slot_not_taken k lt h t : view_ok lt k → u32s k !! g_sq_head (geo k) = Some h →
  u32s k !! g_sq_tail (geo k) = Some t → h ≠ t → dist h lt < entries (g_sq_mask (geo k)) →
  slot (g_sq_mask (geo k)) lt ≠ slot (g_sq_mask (geo k)) h ∧ h ≠ lt.
Proof.
  intros Hv Hh Ht Hne Hd. open_view Hv. same h sh. same t st.
  pose proof (dist_0 sh st Hshu Hstu). pose proof (dist_0 sh lt Hshu Hltu).
  pose proof (dist_range sh st) as Hr1. pose proof (dist_range st lt) as Hr2. unfold in_u in Hr1, Hr2.
  assert (0 < dist sh lt) by lia. split; [|intros ->; rewrite dist_refl in *; lia].
  intros He. symmetry in He. apply slot_full in He; [lia|by apply geo_sq_mask|lia].
Qed.

(** A store of either side does not invalidate one of the other's. *)
Lemma karr_after_uarr k lt lt' w v : view_ok lt k → uarr k lt w lt' → karr k v → karr (apply_u k w) v.
Proof.
  intros Hv Hu Hk. pose proof Hv as Hv'. open_view Hv'.
  destruct Hk as [h t x Hh Ht Hd|h t i e Hh Ht Hne Hi Hib He|h t e l1 l2 res fl Hf Hh Ht Hd Hx
    |o e l1 l2 Hf Ho|fl]; [same h ch; same t ct|same h sh; same t st|same h ch; same t ct| |];
    (destruct Hu as [h0 e0 Hh0 Hd0| |h0 t0 v0 Hh0 Ht0 Hvu Hadd];
     [same h0 sh| |same h0 ch; same t0 ct; pose proof (dist_range ch v0) as Hr; unfold in_u in Hr]);
    arrive; try done; try lia.
  - rewrite lookup_insert_ne; [done|]. intros Heq%sqe_addr_inj.
    destruct (slot_not_taken k lt sh st Hv Hsh Hst Hne Hd0) as [Hs _].
    rewrite Harr in Hi by (by apply slot_bounds, geo_sq_mask). injection Hi as <-. done.
  - pose proof (dist_0 sh st Hshu Hstu). pose proof (dist_range sh st) as Hr1.
    pose proof (dist_range st lt) as Hr2. unfold in_u in Hr1, Hr2.
    intros ->. rewrite dist_refl in Hsadd. lia.
  - rewrite lookup_insert_ne; [done|]. apply not_eq_sym, array_not_counter; [done| |in_counters].
    by apply slot_bounds, geo_sq_mask.
  - rewrite lookup_insert_ne; [done|]. apply not_eq_sym, array_not_counter; [done| |in_counters].
    by apply slot_bounds, geo_sq_mask.
Qed.
Lemma uarr_after_karr k lt lt' w v : view_ok lt k → uarr k lt w lt' → karr k v →
  uarr (apply_k k v) lt w lt'.
Proof.
  intros Hv Hu Hk. pose proof Hv as Hv'. open_view Hv'.
  destruct Hk as [h t x Hh Ht Hd|h t i e Hh Ht Hne Hi Hib He|h t e l1 l2 res fl Hf Hh Ht Hd Hx
    |o e l1 l2 Hf Ho|fl]; [same h ch; same t ct|same h sh; same t st|same h ch; same t ct| |];
    (destruct Hu as [h0 e0 Hh0 Hd0| |h0 t0 v0 Hh0 Ht0 Hvu Hadd];
     [same h0 sh| |same h0 ch; same t0 ct; pose proof (dist_range ch v0) as Hr; unfold in_u in Hr]);
    arrive; try done.
  - destruct (slot_not_taken k lt sh st Hv Hsh Hst Hne Hd0) as [_ Hnl].
    pose proof (dist_0 sh lt Hshu Hltu). pose proof (dist_range sh lt) as Hr. unfold in_u in Hr.
    rewrite dist_next_l; lia.
  - pose proof (dist_range v0 ct) as Hr2. unfold in_u in Hr2. rewrite !dist_next_r by lia. lia.
Qed.

(** ** The buffers *)

Lemma uchain_view ws : ∀ k lt lt', view_ok lt k → uchain k lt ws lt' → view_ok lt' (drain_u ws k).
Proof.
  induction ws as [|w ws IH]; intros k lt lt' Hv; simpl; [by intros ->|].
  intros (lt1 & Hu & Hc). eapply IH; [by eapply uarr_view|done].
Qed.
Lemma kchain_view ws : ∀ k lt, view_ok lt k → kchain k ws → view_ok lt (drain_k ws k).
Proof.
  induction ws as [|v ws IH]; intros k lt Hv; simpl; [done|].
  intros [Hk Hc]. apply IH; [by apply karr_view|done].
Qed.
Lemma uchain_app ws ws' : ∀ k lt lt1 lt2, uchain k lt ws lt1 → uchain (drain_u ws k) lt1 ws' lt2 →
  uchain k lt (ws ++ ws') lt2.
Proof.
  induction ws as [|w ws IH]; intros k lt lt1 lt2; simpl; [by intros ->|].
  intros (lt0 & Hu & Hc) Hc'. exists lt0. split; [done|]. by eapply IH.
Qed.
Lemma kchain_app ws ws' : ∀ k, kchain k ws → kchain (drain_k ws k) ws' → kchain k (ws ++ ws').
Proof.
  induction ws as [|w ws IH]; intros k; simpl; [done|]. intros [Hk Hc] Hc'. split; [done|]. by apply IH.
Qed.

(** What waits on one side stays good when the other side's stores arrive. *)
Lemma kchain_uarr ws : ∀ k lt lt' w, view_ok lt k → uarr k lt w lt' → kchain k ws → kchain (apply_u k w) ws.
Proof.
  induction ws as [|v ws IH]; intros k lt lt' w Hv Hu; simpl; [done|]. intros [Hk Hc].
  split; [by eapply karr_after_uarr|]. rewrite (stores_commute k lt lt') by done.
  eapply IH; [by apply karr_view|by apply uarr_after_karr|done].
Qed.
Lemma kchain_uchain us ws : ∀ k lt lt', view_ok lt k → uchain k lt us lt' → kchain k ws →
  kchain (drain_u us k) ws.
Proof.
  induction us as [|u us IH]; intros k lt lt' Hv; simpl; [done|]. intros (lt1 & Hu & Hc) Hk.
  eapply IH; [by eapply uarr_view|done|by eapply kchain_uarr].
Qed.
Lemma uchain_karr ws : ∀ k lt lt' v, view_ok lt k → karr k v → uchain k lt ws lt' →
  uchain (apply_k k v) lt ws lt' ∧ karr (drain_u ws k) v ∧
  apply_k (drain_u ws k) v = drain_u ws (apply_k k v).
Proof.
  induction ws as [|w ws IH]; intros k lt lt' v Hv Hk; simpl; [done|]. intros (lt1 & Hu & Hc).
  destruct (IH (apply_u k w) lt1 lt' v) as (Hc' & Hk' & Heq);
    [by eapply uarr_view|by eapply karr_after_uarr|done|].
  rewrite (stores_commute k lt lt1) in Hc', Heq by done. split_and!; [|done|done].
  exists lt1. split; [by apply uarr_after_karr|done].
Qed.

(** What the kernel decides on its view is good when it arrives. *)
Lemma kplan_chain k lt ws : view_ok lt k → kplan k ws → kchain k ws.
Proof.
  intros Hv Hp. pose proof Hv as Hv'. open_view Hv'.
  destruct Hp as [h t i e Hh Ht Hne Hi Hib He|h t i d Hh Ht Hne Hi Hib Hd|h t e l1 l2 res fl Hf Hh Ht Hlt
    |h t o e l1 l2 Hf Hh Ht Hlt Ho|fl]; simpl; (split; [|try done]).
  - by apply (ka_take k h t i e).
  - rewrite Harr in Hi by (by apply slot_bounds, geo_sq_mask). injection Hi as <-.
    destruct Hib. by apply slot_bounds, geo_sq_mask.
  - rewrite Harr in Hi by (by apply slot_bounds, geo_sq_mask). injection Hi as <-.
    destruct Hib. by apply slot_bounds, geo_sq_mask.
  - by apply (ka_entry k h t).
  - split; [|done]. apply (ka_post (set_cqes <[_ := _]> k) h t e l1 l2); simpl; try done.
    apply lookup_insert_eq.
  - by apply (ka_lose k o e).
  - apply ka_idle.
Qed.

(** ** What user space sees *)

(** A step of the kernel.  One that sees the head of the completion queue late
    may lose a completion although a slot was given back. *)
Definition kact_late (A A' : Rings) : Prop := ∃ ev, kact A ev A'.
Lemma books_late A A' snt rcv : rtc kact_late A A' → books A snt rcv → books A' snt rcv.
Proof. induction 1 as [|? ? ? (ev & Ha) _ IH]; [done|]. intros. by eapply IH, books_kact. Qed.

Lemma karr_rep q c k A w : uring_rep q c k A → karr k w →
  ∃ A', uring_rep q c (apply_k k w) A' ∧ rtc kact_late A A'.
Proof.
  intros Hr Hk.
  assert (∀ ev k', kdo k ev k' → ∃ A', uring_rep q c (log_event ev k') A' ∧ rtc kact_late A A') as Hdo.
  { intros ev k' Hd. destruct (kstep_sim q c k A ev _ Hr (kstep_do _ _ _ Hd)) as (A' & Hr' & _ & Ha).
    exists A'. split; [done|]. apply rtc_once. by exists ev. }
  destruct Hk as [h t x Hh Ht Hd|h t i e Hh Ht Hne Hi Hib He|h t e l1 l2 res fl Hf Hh Ht Hd Hx
    |o e l1 l2 Hf Ho|fl].
  - exists A. split; [|done]. destruct Hr as [Hsq Hcq Hfly Hlog]. split; [eapply sq_rep_frame; try done; apply Hsq| |done..].
    pose proof Hcq as [Hg]. destruct cqr_counters as (h' & t' & Hh' & Hhu & Ht' & Htu & Hadd & Hle & Hct & Hring).
    same h h'. same t t'. constructor; simpl; try done. exists h', t'. split_and!; try done.
    pose proof (dist_range h' (local_head c)) as Hr. unfold in_u in Hr. pose proof (proj1 Hring).
    eapply (ring_rep_store (λ s, cqes k !! cqe_addr_of (geo k) s)); try done; [by apply geo_cq_mask|lia|].
    intros s Hs. rewrite lookup_insert_ne; [done|]. by intros ?%cqe_addr_inj.
  - by apply Hdo, (kdo_consume k h t i e).
  - destruct (Hdo (Post (completion_of e res fl)) _ (kdo_complete k h t e l1 l2 res fl Hf Hh Ht Hd)) as (A' & Hr' & Ha).
    exists A'. split; [|done]. revert Hr'. unfold set_cqes, set_u32s, set_fly, log_event. simpl.
    by rewrite (insert_id (cqes k)) by done.
  - destruct Hr as [Hsq Hcq Hfly Hlog]. pose proof (sqr_geo _ _ _ _ Hsq) as Hgw.
    destruct A as [st pub fl cp lg hd rm]. simpl in *. rewrite Hf in Hfly. subst fl. eexists. split;
      [|apply rtc_once; exists (Lose e); apply kact_lose]. split; simpl; [| |done|by rewrite Hlog].
    + eapply sq_rep_store; try done. apply not_sq_cell; [done|in_counters|geo_ne|geo_ne].
    + eapply cq_rep_store; try done. apply not_cq_cell; geo_ne.
  - destruct (Hdo Idle _ (kdo_flags k fl)) as (A' & Hr' & Ha). exists A'. split; [|done]. by destruct k.
Qed.
Lemma kchain_rep q c ws : ∀ k A, uring_rep q c k A → kchain k ws →
  ∃ A', uring_rep q c (drain_k ws k) A' ∧ rtc kact_late A A'.
Proof.
  induction ws as [|w ws IH]; intros k A Hr; simpl; [by exists A|]. intros [Hk Hc].
  destruct (karr_rep q c k A w Hr Hk) as (A1 & Hr1 & Ha1). destruct (IH _ _ Hr1 Hc) as (A2 & Hr2 & Ha2).
  exists A2. split; [done|]. by etrans.
Qed.

(** ** The operations' stores are those that wait *)

Section effects.
Context `{!Build}.

Lemma refresh_head_effect q k h s' : refresh_head (q, k) = (Done h, s') →
  ∃ n, s' = (set_cached_head h q, set_looks n k).
Proof.
  unfold refresh_head, on_shared, on_queue, zoom, modify, load, mbind, M_bind, gets. simpl.
  unfold turn, quiet. destruct (u32s k !! sq_k_head q); simpl; intros [= <- <-]. by eexists.
Qed.
Lemma set_looks_id k : set_looks (looks k) k = k.
Proof. by destruct k. Qed.
Lemma is_full_effect q k b s' : is_full (q, k) = (Done b, s') →
  ∃ h n, s' = (set_cached_head h q, set_looks n k).
Proof.
  assert ((q, k) = (set_cached_head (cached_head q) q, set_looks (looks k) k)) as Hid
    by (rewrite set_looks_id; by destruct q).
  unfold is_full, head, mbind, M_bind, gets. simpl.
  destruct (negb _); simpl; [destruct (0 =? _); simpl|].
  - destruct (refresh_head (q, k)) as [[h|?|?|?] s1] eqn:Hr; simpl; intros [= <- <-].
    destruct (refresh_head_effect q k h s1 Hr) as [n ->]. by eexists _, _.
  - intros [= <- <-]. rewrite Hid. by eexists _, _.
  - intros [= <- <-]. rewrite Hid. by eexists _, _.
Qed.
Lemma submit_effect (Hlog : log_debug = false) g q k r s' :
  submit_with (fill_with g) (q, k) = (Done r, s') →
  (∃ n, s'.2 = set_looks n (drain_u (entry_writes q r (g zeroed_entry)) k)) ∧
  local_tail s'.1 = match r with Ok _ => next_ndx (local_tail q) | Err _ => local_tail q end.
Proof.
  unfold submit_with, mbind, M_bind. destruct (is_full (q, k)) as [[b|?|?|?] s1] eqn:Hf; [|done..].
  destruct (is_full_effect q k b s1 Hf) as (h & n & ->). destruct b; simpl; [intros [= <- <-]; by split; [exists n|]|].
  unfold on_shared, zoom, with_entry, fill_with, log_submit, gets, modify, mbind, M_bind. simpl.
  destruct (sqes k !! _) as [e|] eqn:He; simpl; [|done]. rewrite Hlog, lookup_insert_eq. simpl.
  intros [= <- <-]. split; [|done]. exists n. unfold set_sqes, set_looks. simpl. by rewrite insert_insert_eq.
Qed.
Lemma has_pending_effect q k b s' : has_pending_submissions (q, k) = (Done b, s') →
  ∃ n, s'.2 = set_looks n k ∧ local_tail s'.1 = local_tail q.
Proof.
  unfold has_pending_submissions, mbind, M_bind, gets.
  destruct (refresh_head (q, k)) as [[h|?|?|?] s1] eqn:Hr; [|done..].
  destruct (refresh_head_effect q k h s1 Hr) as [n ->]. intros [= <- <-]. by exists n.
Qed.
Lemma next_effect c k r s' : next (c, k) = (Done r, s') → ∃ n, s'.2 = set_looks n k.
Proof.
  assert (k = set_looks (looks k) k) as Hid by by rewrite set_looks_id.
  unfold next, is_empty, refresh_tail, read_cqe, on_cshared, on_cqueue, zoom, load, modify, gets, mbind, M_bind.
  simpl. unfold turn, quiet. destruct (cached_tail c =? local_head c); simpl.
  - destruct (u32s k !! cq_k_tail c) as [t|]; simpl; [|done]. destruct (t =? _); [intros [= <- <-]; by eexists|].
    simpl. unfold cqe_slot_addr. simpl. destruct (cqes k !! _); simpl; intros [= <- <-]. by eexists.
  - destruct (cqes k !! _); simpl; intros [= <- <-]. by eexists.
Qed.
End effects.

(** ** Every run *)

Section runs.
Context `{!Build} (Hlog : log_debug = false).

Definition user_sys (s : X86) : Sys := mkSys (t_q s) (t_c s) (user_view s) (t_sent s) (t_received s).
Definition x86_fresh (s : X86) : Prop := t_ub s = [] ∧ t_kb s = [] ∧ fresh (user_sys s).

Record x86_inv (s : X86) : Prop := {
  ti_sys : sys_inv (user_sys s);
  ti_user : ∃ lt, view_ok lt (t_mem s) ∧ uchain (t_mem s) lt (t_ub s) (local_tail (t_q s));
  ti_kernel : kchain (t_mem s) (t_kb s) }.

Lemma rep_view q c k A : uring_rep q c k A → view_ok (local_tail q) k.
Proof.
  intros [Hsq Hcq _ _]. pose proof Hsq as []. pose proof Hcq as [].
  destruct sqr_counters as (h & t & ? & ? & ? & ? & _ & ? & Hle & _).
  destruct cqr_counters as (ch & ct & ? & ? & ? & ? & _ & ? & _ & _).
  pose proof (dist_range (cached_head q) h) as Hr. unfold in_u in Hr.
  constructor; [done|done| |by exists ch, ct]. exists h, t. split_and!; done || lia.
Qed.
Lemma rep_looks q c k A n : uring_rep q c (set_looks n k) A → uring_rep q c k A.
Proof. intros Hr. by apply (uring_rep_looks _ _ _ _ (looks k)) in Hr; destruct k. Qed.
Lemma sys_inv_looks q c k n snt rcv : sys_inv (mkSys q c (set_looks n k) snt rcv) → sys_inv (mkSys q c k snt rcv).
Proof. intros (A & Hr & Hb). exists A. split; [by eapply rep_looks|done]. Qed.
Lemma drain_u_app ws ws' k : drain_u (ws ++ ws') k = drain_u ws' (drain_u ws k).
Proof. apply foldl_app. Qed.
Lemma drain_k_app ws ws' k : drain_k (ws ++ ws') k = drain_k ws' (drain_k ws k).
Proof. apply foldl_app. Qed.

(** An operation that ran: its stores follow those that wait. *)
Lemma op_inv q c m ub kb snt rcv q' c' k' ws snt' rcv' :
  x86_inv (mkX86 q c m ub kb snt rcv) →
  sys_inv (mkSys q' c' k' snt' rcv') → (∃ n, k' = set_looks n (drain_u ws (drain_u ub m))) →
  (∀ A, uring_rep q c (drain_u ub m) A → uchain (drain_u ub m) (local_tail q) ws (local_tail q')) →
  x86_inv (mkX86 q' c' m (ub ++ ws) kb snt' rcv').
Proof.
  intros [(A & Hr & _) (lt & Hv & Hu) Hk] Hs [n ->] Hc. simpl in *. constructor; simpl; [| |done].
  - unfold user_sys, user_view. simpl. rewrite drain_u_app. by eapply sys_inv_looks.
  - exists lt. split; [done|]. eapply uchain_app; [done|]. by eapply Hc.
Qed.

Lemma submit_chain g q c k A r s' : uring_rep q c k A →
  submit_with (fill_with g) (q, k) = (Done r, s') →
  uchain k (local_tail q) (entry_writes q r (g zeroed_entry)) (local_tail s'.1).
Proof.
  intros Hr Hrun. destruct (submit_effect Hlog g q k r s' Hrun) as [[n Hk] Hlt].
  pose proof (wp_of_run _ _ _ _ _ (submit_fill_spec g q c k A Hlog Hr) Hrun) as (A' & _ & Hres).
  destruct r as [[]|e]; simpl; [|by rewrite Hlt].
  destruct Hres as (_ & Hr'). exists (next_ndx (local_tail q)). split; [|done].
  rewrite (slot_addr_rep _ _ _ _ Hr). pose proof (rep_view _ _ _ _ Hr) as Hv. open_view Hv.
  apply (ua_entry k (local_tail q) sh); [done|].
  rewrite Hk in Hr'. apply rep_looks in Hr'. pose proof (rep_sq_head _ _ _ _ Hr') as (h & Hh & _ & Hd & _).
  pose proof (staged_bound _ _ _ _ Hr') as Hb. rewrite <-Hd, Hlt in Hb. destruct Hr' as [Hsq' _ _ _].
  rewrite (sqr_k_head _ _ _ _ Hsq') in Hh. rewrite (sqr_mask _ _ _ _ Hsq') in Hb. simpl in Hh, Hb.
  same h sh. rewrite dist_next_r in Hb by lia. lia.
Qed.

Lemma x86_step_inv s s' : x86_step s s' → x86_inv s → x86_inv s'.
Proof.
  intros Hst Hi. destruct Hst as [g q c m ub kb snt rcv r s' Hrun|q c m ub kb snt rcv s' Hrun
    |q c m ub kb snt rcv b s' Hrun|q c m ub kb snt rcv r s' Hrun|q c m ub kb snt rcv s' Hrun
    |q c m ub kb snt rcv ws Hp|q c m w ub kb snt rcv|q c m ub w kb snt rcv].
  - eapply op_inv; [exact Hi|eapply sys_step_inv; [done|by apply sys_submit|apply Hi]|..].
    + apply (submit_effect Hlog _ _ _ _ _ Hrun).
    + intros A Hr. by eapply submit_chain.
  - pose proof Hi as [(A & Hr & _) _ _]. simpl in Hr.
    pose proof (wp_of_run _ _ _ _ _ (flush_tail_spec q c _ A Hr) Hrun) as [Hq _].
    eapply op_inv; [exact Hi|eapply sys_step_inv; [done|by apply sys_flush|apply Hi]|..].
    + exists (looks s'.2). revert Hrun. unfold flush_tail, on_shared, zoom, store, mbind, M_bind, gets. simpl.
      by destruct (u32s _ !! sq_k_tail q); [|done]; intros [= <-].
    + intros _ _. rewrite Hq. eexists. split; [|done]. rewrite (sqr_k_tail _ _ _ _ (ur_sq _ _ _ _ Hr)). apply ua_tail.
  - destruct (has_pending_effect q _ b s' Hrun) as (n & Hk & Hlt). rewrite <-(app_nil_r ub).
    eapply op_inv; [exact Hi|eapply sys_step_inv; [done|by eapply sys_has_pending|apply Hi]|by exists n|].
    intros _ _. by rewrite Hlt.
  - destruct (next_effect c _ r s' Hrun) as (n & Hk). rewrite <-(app_nil_r ub).
    eapply op_inv; [exact Hi|eapply sys_step_inv; [done|by apply sys_next|apply Hi]|by exists n|done].
  - pose proof Hi as [(A & Hr & _) _ _]. simpl in Hr.
    pose proof (wp_of_run _ _ _ _ _ (flush_head_spec q c _ A Hr) Hrun) as [Hc _].
    eapply op_inv; [exact Hi|eapply sys_step_inv; [done|by apply sys_release|apply Hi]|..].
    + exists (looks s'.2). revert Hrun. unfold flush_head, on_cshared, zoom, store, mbind, M_bind, gets. simpl.
      by destruct (u32s _ !! cq_k_head c); [|done]; intros [= <-].
    + intros _ _. destruct (ur_cq _ _ _ _ Hr). destruct cqr_counters as (h & t & Hh & _ & Ht & _ & Hadd & _).
      eexists. split; [|done]. rewrite cqr_k_head. by eapply ua_head.
  - destruct Hi as [Hs (lt & Hv & Hu) Hk]. constructor; simpl in *; [done|by exists lt|].
    apply kchain_app; [done|]. eapply kplan_chain; [by eapply kchain_view|done].
  - destruct Hi as [Hs (lt & Hv & lt1 & Hw & Hu) Hk]. constructor; simpl in *; [done| |by eapply kchain_uarr].
    exists lt1. split; [by eapply uarr_view|done].
  - destruct Hi as [(A & Hr & Hb) (lt & Hv & Hu) [Hw Hk]]. simpl in *.
    destruct (uchain_karr ub m lt _ w Hv Hw Hu) as (Hu' & Hw' & Heq).
    destruct (karr_rep _ _ _ _ w Hr Hw') as (A' & Hr' & Ha). constructor; simpl; [| |done].
    + exists A'. unfold user_sys, user_view. simpl. rewrite <-Heq. split; [done|]. by eapply books_late.
    + exists lt. split; [by eapply karr_view|done].
Qed.

Lemma klog_drain_u ws : ∀ k, klog (drain_u ws k) = klog k.
Proof. induction ws as [|w ws IH]; intros k; simpl; [done|]. rewrite IH. by destruct w. Qed.
Lemma klog_drain_k ws : ∀ k k', klog k = klog k' → klog (drain_k ws k) = klog (drain_k ws k').
Proof. induction ws as [|w ws IH]; intros k k' Hk; simpl; [done|]. apply IH. by destruct w; simpl; rewrite Hk. Qed.

Lemma x86_fresh_inv s : x86_fresh s → x86_inv s.
Proof.
  intros (Hu & Hk & Hf). apply fresh_inv in Hf as (A & Hr & Hb).
  constructor; [by exists A| |by rewrite Hk]. exists (local_tail (t_q s)).
  unfold user_sys, user_view in Hr. simpl in Hr. rewrite Hu in Hr |- *. split; [by eapply rep_view|done].
Qed.
Lemma x86_steps_inv s s' : rtc x86_step s s' → x86_inv s → x86_inv s'.
Proof. induction 1; eauto using x86_step_inv. Qed.

End runs.

Section survive.
Context `{!Build}.

(** C9: store buffers do not break the rings.  On x86, whose processors delay
    stores, the plain stores with which [flush_tail] and [flush_head] publish
    their counters suffice: however long the stores of either side wait, and
    though each side decides on what the other is past, what the kernel took
    over is a prefix of what was submitted, in order; what the client received
    is a prefix of what the kernel posted, each completion of a submitted
    request, none twice; never more than a ring of entries waits for the kernel;
    and at every moment what user space sees are the rings on which the queue
    operations are right ([uring_rep]), so that submitting, publishing, receiving
    and giving slots back end normally.  This is with debug logging off, as in
    [rings_never_fail]. *)
Theorem rings_survive_store_buffers s0 s g (Hlog : log_debug = false) (Hinit : x86_fresh s0)
    (Hst : rtc x86_step s0 s) :
  takes (klog (kernel_view s)) `prefix_of` t_sent s ∧
  t_received s `prefix_of` posts (klog (kernel_view s)) ∧
  (cqe_user_data <$> t_received s) ⊆+ (sqe_user_data <$> t_sent s) ∧
  Z.of_nat (length (t_sent s)) - Z.of_nat (length (takes (klog (kernel_view s))))
    ≤ entries (sq_ring_mask (t_q s)) ∧
  ∃ A, uring_rep (t_q s) (t_c s) (user_view s) A ∧
    (∃ r s', submit_with (fill_with g) (t_q s, user_view s) = (Done r, s')) ∧
    (∃ s', flush_tail (t_q s, user_view s) = (Done tt, s')) ∧
    (∃ r s', next (t_c s, user_view s) = (Done r, s')) ∧
    (∃ s', flush_head (t_c s, user_view s) = (Done tt, s')).
Proof.
  apply x86_fresh_inv, (x86_steps_inv Hlog _ _ Hst) in Hinit as [(A & Hr & Hb) (lt & Hv & Hu) Hk].
  destruct (kchain_rep _ _ (t_kb s) _ A Hr) as (A' & Hr' & Ha); [by eapply kchain_uchain|].
  assert (klog (kernel_view s) = log A') as ->.
  { rewrite <-(ur_log _ _ _ _ Hr'). apply klog_drain_k. symmetry. apply klog_drain_u. }
  pose proof (books_fifo _ _ _ _ _ _ Hr' (books_late _ _ _ _ Ha Hb)) as (? & ? & ? & ?).
  split_and!; try done. exists A. split; [done|]. split_and!.
  - pose proof (submit_fill_spec g _ _ _ _ Hlog Hr) as Hw. apply wp_run in Hw as (r & s' & ? & _). eauto.
  - apply flush_tail_spec, wp_run in Hr as ([] & s' & ? & _). eauto.
  - apply next_spec, wp_run in Hr as (r & s' & ? & _). eauto.
  - apply flush_head_spec, wp_run in Hr as ([] & s' & ? & _). eauto.
Qed.
End survive.

(** ** At work: a machine that runs *)

Definition exec_plan_take (k : Kern) : option (list kwrite) :=
  h ← u32s k !! g_sq_head (geo k);
  t ← u32s k !! g_sq_tail (geo k);
  i ← u32s k !! array_addr_of (geo k) (slot (g_sq_mask (geo k)) h);
  e ← sqes k !! sqe_addr_of (geo k) i;
  if decide (h ≠ t ∧ 0 ≤ i < entries (g_sq_mask (geo k))) then
    Some [KStep (g_sq_head (geo k)) (next_ndx h) (Take e) (fly k ++ [e])]
  else None.
Definition exec_plan_post (k : Kern) : option (list kwrite) :=
  h ← u32s k !! g_cq_head (geo k);
  t ← u32s k !! g_cq_tail (geo k);
  match fly k with
  | e :: l =>
      if decide (dist h t < entries (g_cq_mask (geo k))) then
        Some [KEntry (cqe_addr_of (geo k) (slot (g_cq_mask (geo k)) t)) (completion_of e 0 0);
              KStep (g_cq_tail (geo k)) (next_ndx t) (Post (completion_of e 0 0)) l]
      else None
  | [] => None
  end.

Inductive x86_op : Type :=
| TSubmit (g : SubmissionEntry → SubmissionEntry) | TFlush | TNext | TRelease
| TTake | TPost | TCommitUser | TCommitKernel.
Definition run_x86_op `{!Build} (o : x86_op) (s : X86) : option X86 :=
  let '(mkX86 q c m ub kb snt rcv) := s in
  match o with
  | TSubmit g =>
      match submit_with (fill_with g) (q, drain_u ub m) with
      | (Done r, s') => Some (mkX86 s'.1 c m (ub ++ entry_writes q r (g zeroed_entry)) kb
          (sent_after r (g zeroed_entry) snt) rcv)
      | _ => None
      end
  | TFlush =>
      match flush_tail (q, drain_u ub m) with
      | (Done _, s') => Some (mkX86 s'.1 c m (ub ++ [UCount (sq_k_tail q) (local_tail q)]) kb snt rcv)
      | _ => None
      end
  | TNext =>
      match next (c, drain_u ub m) with
      | (Done r, s') => Some (mkX86 q s'.1 m ub kb snt (received_after r rcv)) | _ => None
      end
  | TRelease =>
      match flush_head (c, drain_u ub m) with
      | (Done _, s') => Some (mkX86 q s'.1 m (ub ++ [UCount (cq_k_head c) (local_head c)]) kb snt rcv)
      | _ => None
      end
  | TTake => ws ← exec_plan_take (drain_k kb m); Some (mkX86 q c m ub (kb ++ ws) snt rcv)
  | TPost => ws ← exec_plan_post (drain_k kb m); Some (mkX86 q c m ub (kb ++ ws) snt rcv)
  | TCommitUser => match ub with w :: ub => Some (mkX86 q c (apply_u m w) ub kb snt rcv) | [] => None end
  | TCommitKernel => match kb with w :: kb => Some (mkX86 q c (apply_k m w) ub kb snt rcv) | [] => None end
  end.
Fixpoint run_x86 `{!Build} (os : list x86_op) (s : X86) : option X86 :=
  match os with [] => Some s | o :: os => run_x86_op o s ≫= run_x86 os end.

Lemma exec_plan_sound k ws : exec_plan_take k = Some ws ∨ exec_plan_post k = Some ws → kplan k ws.
Proof.
  intros [Hx|Hx].
  - unfold exec_plan_take in Hx. repeat case_match || simplify_option_eq. destruct_and!. by eapply plan_take.
  - unfold exec_plan_post in Hx. destruct (fly k) as [|e l] eqn:Hf; simplify_option_eq.
    by eapply (plan_post k _ _ e [] l).
Qed.
Lemma run_x86_sound `{!Build} os s s' : run_x86 os s = Some s' → rtc x86_step s s'.
Proof.
  revert s. induction os as [|o os IH]; intros s; csimpl; [by intros [= ->]|].
  destruct (run_x86_op o s) as [s1|] eqn:Ho; csimpl; [|done]. intros Hrun.
  eapply rtc_l; [|by apply IH]. revert Ho. destruct s as [q c m ub kb snt rcv].
  destruct o; simpl; repeat case_match; intros; simplify_option_eq;
    repeat match goal with u : () |- _ => destruct u end; econstructor;
    by eauto using exec_plan_sound.
Qed.

#[local] Existing Instance release_build.
Definition x86_demo (c0 : Z) : X86 := mkX86 (demo_sq c0) (demo_cq c0) (demo_kern c0) [] [] [] [].
(** At the wrap of the counters: the stores of two submissions wait while the
    kernel sees nothing; then it takes both and posts one completion, whose store
    of the counter waits while the client looks. *)
Definition x86_ops : list x86_op :=
  [TSubmit (nop_with 8); TSubmit (nop_with 16); TFlush; TCommitUser; TCommitUser; TCommitUser;
   TTake; TTake; TPost; TNext; TCommitKernel; TCommitKernel; TCommitKernel; TNext; TCommitKernel; TNext; TRelease].
Definition x86_end : X86 := default (x86_demo 0) (run_x86 x86_ops (x86_demo (2 ^ 32 - 1))).

Lemma rings_survive_store_buffers_witness :
  (t_received x86_end `prefix_of` posts (klog (kernel_view x86_end))) ∧
  length (t_received x86_end) = 1%nat ∧ length (t_ub x86_end) = 1%nat.
Proof.
  split; [|split; vm_compute; reflexivity].
  apply (@rings_survive_store_buffers release_build (x86_demo (2 ^ 32 - 1)) x86_end (nop_with 8) eq_refl).
  - split; [reflexivity|]. split; [reflexivity|]. apply demo_fresh. unfold in_u. lia.
  - apply (run_x86_sound x86_ops). vm_compute. reflexivity.
Defined.
