(* ===== verification/Caches.v ===== *)
(** * The cached counters are an optimisation only

    The queues load the kernel's counter only when the cached one says that the
    submission ring looks full, or the completion ring empty, and recognise a
    full ring by masking.  The reference operations of this file load it every
    time and count; the theorem says that nobody can tell the difference. *)

From S2P Require Import Prelude Std Sys Submission Ring Kern Mmap SubQueue CompQueue Rings.
From S2P Require Import QueueOps Demo.

Local Open Scope Z_scope.

(** ** The reference: load, then count *)

Section reference.
Context `{Kernel} `{Build}.

Definition is_full_reference : M SQS bool :=
  h ← refresh_head;
  q ← gets fst;
  mret (dist h (local_tail q) =? entries (sq_ring_mask q)).
Definition is_empty_reference : M CQS bool :=
  t ← refresh_tail;
  q ← gets fst;
  mret (dist (local_head q) t =? 0).

(** [submit_with] and [next] over a check for a full or an empty ring. *)
Definition submit_checked {E} (check : M SQS bool) (f : M SubmissionEntry (result unit E))
    : M SQS (result unit (SubmissionError E)) :=
  full ← check;
  if (full : bool) then mret (Err QueueFull)
  else
    ndx ← gets (λ s : SQS, local_tail s.1);
    a ← gets (λ s : SQS, slot_addr s.1 ndx);
    r ← on_shared (with_entry a (modify clear;; f));
    match r with
    | Err e => mret (Err (FillError e))
    | Ok _ =>
        on_shared (with_entry a log_submit);;
        on_queue (set_local_tail (wrap 32 (ndx + 1)));;
        mret (Ok tt)
    end.
Definition next_checked (check : M CQS bool) : M CQS (option CompletionEntry) :=
  empty ← check;
  if (empty : bool) then mret None
  else
    ndx ← gets (λ s : CQS, local_head s.1);
    a ← gets (λ s : CQS, cqe_slot_addr s.1 ndx);
    item ← read_cqe a;
    on_cqueue (set_local_head (wrap 32 (ndx + 1)));;
    mret (Some item).

Lemma submit_with_checked {E} (f : M SubmissionEntry (result unit E)) :
  submit_with f = submit_checked is_full f.
Proof. done. Qed.
Lemma next_is_checked : next = next_checked is_empty.
Proof. done. Qed.
End reference.

Section caches.
Context {P : kevent → Prop} `{!Kernel} `{HK : !KernelDoes P _} `{!Build}.
Implicit Types (q : SubmissionQueue) (c : CompletionQueue) (k : Kern) (A : Rings).

(** The kernel takes staged entries away, and adds completions. *)
Lemma kacts_monotone A A' : rtc (kacts_in P) A A' →
  (length (staged A') ≤ length (staged A))%nat ∧ completed A `prefix_of` completed A'.
Proof.
  induction 1 as [A|A A1 A2 (ev & _ & _ & Ha) _ [IH1 IH2]]; [by split|].
  assert ((length (staged A1) ≤ length (staged A))%nat ∧ completed A `prefix_of` completed A1)
    as [H1 H2] by (destruct Ha; simpl; split; try done; try lia; by eexists).
  split; [lia|by etrans].
Qed.

(** ** Full and empty *)

(** By the cached head the ring looks full. *)
Definition looks_full q : bool :=
  negb (cached_head q =? local_tail q) && same_slot (sq_ring_mask q) (cached_head q) (local_tail q).

Lemma looks_full_spec q c k A : uring_rep q c k A → looks_full q = negb (bool_decide (has_room q)).
Proof.
  intros Hr. destruct (rep_sq_head _ _ _ _ Hr) as (h & _ & _ & _ & _ & Hle).
  pose proof Hr as [Hsq _ _ _]. pose proof Hsq as []. rewrite sqr_mask in *.
  pose proof (geo_sq_mask _ sqr_geo) as Hm. pose proof (entries_pos _ Hm).
  unfold looks_full, has_room. rewrite sqr_mask.
  pose proof (same_slot_spec (g_sq_mask (geo k)) (cached_head q) (local_tail q)) as Hss.
  rewrite (slot_full _ _ _ Hm Hle), (dist_0 _ _ sqr_ch sqr_lt) in Hss.
  destruct (Z.eqb_spec (cached_head q) (local_tail q)) as [He|He]; simpl.
  - rewrite He, dist_refl, bool_decide_eq_true_2 by lia. done.
  - destruct (same_slot _ _ _); case_bool_decide as Hd; try done.
    + destruct Hss as [Hss _]. destruct (Hss eq_refl); [done|lia].
    + exfalso. assert (false = true) as [=]. apply Hss. right. lia.
Qed.

Lemma is_full_equivalent q c k A : uring_rep q c k A → ∃ b s s',
  is_full (q, k) = (Done b, s) ∧ is_full_reference (q, k) = (Done b, s') ∧
  ∃ h h' A1 A2, s.1 = set_cached_head h q ∧ s'.1 = set_cached_head h' q ∧
    uring_rep s.1 c s.2 A1 ∧ uring_rep s'.1 c s'.2 A2.
Proof.
  intros Hr. pose proof (refresh_head_spec _ _ _ _ Hr) as Hw.
  apply wp_run in Hw as (h & s' & Hrun & A' & Hst & Hq & Hr' & _ & Hu & Hd).
  assert (is_full_reference (q, k) = (Done (dist h (local_tail q) =? entries (sq_ring_mask q)), s')) as Href.
  { unfold is_full_reference. rewrite (run_bind_done _ _ _ _ _ Hrun). unfold mbind, M_bind, gets. simpl. by rewrite Hq. }
  assert (set_cached_head (cached_head q) q = q) as Hsame by by destruct q.
  assert (Hrun1 : is_full (q, k) = if looks_full q then
      (Done (negb (h =? local_tail q) && same_slot (sq_ring_mask q) h (local_tail q)), s')
    else (Done false, (q, k))).
  { unfold is_full, head, looks_full. fold (same_slot (sq_ring_mask q) (cached_head q) (local_tail q)).
    unfold same_slot, mbind, M_bind, gets. simpl.
    destruct (cached_head q =? local_tail q) eqn:Hn; simpl; [by rewrite Hn|].
    destruct (0 =? Z.land (Z.lxor (cached_head q) (local_tail q)) (sq_ring_mask q)) eqn:Hs; simpl.
    - unfold mret, M_ret. rewrite Hrun. destruct s' as [q' k']. simpl in *. by rewrite Hq.
    - by rewrite Hn, Hs. }
  rewrite (looks_full_spec _ _ _ _ Hr) in Hrun1. case_bool_decide as Hroom; simpl in Hrun1.
  - pose proof (has_room_not_full _ _ _ _ Hr Hroom) as Hlt.
    apply kacts_monotone in Hst as [Hlen _].
    rewrite (proj2 (Z.eqb_neq _ _)) in Href by lia.
    exists false, (q, k), s'. split_and!; [done..|].
    exists (cached_head q), h, A, A'. split_and!; first [done|by rewrite Hsame].
  - exists (dist h (local_tail q) =? entries (sq_ring_mask q)), s', s'. split_and!; try done.
    2: { exists h, h, A', A'. by split_and!. }
    rewrite Hrun1. do 2 f_equal. destruct (rep_sq_head _ _ _ _ Hr') as (h' & _ & _ & _ & _ & Hle).
    pose proof Hr as [Hsq _ _ _]. pose proof Hsq as []. rewrite Hq in Hle. simpl in Hle.
    pose proof (geo_sq_mask _ sqr_geo) as Hm. rewrite sqr_mask in *. pose proof (entries_pos _ Hm).
    pose proof (same_slot_spec (g_sq_mask (geo k)) h (local_tail q)) as Hss.
    rewrite (slot_full _ _ _ Hm Hle), (dist_0 _ _ Hu sqr_lt) in Hss.
    destruct (Z.eqb_spec h (local_tail q)) as [->|He]; simpl.
    + rewrite dist_refl. symmetry. apply Z.eqb_neq. lia.
    + apply eq_true_iff_eq. rewrite Z.eqb_eq, Hss. naive_solver.
Qed.

Lemma is_empty_equivalent q c k A : uring_rep q c k A → ∃ b s s',
  is_empty (c, k) = (Done b, s) ∧ is_empty_reference (c, k) = (Done b, s') ∧
  (b = false → ∃ x,
    read_cqe (cqe_slot_addr s.1 (local_head c)) s = (Done x, s) ∧
    read_cqe (cqe_slot_addr s'.1 (local_head c)) s' = (Done x, s')) ∧
  local_head s.1 = local_head c ∧ local_head s'.1 = local_head c.
Proof.
  intros Hr. pose proof (refresh_tail_spec _ _ _ _ Hr) as Hw.
  apply wp_run in Hw as (t & s' & Hrun & A' & Hst & Hq & Hr' & Hu & Hd).
  assert (is_empty_reference (c, k) = (Done (dist (local_head c) t =? 0), s')) as Href.
  { unfold is_empty_reference. rewrite (run_bind_done _ _ _ _ _ Hrun). unfold mbind, M_bind, gets. simpl. by rewrite Hq. }
  assert (∀ c0 k0 A0 x rest, uring_rep q c0 k0 A0 → completed A0 = x :: rest → cached_tail c0 ≠ local_head c0 →
    read_cqe (cqe_slot_addr c0 (local_head c0)) (c0, k0) = (Done x, (c0, k0))) as Hread.
  { intros c0 k0 A0 x rest Hr0 Hx Hne. destruct (pop_rep _ _ _ _ _ _ Hr0 Hx Hne) as [Hget _].
    unfold read_cqe, mbind, M_bind, gets. simpl. by rewrite Hget. }
  pose proof (dist_0 (local_head c) t (cqr_lh _ _ _ _ _ (ur_cq _ _ _ _ Hr)) Hu) as Hd0.
  destruct s' as [c' k']. simpl in Hq, Hr'. subst c'.
  unfold is_empty, mbind at 1, M_bind at 1, gets at 1. simpl.
  destruct (Z.eqb_spec (cached_tail c) (local_head c)) as [He|He].
  - rewrite (run_bind_done _ _ _ _ _ Hrun). unfold gets. simpl.
    exists (t =? local_head c), (set_cached_tail t c, k'), (set_cached_tail t c, k'). split_and!; try done.
    + rewrite Href. do 2 f_equal. apply eq_true_iff_eq. rewrite !Z.eqb_eq. rewrite Hd0. split; congruence.
    + intros Hne%Z.eqb_neq. destruct (completed A') as [|x rest] eqn:Hx.
      { simpl in Hd. apply Hd0 in Hd. congruence. }
      exists x. pose proof (Hread _ _ _ _ _ Hr' Hx Hne) as Hx'. done.
  - destruct (rep_cq_tail _ _ _ _ Hr) as (t0 & _ & Hu0 & Hd1 & Hle).
    pose proof (cqr_ct _ _ _ _ _ (ur_cq _ _ _ _ Hr)) as Hct. pose proof (cqr_lh _ _ _ _ _ (ur_cq _ _ _ _ Hr)) as Hlh.
    assert (dist (local_head c) (cached_tail c) ≠ 0) as Hnz by (rewrite dist_0; [congruence|done|done]).
    pose proof (dist_range (local_head c) (cached_tail c)) as Hrg. unfold in_u in Hrg.
    apply kacts_monotone in Hst as [_ [more Hmore]].
    destruct (completed A) as [|x rest] eqn:Hx; [simpl in Hd1; lia|].
    rewrite (proj2 (Z.eqb_neq _ _)) in Href by (rewrite Hd, Hmore; simpl; lia).
    exists false, (c, k), (set_cached_tail t c, k'). split_and!; try done. intros _. exists x. split.
    + by eapply Hread.
    + apply (Hread (set_cached_tail t c) k' A' x (rest ++ more)%list Hr'); [done|]. simpl.
      intros ->. rewrite dist_refl, Hmore in Hd. simpl in Hd. lia.
Qed.

(** ** Submitting and taking *)

(** C18: caching the kernel's counters and recognising a full ring by its mask
    cannot be observed.  On rings in any state and whatever the kernel does
    concurrently, [is_full], [is_empty], [submit_with] (for any closure, also
    one that fails or panics) and the iterator's [next] end and return exactly
    as the reference operations that load the kernel's counter at every call
    and count the entries. *)
Theorem caching_is_unobservable {E} (f : M SubmissionEntry (result unit E)) q c k A
    (Hr : uring_rep q c k A) :
  (is_full (q, k)).1 = (is_full_reference (q, k)).1 ∧
  (is_empty (c, k)).1 = (is_empty_reference (c, k)).1 ∧
  (submit_with f (q, k)).1 = (submit_checked is_full_reference f (q, k)).1 ∧
  (next (c, k)).1 = (next_checked is_empty_reference (c, k)).1.
Proof.
  destruct (is_full_equivalent _ _ _ _ Hr) as (b & s & s' & H1 & H2 & h & h' & A1 & A2 & Hs & Hs' & Hr1 & Hr2).
  destruct (is_empty_equivalent _ _ _ _ Hr) as (e & z & z' & H3 & H4 & Hread & Hz & Hz').
  split_and!; [by rewrite H1, H2|by rewrite H3, H4| |].
  - rewrite submit_with_checked. unfold submit_checked. rewrite (run_bind_done _ _ _ _ _ H1), (run_bind_done _ _ _ _ _ H2).
    destruct b; [done|].
    assert (∀ q0 k0 A0, uring_rep q0 c k0 A0 → is_Some (sqes k0 !! slot_addr q0 (local_tail q0))) as Hslot.
    { intros q0 k0 A0 Hr0. rewrite (slot_addr_rep _ _ _ _ Hr0). pose proof Hr0 as [Hsq _ _ _]. destruct Hsq.
      apply sqr_slots, slot_bounds, geo_sq_mask, sqr_geo. }
    apply Hslot in Hr1 as [e1 He1]. apply Hslot in Hr2 as [e2 He2].
    destruct s as [q1 k1], s' as [q2 k2]. simpl in *.
    unfold on_shared, zoom, with_entry, mbind, M_bind, gets, modify, on_queue. simpl.
    rewrite He1, He2. change (clear e1) with zeroed_entry. change (clear e2) with zeroed_entry.
    destruct (f zeroed_entry) as [[[]| | |] ent]; simpl; rewrite ?lookup_insert_eq; try done.
    by destruct (log_submit ent) as [[] ?].
  - rewrite next_is_checked. unfold next_checked. rewrite (run_bind_done _ _ _ _ _ H3), (run_bind_done _ _ _ _ _ H4).
    destruct e; [done|]. destruct (Hread eq_refl) as (x & Hx & Hx').
    unfold mbind, M_bind, gets. simpl. by rewrite Hz, Hz', Hx, Hx'.
Qed.
End caches.

(** At work: the demo ring across the wrap-around, with a kernel that acts. *)
Lemma caching_is_unobservable_witness :
  (@is_full eager (demo_sq (2 ^ 32 - 1), demo_kern (2 ^ 32 - 1))).1 = Done false ∧
  (@next eager (demo_cq (2 ^ 32 - 1), demo_kern (2 ^ 32 - 1))).1 =
    (@next_checked (@is_empty_reference eager) (demo_cq (2 ^ 32 - 1), demo_kern (2 ^ 32 - 1))).1.
Proof.
  destruct (@caching_is_unobservable anything eager eager_ok release_build Empty_set (λ e, (Done (Ok tt), e))
    (demo_sq (2 ^ 32 - 1)) (demo_cq (2 ^ 32 - 1)) (demo_kern (2 ^ 32 - 1)) (mkRings [] 0 [] [] [] 0 2))
    as (H1 & _ & _ & H2).
  - apply demo_rep. unfold in_u. lia.
  - split; [rewrite H1; vm_compute; reflexivity|exact H2].
Defined.
