(* ===== verification/UringNew.v ===== *)
(** * [Uring::new] on the memory the kernel prepared yields fresh rings

    The kernel leaves both rings empty, their constants filled in, and does
    nothing but change its flags word until it is given entries.  On such
    memory the constructors pass their assertions, fill the index array with
    the identity, and the queues they return represent the empty rings from
    which the theorems of [Queues] start. *)

From S2P Require Import Prelude Std Sys Submission Ring Kern Mmap SubQueue CompQueue Uring Rings.
From S2P Require Import UringProps QueueOps Demo Queues.

Local Open Scope Z_scope.
Local Open Scope rust_scope.

(** ** A kernel with nothing to do *)

Record quiescent (k : Kern) : Prop := {
  qs_geo : geo_wf (geo k);
  qs_fly : fly k = [];
  qs_log : Forall (λ ev, ev = Idle) (klog k);
  qs_sq : ∃ h, u32s k !! g_sq_head (geo k) = Some h ∧ u32s k !! g_sq_tail (geo k) = Some h;
  qs_flags : is_Some (u32s k !! g_sq_flags (geo k)) }.

(** All but the flags word is unchanged. *)
Record same_but_flags (k k' : Kern) : Prop := {
  sb_geo : geo k' = geo k;
  sb_sqes : sqes k' = sqes k;
  sb_cqes : cqes k' = cqes k;
  sb_u32s a : a ≠ g_sq_flags (geo k) → u32s k' !! a = u32s k !! a }.

#[export] Instance same_but_flags_preorder : PreOrder same_but_flags.
Proof.
  split; [by constructor|]. intros k1 k2 k3 [Hg Hs Hc Hu] [Hg' Hs' Hc' Hu'].
  constructor; try congruence. intros a Ha. rewrite Hu' by congruence. by apply Hu.
Qed.

Lemma quiescent_move k k' : quiescent k → kmove k k' → quiescent k' ∧ same_but_flags k k'.
Proof.
  intros [Hg Hf Hlog (h & Hh & Ht) Hfl] [ev [_ [ev' k1 Hdo]]].
  destruct Hdo; simplify_eq; try (exfalso; congruence);
    try (exfalso; rewrite Hf in *; by destruct l1).
  split; constructor; simpl; try done.
  - apply Forall_app. split; [done|]. by constructor.
  - exists h. by rewrite !lookup_insert_ne by geo_ne.
  - rewrite lookup_insert_eq. eauto.
  - intros a Ha. by rewrite lookup_insert_ne by done.
Qed.
Lemma quiescent_moves k k' : quiescent k → rtc kmove k k' → quiescent k' ∧ same_but_flags k k'.
Proof.
  intros Hq Hst. induction Hst as [|k k1 k2 Hm _ IH]; [done|].
  destruct (quiescent_move _ _ Hq Hm) as [Hq1 Hs1]. destruct (IH Hq1) as [Hq2 Hs2].
  split; [done|]. by etrans.
Qed.

(** ** The memory the constructors find *)

(** [base] says where the object at a given offset of the ring file is mapped;
    [ps] is what [io_uring_setup] returned. *)
Record ready (base : Z → Z) (ps : SetupParameters) (k : Kern) : Prop := {
  rd_quiet : quiescent k;
  rd_sq : base SUBMISSION_QUEUE_RING_OFFSET + sqo_head (sq_off ps) = g_sq_head (geo k) ∧
    base SUBMISSION_QUEUE_RING_OFFSET + sqo_tail (sq_off ps) = g_sq_tail (geo k) ∧
    base SUBMISSION_QUEUE_RING_OFFSET + sqo_flags (sq_off ps) = g_sq_flags (geo k) ∧
    base SUBMISSION_QUEUE_RING_OFFSET + sqo_dropped (sq_off ps) = g_sq_dropped (geo k) ∧
    base SUBMISSION_QUEUE_RING_OFFSET + sqo_array (sq_off ps) = g_array (geo k) ∧
    base SUBMISSION_QUEUE_ENTRIES_OFFSET = g_sces (geo k);
  rd_cq : base COMPLETION_QUEUE_RING_OFFSET + cqo_head (cq_off ps) = g_cq_head (geo k) ∧
    base COMPLETION_QUEUE_RING_OFFSET + cqo_tail (cq_off ps) = g_cq_tail (geo k) ∧
    base COMPLETION_QUEUE_RING_OFFSET + cqo_overflow (cq_off ps) = g_cq_overflow (geo k) ∧
    base COMPLETION_QUEUE_RING_OFFSET + cqo_cqes (cq_off ps) = g_cqes (geo k);
  rd_bounds : Forall (λ o, base SUBMISSION_QUEUE_RING_OFFSET + o < 2 ^ 64)
      [sqo_head (sq_off ps); sqo_tail (sq_off ps); sqo_ring_mask (sq_off ps);
       sqo_ring_entries (sq_off ps); sqo_flags (sq_off ps); sqo_dropped (sq_off ps);
       sqo_array (sq_off ps)] ∧
    Forall (λ o, base COMPLETION_QUEUE_RING_OFFSET + o < 2 ^ 64)
      [cqo_head (cq_off ps); cqo_tail (cq_off ps); cqo_ring_mask (cq_off ps);
       cqo_ring_entries (cq_off ps); cqo_overflow (cq_off ps); cqo_cqes (cq_off ps)];
  rd_sizes : sq_entries ps = entries (g_sq_mask (geo k)) ∧
    cq_entries ps = entries (g_cq_mask (geo k));
  (* the constants, and no member shares their cells *)
  rd_consts : Forall (λ av, u32s k !! av.1 = Some av.2 ∧ av.1 ≠ g_sq_flags (geo k) ∧
      ∀ i, 0 ≤ i < entries (g_sq_mask (geo k)) → av.1 ≠ array_addr_of (geo k) i)
    [(base SUBMISSION_QUEUE_RING_OFFSET + sqo_ring_mask (sq_off ps), g_sq_mask (geo k));
     (base SUBMISSION_QUEUE_RING_OFFSET + sqo_ring_entries (sq_off ps), sq_entries ps);
     (base COMPLETION_QUEUE_RING_OFFSET + cqo_ring_mask (cq_off ps), g_cq_mask (geo k));
     (base COMPLETION_QUEUE_RING_OFFSET + cqo_ring_entries (cq_off ps), cq_entries ps)];
  rd_head : ∃ h, in_u 32 h ∧ u32s k !! g_sq_head (geo k) = Some h;
  rd_chead : ∃ c, in_u 32 c ∧ u32s k !! g_cq_head (geo k) = Some c ∧
    u32s k !! g_cq_tail (geo k) = Some c;
  rd_dropped : is_Some (u32s k !! g_sq_dropped (geo k));
  rd_overflow : is_Some (u32s k !! g_cq_overflow (geo k));
  rd_array : ∀ i, 0 ≤ i < entries (g_sq_mask (geo k)) →
    is_Some (u32s k !! array_addr_of (geo k) i);
  rd_slots : ∀ i, 0 ≤ i < entries (g_sq_mask (geo k)) →
    is_Some (sqes k !! sqe_addr_of (geo k) i) }.

(** Neither the kernel's idling nor the initialisation of the index array
    changes any of this. *)
Record prep (k k' : Kern) : Prop := {
  pr_quiet : quiescent k';
  pr_geo : geo k' = geo k;
  pr_sqes : sqes k' = sqes k;
  pr_cqes : cqes k' = cqes k;
  pr_u32s a : a ≠ g_sq_flags (geo k) →
    (∀ i, 0 ≤ i < entries (g_sq_mask (geo k)) → a ≠ array_addr_of (geo k) i) →
    u32s k' !! a = u32s k !! a;
  pr_array i : 0 ≤ i < entries (g_sq_mask (geo k)) →
    is_Some (u32s k !! array_addr_of (geo k) i) → is_Some (u32s k' !! array_addr_of (geo k) i) }.

Lemma prep_ready base ps k k' : ready base ps k → prep k k' → ready base ps k'.
Proof.
  intros [Hq ?? ?? Hc (h & ? & ?) (c & ? & ? & ?) ????] [Hq' Hg Hs Hcq Hu Ha].
  pose proof (qs_geo _ Hq) as Hw.
  assert (∀ a, a ∈ counters (geo k) → a ≠ g_sq_flags (geo k) → u32s k' !! a = u32s k !! a) as Hcnt.
  { intros a Hin Hne. apply Hu; [done|]. intros i Hi. apply not_eq_sym.
    by apply array_not_counter. }
  constructor; rewrite ?Hg, ?Hs; try done.
  - revert Hc. apply Forall_impl. intros av (Hv & Hne & Harr). by rewrite Hu.
  - exists h. rewrite Hcnt; [done| |geo_ne]. by in_counters.
  - exists c. rewrite !Hcnt; [done| |geo_ne| |geo_ne]; by in_counters.
  - rewrite Hcnt; [done| |geo_ne]. by in_counters.
  - rewrite Hcnt; [done| |geo_ne]. by in_counters.
  - eauto.
Qed.

Lemma prep_trans k1 k2 k3 : prep k1 k2 → prep k2 k3 → prep k1 k3.
Proof.
  intros [? Hg Hs Hc Hu Ha] [? Hg' Hs' Hc' Hu' Ha'].
  constructor; try congruence; rewrite Hg in *.
  - intros a Hf Harr. rewrite Hu' by done. by apply Hu.
  - eauto.
Qed.

Section constructors.
Context `{!Kernel} `{!KernelOk _} `{L : !Libc Proc} `{!LibcOk L} `{!Build}.

(** [mmap] puts the object at offset [off] of the ring file at [base off]. *)
Definition mapped_at (base : Z → Z) : Prop := ∀ a len prot fl fd off p,
  (mmap a len prot fl fd off p).1 = Done MAP_FAILED ∨
  (mmap a len prot fl fd off p).1 = Done (base off).

Lemma load_ready base ps k a v :
  ready base ps k → u32s k !! a = Some v → a ≠ g_sq_flags (geo k) →
  wp (load a) (λ r k', r = v ∧ prep k k' ∧ same_but_flags k k') k.
Proof.
  intros Hr Hv Hne. destruct (quiescent_moves _ _ (rd_quiet _ _ _ Hr) (turn_ok (looks k) k))
    as [Hq Hs]. unfold wp, load. cbv zeta.
  change (u32s (set_looks (S (looks k)) (turn (looks k) k))) with (u32s (turn (looks k) k)).
  rewrite (sb_u32s _ _ Hs a Hne), Hv.
  pose proof (qs_geo _ (rd_quiet _ _ _ Hr)) as Hw.
  split; [done|]. destruct Hs as [Hg Hsq Hcq Hu]. split; [|by constructor].
  constructor; simpl; try done; [by destruct Hq; constructor|by intros; apply Hu|].
  intros i Hi. by rewrite Hu by geo_ne.
Qed.

Lemma get_field_ok mm off : mm_addr mm + off < 2 ^ 64 → get_field mm off = Done (mm_addr mm + off).
Proof. intros. unfold get_field, add_u. by rewrite (proj2 (Z.ltb_lt _ _)). Qed.

(** In the state [p], mapping [len] bytes of the ring file [fd] at [off] fails,
    with the error [e]. *)
Definition mmap_fails (fd off len : Z) (p : Proc) (e : io_error) : Prop :=
  ∃ q err q', mmap 0 len (Z.lor PROT_READ PROT_WRITE) (Z.lor MAP_SHARED MAP_POPULATE) fd off p
      = (Done MAP_FAILED, q) ∧
    errno q = (Done err, q') ∧ e = Os err.
(** One of the two mappings of the submission queue fails, the first made from
    [p], the second from where the first left the process. *)
Definition sq_fails (fd : Z) (ps : SetupParameters) (p : Proc) (e : io_error) : Prop :=
  let ring := sqo_array (sq_off ps) + size_of u32 * sq_entries ps in
  mmap_fails fd SUBMISSION_QUEUE_RING_OFFSET ring p e ∨
  ∃ mm q, MappedMemory_map fd SUBMISSION_QUEUE_RING_OFFSET ring p = (Done (Ok mm), q) ∧
    mmap_fails fd SUBMISSION_QUEUE_ENTRIES_OFFSET
      (size_of (repr_C SubmissionEntry_fields) * sq_entries ps) q e.
Definition cq_fails (fd : Z) (ps : SetupParameters) (p : Proc) (e : io_error) : Prop :=
  mmap_fails fd COMPLETION_QUEUE_RING_OFFSET
    (cqo_cqes (cq_off ps) + size_of (repr_C CompletionEntry_fields) * cq_entries ps) p e.

Lemma map_at base fd off len F p : mapped_at base → holds F p →
  wp (MappedMemory_map fd off len) (λ r p', kern p' = kern p ∧
    match r with
    | Ok mm => mm = {| mm_addr := base off; mm_len := len |} ∧ holds (res_app (mapping mm) F) p'
    | Err e => holds F p' ∧ mmap_fails fd off len p e
    end) p.
Proof.
  intros Hat Hp. pose proof (map_acquires fd off len ([], []) F p) as Ha.
  rewrite res_app_nil_l in Ha. specialize (Ha Hp). revert Ha.
  unfold wp, MappedMemory_map, mbind, M_bind. 
  specialize (Hat 0 len (Z.lor PROT_READ PROT_WRITE) (Z.lor MAP_SHARED MAP_POPULATE) fd off p).
  destruct (mmap_spec 0 len (Z.lor PROT_READ PROT_WRITE) (Z.lor MAP_SHARED MAP_POPULATE) fd off p)
    as (r & p1 & Hrun & _ & Hk & _). rewrite Hrun in *. simpl in Hat.
  destruct (decide (r = MAP_FAILED)) as [->|Hne].
  - unfold last_os_error, mbind, M_bind. destruct (errno_spec p1) as [err He]. rewrite He.
    intros Hp1. split; [done|]. split; [done|]. by exists p1, err, p1.
  - destruct Hat as [?|[= ->]]; [congruence|]. simpl. rewrite res_app_nil_r. done.
Qed.

Lemma wp_releases P d F p (Q : unit → Proc → Prop) :
  releases P d → holds (res_app P F) p →
  (∀ p', holds F p' → Q tt p') → wp d Q p.
Proof. intros Hd Hp HQ. destruct (Hd _ _ Hp) as (p' & Hrun & Hp'). unfold wp. rewrite Hrun. auto. Qed.
Lemma wp_get_field mm off (Q : Z → Proc → Prop) p :
  mm_addr mm + off < 2 ^ 64 → Q (mm_addr mm + off) p → wp (embed (get_field mm off)) Q p.
Proof. intros Ho HQ. rewrite get_field_ok by done. done. Qed.

Lemma check_ring_ok n mask (Q : unit → Proc → Prop) p :
  mask_ok mask → n = entries mask → Q tt p → wp (check_ring n n mask) Q p.
Proof.
  intros (j & Hj & ->) -> HQ. unfold entries, check_ring, sub_u.
  replace (2 ^ j - 1 + 1) with (2 ^ j) by lia.
  assert (is_power_of_two (2 ^ j) = true) as Hp.
  { unfold is_power_of_two. pose proof (Z.pow_pos_nonneg 2 j).
    rewrite (proj2 (Z.ltb_lt _ _)) by lia. apply Z.eqb_eq.
    replace (2 ^ j - 1) with (Z.ones j) by (rewrite Z.ones_equiv; lia).
    rewrite Z.land_ones, Z.mod_same by lia. done. }
  rewrite Z.eqb_refl, Hp, (proj2 (Z.leb_le _ _)) by (pose proof (Z.pow_pos_nonneg 2 j); lia).
  unfold wp, mbind, M_bind. simpl. by rewrite Z.eqb_refl.
Qed.

Lemma store_array base ps k i v :
  ready base ps k → 0 ≤ i < entries (g_sq_mask (geo k)) →
  wp (store (array_addr_of (geo k) i) v)
    (λ _ k', k' = set_u32s <[array_addr_of (geo k) i := v]> k ∧ prep k k') k.
Proof.
  intros Hr Hi. pose proof (rd_quiet _ _ _ Hr) as Hq. pose proof (qs_geo _ Hq) as Hw.
  unfold wp, store. destruct (rd_array _ _ _ Hr i Hi) as [x ->]. split; [done|].
  constructor; simpl; try done.
  - destruct Hq as [? ? ? (h & Hh & Ht) ?]. constructor; simpl; try done.
    + exists h. by rewrite !lookup_insert_ne by geo_ne.
    + by rewrite lookup_insert_ne by geo_ne.
  - intros a _ Ha. rewrite lookup_insert_ne; [done|]. apply not_eq_sym. auto.
  - intros j Hj Hs. destruct (decide (array_addr_of (geo k) i = array_addr_of (geo k) j)) as [->|].
    + rewrite lookup_insert_eq. eauto.
    + by rewrite lookup_insert_ne.
Qed.

(** The loop [for i in 0..ring_entries { array\[i\] = i }]. *)
Lemma init_array base ps g n i0 p :
  ready base ps (kern p) → geo (kern p) = g → 0 ≤ i0 →
  i0 + Z.of_nat n ≤ entries (g_sq_mask g) →
  (∀ i, 0 ≤ i < i0 → u32s (kern p) !! array_addr_of g i = Some i) →
  wp (for_range i0 n (λ i, on_kern (store (g_array g + size_of u32 * i) i)))
    (λ _ p', maps p' = maps p ∧ fds p' = fds p ∧ prep (kern p) (kern p') ∧
      ∀ i, 0 ≤ i < i0 + Z.of_nat n → u32s (kern p') !! array_addr_of g i = Some i) p.
Proof.
  revert i0 p. induction n as [|n IH]; intros i0 p Hr Hg Hi Hn Hdone; cbn [for_range].
  { apply wp_ret. split_and!; try done; [|intros i Hlt; apply Hdone; lia].
    constructor; try done. apply Hr. }
  rewrite wp_bind. unfold on_kern at 1. rewrite wp_zoom.
  assert (0 ≤ i0 < entries (g_sq_mask (geo (kern p)))) as Hi0 by (rewrite Hg; lia).
  pose proof (store_array _ _ _ i0 i0 Hr Hi0) as Hst. rewrite Hg in Hst.
  eapply wp_mono; [exact Hst|]. intros [] k1 [Hk1 Hp1]. simpl.
  eapply wp_mono; [apply (IH (i0 + 1) (set_kern k1 p))|].
  - by eapply prep_ready.
  - simpl. rewrite (pr_geo _ _ Hp1). done.
  - lia.
  - lia.
  - intros i Hlt. simpl. rewrite Hk1. simpl. destruct (decide (i = i0)) as [->|].
    + apply lookup_insert_eq.
    + rewrite lookup_insert_ne by (unfold array_addr_of, size_of; simpl; lia). apply Hdone. lia.
  - intros [] p' (Hm & Hf & Hp & Hall). simpl in *. split_and!; try done; [by eapply prep_trans|].
    intros i Hlt. apply Hall. lia.
Qed.

(** [ready] with the positions and the values of the counters named. *)
Definition ready_at (base : Z → Z) (ps : SetupParameters) (g : Geometry) (h c : Z) (k : Kern)
    : Prop :=
  ready base ps k ∧ geo k = g ∧
  u32s k !! g_sq_head g = Some h ∧ u32s k !! g_sq_tail g = Some h ∧
  u32s k !! g_cq_head g = Some c ∧ u32s k !! g_cq_tail g = Some c.

Lemma ready_at_prep base ps g h c k k' :
  ready_at base ps g h c k → prep k k' → ready_at base ps g h c k'.
Proof.
  intros (Hr & <- & H1 & H2 & H3 & H4) Hp. pose proof (qs_geo _ (rd_quiet _ _ _ Hr)) as Hw.
  assert (∀ a, a ∈ counters (geo k) → a ≠ g_sq_flags (geo k) → u32s k' !! a = u32s k !! a) as Hcnt.
  { intros a Hin Hne. apply Hp; [done|]. intros i Hi. apply not_eq_sym.
    by apply array_not_counter. }
  split; [by eapply prep_ready|]. split; [apply Hp|].
  split_and!; (rewrite Hcnt; [done|by in_counters|geo_ne]).
Qed.
Lemma ready_at_intro base ps k : ready base ps k → ∃ h c,
  in_u 32 h ∧ in_u 32 c ∧ ready_at base ps (geo k) h c k.
Proof.
  intros Hr. destruct (rd_head _ _ _ Hr) as (h & ? & Hh), (rd_chead _ _ _ Hr) as (c & ? & ? & ?).
  destruct (qs_sq _ (rd_quiet _ _ _ Hr)) as (h' & ? & ?). simplify_eq.
  exists h, c. done.
Qed.

(** A cell whose value stays, at an address [get_field] reaches. *)
Definition cell (g : Geometry) (k : Kern) (a v : Z) : Prop :=
  u32s k !! a = Some v ∧ a ≠ g_sq_flags g ∧ a < 2 ^ 64.

Lemma sq_cells base ps g h c k (f := λ off, base SUBMISSION_QUEUE_RING_OFFSET + off) :
  ready_at base ps g h c k →
  cell g k (f (sqo_head (sq_off ps))) h ∧ cell g k (f (sqo_tail (sq_off ps))) h ∧
  cell g k (f (sqo_ring_mask (sq_off ps))) (g_sq_mask g) ∧
  cell g k (f (sqo_ring_entries (sq_off ps))) (sq_entries ps).
Proof.
  intros (Hr & <- & C1 & C2 & _). pose proof (qs_geo _ (rd_quiet _ _ _ Hr)) as Hw.
  destruct (rd_sq _ _ _ Hr) as (E1 & E2 & _), (rd_bounds _ _ _ Hr) as [Hb _].
  pose proof (rd_consts _ _ _ Hr) as Hc. rewrite !List.Forall_cons_iff in Hb, Hc. simpl in Hc.
  unfold cell, f. rewrite E1, E2 in Hb |- *. destruct_and!. split_and!; done || geo_ne.
Qed.
Lemma cq_cells base ps g h c k (f := λ off, base COMPLETION_QUEUE_RING_OFFSET + off) :
  ready_at base ps g h c k →
  cell g k (f (cqo_head (cq_off ps))) c ∧ cell g k (f (cqo_tail (cq_off ps))) c ∧
  cell g k (f (cqo_ring_mask (cq_off ps))) (g_cq_mask g) ∧
  cell g k (f (cqo_ring_entries (cq_off ps))) (cq_entries ps).
Proof.
  intros (Hr & <- & _ & _ & C1 & C2). pose proof (qs_geo _ (rd_quiet _ _ _ Hr)) as Hw.
  destruct (rd_cq _ _ _ Hr) as (E1 & E2 & _), (rd_bounds _ _ _ Hr) as [_ Hb].
  pose proof (rd_consts _ _ _ Hr) as Hc. rewrite !List.Forall_cons_iff in Hb, Hc. simpl in Hc.
  unfold cell, f. rewrite E1, E2 in Hb |- *. destruct_and!. split_and!; done || geo_ne.
Qed.

(** [let p = mmap.get_field(off); let v = *p;] *)
Lemma field_load {X} base ps g h c mm off v p (K : Z → Z → M Proc X) Q :
  ready_at base ps g h c (kern p) → cell g (kern p) (mm_addr mm + off) v →
  (∀ k, ready_at base ps g h c k → same_but_flags (kern p) k →
    wp (K (mm_addr mm + off) v) Q (set_kern k p)) →
  wp (a ← embed (get_field mm off); x ← on_kern (load a); K a x) Q p.
Proof.
  intros Hr (Hv & Hne & Ho) HQ. rewrite wp_bind, get_field_ok by done. unfold wp at 1. simpl.
  rewrite wp_bind. unfold on_kern. rewrite wp_zoom.
  pose proof (proj1 Hr) as Hr'. pose proof (proj1 (proj2 Hr)) as Hg. rewrite <-Hg in Hne.
  eapply wp_mono; [by apply (load_ready base ps _ _ v)|].
  intros r k (-> & Hp & Hs). apply HQ; [by eapply ready_at_prep|done].
Qed.
Lemma field_only {X} mm off p (K : Z → M Proc X) Q :
  mm_addr mm + off < 2 ^ 64 → wp (K (mm_addr mm + off)) Q p →
  wp (a ← embed (get_field mm off); K a) Q p.
Proof. intros Ho HQ. rewrite wp_bind, get_field_ok by done. done. Qed.

(** On such memory queue objects of the right geometry represent empty rings. *)
Lemma ready_sq_rep base ps g h c k q :
  ready_at base ps g h c k → in_u 32 h →
  (∀ i, 0 ≤ i < entries (g_sq_mask g) → u32s k !! array_addr_of g i = Some i) →
  sq_k_head q = g_sq_head g → sq_k_tail q = g_sq_tail g → k_flags q = g_sq_flags g →
  k_dropped q = g_sq_dropped g → sces q = g_sces g → sq_ring_mask q = g_sq_mask g →
  cached_head q = h → local_tail q = h → sq_rep q k [] 0.
Proof.
  intros (Hr & <- & C1 & C2 & _) Hh Harr ?????? Hch Hlt. destruct Hr as [[]].
  constructor; try done; try congruence.
  exists h, h. rewrite Hch, Hlt, dist_refl.
  pose proof (entries_pos _ (geo_sq_mask _ qs_geo0)).
  split_and!; try done; [lia|apply ring_rep_nil].
Qed.
Lemma ready_cq_rep base ps g h c k q :
  ready_at base ps g h c k → in_u 32 c →
  cq_k_head q = g_cq_head g → cq_k_tail q = g_cq_tail g → k_overflow q = g_cq_overflow g →
  k_cqes q = g_cqes g → cq_ring_mask q = g_cq_mask g →
  local_head q = c → cached_tail q = c → cq_rep q k [] 0 (cq_entries ps).
Proof.
  intros (Hr & <- & _ & _ & C1 & C2) Hh ????? Hch Hlt. destruct Hr as [[]].
  destruct rd_sizes0 as [_ Hsz]. constructor; try done; try congruence.
  { intros h' Hh'. rewrite C1 in Hh'. rewrite Hch. injection Hh' as <-. apply dist_refl. }
  exists c, c. rewrite Hch, Hlt, dist_refl.
  pose proof (entries_pos _ (geo_cq_mask _ qs_geo0)).
  split_and!; try done; [lia|apply ring_rep_nil].
Qed.

Lemma sq_new_ready base ps g h c fd F p :
  mapped_at base → holds F p → in_u 32 h → ready_at base ps g h c (kern p) →
  wp (SubmissionQueue_new fd (sq_off ps) (sq_entries ps))
    (λ r p', match r with
      | Ok q => holds (res_app (sq_mappings q) F) p' ∧ ready_at base ps g h c (kern p') ∧
                sq_rep q (kern p') [] 0
      | Err e => holds F p' ∧ sq_fails fd ps p e
      end) p.
Proof.
  intros Hat Hp Hh Hr. unfold SubmissionQueue_new.
  rewrite wp_try_bind. eapply wp_mono; [by apply wp_saw, map_at|]. intros [mm|e] p1 (Hrun1 & Hk1 & Hres);
    rewrite <-Hk1 in Hr; [|by destruct Hres; split; [|left]]. destruct Hres as [Hmm Hp1].
  rewrite wp_drop_on_failure, wp_try_bind. eapply wp_mono; [by apply map_at|].
  intros [mme|e] p2 [Hk2 Hres]; rewrite <-Hk2 in Hr.
  2: { destruct Hres as [Hres Hfail]. eapply wp_releases; [apply drop_releases|exact Hres|].
       intros p' Hp'. split; [done|]. right. by exists mm, p1. }
  destruct Hres as [Hmme Hp2]. rewrite wp_drop_on_failure.
  apply (field_load base ps g h c _ _ h); [done|rewrite Hmm; by pose proof (sq_cells _ _ _ _ _ _ Hr); tauto|].
  intros k1 Hr1 _.
  apply (field_load base ps g h c _ _ h); [done|rewrite Hmm; by pose proof (sq_cells _ _ _ _ _ _ Hr1); tauto|].
  intros k2 Hr2 _.
  apply (field_load base ps g h c _ _ (g_sq_mask g)); [done|rewrite Hmm; by pose proof (sq_cells _ _ _ _ _ _ Hr2); tauto|].
  intros k3 Hr3 _.
  apply (field_load base ps g h c _ _ (sq_entries ps)); [done|rewrite Hmm; by pose proof (sq_cells _ _ _ _ _ _ Hr3); tauto|].
  intros k4 Hr4 _.
  pose proof Hr4 as ([_ (E1 & E2 & E3 & E4 & E5 & E6) _ [Hb _] [Hs _] _ _ _ [d Hd] _ _ Hsl] & Hg & C1 & C2 & _).
  rewrite !List.Forall_cons_iff in Hb. destruct_and!. rewrite Hg in *.
  do 3 (apply field_only; [by rewrite Hmm|]). rewrite wp_bind.
  assert (geo_wf g) as Hw by (rewrite <-Hg; apply Hr4).
  assert (mask_ok (g_sq_mask g)) as Hmask by apply Hw.
  apply (check_ring_ok _ _ _ _ Hmask); [done|].
  rewrite wp_bind, Hmm. simpl. rewrite E5.
  eapply wp_mono; [apply (init_array base ps g)|].
  - simpl. apply Hr4.
  - done.
  - done.
  - pose proof (entries_pos _ Hmask). lia.
  - lia.
  - intros [] p3 (Hm3 & Hf3 & Hp3 & Harr). unfold wp. simpl in *.
    pose proof (ready_at_prep _ _ _ _ _ _ _ Hr4 Hp3) as Hr'. split_and!; [|done|].
    + rewrite Hmm in Hp2. destruct Hp2 as [Hm2 Hf2]. split; [rewrite Hm3, Hm2|rewrite Hf3, Hf2];
        unfold sq_mappings; simpl; solve_Permutation.
    + eapply ready_sq_rep; try done; simpl; try congruence; [|by rewrite Hmme].
      intros i Hi. apply Harr. lia.
Qed.

Lemma cq_new_ready base ps g h c fd F p :
  mapped_at base → holds F p → in_u 32 c → ready_at base ps g h c (kern p) →
  wp (CompletionQueue_new fd (cq_off ps) (cq_entries ps))
    (λ r p', match r with
      | Ok q => holds (res_app (cq_mappings q) F) p' ∧ ready_at base ps g h c (kern p') ∧
                same_but_flags (kern p) (kern p') ∧ cq_rep q (kern p') [] 0 (cq_entries ps)
      | Err e => holds F p' ∧ cq_fails fd ps p e
      end) p.
Proof.
  intros Hat Hp Hh Hr. unfold CompletionQueue_new.
  rewrite wp_try_bind. eapply wp_mono; [by apply map_at|]. intros [mm|e] p1 [Hk1 Hres];
    rewrite <-Hk1 in Hr; [|done]. destruct Hres as [Hmm Hp1].
  rewrite wp_drop_on_failure, <-Hk1.
  apply (field_load base ps g h c _ _ c);
    [done|rewrite Hmm; by pose proof (cq_cells _ _ _ _ _ _ Hr); tauto|].
  intros k1 Hr1 Hs1.
  apply (field_load base ps g h c _ _ c);
    [done|rewrite Hmm; by pose proof (cq_cells _ _ _ _ _ _ Hr1); tauto|].
  intros k2 Hr2 Hs2.
  apply (field_load base ps g h c _ _ (g_cq_mask g));
    [done|rewrite Hmm; by pose proof (cq_cells _ _ _ _ _ _ Hr2); tauto|].
  intros k3 Hr3 Hs3.
  apply (field_load base ps g h c _ _ (cq_entries ps));
    [done|rewrite Hmm; by pose proof (cq_cells _ _ _ _ _ _ Hr3); tauto|].
  intros k4 Hr4 Hs4.
  pose proof Hr4 as ([Hq _ (E1 & E2 & E3 & E4) [_ Hb] [_ Hs] _ _ _ _ _ _ _] & Hg & _).
  rewrite !List.Forall_cons_iff in Hb. destruct_and!. rewrite Hg in *.
  do 2 (apply field_only; [by rewrite Hmm|]). rewrite wp_bind.
  assert (mask_ok (g_cq_mask g)) as Hmask by (rewrite <-Hg; apply Hq).
  apply (check_ring_ok _ _ _ _ Hmask); [done|].
  unfold wp. simpl in *. split_and!; [exact Hp1|done| |].
  - by repeat (etrans; [eassumption|]).
  - eapply ready_cq_rep; try done; simpl; rewrite Hmm; done.
Qed.

Lemma sq_rep_same base ps g h c q k k' st pub :
  sq_rep q k st pub → same_but_flags k k' → ready_at base ps g h c k' → sq_rep q k' st pub.
Proof.
  intros Hq [Hg Hs _ Hu] (Hr & <- & _). pose proof (sqr_geo _ _ _ _ Hq) as Hw.
  pose proof (qs_flags _ (rd_quiet _ _ _ Hr)). rewrite Hg in *.
  eapply sq_rep_frame; try done.
  - intros a [->|[->|(i & Hi & ->)]]; apply Hu; geo_ne.
  - rewrite Hu by geo_ne. apply Hq.
Qed.

(** Setting up the ring from [p] or, once its file was there, a mapping of it
    fails with the error [e]. *)
Definition uring_fails (n : Z) (params : SetupParameters) (p : Proc) (e : io_error) : Prop :=
  ∃ r ps p1, syscall_setup SYS_io_uring_setup n params p = (Done (r, ps), p1) ∧
    if as_i32 r <? 0 then ∃ err p2, errno p1 = (Done err, p2) ∧ e = Os err
    else sq_fails (as_i32 r) ps p1 e ∨
      ∃ q p2, SubmissionQueue_new (as_i32 r) (sq_off ps) (sq_entries ps) p1 = (Done (Ok q), p2) ∧
        cq_fails (as_i32 r) ps p2 e.

Lemma Uring_new_spec base n params p : mapped_at base →
  (∀ r ps p1, syscall_setup SYS_io_uring_setup n params p = (Done (r, ps), p1) →
    0 ≤ as_i32 r → ready base ps (kern p1)) →
  wp (Uring_new n params) (λ r p', match r with
    | Ok u => fresh (mkSys (u_sq u) (u_cq u) (kern p') [] []) ∧
        ∃ r ps p1, syscall_setup SYS_io_uring_setup n params p = (Done (r, ps), p1) ∧ 0 ≤ as_i32 r ∧
          entries (cq_ring_mask (u_cq u)) = cq_entries ps
    | Err e => holds (maps p, fds p) p' ∧ uring_fails n params p e end) p.
Proof.
  intros Hat Hready. unfold Uring_new. rewrite wp_try_bind. unfold UringFile_new, io_uring_setup.
  destruct (setup_spec SYS_io_uring_setup n params p) as (r & ps & p1 & Hrun & Hm & _ & Hf).
  specialize (Hready _ _ _ Hrun). rewrite !wp_bind. unfold wp at 1. rewrite Hrun. simpl.
  apply wp_ret. destruct (Z.ltb_spec (as_i32 r) 0) as [Hneg|Hpos]; simpl.
  { rewrite (proj2 (Z.leb_gt _ _)) in Hf by done. unfold last_os_error, wp, mbind, M_bind.
    destruct (errno_spec p1) as [e He]. rewrite He. simpl.
    split; [split; simpl; [by rewrite Hm|by rewrite Hf]|].
    exists r, ps, p1. split; [done|]. rewrite (proj2 (Z.ltb_lt _ _)) by done. by eexists _, _. }
  rewrite (proj2 (Z.leb_le _ _)) in Hf by done. apply wp_ret. specialize (Hready Hpos).
  destruct (ready_at_intro _ _ _ Hready) as (h & c & Hh & Hc & Hr).
  set (F := res_app ([], [as_i32 r]) (maps p, fds p)).
  assert (holds F p1) as HF by (split; simpl; [by rewrite Hm|by rewrite Hf]).
  assert (∀ e, (sq_fails (as_i32 r) ps p1 e ∨
    ∃ q p2, SubmissionQueue_new (as_i32 r) (sq_off ps) (sq_entries ps) p1 = (Done (Ok q), p2) ∧
      cq_fails (as_i32 r) ps p2 e) → uring_fails n params p e) as Hfails.
  { intros e Hfail. exists r, ps, p1. split; [done|]. by rewrite (proj2 (Z.ltb_ge _ _)). }
  rewrite wp_drop_on_failure, wp_try_bind. simpl.
  eapply wp_mono; [by apply wp_saw, (sq_new_ready base ps (geo (kern p1)) h c _ F)|].
  intros [q|e] p2 [Hrun2 Hres]; simpl in *.
  2: { destruct Hres as [Hres Hfail]. eapply wp_releases; [apply close_releases|exact Hres|].
       intros p' Hp'. split; [done|]. apply Hfails. by left. }
  destruct Hres as (HF2 & Hr2 & Hq). rewrite wp_drop_on_failure, wp_try_bind.
  eapply wp_mono; [by apply (cq_new_ready base ps (geo (kern p1)) h c _ (res_app (sq_mappings q) F))|]. intros [cq|e] p3 Hres; simpl in *.
  2: { destruct Hres as [Hres Hfail]. eapply wp_releases; [apply sq_drop_releases|exact Hres|]. intros p4 Hp4.
       eapply wp_releases; [apply close_releases|exact Hp4|]. intros p5 Hp5. split; [done|].
       apply Hfails. right. by exists q, p2. }
  destruct Hres as (_ & Hr3 & Hs & Hcq). unfold wp. simpl.
  pose proof Hr3 as ([[? Hfly Hlog]] & _).
  split; [|exists r, ps, p1; rewrite (cqr_mask _ _ _ _ _ Hcq); by split_and!; [..|apply Hcq]].
  split; [|done]. exists (klog (kern p3)), (cq_entries ps). split; [|done].
  split; simpl; try done. by eapply sq_rep_same.
Qed.

(** C33: on the memory [io_uring_setup] prepares, [Uring::new] runs to its end
    without panicking (the assertions on the ring constants hold) or leaving
    the mapped memory, in every build; it returns an error only when
    [io_uring_setup] or a mapping of the ring fails, the error of that call, with
    nothing left behind, and otherwise two queues that represent the empty rings
    on which every guarantee of the queue operations rests, the index array
    initialised to the identity. *)
Theorem Uring_new_yields_fresh_rings base n params p
    (Hat : mapped_at base)
    (Hready : ∀ r ps p1, syscall_setup SYS_io_uring_setup n params p = (Done (r, ps), p1) →
      0 ≤ as_i32 r → ready base ps (kern p1)) :
  ∃ r p', Uring_new n params p = (Done r, p') ∧
    match r with
    | Ok u => fresh (mkSys (u_sq u) (u_cq u) (kern p') [] [])
    | Err e => maps p' ≡ₚ maps p ∧ fds p' ≡ₚ fds p ∧ uring_fails n params p e
    end.
Proof.
  pose proof (Uring_new_spec base n params p Hat Hready) as Hw.
  apply wp_run in Hw as (r & p' & ? & Hr). exists r, p'. split; [done|]. destruct r; [apply Hr|]. by destruct Hr as [[] ?].
Qed.
End constructors.

(** ** A concrete operating system *)

Definition demo_params : SetupParameters := {|
  sq_entries := 2; cq_entries := 2; setup_flags := 0; sq_thread_cpu := 0; sq_thread_idle := 0;
  sq_off := {| sqo_head := 0; sqo_tail := 64; sqo_ring_mask := 80; sqo_ring_entries := 84;
               sqo_flags := 72; sqo_dropped := 76; sqo_array := 256 |};
  cq_off := {| cqo_head := 0; cqo_tail := 64; cqo_ring_mask := 80; cqo_ring_entries := 84;
               cqo_overflow := 72; cqo_cqes := 128 |} |}.
Definition demo_base (off : Z) : Z :=
  if off =? SUBMISSION_QUEUE_RING_OFFSET then 64
  else if off =? COMPLETION_QUEUE_RING_OFFSET then 8192 else 4096.
Definition demo_failed : Z := 2 ^ 64 - 1.
Fixpoint drop_one {X} `{EqDecision X} (x : X) (l : list X) : list X :=
  match l with [] => [] | y :: l => if decide (x = y) then l else y :: drop_one x l end.
Definition demo_maps (ms : list (Z * Z)) (p : Proc) : Proc :=
  {| kern := kern p; maps := ms; fds := fds p |}.
Definition demo_fds (fs : list Z) (p : Proc) : Proc :=
  {| kern := kern p; maps := maps p; fds := fs |}.

(** Rings of two entries; [limit] mappings at most. *)
Definition demo_libc (limit : nat) : Libc Proc := {|
  syscall := λ _ _ p, (Done 0, p);
  syscall_setup := λ _ _ _ p, (Done (3, demo_params), demo_fds (3 :: fds p) p);
  errno := λ p, (Done 12, p);
  mmap := λ _ len _ _ _ off p,
    if decide (len = 0 ∨ 2 ^ 64 < demo_base off + len ∨ (limit ≤ length (maps p))%nat)
    then (Done demo_failed, p)
    else (Done (demo_base off), demo_maps ((demo_base off, len) :: maps p) p);
  munmap := λ a len p, (Done 0, demo_maps (drop_one (a, len) (maps p)) p);
  close := λ fd p, (Done tt, demo_fds (drop_one fd (fds p)) p);
  sizeof_sigset_t := 128;
  PROT_READ := 1; PROT_WRITE := 2; MAP_SHARED := 1; MAP_POPULATE := 32768;
  MAP_FAILED := demo_failed |}.

Lemma drop_one_spec {X} `{EqDecision X} (x : X) l : x ∈ l → l ≡ₚ x :: drop_one x l.
Proof.
  induction l as [|y l IH]; [by intros ?%not_elem_of_nil|]. simpl. intros Hx.
  case_decide as Hd; [by subst|]. apply elem_of_cons in Hx as [|Hx]; [done|].
  rewrite (IH Hx) at 1. apply Permutation_swap.
Qed.

Lemma demo_base_range off : 64 ≤ demo_base off ≤ 8192.
Proof. unfold demo_base. repeat case_match; lia. Qed.

Lemma demo_libc_ok limit : LibcOk (demo_libc limit).
Proof.
  split; simpl.
  - intros n e ps p. by exists 3, demo_params, (demo_fds (3 :: fds p) p).
  - intros p. by exists 12.
  - intros a len prot fl fd off p. pose proof (demo_base_range off).
    unfold demo_failed. case_decide as Hd.
    + exists (2 ^ 64 - 1), p. rewrite decide_True by done. naive_solver.
    + exists (demo_base off), (demo_maps ((demo_base off, len) :: maps p) p).
      rewrite decide_False by lia. split_and!; try done; try lia; tauto.
  - intros a len p Hin. eexists. split_and!; [done..|]. by apply drop_one_spec.
  - intros fd p Hin. eexists. split_and!; [done..|]. by apply drop_one_spec.
Qed.

Definition demo_proc : Proc := {| kern := demo_kern 7; maps := []; fds := [] |}.
Lemma demo_ready : ready demo_base demo_params (demo_kern 7).
Proof.
  assert (∀ i : Z, 0 ≤ i < 2 → i = 0 ∨ i = 1) as Hi by lia.
  assert (geo_wf demo_geo) as Hw by apply demo_geo_wf.
  constructor; try done; try (by eexists).
  - constructor; try done; by eexists.
  - split; repeat constructor.
  - repeat (apply List.Forall_cons;
      [split_and!; [done|done|by intros i [-> | ->]%Hi]|]). done.
  - by exists 7.
  - by exists 7.
  - by intros i [-> | ->]%Hi; eexists.
  - by intros i [-> | ->]%Hi; eexists.
Qed.

Lemma demo_mapped_at limit : @mapped_at (demo_libc limit) demo_base.
Proof. intros a len prot fl fd off p. simpl. case_decide; [by left|by right]. Qed.

Definition demo_new (limit : nat) : outcome (result Uring io_error) * Proc :=
  @Uring_new quiet (demo_libc limit) release_build 2 demo_params demo_proc.

(** With room for three mappings a ring is made; with room for two, the error
    path gives the two back. *)
Example demo_new_runs :
  (maps (demo_new 3).2, fds (demo_new 3).2) = ([(8192, 160); (4096, 128); (64, 264)], [3]) ∧
  (demo_new 2).1 = Done (Err (Os 12)) ∧ maps (demo_new 2).2 = [] ∧ fds (demo_new 2).2 = [].
Proof. vm_compute. repeat split. Qed.

Lemma Uring_new_owns_its_resources_witness :
  maps (demo_new 2).2 ≡ₚ [] ∧ fds (demo_new 2).2 ≡ₚ [].
Proof.
  pose proof (@Uring_new_owns_its_resources quiet (demo_libc 2) (demo_libc_ok 2) release_build
    2 demo_params demo_proc) as Hw.
  fold (demo_new 2) in Hw. destruct (demo_new 2) as [o p] eqn:Hr. revert Hw.
  assert (o = Done (Err (Os 12))) as -> by (apply (f_equal fst) in Hr; vm_compute in Hr; congruence).
  exact id.
Defined.

Lemma Uring_new_slots_in_bounds_witness : ∃ u p', demo_new 3 = (Done (Ok u), p') ∧
  slot_addr (u_sq u) (2 ^ 32 - 1) + 64 ≤ 4096 + 128.
Proof.
  destruct (demo_new 3) as [[[u|e]| | |] p'] eqn:Hr; try by vm_compute in Hr.
  exists u, p'. split; [reflexivity|].
  pose proof (@Uring_new_slots_in_bounds quiet (demo_libc 3) (demo_libc_ok 3) release_build
    2 demo_params demo_proc u p' (2 ^ 32 - 1) Hr) as [[_ Hb] _].
  assert (mm_addr (sq_mmap_entries (u_sq u)) = 4096 ∧ mm_len (sq_mmap_entries (u_sq u)) = 128)
    as [Ha Hl] by (vm_compute in Hr; injection Hr as <- _; split; reflexivity).
  rewrite Ha, Hl in Hb. exact Hb.
Defined.

Lemma Uring_new_yields_fresh_rings_witness : ∃ u p', demo_new 3 = (Done (Ok u), p') ∧
  fresh (mkSys (u_sq u) (u_cq u) (kern p') [] []).
Proof.
  destruct (@Uring_new_yields_fresh_rings quiet quiet_ok (demo_libc 3) (demo_libc_ok 3)
    release_build demo_base 2 demo_params demo_proc (demo_mapped_at 3)) as (r & p' & Hr & Hf).
  - intros r ps p1 [= <- <- <-] _. exact demo_ready.
  - destruct r as [u|e]; [exists u, p'; split; [exact Hr|exact Hf]|]. exfalso.
    assert ((demo_new 3).1 = Done (Err e)) as Hx by (unfold demo_new; by rewrite Hr).
    vm_compute in Hx. discriminate Hx.
Defined.
