(* ===== verification/Registration.v ===== *)
(** * [tokio-uring-reactor/src/registration.rs]: one pending operation

    A [Registration] is the future's side of an operation, a [RawRegistration]
    the reactor's; both point to one reference-counted [Inner].  The raw side
    travels through the kernel as the [user_data] of a submission, so between
    submission and completion it exists only as a number. *)

From S2P Require Import Prelude Std.

Local Open Scope Z_scope.
Local Open Scope rust_scope.

Record UringResult : Type := { result_code : Z; result_flags : Z }.
Definition UringResult_default : UringResult := {| result_code := 0; result_flags := 0 |}.

#[export] Instance UringResult_eq_dec : EqDecision UringResult.
Proof. solve_decision. Defined.

(** [CompatWaker]; tasks and wakers are identities. *)
Inductive CompatWaker : Type :=
| Empty
| Old (task : Z)
| New (waker : Z).

#[export] Instance CompatWaker_eq_dec : EqDecision CompatWaker.
Proof. solve_decision. Defined.

(** [Inner]; [D] is [Box<dyn Any>]. *)
Record Inner (D : Type) : Type := mkInner {
  result_ : UringResult;
  finished : bool;
  waker_ : CompatWaker;
  data : option D }.
Arguments mkInner {D}.
Arguments result_ {D}.
Arguments finished {D}.
Arguments waker_ {D}.
Arguments data {D}.

Definition Inner_default {D} : Inner D := mkInner UringResult_default false Empty None.

(** A type whose values are boxed as [D]: [Box::new(x) as Box<dyn Any>] and
    [downcast]. *)
Class Boxed (T D : Type) := { box : T → D; downcast : D → option T }.
Class BoxedOk {T D} (B : Boxed T D) : Prop := downcast_box x : downcast (box x) = Some x.

(** An [Rc] allocation: the strong count and the value. *)
Record RcBox (D : Type) : Type := mkRc { strong : nat; value : Inner D }.
Arguments mkRc {D}.
Arguments strong {D}.
Arguments value {D}.

(** The allocations by the address [Rc::into_raw] gives, the task the
    executor is polling, and the wake-ups so far. *)
Record Heap (D : Type) : Type := mkHeap {
  cells : gmap Z (RcBox D); task : option Z; woken : list CompatWaker }.
Arguments mkHeap {D}.
Arguments cells {D}.
Arguments task {D}.
Arguments woken {D}.

(** The allocator picks the address of a new [Rc]: not in use, not null, and
    even, an [Inner] being aligned to more than a byte. *)
Class Alloc (D : Type) := alloc : gmap Z (RcBox D) → Z.
Class AllocOk {D} (A : Alloc D) : Prop := {
  alloc_fresh h : h !! alloc h = None;
  alloc_valid h : alloc h ≠ 0 ∧ Z.land (alloc h) 1 = 0 }.

Section registration.
Context {D : Type} `{!Alloc D}.

Definition set_cells (f : gmap Z (RcBox D) → gmap Z (RcBox D)) (h : Heap D) : Heap D :=
  mkHeap (f (cells h)) (task h) (woken h).
Definition set_task (t : option Z) (h : Heap D) : Heap D := mkHeap (cells h) t (woken h).
Definition wake (w : CompatWaker) (h : Heap D) : Heap D :=
  mkHeap (cells h) (task h) (woken h ++ [w])%list.

(** ** [Rc] *)

Definition rc_get (a : Z) : M (Heap D) (RcBox D) :=
  h ← gets id; deref (cells h !! a) "use of a freed registration".
Definition rc_put (a : Z) (b : RcBox D) : M (Heap D) unit := modify (set_cells <[a := b]>).
Definition inner_get (a : Z) : M (Heap D) (Inner D) := b ← rc_get a; mret (value b).
Definition inner_put (a : Z) (i : Inner D) : M (Heap D) unit :=
  b ← rc_get a; rc_put a (mkRc (strong b) i).

Definition rc_new (i : Inner D) : M (Heap D) Z :=
  a ← gets (λ h, alloc (cells h)); rc_put a (mkRc 1 i);; mret a.
Definition rc_clone (a : Z) : M (Heap D) unit :=
  b ← rc_get a; rc_put a (mkRc (S (strong b)) (value b)).
(** Dropping the last reference frees the allocation and the boxed data. *)
Definition rc_drop (a : Z) : M (Heap D) unit :=
  b ← rc_get a;
  match strong b with
  | S (S n) => rc_put a (mkRc (S n) (value b))
  | _ => modify (set_cells (delete a))
  end.
(** [Rc::try_unwrap(rc).ok()]: on failure the reference is dropped. *)
Definition rc_try_unwrap (a : Z) : M (Heap D) (option (Inner D)) :=
  b ← rc_get a;
  if decide (strong b = 1%nat) then modify (set_cells (delete a));; mret (Some (value b))
  else rc_drop a;; mret None.

(** ** [CompatWaker] *)

(** [std::mem::replace(self, Empty)], then the wake-up. *)
Definition CompatWaker_notify (a : Z) : M (Heap D) unit :=
  i ← inner_get a;
  inner_put a (mkInner (result_ i) (finished i) Empty (data i));;
  match waker_ i with
  | Empty => mret tt
  | w => modify (wake w)
  end.
Definition set_waker (a : Z) (w : CompatWaker) : M (Heap D) unit :=
  i ← inner_get a; inner_put a (mkInner (result_ i) (finished i) w (data i)).
(** [futures::task::current()] panics outside of a task. *)
Definition register_old (a : Z) : M (Heap D) unit :=
  t ← gets task; t ← expect t "no Task is currently running"; set_waker a (Old t).
Definition register_new (a : Z) (waker : Z) : M (Heap D) unit := set_waker a (New waker).

(** ** [RawRegistration]: owns one reference to the [Inner] at its address *)

Definition notify (a : Z) (result : UringResult) : M (Heap D) unit :=
  i ← inner_get a;
  assert (negb (finished i)) "assertion failed: !inner.finished";;
  inner_put a (mkInner result true (waker_ i) (data i));;
  CompatWaker_notify a.

Definition user_data_ok (a : Z) : bool := negb (a =? 0) && (Z.land a 1 =? 0).
Definition into_user_data {S} (a : Z) : M S Z :=
  assert (user_data_ok a) "assertion failed: user_data != 0 && user_data & 0x1 == 0";;
  mret a.
Definition from_user_data (data : Z) : Z := data.

(** ** [Registration<T>] *)

Section typed.
Context {T : Type} `{!Boxed T D}.

Definition Registration_new (x : T) : M (Heap D) Z :=
  rc_new (mkInner (result_ (D := D) Inner_default) (finished (D := D) Inner_default)
                  (waker_ (D := D) Inner_default) (Some (box x))).

(** [inner.data.take().expect("data").downcast::<T>().expect("type")] *)
Definition take_data (a : Z) (i : Inner D) : M (Heap D) T :=
  inner_put a (mkInner (result_ i) (finished i) (waker_ i) None);;
  d ← expect (data i) "data"; expect (downcast d) "type".

(** [poll] and [poll_async] differ in the waker they register. *)
Definition poll_with (register : M (Heap D) unit) (a : Z)
    : M (Heap D) (option (UringResult * T)) :=
  i ← inner_get a;
  match data i with
  | None => mret None
  | Some _ =>
      if finished i then
        x ← take_data a i; mret (Some (result_ i, x))
      else register;; mret None
  end.
Definition poll (a : Z) : M (Heap D) (option (UringResult * T)) := poll_with (register_old a) a.
Definition poll_async (a waker : Z) : M (Heap D) (option (UringResult * T)) :=
  poll_with (register_new a waker) a.

Definition abort (a : Z) : M (Heap D) (option T) :=
  o ← rc_try_unwrap a;
  match o with
  | None => mret None
  | Some i => d ← expect (data i) "data"; x ← expect (downcast d) "type"; mret (Some x)
  end.

(** [data_mut]: read, and write through the reference. *)
Definition data_ref (a : Z) : M (Heap D) T :=
  i ← inner_get a; d ← expect (data i) "data"; expect (downcast d) "type".
Definition data_set (a : Z) (x : T) : M (Heap D) unit :=
  i ← inner_get a; inner_put a (mkInner (result_ i) (finished i) (waker_ i) (Some (box x))).
End typed.

Definition track (a : Z) : M (Heap D) unit := register_old a.
Definition track_async (a waker : Z) : M (Heap D) unit := register_new a waker.

Definition user_data (a : Z) : M (Heap D) Z :=
  assert (user_data_ok a) "assertion failed: user_data != 0 && user_data & 0x1 == 0";;
  mret a.
Definition to_raw (a : Z) : M (Heap D) Z := rc_clone a;; mret a.

(** [poll_stream_and_reset] and its [_async] variant. *)
Definition poll_stream_with (register : M (Heap D) unit) (a : Z)
    : M (Heap D) (option UringResult) :=
  i ← inner_get a;
  if finished i then
    inner_put a (mkInner (result_ i) false (waker_ i) (data i));; mret (Some (result_ i))
  else register;; mret None.
Definition poll_stream_and_reset (a : Z) : M (Heap D) (option UringResult) :=
  poll_stream_with (register_old a) a.
Definition poll_stream_and_reset_async (a waker : Z) : M (Heap D) (option UringResult) :=
  poll_stream_with (register_new a waker) a.

(** [Debug] shows the fields [user_data], [finished] and [result]. *)
Definition Registration_fmt (a : Z) : M (Heap D) (Z * bool * UringResult) :=
  i ← inner_get a; u ← user_data a; mret (u, finished i, result_ i).
End registration.
