(* ===== verification/RegistrationProps.v ===== *)
(** * What a registration promises

    Wake-ups are not lost, the result is delivered once, and the memory lives
    exactly as long as one of the two sides refers to it. *)

From S2P Require Import Prelude Std Registration.

Local Open Scope Z_scope.
Local Open Scope rust_scope.

Section specs.
Context {D : Type} `{!Alloc D} {T : Type} `{B : !Boxed T D} `{!BoxedOk B}.
Implicit Types (h : Heap D) (i : Inner D) (a : Z).

(** The registration at [a] with [n] references. *)
Definition live a n i h : Prop := cells h !! a = Some (mkRc n i).

Definition cell_put a n i h : Heap D := set_cells <[a := mkRc n i]> h.

Lemma cell_put_twice a n i n' i' h : cell_put a n' i' (cell_put a n i h) = cell_put a n' i' h.
Proof. unfold cell_put, set_cells. simpl. by rewrite insert_insert_eq. Qed.
Lemma live_put a n i h : live a n i (cell_put a n i h).
Proof. unfold live, cell_put. simpl. by rewrite lookup_insert_eq. Qed.
Lemma cell_put_id a n i h : live a n i h → cell_put a n i h = h.
Proof. intros Hl. destruct h. unfold cell_put, set_cells. simpl. by rewrite insert_id. Qed.

(** Every operation on a live registration runs as follows. *)
Lemma run_inner_get a n i h : live a n i h → inner_get a h = (Done i, h).
Proof.
  intros Hl. unfold inner_get, rc_get, deref, gets, mbind, M_bind, id. by rewrite Hl.
Qed.
Lemma run_inner_put a n i i' h : live a n i h → inner_put a i' h = (Done tt, cell_put a n i' h).
Proof.
  intros Hl. unfold inner_put, rc_get, deref, gets, mbind, M_bind, id. by rewrite Hl.
Qed.
Definition with_waker (w : CompatWaker) i : Inner D := mkInner (result_ i) (finished i) w (data i).
Definition with_data (d : option D) i : Inner D := mkInner (result_ i) (finished i) (waker_ i) d.

Lemma run_set_waker a n i w h : live a n i h →
  set_waker a w h = (Done tt, cell_put a n (with_waker w i) h).
Proof.
  intros Hl. unfold set_waker. erewrite run_bind_done by by eapply run_inner_get.
  by eapply run_inner_put.
Qed.
Lemma run_register_old a n i t h : live a n i h → task h = Some t →
  register_old a h = (Done tt, cell_put a n (with_waker (Old t) i) h).
Proof.
  intros Hl Ht. unfold register_old, mbind, M_bind, gets. rewrite Ht. simpl. by eapply run_set_waker.
Qed.

Definition wakes (w : CompatWaker) : list CompatWaker :=
  match w with Empty => [] | w => [w] end.
Definition add_wakes (ws : list CompatWaker) h : Heap D :=
  mkHeap (cells h) (task h) (woken h ++ ws)%list.

Lemma run_notify a n i r h : live a n i h → finished i = false →
  notify a r h = (Done tt, add_wakes (wakes (waker_ i)) (cell_put a n (mkInner r true Empty (data i)) h)).
Proof.
  intros Hl Hf. unfold notify. erewrite run_bind_done by by eapply run_inner_get. rewrite Hf. simpl.
  erewrite run_bind_done by reflexivity. erewrite run_bind_done by by eapply run_inner_put.
  unfold CompatWaker_notify. erewrite run_bind_done by eapply run_inner_get, live_put.
  erewrite run_bind_done by eapply run_inner_put, live_put. rewrite cell_put_twice.
  destruct h as [cs t ws]. unfold add_wakes. by destruct i as [? ? []]; simpl; rewrite ?app_nil_r.
Qed.

(** A poll registers its waker, or delivers. *)
Lemma run_poll_pending register w a n i h (x : T) :
  live a n i h → register h = (Done tt, cell_put a n (with_waker w i) h) →
  data i = Some (box x) → finished i = false →
  poll_with (T:=T) register a h = (Done None, cell_put a n (with_waker w i) h).
Proof.
  intros Hl Hreg Hd Hf. unfold poll_with. erewrite run_bind_done by by eapply run_inner_get.
  rewrite Hd, Hf. by erewrite run_bind_done by exact Hreg.
Qed.
Lemma run_poll_ready register a n i h (x : T) :
  live a n i h → data i = Some (box x) → finished i = true →
  poll_with register a h = (Done (Some (result_ i, x)), cell_put a n (with_data None i) h).
Proof.
  intros Hl Hd Hf. unfold poll_with. erewrite run_bind_done by by eapply run_inner_get.
  rewrite Hd, Hf. unfold take_data. unfold mbind, M_bind.
  erewrite run_inner_put by done. rewrite Hd. simpl. by rewrite (downcast_box (B:=B)).
Qed.
End specs.

(** ** The life of one operation *)

(** What happens to a registration: its future is polled (by a task, or with a
    waker) or tracks without polling, the reactor notifies it. *)
Inductive rop : Type :=
| RPoll (task : Z) | RPollAsync (waker : Z) | RTrack (task : Z) | RTrackAsync (waker : Z)
| RNotify (r : UringResult).

Definition waker_of (o : rop) : CompatWaker :=
  match o with
  | RPoll t | RTrack t => Old t
  | RPollAsync w | RTrackAsync w => New w
  | RNotify _ => Empty
  end.
Definition is_poll (o : rop) : bool :=
  match o with RPoll _ | RPollAsync _ => true | _ => false end.
Definition is_notify (o : rop) : bool := match o with RNotify _ => true | _ => false end.

Section life.
Context {D : Type} `{!Alloc D} {T : Type} `{B : !Boxed T D} `{!BoxedOk B}.

(** The results of the polls, in order. *)
Definition run_rop (a : Z) (o : rop) : M (Heap D) (list (option (UringResult * T))) :=
  match o with
  | RPoll t => modify (set_task (Some t));; r ← poll a; mret [r]
  | RPollAsync w => r ← poll_async a w; mret [r]
  | RTrack t => modify (set_task (Some t));; track a;; mret []
  | RTrackAsync w => track_async a w;; mret []
  | RNotify r => notify a r;; mret []
  end.
Fixpoint run_rops (a : Z) (os : list rop) : M (Heap D) (list (option (UringResult * T))) :=
  match os with
  | [] => mret []
  | o :: os => r ← run_rop a o; rs ← run_rops a os; mret (r ++ rs)%list
  end.

Definition polls (os : list rop) : nat := length (filter (λ o, is_poll o) os).
(** The polls after the notification: the first one takes the result. *)
Definition deliver (r : UringResult) (x : T) (n : nat) : list (option (UringResult * T)) :=
  match n with O => [] | S n => Some (r, x) :: replicate n None end.
(** The waker registered last. *)
Definition last_waker (w : CompatWaker) (os : list rop) : CompatWaker :=
  fold_left (λ _ o, waker_of o) os w.

Definition waiting_on (w : CompatWaker) (x : T) : Inner D :=
  mkInner UringResult_default false w (Some (box x)).

Lemma run_rops_app a os1 os2 h :
  run_rops a (os1 ++ os2) h =
  (rs1 ← run_rops a os1; rs2 ← run_rops a os2; mret (rs1 ++ rs2)%list) h.
Proof.
  revert h. unfold mbind, M_bind, mret, M_ret.
  induction os1 as [|o os1 IH]; intros h; simpl; unfold mbind, M_bind, mret, M_ret.
  - by destruct (run_rops a os2 h) as [[] ?].
  - destruct (run_rop a o h) as [[r| | |] h1]; try reflexivity. rewrite IH.
    destruct (run_rops a os1 h1) as [[r1| | |] h2]; try reflexivity.
    destruct (run_rops a os2 h2) as [[r2| | |] h3]; try reflexivity. by rewrite app_assoc.
Qed.

(** One step before the notification. *)
Lemma run_rop_waiting a n w x o h : is_notify o = false → live a n (waiting_on w x) h →
  ∃ h', run_rop a o h = (Done (if is_poll o then [None] else []), h') ∧
    live a n (waiting_on (waker_of o) x) h' ∧ woken h' = woken h.
Proof.
  intros Hn Hl. assert (∀ t, live a n (waiting_on w x) (set_task t h)) as Hlt by done.
  destruct o as [t|wk|t|wk|r]; [| | | |done]; simpl.
  - eexists. erewrite run_bind_done by reflexivity. unfold poll.
    erewrite run_bind_done by (eapply (run_poll_pending _ (Old t) _ n _ _ x);
      [done|by eapply run_register_old|done|done]).
    split; [done|]. split; [apply live_put|done].
  - eexists. unfold poll_async.
    erewrite run_bind_done by (eapply (run_poll_pending _ (New wk) _ n _ _ x);
      [done|by eapply run_set_waker|done|done]).
    split; [done|]. split; [apply live_put|done].
  - eexists. erewrite run_bind_done by reflexivity. unfold track.
    erewrite run_bind_done by by eapply run_register_old.
    split; [done|]. split; [apply live_put|done].
  - eexists. unfold track_async.
    erewrite run_bind_done by by eapply run_set_waker.
    split; [done|]. split; [apply live_put|done].
Qed.
Lemma run_rops_waiting a n w x os h : Forall (λ o, is_notify o = false) os →
  live a n (waiting_on w x) h →
  ∃ h', run_rops a os h = (Done (replicate (polls os) None), h') ∧
    live a n (waiting_on (last_waker w os) x) h' ∧ woken h' = woken h.
Proof.
  intros Hn. revert w h. induction Hn as [|o os Ho _ IH]; intros w h Hl; [by exists h|].
  destruct (run_rop_waiting a n w x o h Ho Hl) as (h1 & Hrun & Hl1 & Hw1).
  destruct (IH _ _ Hl1) as (h2 & Hrun2 & Hl2 & Hw2). exists h2.
  split; [|split; [done|congruence]]. simpl. erewrite run_bind_done by exact Hrun.
  erewrite run_bind_done by exact Hrun2. unfold polls. rewrite filter_cons.
  by destruct (is_poll o).
Qed.

Definition finished_with (r : UringResult) (w : CompatWaker) (d : option T) : Inner D :=
  mkInner r true w (box <$> d).

(** One step after the notification. *)
Lemma run_rop_finished a n r w d o h : is_notify o = false →
  live a n (finished_with r w d) h →
  ∃ h' w', run_rop a o h =
      (Done (if is_poll o then [(λ x, (r, x)) <$> d] else []), h') ∧
    live a n (finished_with r w' (if is_poll o then None else d)) h' ∧ woken h' = woken h.
Proof.
  intros Hn Hl. assert (∀ t, live a n (finished_with r w d) (set_task t h)) as Hlt by done.
  assert (∀ h register, live a n (finished_with r w d) h → ∃ h', 
    poll_with register a h = (Done ((λ x, (r, x)) <$> d), h') ∧
    live a n (finished_with r w None) h' ∧ woken h' = woken h) as Hpoll.
  { clear h Hl Hlt. intros h register Hl. destruct d as [x|].
    - eexists. split; [exact (run_poll_ready _ _ _ _ _ x Hl eq_refl eq_refl)|]. split; [apply live_put|done].
    - exists h. split; [|done]. unfold poll_with. by erewrite run_bind_done by by eapply run_inner_get. }
  destruct o as [t|wk|t|wk|r']; [| | | |done]; simpl.
  - destruct (Hpoll (set_task (Some t) h) (register_old a) (Hlt _)) as (h' & Hrun & Hl' & Hw).
    exists h', w. erewrite run_bind_done by reflexivity. unfold poll. by erewrite run_bind_done.
  - destruct (Hpoll h (register_new a wk) Hl) as (h' & Hrun & Hl' & Hw).
    exists h', w. unfold poll_async. by erewrite run_bind_done.
  - eexists _, (Old t). erewrite run_bind_done by reflexivity. unfold track.
    erewrite run_bind_done by by eapply run_register_old.
    split; [done|]. split; [apply live_put|done].
  - eexists _, (New wk). unfold track_async.
    erewrite run_bind_done by by eapply run_set_waker.
    split; [done|]. split; [apply live_put|done].
Qed.

Lemma run_rops_finished a n r w d os h : Forall (λ o, is_notify o = false) os →
  live a n (finished_with r w d) h →
  ∃ h' w' d', run_rops a os h =
      (Done (match d with Some x => deliver r x (polls os) | None => replicate (polls os) None end), h') ∧
    live a n (finished_with r w' d') h' ∧ woken h' = woken h.
Proof.
  intros Hn. revert w d h. induction Hn as [|o os Ho _ IH]; intros w d h Hl.
  { exists h, w, d. by destruct d. }
  destruct (run_rop_finished a n r w d o h Ho Hl) as (h1 & w1 & Hrun & Hl1 & Hw1).
  destruct (IH _ _ _ Hl1) as (h2 & w2 & d2 & Hrun2 & Hl2 & Hw2). exists h2, w2, d2.
  split; [|split; [done|congruence]]. simpl. erewrite run_bind_done by exact Hrun.
  erewrite run_bind_done by exact Hrun2. unfold polls. rewrite filter_cons.
  by destruct (is_poll o), d.
Qed.

(** C16: an operation's result is delivered once and no wake-up is lost: for
    any polling and tracking before and after the reactor's notification, from
    tasks or with wakers, every poll before it is pending; the notification
    wakes the waker registered last, and no other, exactly once (none if none
    was registered); the first poll after it returns the result the reactor
    reported with the data given to [Registration::new], and every later poll
    is pending. *)
Theorem registration_delivers_once (x : T) pre r post h
    (Hpre : Forall (λ o, is_notify o = false) pre)
    (Hpost : Forall (λ o, is_notify o = false) post) :
  ∃ h', (a ← Registration_new x; run_rops a (pre ++ RNotify r :: post)) h =
      (Done (replicate (polls pre) None ++ deliver r x (polls post))%list, h') ∧
    woken h' = (woken h ++ wakes (last_waker Empty pre))%list.
Proof.
  unfold Registration_new, rc_new. set (a := alloc (cells h)).
  pose proof (live_put a 1 (waiting_on Empty x) h) as Hl0.
  destruct (run_rops_waiting a 1 Empty x pre _ Hpre Hl0) as (h1 & Hrun1 & Hl1 & Hw1).
  set (h2 := add_wakes (wakes (last_waker Empty pre))
    (cell_put a 1 (finished_with r Empty (Some x)) h1)).
  assert (run_rop a (RNotify r) h1 = (Done [], h2)) as Hrun2.
  { simpl. by erewrite run_bind_done by by eapply run_notify. }
  assert (live a 1 (finished_with r Empty (Some x)) h2) as Hl2 by apply (live_put a 1 _ h1).
  destruct (run_rops_finished a 1 r Empty (Some x) post h2 Hpost Hl2)
    as (h3 & w3 & d3 & Hrun3 & Hl3 & Hw3).
  exists h3. split; [|rewrite Hw3; simpl; by rewrite Hw1].
  erewrite run_bind_done by reflexivity. rewrite run_rops_app.
  erewrite run_bind_done by exact Hrun1. simpl run_rops.
  erewrite run_bind_done; [reflexivity|]. erewrite run_bind_done by exact Hrun2.
  by erewrite run_bind_done by exact Hrun3.
Qed.

(** ** Memory *)

Implicit Types (h : Heap D) (i : Inner D).

Lemma run_rc_clone a n i h : live a n i h → rc_clone a h = (Done tt, cell_put a (S n) i h).
Proof. intros Hl. unfold rc_clone, rc_get, deref, gets, mbind, M_bind, id. by rewrite Hl. Qed.
Lemma run_rc_drop a n i h : live a n i h →
  rc_drop a h = (Done tt, match n with
    | S (S m) => cell_put a (S m) i h | _ => set_cells (delete a) h end).
Proof.
  intros Hl. unfold rc_drop, rc_get, deref, gets, mbind, M_bind, id. rewrite Hl.
  by destruct n as [|[|]].
Qed.
Lemma run_abort a n i h x : live a n i h → data i = Some (box x) →
  abort a h = if decide (n = 1%nat) then (Done (Some x), set_cells (delete a) h)
              else (Done None, match n with
                | S (S m) => cell_put a (S m) i h | _ => set_cells (delete a) h end).
Proof.
  intros Hl Hd. unfold abort, rc_try_unwrap.
  unfold rc_get, deref, gets, mbind, M_bind, id. rewrite Hl. simpl.
  destruct (decide (n = 1%nat)); simpl.
  - rewrite Hd. simpl. by rewrite (downcast_box (B:=B)).
  - by erewrite run_rc_drop by done.
Qed.
Lemma delete_put a n i (h : Heap D) : cells h !! a = None → set_cells (delete a) (cell_put a n i h) = h.
Proof.
  intros Hn. destruct h. unfold set_cells, cell_put, set_cells. simpl in *.
  by rewrite delete_insert_eq, delete_id.
Qed.

(** The reactor's side of a completion. *)
Definition complete (u : Z) (r : UringResult) : M (Heap D) unit :=
  with_drop (notify (from_user_data u) r) (rc_drop (from_user_data u)).

(** C19: the memory of an operation (its buffer and file) lives exactly as long
    as it is needed.  While a submitted [user_data] is outstanding, dropping or
    aborting the future leaves the registration and its data in place; the
    completion then finds it and frees it.  When the completion comes first,
    the future frees it.  A raw side that was never submitted does not keep
    it: [abort] returns the data.  In each case the heap is as before. *)
Theorem registration_memory `{!AllocOk _} (x : T) r h (a := alloc (cells h)) :
  let submitted := (a ← Registration_new x; u ← to_raw a; u ← into_user_data u; mret (a, u)) in
  (∃ h1, submitted h = (Done (a, a), h1) ∧
     (∃ h2, rc_drop a h1 = (Done tt, h2) ∧ live a 1 (waiting_on Empty x) h2 ∧
        abort a h1 = (Done (None (A:=T)), h2) ∧
        complete a r h2 = (Done tt, h)) ∧
     (∃ h2, complete a r h1 = (Done tt, h2) ∧
        live a 1 (finished_with r Empty (Some x)) h2 ∧ rc_drop a h2 = (Done tt, h))) ∧
  (a ← Registration_new x; u ← to_raw a; rc_drop u;; abort a) h = (Done (Some x), h).
Proof.
  destruct (alloc_valid (cells h)) as (Hz & Ho). fold a in Hz, Ho.
  assert (cells h !! a = None) as Hfr by apply alloc_fresh.
  pose proof (live_put a 1 (waiting_on Empty x) h) as Hl.
  set (h0 := cell_put a 1 (waiting_on Empty x) h) in *.
  assert (Registration_new x h = (Done a, h0)) as Hnew by done.
  pose proof (run_rc_clone _ _ _ _ Hl) as Hcl. fold h0 in Hcl.
  set (h1 := cell_put a 2 (waiting_on Empty x) h0) in *.
  assert (live a 2 (waiting_on Empty x) h1) as Hl1 by apply live_put.
  assert (h1 = cell_put a 2 (waiting_on Empty x) h) as Hh1 by apply cell_put_twice.
  assert (to_raw a h0 = (Done a, h1)) as Hraw by (unfold to_raw; by erewrite run_bind_done by exact Hcl).
  pose proof (run_rc_drop _ _ _ _ Hl1) as Hdr. simpl in Hdr.
  assert (cell_put a 1 (waiting_on Empty x) h1 = h0) as Hback by by rewrite Hh1, cell_put_twice.
  rewrite Hback in Hdr. cbv zeta. split.
  - exists h1. split.
    { erewrite run_bind_done by exact Hnew. erewrite run_bind_done by exact Hraw.
      unfold into_user_data, user_data_ok. rewrite Ho, (proj2 (Z.eqb_neq _ _) Hz). done. }
    split.
    + exists h0. split_and!; [done|done| |].
      * erewrite run_abort by done. rewrite decide_False by done. by rewrite Hback.
      * unfold complete, from_user_data, with_drop. erewrite run_notify by done. simpl.
        erewrite run_bind_done by (eapply run_rc_drop, live_put). simpl.
        unfold mret, M_ret. f_equal. unfold add_wakes. rewrite app_nil_r.
        destruct h. unfold h0, cell_put, set_cells. simpl in *.
        by rewrite insert_insert_eq, delete_insert_eq, delete_id.
    + eexists. unfold complete, from_user_data, with_drop. erewrite run_notify by done. simpl.
      split; [erewrite run_bind_done by (eapply run_rc_drop, live_put); reflexivity|].
      split; [apply live_put|]. erewrite run_rc_drop by apply live_put. f_equal.
      unfold add_wakes. rewrite app_nil_r. destruct h.
      unfold h1, h0, cell_put, set_cells. simpl in *.
      by rewrite !insert_insert_eq, delete_insert_eq, delete_id.
  - erewrite run_bind_done by exact Hnew. erewrite run_bind_done by exact Hraw.
    erewrite run_bind_done by exact Hdr. erewrite run_abort by done.
    rewrite decide_True by done. unfold h0. by rewrite delete_put.
Qed.
End life.

(** ** The theorems at work *)

(** Boxes of numbers, an allocator that takes the next free multiple of 16. *)
#[export] Instance Boxed_Z : Boxed Z Z := {| box := id; downcast := Some |}.
#[export] Instance Boxed_Z_ok : BoxedOk Boxed_Z.
Proof. by intros x. Qed.
Definition demo_alloc {D} : Alloc D := λ h, 16 * (1 + map_fold (λ k _ m, Z.max k m) 0 h).

Lemma map_fold_max {D} (h : gmap Z (RcBox D)) :
  0 ≤ map_fold (λ k _ m, Z.max k m) 0 h ∧
  ∀ k, is_Some (h !! k) → k ≤ map_fold (λ k _ m, Z.max k m) 0 h.
Proof.
  apply (map_fold_weak_ind (λ m (h : gmap Z (RcBox D)), 0 ≤ m ∧ ∀ k, is_Some (h !! k) → k ≤ m)).
  - split; [done|]. intros k [? ?]. set_solver.
  - intros k b h' m Hk [Hm Hall]. split; [lia|]. intros j Hj.
    destruct (decide (j = k)) as [->|]; [lia|]. rewrite lookup_insert_ne in Hj by done.
    specialize (Hall j Hj). lia.
Qed.
Lemma demo_alloc_ok {D} : AllocOk (demo_alloc (D := D)).
Proof.
  split; intros h; unfold alloc, demo_alloc; destruct (map_fold_max h) as [Hm Hall].
  - apply eq_None_not_Some. intros Hs%Hall. lia.
  - split; [lia|]. change 1 with (Z.ones 1) at 2. rewrite Z.land_ones by lia.
    rewrite Z.mul_comm. replace 16 with (8 * 2) by lia. rewrite Z.mul_assoc. apply Z_mod_mult.
Qed.
Definition demo_heap : Heap Z := mkHeap ∅ None [].

(** Two tasks poll, one registers a waker, the operation completes. *)
Lemma registration_delivers_once_witness :
  ∃ h', (a ← @Registration_new Z demo_alloc Z _ 42;
         run_rops a [RPoll 1; RPoll 2; RNotify {| result_code := 5; result_flags := 0 |}; RPoll 1; RPoll 2])
          demo_heap
      = (Done [None; None; Some ({| result_code := 5; result_flags := 0 |}, 42); None], h') ∧
    woken h' = [Old 2].
Proof.
  apply (@registration_delivers_once Z demo_alloc Z Boxed_Z Boxed_Z_ok 42 [RPoll 1; RPoll 2]
    {| result_code := 5; result_flags := 0 |} [RPoll 1; RPoll 2] demo_heap); repeat constructor.
Defined.

Lemma registration_memory_witness :
  (a ← @Registration_new Z demo_alloc Z _ 42; u ← to_raw a; rc_drop u;; abort a) demo_heap
    = (Done (Some 42), demo_heap).
Proof.
  apply (@registration_memory Z demo_alloc Z Boxed_Z Boxed_Z_ok demo_alloc_ok 42
    UringResult_default demo_heap).
Defined.
