(* ===== verification/Unpark.v ===== *)
(** * [tokio-uring-reactor/src/unpark.rs]: waking the reactor from other threads

    [Park] and the [Unpark] handles share two flags and a pipe.  This file has
    the operations, access by access, and [set_non_block] of [lib.rs]; the
    interleavings of many handles with the reactor, with the orderings of the
    accesses, are in [UnparkTso]. *)

From S2P Require Import Prelude Std Sys.

Local Open Scope Z_scope.
Local Open Scope rust_scope.

(** ** The pipe's set-up *)

(** [libc::pipe2] and [fcntl] over a state of the operating system. *)
Class LibcPipe (S : Type) := {
  pipe2 : Z → M S (Z * (Z * Z));       (* flags; result and the two descriptors *)
  F_GETFL : Z → M S Z;                 (* fcntl(fd, F_GETFL, 0) *)
  F_SETFL : Z → Z → M S unit;          (* fcntl(fd, F_SETFL, flags) *)
  O_CLOEXEC : Z; O_NONBLOCK : Z }.

Section setup.
Context {S : Type} `{!LibcPipe S} `{!Libc S}.

Definition set_non_block (fd : Z) : M S unit :=
  flags ← F_GETFL fd;
  if 0 =? Z.land flags O_NONBLOCK then F_SETFL fd (Z.lor flags O_NONBLOCK) else mret tt.

(** The descriptors of [Park::new]: read end, write end. *)
Definition Park_new : M S (result (Z * Z) io_error) :=
  '(res, (rfd, wfd)) ← pipe2 O_CLOEXEC;
  if negb (0 =? res) then e ← last_os_error; mret (Err e)
  else set_non_block wfd;; mret (Ok (rfd, wfd)).
End setup.

(** [AsRawFd for Park]: the read end. *)
Definition Park_as_raw_fd (park : Z * Z) : Z := park.1.

(** ** The shared state *)

(** [pending], [entered]; the bytes in the pipe; whether the [Arc] behind the
    handles' [Weak] is alive. *)
Record Shared : Type := mkShared {
  pending_ : bool; entered : bool; pipe : nat; alive : bool; sh_looks : nat }.

Definition Shared_new : Shared := mkShared false false 0 true 0.

Definition set_pending (b : bool) (s : Shared) : Shared :=
  mkShared b (entered s) (pipe s) (alive s) (sh_looks s).
Definition set_entered (b : bool) (s : Shared) : Shared :=
  mkShared (pending_ s) b (pipe s) (alive s) (sh_looks s).
Definition set_pipe (n : nat) (s : Shared) : Shared :=
  mkShared (pending_ s) (entered s) n (alive s) (sh_looks s).
Definition set_sh_looks (n : nat) (s : Shared) : Shared :=
  mkShared (pending_ s) (entered s) (pipe s) (alive s) n.

(** Bytes a pipe holds. *)
Class PipeCapacity := capacity : nat.

(** ** [Unpark]: one [unpark] is three accesses to the shared state *)

Section unpark.
Context `{!PipeCapacity}.

(** [shared.pending.swap(true)] *)
Definition swap_pending : M Shared bool :=
  b ← gets pending_; modify (set_pending true);; mret b.
(** [shared.entered.load()] *)
Definition load_entered : M Shared bool := gets entered.
(** [libc::write] of one byte to the non-blocking end: a full pipe refuses it
    and the result is ignored. *)
Definition write_event : M Shared unit :=
  modify (λ s, if (pipe s <? capacity)%nat then set_pipe (S (pipe s)) s else s).

Definition Unpark_unpark : M Shared unit :=
  up ← gets alive;
  if negb up then mret tt
  else
    was ← swap_pending;
    if (was : bool) then mret tt
    else
      e ← load_entered;
      if (e : bool) then write_event else mret tt.
End unpark.

(** ** [Park]: the reactor's side

    The handles act concurrently: [others n] is everything they do up to the
    [n]-th time the reactor loads from the shared state. *)
Class Others := others : nat → Shared → Shared.

(** What they may do: request an unpark, write to the pipe. *)
Record unparked (s s' : Shared) : Prop := {
  up_pending : pending_ s = true → pending_ s' = true;
  up_entered : entered s' = entered s;
  up_pipe : (pipe s ≤ pipe s')%nat;
  up_alive : alive s' = alive s }.
Class OthersOk (O : Others) : Prop := others_ok : ∀ n s, unparked s (others n s).

(** No handle in use, for sequences in which their steps are written out. *)
Definition alone : Others := λ _ s, s.
Lemma alone_ok : OthersOk alone.
Proof. by intros n s. Qed.

Section park.
Context `{!Others}.

Definition look : M Shared unit :=
  modify (λ s, set_sh_looks (S (sh_looks s)) (others (sh_looks s) s)).
Definition load_pending : M Shared bool := look;; gets pending_.

(** [enter] returns [allow_wait]. *)
Definition enter_store : M Shared unit := modify (set_entered true).
Definition Park_enter : M Shared bool := enter_store;; b ← load_pending; mret (negb b).
Definition Park_pending : M Shared bool := load_pending.
Definition clear_unpark : M Shared unit := modify (set_pending false).

(** A blocking read of up to 16 bytes. *)
Definition clear_event : M Shared unit :=
  look;;
  n ← gets pipe;
  match n with
  | O => hang "read of an empty pipe"
  | _ => modify (set_pipe (n - 16))
  end.

(** [ParkEntered::drop] *)
Definition ParkEntered_drop : M Shared unit := modify (set_entered false);; clear_unpark.
End park.
