(* ===== verification/UnparkProps.v ===== *)
(** * The pipe of the [Unpark] handles: its write end does not block

    What [set_non_block] of [tokio-uring-reactor/src/lib.rs] does to the flags of
    a descriptor.  The interleavings of the handles with the reactor are in
    [UnparkTso]. *)

From S2P Require Import Prelude Std Sys Unpark.

Local Open Scope Z_scope.

(** What [fcntl] does to the flags of descriptors; [O_NONBLOCK] is one bit. *)
Class LibcFlagsOk {S} (L : LibcPipe S) := {
  flags_of : S → Z → Z;
  getfl_ok fd s : F_GETFL fd s = (Done (flags_of s fd), s);
  setfl_ok fd v s : ∃ s', F_SETFL fd v s = (Done tt, s') ∧ flags_of s' fd = v ∧
    ∀ fd', fd' ≠ fd → flags_of s' fd' = flags_of s fd';
  nonblock_bit : ∃ k, 0 ≤ k ∧ O_NONBLOCK = 2 ^ k }.

Lemma land_pow2 x k : 0 ≤ k → Z.land x (2 ^ k) = if Z.testbit x k then 2 ^ k else 0.
Proof.
  intros Hk. apply Z.bits_inj'. intros n Hn. rewrite Z.land_spec, Z.pow2_bits_eqb by done.
  destruct (Z.eqb_spec k n) as [->|Hne].
  - destruct (Z.testbit x n); [by rewrite Z.pow2_bits_true|by rewrite Z.bits_0].
  - rewrite andb_false_r. destruct (Z.testbit x k); [by rewrite Z.pow2_bits_false|by rewrite Z.bits_0].
Qed.

(** [set_non_block] makes a descriptor non-blocking, keeps its other flags
    and those of every other descriptor, and sets nothing when it already is:
    so the [write] of [Unpark::unpark], on the pipe's write end, never blocks
    the thread that calls it. *)
Theorem set_non_block_sets {S} `{!LibcPipe S} `{!LibcFlagsOk _} fd (s : S) :
  ∃ s', set_non_block fd s = (Done tt, s') ∧
    flags_of s' fd = Z.lor (flags_of s fd) O_NONBLOCK ∧
    (∀ fd', fd' ≠ fd → flags_of s' fd' = flags_of s fd') ∧
    (Z.land (flags_of s fd) O_NONBLOCK ≠ 0 → s' = s).
Proof.
  unfold set_non_block, mbind, M_bind. rewrite getfl_ok. destruct nonblock_bit as (k & Hk & Hb).
  destruct (Z.eqb_spec 0 (Z.land (flags_of s fd) O_NONBLOCK)) as [H0|H0].
  - destruct (setfl_ok fd (Z.lor (flags_of s fd) O_NONBLOCK) s) as (s' & Hrun & Hfl & Ho).
    exists s'. split; [done|]. split; [done|]. split; [done|]. intros Hn. by destruct Hn.
  - exists s. split; [done|]. split; [|done]. rewrite Hb, land_pow2 in H0 by done.
    destruct (Z.testbit (flags_of s fd) k) eqn:Ht; [|done]. rewrite Hb. symmetry.
    apply Z.bits_inj'. intros n Hn. rewrite Z.lor_spec, Z.pow2_bits_eqb by done.
    destruct (Z.eqb_spec k n) as [->|]; [by rewrite Ht|by rewrite orb_false_r].
Qed.

(** Descriptors with flags. *)
#[local] Instance demo_fcntl : LibcPipe (Z → Z) := {|
  pipe2 _ := mret (0, (5, 6)); F_GETFL fd := gets (λ fl, fl fd);
  F_SETFL fd v := modify (λ fl fd', if decide (fd' = fd) then v else fl fd');
  O_CLOEXEC := 524288; O_NONBLOCK := 2048 |}.
#[local] Instance demo_flags_ok : LibcFlagsOk demo_fcntl.
Proof.
  refine {| flags_of := id |}.
  - done.
  - intros fd v s. eexists. split; [done|]. unfold id. split; [by rewrite decide_True|].
    intros fd' Hne. by rewrite decide_False.
  - by exists 11.
Defined.
Lemma set_non_block_sets_witness :
  ∃ s', set_non_block 6 (λ _ : Z, 1) = (Done tt, s') ∧ s' 6 = 2049 ∧ s' 5 = 1.
Proof.
  destruct (set_non_block_sets 6 (λ _ : Z, 1)) as (s' & Hrun & H6 & Ho & _).
  exists s'. split; [exact Hrun|]. split; [exact H6|]. apply (Ho 5). lia.
Defined.
