(* ===== verification/UnparkTso.v ===== *)
(** * The orderings of [unpark.rs] on x86

    A transition system with any number of [unpark] calls in progress, each
    between two of its accesses to the shared state, and the reactor's thread
    going through [Park::enter], a wait in the kernel, and the drop of
    [ParkEntered].  The atomics have the orderings of the source and run on the
    memory of the only processors the crates have system call numbers for: on
    x86 a [SeqCst] store and a [swap] are locked instructions, weaker stores wait
    in the store buffer of their processor, which loads consult first.  Threads
    make work available before they call [unpark]; the reactor's thread looks
    for work, with loads, before it parks.  That it waits only with the poll on
    the pipe with the kernel, arms it once at a time and reads the pipe only when
    it completed is taken from [ReactorProps], where it is proved. *)

From S2P Require Import Prelude Std Sys Unpark.

Local Open Scope Z_scope.

(** ** Orderings and store buffers *)

Inductive Ordering : Type := Relaxed | Release | SeqCst.
Inductive flag : Type := FPending | FEntered.

(** The orderings of the stores of [Park::enter], [ParkEntered::drop] and
    [Park::clear_unpark]. *)
Class Orderings := { enter_ordering : Ordering; leave_ordering : Ordering; clear_ordering : Ordering }.
Definition source_orderings : Orderings :=
  {| enter_ordering := SeqCst; leave_ordering := Relaxed; clear_ordering := Relaxed |}.

Definition Buffer : Type := list (flag * bool).
Definition commit (w : flag * bool) (s : Shared) : Shared :=
  match w.1 with FPending => set_pending w.2 s | FEntered => set_entered w.2 s end.
Definition drain_buffer (buf : Buffer) (s : Shared) : Shared := foldl (λ s w, commit w s) s buf.

Definition store_flag (o : Ordering) (f : flag) (v : bool) (m : Shared * Buffer) : Shared * Buffer :=
  match o with
  | SeqCst => (commit (f, v) (drain_buffer m.2 m.1), [])
  | Relaxed | Release => (m.1, m.2 ++ [(f, v)])%list
  end.
(** A load sees the newest of its processor's waiting stores, else the memory. *)
Definition load_pending_flag (m : Shared * Buffer) : bool := pending_ (drain_buffer m.2 m.1).

(** ** The threads *)

(** A thread that makes work available, then calls [unpark]; its [swap] drains
    its own buffer, so that this may happen at any time before. *)
Inductive tpc : Type := UPublish | USwap | ULoad | UWrite.
(** The reactor's thread: looking for work; having found none, checking
    [pending()] in [park_inner]; in [Park::enter] with [wait]; about to load
    [pending]; allowed to wait; blocked; dropping the [ParkEntered]. *)
Inductive rpc : Type :=
| RLook | RCheck | REnter (wait : bool) | RLoad (wait : bool) | RAllowed | RWait | RLeave | RClear.

#[export] Instance rpc_eq_dec : EqDecision rpc.
Proof. solve_decision. Defined.

Record Tso : Type := mkTso {
  mem : Shared; buffer : Buffer; work : bool; threads : list tpc; rthread : rpc;
  polled : bool;      (* the poll on the pipe is with the kernel *)
  ready : bool }.     (* it completed, and the completion was not handled *)

Section tso.
Context `{!PipeCapacity} `{!Orderings}.
#[local] Existing Instance alone.

Inductive tso_step : Tso → Tso → Prop :=
(* the threads that wake *)
| tso_call s b w ts r po re : tso_step (mkTso s b w ts r po re) (mkTso s b w (UPublish :: ts) r po re)
| tso_publish s b w t1 t2 r po re :
    tso_step (mkTso s b w (t1 ++ UPublish :: t2) r po re) (mkTso s b true (t1 ++ USwap :: t2) r po re)
| tso_swap s b w t1 t2 r po re was s' :
    swap_pending s = (Done was, s') →
    tso_step (mkTso s b w (t1 ++ USwap :: t2) r po re)
             (mkTso s' b w (t1 ++ (if was then [] else [ULoad]) ++ t2) r po re)
| tso_load s b w t1 t2 r po re e s' :
    load_entered s = (Done e, s') →
    tso_step (mkTso s b w (t1 ++ ULoad :: t2) r po re)
             (mkTso s' b w (t1 ++ (if e then [UWrite] else []) ++ t2) r po re)
| tso_write s b w t1 t2 r po re s' :
    write_event s = (Done tt, s') →
    tso_step (mkTso s b w (t1 ++ UWrite :: t2) r po re) (mkTso s' b w (t1 ++ t2) r po re)
(* the reactor's thread *)
| tso_take s b ts po re : tso_step (mkTso s b true ts RLook po re) (mkTso s b false ts RLook po re)
| tso_look s b ts po re : tso_step (mkTso s b false ts RLook po re) (mkTso s b false ts RCheck po re)
| tso_check s b w ts po re wait :
    tso_step (mkTso s b w ts RCheck po re)
             (mkTso s b w ts (REnter (wait && negb (load_pending_flag (s, b)))) po re)
| tso_enter s b w ts po re wait s' b' :
    store_flag enter_ordering FEntered true (s, b) = (s', b') →
    tso_step (mkTso s b w ts (REnter wait) po re) (mkTso s' b' w ts (RLoad wait) po re)
| tso_allow s b w ts po re wait :
    tso_step (mkTso s b w ts (RLoad wait) po re)
      (mkTso s b w ts (if wait && negb (load_pending_flag (s, b)) then RAllowed else RLeave) po re)
| tso_wait s b w ts po re : po || re = true →
    tso_step (mkTso s b w ts RAllowed po re) (mkTso s b w ts RWait po re)
| tso_nowait s b w ts po re : tso_step (mkTso s b w ts RAllowed po re) (mkTso s b w ts RLeave po re)
| tso_wake s b w ts po re : tso_step (mkTso s b w ts RWait po re) (mkTso s b w ts RLeave po re)
| tso_leave s b w ts po re s' b' :
    store_flag leave_ordering FEntered false (s, b) = (s', b') →
    tso_step (mkTso s b w ts RLeave po re) (mkTso s' b' w ts RClear po re)
| tso_clear s b w ts po re s' b' :
    store_flag clear_ordering FPending false (s, b) = (s', b') →
    tso_step (mkTso s b w ts RClear po re) (mkTso s' b' w ts RLook po re)
| tso_event s b w ts po s' :
    clear_event s = (Done tt, s') →
    tso_step (mkTso s b w ts RLook po true) (mkTso s' b w ts RLook po false)
| tso_arm s b w ts : tso_step (mkTso s b w ts RLook false false) (mkTso s b w ts RLook true false)
(* the memory, and the kernel *)
| tso_commit s x b w ts r po re : tso_step (mkTso s (x :: b) w ts r po re) (mkTso (commit x s) b w ts r po re)
| tso_fire s b w ts r : (0 < pipe s)%nat →
    tso_step (mkTso s b w ts r true false) (mkTso s b w ts r false true).

Definition tso_start : Tso := mkTso Shared_new [] false [] RLook false false.

(** The reactor is blocked though work is available, its makers have all
    returned from [unpark], and nothing will end the wait. *)
Definition lost (c : Tso) : Prop :=
  rthread c = RWait ∧ work c = true ∧ threads c = [] ∧ buffer c = [] ∧ ready c = false ∧
  pipe (mem c) = 0%nat.

(** A step in which the reactor's thread, if it looks for work and finds none,
    does so with no store of its own waiting. *)
Definition late_look (c c' : Tso) : Prop :=
  rthread c = RLook → rthread c' = RCheck → buffer c = [].
Definition late_step (c c' : Tso) : Prop := tso_step c c' ∧ late_look c c'.

(** ** When the clearing of [pending] is seen before the reactor looks for work

    Because [clear_unpark] is locked, or because the thread got round to it. *)

Definition holds_entered (r : rpc) : bool :=
  match r with RLoad _ | RAllowed | RWait | RLeave => true | _ => false end.
Definition blocking (r : rpc) : bool := match r with RAllowed | RWait => true | _ => false end.
(** Between looking for work and the end of the wait. *)
Definition has_looked (r : rpc) : bool :=
  match r with RCheck | REnter _ | RLoad _ | RAllowed | RWait => true | _ => false end.

Record tso_inv (c : Tso) : Prop := {
  ti_buffer : match rthread c with
    | RClear => Forall (λ w, w.1 = FEntered) (buffer c)
    | RLook => clear_ordering = SeqCst → buffer c = []
    | _ => buffer c = []
    end;
  ti_entered : holds_entered (rthread c) = true → entered (mem c) = true;
  ti_signal : blocking (rthread c) = true → pending_ (mem c) = true →
    ULoad ∈ threads c ∨ UWrite ∈ threads c ∨ (0 < pipe (mem c))%nat;
  ti_work : has_looked (rthread c) = true → work c = true →
    USwap ∈ threads c ∨ pending_ (mem c) = true }.

Lemma tso_start_inv : tso_inv tso_start.
Proof. by constructor. Qed.

Lemma tso_step_inv (Hcap : (0 < capacity)%nat) (Henter : enter_ordering = SeqCst) c c' :
  tso_step c c' → clear_ordering = SeqCst ∨ late_look c c' → tso_inv c → tso_inv c'.
Proof.
  intros Hst Hlate [Hb He Hs Hw].
  destruct Hst as [s b w ts r po re|s b w t1 t2 r po re|s b w t1 t2 r po re was s' Hr
    |s b w t1 t2 r po re e s' Hr|s b w t1 t2 r po re s' Hr|s b ts po re|s b ts po re
    |s b w ts po re wait|s b w ts po re wait s' b' Hr|s b w ts po re wait|s b w ts po re Hp
    |s b w ts po re|s b w ts po re|s b w ts po re s' b' Hr|s b w ts po re s' b' Hr
    |s b w ts po s' Hr|s b w ts|s x b w ts r po re|s b w ts r Hp]; simpl in *.
  - constructor; simpl; try done; intros H1 H2.
    + destruct (Hs H1 H2) as [|[|]]; set_solver.
    + destruct (Hw H1 H2); set_solver.
  - constructor; simpl; try done; intros H1 H2.
    + destruct (Hs H1 H2) as [|[|]]; set_solver.
    + left. set_solver.
  - injection Hr as <- <-. constructor; simpl; try done; [|by right].
    intros H1 _. destruct (pending_ s); [destruct (Hs H1 eq_refl) as [|[|]]|]; set_solver.
  - injection Hr as <- <-. constructor; simpl; try done.
    + intros H1 _. right; left. rewrite He; [set_solver|]. by destruct r.
    + intros H1 H2. destruct (Hw H1 H2); set_solver.
  - injection Hr as <-. constructor; simpl; try done.
    + destruct (Nat.ltb_spec (pipe s) capacity); by auto.
    + intros H1 _. right; right. destruct (Nat.ltb_spec (pipe s) capacity); simpl; lia.
    + intros H1 H2. destruct (Hw H1 H2); [left; set_solver|right].
      by destruct (Nat.ltb_spec (pipe s) capacity).
  - by constructor.
  - constructor; simpl; try done. destruct Hlate as [?|Hlate]; [auto|by apply Hlate].
  - by constructor.
  - subst b. rewrite Henter in Hr. injection Hr as <- <-.
    by constructor.
  - subst b. unfold load_pending_flag. simpl.
    destruct wait, (pending_ s) eqn:Hps; simpl; constructor; simpl; try done; try (intros; congruence);
      intros _ H2; destruct (Hw eq_refl H2); set_solver.
  - constructor; simpl; auto.
  - constructor; simpl; auto.
  - constructor; simpl; auto.
  - subst b. destruct leave_ordering; injection Hr as <- <-;
      constructor; simpl; try done; by apply Forall_singleton.
  - constructor; simpl; try done. intros Hclear. rewrite Hclear in Hr. by injection Hr as <- <-.
  - by constructor.
  - by constructor.
  - destruct r; try done; [|apply List.Forall_cons_iff in Hb as [Hx Hb]]; constructor; simpl; try done.
    intros Hc. by specialize (Hb Hc).
  - by constructor.
Qed.

Lemma tso_steps_inv (Hcap : (0 < capacity)%nat) (Henter : enter_ordering = SeqCst) (R : Tso → Tso → Prop) c :
  (∀ a b, R a b → tso_step a b ∧ (clear_ordering = SeqCst ∨ late_look a b)) →
  rtc R tso_start c → tso_inv c.
Proof.
  intros HR Hst. assert (∀ a b, rtc R a b → tso_inv a → tso_inv b) as Hall.
  { clear c Hst. induction 1 as [|a b c Hab _ IH]; [done|]. intros Ha. apply IH.
    destruct (HR _ _ Hab). by eapply tso_step_inv. }
  by apply (Hall _ _ Hst), tso_start_inv.
Qed.
Lemma tso_inv_not_lost c : tso_inv c → ¬ lost c.
Proof.
  intros [Hb He Hs Hw] (Hr & Hwork & Ht & _ & _ & Hpipe).
  rewrite Hr, Ht, Hpipe in *. destruct (Hw eq_refl Hwork) as [Hin|Hp]; [by apply not_elem_of_nil in Hin|].
  destruct (Hs eq_refl Hp) as [Hin|[Hin|?]]; [by apply not_elem_of_nil in Hin..|lia].
Qed.
End tso.

(** ** As it is: a wake-up can be lost

    A first [unpark] is consumed by a turn that does not wait; its
    [clear_unpark] is still in the store buffer when the thread looks for work
    and finds none, and when a second thread, having made work available, finds
    [pending] set and leaves. *)

Section trace.
Context `{!PipeCapacity}.
#[local] Existing Instance source_orderings.

Lemma lost_trace : rtc tso_step tso_start
  (mkTso (mkShared false true 0 true 0) [] true [] RWait true false).
Proof.
  eapply rtc_l; [apply tso_arm|].
  (* the first unpark, while the reactor runs *)
  eapply rtc_l; [apply tso_call|]. eapply rtc_l; [apply (tso_publish _ _ _ [] [])|].
  eapply rtc_l; [by apply (tso_swap _ _ _ [] [])|]. eapply rtc_l; [by apply (tso_load _ _ _ [] [])|].
  (* its work is done; a turn that does not wait *)
  eapply rtc_l; [apply tso_take|]. eapply rtc_l; [apply tso_look|].
  eapply rtc_l; [apply (tso_check _ _ _ _ _ _ true)|]. eapply rtc_l; [by apply tso_enter|].
  eapply rtc_l; [apply tso_allow|]. eapply rtc_l; [by apply tso_leave|].
  eapply rtc_l; [by apply tso_clear|].
  (* no work; then the second unpark *)
  eapply rtc_l; [apply tso_look|].
  eapply rtc_l; [apply tso_call|]. eapply rtc_l; [apply (tso_publish _ _ _ [] [])|].
  eapply rtc_l; [by apply (tso_swap _ _ _ [] [])|].
  (* the next turn waits *)
  eapply rtc_l; [apply (tso_check _ _ _ _ _ _ true)|]. eapply rtc_l; [by apply tso_enter|].
  eapply rtc_l; [apply tso_allow|]. apply rtc_once. by apply tso_wait.
Qed.
End trace.

(** C21: the [Relaxed] store of [clear_unpark] is too weak on x86.  With the
    orderings of the source there is a run, each thread doing what it does in
    program order and every store reaching the memory, at whose end the reactor
    waits for good although work was made available before an [unpark] that
    returned; with a [SeqCst] store there (and any ordering for the store of
    [entered] in [ParkEntered::drop]) there is none, whatever the number of
    threads. *)
Theorem relaxed_clear_loses_wakeups (cap : PipeCapacity) :
  (∃ c, rtc (@tso_step cap source_orderings) tso_start c ∧ lost c) ∧
  ∀ leave c, rtc (@tso_step (S cap)
      {| enter_ordering := SeqCst; leave_ordering := leave; clear_ordering := SeqCst |}) tso_start c →
    ¬ lost c.
Proof.
  split.
  - eexists. split; [apply lost_trace|done].
  - intros leave c Hst. set (o := Build_Orderings _ _ _) in Hst. apply (@tso_inv_not_lost o).
    apply (@tso_steps_inv (S cap) o) in Hst; [done|unfold capacity; lia|done|].
    intros a b Hab. split; [exact Hab|by left].
Qed.

(** C14: with the orderings of the source a wake-up can be lost in this way only.
    In every run, of any number of threads, in which the reactor's thread, when
    it looks for work and finds none, has no store of its own waiting (its last
    [clear_unpark] has reached the memory), the reactor never waits for good:
    while it is blocked, with work made available before [unpark]s that have all
    returned, there is a byte in the pipe, on which the wake-up poll completes
    (that every wait has that poll outstanding is [reactor_park_returns]). *)
Theorem wakeups_lost_only_by_early_looks (cap : PipeCapacity) c
    (Hst : rtc (@late_step (S cap) source_orderings) tso_start c)
    (Hwait : rthread c = RWait) (Hwork : work c = true) (Hdone : threads c = []) :
  buffer c = [] ∧ entered (mem c) = true ∧ pending_ (mem c) = true ∧ (0 < pipe (mem c))%nat.
Proof.
  assert (@tso_inv source_orderings c) as [Hb He Hs Hw].
  { eapply (@tso_steps_inv (S cap)); [unfold capacity; lia|done| |exact Hst].
    intros a b [Hab Hl]. split; [exact Hab|by right]. }
  rewrite Hwait, Hdone in *. destruct (Hw eq_refl Hwork) as [Hin|Hp]; [by apply not_elem_of_nil in Hin|].
  destruct (Hs eq_refl Hp) as [Hin|[Hin|?]]; [by apply not_elem_of_nil in Hin..|by split_and!; auto].
Qed.

(** The reactor looks for work and blocks; then a thread makes some available. *)
Definition demo_woken : Tso := mkTso (mkShared true true 1 true 0) [] true [] RWait true false.
Lemma wakeups_lost_only_by_early_looks_witness :
  rthread demo_woken = RWait ∧ (0 < pipe (mem demo_woken))%nat.
Proof.
  split; [reflexivity|].
  apply (wakeups_lost_only_by_early_looks 3%nat demo_woken); [|reflexivity..].
  eapply rtc_l; [by split; [apply tso_arm|]|]. eapply rtc_l; [by split; [apply tso_look|]|].
  eapply rtc_l; [by split; [apply (tso_check _ _ _ _ _ _ true)|]|].
  eapply rtc_l; [by split; [by apply tso_enter|]|]. eapply rtc_l; [by split; [apply tso_allow|]|].
  eapply rtc_l; [by split; [by apply tso_wait|]|]. eapply rtc_l; [by split; [apply tso_call|]|].
  eapply rtc_l; [by split; [apply (tso_publish _ _ _ [] [])|]|].
  eapply rtc_l; [by split; [by apply (tso_swap _ _ _ [] [])|]|].
  eapply rtc_l; [by split; [by apply (tso_load _ _ _ [] [])|]|]. apply rtc_once.
  by split; [by apply (tso_write _ _ _ [] [])|].
Defined.
