(* ===== verification/Device.v ===== *)
(** * What the reactor asks of the ring it runs on

    [RingDevice] is the interface between the reactor and the world: the
    operations of [io_uring::Uring] it uses, the timer descriptor, and where the
    state shared with the [Unpark] handles lies.  [RingDeviceOk] is the contract,
    in terms of the abstract queues of [Rings]: the reactor's theorems are
    proved against it.  It is a contract for builds without overflow checks:
    with them [pending_submissions] panics once the tail counter has wrapped
    ([Queues.pending_submissions_counts]), and a ring that does that is no
    [RingDeviceOk]. *)

From S2P Require Import Prelude Std Sys Submission Ring Kern Mmap SubQueue CompQueue Rings.
From S2P Require Import QueueOps Unpark.

Local Open Scope Z_scope.

(** [CompletionState::TIMER] and [CompletionState::PARK] *)
Definition TIMER : Z := 1.
Definition PARK : Z := 3.

(** [timerfd::TimerState] as the reactor uses it. *)
Inductive TimerState : Type := Disarmed | Oneshot (nanos : Z).

Class RingDevice (W : Type) := {
  (* submission_queue().bulk().submit_with(f) *)
  d_submit : M SubmissionEntry (result unit Empty_set) →
    M W (result unit (SubmissionError Empty_set));
  (* submission_queue().pending_submissions() *)
  d_pending : M W Z;
  (* completion_queue().into_iter(): next, and the drop of the iterator *)
  d_next : M W (option CompletionEntry);
  d_finish : M W unit;
  (* file().enter(to_submit, min_complete, flags, None) *)
  d_enter : Z → Z → Z → M W (result unit io_error);
  (* timerfd.set_state(state, SetTimeFlags::Default) *)
  d_timer : TimerState → M W unit;
  (* the state behind the reactor's [unpark::Park] *)
  shared : W → Shared;
  put_shared : Shared → W → W }.

(** A poll on the pipe completes only when the pipe is readable. *)
Definition readable (A : Rings) (s : Shared) : Prop :=
  PARK ∈ (cqe_user_data <$> completed A) → (0 < pipe s)%nat.

Class RingDeviceOk {W} (R : RingDevice W) := {
  dev_at : W → Rings → Prop;
  (* the completion slots there are at least; the submission slots *)
  dev_cap : Z;
  dev_slots : W → Z;
  dev_room w A : dev_at w A → dev_cap ≤ room A;
  dev_readable w A : dev_at w A → readable A (shared w);
  dev_shared w A s : dev_at w A → readable A s → dev_at (put_shared s w) A;
  shared_put s w : shared (put_shared s w) = s;
  (* an entry is refused only while every submission slot holds one *)
  dev_submit f Φ w A :
    dev_at w A → (∀ e, wp f Φ (clear e)) →
    wp (d_submit f) (λ r w', ∃ A', rtc kacts A A' ∧
      match r with
      | Ok _ => ∃ e, Φ (Ok tt) e ∧ dev_at w' (publish (stage e A'))
      | Err QueueFull => dev_at w' (publish A') ∧ Z.of_nat (length (staged A')) = dev_slots w'
      | Err (FillError x) => False
      end) w;
  dev_pending w A :
    dev_at w A → wp d_pending (λ n w', ∃ A', rtc kacts A A' ∧ dev_at w' A' ∧
      n = Z.of_nat (length (staged A'))) w;
  dev_next w A :
    dev_at w A → wp d_next (λ r w', ∃ A', rtc kacts A A' ∧
      match r with
      | None => completed A' = [] ∧ dev_at w' A'
      | Some x => ∃ rest, completed A' = x :: rest ∧ dev_at w' (take_completion A') ∧
          (cqe_user_data x = PARK → (0 < pipe (shared w'))%nat)
      end) w;
  dev_finish w A : dev_at w A → wp d_finish (λ _ w', dev_at w' (free_slots A)) w;
  (* a call that does not wait returns; one that waits returns when the
     wake-up poll is with the kernel, or is handed to it by this call, and the
     handles have been told to write to the pipe before any of them acted *)
  dev_enter w A n min flags :
    dev_at w A →
    (min = 0 ∨ PARK ∈ pending_ops A ∧ Z.of_nat (length (staged A)) ≤ n ∧
       entered (shared w) = true ∧ pending_ (shared w) = false) →
    wp (d_enter n min flags) (λ _ w', ∃ A', rtc kacts A A' ∧ dev_at w' A') w;
  dev_timer t w A : dev_at w A → wp (d_timer t) (λ _ w', ∃ A', rtc kacts A A' ∧ dev_at w' A') w }.
