(* ===== verification/UringDevice.v ===== *)
(** * The rings implement the reactor's device

    [io_uring::Uring] with the queues of [SubQueue] and [CompQueue] over the
    shared memory meets the contract of [Device], given a kernel that keeps to
    its side of the protocol, completes the wake-up poll only when the pipe is
    readable, and returns from a wait when it can be woken. *)

From S2P Require Import Prelude Std Sys Submission Ring Kern Mmap SubQueue CompQueue Uring Rings.
From S2P Require Import Demo QueueOps Unpark Device.

Local Open Scope Z_scope.
Local Open Scope rust_scope.

(** A ring in use: its queues, the shared memory, the state shared with the
    [Unpark] handles, its descriptor. *)
Record URing : Type := mkURing {
  w_q : SubmissionQueue; w_c : CompletionQueue; w_k : Kern; w_sh : Shared; w_fd : Z }.

Definition put_sq (s : SQS) (w : URing) : URing := mkURing s.1 (w_c w) s.2 (w_sh w) (w_fd w).
Definition put_cq (s : CQS) (w : URing) : URing := mkURing (w_q w) s.1 s.2 (w_sh w) (w_fd w).
Definition put_sh (s : Shared) (w : URing) : URing := mkURing (w_q w) (w_c w) (w_k w) s (w_fd w).

(** What the kernel may do while the shared state is [s]: complete the wake-up
    poll when the pipe is readable, and drop completions only if it is [lossy]. *)
Definition polled (lossy : bool) (s : Shared) (ev : kevent) : Prop :=
  match ev with
  | Post x => cqe_user_data x = PARK → (0 < pipe s)%nat
  | Lose _ => lossy = true
  | _ => True
  end.

(** What a system call may change. *)
Record world_moves (lossy : bool) (w w' : URing) : Prop := {
  wm_q : w_q w' = w_q w;
  wm_c : w_c w' = w_c w;
  wm_sh : unparked (w_sh w) (w_sh w');
  wm_k : rtc (kmove_in (polled lossy (w_sh w'))) (w_k w) (w_k w') }.

(** The kernel's steps between accesses, which depend on the pipe; the calls;
    whether the kernel drops completions when their ring is full. *)
Class World := {
  pturn : Shared → Kernel;
  world_libc :: Libc URing;
  timer_set : TimerState → M URing unit;
  lossy : bool }.

Section device.
Context `{!World} `{!Build}.

#[export] Instance uring_device : RingDevice URing := {|
  d_submit f := λ w, zoom (λ w, (w_q w, w_k w)) put_sq
    (bulk (submit_with (H := pturn (w_sh w)) f)) w;
  d_pending := λ w, zoom (λ w, (w_q w, w_k w)) put_sq
    (pending_submissions (H := pturn (w_sh w))) w;
  d_next := λ w, zoom (λ w, (w_c w, w_k w)) put_cq (next (H := pturn (w_sh w))) w;
  d_finish := λ w, zoom (λ w, (w_c w, w_k w)) put_cq flush_head w;
  d_enter n min flags := fd ← gets w_fd; enter fd n min flags None;
  d_timer := timer_set;
  shared := w_sh;
  put_shared := put_sh |}.

(** What is asked of the kernel and the other threads. *)
Class WorldOk : Prop := {
  pturn_ok s :: KernelDoes (polled lossy s) (pturn s);
  enter_returns w A n min flags :
    uring_rep (w_q w) (w_c w) (w_k w) A →
    (min = 0 ∨ PARK ∈ pending_ops A ∧ Z.of_nat (length (staged A)) ≤ n ∧
       entered (w_sh w) = true ∧ pending_ (w_sh w) = false) →
    ∃ r w', syscall SYS_io_uring_enter
        [w_fd w; n; min; flags; as_i64 0; as_i64 sizeof_sigset_t] w = (Done r, w') ∧
      world_moves lossy w w';
  errno_returns w : ∃ e, errno w = (Done e, w);
  timer_returns t w : ∃ w', timer_set t w = (Done tt, w') ∧ world_moves lossy w w' }.

Context `{!WorldOk}.
Context (cap : Z).
Implicit Types (w : URing) (A : Rings).

Definition sound A (s : Shared) : Prop :=
  readable A s ∧ (lossy = false → lost_ops A = []) ∧ cap ≤ room A.
(** The submission slots. *)
Definition slots_of w : Z := entries (sq_ring_mask (w_q w)).
Definition uring_at w A : Prop :=
  uring_rep (w_q w) (w_c w) (w_k w) A ∧ sound A (w_sh w).

(** Completions of the wake-up poll appear only while the pipe is readable. *)
Lemma sound_act s A ev A' : kact A ev A' → polled lossy s ev → sound A s → sound A' s.
Proof.
  unfold sound, readable, lost_ops, losses.
  destruct 1 as [| | |]; simpl; rewrite ?omap_app, ?fmap_app; csimpl; rewrite ?app_nil_r; try done.
  - intros Hp [Hr Hl]. split; [|done]. intros Hin.
    rewrite ?fmap_app in Hin. apply elem_of_app in Hin as [Hin|Hin]; [auto|].
    apply Hp. csimpl in Hin. apply list_elem_of_singleton in Hin. done.
  - intros -> (Hr & Hl & Hc). split_and!; [done|congruence|done].
Qed.
Lemma sound_acts s A A' : rtc (kacts_in (polled lossy s)) A A' → sound A s → sound A' s.
Proof. induction 1 as [|? ? ? (ev & Hp & _ & Ha) _ IH]; [done|]. eauto using sound_act. Qed.
Lemma kacts_any P A A' : rtc (kacts_in P) A A' → rtc kacts A A'.
Proof. apply rtc_subrel. intros ? ? (ev & _ & Ho & Ha). by exists ev. Qed.
Lemma sound_more A s s' : (pipe s ≤ pipe s')%nat → sound A s → sound A s'.
Proof. intros Hp [Hr Hl]. split; [|done]. intros Hin. specialize (Hr Hin). lia. Qed.

Lemma world_moves_at w w' A : world_moves lossy w w' → uring_at w A →
  ∃ A', rtc kacts A A' ∧ uring_at w' A'.
Proof.
  intros [Hq Hc [_ _ Hp _] Hk] [Hr Hrd].
  destruct (rtc_kstep_sim _ _ _ _ _ _ Hr Hk) as (A' & Hr' & Hacts).
  exists A'. split; [by eapply kacts_any|]. rewrite <-Hq, <-Hc in Hr'. split; [done|].
  eapply sound_acts; [done|]. by eapply sound_more.
Qed.

Lemma d_submit_ok (Hlog : log_debug = false) (f : M SubmissionEntry (result unit Empty_set)) Φ w A :
  uring_at w A → (∀ e, wp f Φ (clear e)) →
  wp (d_submit f) (λ r w', ∃ A', rtc kacts A A' ∧
    match r with
    | Ok _ => ∃ e, Φ (Ok tt) e ∧ uring_at w' (publish (stage e A'))
    | Err QueueFull => uring_at w' (publish A') ∧ Z.of_nat (length (staged A')) = slots_of w'
    | Err (FillError x) => False
    end) w.
Proof.
  intros [Hr Hrd] Hf. unfold d_submit. simpl. unfold wp.
  change (wp (zoom (λ w, (w_q w, w_k w)) put_sq (bulk (submit_with (H := pturn (w_sh w)) f)))
    (λ r w', ∃ A', rtc kacts A A' ∧
      match r with
      | Ok _ => ∃ e, Φ (Ok tt) e ∧ uring_at w' (publish (stage e A'))
      | Err QueueFull => uring_at w' (publish A') ∧ Z.of_nat (length (staged A')) = slots_of w'
      | Err (FillError x) => False
      end) w).
  rewrite wp_zoom. eapply wp_mono.
  { apply (bulk_submit_spec (P := polled lossy (w_sh w)) (H := pturn (w_sh w)) f Φ _ (w_c w) _ A Hr Hf).
    congruence. }
  intros r s (A' & Hacts & Hres). exists A'. split; [by eapply kacts_any|].
  pose proof (sound_acts _ _ _ Hacts Hrd) as Hrd'.
  destruct r as [[]|[|[]]].
  - destruct Hres as (_ & e & He & Hr'). exists e. split; [done|]. by split.
  - destruct Hres as (_ & Hfull & Hr'). split; [by split|exact Hfull].
Qed.
Lemma d_pending_ok (Hov : overflow_checks = false) w A : uring_at w A →
  wp d_pending (λ n w', ∃ A', rtc kacts A A' ∧ uring_at w' A' ∧
    n = Z.of_nat (length (staged A'))) w.
Proof.
  intros [Hr Hrd]. unfold wp, d_pending. simpl. unfold zoom.
  destruct (pending_submissions_run (P := polled lossy (w_sh w)) (H := pturn (w_sh w)) _ _ _ _ Hr)
    as (A' & h & s & Hrun & Hacts & Hr' & _ & Hu & Hlt & Hd). rewrite Hrun.
  assert (sub_u 32 (local_tail (w_q w)) h = Done (Z.of_nat (length (staged A')))) as ->.
  { unfold sub_u. rewrite <-Hd. destruct (Z.leb_spec h (local_tail (w_q w))).
    - by rewrite dist_sub.
    - by rewrite Hov. }
  exists A'. split; [by eapply kacts_any|]. split; [|done]. split; [done|].
  by eapply sound_acts.
Qed.
Lemma d_next_ok w A : uring_at w A →
  wp d_next (λ r w', ∃ A', rtc kacts A A' ∧
    match r with
    | None => completed A' = [] ∧ uring_at w' A'
    | Some x => ∃ rest, completed A' = x :: rest ∧ uring_at w' (take_completion A') ∧
        (cqe_user_data x = PARK → (0 < pipe (w_sh w'))%nat)
    end) w.
Proof.
  intros [Hr Hrd]. unfold wp, d_next. simpl. unfold zoom.
  pose proof (next_spec (P := polled lossy (w_sh w)) (H := pturn (w_sh w)) _ _ _ _ Hr) as Hw.
  apply wp_run in Hw as (r & s & Hrun & A' & Hacts & Hres). rewrite Hrun.
  pose proof (sound_acts _ _ _ Hacts Hrd) as Hrd'.
  exists A'. split; [by eapply kacts_any|]. destruct r as [x|].
  - destruct Hres as (rest & Hx & Hr'). exists rest. split; [done|].
    destruct Hrd' as [Hrd' Hl]. unfold readable in Hrd'. rewrite Hx in Hrd'. split.
    + split; [done|]. split; [|done]. unfold readable, take_completion. simpl. rewrite Hx.
      simpl. intros Hin. apply Hrd'. csimpl. by right.
    + intros Hp. apply Hrd'. csimpl. rewrite Hp. left.
  - by destruct Hres.
Qed.
Lemma d_enter_ok w A n min flags : uring_at w A →
  (min = 0 ∨ PARK ∈ pending_ops A ∧ Z.of_nat (length (staged A)) ≤ n ∧
     entered (shared w) = true ∧ pending_ (shared w) = false) →
  wp (d_enter n min flags) (λ _ w', ∃ A', rtc kacts A A' ∧ uring_at w' A') w.
Proof.
  intros Hat Hpre. unfold d_enter. simpl. unfold enter, io_uring_enter. wp_simp.
  destruct (enter_returns w A n min flags (proj1 Hat) Hpre) as (r & w' & Hrun & Hmv).
  unfold wp at 1. rewrite Hrun. wp_simp. destruct (world_moves_at _ _ _ Hmv Hat) as (A' & ? & ?).
  destruct (as_i32 r <? 0); wp_simp; [|by exists A'].
  unfold last_os_error. wp_simp. destruct (errno_returns w') as [e He].
  unfold wp at 1. rewrite He. apply wp_ret. by exists A'.
Qed.

(** The contract. *)
Definition uring_device_ok (Hov : overflow_checks = false) (Hlog : log_debug = false) :
  RingDeviceOk uring_device.
Proof.
  refine {| dev_at := uring_at; dev_cap := cap; dev_slots := slots_of; dev_submit := d_submit_ok Hlog;
            dev_pending := d_pending_ok Hov; dev_next := d_next_ok; dev_enter := d_enter_ok |}.
  - by intros w A (_ & _ & _ & ?).
  - by intros w A [_ []].
  - by intros w A s [Hr [_ Hl]] Hrd.
  - done.
  - intros w A [Hr Hrd]. unfold d_finish. simpl. rewrite wp_zoom.
    eapply wp_mono; [by apply (flush_head_spec (w_q w) (w_c w) _ A)|]. simpl.
    intros [] s [Hc Hr']. split; [by rewrite <-Hc in Hr'|done].
  - intros t w A Hat. destruct (timer_returns t w) as (w' & Hrun & Hmv).
    unfold wp, d_timer. simpl. rewrite Hrun. by eapply world_moves_at.
Defined.

(** C13: the submission and completion queues, with the shared memory and a
    kernel acting at every access, implement the device the reactor is proved
    against: each operation the reactor uses meets its contract on every
    represented state, in builds without overflow checks and debug logging,
    for a device of any number of slots the completion ring has; an entry is
    refused only while every slot of the submission ring holds one. *)
Theorem uring_implements_device (Hov : overflow_checks = false) (Hlog : log_debug = false) :
  ∃ ok : RingDeviceOk uring_device, dev_cap = cap ∧
    (∀ w, dev_slots (RingDeviceOk := ok) w = entries (sq_ring_mask (w_q w))) ∧
    ∀ w A, dev_at (RingDeviceOk := ok) w A ↔
      uring_rep (w_q w) (w_c w) (w_k w) A ∧ readable A (w_sh w) ∧
      (lossy = false → lost_ops A = []) ∧ cap ≤ entries (cq_ring_mask (w_c w)).
Proof.
  exists (uring_device_ok Hov Hlog). split; [done|]. split; [done|]. intros w A. unfold dev_at, uring_device_ok, uring_at, sound.
  split; intros (Hr & Hrest); split; try done; pose proof (ur_cq _ _ _ _ Hr) as Hc;
    revert Hrest; rewrite (cqr_mask _ _ _ _ _ Hc), (cqr_room _ _ _ _ _ Hc); done.
Qed.
End device.

(** ** A concrete world

    The demonstration rings, with a kernel that serves requests whenever the
    pipe is readable. *)

Definition demo_turn (s : Shared) : Kernel := if decide (0 < pipe s)%nat then eager else quiet.
Definition demo_serve (w : URing) : URing :=
  mkURing (w_q w) (w_c w) (turn (Kernel := demo_turn (w_sh w)) 0 (w_k w)) (w_sh w) (w_fd w).
Definition demo_world : World := {|
  pturn := demo_turn;
  world_libc := {|
    syscall := λ _ _ w, (Done 2, demo_serve w);
    syscall_setup := λ _ _ ps w, (Done (- 38, ps), w);
    errno := λ w, (Done 11, w);
    mmap := λ _ _ _ _ _ _ w, (Done 0, w); munmap := λ _ _ w, (Done 0, w);
    close := λ _ w, (Done tt, w); sizeof_sigset_t := 128;
    PROT_READ := 1; PROT_WRITE := 2; MAP_SHARED := 1; MAP_POPULATE := 32768; MAP_FAILED := 0 |};
  timer_set := λ _ w, (Done tt, w);
  lossy := false |}.

Lemma exec_one_event k : exec_one k = k ∨ ∃ ev,
  (∀ e, ev ≠ Lose e) ∧ kstep k ev (exec_one k).
Proof.
  unfold exec_one. destruct (exec_take k) as [[ev k']|] eqn:Ht.
  { right. exists ev. split; [|by apply kstep_do, exec_take_sound].
    unfold exec_take in Ht. by simplify_option_eq. }
  destruct (exec_post k) as [[ev k']|] eqn:Hp; [|by left]. right. exists ev.
  split; [|by apply kstep_do, exec_post_sound]. unfold exec_post in Hp.
  destruct (fly k); simplify_option_eq; done.
Qed.
Lemma exec_polled s k : (0 < pipe s)%nat → rtc (kmove_in (polled false s)) k (exec_one k).
Proof.
  intros Hp. destruct (exec_one_event k) as [->|(ev & Hl & Hst)]; [done|].
  apply rtc_once. exists ev. split; [|done]. destruct ev as [e| |x|e|]; try done; [by intros ?|by destruct (Hl e)].
Qed.
Lemma demo_turn_ok s : KernelDoes (polled false s) (demo_turn s).
Proof.
  intros n k. unfold turn, demo_turn. case_decide; [|done].
  unfold eager. etrans; by apply exec_polled.
Qed.
Lemma demo_world_ok : WorldOk (H := demo_world).
Proof.
  split; simpl.
  - intros s. apply demo_turn_ok.
  - intros w A n min flags _ _. exists 2, (demo_serve w). split; [done|].
    constructor; try done. simpl. apply demo_turn_ok.
  - intros w. by exists 11.
  - intros t w. exists w. done.
Qed.

Definition demo_uring (pipe : nat) : URing :=
  mkURing (demo_sq 7) (demo_cq 7) (demo_kern 7) (mkShared false false pipe true 0) 3.

Lemma uring_implements_device_witness :
  ∃ ok : RingDeviceOk (@uring_device demo_world release_build),
    ∃ A, dev_at (RingDeviceOk := ok) (demo_uring 1) A.
Proof.
  destruct (@uring_implements_device demo_world release_build demo_world_ok 2 eq_refl eq_refl)
    as (ok & _ & _ & Hok).
  exists ok, (mkRings [] 0 [] [] [] 0 2). apply Hok. split; [|split; [|split; [reflexivity|]]].
  - apply demo_rep. unfold in_u. lia.
  - intros Hin. by apply not_elem_of_nil in Hin.
  - vm_compute. discriminate.
Defined.
