(* ===== verification/Reactor.v ===== *)
(** * [tokio-uring-reactor/src/reactor.rs]: the reactor

    [CompletionState], [Inner] and their operations, over a ring device and
    the heap of registrations.  [Rc<UnsafeCell<Inner>>], [Pin] and [InnerMut]
    only give access to the one [Inner]; [read_buf] and [read_iovec] are set up
    by [init] and not used. *)

From S2P Require Import Prelude Std Sys Submission Ring Kern Mmap SubQueue CompQueue Rings.
From S2P Require Import QueueOps Registration Unpark Device.

Local Open Scope Z_scope.
Local Open Scope rust_scope.

(** [CompletionState] without its [park], whose shared part lies in the
    device. *)
Record CompletionState : Type := mkCS {
  requeue_timer : bool; timer_pending : bool; requeue_park : bool; active_wait : Z }.

Definition CompletionState_new : CompletionState := mkCS true false true 0.

(** [reactor::Inner]: the device (ring, timer, park), the descriptors of the
    timer and of the pipe's read end, the state for completions; and the heap
    in which the registrations lie. *)
Record RInner (W D : Type) : Type := mkInner_ {
  dev : W; timer_fd : Z; park_fd : Z; cs : CompletionState; regs : Heap D }.
Arguments mkInner_ {W D}.
Arguments dev {W D}.
Arguments timer_fd {W D}.
Arguments park_fd {W D}.
Arguments cs {W D}.
Arguments regs {W D}.

Section reactor.
Context {W D : Type} `{!RingDevice W} `{!Others} `{!Build} `{!LibcPoll}.
Abbreviation MR := (M (RInner W D)).

Definition set_dev (w : W) (r : RInner W D) : RInner W D :=
  mkInner_ w (timer_fd r) (park_fd r) (cs r) (regs r).
Definition set_cs (c : CompletionState) (r : RInner W D) : RInner W D :=
  mkInner_ (dev r) (timer_fd r) (park_fd r) c (regs r).
Definition set_regs (h : Heap D) (r : RInner W D) : RInner W D :=
  mkInner_ (dev r) (timer_fd r) (park_fd r) (cs r) h.

Definition on_dev {X} (m : M W X) : MR X := zoom dev set_dev m.
Definition on_regs {X} (m : M (Heap D) X) : MR X := zoom regs set_regs m.
Definition on_cs (f : CompletionState → CompletionState) : MR unit :=
  modify (λ r, set_cs (f (cs r)) r).
Definition on_park {X} (m : M Shared X) : MR X := on_dev (zoom shared put_shared m).

Definition set_requeue_timer b c := mkCS b (timer_pending c) (requeue_park c) (active_wait c).
Definition set_timer_pending b c := mkCS (requeue_timer c) b (requeue_park c) (active_wait c).
Definition set_requeue_park b c := mkCS (requeue_timer c) (timer_pending c) b (active_wait c).
Definition set_active_wait n c := mkCS (requeue_timer c) (timer_pending c) (requeue_park c) n.

(** [self.active_wait -= 1], [+= 1]; a [usize]. *)
Definition active_wait_dec : MR unit :=
  c ← gets cs; n ← embed (sub_u 64 (active_wait c) 1); on_cs (set_active_wait n).
Definition active_wait_inc : MR unit :=
  c ← gets cs; n ← embed (add_u 64 (active_wait c) 1); on_cs (set_active_wait n).

(** [reg] is dropped when the scope ends, or unwinds. *)
Definition handle_completion (user_data : Z) (result : UringResult) : MR unit :=
  if 0 =? user_data then mret tt
  else
    active_wait_dec;;
    if 0 =? Z.land user_data 1 then
      let reg := from_user_data user_data in
      on_regs (with_drop (notify reg result) (rc_drop reg))
    else if user_data =? TIMER then
      on_cs (set_requeue_timer true);; on_cs (set_timer_pending true)
    else if user_data =? PARK then
      on_park clear_event;; on_cs (set_requeue_park true)
    else panic "unknown event".

(** The [for] loop, for at most [fuel] turns. *)
Fixpoint drain (fuel : nat) (received : bool) : MR bool :=
  match fuel with
  | O => hang "completions keep arriving"
  | S fuel =>
      x ← on_dev d_next;
      match x with
      | None => mret received
      | Some cqe =>
          handle_completion (cqe_user_data cqe)
            {| result_code := cqe_res cqe; result_flags := cqe_flags cqe |};;
          drain fuel true
      end
  end.
Definition check_completions (fuel : nat) : MR bool :=
  with_drop (drain fuel false) (on_dev d_finish).

(** A closure that fills an entry and cannot fail. *)
Definition filling (f : SubmissionEntry → SubmissionEntry) : M SubmissionEntry unit := modify f.

(** [self.uring.submission_queue().bulk().submit_with(|entry| { f; entry.user_data
    = user_data; Ok(()) })?; self.completion_state.active_wait += 1; Ok(())] *)
Definition queue_entry (f : SubmissionEntry → SubmissionEntry) (user_data : M SubmissionEntry Z)
    : MR (result unit (SubmissionError Empty_set)) :=
  r ← on_dev (d_submit (filling f;; u ← user_data; filling (set_user_data u);; mret (Ok tt)));
  match r with
  | Err e => mret (Err e)
  | Ok _ => active_wait_inc;; mret (Ok tt)
  end.

Definition queue_timer_poll : MR (result unit (SubmissionError Empty_set)) :=
  fd ← gets timer_fd;
  queue_entry (λ entry, poll_add entry (FD fd) PollFlags_IN) (mret TIMER).
Definition queue_park_read : MR (result unit (SubmissionError Empty_set)) :=
  fd ← gets park_fd;
  queue_entry (λ entry, poll_add entry (FD fd) PollFlags_IN) (mret PARK).

Definition sq_full_map_err (e : SubmissionError Empty_set) : io_error :=
  Custom Other "submission queue full".

(** The closure owns [reg]; when the queue is full it is dropped without
    having run, and [reg] with it. *)
Definition queue_async (f : SubmissionEntry → SubmissionEntry) (reg : Z)
    : MR (result unit io_error) :=
  r ← queue_entry f (into_user_data reg);
  match r with
  | Err QueueFull => on_regs (rc_drop reg);; mret (Err (sq_full_map_err QueueFull))
  | Err (FillError e) => mret (Err (sq_full_map_err (FillError e)))
  | Ok _ => mret (Ok tt)
  end.
Definition queue_async_read (fd offset : Z) (iovec : slice_ptr) (reg : Z) :=
  queue_async (λ entry, readv entry IoPriority_None (FD fd) offset 0 iovec) reg.
Definition queue_async_write (fd offset : Z) (iovec : slice_ptr) (reg : Z) :=
  queue_async (λ entry, writev entry IoPriority_None (FD fd) offset 0 iovec) reg.
Definition queue_async_poll (fd flags : Z) (reg : Z) :=
  queue_async (λ entry, poll_add entry (FD fd) flags) reg.

(** [park_inner], in the parts between its blank lines.  A [Duration] is its
    nanoseconds. *)
Definition set_timer (timeout : option Z) : MR unit :=
  match timeout with
  | Some t =>
      (if debug_assertions then
         assert (negb (t =? 0)) "assertion failed: timeout != Duration::new(0, 0)"
       else mret tt);;
      on_dev (d_timer (Oneshot t));; on_cs (set_timer_pending false)
  | None =>
      c ← gets cs;
      if timer_pending c then
        on_dev (d_timer Disarmed);; on_cs (set_timer_pending false)
      else mret tt
  end.
(** [if flag { if queue().is_err() { wait = false } else { flag = false } }]:
    the new value of [wait], [true] before. *)
Definition requeue (flag : CompletionState → bool)
    (queue : MR (result unit (SubmissionError Empty_set)))
    (reset : CompletionState → CompletionState) : MR bool :=
  c ← gets cs;
  if flag c then
    r ← queue;
    match r with
    | Err _ => mret false
    | Ok _ => on_cs reset;; mret true
    end
  else mret true.

(** The block that holds the [ParkEntered]: [None] is its early [return Ok(())]. *)
Definition entered_block (pending : Z) (wait : bool) : MR (option (result unit io_error)) :=
  allow_wait ← on_park Park_enter;
  with_drop (
    let wait := wait && allow_wait in
    if (0 =? pending) && negb wait then mret None
    else
      let '(min_complete, flags) :=
        if wait then (1, EnterFlags_GETEVENTS) else (0, 0) in
      r ← on_dev (d_enter pending min_complete flags);
      mret (Some r))
    (on_park ParkEntered_drop).

Definition park_inner (fuel : nat) (wait : bool) (timeout : option Z)
    : MR (result unit io_error) :=
  got ← check_completions fuel;
  let wait := wait && negb got in
  pend ← on_park Park_pending;
  let wait := wait && negb pend in
  wait ← (if wait then
            set_timer timeout;;
            requeue requeue_timer queue_timer_poll (set_requeue_timer false)
          else mret false);
  wait ← (if (wait : bool) then
            requeue requeue_park queue_park_read (set_requeue_park false)
          else mret false);
  pending ← on_dev d_pending;
  r ← entered_block pending wait;
  match r with
  | None => mret (Ok tt)
  | Some (Err e) => mret (Err e)
  | Some (Ok _) => check_completions fuel;; mret (Ok tt)
  end.

Definition park (fuel : nat) : MR (result unit io_error) := park_inner fuel true None.
Definition park_timeout (fuel : nat) (duration : Z) : MR (result unit io_error) :=
  if duration =? 0 then park_inner fuel false None else park_inner fuel true (Some duration).
End reactor.
