(* ===== verification/ReactorProps.v ===== *)
(** * The reactor's invariant, and what its operations do

    Against the device contract of [Device]: the reactor never panics, never
    frees a registration the kernel may still complete, never completes one
    twice, keeps at most one timer poll and one wake-up poll outstanding, and
    never waits without the latter. *)

From S2P Require Import Prelude Std Sys Submission Ring Kern Mmap SubQueue CompQueue Rings.
From S2P Require Import QueueOps Registration RegistrationProps Unpark Device Reactor.

Local Open Scope Z_scope.
Local Open Scope rust_scope.

(** ** Counting requests *)

Definition occ (u : Z) (l : list Z) : nat := length (filter (eq u) l).

Lemma occ_nil u : occ u [] = 0%nat.
Proof. done. Qed.
Lemma occ_cons u v l : occ u (v :: l) = ((if decide (u = v) then 1 else 0) + occ u l)%nat.
Proof. unfold occ. rewrite filter_cons. by destruct (decide (u = v)). Qed.
Lemma occ_app u l l' : occ u (l ++ l') = (occ u l + occ u l')%nat.
Proof. induction l as [|v l IH]; [done|]. csimpl. rewrite !occ_cons, IH. lia. Qed.
#[export] Instance occ_proper u : Proper ((≡ₚ) ==> eq) (occ u).
Proof. intros l l' Hl. unfold occ. by rewrite Hl. Qed.
Lemma occ_pos u l : (0 < occ u l)%nat ↔ u ∈ l.
Proof.
  induction l as [|v l IH]; [rewrite occ_nil, elem_of_nil; lia|].
  rewrite occ_cons, elem_of_cons. case_decide; naive_solver lia.
Qed.
Lemma occ_zero u l : occ u l = 0%nat ↔ u ∉ l.
Proof. rewrite <-occ_pos. lia. Qed.

(** Every request that was submitted and not delivered, lost ones included. *)
Definition open (A : Rings) : list Z := (pending_ops A ++ lost_ops A)%list.

Lemma open_kact A ev A' : kact A ev A' → open A' ≡ₚ open A.
Proof.
  intros Ha. unfold open, pending_ops, lost_ops, losses. destruct Ha; simpl;
    rewrite ?omap_app, ?fmap_app; csimpl; rewrite ?app_nil_r; solve_Permutation.
Qed.
Lemma open_kacts A A' : rtc kacts A A' → open A' ≡ₚ open A.
Proof. induction 1 as [|? ? ? (ev & _ & _ & Ha) _ IH]; [done|]. by rewrite IH, (open_kact _ _ _ Ha). Qed.
Lemma open_stage e A : open (publish (stage e A)) ≡ₚ sqe_user_data e :: open A.
Proof. unfold open, pending_ops, lost_ops. simpl. rewrite fmap_app. csimpl. solve_Permutation. Qed.
Lemma open_publish A : open (publish A) = open A.
Proof. done. Qed.
Lemma open_take A x rest : completed A = x :: rest →
  open A ≡ₚ cqe_user_data x :: open (take_completion A).
Proof.
  intros Hx. unfold open, pending_ops, lost_ops, take_completion. simpl. rewrite Hx. csimpl.
  solve_Permutation.
Qed.

(** ** The invariant *)

Section inv.
Context {W D : Type}.

(** [own a] references to registration [a] are held by futures. *)
Record books (own : Z → nat) (r : RInner W D) (l : list Z) : Prop := {
  bk_wait : active_wait (cs r) = Z.of_nat (length l);
  bk_zero : 0 ∉ l;
  bk_timer : occ TIMER l = if requeue_timer (cs r) then 0%nat else 1%nat;
  bk_park : occ PARK l = if requeue_park (cs r) then 0%nat else 1%nat;
  bk_odd u : u ∈ l → Z.land u 1 = 0 ∨ u = TIMER ∨ u = PARK;
  bk_regs a : Z.land a 1 = 0 →
    match cells (regs r) !! a with
    | Some b => strong b = (own a + occ a l)%nat ∧ strong b ≠ 0%nat ∧
        (occ a l ≤ 1)%nat ∧ (a ∈ l → finished (value b) = false)
    | None => own a = 0%nat ∧ a ∉ l
    end }.

Lemma books_perm own r l l' : l ≡ₚ l' → books own r l → books own r l'.
Proof.
  intros Hl []. constructor.
  - by rewrite bk_wait0, Hl.
  - by rewrite <-Hl.
  - by rewrite <-Hl.
  - by rewrite <-Hl.
  - intros u Hu. apply bk_odd0. by rewrite Hl.
  - intros a Ha. specialize (bk_regs0 a Ha). destruct (cells (regs r) !! a); by rewrite <-Hl.
Qed.
End inv.

(** What a completion does to the heap: nothing for the reactor's own polls;
    otherwise the registration gets its result, its waker is woken, and the
    reference the request held is dropped. *)
Definition complete_cell {D} (a : Z) (res : UringResult) (h : Heap D) : Heap D :=
  match cells h !! a with
  | Some b =>
      add_wakes (wakes (waker_ (value b)))
        (match strong b with
         | S (S m) => cell_put a (S m) (mkInner res true Empty (data (value b))) h
         | _ => set_cells (delete a) h
         end)
  | None => h
  end.
Definition result_of (x : CompletionEntry) : UringResult :=
  {| result_code := cqe_res x; result_flags := cqe_flags x |}.
Definition deliver_to {D} (h : Heap D) (x : CompletionEntry) : Heap D :=
  if 0 =? Z.land (cqe_user_data x) 1 then complete_cell (cqe_user_data x) (result_of x) h else h.

Section specs.
Context {W D : Type} `{R : !RingDevice W} `{!RingDeviceOk R} `{!Others} `{!OthersOk _}
  `{!Build} `{!LibcPoll}.
Implicit Types (r : RInner W D) (A : Rings) (own : Z → nat).

(** Nothing is lost by the device: no completion was dropped on overflow. *)
Definition lossless : Prop := ∀ w A, dev_at w A → lost_ops A = [].
(** By a device that may lose completions, none was, and none will be of the
    requests there are. *)
Definition tracked A : Prop := lossless ∨ (lost_ops A = [] ∧ Z.of_nat (in_use A) ≤ room A).
(** There is room for [n] more requests. *)
Definition spare (n : Z) A : Prop :=
  Z.of_nat (length (open A)) + n < 2 ^ 64 ∧ (lossless ∨ Z.of_nat (length (open A)) + n ≤ dev_cap).

Lemma spare_le n n' A A' : Z.of_nat (length (open A')) + n' ≤ Z.of_nat (length (open A)) + n →
  spare n A → spare n' A'.
Proof. intros Hle [Hlt [Hl|Hc]]; (split; [lia|]); [by left|right; lia]. Qed.
Lemma tracked_kacts A A' : rtc kacts A A' → tracked A → tracked A'.
Proof.
  intros Hk [Hl|[Hl Hr]]; [by left|right]. destruct (kacts_kept _ _ Hk Hr) as (-> & -> & ->). done.
Qed.
Lemma tracked_take A x rest : completed A = x :: rest → tracked A → tracked (take_completion A).
Proof.
  intros Hx [Hl|[Hl Hr]]; [by left|right]. split; [done|]. unfold in_use, pending_ops in *. simpl.
  rewrite Hx in *. rewrite !length_app, !length_fmap in *. simpl in *. lia.
Qed.
Lemma tracked_free A : tracked A → tracked (free_slots A).
Proof. intros [Hl|[Hl Hr]]; [by left|right]. split; [done|]. unfold in_use, pending_ops in *. simpl in *. lia. Qed.

(** The device between the operations of the reactor. *)
Definition ring_at w A : Prop := dev_at w A ∧ tracked A ∧ held A = 0%nat.

Lemma ring_lost w A : ring_at w A → lost_ops A = [].
Proof. intros (Hd & [Hl|[Hl _]] & _); [by eapply Hl|done]. Qed.
Lemma ring_kacts w w' A A' : ring_at w A → rtc kacts A A' → dev_at w' A' → ring_at w' A'.
Proof.
  intros (_ & Ht & Hh) Hk Hd. split_and!; [done|by eapply tracked_kacts|by rewrite (kacts_held _ _ Hk)].
Qed.
Lemma ring_stage w w' A A' e : ring_at w A → spare 1 A → rtc kacts A A' →
  dev_at w' (publish (stage e A')) → ring_at w' (publish (stage e A')).
Proof.
  intros Hr [_ Hs] Hk Hd. pose proof (dev_room _ _ (proj1 Hr)) as Hroom. pose proof (ring_lost _ _ Hr) as Hlost.
  destruct Hr as (_ & Ht & Hh). split_and!; [done| |by simpl; rewrite (kacts_held _ _ Hk)].
  destruct Hs as [Hl|Hs]; [by left|]. destruct Ht as [Hl|[_ Hl]]; [by left|right].
  destruct (kacts_kept _ _ Hk Hl) as (Hl' & Hr' & Hlost'). split; [simpl; by rewrite <-Hlost, <-Hlost'|].
  assert (in_use (publish (stage e A')) = S (in_use A')) as ->.
  { unfold in_use, pending_ops. simpl. rewrite !length_app, !length_fmap, length_app. simpl. lia. }
  simpl. rewrite Hl', Hr'. unfold open in Hs. rewrite Hlost, app_nil_r in Hs. unfold in_use. lia.
Qed.
Lemma ring_shared w A s : ring_at w A → readable A s → ring_at (put_shared s w) A.
Proof. intros (Hd & Ht) Hr. split; [by apply dev_shared|done]. Qed.

Lemma run_complete a n i res (h : Heap D) : live a n i h → finished i = false →
  with_drop (notify a res) (rc_drop a) h = (Done tt, complete_cell a res h).
Proof.
  intros Hl Hf. unfold with_drop. erewrite run_notify by done.
  erewrite run_bind_done by (eapply run_rc_drop, live_put).
  unfold complete_cell. unfold live in Hl. rewrite Hl. simpl. unfold mret, M_ret. f_equal.
  destruct h as [cl t w]. unfold add_wakes, cell_put, set_cells. simpl.
  destruct n as [|[|n]]; simpl; by rewrite ?delete_insert_eq, ?insert_insert_eq.
Qed.

Lemma cells_complete a res b (h : Heap D) : cells h !! a = Some b →
  cells (complete_cell a res h) !! a =
    match strong b with
    | S (S m) => Some (mkRc (S m) (mkInner res true Empty (data (value b))))
    | _ => None
    end ∧
  ∀ a', a' ≠ a → cells (complete_cell a res h) !! a' = cells h !! a'.
Proof.
  intros Hb. unfold complete_cell. rewrite Hb.
  destruct (strong b) as [|[|m]]; simpl; split; intros;
    rewrite ?lookup_delete_eq, ?lookup_insert_eq; try done;
    by rewrite ?lookup_delete_ne, ?lookup_insert_ne.
Qed.

(** A completion leaves the registrations of other requests alone. *)
Lemma deliver_other (h : Heap D) x a : cqe_user_data x ≠ a → cells (deliver_to h x) !! a = cells h !! a.
Proof.
  intros Hne. unfold deliver_to. case_match; [|done].
  destruct (cells h !! cqe_user_data x) as [b|] eqn:Hb.
  - destruct (cells_complete _ (result_of x) b h Hb) as [_ Ho]. by apply Ho.
  - unfold complete_cell. by rewrite Hb.
Qed.
Lemma delivers_other (h : Heap D) xs a : a ∉ (cqe_user_data <$> xs) →
  cells (fold_left deliver_to xs h) !! a = cells h !! a.
Proof.
  revert h. induction xs as [|x xs IH]; intros h Hn; [done|]. csimpl in Hn. simpl.
  apply not_elem_of_cons in Hn as [Hne Hn]. rewrite IH by done. by apply deliver_other.
Qed.

(** Taking a completed registration off the books. *)
Lemma books_complete own r a res l n : Z.land a 1 = 0 →
  books own r (a :: l) →
  active_wait (cs r) = Z.of_nat n + 1 → n = length l →
  books own (set_regs (complete_cell a res (regs r)) (set_cs (set_active_wait (Z.of_nat n) (cs r)) r)) l.
Proof.
  intros Ha Hb Hw ->. pose proof Hb as [].
  assert (a ≠ TIMER ∧ a ≠ PARK) as [Hnt Hnp] by (split; intros ->; done).
  rewrite !occ_cons, !decide_False in * by done.
  constructor; simpl; try done.
  - set_solver.
  - intros u Hu. apply bk_odd0. set_solver.
  - intros a' Ha'. pose proof (bk_regs0 a Ha) as Hra. specialize (bk_regs0 a' Ha').
    destruct (cells (regs r) !! a) as [b|] eqn:Hb'; [|set_solver].
    destruct (cells_complete a res b (regs r) Hb') as [Hself Hother].
    destruct Hra as (Hs & Hs0 & Hocc & Hfin). rewrite occ_cons, decide_True in Hs, Hocc by done.
    assert (a ∉ l) as Hnin by (apply occ_zero; lia).
    destruct (decide (a' = a)) as [->|Hne].
    + rewrite Hself. pose proof (proj2 (occ_zero a l) Hnin) as Hz.
      destruct (strong b) as [|[|m]]; [done|split; [lia|done]|].
      simpl. rewrite Hz. split_and!; [lia|lia|lia|done].
    + rewrite Hother by done. rewrite occ_cons, decide_False in bk_regs0 by done.
      destruct (cells (regs r) !! a') as [b'|]; [|set_solver].
      destruct bk_regs0 as (? & ? & ? & Hf). split_and!; try done. intros. apply Hf. set_solver.
Qed.

Lemma wp_dec r n (Q : unit → RInner W D → Prop) : active_wait (cs r) = Z.of_nat n + 1 →
  Q tt (set_cs (set_active_wait (Z.of_nat n) (cs r)) r) → wp active_wait_dec Q r.
Proof.
  intros Hn HQ. unfold active_wait_dec, on_cs. wp_simp. exists (Z.of_nat n).
  split; [|done]. unfold sub_u. rewrite Hn, (proj2 (Z.leb_le _ _)) by lia. f_equal. lia.
Qed.

(** Handling a completion takes it off the books, whatever it is for: none of
    the panics is reached. *)
Lemma handle_spec own x r A l :
  dev_at (dev r) A → l ≡ₚ open A → books own r (cqe_user_data x :: l) →
  (cqe_user_data x = PARK → (0 < pipe (shared (dev r)))%nat) →
  wp (handle_completion (cqe_user_data x) (result_of x))
    (λ _ r', dev_at (dev r') A ∧ books own r' l ∧ regs r' = deliver_to (regs r) x) r.
Proof.
  intros Hd Hl Hb Hp. pose proof Hb as []. unfold handle_completion, deliver_to.
  set (u := cqe_user_data x) in *.
  destruct (Z.eqb_spec 0 u) as [Hu|Hu]; [set_solver|]. wp_simp.
  apply (wp_dec r (length l)); [simpl in bk_wait0; lia|].
  destruct (Z.eqb_spec 0 (Z.land u 1)) as [He|Ho].
  - pose proof (bk_regs0 u ltac:(done)) as Hreg.
    destruct (cells (regs r) !! u) as [b|] eqn:Hcell; [|set_solver].
    destruct Hreg as (_ & _ & _ & Hfin). specialize (Hfin ltac:(left)).
    unfold on_regs. rewrite wp_zoom. apply wp_run. eexists _, _. split.
    { apply (run_complete _ (strong b) (value b)); [unfold live; by destruct b|done]. }
    split_and!; [done| |done].
    apply (books_complete own r u (result_of x) l (length l)); try done.
    simpl in bk_wait0. lia.
  - destruct (bk_odd0 u ltac:(left)) as [Hev|Hodd]; [done|].
    destruct (Z.eqb_spec u TIMER) as [Ht|Ht]; [|destruct (Z.eqb_spec u PARK) as [Hk|Hk]; [|naive_solver]].
    + unfold on_cs. wp_simp. split_and!; [done| |done].
      rewrite Ht in *. rewrite occ_cons in bk_timer0. simpl in bk_timer0.
      constructor; simpl; try done.
      * set_solver.
      * destruct (requeue_timer (cs r)); lia.
      * intros v Hv. apply bk_odd0. set_solver.
      * intros a Ha. specialize (bk_regs0 a Ha). rewrite occ_cons in bk_regs0.
        rewrite decide_False in bk_regs0 by (intros ->; done).
        destruct (cells (regs r) !! a); set_solver.
    + rewrite Hk in *. rewrite occ_cons in bk_park0. simpl in bk_park0.
      assert (PARK ∉ l) as Hnin by (apply occ_zero; destruct (requeue_park (cs r)); lia).
      specialize (Hp eq_refl). unfold on_park, on_dev, on_cs, clear_event, look. wp_simp.
      destruct (others_ok (sh_looks (shared (dev r))) (shared (dev r))) as [_ _ Hpipe _].
      destruct (pipe (others _ _)) as [|n] eqn:Hn; [lia|]. wp_simp.
      split_and!; [| |done].
      * apply dev_shared; [done|]. intros Hin. exfalso. apply Hnin. rewrite Hl.
        unfold open, pending_ops. set_solver.
      * constructor; simpl; try done.
        -- set_solver.
        -- by rewrite (proj2 (occ_zero _ _) Hnin).
        -- intros v Hv. apply bk_odd0. set_solver.
        -- intros a Ha. specialize (bk_regs0 a Ha). rewrite occ_cons in bk_regs0.
           rewrite decide_False in bk_regs0 by (intros ->; done).
           destruct (cells (regs r) !! a); set_solver.
Qed.

Lemma books_dev own w r l : books own r l → books own (set_dev w r) l.
Proof. by intros []; constructor. Qed.

(** The reactor represents the abstract queues [A]. *)
Definition reactor_at own r A : Prop := ring_at (dev r) A ∧ books own r (open A).

Lemma reactor_at_kacts own r A A' : rtc kacts A A' → books own r (open A) → books own r (open A').
Proof. intros Hk. apply books_perm. symmetry. by apply open_kacts. Qed.

(** The same within the loop, which holds on to the slots it has read; it does not
    depend on there being no lost completions. *)
Definition draining own r A : Prop := dev_at (dev r) A ∧ books own r (open A).

(** What a run of the loop delivered: [xs] are the completions at the head of
    the queue and those that arrived meanwhile, each with its result and flags
    and in the order of arrival, up to those left in [A']; they, and nothing
    else, were given to their registrations, in that order. *)
Definition handed r A (xs : list CompletionEntry) r' A' : Prop :=
  open A ≡ₚ ((cqe_user_data <$> xs) ++ open A')%list ∧ took A xs A' ∧
  regs r' = fold_left deliver_to xs (regs r).
Definition delivered own r A xs r' A' : Prop := handed r A xs r' A' ∧ reactor_at own r' A'.

Lemma drain_spec fuel own r A b : (length (open A) < fuel)%nat → draining own r A →
  wp (drain fuel b) (λ b' r', ∃ xs A', (handed r A xs r' A' ∧ draining own r' A') ∧
    (tracked A → tracked A') ∧ completed A' = [] ∧ b' = b || negb (bool_decide (xs = []))) r.
Proof.
  revert r A b. induction fuel as [|fuel IH]; intros r A b Hf [Hd Hb]; [lia|]. cbn [drain].
  rewrite wp_bind. unfold on_dev at 1. rewrite wp_zoom.
  eapply wp_mono; [by apply dev_next|]. intros [x|] w' (A' & Hk & Hx).
  - destruct Hx as (rest & Hc & Hd' & Hp). pose proof (open_take _ _ _ Hc) as Ho.
    rewrite wp_bind. eapply wp_mono.
    { apply (handle_spec own x (set_dev w' r) (take_completion A') (open (take_completion A')));
        try done. apply books_dev. eapply books_perm; [|exact Hb].
      by rewrite <-Ho, (open_kacts _ _ Hk). }
    intros [] r1 (Hd1 & Hb1 & Hr1). simpl in Hr1.
    assert (open A ≡ₚ cqe_user_data x :: open (take_completion A')) as Hlen
      by by rewrite <-Ho, (open_kacts _ _ Hk).
    eapply wp_mono; [apply (IH r1 (take_completion A') true)|].
    + rewrite Hlen in Hf. simpl in Hf. lia.
    + done.
    + intros b' r2 (xs & A2 & ((Ho2 & Hto2 & Hr2) & Hat) & Htr & Hc2 & ->).
      exists (x :: xs), A2. split_and!; try done; [| |by rewrite orb_true_r].
      * split; [by rewrite Hlen, Ho2|]. split; [|by rewrite Hr2, Hr1].
        apply (took_trans A [] A' (x :: xs)); [by apply took_kacts|].
        apply (took_trans A' [x] (take_completion A') xs); [by eapply took_take|done].
      * intros Ht. eapply Htr, tracked_take, (tracked_kacts _ _ Hk Ht). done.
  - destruct Hx as [Hc Hd']. apply wp_ret. exists [], A'. split_and!; try done; [| | |by rewrite orb_false_r].
    + split; [by rewrite (open_kacts _ _ Hk)|]. split; [by apply took_kacts|done].
    + split; [done|]. apply books_dev. by eapply reactor_at_kacts.
    + by apply tracked_kacts.
Qed.
Lemma check_completions_drains fuel own r A : (length (open A) < fuel)%nat → draining own r A →
  wp (check_completions fuel) (λ got r', ∃ xs A', (handed r A xs r' A' ∧ draining own r' A') ∧
    (tracked A → tracked A') ∧ held A' = 0%nat ∧ completed A' = [] ∧
    got = negb (bool_decide (xs = []))) r.
Proof.
  intros Hf Hdr. unfold check_completions. rewrite wp_with_drop.
  eapply wp_mono; [by apply (drain_spec fuel own r A)|].
  intros got r1 (xs & A' & (Hh & [Hd Hb]) & Ht & Hc & ->).
  unfold on_dev. rewrite wp_zoom. eapply wp_mono; [by apply dev_finish|].
  intros [] w' Hd'. exists xs, (free_slots A'). split_and!; try done.
  - split; [done|]. by apply books_dev.
  - intros Htr. by apply tracked_free, Ht.
Qed.
Lemma check_completions_spec fuel own r A : (length (open A) < fuel)%nat → reactor_at own r A →
  wp (check_completions fuel) (λ got r', ∃ xs A', delivered own r A xs r' A' ∧ completed A' = [] ∧
    got = negb (bool_decide (xs = []))) r.
Proof.
  intros Hf [(Hd0 & Ht0 & _) Hb0].
  eapply wp_mono; [by apply (check_completions_drains fuel own r A)|].
  intros got r1 (xs & A' & (Hh & [Hd Hb]) & Ht & Hheld & Hc & ->). exists xs, A'.
  split_and!; try done. split; [done|]. split; [|done]. split_and!; [done|by apply Ht|done].
Qed.

(** ** Submitting *)

Lemma wp_inc r n (Q : unit → RInner W D → Prop) :
  active_wait (cs r) = Z.of_nat n → Z.of_nat n + 1 < 2 ^ 64 →
  Q tt (set_cs (set_active_wait (Z.of_nat (S n)) (cs r)) r) → wp active_wait_inc Q r.
Proof.
  intros Hn Hlt HQ. unfold active_wait_inc, on_cs. wp_simp. exists (Z.of_nat (S n)).
  split; [|done]. unfold add_u. rewrite Hn, (proj2 (Z.ltb_lt _ _)) by lia. f_equal. lia.
Qed.

(** Every submission slot holds an entry the kernel has not taken. *)
Definition sq_full (w : W) A : Prop := Z.of_nat (length (staged A)) = dev_slots w.

(** [queue_entry] stages the filled entry with its [user_data] and counts it,
    or changes nothing when the queue is full. *)
Lemma queue_entry_spec f (um : M SubmissionEntry Z) u own r A :
  (∀ e, um e = (Done u, e)) → reactor_at own r A → spare 1 A →
  wp (queue_entry f um) (λ res r', ∃ w A', ring_at w A' ∧ took A [] A' ∧
    match res with
    | Ok _ => open A' ≡ₚ u :: open A ∧
        (set_user_data u (f zeroed_entry)) ∈ staged A' ∧
        r' = set_cs (set_active_wait (Z.of_nat (S (length (open A)))) (cs r)) (set_dev w r)
    | Err QueueFull => open A' ≡ₚ open A ∧ sq_full w A' ∧ r' = set_dev w r
    | Err (FillError _) => False
    end) r.
Proof.
  intros Hum [Hd Hb] Hsp. pose proof (proj1 Hsp) as Hlt. unfold queue_entry. rewrite wp_bind. unfold on_dev. rewrite wp_zoom.
  eapply wp_mono.
  - apply (dev_submit _ (λ res e, res = Ok tt ∧ e = set_user_data u (f zeroed_entry)) _ A (proj1 Hd)).
    intros e. unfold filling. wp_simp. unfold wp at 1. rewrite Hum. done.
  - intros [[]|[|[]]] w (A' & Hk & Hres); simpl.
    + destruct Hres as (e & [_ ->] & Hd'). rewrite wp_bind.
      apply (wp_inc _ (length (open A))); [apply Hb|done|]. apply wp_ret.
      exists w, (publish (stage (set_user_data u (f zeroed_entry)) A')).
      split_and!; [by eapply ring_stage|by apply (took_kacts A A')| | |done].
      * by rewrite open_stage, (open_kacts _ _ Hk).
      * simpl. set_solver.
    + destruct Hres as [Hres Hfull]. apply wp_ret. exists w, (publish A').
      split_and!; [|by apply (took_kacts A A')|by rewrite open_publish, (open_kacts _ _ Hk)|done..].
      destruct (tracked_kacts _ _ Hk (proj1 (proj2 Hd))) as [Hl|Ht]; (split_and!; [done| |]);
        [by left|..|by right|]; simpl; by rewrite (kacts_held _ _ Hk), (proj2 (proj2 Hd)).
Qed.

(** The polls of the reactor itself, by the flag that asks for them. *)
Definition own_poll (u : Z) (flag : CompletionState → bool)
    (reset : CompletionState → CompletionState) : Prop :=
  (u = TIMER ∧ flag = requeue_timer ∧ reset = set_requeue_timer false) ∨
  (u = PARK ∧ flag = requeue_park ∧ reset = set_requeue_park false).

Lemma books_add_poll own r l u flag reset : own_poll u flag reset → flag (cs r) = true →
  books own r l →
  books own (set_cs (reset (set_active_wait (Z.of_nat (S (length l))) (cs r))) r) (u :: l).
Proof.
  intros Hu Hflag []. assert (Z.land u 1 = 1 ∧ u ≠ 0) as [Hodd Hu0]
    by by destruct Hu as [(-> & _)|(-> & _)].
  constructor.
  - by destruct Hu as [(-> & -> & ->)|(-> & -> & ->)].
  - set_solver.
  - rewrite occ_cons. destruct Hu as [(-> & -> & ->)|(-> & -> & ->)]; simpl;
      rewrite bk_timer0; [by rewrite Hflag|done].
  - rewrite occ_cons. destruct Hu as [(-> & -> & ->)|(-> & -> & ->)]; simpl;
      rewrite bk_park0; [done|by rewrite Hflag].
  - intros v [->|Hv]%elem_of_cons; [destruct Hu as [(-> & _)|(-> & _)]; tauto|by apply bk_odd0].
  - intros a Ha. specialize (bk_regs0 a Ha). assert (a ≠ u) by (intros ->; lia).
    rewrite occ_cons, decide_False by done. simpl.
    destruct (cells (regs r) !! a); set_solver.
Qed.

Lemma requeue_spec u flag reset queue f own r A : own_poll u flag reset →
  queue r = queue_entry f (mret u) r →
  reactor_at own r A → spare 1 A →
  wp (requeue flag queue reset) (λ ok r', ∃ A' polls, (reactor_at own r' A' ∧ took A [] A') ∧
    regs r' = regs r ∧ polls ⊆+ [u] ∧ open A' ≡ₚ (polls ++ open A)%list ∧
    (ok = true → flag (cs r') = false) ∧ (timer_fd r', park_fd r') = (timer_fd r, park_fd r)) r.
Proof.
  intros Hu Hqueue Hat Hlt. unfold requeue. rewrite wp_bind, wp_gets.
  destruct (flag (cs r)) eqn:Hq.
  2: { apply wp_ret. exists A, []. split_and!; try done; [by apply took_same|apply submseteq_nil_l]. }
  rewrite wp_bind. unfold wp at 1. rewrite Hqueue.
  change (wp (queue_entry f (mret u)) (λ a s', wp match a with
    | Ok _ => on_cs reset;; mret true | Err _ => mret false end (λ ok r', ∃ A' polls,
      (reactor_at own r' A' ∧ took A [] A') ∧ regs r' = regs r ∧ polls ⊆+ [u] ∧ open A' ≡ₚ (polls ++ open A)%list ∧
      (ok = true → flag (cs r') = false) ∧ (timer_fd r', park_fd r') = (timer_fd r, park_fd r)) s') r).
  eapply wp_mono; [by apply (queue_entry_spec _ _ u own r A)|].
  intros [[]|[|[]]] r' (w & A' & Hd' & Hto & Hres); unfold on_cs; wp_simp.
  - destruct Hres as (Ho & _ & ->). exists A', [u]. split_and!; try done.
    + split; [by destruct Hu as [(_ & _ & ->)|(_ & _ & ->)]|].
      eapply books_perm; [symmetry; exact Ho|].
      apply (books_dev _ w _ _ (books_add_poll own r (open A) u flag reset Hu Hq (proj2 Hat))).
    + intros _. by destruct Hu as [(_ & -> & ->)|(_ & -> & ->)].
  - destruct Hres as (Ho & _ & ->). exists A', []. split_and!; try done; [|apply submseteq_nil_l].
    split; [done|]. apply books_dev. eapply books_perm; [by symmetry|apply Hat].
Qed.

(** ** Parking *)

(** An access to the shared state of the [Unpark] handles that leaves the pipe
    as readable as it was. *)
Lemma on_park_spec {X} (m : M Shared X) (Q : X → Shared → Prop) own r A :
  reactor_at own r A →
  wp m (λ x s, Q x s ∧ (pipe (shared (dev r)) ≤ pipe s)%nat) (shared (dev r)) →
  wp (on_park m) (λ x r', reactor_at own r' A ∧ Q x (shared (dev r')) ∧
    ∃ w, r' = set_dev w r) r.
Proof.
  intros [Hd Hb] Hw. unfold on_park, on_dev. rewrite !wp_zoom.
  eapply wp_mono; [exact Hw|]. intros x s [HQ Hp]. simpl. split_and!; [|by rewrite shared_put|by eexists].
  split; [|by apply books_dev]. apply ring_shared; [done|].
  intros Hin. pose proof (dev_readable _ _ (proj1 Hd) Hin). lia.
Qed.

Lemma park_pending_spec own r A : reactor_at own r A →
  wp (on_park Park_pending) (λ _ r', reactor_at own r' A ∧ ∃ w, r' = set_dev w r) r.
Proof.
  intros Hat. eapply wp_mono; [apply (on_park_spec _ (λ _ _, True) own r A Hat)|].
  - unfold Park_pending, load_pending, look. wp_simp. split; [done|].
    by destruct (others_ok (sh_looks (shared (dev r))) (shared (dev r))).
  - by intros x r' (? & _ & ?).
Qed.
Lemma park_enter_spec own r A : reactor_at own r A →
  wp (on_park Park_enter) (λ allow r', reactor_at own r' A ∧
    (entered (shared (dev r')) = true ∧ (allow = true → pending_ (shared (dev r')) = false)) ∧
    ∃ w, r' = set_dev w r) r.
Proof.
  intros Hat. apply (on_park_spec _ (λ allow s, entered s = true ∧ (allow = true → pending_ s = false))
    own r A Hat).
  unfold Park_enter, enter_store, load_pending, look. wp_simp.
  destruct (others_ok (sh_looks (shared (dev r))) (set_entered true (shared (dev r)))) as [_ He Hp _].
  simpl in *. split_and!; try done. by intros ->%negb_true_iff.
Qed.
Lemma park_leave_spec own r A : reactor_at own r A →
  wp (on_park ParkEntered_drop) (λ _ r', reactor_at own r' A ∧ ∃ w, r' = set_dev w r) r.
Proof.
  intros Hat. eapply wp_mono; [apply (on_park_spec _ (λ _ _, True) own r A Hat)|].
  - unfold ParkEntered_drop, clear_unpark. by wp_simp.
  - by intros x r' (? & _ & ?).
Qed.

(** Calls on the device between which the kernel goes on. *)
Lemma on_dev_spec {X} (m : M W X) (Q : X → Rings → Prop) own r A :
  reactor_at own r A →
  wp m (λ x w, ∃ A', rtc kacts A A' ∧ dev_at w A' ∧ Q x A') (dev r) →
  wp (on_dev m) (λ x r', ∃ A', reactor_at own r' A' ∧ (open A' ≡ₚ open A ∧ took A [] A') ∧ Q x A' ∧
    ∃ w, r' = set_dev w r) r.
Proof.
  intros [Hd Hb] Hw. unfold on_dev. rewrite wp_zoom. eapply wp_mono; [exact Hw|].
  intros x w (A' & Hk & Hd' & HQ). exists A'.
  split_and!; [|by apply open_kacts|by apply took_kacts|done|by eexists].
  split; [by eapply ring_kacts|]. apply books_dev. by eapply reactor_at_kacts.
Qed.

(** The block that may wait: it returns, given that the wake-up poll is
    outstanding whenever it is entered with [wait] set. *)
Lemma entered_block_spec n wait own r A : reactor_at own r A →
  Z.of_nat (length (staged A)) ≤ n → (wait = true → PARK ∈ pending_ops A) →
  wp (entered_block n wait) (λ res r', ∃ A', reactor_at own r' A' ∧ (open A' ≡ₚ open A ∧ took A [] A') ∧
    ∃ w, r' = set_dev w r) r.
Proof.
  intros Hat Hn Hpark. unfold entered_block. rewrite wp_bind.
  eapply wp_mono; [by apply park_enter_spec|]. intros allow r1 (Hat1 & (He & Ha) & w1 & ->).
  rewrite wp_with_drop.
  assert (∀ (res : option (result unit io_error)) r' A', reactor_at own r' A' →
    open A' ≡ₚ open A ∧ took A [] A' →
    (∃ w, r' = set_dev w r) → wp (on_park ParkEntered_drop) (λ _ r', ∃ A', reactor_at own r' A' ∧
      (open A' ≡ₚ open A ∧ took A [] A') ∧ ∃ w, r' = set_dev w r) r') as Hleave.
  { intros res r' A' Hat' [Ho Hto] [w ->]. eapply wp_mono; [by apply park_leave_spec|].
    intros [] r'' (Hat'' & w' & ->). exists A'. split_and!; try done. by eexists. }
  destruct (_ && negb (wait && allow)).
  { apply wp_ret. apply (Hleave None _ A); [done|by split; [|apply took_same]|by eexists]. }
  destruct (wait && allow) eqn:Hw; rewrite wp_bind;
    (eapply wp_mono; [eapply (on_dev_spec _ (λ _ _, True)); [exact Hat1|]|];
     [|intros res r2 (A2 & Hat2 & Ho2 & _ & w2 & ->); apply wp_ret;
       eapply (Hleave (Some res)); [done|done|by eexists]]).
  - apply andb_true_iff in Hw as [Hw1 Hw2]. eapply wp_mono; [apply (dev_enter _ A)|].
    + apply Hat1.
    + right. split_and!; try done; auto.
    + intros ? ? (A' & ? & ?). by exists A'.
  - eapply wp_mono; [apply (dev_enter _ A)|].
    + apply Hat1.
    + by left.
    + intros ? ? (A' & ? & ?). by exists A'.
Qed.

(** No change but what the kernel did, and own polls [polls] submitted. *)
Definition prepared own r A polls r' A' : Prop :=
  (reactor_at own r' A' ∧ took A [] A') ∧ open A' ≡ₚ (polls ++ open A)%list ∧ regs r' = regs r.

Lemma set_timer_spec timeout own r A : reactor_at own r A → timeout ≠ Some 0 →
  wp (set_timer timeout) (λ _ r', ∃ A', prepared own r A [] r' A') r.
Proof.
  intros Hat Ht.
  assert (∀ t, wp (on_dev (d_timer t);; on_cs (set_timer_pending false))
    (λ _ r', ∃ A', prepared own r A [] r' A') r) as Hset.
  { intros t. rewrite wp_bind. eapply wp_mono; [apply (on_dev_spec _ (λ _ _, True) own r A Hat)|].
    - eapply wp_mono; [apply dev_timer, (proj1 (proj1 Hat))|]. intros ? ? (A' & ? & ?). by exists A'.
    - intros [] r' (A' & [Hd Hb] & [Ho Hto] & _ & w & ->). unfold on_cs. wp_simp. exists A'.
      split; [|done]. split; [|done]. split; [done|]. by destruct Hb. }
  unfold set_timer. destruct timeout as [t|].
  - rewrite wp_bind. destruct debug_assertions; [|apply wp_ret, Hset].
    rewrite wp_assert. split; [|apply Hset]. apply negb_true_iff, Z.eqb_neq. congruence.
  - rewrite wp_bind, wp_gets. destruct (timer_pending (cs r)); [apply Hset|].
    apply wp_ret. exists A. split_and!; [done|by apply took_same|done..].
Qed.

(** The part of [park_inner] that prepares the wait. *)
Lemma prepare_spec (wait : bool) timeout own r A : reactor_at own r A → timeout ≠ Some 0 →
  spare 2 A →
  wp (wait ← (if wait then
        set_timer timeout;;
        requeue requeue_timer queue_timer_poll (set_requeue_timer false)
      else mret false);
      (if (wait : bool) then
        requeue requeue_park queue_park_read (set_requeue_park false)
      else mret false))
    (λ wait' r', ∃ polls A', polls ⊆+ [TIMER; PARK] ∧ prepared own r A polls r' A' ∧
      (wait' = true → PARK ∈ open A')) r.
Proof.
  intros Hat Ht Hsp. rewrite wp_bind. destruct wait; [|apply wp_ret, wp_ret; exists [], A].
  2: { split_and!; [apply submseteq_nil_l|split_and!; [done|by apply took_same|done..]|done]. }
  rewrite wp_bind. eapply wp_mono; [by apply set_timer_spec|].
  intros [] r1 (A1 & [Hat1 Hto1] & Ho1 & Hr1). simpl in Ho1.
  eapply wp_mono; [apply (requeue_spec TIMER _ _ _ (λ e, poll_add e (FD (timer_fd r1)) PollFlags_IN) own r1 A1)|].
  - left. done.
  - done.
  - done.
  - eapply spare_le; [|exact Hsp]. rewrite Ho1. lia.
  - intros ok r2 (A2 & p2 & [Hat2 Hto2] & Hr2 & Hp2 & Ho2 & _ & _).
    pose proof (took_trans _ _ _ _ _ Hto1 Hto2) as Hto. destruct ok.
    2: { apply wp_ret. exists p2, A2. split_and!; [|by split_and!; [done|done|by rewrite Ho2, Ho1|by rewrite Hr2]|done].
         etrans; [exact Hp2|]. apply (submseteq_inserts_r [PARK] [TIMER] [TIMER]). done. }
    eapply wp_mono; [apply (requeue_spec PARK _ _ _ (λ e, poll_add e (FD (park_fd r2)) PollFlags_IN) own r2 A2)|].
    + right. done.
    + done.
    + done.
    + eapply spare_le; [|exact Hsp]. rewrite Ho2, Ho1, length_app. apply submseteq_length in Hp2. simpl in Hp2. lia.
    + intros ok r3 (A3 & p3 & [Hat3 Hto3] & Hr3 & Hp3 & Ho3 & Hok & _). exists (p3 ++ p2)%list, A3.
      split_and!.
      * rewrite (Permutation_app_comm p3 p2). apply (submseteq_app p2 [TIMER] p3 [PARK]); done.
      * split_and!; [done|by apply (took_trans _ [] A2 [])|by rewrite Ho3, Ho2, Ho1, app_assoc|by rewrite Hr3, Hr2].
      * intros ->. destruct Hat3 as [_ Hb]. apply occ_pos. rewrite (bk_park _ _ _ Hb), Hok; [lia|done].
Qed.

Lemma wp_assoc {S X Y Z'} (m : M S X) (f : X → M S Y) (k : Y → M S Z') Q s :
  wp (m ≫= f) (λ y s', wp (k y) Q s') s → wp (m ≫= λ x, f x ≫= k) Q s.
Proof.
  rewrite !wp_bind. intros Hw. eapply wp_mono; [exact Hw|]. intros x s'. simpl. by rewrite wp_bind.
Qed.

(** A turn of the reactor: own polls submitted, and the completions [xs] taken
    off the queue, in the order of their arrival, and delivered in it. *)
Definition turned own r A (xs : list CompletionEntry) r' A' : Prop :=
  reactor_at own r' A' ∧ (took A xs A' ∧ regs r' = fold_left deliver_to xs (regs r)) ∧
  ∃ polls, polls ⊆+ [TIMER; PARK] ∧
    (polls ++ open A)%list ≡ₚ ((cqe_user_data <$> xs) ++ open A')%list.

Lemma park_inner_spec fuel wait timeout own r A :
  reactor_at own r A → timeout ≠ Some 0 →
  (length (open A) + 2 < fuel)%nat → spare 2 A →
  wp (park_inner fuel wait timeout) (λ _ r', ∃ xs A', turned own r A xs r' A') r.
Proof.
  intros Hat Ht Hf Hsp. unfold park_inner. rewrite wp_bind.
  eapply wp_mono; [apply (check_completions_spec fuel own r A); [lia|done]|].
  intros got r1 (xs1 & A1 & ((Ho1 & Hto1 & Hr1) & Hat1) & _ & _). simpl.
  assert (length (open A) = length xs1 + length (open A1))%nat as Hlen1
    by (by rewrite Ho1, length_app, length_fmap).
  rewrite wp_bind. eapply wp_mono; [by apply park_pending_spec|].
  intros pend r2 (Hat2 & w2 & ->). simpl. set (wait2 := (wait && negb got) && negb pend).
  apply wp_assoc. eapply wp_mono; [apply (prepare_spec wait2 timeout own _ A1); [done|done|eapply spare_le; [|exact Hsp]; lia]|].
  intros wait3 r3 (polls & A3 & Hpolls & ([Hat3 Hto3] & Ho3 & Hr3) & Hpark). simpl.
  rewrite wp_bind.
  eapply wp_mono; [apply (on_dev_spec _ (λ n A', n = Z.of_nat (length (staged A'))) own r3 A3 Hat3)|].
  { eapply wp_mono; [apply dev_pending, (proj1 (proj1 Hat3))|]. intros ? ? (A' & ? & ? & ?). by exists A'. }
  intros n r4 (A4 & Hat4 & [Ho4 Hto4] & -> & w4 & ->). simpl. rewrite wp_bind.
  eapply wp_mono; [apply (entered_block_spec _ wait3 own _ A4); [done|lia|]|].
  { intros Hw. specialize (Hpark Hw). rewrite <-Ho4 in Hpark. unfold open in Hpark.
    rewrite (ring_lost _ _ (proj1 Hat4)), app_nil_r in Hpark. done. }
  intros res r5 (A5 & Hat5 & [Ho5 Hto5] & w5 & ->). simpl.
  assert (turned own r A xs1 (set_dev w5 (set_dev w4 r3)) A5) as Hturn.
  { split_and!; [done| |by simpl; rewrite Hr3; simpl|].
    { rewrite <-(app_nil_r xs1). apply (took_trans _ xs1 A1 []); [done|].
      apply (took_trans _ [] A3 []); [done|]. by apply (took_trans _ [] A4 []). }
    exists polls. split; [done|].
    rewrite Ho5, Ho4, Ho3, Ho1. solve_Permutation. }
  destruct res as [[[]|e]|]; [|apply wp_ret; by exists xs1, A5..].
  rewrite wp_bind.
  assert (length (open A5) ≤ length (open A1) + 2)%nat as Hlen5.
  { rewrite Ho5, Ho4, Ho3, length_app. apply submseteq_length in Hpolls. simpl in Hpolls. lia. }
  eapply wp_mono; [apply (check_completions_spec fuel own _ A5); [lia|done]|].
  intros got' r6 (xs6 & A6 & ((Ho6 & Hto6 & Hr6) & Hat6) & _ & _). apply wp_ret.
  exists (xs1 ++ xs6)%list, A6. destruct Hturn as (_ & [Hto Hreg] & ps & Hps & Hperm).
  split_and!; [done|by eapply took_trans|by rewrite fold_left_app, <-Hreg|].
  exists ps. split; [done|]. rewrite Hperm, fmap_app, Ho6. solve_Permutation.
Qed.

Lemma park_spec fuel (duration : option Z) own r A : reactor_at own r A →
  (length (open A) + 2 < fuel)%nat → spare 2 A →
  wp (match duration with Some d => park_timeout fuel d | None => park fuel end)
    (λ _ r', ∃ xs A', turned own r A xs r' A') r.
Proof.
  intros Hat Hf Hsp. destruct duration as [d|]; [|by apply park_inner_spec].
  unfold park_timeout. destruct (Z.eqb_spec d 0); apply park_inner_spec; (done || congruence).
Qed.

(** C12: parking the reactor returns, whatever the kernel and the other threads
    do: with fuel for the requests outstanding, and room in the completion queue
    for two more unless the device loses nothing, it neither panics (no
    completion is unknown, for a request that was completed before, or one too
    many), nor frees or uses freed memory, nor waits in the kernel without the wake-up
    poll outstanding, its own entries submitted and the handles told to write to
    the pipe; what it did is submit its own polls, each at most once, take
    completions off the head of the queue in the order of their arrival, and hand
    each, with its result and flags and in that order, to its registration.
    (The device contract is met by builds without overflow checks.) *)
Theorem reactor_park_returns fuel (duration : option Z) own r A (Hat : reactor_at own r A) (Hf : (length (open A) + 2 < fuel)%nat)
    (Hroom : spare 2 A) :
  ∃ res r' xs A',
    match duration with Some d => park_timeout fuel d r | None => park fuel r end
      = (Done res, r') ∧
    turned own r A xs r' A'.
Proof.
  pose proof (park_spec fuel duration own r A Hat Hf Hroom) as Hw.
  apply wp_run in Hw as (res & r' & Hrun & xs & A' & ?). exists res, r', xs, A'. split; [|done].
  by destruct duration.
Qed.

(** C20: [check_completions] takes every completion there is: those that were in
    the queue when it started and those that arrived while it ran, each with the
    result and flags it was posted with, in the order of their arrival.  It gives
    them to their registrations in that order, and no other to any, leaves the
    completion queue empty, and returns [true] exactly if there was one. *)
Theorem check_completions_delivers_all fuel own r A (Hat : reactor_at own r A)
    (Hf : (length (open A) < fuel)%nat) :
  ∃ got r' xs A', check_completions fuel r = (Done got, r') ∧
    delivered own r A xs r' A' ∧ completed A' = [] ∧ (got = true ↔ xs ≠ []) ∧
    ∃ lg, log A' = (log A ++ lg)%list ∧ xs = (completed A ++ posts lg)%list.
Proof.
  pose proof (check_completions_spec fuel own r A Hf Hat) as Hw.
  apply wp_run in Hw as (got & r' & Hrun & xs & A' & Hd & Hc & ->).
  exists (negb (bool_decide (xs = []))), r', xs, A'. split; [done|]. split; [done|].
  split; [done|]. split; [|destruct Hd as ((_ & (lg & Hl & Hx) & _) & _); exists lg;
    by rewrite Hc, app_nil_r in Hx]. by rewrite negb_true_iff, bool_decide_eq_false.
Qed.

(** What was lost stays lost. *)
Lemma took_lost A xs A' : took A xs A' → ∃ l, lost_ops A' = (lost_ops A ++ l)%list.
Proof.
  intros (lg & Hl & _). unfold lost_ops, losses. rewrite Hl, omap_app, fmap_app. by eexists.
Qed.

(** C22: a completion the kernel had no slot for is not made up for.  Whatever
    reactor state a request [a] is lost in, and however the kernel goes on, a run
    over the completions returns without a panic, but delivers nothing to [a]:
    its registration keeps its references, its data and its waker, and is not
    finished; the request stays counted in [active_wait].  The state afterwards
    is another such state, so no later run delivers it either. *)
Theorem lost_completion_never_arrives fuel own r A a b
    (Hdr : draining own r A) (Ha : Z.land a 1 = 0) (Hlost : a ∈ lost_ops A)
    (Hcell : cells (regs r) !! a = Some b) (Hf : (length (open A) < fuel)%nat) :
  ∃ got r' xs A', check_completions fuel r = (Done got, r') ∧ handed r A xs r' A' ∧
    draining own r' A' ∧ a ∈ lost_ops A' ∧ a ∉ (cqe_user_data <$> xs) ∧
    cells (regs r') !! a = Some b ∧ finished (value b) = false ∧ 0 < active_wait (cs r').
Proof.
  pose proof (check_completions_drains fuel own r A Hf Hdr) as Hw.
  apply wp_run in Hw as (got & r' & Hrun & xs & A' & ([Ho [Hto Hr]] & Hdr') & _ & _ & _ & _).
  destruct (took_lost _ _ _ Hto) as [l Hl]. destruct Hdr as [_ Hb], Hdr' as [Hd' Hb'].
  assert (a ∈ lost_ops A') as Hlost' by (rewrite Hl; set_solver).
  assert (a ∈ open A ∧ a ∈ open A') as [Hin Hin'] by (unfold open; set_solver).
  pose proof (bk_regs _ _ _ Hb a Ha) as Hra. rewrite Hcell in Hra. destruct Hra as (_ & _ & Hocc & Hfin).
  assert (a ∉ (cqe_user_data <$> xs)) as Hnin.
  { apply occ_zero. rewrite Ho, occ_app in Hocc. apply occ_pos in Hin'. lia. }
  exists got, r', xs, A'. split_and!; try done; [|by apply Hfin|].
  - rewrite Hr, <-Hcell. by apply delivers_other.
  - rewrite (bk_wait _ _ _ Hb'). destruct (open A'); [by apply not_elem_of_nil in Hin'|simpl; lia].
Qed.

(** ** Operations of futures *)

(** One reference to [a] fewer is held outside of the reactor. *)
Definition release (a : Z) (own : Z → nat) : Z → nat :=
  λ b, if decide (b = a) then (own b - 1)%nat else own b.

Lemma books_submit own r l a : Z.land a 1 = 0 → a ≠ 0 → own a ≠ 0%nat → a ∉ l →
  (∀ b, cells (regs r) !! a = Some b → finished (value b) = false) →
  books own r l →
  books (release a own) (set_cs (set_active_wait (Z.of_nat (S (length l))) (cs r)) r) (a :: l).
Proof.
  intros Ha Ha0 Hown Hl Hfin [].
  assert (a ≠ TIMER ∧ a ≠ PARK) as [Hnt Hnp] by (split; intros ->; done).
  constructor; simpl; try done.
  - set_solver.
  - by rewrite occ_cons, decide_False.
  - by rewrite occ_cons, decide_False.
  - intros v [->|Hv]%elem_of_cons; [by left|by apply bk_odd0].
  - intros b Hb. specialize (bk_regs0 b Hb). unfold release. rewrite occ_cons.
    destruct (decide (b = a)) as [->|Hne].
    + pose proof (proj2 (occ_zero a l) Hl) as Hz.
      destruct (cells (regs r) !! a) as [c|] eqn:Hc; [|naive_solver].
      destruct bk_regs0 as (? & ? & ? & ?). split_and!; try lia. intros _. by apply Hfin.
    + simpl. destruct (cells (regs r) !! b); set_solver.
Qed.

(** The heap after a reference was dropped. *)
Definition drop_ref (a : Z) (h : Heap D) : Heap D :=
  match cells h !! a with
  | Some b => match strong b with
              | S (S m) => cell_put a (S m) (value b) h
              | _ => set_cells (delete a) h
              end
  | None => h
  end.

Lemma rc_drop_spec own r l a : Z.land a 1 = 0 → own a ≠ 0%nat → books own r l →
  wp (rc_drop a) (λ _ h, h = drop_ref a (regs r) ∧ books (release a own) (set_regs h r) l) (regs r).
Proof.
  intros Ha Hown []. pose proof (bk_regs0 a Ha) as Hra.
  destruct (cells (regs r) !! a) as [b|] eqn:Hb; [|naive_solver].
  destruct Hra as (Hs & Hs0 & Hocc & Hfin).
  assert (live a (strong b) (value b) (regs r)) as Hlive by (unfold live; by destruct b).
  assert (drop_ref a (regs r) = match strong b with
    | S (S m) => cell_put a (S m) (value b) (regs r) | _ => set_cells (delete a) (regs r) end) as Hdr
    by (unfold drop_ref; by rewrite Hb).
  apply wp_run. eexists tt, _. split; [by apply (run_rc_drop _ _ _ _ Hlive)|].
  split; [done|]. constructor; simpl; try done. intros c Hc. specialize (bk_regs0 c Hc).
  unfold release. destruct (decide (c = a)) as [->|Hne].
  - rewrite Hb in bk_regs0. destruct (strong b) as [|[|m]]; simpl.
    + done.
    + rewrite lookup_delete_eq. split; [lia|]. apply occ_zero. lia.
    + rewrite lookup_insert_eq. simpl. split_and!; lia || done.
  - destruct (strong b) as [|[|m]]; simpl; by rewrite ?lookup_delete_ne, ?lookup_insert_ne.
Qed.

(** Submitting an operation hands the raw reference to the kernel; when the
    queue is full, the reference is dropped and nothing else has happened. *)
Lemma queue_async_spec f a own r A :
  reactor_at own r A → Z.land a 1 = 0 → a ≠ 0 → own a ≠ 0%nat → a ∉ open A →
  (∀ b, cells (regs r) !! a = Some b → finished (value b) = false) →
  spare 1 A →
  wp (queue_async f a) (λ res r', ∃ A', reactor_at (release a own) r' A' ∧
    match res with
    | Ok _ => open A' ≡ₚ a :: open A ∧ set_user_data a (f zeroed_entry) ∈ staged A' ∧
        regs r' = regs r
    | Err e => (e = Custom Other "submission queue full" ∧ sq_full (dev r') A') ∧
        open A' ≡ₚ open A ∧ regs r' = drop_ref a (regs r)
    end) r.
Proof.
  intros Hat Ha Ha0 Hown Hnin Hfin Hlt. unfold queue_async. rewrite wp_bind.
  eapply wp_mono; [apply (queue_entry_spec f _ a own r A)|]; [|done|done|].
  { intros e. unfold into_user_data, user_data_ok. by rewrite (proj2 (Z.eqb_neq _ _) Ha0), Ha. }
  destruct Hat as [Hd Hb].
  intros [[]|[|[]]] r' (w & A' & Hd' & _ & Hres).
  - destruct Hres as (Ho & Hin & ->). apply wp_ret. exists A'. split_and!; try done.
    split; [done|]. eapply books_perm; [symmetry; exact Ho|].
    apply (books_dev _ w _ _ (books_submit own r (open A) a Ha Ha0 Hown Hnin Hfin Hb)).
  - destruct Hres as (Ho & Hfull & ->). rewrite wp_bind. unfold on_regs. rewrite wp_zoom. simpl.
    eapply wp_mono; [by apply (rc_drop_spec own r (open A) a)|]. intros [] h (-> & Hb').
    apply wp_ret. exists A'. split_and!; try done.
    split; [done|]. eapply books_perm; [symmetry; exact Ho|]. by destruct Hb'.
Qed.
End specs.
