(* ===== verification/AsyncIo.v ===== *)
(** * [tokio-uring-reactor/src/reactor/async_*.rs]: the futures

    [Handle], [AsyncPoll], [AsyncRead] and [AsyncWrite].  The latter two differ
    only in the entry they queue, so their common code is written once over the
    queueing function.  The state is the reactor's [Inner] and whether the [Rc]
    around it is alive; a future is passed and returned. *)

From S2P Require Import Prelude Std Sys Submission Ring Kern Mmap SubQueue CompQueue Rings.
From S2P Require Import QueueOps Registration Unpark Device Reactor.

Local Open Scope Z_scope.
Local Open Scope rust_scope.

(** [Rc<UnsafeCell<Inner>>] as a [Handle]'s [Weak] sees it. *)
Record Rt (W D : Type) : Type := mkRt { rt_alive : bool; rt_inner : RInner W D }.
Arguments mkRt {W D}.
Arguments rt_alive {W D}.
Arguments rt_inner {W D}.

(** [libc::iovec] *)
Record iovec : Type := mkIovec { iov_base : Z; iov_len : Z }.
Definition iovec_from (data : slice_ptr) : iovec := mkIovec (as_ptr data) (slice_len data).
Definition iovec_empty : iovec := mkIovec 0 0.

(** A [*mut libc::iovec] array of one element, boxed at [addr]. *)
Definition one_iovec (addr : Z) : slice_ptr := {| as_ptr := addr; slice_len := 1 |}.

Section async.
Context {W D : Type} `{!RingDevice W} `{!Others} `{!Build} `{!LibcPoll} `{!Alloc D}.
Abbreviation MRt := (M (Rt W D)).

Definition set_inner (r : RInner W D) (s : Rt W D) : Rt W D := mkRt (rt_alive s) r.
Definition on_inner {X} (m : M (RInner W D) X) : MRt X := zoom rt_inner set_inner m.
Definition on_heap {X} (m : M (Heap D) X) : MRt X := on_inner (on_regs m).

(** [Handle::inner_mut] *)
Definition inner_mut : MRt (result unit io_error) :=
  b ← gets rt_alive;
  mret (if (b : bool) then Ok tt else Err (Custom Other "uring reactor dead")).

(** Dropping the [Reactor], as its [Handle]s see it: it has the only strong
    reference, so that no [Handle] finds the [Inner] any more.  The state behind
    the flag stays, as the requests with the kernel keep their references and
    complete into it.  What is released with the [Inner] (the ring, the pipe, the
    timer) is [ReactorNew.Inner_drop]. *)
Definition Reactor_drop : MRt unit := modify (λ s, mkRt false (rt_inner s)).

(** [Park for Reactor]: parking goes to the pinned [Inner]. *)
Definition Reactor_park (fuel : nat) : MRt (result unit io_error) := on_inner (park fuel).
Definition Reactor_park_timeout (fuel : nat) (duration : Z) : MRt (result unit io_error) :=
  on_inner (park_timeout fuel duration).

(** [io::Error::from_raw_os_error(-result)] *)
Definition os_error_of (result : Z) : MRt io_error := n ← embed (neg_i32 result); mret (Os n).

(** ** [AsyncPoll] *)

Record AsyncPoll : Type := mkAsyncPoll {
  ap_fd : Z; ap_active : bool; ap_flags : Z; ap_registration : Z }.

Section poll.
Context `{!Boxed unit D}.

Definition AsyncPoll_new (fd flags : Z) : MRt AsyncPoll :=
  registration ← on_heap (Registration_new tt);
  mret (mkAsyncPoll fd false flags registration).

(** [Stream::poll] and [Future::poll], which track and poll the registration
    for a task and for a waker; [Ok None] is pending. *)
Definition AsyncPoll_poll_with (track_ : Z → M (Heap D) unit)
    (poll_ : Z → M (Heap D) (option UringResult)) (self : AsyncPoll)
    : MRt (result (option Z) io_error * AsyncPoll) :=
  let a := ap_registration self in
  if negb (ap_active self) then
    im ← inner_mut;
    match im with
    | Err e => mret (Err e, self)
    | Ok _ =>
        raw ← on_heap (to_raw a);
        q ← on_inner (queue_async_poll (ap_fd self) (ap_flags self) raw);
        match q with
        | Err e => mret (Err e, self)
        | Ok _ =>
            on_heap (track_ a);;
            mret (Ok None, mkAsyncPoll (ap_fd self) true (ap_flags self) a)
        end
    end
  else
    p ← on_heap (poll_ a);
    match p with
    | None => mret (Ok None, self)
    | Some r =>
        let self := mkAsyncPoll (ap_fd self) false (ap_flags self) a in
        if result_code r <? 0 then e ← os_error_of (result_code r); mret (Err e, self)
        else mret (Ok (Some (from_bits_truncate 16 (wrap 16 (result_code r)))), self)
    end.
Definition AsyncPoll_poll : AsyncPoll → MRt (result (option Z) io_error * AsyncPoll) :=
  AsyncPoll_poll_with track poll_stream_and_reset.
Definition AsyncPoll_poll_async (waker : Z) :
    AsyncPoll → MRt (result (option Z) io_error * AsyncPoll) :=
  AsyncPoll_poll_with (λ a, track_async a waker) (λ a, poll_stream_and_reset_async a waker).
End poll.

(** ** [AsyncRead] and [AsyncWrite] *)

(** A buffer and a file; [AsRawFd], and [AsMut<[u8]>] or [AsRef<[u8]>]; the
    address at which the data of a registration is boxed. *)
Context {B F : Type} (as_raw_fd : F → Z) (as_slice : B → slice_ptr) (iovec_addr : Z → Z).

Record Context_ : Type := mkContext { c_iovec : iovec; c_buffer : B; c_file : F }.
Context `{!Boxed Context_ D}.

(** [AsyncReadError], [AsyncWriteError] *)
Record AsyncError : Type := mkAsyncError { error_ : io_error; e_buffer : B; e_file : F }.
Definition with_error (c : Context_) (error : io_error) : AsyncError :=
  mkAsyncError error (c_buffer c) (c_file c).
(** [From<AsyncReadError> for io::Error] *)
Definition io_error_from (e : AsyncError) : io_error := error_ e.

Inductive State : Type :=
| Pending (reg : Z)
| InitFailed (e : AsyncError)
| Closed.

Definition AsyncRw_new (queue : Z → Z → slice_ptr → Z → M (RInner W D) (result unit io_error))
    (file : F) (offset : Z) (buffer : B) : MRt State :=
  let fd := as_raw_fd file in
  let context := mkContext iovec_empty buffer file in
  im ← inner_mut;
  match im with
  | Err e => mret (InitFailed (with_error context e))
  | Ok _ =>
      reg ← on_heap (Registration_new context);
      d ← on_heap (data_ref reg);
      on_heap (data_set reg (mkContext (iovec_from (as_slice (c_buffer d))) (c_buffer d) (c_file d)));;
      raw ← on_heap (to_raw reg);
      queue_result ← on_inner (queue fd offset (one_iovec (iovec_addr reg)) raw);
      match queue_result with
      | Err e =>
          o ← on_heap (abort reg);
          context ← expect o "registration context";
          mret (InitFailed (with_error context e))
      | Ok _ => mret (Pending reg)
      end
  end.
Definition AsyncRead_new : F → Z → B → MRt State := AsyncRw_new queue_async_read.
Definition AsyncWrite_new : F → Z → B → MRt State := AsyncRw_new queue_async_write.

(** [Future::poll], with the registration's [poll] or [poll_async]; [None] is
    pending.  Replacing the [Pending] state drops the registration. *)
Definition AsyncRw_poll_with (poll_ : Z → M (Heap D) (option (UringResult * Context_)))
    (self : State) : MRt (option (result (Z * B * F) AsyncError) * State) :=
  match self with
  | Pending p =>
      o ← on_heap (poll_ p);
      match o with
      | None => mret (None, self)
      | Some (r, context) =>
          result ← (if result_code r <? 0 then
                      e ← os_error_of (result_code r); mret (Err (with_error context e))
                    else mret (Ok (result_code r, c_buffer context, c_file context)));
          on_heap (rc_drop p);;
          mret (Some result, Closed)
      end
  | InitFailed e => mret (Some (Err e), Closed)
  | Closed => panic "already finished"
  end.
Definition AsyncRw_poll : State → MRt (option (result (Z * B * F) AsyncError) * State) :=
  AsyncRw_poll_with poll.
Definition AsyncRw_poll_async (waker : Z) :
    State → MRt (option (result (Z * B * F) AsyncError) * State) :=
  AsyncRw_poll_with (λ a, poll_async a waker).


(** [async_write.rs] repeats [async_read.rs] for the other operation, with types
    of its own. *)
Definition AsyncWriteContext : Type := Context_.
Definition AsyncWriteError : Type := AsyncError.
Definition AsyncWriteState : Type := State.
Definition write_with_error (c : AsyncWriteContext) (error : io_error) : AsyncWriteError :=
  mkAsyncError error (c_buffer c) (c_file c).
Definition write_error_into (e : AsyncWriteError) : io_error := error_ e.

Definition AsyncRead_poll : State → MRt (option (result (Z * B * F) AsyncError) * State) :=
  AsyncRw_poll.
Definition AsyncRead_poll_async (waker : Z) :
    State → MRt (option (result (Z * B * F) AsyncError) * State) := AsyncRw_poll_async waker.
Definition AsyncWrite_poll : AsyncWriteState →
    MRt (option (result (Z * B * F) AsyncWriteError) * AsyncWriteState) := AsyncRw_poll.
Definition AsyncWrite_poll_async (waker : Z) : AsyncWriteState →
    MRt (option (result (Z * B * F) AsyncWriteError) * AsyncWriteState) := AsyncRw_poll_async waker.

(** ** [Handle] *)

Definition Handle_async_read (file : F) (offset : Z) (buf : B) : MRt State :=
  AsyncRead_new file offset buf.
Definition Handle_async_write (file : F) (offset : Z) (buf : B) : MRt AsyncWriteState :=
  AsyncWrite_new file offset buf.
Definition Handle_async_poll `{!Boxed unit D} (fd flags : Z) : MRt AsyncPoll :=
  AsyncPoll_new fd flags.

(** [Debug] shows the variant, with the registration of a pending operation
    and the error of a failed one. *)
Definition State_fmt (self : State)
    : MRt (string * option (Z * bool * UringResult) * option io_error) :=
  match self with
  | Pending p => f ← on_heap (Registration_fmt p); mret ("Pending", Some f, None)
  | InitFailed e => mret ("InitFailed", None, Some (error_ e))
  | Closed => mret ("Closed", None, None)
  end.
Definition AsyncWriteState_fmt (self : AsyncWriteState)
    : MRt (string * option (Z * bool * UringResult) * option io_error) := State_fmt self.

(** ** Only [Reactor_drop] ends the reactor *)

Lemma on_inner_alive {X} (m : M (RInner W D) X) : preserves rt_alive (on_inner m).
Proof. by apply preserves_zoom. Qed.
Lemma on_heap_alive {X} (m : M (Heap D) X) : preserves rt_alive (on_heap m).
Proof. apply on_inner_alive. Qed.
#[local] Hint Resolve on_inner_alive on_heap_alive : preserves.
Lemma inner_mut_alive : preserves rt_alive inner_mut.
Proof. unfold inner_mut. solve_preserves. Qed.
Lemma os_error_alive r : preserves rt_alive (os_error_of r).
Proof. unfold os_error_of, embed. solve_preserves. Qed.
#[local] Hint Resolve inner_mut_alive os_error_alive : preserves.

Lemma AsyncPoll_poll_alive track_ poll_ p : preserves rt_alive (AsyncPoll_poll_with track_ poll_ p).
Proof. unfold AsyncPoll_poll_with. solve_preserves. Qed.
Lemma Handle_async_poll_alive `{!Boxed unit D} fd flags : preserves rt_alive (Handle_async_poll fd flags).
Proof. unfold Handle_async_poll, AsyncPoll_new. solve_preserves. Qed.
Lemma AsyncRw_poll_alive poll_ st : preserves rt_alive (AsyncRw_poll_with poll_ st).
Proof. unfold AsyncRw_poll_with, panic. solve_preserves. Qed.
Lemma AsyncRw_new_alive queue file offset buffer : preserves rt_alive (AsyncRw_new queue file offset buffer).
Proof. unfold AsyncRw_new. solve_preserves. Qed.
End async.

#[export] Hint Resolve on_inner_alive on_heap_alive AsyncPoll_poll_alive Handle_async_poll_alive
  AsyncRw_poll_alive AsyncRw_new_alive : preserves.
