(* ===== verification/AsyncProps.v ===== *)
(** * From submission to result: what the futures promise

    A read or write is submitted with its buffer and file in a registration
    the kernel's completion will find, its result is delivered with them, and
    when it cannot be submitted they are given back with the error. *)

From S2P Require Import Prelude Std Sys Submission Ring Kern Mmap SubQueue CompQueue Rings.
From S2P Require Import QueueOps Registration RegistrationProps Unpark Device Reactor.
From S2P Require Import ReactorProps AsyncIo.

Local Open Scope Z_scope.
Local Open Scope rust_scope.

(** [own] with [n] references to [a]. *)
Definition acquire (a : Z) (n : nat) (own : Z → nat) : Z → nat :=
  λ b, if decide (b = a) then n else own b.

(** ** Delivery, seen from one registration *)

Section delivery.
Context {D : Type}.
Implicit Types (h : Heap D).

Lemma woken_deliver h x : woken h `prefix_of` woken (deliver_to h x).
Proof.
  unfold deliver_to, complete_cell. case_match; [|done]. case_match; [|done].
  by repeat case_match; eexists.
Qed.
Lemma woken_delivers h xs : woken h `prefix_of` woken (fold_left deliver_to xs h).
Proof.
  revert h. induction xs as [|x xs IH]; intros h; [done|]. simpl.
  etrans; [apply woken_deliver|apply IH].
Qed.

Lemma deliver_self h x a n i : Z.land a 1 = 0 → cqe_user_data x = a →
  live a (S (S n)) i h →
  live a (S n) (mkInner (result_of x) true Empty (data i)) (deliver_to h x) ∧
  woken (deliver_to h x) = (woken h ++ wakes (waker_ i))%list.
Proof.
  intros Ha <- Hl. unfold deliver_to. rewrite Ha. unfold complete_cell, live in *. rewrite Hl.
  simpl. by rewrite lookup_insert_eq.
Qed.

(** The completion of [a] among others. *)
Lemma delivers_one h xs x a n i : Z.land a 1 = 0 → x ∈ xs → cqe_user_data x = a →
  (occ a (cqe_user_data <$> xs) ≤ 1)%nat → live a (S (S n)) i h →
  live a (S n) (mkInner (result_of x) true Empty (data i)) (fold_left deliver_to xs h) ∧
  ∃ ws, woken (fold_left deliver_to xs h) = (woken h ++ ws)%list ∧ wakes (waker_ i) ⊆+ ws.
Proof.
  intros Ha Hx Hxa Hocc Hl. apply list_elem_of_split in Hx as (l1 & l2 & ->).
  rewrite fmap_app, occ_app in Hocc. csimpl in Hocc. rewrite occ_cons, Hxa, decide_True in Hocc by done.
  assert (a ∉ (cqe_user_data <$> l1) ∧ a ∉ (cqe_user_data <$> l2)) as [H1 H2]
    by (split; apply occ_zero; lia).
  rewrite fold_left_app. simpl. set (h1 := fold_left deliver_to l1 h).
  assert (live a (S (S n)) i h1) as Hl1 by (unfold live, h1; by rewrite delivers_other).
  destruct (deliver_self h1 x a n i Ha Hxa Hl1) as [Hl2 Hw2]. split.
  - unfold live. by rewrite delivers_other.
  - destruct (woken_delivers h l1) as [w1 Hw1]. fold h1 in Hw1.
    destruct (woken_delivers (deliver_to h1 x) l2) as [w3 Hw3].
    exists (w1 ++ wakes (waker_ i) ++ w3)%list.
    split; [by rewrite Hw3, Hw2, Hw1, <-!app_assoc|].
    apply submseteq_inserts_l, submseteq_inserts_r. done.
Qed.
End delivery.

Section futures.
Context {W D : Type} `{R : !RingDevice W} `{!RingDeviceOk R} `{!Others} `{!OthersOk _}
  `{!Build} `{!LibcPoll} `{!Alloc D} `{!AllocOk _}.
Context {B F : Type} (as_raw_fd : F → Z) (as_slice : B → slice_ptr) (iovec_addr : Z → Z).
Context `{Bx : !Boxed (Context_ (B := B) (F := F)) D} `{!BoxedOk Bx}.
Implicit Types (r : RInner W D) (A : Rings) (own : Z → nat) (s : Rt W D).

(** ** A turn, seen from one registration *)

Lemma turned_occ own r A xs r' A' a : Z.land a 1 = 0 → turned own r A xs r' A' →
  occ a (open A) = (occ a (cqe_user_data <$> xs) + occ a (open A'))%nat.
Proof.
  intros Ha (_ & _ & polls & Hpolls & Hperm).
  assert (occ a polls = 0%nat) as Hz.
  { apply occ_zero. intros Hin. apply (elem_of_submseteq _ _ _ Hin) in Hpolls.
    apply elem_of_cons in Hpolls as [->|Hpolls%list_elem_of_singleton]; [done|by subst]. }
  assert (occ a (polls ++ open A) = occ a ((cqe_user_data <$> xs) ++ open A'))%nat as He
    by by rewrite Hperm.
  rewrite !occ_app in He. lia.
Qed.
Lemma turned_once own r A xs r' A' a : Z.land a 1 = 0 → turned own r A xs r' A' →
  reactor_at own r A → (occ a (cqe_user_data <$> xs) ≤ 1)%nat.
Proof.
  intros Ha Ht [_ Hb]. pose proof (turned_occ _ _ _ _ _ _ a Ha Ht) as Ho.
  pose proof (bk_regs _ _ _ Hb a Ha) as Hra.
  destruct (cells (regs r) !! a); [lia|]. destruct Hra as [_ Hz%occ_zero]. lia.
Qed.

Lemma books_new own r l a n i : cells (regs r) !! a = None → Z.land a 1 = 0 → n ≠ 0%nat →
  books own r l → books (acquire a n own) (set_regs (cell_put a n i (regs r)) r) l.
Proof.
  intros Hn Ha Hn0 []. constructor; simpl; try done. intros b Hb. specialize (bk_regs b Hb).
  unfold acquire. destruct (decide (b = a)) as [->|Hne].
  - rewrite lookup_insert_eq. simpl. rewrite Hn in bk_regs. destruct bk_regs as [_ Hnin].
    rewrite (proj2 (occ_zero a l)) by done. split_and!; try done; lia.
  - by rewrite lookup_insert_ne by done.
Qed.
Lemma books_own own own' r l : (∀ a, own a = own' a) → books own r l → books own' r l.
Proof.
  intros He []. constructor; try done. intros a Ha. specialize (bk_regs a Ha).
  destruct (cells (regs r) !! a); by rewrite <-He.
Qed.

Lemma books_free own r l a : Z.land a 1 = 0 → a ∉ l → books own r l →
  books (acquire a 0 own) (set_regs (set_cells (delete a) (regs r)) r) l.
Proof.
  intros Ha Hl []. constructor; simpl; try done. intros b Hb. specialize (bk_regs b Hb).
  unfold acquire. destruct (decide (b = a)) as [->|Hne].
  - by rewrite lookup_delete_eq.
  - by rewrite lookup_delete_ne by done.
Qed.

(** A new registration with both its references; and its books when it is given
    up again, as the request could not be submitted. *)
Lemma reactor_at_new own r A a i : cells (regs r) !! a = None → Z.land a 1 = 0 → reactor_at own r A →
  own a = 0%nat ∧ a ∉ open A ∧ reactor_at (acquire a 2 own) (set_regs (cell_put a 2 i (regs r)) r) A.
Proof.
  intros Hn Ha [Hd Hb]. pose proof (bk_regs _ _ _ Hb a Ha) as Hra. rewrite Hn in Hra.
  destruct Hra as [Hown Hnin]. split_and!; [done..|]. split; [done|]. by apply books_new.
Qed.
Lemma books_given_up own r l a i h : cells h !! a = None → regs r = cell_put a 1 i h →
  Z.land a 1 = 0 → own a = 0%nat → a ∉ l → books (release a (acquire a 2 own)) r l →
  books own (set_regs h r) l.
Proof.
  intros Hn Hr Ha Hown Hl Hb. apply (books_own (acquire a 0 (release a (acquire a 2 own)))).
  { intros b. unfold acquire, release. destruct (decide (b = a)) as [->|]; [by rewrite Hown|done]. }
  replace h with (set_cells (delete a) (regs r)) by (by rewrite Hr, delete_put). by apply books_free.
Qed.

(** A heap operation that runs, inside the runtime. *)
Lemma wp_on_heap {X} (m : M (Heap D) X) x h (Q : X → Rt W D → Prop) s :
  m (regs (rt_inner s)) = (Done x, h) →
  Q x (set_inner (set_regs h (rt_inner s)) s) → wp (on_heap m) Q s.
Proof.
  intros Hm HQ. unfold on_heap, on_inner, on_regs. rewrite !wp_zoom. apply wp_run. by exists x, h.
Qed.

Definition io_context (buffer : B) (file : F) : Context_ :=
  mkContext (iovec_from (as_slice buffer)) buffer file.

(** Starting a read or write. *)
Lemma AsyncRw_new_spec queue g file offset buffer own s A
    (c := io_context buffer file) (a := alloc (cells (regs (rt_inner s)))) :
  (∀ fd v reg, queue fd offset v reg = queue_async (λ e, g e fd v) reg) →
  rt_alive s = true → reactor_at own (rt_inner s) A →
  spare 1 A →
  wp (AsyncRw_new as_raw_fd as_slice iovec_addr queue file offset buffer) (λ st s', ∃ A',
    rt_alive s' = true ∧
    match st with
    | Pending a' => a' = a ∧ reactor_at (acquire a 1 own) (rt_inner s') A' ∧
        open A' ≡ₚ a :: open A ∧
        set_user_data a (g zeroed_entry (as_raw_fd file) (one_iovec (iovec_addr a))) ∈ staged A' ∧
        regs (rt_inner s') = cell_put a 2 (waiting_on Empty c) (regs (rt_inner s))
    | InitFailed e => (e = mkAsyncError (Custom Other "submission queue full") buffer file ∧
          sq_full (dev (rt_inner s')) A') ∧
        reactor_at own (rt_inner s') A' ∧ open A' ≡ₚ open A ∧
        regs (rt_inner s') = regs (rt_inner s)
    | Closed => False
    end) s.
Proof.
  intros Hq Hal Hat Hlt. set (h := regs (rt_inner s)) in *.
  destruct (alloc_valid (cells h)) as [Ha0 Ha]. fold a in Ha0, Ha.
  assert (cells h !! a = None) as Hfresh by apply alloc_fresh.
  unfold AsyncRw_new, inner_mut. wp_simp. rewrite Hal. wp_simp.
  set (c0 := mkContext iovec_empty buffer file).
  apply (wp_on_heap _ a (cell_put a 1 (waiting_on Empty c0) h)); [done|].
  pose proof (live_put a 1 (waiting_on Empty c0) h) as Hl0. wp_simp.
  apply (wp_on_heap _ c0 (cell_put a 1 (waiting_on Empty c0) h)).
  { simpl. unfold data_ref. erewrite run_bind_done by by eapply run_inner_get.
    simpl. unfold mbind, M_bind. simpl. by rewrite (downcast_box (B := Bx)). }
  wp_simp. fold (io_context buffer file). fold c.
  apply (wp_on_heap _ tt (cell_put a 1 (waiting_on Empty c) h)).
  { simpl. unfold data_set. erewrite run_bind_done by by eapply run_inner_get.
    erewrite run_inner_put by done. by rewrite cell_put_twice. }
  pose proof (live_put a 1 (waiting_on Empty c) h) as Hl1. wp_simp.
  apply (wp_on_heap _ a (cell_put a 2 (waiting_on Empty c) h)).
  { simpl. unfold to_raw. erewrite run_bind_done by by eapply run_rc_clone.
    by rewrite cell_put_twice. }
  wp_simp. rewrite Hq. unfold on_inner. wp_simp.
  pose proof (live_put a 2 (waiting_on Empty c) h) as Hl2.
  set (h2 := cell_put a 2 (waiting_on Empty c) h) in *. unfold set_inner. simpl.
  destruct (reactor_at_new own (rt_inner s) A a (waiting_on Empty c) Hfresh Ha Hat) as (Hown & Hnin & Hat2).
  fold h h2 in Hat2.
  eapply wp_mono.
  { apply (queue_async_spec (λ e, g e (as_raw_fd file) (one_iovec (iovec_addr a))) a
      (acquire a 2 own) (set_regs h2 (rt_inner s)) A); try done.
    - unfold acquire. by rewrite decide_True.
    - intros b Hb'. change (cells h2 !! a = Some b) in Hb'. unfold live in Hl2.
      rewrite Hl2 in Hb'. by simplify_eq. }
  intros [[]|e] r' (A' & [Hd' Hb'] & Hres); simpl in *.
  - destruct Hres as (Ho & Hin & Hr). apply wp_ret. exists A'. split; [done|].
    split_and!; try done. split; [done|].
    eapply books_own; [|exact Hb']. intros b. unfold release, acquire. by destruct (decide (b = a)).
  - destruct Hres as ([-> Hfull] & Ho & Hr). wp_simp.
    assert (drop_ref a h2 = cell_put a 1 (waiting_on Empty c) h) as Hdrop.
    { unfold drop_ref. unfold live in Hl2. rewrite Hl2. simpl. apply cell_put_twice. }
    apply (wp_on_heap _ (Some c) h).
    { simpl. rewrite Hr, Hdrop. erewrite run_abort by done. rewrite decide_True by done.
      by rewrite delete_put. }
    wp_simp. exists c. split; [done|]. wp_simp. exists A'. split; [done|].
    split_and!; try done. split; [done|].
    apply (books_given_up own r' (open A') a (waiting_on Empty c)); try done; [by rewrite Hr|by rewrite Ho].
Qed.

(** The result of the operation, with its buffer and file. *)
Definition io_result (code : Z) (c : Context_) : result (Z * B * F) (AsyncError (B := B) (F := F)) :=
  if code <? 0 then Err (mkAsyncError (Os (- code)) (c_buffer c) (c_file c))
  else Ok (code, c_buffer c, c_file c).

Lemma AsyncRw_poll_ready poll_ a n res w c own s A :
  Z.land a 1 = 0 → own a = S n → reactor_at own (rt_inner s) A →
  live a (S n) (finished_with res w (Some c)) (regs (rt_inner s)) →
  overflow_checks = false ∨ - 2 ^ 31 < result_code res →
  (∀ h, ∃ register, poll_ h = poll_with register a h) →
  wp (AsyncRw_poll_with (λ _, poll_) (Pending a)) (λ o s',
    (∃ v, o = (Some v, Closed) ∧ (- 2 ^ 31 < result_code res → v = io_result (result_code res) c)) ∧
    reactor_at (release a own) (rt_inner s') A ∧ rt_alive s' = rt_alive s ∧
    regs (rt_inner s') = drop_ref a (cell_put a (S n) (finished_with res w (None (A := Context_)))
      (regs (rt_inner s)))) s.
Proof.
  intros Ha Hown [Hd Hb] Hl Hmin Hpoll. unfold AsyncRw_poll_with. set (h := regs (rt_inner s)) in *.
  set (h1 := cell_put a (S n) (finished_with res w (None (A := Context_))) h).
  assert (poll_ h = (Done (Some (res, c)), h1)) as Hrun.
  { destruct (Hpoll h) as [register ->]. exact (run_poll_ready _ _ _ _ _ c Hl eq_refl eq_refl). }
  assert (books own (set_regs h1 (rt_inner s)) (open A)) as Hb1.
  { destruct Hb. constructor; simpl; try done. intros b Hbe. specialize (bk_regs b Hbe).
    destruct (decide (b = a)) as [->|Hne]; [|by rewrite lookup_insert_ne].
    rewrite lookup_insert_eq. simpl. unfold live, h in Hl. rewrite Hl in bk_regs. simpl in bk_regs.
    done. }
  rewrite wp_bind. apply (wp_on_heap _ (Some (res, c)) h1); [exact Hrun|].
  assert (∀ v, (- 2 ^ 31 < result_code res → v = io_result (result_code res) c) →
    wp (on_heap (rc_drop a);; mret (Some v, Closed (B := B) (F := F))) (λ o s',
      (∃ v, o = (Some v, Closed) ∧ (- 2 ^ 31 < result_code res → v = io_result (result_code res) c)) ∧
      reactor_at (release a own) (rt_inner s') A ∧ rt_alive s' = rt_alive s ∧
      regs (rt_inner s') = drop_ref a h1) (set_inner (set_regs h1 (rt_inner s)) s)) as Hend.
  { intros v Hv. rewrite wp_bind. unfold on_heap, on_inner, on_regs. rewrite !wp_zoom.
    eapply wp_mono; [apply (rc_drop_spec own (set_regs h1 (rt_inner s)) (open A) a); [done|lia|done]|].
    intros [] h2 [Hh2 Hb2]. apply wp_ret. split_and!; try done. by eexists. }
  rewrite wp_bind. unfold io_result in *. destruct (Z.ltb_spec (result_code res) 0) as [Hneg|Hpos].
  - unfold os_error_of. rewrite !wp_bind. unfold embed, neg_i32.
    destruct (decide (result_code res = - 2 ^ 31)) as [Heq|Hne].
    + destruct Hmin as [->|Hmin]; [|lia]. unfold wp at 1. apply wp_ret, wp_ret, Hend. lia.
    + unfold wp at 1. by apply wp_ret, wp_ret, Hend.
  - by apply wp_ret, Hend.
Qed.

(** [Handle::async_read] and [Handle::async_write], and what they submit. *)
Definition start (write : bool) : F → Z → B → M (Rt W D) (State (B := B) (F := F)) :=
  if write then Handle_async_write as_raw_fd as_slice iovec_addr
  else Handle_async_read as_raw_fd as_slice iovec_addr.
Definition io_entry (write : bool) (fd offset a : Z) : SubmissionEntry :=
  set_user_data a
    ((if write then writev else readv) zeroed_entry IoPriority_None (FD fd) offset 0
       (one_iovec (iovec_addr a))).

Lemma start_spec write file offset buffer own s A
    (a := alloc (cells (regs (rt_inner s)))) :
  rt_alive s = true → reactor_at own (rt_inner s) A → spare 1 A →
  wp (start write file offset buffer) (λ st s', ∃ A', rt_alive s' = true ∧
    match st with
    | Pending a' => a' = a ∧ reactor_at (acquire a 1 own) (rt_inner s') A' ∧
        open A' ≡ₚ a :: open A ∧ io_entry write (as_raw_fd file) offset a ∈ staged A' ∧
        regs (rt_inner s') = cell_put a 2 (waiting_on Empty (io_context buffer file)) (regs (rt_inner s))
    | InitFailed e => (e = mkAsyncError (Custom Other "submission queue full") buffer file ∧
          sq_full (dev (rt_inner s')) A') ∧
        reactor_at own (rt_inner s') A' ∧ open A' ≡ₚ open A ∧
        regs (rt_inner s') = regs (rt_inner s)
    | Closed => False
    end) s.
Proof.
  intros Hal Hat Hlt. destruct write.
  - by apply (AsyncRw_new_spec _ (λ e fd v, writev e IoPriority_None (FD fd) offset 0 v)).
  - by apply (AsyncRw_new_spec _ (λ e fd v, readv e IoPriority_None (FD fd) offset 0 v)).
Qed.

(** C17: starting a read or write either submits one entry that names the
    operation, the descriptor, the offset, the address of the iovec boxed in
    the registration, and the registration itself, the buffer and file being
    in that registration; or, only while every slot of the submission queue
    holds an entry the kernel has not taken, gives buffer and file back at the
    first poll with the error, having left no request and no memory behind;
    polling again panics. *)
Theorem async_io_starts write file offset buffer own s A
    (Hal : rt_alive s = true) (Hat : reactor_at own (rt_inner s) A)
    (Hlt : spare 1 A) :
  ∃ st s' A', start write file offset buffer s = (Done st, s') ∧
    ((∃ a, st = Pending a ∧ a ∉ open A ∧ open A' ≡ₚ a :: open A ∧
        reactor_at (acquire a 1 own) (rt_inner s') A' ∧
        io_entry write (as_raw_fd file) offset a ∈ staged A' ∧
        live a 2 (waiting_on Empty (io_context buffer file)) (regs (rt_inner s'))) ∨
     (∃ e, st = InitFailed e ∧ sq_full (dev (rt_inner s')) A' ∧
        open A' ≡ₚ open A ∧ regs (rt_inner s') = regs (rt_inner s) ∧
        reactor_at own (rt_inner s') A' ∧
        AsyncRw_poll st s' = (Done (Some (Err
          (mkAsyncError (Custom Other "submission queue full") buffer file)), Closed), s') ∧
        AsyncRw_poll (Closed (B := B) (F := F)) s' = (Panic "already finished", s'))).
Proof.
  pose proof (start_spec write file offset buffer own s A Hal Hat Hlt) as Hw.
  apply wp_run in Hw as (st & s' & Hrun & A' & _ & Hst). exists st, s', A'. split; [done|].
  destruct st as [a|e|]; [| |done].
  - left. destruct Hst as (-> & Hat' & Ho & Hin & Hl). eexists.
    split_and!; try done; [|rewrite Hl; apply live_put]. destruct (alloc_valid (cells (regs (rt_inner s)))) as [_ Ha].
    pose proof (bk_regs _ _ _ (proj2 Hat) _ Ha) as Hra. rewrite alloc_fresh in Hra. apply Hra.
  - right. destruct Hst as ([-> Hfull] & Hat' & Ho & Hr). eexists. by split_and!.
Qed.

Lemma start_dead write file offset buffer s : rt_alive s = false →
  start write file offset buffer s =
    (Done (InitFailed (mkAsyncError (Custom Other "uring reactor dead") buffer file)), s).
Proof. destruct s as [al r]. simpl. intros ->. by destruct write. Qed.

(** A dead reactor is reported through the future: nothing is submitted or
    allocated, and the first poll returns buffer and file with the error. *)
Theorem async_io_dead_handle write file offset buffer s (Hdead : rt_alive s = false) :
  ∃ e, start write file offset buffer s = (Done (InitFailed e), s) ∧
    AsyncRw_poll (InitFailed e) s = (Done (Some (Err e), Closed), s) ∧
    e = mkAsyncError (Custom Other "uring reactor dead") buffer file ∧
    io_error_from e = Custom Other "uring reactor dead".
Proof.
  eexists. split_and!; [by apply start_dead|done..].
Qed.

(** C11: the completion of a read or write reaches its future: when a turn of
    the reactor delivers the completion of a pending operation, the waker
    registered last is woken, and the next poll, by a task or with a waker,
    returns the buffer and file given at the start with the number of bytes,
    or the error [-result] names; the registration is freed by it. *)
Theorem async_io_completes poll_ a c w own s A xs x r' A'
    (Ha : Z.land a 1 = 0) (Hown : own a = 1%nat) (Hat : reactor_at own (rt_inner s) A)
    (Hl : live a 2 (waiting_on w c) (regs (rt_inner s)))
    (Hturn : turned own (rt_inner s) A xs r' A')
    (Hx : x ∈ xs) (Hxa : cqe_user_data x = a) (Hmin : - 2 ^ 31 < cqe_res x)
    (Hpoll : poll_ = poll a ∨ ∃ wk, poll_ = poll_async a wk) :
  (∃ ws, woken (regs r') = (woken (regs (rt_inner s)) ++ ws)%list ∧ wakes w ⊆+ ws) ∧
  ∃ s', AsyncRw_poll_with (λ _, poll_) (Pending a) (set_inner r' s) =
      (Done (Some (io_result (cqe_res x) c), Closed), s') ∧
    reactor_at (release a own) (rt_inner s') A' ∧ cells (regs (rt_inner s')) !! a = None.
Proof.
  pose proof (turned_once own (rt_inner s) A xs r' A' a Ha Hturn Hat) as Hocc.
  destruct Hturn as (Hat' & [_ Hregs] & _).
  destruct (delivers_one _ xs x a 0 _ Ha Hx Hxa Hocc Hl) as [Hl' Hwake]. rewrite <-Hregs in *.
  split; [exact Hwake|].
  pose proof (AsyncRw_poll_ready poll_ a 0 (result_of x) Empty c own (set_inner r' s) A'
    Ha Hown Hat' Hl' (or_intror Hmin)) as Hw.
  apply wp_run in Hw as (o & s' & Hrun & (v & -> & Hv) & Hat2 & _ & Hfree).
  - exists s'. split_and!; [|done|].
    { change (cqe_res x) with (result_code (result_of x)). rewrite <-Hv by done. exact Hrun. }
    rewrite Hfree. unfold drop_ref. simpl.
    rewrite lookup_insert_eq. simpl. by rewrite lookup_delete_eq.
  - intros h. destruct Hpoll as [->|[wk ->]]; by eexists.
Qed.
End futures.
