(* ===== verification/Clients.v ===== *)
(** * Programs over the reactor: any use of its futures is safe, none stalls

    The state of a program is the runtime and the futures it holds, each with
    the waker of its last poll; its commands start reads and writes, watch
    descriptors, poll and drop futures, park the reactor and drop it, in any
    order. *)

From S2P Require Import Prelude Std Sys Submission Ring Kern Mmap SubQueue CompQueue Rings.
From S2P Require Import QueueOps Registration RegistrationProps Unpark Device Reactor.
From S2P Require Import ReactorProps AsyncIo AsyncProps.

Local Open Scope Z_scope.
Local Open Scope rust_scope.

(** ** The heap, seen from the books *)

Section heap.
Context {W D : Type}.
Implicit Types (r : RInner W D) (h : Heap D) (own : Z → nat).

(** A change of the heap the reactor's books do not see. *)
Definition same_cell (a : Z) (l : list Z) (o o' : option (RcBox D)) : Prop :=
  match o, o' with
  | Some b, Some b' => strong b' = strong b ∧ (a ∈ l → finished (value b') = finished (value b))
  | None, None => True
  | _, _ => False
  end.
Lemma books_cells own r l h :
  (∀ a, same_cell a l (cells (regs r) !! a) (cells h !! a)) →
  books own r l → books own (set_regs h r) l.
Proof.
  intros Hs []. constructor; simpl; try done. intros a Ha. specialize (Hs a). specialize (bk_regs a Ha).
  unfold same_cell in Hs. destruct (cells (regs r) !! a), (cells h !! a); try done.
  destruct Hs as [-> Hf], bk_regs as (? & ? & ? & ?). split_and!; try done. intros Hin. rewrite Hf; auto.
Qed.
Lemma same_cell_refl a l o : same_cell a l o o.
Proof. by destruct o. Qed.

(** A new value for a registration. *)
Lemma books_put own r l a n i i' h : live a n i (regs r) → cells h = cells (regs r) →
  (a ∈ l → finished i' = finished i) →
  books own r l → books own (set_regs (cell_put a n i' h) r) l.
Proof.
  intros Hl Hc Hf. apply books_cells. intros b. simpl. rewrite Hc.
  destruct (decide (b = a)) as [->|Hne]; [|rewrite lookup_insert_ne by done; apply same_cell_refl].
  rewrite lookup_insert_eq. unfold live in Hl. rewrite Hl. by split.
Qed.
(** Another reference to a registration. *)
Lemma books_clone own r l a n i h : live a n i (regs r) → cells h = cells (regs r) → Z.land a 1 = 0 →
  books own r l → books (acquire a (S (own a)) own) (set_regs (cell_put a (S n) i h) r) l.
Proof.
  intros Hl Hc Ha []. constructor; simpl; try done. intros b Hb. specialize (bk_regs b Hb).
  unfold acquire. rewrite Hc. destruct (decide (b = a)) as [->|Hne].
  - rewrite lookup_insert_eq. unfold live in Hl. rewrite Hl in bk_regs. simpl in *.
    destruct bk_regs as (? & ? & ? & ?). split_and!; try done; lia.
  - by rewrite lookup_insert_ne by done.
Qed.
End heap.

(** ** Programs *)

Section programs.
Context {W D : Type} `{R : !RingDevice W} `{!Others} `{!Build} `{!LibcPoll} `{!Alloc D}.
Context {B F : Type} (as_raw_fd : F → Z) (as_slice : B → slice_ptr) (iovec_addr : Z → Z).
Context `{Bx : !Boxed (Context_ (B := B) (F := F)) D} `{Bu : !Boxed unit D}.

(** A future polled to its end, or dropped, is [Gone]. *)
Inductive Fut : Type :=
| Io (st : State (B := B) (F := F))
| Ready (p : AsyncPoll)
| Gone.
Record Client : Type := mkClient { fut : Fut; last_poll : CompatWaker }.

(** A task of the executor, or a waker. *)
Inductive poller : Type := ByTask (task : Z) | ByWaker (waker : Z).
Definition poller_waker (b : poller) : CompatWaker :=
  match b with ByTask t => Old t | ByWaker w => New w end.

Inductive cmd : Type :=
| CStart (write : bool) (file : F) (offset : Z) (buffer : B)
| CWatch (fd flags : Z)
| CPoll (i : nat) (b : poller)
| CDrop (i : nat)
| CPark (timeout : option Z)
| CShutdown.

Definition reg_of (c : Client) : option Z :=
  match fut c with Io (Pending a) => Some a | Ready p => Some (ap_registration p) | _ => None end.

(** The executor makes the task it polls the current one. *)
Definition poll_by {X Y} (b : poller) (old : X → M (Rt W D) Y) (new : Z → X → M (Rt W D) Y) (x : X)
    : M (Rt W D) Y :=
  match b with
  | ByTask t => on_heap (modify (set_task (Some t)));; old x
  | ByWaker w => new w x
  end.

Definition exec_poll (b : poller) (f : Fut) : M (Rt W D) Fut :=
  match f with
  | Io st =>
      '(o, st) ← poll_by b AsyncRw_poll AsyncRw_poll_async st;
      mret (match o with None => Io st | Some _ => Gone end)
  | Ready p =>
      '(_, p) ← poll_by b AsyncPoll_poll AsyncPoll_poll_async p; mret (Ready p)
  | Gone => mret Gone
  end.
Definition exec_drop (c : Client) : M (Rt W D) unit :=
  match reg_of c with Some a => on_heap (rc_drop a) | None => mret tt end.

Definition exec (fuel : nat) (c : cmd) (cs : list Client) : M (Rt W D) (list Client) :=
  match c with
  | CStart write file offset buffer =>
      st ← start as_raw_fd as_slice iovec_addr write file offset buffer;
      mret (cs ++ [mkClient (Io st) Empty])%list
  | CWatch fd flags =>
      p ← Handle_async_poll fd flags; mret (cs ++ [mkClient (Ready p) Empty])%list
  | CPoll i b =>
      match cs !! i with
      | None => mret cs
      | Some c => f ← exec_poll b (fut c); mret (<[i := mkClient f (poller_waker b)]> cs)
      end
  | CDrop i =>
      match cs !! i with
      | None => mret cs
      | Some c => exec_drop c;; mret (<[i := mkClient Gone Empty]> cs)
      end
  | CPark timeout =>
      (* a reactor that was dropped cannot be parked *)
      alive ← gets rt_alive;
      if (alive : bool) then
        match timeout with
        | Some d => Reactor_park_timeout fuel d
        | None => Reactor_park fuel
        end;;
        mret cs
      else mret cs
  | CShutdown => Reactor_drop;; mret cs
  end.
Fixpoint exec_all (fuel : nat) (cmds : list cmd) (cs : list Client) : M (Rt W D) (list Client) :=
  match cmds with
  | [] => mret cs
  | c :: cmds => cs ← exec fuel c cs; exec_all fuel cmds cs
  end.
End programs.
Arguments Fut B F : clear implicits.
Arguments Client B F : clear implicits.
