(* ===== verification/ClientProps.v ===== *)
(** * What every program over the reactor can rely on

    The invariant of [Clients] programs: the references to the registrations
    are exactly those of the futures and of the outstanding requests, and every
    pending future either has its result, and was woken, or has its request
    with the ring and its waker registered. *)

From S2P Require Import Prelude Std Sys Submission Ring Kern Mmap SubQueue CompQueue Rings.
From S2P Require Import QueueOps Registration RegistrationProps Unpark Device Reactor.
From S2P Require Import ReactorProps AsyncIo AsyncProps Clients.

Local Open Scope Z_scope.
Local Open Scope rust_scope.

Section clients.
Context {W D : Type} `{R : !RingDevice W} `{!RingDeviceOk R} `{!Others} `{!OthersOk _}
  `{!Build} `{!LibcPoll} `{!Alloc D} `{!AllocOk _}.
Context {B F : Type}.
Context `{Bx : !Boxed (Context_ (B := B) (F := F)) D} `{!BoxedOk Bx}.
Context `{Bu : !Boxed unit D} `{!BoxedOk Bu}.
Implicit Types (r : RInner W D) (A : Rings) (own : Z → nat) (s : Rt W D) (h : Heap D)
  (c : Client B F) (cs : list (Client B F)).

Definition refs cs (a : Z) : nat := occ a (omap reg_of cs).

(** A registration someone waits for, having polled with [w]. *)
Definition awaited (w : CompatWaker) A h a (i : Inner D) : Prop :=
  if finished i then w = Empty ∨ w ∈ woken h else a ∈ open A ∧ waker_ i = w.

Definition future_ok A h c : Prop :=
  match fut c with
  | Io (Pending a) => Z.land a 1 = 0 ∧ ∃ n i x, live a n i h ∧
      data i = Some (box (x : Context_)) ∧ awaited (last_poll c) A h a i
  | Io Closed => False
  | Ready p => let a := ap_registration p in (a ≠ 0 ∧ Z.land a 1 = 0) ∧ ∃ n i, live a n i h ∧
      data i = Some (box tt) ∧
      if ap_active p then awaited (last_poll c) A h a i else finished i = false ∧ a ∉ open A
  | _ => True
  end.

(** What is boxed in a registration: the buffer, the file and the iovec of a
    read or write. *)
Definition data_at h a : option D := b ← cells h !! a; data (value b).

(** The last one: the data of a request that is outstanding is there. *)
Record client_inv s A cs : Prop := {
  ci_at : reactor_at (refs cs) (rt_inner s) A;
  ci_nodup : NoDup (omap reg_of cs);
  ci_futures : Forall (future_ok A (regs (rt_inner s))) cs;
  ci_data a : Z.land a 1 = 0 → a ∈ open A → data_at (regs (rt_inner s)) a ≠ None }.

(** A step neither takes nor moves the data of a request that is outstanding
    before and after it, and after a shutdown no request is added. *)
Record keeps s A s' A' : Prop := {
  ks_data a : Z.land a 1 = 0 → a ∈ open A → a ∈ open A' →
    data_at (regs (rt_inner s')) a = data_at (regs (rt_inner s)) a;
  ks_dead : rt_alive s = false → rt_alive s' = false ∧ A' = A }.
Definition steps_to s A cs' s' A' : Prop :=
  client_inv s' A' cs' ∧ keeps s A s' A' ∧ rt_alive s' = rt_alive s.

Lemma keeps_refl s A : keeps s A s A.
Proof. by constructor. Qed.
Lemma live_data a n i h : live a n i h → data_at h a = data i.
Proof. unfold live, data_at. by intros ->. Qed.

(** What a step must leave alone for the futures it is not about. *)
Definition unchanged A h A' h' (a : Z) : Prop :=
  cells h' !! a = cells h !! a ∧ (a ∈ open A' ↔ a ∈ open A).

Lemma future_ok_frame A h A' h' c :
  woken h `prefix_of` woken h' → (∀ a, reg_of c = Some a → unchanged A h A' h' a) →
  future_ok A h c → future_ok A' h' c.
Proof.
  intros [ws Hw] Hu. unfold future_ok, reg_of, awaited, live in *.
  assert (∀ w, w ∈ woken h → w ∈ woken h') as Hwk by (intros; rewrite Hw; set_solver).
  destruct (fut c) as [[a|e|]|p|]; try done.
  - destruct (Hu a eq_refl) as [Hc Ho]. intros (Ha & n & i & x & Hl & Hd & Haw). split; [done|].
    exists n, i, x. rewrite Hc. split_and!; try done. destruct (finished i); naive_solver.
  - destruct (Hu _ eq_refl) as [Hc Ho]. intros (Ha & n & i & Hl & Haw). split; [done|].
    destruct Haw as [Hd Haw]. exists n, i. rewrite Hc. split; [done|]. split; [done|].
    destruct (ap_active p), (finished i); naive_solver.
Qed.

(** ** Putting the invariant back together after a step on one future *)

Lemma refs_middle l1 c l2 b :
  refs (l1 ++ c :: l2)%list b =
  (refs (l1 ++ l2)%list b + (if decide (reg_of c = Some b) then 1 else 0))%nat.
Proof.
  unfold refs. rewrite !omap_app. csimpl. rewrite !occ_app.
  destruct (reg_of c) as [a|]; simpl; rewrite ?occ_cons.
  all: repeat case_decide; simplify_eq; lia.
Qed.
Lemma nodup_middle l1 c c' l2 : reg_of c' = reg_of c ∨ reg_of c' = None →
  NoDup (omap reg_of (l1 ++ c :: l2)%list) → NoDup (omap reg_of (l1 ++ c' :: l2)%list).
Proof.
  rewrite !omap_app. csimpl. intros [->| ->]; [done|].
  destruct (reg_of c) as [a|]; [|done]. rewrite !list.NoDup_app, list.NoDup_cons.
  intros (Hn1 & Hd & _ & Hn2). split_and!; [done| |done]. intros x Hx Hx2. apply (Hd x Hx). by right.
Qed.
Lemma nodup_other l1 c l2 c' a : NoDup (omap reg_of (l1 ++ c :: l2)%list) →
  c' ∈ (l1 ++ l2)%list → reg_of c' = Some a → reg_of c ≠ Some a.
Proof.
  intros Hnd Hin Hc' Hc. rewrite omap_app in Hnd. csimpl in Hnd. rewrite Hc in Hnd.
  assert (a ∈ omap reg_of (l1 ++ l2)) as Hina by (apply list_elem_of_omap; by exists c').
  rewrite omap_app in Hina. apply list.NoDup_app in Hnd as (_ & Hd & [Hn _]%list.NoDup_cons). set_solver.
Qed.

(** After a step [c] is the only future with a changed registration. *)
Definition only_own c s A s' A' : Prop :=
  (∀ a, reg_of c ≠ Some a → unchanged A (regs (rt_inner s)) A' (regs (rt_inner s')) a) ∧
  (∀ a, reg_of c = Some a → a ∈ open A' → data_at (regs (rt_inner s')) a ≠ None ∧
     (a ∈ open A → data_at (regs (rt_inner s')) a = data_at (regs (rt_inner s)) a)).
Lemma only_own_data c s A s' A' a : only_own c s A s' A' → a ∈ open A → a ∈ open A' →
  data_at (regs (rt_inner s')) a = data_at (regs (rt_inner s)) a.
Proof.
  intros [Hu Hs] Ha Ha'. destruct (decide (reg_of c = Some a)) as [Hc|Hc].
  - by destruct (Hs a Hc Ha') as [_ ?]; auto.
  - unfold data_at. by destruct (Hu a Hc) as [-> _].
Qed.
Lemma only_own_some c s A s' A' cs a : only_own c s A s' A' → client_inv s A cs →
  Z.land a 1 = 0 → a ∈ open A' → data_at (regs (rt_inner s')) a ≠ None.
Proof.
  intros [Hu Hs] [_ _ _ Hd] He Ha'. destruct (decide (reg_of c = Some a)) as [Hc|Hc].
  - by apply Hs.
  - unfold data_at. destruct (Hu a Hc) as [-> Ho]. by apply Hd, Ho.
Qed.

Lemma inv_replace l1 c c' l2 s A s' A' :
  client_inv s A (l1 ++ c :: l2)%list → reg_of c' = reg_of c ∨ reg_of c' = None →
  rt_alive s' = rt_alive s → (rt_alive s = false → A' = A) →
  reactor_at (refs (l1 ++ c' :: l2)%list) (rt_inner s') A' →
  woken (regs (rt_inner s)) `prefix_of` woken (regs (rt_inner s')) → only_own c s A s' A' →
  future_ok A' (regs (rt_inner s')) c' → steps_to s A (l1 ++ c' :: l2)%list s' A'.
Proof.
  intros Hi Hreg Hal' Hdead Hat' Hw Hown Hc'. pose proof Hi as [Hat Hnd Hf _].
  pose proof Hown as [Hu _]. split; [constructor|split; [constructor|]]; try done.
  5: { intros Hf'. rewrite Hal'. auto. }
  4: { intros a _. by apply only_own_data with c. }
  3: { intros a. by apply only_own_some with c s A (l1 ++ c :: l2)%list. }
  - by eapply nodup_middle.
  - apply list.Forall_app in Hf as [Hf1 [_ Hf2]%List.Forall_cons_iff].
    assert (∀ l, (∀ c0, c0 ∈ l → c0 ∈ (l1 ++ l2)%list) → Forall (future_ok A (regs (rt_inner s))) l →
      Forall (future_ok A' (regs (rt_inner s'))) l) as Hother.
    { intros l Hl Hfl. rewrite list.Forall_forall in Hfl. apply list.Forall_forall. intros c0 Hin.
      apply (future_ok_frame A (regs (rt_inner s))); [done| |by apply Hfl].
      intros a Ha. apply Hu. exact (nodup_other l1 c l2 c0 a Hnd (Hl _ Hin) Ha). }
    apply list.Forall_app. split; [apply Hother; [set_solver|done]|].
    apply List.Forall_cons_iff. split; [done|]. apply Hother; [set_solver|done].
Qed.
Lemma inv_snoc cs c s A s' A' :
  client_inv s A cs → (∀ a, reg_of c = Some a → refs cs a = 0%nat) →
  rt_alive s' = rt_alive s → (rt_alive s = false → A' = A) →
  reactor_at (refs (cs ++ [c])%list) (rt_inner s') A' →
  woken (regs (rt_inner s)) `prefix_of` woken (regs (rt_inner s')) → only_own c s A s' A' →
  future_ok A' (regs (rt_inner s')) c → steps_to s A (cs ++ [c])%list s' A'.
Proof.
  intros Hi Hreg Hal' Hdead Hat' Hw Hown Hc'. pose proof Hi as [Hat Hnd Hf _].
  pose proof Hown as [Hu _].
  assert (∀ a c0, c0 ∈ cs → reg_of c0 = Some a → reg_of c ≠ Some a) as Hne.
  { intros a c0 Hin Hc0 Hc. apply Hreg in Hc. apply occ_zero in Hc. apply Hc.
    apply list_elem_of_omap. by exists c0. }
  split; [constructor|split; [constructor|]]; try done.
  5: { intros Hf'. rewrite Hal'. auto. }
  4: { intros a _. by apply only_own_data with c. }
  3: { intros a. by apply only_own_some with c s A cs. }
  - rewrite omap_app. csimpl. destruct (reg_of c) as [a|] eqn:Hc; [|by rewrite app_nil_r].
    apply list.NoDup_app. split_and!; [done| |apply NoDup_singleton].
    intros b Hb. rewrite elem_of_cons. intros [->|Hn]; [|by apply not_elem_of_nil in Hn].
    specialize (Hreg a eq_refl). by apply occ_zero in Hreg.
  - apply list.Forall_app. split; [|by apply list.Forall_singleton]. rewrite list.Forall_forall in Hf.
    apply list.Forall_forall. intros c0 Hin.
    apply (future_ok_frame A (regs (rt_inner s))); [done| |by apply Hf].
    intros a Ha. apply Hu. by eapply Hne.
Qed.

(** ** One future at a time *)

Lemma reactor_at_own own own' r A : (∀ a, own a = own' a) → reactor_at own r A → reactor_at own' r A.
Proof. intros He [Hd Hb]. split; [done|]. by eapply books_own. Qed.
Lemma refs_same l1 c c' l2 b : reg_of c' = reg_of c →
  refs (l1 ++ c :: l2)%list b = refs (l1 ++ c' :: l2)%list b.
Proof. intros Hr. by rewrite !refs_middle, Hr. Qed.
Lemma refs_release l1 c c' l2 a b : reg_of c = Some a → reg_of c' = None →
  release a (refs (l1 ++ c :: l2)%list) b = refs (l1 ++ c' :: l2)%list b.
Proof.
  intros Hc Hc'. unfold release. rewrite !refs_middle, Hc, Hc'.
  repeat case_decide; simplify_eq; lia.
Qed.
Lemma refs_snoc cs c b : refs (cs ++ [c])%list b =
  (refs cs b + (if decide (reg_of c = Some b) then 1 else 0))%nat.
Proof. by rewrite (refs_middle cs c []), app_nil_r. Qed.
Lemma refs_acquire cs c a b : reg_of c = Some a → refs cs a = 0%nat →
  acquire a 1 (refs cs) b = refs (cs ++ [c])%list b.
Proof.
  intros Hc Hz. unfold acquire. rewrite refs_snoc, Hc. repeat case_decide; simplify_eq; lia.
Qed.
Lemma drop_ref_other a b h : b ≠ a → cells (drop_ref a h) !! b = cells h !! b.
Proof.
  intros Hne. unfold drop_ref. destruct (cells h !! a) as [c|]; [|done].
  destruct (strong c) as [|[|m]]; simpl; by rewrite ?lookup_delete_ne, ?lookup_insert_ne.
Qed.
Lemma drop_ref_woken a h : woken (drop_ref a h) = woken h.
Proof.
  unfold drop_ref. destruct (cells h !! a) as [c|]; [|done]. by destruct (strong c) as [|[|m]].
Qed.

(** A registration with an outstanding request outlives a future's reference. *)
Lemma drop_ref_data own r l a : books own r l → Z.land a 1 = 0 → own a ≠ 0%nat → a ∈ l →
  data_at (drop_ref a (regs r)) a = data_at (regs r) a.
Proof.
  intros Hb Ha Hown Hin. pose proof (bk_regs _ _ _ Hb a Ha) as Hra. unfold data_at, drop_ref.
  destruct (cells (regs r) !! a) as [b|] eqn:Hc; [|by rewrite Hc].
  destruct Hra as (Hs & _ & _ & _). apply occ_pos in Hin.
  destruct (strong b) as [|[|m]]; [lia|lia|]. simpl. by rewrite lookup_insert_eq.
Qed.

(** A future's registration is the one at its address. *)
Lemma inv_middle l1 c l2 s A a : client_inv s A (l1 ++ c :: l2)%list → reg_of c = Some a →
  Z.land a 1 = 0 ∧ refs (l1 ++ c :: l2)%list a ≠ 0%nat ∧ future_ok A (regs (rt_inner s)) c.
Proof.
  intros [_ _ Hf _] Ha. apply list.Forall_app in Hf as [_ [Hc _]%List.Forall_cons_iff].
  split_and!; [|rewrite refs_middle, decide_True by done; lia|done].
  unfold future_ok, reg_of in *. destruct (fut c) as [[]| |]; simplify_eq; naive_solver.
Qed.

Lemma drop_client_spec l1 c l2 w s A : client_inv s A (l1 ++ c :: l2)%list →
  wp (exec_drop c) (λ _ s', steps_to s A (l1 ++ mkClient Gone w :: l2)%list s' A) s.
Proof.
  intros Hi. pose proof Hi as [[Hd Hb] Hnd Hf _]. unfold exec_drop.
  destruct (reg_of c) as [a|] eqn:Hc.
  - destruct (inv_middle _ _ _ _ _ _ Hi Hc) as (Ha & Hr & _).
    unfold on_heap, on_inner, on_regs. rewrite !wp_zoom.
    eapply wp_mono; [apply (rc_drop_spec _ (rt_inner s) (open A) a Ha Hr Hb)|].
    intros [] h [-> Hb']. eapply inv_replace; [exact Hi|by right|done|done| | | |done]; simpl.
    + apply (reactor_at_own (release a (refs (l1 ++ c :: l2)%list))); [|done].
      intros b. by apply refs_release.
    + by rewrite drop_ref_woken.
    + split; [intros b Hne; split; [|done]; apply drop_ref_other; congruence|].
      intros b Hb2 Hin. simplify_eq. simpl. rewrite (drop_ref_data _ _ _ _ Hb); [|done..].
      split; [by eapply ci_data|done].
  - apply wp_ret. eapply inv_replace; [exact Hi|by right|done|done| |done| |done].
    2: { split; [done|congruence]. }
    apply (reactor_at_own (refs (l1 ++ c :: l2)%list)); [|done]. intros b. by apply refs_same.
Qed.

(** ** Polling *)

(** [register] stores the waker [w] in a registration. *)
Definition registers (register : Z → M (Heap D) unit) (w : CompatWaker) h : Prop :=
  ∀ a n i h', task h' = task h → live a n i h' →
    register a h' = (Done tt, cell_put a n (with_waker w i) h').

(** A heap operation on the future's own registration, which gives it the
    value [i'] and keeps its references. *)
Lemma inv_cell l1 c f w l2 s A a n i i' h : client_inv s A (l1 ++ c :: l2)%list →
  reg_of c = Some a → reg_of (mkClient f w) = Some a → live a n i (regs (rt_inner s)) →
  h = cell_put a n i' (regs (rt_inner s)) →
  (a ∈ open A → finished i' = finished i ∧ data i' = data i) → future_ok A h (mkClient f w) →
  steps_to s A (l1 ++ mkClient f w :: l2)%list (set_inner (set_regs h (rt_inner s)) s) A.
Proof.
  intros Hi Hc Hf Hl -> Hfin Hok. pose proof Hi as [[Hd Hb] _ _ Hdata].
  eapply inv_replace; [exact Hi|left; congruence|done|done| |done| |done].
  - apply (reactor_at_own (refs (l1 ++ c :: l2)%list)); [intros b; apply refs_same; congruence|].
    split; [done|]. eapply books_put; [done..|intros Hin; by apply Hfin|done].
  - split; [intros b Hne; split; [|done]; simpl; rewrite lookup_insert_ne; [done|congruence]|].
    intros b Hb' Hin. assert (b = a) as -> by congruence.
    destruct (inv_middle _ _ _ _ _ _ Hi Hc) as (Hev & _ & _).
    simpl. rewrite (live_data _ _ _ _ (live_put a n i' _)), (live_data _ _ _ _ Hl).
    destruct (Hfin Hin) as [_ ->]. split; [|done]. rewrite <-(live_data _ _ _ _ Hl). by apply Hdata.
Qed.

Abbreviation IoState := (State (B := B) (F := F)).
Abbreviation IoOut := (option (result (Z * B * F) (AsyncError (B := B) (F := F))) * IoState)%type.

(** What becomes of a future that was polled. *)
Definition io_after (o : IoOut) : Fut B F :=
  match o.1 with None => Io o.2 | Some _ => Gone end.
(** The result of a poll: the one in the registration, with the buffer and the
    file it holds. *)
Definition io_polled h (st : IoState) (o : IoOut) : Prop :=
  match st with
  | Pending a => ∃ n i x, live a n i h ∧ data i = Some (box (x : Context_)) ∧
      if finished i then ∃ v, o = (Some v, Closed) ∧
        (- 2 ^ 31 < result_code (result_ i) → v = io_result (result_code (result_ i)) x)
      else o = (None, Pending a)
  | InitFailed e => o = (Some (Err e), Closed)
  | Closed => False
  end.

Lemma poll_io_spec register w l1 c l2 s A st : overflow_checks = false →
  client_inv s A (l1 ++ c :: l2)%list → fut c = Io st → registers register w (regs (rt_inner s)) →
  wp (AsyncRw_poll_with (λ a, poll_with (register a) a) st)
    (λ o s', steps_to s A (l1 ++ mkClient (io_after o) w :: l2)%list s' A ∧
      io_polled (regs (rt_inner s)) st o) s.
Proof.
  intros Hov Hi Hst Hreg. pose proof Hi as [[Hd Hb] Hnd Hf _].
  destruct st as [a|e|].
  - assert (reg_of c = Some a) as Hc by (unfold reg_of; by rewrite Hst).
    destruct (inv_middle _ _ _ _ _ _ Hi Hc) as (Ha & Hr & Hok). unfold future_ok in Hok.
    rewrite Hst in Hok. destruct Hok as (_ & n & i & x & Hl & Hdata & Haw).
    destruct (finished i) eqn:Hfin.
    + destruct (refs (l1 ++ c :: l2)%list a) as [|m] eqn:Hm; [done|].
      pose proof (bk_regs _ _ _ Hb a Ha) as Hra. unfold live in Hl. rewrite Hl in Hra.
      destruct Hra as (Hs & _ & _ & Hfo). simpl in *. rewrite Hm in Hs.
      assert (a ∉ open A) as Hz by (intros Hin; by rewrite Hfo in Hfin by done).
      assert (n = S m) as -> by (apply occ_zero in Hz; lia).
      assert (i = finished_with (result_ i) (waker_ i) (Some x)) as Hieq.
      { destruct i; simpl in *. by subst. }
      rewrite Hieq in Hl. eapply wp_mono.
      { apply (AsyncRw_poll_ready (poll_with (register a) a) a m (result_ i) (waker_ i) x
          (refs (l1 ++ c :: l2)%list) s A Ha Hm (conj Hd Hb) Hl (or_introl Hov)).
        intros h. by eexists. }
      intros o s' ((v & -> & Hv) & Hat' & Hal' & Hregs).
      split; [|exists (S m), i, x; rewrite Hfin; split_and!; [by rewrite Hieq|done|by exists v]].
      eapply inv_replace; [exact Hi|by right|done|done| | | |done].
      * eapply reactor_at_own; [|exact Hat']. intros b. by apply refs_release.
      * rewrite Hregs, drop_ref_woken. done.
      * split; [|intros b Hb2 Hin; congruence].
        intros b Hne. split; [|done]. rewrite Hregs, drop_ref_other by congruence. simpl.
        rewrite lookup_insert_ne; [done|congruence].
    + unfold awaited in Haw. rewrite Hfin in Haw. destruct Haw as [Hin Hwk].
      simpl. rewrite wp_bind.
      apply (wp_on_heap _ None (cell_put a n (with_waker w i) (regs (rt_inner s)))).
      { eapply run_poll_pending; [done| |done|done]. by apply Hreg. }
      apply wp_ret. split; [|exists n, i, x; by rewrite Hfin]. eapply inv_cell; [exact Hi|done|done|exact Hl|done|done|].
      split; [done|]. exists n, (with_waker w i), x. split_and!; [apply live_put|done|].
      unfold awaited. simpl. by rewrite Hfin.
  - assert (reg_of c = None) as Hc by (unfold reg_of; by rewrite Hst).
    apply wp_ret. split; [|done]. eapply inv_replace; [exact Hi|by right|done|done| |done| |done].
    + eapply reactor_at_own; [|exact (conj Hd Hb)]. intros b. by apply refs_same.
    + split; [done|congruence].
  - apply list.Forall_app in Hf as [_ [Hc _]%List.Forall_cons_iff]. unfold future_ok in Hc.
    by rewrite Hst in Hc.
Qed.

Lemma drop_ref_clone a n i h : n ≠ 0%nat → live a n i h → drop_ref a (cell_put a (S n) i h) = h.
Proof.
  intros Hn Hl. unfold drop_ref. simpl. rewrite lookup_insert_eq. simpl.
  destruct n as [|m]; [done|]. by rewrite cell_put_twice, cell_put_id.
Qed.

(** Nothing but the waker of an inactive [AsyncPoll] changes. *)
Lemma inactive_same w l1 c l2 s A p s' A' : client_inv s A (l1 ++ c :: l2)%list →
  fut c = Ready p → ap_active p = false → rt_alive s' = rt_alive s →
  (rt_alive s = false → A' = A) → reactor_at (refs (l1 ++ c :: l2)%list) (rt_inner s') A' →
  open A' ≡ₚ open A → regs (rt_inner s') = regs (rt_inner s) →
  steps_to s A (l1 ++ mkClient (Ready p) w :: l2)%list s' A'.
Proof.
  intros Hi Hp Hact Hal Hdead Hat Ho Hregs.
  assert (reg_of c = Some (ap_registration p)) as Hc by (unfold reg_of; by rewrite Hp).
  destruct (inv_middle _ _ _ _ _ _ Hi Hc) as (Ha & _ & Hok). unfold future_ok in Hok.
  rewrite Hp, Hact in Hok. destruct Hok as (Ha0 & n & i & Hl & Hdi & Hfin & Hnin).
  eapply inv_replace; [exact Hi|by left|done|done| | | |].
  - eapply reactor_at_own; [|exact Hat]. intros b. by apply refs_same.
  - by rewrite Hregs.
  - split; [intros b _; split; [by rewrite Hregs|by rewrite Ho]|].
    intros b Hb Hin. rewrite Ho in Hin. congruence.
  - unfold future_ok. simpl. rewrite Hact, Hregs. split; [done|]. exists n, i. by rewrite Ho.
Qed.
Lemma poll_ready_dead register poll_ s p : rt_alive s = false → ap_active p = false →
  AsyncPoll_poll_with register poll_ p s = (Done (Err (Custom Other "uring reactor dead"), p), s).
Proof.
  intros Hal Hact. unfold AsyncPoll_poll_with. rewrite Hact. simpl.
  unfold inner_mut, mbind, M_bind, gets. simpl. by rewrite Hal.
Qed.

(** An inactive [AsyncPoll] submits its request and tracks the poller, or
    changes nothing when the queue is full. *)
Lemma poll_ready_start register poll_ w l1 c l2 s A p (a := ap_registration p) :
  client_inv s A (l1 ++ c :: l2)%list → fut c = Ready p → ap_active p = false →
  rt_alive s = true → registers register w (regs (rt_inner s)) → spare 1 A →
  wp (AsyncPoll_poll_with register poll_ p) (λ o s', ∃ A',
    steps_to s A (l1 ++ mkClient (Ready o.2) w :: l2)%list s' A' ∧
    ((o = (Ok None, mkAsyncPoll (ap_fd p) true (ap_flags p) a) ∧ open A' ≡ₚ a :: open A ∧
      set_user_data a (poll_add zeroed_entry (FD (ap_fd p)) (ap_flags p)) ∈ staged A') ∨
     (o = (Err (Custom Other "submission queue full"), p) ∧ open A' ≡ₚ open A ∧
      regs (rt_inner s') = regs (rt_inner s) ∧ sq_full (dev (rt_inner s')) A'))) s.
Proof.
  intros Hi Hp Hact Hal Hreg Hlt. pose proof Hi as [[Hd Hb] _ _ _].
  assert (reg_of c = Some a) as Hc by (unfold reg_of; by rewrite Hp).
  destruct (inv_middle _ _ _ _ _ _ Hi Hc) as (Ha & Hr & Hok). unfold future_ok in Hok.
  rewrite Hp, Hact in Hok. destruct Hok as ([Ha0 _] & n & i & Hl & Hdi & Hfin & Hnin). fold a in Hl, Hnin.
  set (cs := (l1 ++ c :: l2)%list) in *. set (h := regs (rt_inner s)) in *.
  unfold AsyncPoll_poll_with. rewrite Hact. simpl. unfold inner_mut. wp_simp. rewrite Hal. wp_simp.
  apply (wp_on_heap _ a (cell_put a (S n) i h)).
  { unfold to_raw. by erewrite run_bind_done by by eapply run_rc_clone. }
  pose proof (bk_regs _ _ _ Hb a Ha) as Hra. fold h in Hra. pose proof Hl as Hl'. unfold live in Hl'.
  rewrite Hl' in Hra. destruct Hra as (_ & Hn0 & _). simpl in Hn0.
  assert (reactor_at (acquire a (S (refs cs a)) (refs cs)) (set_regs (cell_put a (S n) i h) (rt_inner s)) A)
    as Hat2 by (split; [done|by apply books_clone]).
  wp_simp. unfold on_inner at 1. rewrite wp_zoom. eapply wp_mono.
  { apply (queue_async_spec (λ e, poll_add e (FD (ap_fd p)) (ap_flags p)) a _ _ A Hat2); try done.
    - unfold acquire. by rewrite decide_True.
    - intros b Hb'. simpl in Hb'. rewrite lookup_insert_eq in Hb'. by simplify_eq. }
  assert (∀ b, release a (acquire a (S (refs cs a)) (refs cs)) b = refs cs b) as Hback.
  { intros b. unfold acquire, release. case_decide; simplify_eq; lia. }
  intros [[]|e] r' (A' & Hat' & Hres); simpl in Hres.
  - destruct Hres as (Ho & Hin & Hregs).
    assert (live a (S n) i (regs r')) as Hl2 by (rewrite Hregs; apply live_put).
    wp_simp. apply (wp_on_heap _ tt (cell_put a (S n) (with_waker w i) (regs r'))).
    { apply Hreg; [by simpl; rewrite Hregs|done]. }
    wp_simp. exists A'. split; [|left; by split_and!].
    eapply inv_replace; [exact Hi|by left|done|congruence| | | |].
    + apply (reactor_at_own (refs cs)); [intros b; by apply refs_same|]. destruct Hat' as [Hd' Hb'].
      split; [done|]. eapply (books_put _ r'); [exact Hl2|done|done|]. eapply books_own; [|exact Hb'].
      apply Hback.
    + simpl. by rewrite Hregs.
    + split.
      * intros b Hne. assert (b ≠ a) by congruence. split; [|rewrite Ho; set_solver].
        simpl. rewrite lookup_insert_ne, Hregs by done. simpl. by rewrite lookup_insert_ne.
      * intros b Hb2 Hin2. assert (b = a) as -> by congruence. simpl.
        rewrite (live_data _ _ _ _ (live_put a (S n) (with_waker w i) _)). simpl. by rewrite Hdi.
    + split; [done|]. exists (S n), (with_waker w i). split; [apply live_put|]. split; [done|].
      unfold awaited. simpl. rewrite Hfin, Ho. split; [left|done].
  - destruct Hres as ([-> Hfull] & Ho & Hregs). rewrite drop_ref_clone in Hregs by done. apply wp_ret.
    exists A'. split; [|right; by split_and!].
    eapply inactive_same; [exact Hi|done|done|done|congruence| |done|done].
    eapply reactor_at_own; [|exact Hat']. apply Hback.
Qed.

(** What a completed poll returns. *)
Definition poll_result (code : Z) : result (option Z) io_error :=
  if code <? 0 then Err (Os (- code))
  else Ok (Some (from_bits_truncate 16 (wrap 16 code))).

(** An active one registers the poller, or takes the result and is inactive. *)
Lemma poll_ready_active track_ register w l1 c l2 s A p (a := ap_registration p) :
  overflow_checks = false →
  client_inv s A (l1 ++ c :: l2)%list → fut c = Ready p → ap_active p = true →
  registers register w (regs (rt_inner s)) →
  wp (AsyncPoll_poll_with track_ (λ a, poll_stream_with (register a) a) p) (λ o s',
    steps_to s A (l1 ++ mkClient (Ready o.2) w :: l2)%list s' A ∧
    ∃ n i, live a n i (regs (rt_inner s)) ∧
      if finished i then o.2 = mkAsyncPoll (ap_fd p) false (ap_flags p) a ∧ o.1 ≠ Ok None ∧
        (- 2 ^ 31 < result_code (result_ i) → o.1 = poll_result (result_code (result_ i)))
      else o = (Ok None, p)) s.
Proof.
  intros Hov Hi Hp Hact Hreg. pose proof Hi as [[Hd Hb] _ _ _].
  assert (reg_of c = Some a) as Hc by (unfold reg_of; by rewrite Hp).
  destruct (inv_middle _ _ _ _ _ _ Hi Hc) as (Ha & Hr & Hok). unfold future_ok in Hok.
  rewrite Hp, Hact in Hok. destruct Hok as (Ha0 & n & i & Hl & Hdi & Haw). fold a in Hl.
  unfold AsyncPoll_poll_with. rewrite Hact. simpl. fold a. unfold awaited in Haw.
  rewrite wp_bind. destruct (finished i) eqn:Hfin.
  - assert (a ∉ open A) as Hnin.
    { intros Hin. pose proof (bk_regs _ _ _ Hb a Ha) as Hra. unfold live in Hl. rewrite Hl in Hra.
      destruct Hra as (_ & _ & _ & Hfo). simpl in Hfo. by rewrite Hfo in Hfin. }
    set (i' := mkInner (result_ i) false (waker_ i) (data i)).
    apply (wp_on_heap _ (Some (result_ i)) (cell_put a n i' (regs (rt_inner s)))).
    { unfold poll_stream_with. erewrite run_bind_done by by eapply run_inner_get. rewrite Hfin.
      by erewrite run_bind_done by by eapply run_inner_put. }
    assert (∀ f, f = mkAsyncPoll (ap_fd p) false (ap_flags p) a →
      steps_to s A (l1 ++ mkClient (Ready f) w :: l2)%list
        (set_inner (set_regs (cell_put a n i' (regs (rt_inner s))) (rt_inner s)) s) A) as Hi'.
    { intros f ->. eapply inv_cell; [exact Hi|exact Hc|done|exact Hl|done|done|].
      split; [done|]. exists n, i'. split; [apply live_put|]. by split_and!. }
    destruct (Z.ltb_spec (result_code (result_ i)) 0) as [Hneg|Hpos].
    + unfold os_error_of. rewrite !wp_bind. unfold embed, neg_i32.
      destruct (decide (result_code (result_ i) = - 2 ^ 31)) as [Heq|Hne].
      * rewrite Hov. unfold wp at 1. apply wp_ret, wp_ret. split; [by apply Hi'|].
        exists n, i. rewrite Hfin. split_and!; [done|done|done|lia].
      * unfold wp at 1. apply wp_ret, wp_ret. split; [by apply Hi'|].
        exists n, i. rewrite Hfin. split_and!; [done|done|done|]. intros _. unfold poll_result.
        by rewrite (proj2 (Z.ltb_lt _ _)).
    + apply wp_ret. split; [by apply Hi'|]. exists n, i. rewrite Hfin. split_and!; [done|done|done|].
      intros _. unfold poll_result. by rewrite (proj2 (Z.ltb_ge _ _)).
  - destruct Haw as [Hin Hwk].
    apply (wp_on_heap _ None (cell_put a n (with_waker w i) (regs (rt_inner s)))).
    { unfold poll_stream_with. erewrite run_bind_done by by eapply run_inner_get. rewrite Hfin.
      by erewrite run_bind_done by (by apply Hreg). }
    apply wp_ret. split; [|exists n, i; by rewrite Hfin].
    eapply inv_cell; [exact Hi|exact Hc|done|exact Hl|done|done|].
    split; [done|]. exists n, (with_waker w i). split; [apply live_put|]. split; [done|].
    simpl. rewrite Hact. unfold awaited. simpl. by rewrite Hfin.
Qed.

(** The executor makes a task the current one before it polls. *)
Definition entering (b : poller) s : Rt W D :=
  match b with
  | ByTask t => set_inner (set_regs (set_task (Some t) (regs (rt_inner s))) (rt_inner s)) s
  | ByWaker _ => s
  end.
Definition register_of (b : poller) (a : Z) : M (Heap D) unit :=
  match b with ByTask _ => register_old a | ByWaker w => register_new a w end.

Lemma entering_inv b s A cs : client_inv s A cs → client_inv (entering b s) A cs.
Proof.
  destruct b as [t|w]; [|done]. intros [[Hd Hb] Hnd Hf Hdata]. constructor; try done.
  split; [done|]. destruct Hb. by constructor.
Qed.
Lemma entering_registers b s : registers (register_of b) (poller_waker b) (regs (rt_inner (entering b s))).
Proof.
  intros a n i h' Ht Hl. destruct b as [t|w]; simpl in *.
  - by apply run_register_old.
  - by apply run_set_waker.
Qed.
Lemma wp_poll_by {X Y} b (old : X → M (Rt W D) Y) new x Q s :
  wp (match b with ByTask _ => old x | ByWaker w => new w x end) Q (entering b s) →
  wp (poll_by b old new x) Q s.
Proof.
  destruct b as [t|w]; [|done]. intros Hw. unfold poll_by. rewrite wp_bind.
  by apply (wp_on_heap _ tt (set_task (Some t) (regs (rt_inner s)))).
Qed.

Lemma steps_entering b s A cs s' A' : steps_to (entering b s) A cs s' A' → steps_to s A cs s' A'.
Proof. by destruct b; [|done]; intros (Hi & [Hk Hd] & Hal). Qed.

(** What a poll of a watch did: waiting, an event, or an error. *)
Definition watch_polled (p : AsyncPoll) A (o : result (option Z) io_error * AsyncPoll) A' : Prop :=
  match o.1 with
  | Ok None => ap_active o.2 = true
  | Ok (Some _) => ap_active p = true ∧ ap_active o.2 = false ∧ A' = A
  | Err _ => ap_active o.2 = false
  end.

(** A request it may have submitted is that of its registration. *)
Definition only_new (a : Z) A A' : Prop :=
  (length (open A') ≤ length (open A) + 1)%nat ∧ ∀ b, b ∈ open A' → b = a ∨ b ∈ open A.
Lemma only_new_same a A A' : open A' ≡ₚ open A → only_new a A A'.
Proof. intros Ho. split; [rewrite Ho; lia|]. intros b. rewrite Ho. by right. Qed.
Lemma only_new_one a A A' : open A' ≡ₚ a :: open A → only_new a A A'.
Proof. intros Ho. split; [rewrite Ho; simpl; lia|]. intros b. by rewrite Ho, elem_of_cons. Qed.

(** Polling a watch, by a task or with a waker. *)
Lemma poll_watch_spec b l1 c l2 s A p : overflow_checks = false →
  client_inv s A (l1 ++ c :: l2)%list → fut c = Ready p → spare 1 A →
  wp (poll_by b AsyncPoll_poll AsyncPoll_poll_async p) (λ o s', ∃ A',
    (only_new (ap_registration p) A A' ∧ ap_registration o.2 = ap_registration p) ∧
    steps_to s A (l1 ++ mkClient (Ready o.2) (poller_waker b) :: l2)%list s' A' ∧
    watch_polled p A o A') s.
Proof.
  intros Hov Hi Hc Hlt. pose proof (entering_inv b _ _ _ Hi) as Hi'.
  pose proof (entering_registers b s) as Hreg. apply wp_poll_by.
  destruct (ap_active p) eqn:Hact.
  - pose proof (λ track_, poll_ready_active track_ (register_of b) _ l1 c l2 _ A p Hov Hi' Hc Hact Hreg) as Hw.
    destruct b as [t|w]; [eapply wp_mono; [exact (Hw track)|]|
      eapply wp_mono; [exact (Hw (λ a, track_async a w))|]];
      intros [r q] s' (Hi2 & n & i & _ & Ho); exists A;
      (split; [split; [by apply only_new_same|simpl in *; destruct (finished i); [by destruct Ho as [-> _]|by simplify_eq]]|]);
      (split; [by eapply steps_entering|]);
      unfold watch_polled; simpl in *;
      (destruct (finished i); [destruct Ho as (-> & Hne & _); by destruct r as [[]|]|by simplify_eq]).
  - destruct (rt_alive (entering b s)) eqn:Hal.
    + pose proof (λ poll_, poll_ready_start (register_of b) poll_ _ l1 c l2 _ A p Hi' Hc Hact Hal Hreg Hlt) as Hw.
      destruct b as [t|w]; [eapply wp_mono; [exact (Hw poll_stream_and_reset)|]|
        eapply wp_mono; [exact (Hw (λ a, poll_stream_and_reset_async a w))|]];
        intros [r q] s' (A' & Hi2 & [(Ho & Hp & _)|(Ho & Hp & _)]); exists A'; simplify_eq;
        (split; [split; [first [by apply only_new_one|by apply only_new_same]|done]|]);
        (split; [by eapply steps_entering|done]).
    + pose proof (λ reg poll_, poll_ready_dead reg poll_ _ p Hal Hact) as Hrun.
      assert (∀ o s', o = (Err (Custom Other "uring reactor dead"), p) → s' = entering b s → ∃ A',
        (only_new (ap_registration p) A A' ∧ ap_registration o.2 = ap_registration p) ∧
        steps_to s A (l1 ++ mkClient (Ready o.2) (poller_waker b) :: l2)%list s' A' ∧
        watch_polled p A o A') as Hend.
      { intros o s' -> ->. exists A. split; [split; [by apply only_new_same|done]|]. split; [|done].
        apply (steps_entering b). eapply inactive_same; try done. apply (ci_at _ _ _ Hi'). }
      destruct b as [t|w]; apply wp_run; eexists _, _; (split; [apply Hrun|by apply Hend]).
Qed.
(** Polling a read or write, by a task or with a waker. *)
Lemma poll_io_by b l1 c l2 s A st : overflow_checks = false →
  client_inv s A (l1 ++ c :: l2)%list → fut c = Io st →
  wp (poll_by b AsyncRw_poll AsyncRw_poll_async st) (λ o s',
    steps_to s A (l1 ++ mkClient (io_after o) (poller_waker b) :: l2)%list s' A ∧
    io_polled (regs (rt_inner s)) st o) s.
Proof.
  intros Hov Hi Hc. apply wp_poll_by.
  pose proof (poll_io_spec (register_of b) _ l1 c l2 _ A st Hov (entering_inv b _ _ _ Hi) Hc
    (entering_registers b s)) as Hw.
  pose proof (steps_entering b s A) as Hse.
  destruct b; (eapply wp_mono; [exact Hw|]); intros o s' [Hs Ho]; (split; [by apply Hse|exact Ho]).
Qed.
(** Only a watch submits when it is polled, and it stays one. *)
Definition polled_to (f : Fut B F) A (f' : Fut B F) A' : Prop :=
  match f with
  | Ready p => only_new (ap_registration p) A A' ∧
      ∃ p', f' = Ready p' ∧ ap_registration p' = ap_registration p
  | _ => A' = A ∧ ∀ p', f' ≠ Ready p'
  end.
Lemma polled_to_length f A f' A' : polled_to f A f' A' → (length (open A') ≤ length (open A) + 1)%nat.
Proof. destruct f as [st|p|]; [intros [-> _]; lia|intros [[? _] _]; done|intros [-> _]; lia]. Qed.
Lemma exec_poll_spec b l1 c l2 s A : overflow_checks = false →
  client_inv s A (l1 ++ c :: l2)%list → spare 1 A →
  wp (exec_poll b (fut c)) (λ f s', ∃ A', polled_to (fut c) A f A' ∧
    steps_to s A (l1 ++ mkClient f (poller_waker b) :: l2)%list s' A') s.
Proof.
  intros Hov Hi Hlt. destruct (fut c) as [st|p|] eqn:Hc.
  - unfold exec_poll. rewrite wp_bind. eapply wp_mono; [by apply (poll_io_by b l1 c l2 s A st)|].
    intros [o st'] s' [Hs _]. apply wp_ret. exists A. split; [|exact Hs]. split; [done|]. by destruct o.
  - unfold exec_poll. rewrite wp_bind. eapply wp_mono; [by apply (poll_watch_spec b l1 c l2 s A p)|].
    intros [r q] s' (A' & [Hnew Hq] & Hi' & _). apply wp_ret. exists A'. split; [|done].
    split; [done|]. by exists q.
  - assert (reg_of c = None) as Hc' by (unfold reg_of; by rewrite Hc).
    apply wp_ret. exists A. split; [by split|]. pose proof Hi as [Hat _ _ _].
    eapply inv_replace; [exact Hi|by right|done|done| |done| |done].
    + eapply reactor_at_own; [|exact Hat]. intros a. by apply refs_same.
    + split; [done|congruence].
Qed.

(** ** Starting operations *)

(** A fresh registration has no references. *)
Lemma fresh_refs cs s A a : client_inv s A cs → Z.land a 1 = 0 →
  cells (regs (rt_inner s)) !! a = None → refs cs a = 0%nat ∧ a ∉ open A.
Proof.
  intros Hi Ha Hn. pose proof (bk_regs _ _ _ (proj2 (ci_at _ _ _ Hi)) a Ha) as Hra. by rewrite Hn in Hra.
Qed.

Lemma watch_spec fd flags cs s A : client_inv s A cs →
  wp (AsyncPoll_new fd flags) (λ p s', steps_to s A (cs ++ [mkClient (Ready p) Empty])%list s' A ∧
    cells (regs (rt_inner s)) !! ap_registration p = None) s.
Proof.
  intros Hi. set (h := regs (rt_inner s)). set (a := alloc (cells h)).
  destruct (alloc_valid (cells h)) as [Ha0 Ha]. fold a in Ha0, Ha.
  assert (cells h !! a = None) as Hfresh by apply alloc_fresh.
  destruct (fresh_refs _ _ _ _ Hi Ha Hfresh) as [Hz Hnin].
  unfold AsyncPoll_new. rewrite wp_bind.
  apply (wp_on_heap _ a (cell_put a 1 (waiting_on Empty tt) h)); [done|]. apply wp_ret.
  pose proof Hi as [[Hd Hb] Hnd Hf _]. split; [|done].
  eapply inv_snoc; [exact Hi|intros b [= <-]; exact Hz|done|done| |done| |].
  - apply (reactor_at_own (acquire a 1 (refs cs))); [intros b; by apply refs_acquire|].
    split; [done|]. by apply books_new.
  - split; [|intros b [= <-] Hin; done].
    intros b Hne. split; [|done]. simpl. rewrite lookup_insert_ne; [done|]. intros <-. by apply Hne.
  - split; [done|]. exists 1%nat, (waiting_on Empty tt). split; [apply live_put|]. by split_and!.
Qed.

Context (as_raw_fd : F → Z) (as_slice : B → slice_ptr) (iovec_addr : Z → Z).

(** What a submission fails with, and when. *)
Definition refused (e : io_error) s A : Prop :=
  if rt_alive s then e = Custom Other "submission queue full" ∧ sq_full (dev (rt_inner s)) A
  else e = Custom Other "uring reactor dead".

(** A read or write that was just started: its entry is submitted, its buffer
    and file lie in a new registration that waits; or it was refused. *)
Definition io_started (write : bool) (file : F) (offset : Z) (buffer : B) (st : IoState) s A : Prop :=
  match st with
  | Pending a => io_entry iovec_addr write (as_raw_fd file) offset a ∈ staged A ∧
      live a 2 (waiting_on Empty (io_context as_slice buffer file)) (regs (rt_inner s))
  | InitFailed e => ∃ err, e = mkAsyncError err buffer file ∧ refused err s A
  | Closed => False
  end.
(** The request it submitted is that of a new registration. *)
Definition starts_new s A (st : IoState) A' : Prop :=
  match st with
  | Pending a => only_new a A A' ∧ cells (regs (rt_inner s)) !! a = None
  | _ => open A' ≡ₚ open A
  end.
Lemma starts_new_length s A st A' : starts_new s A st A' → (length (open A') ≤ length (open A) + 1)%nat.
Proof. destruct st; [by intros [[? _] _]|intros Ho; rewrite Ho; lia..]. Qed.
Lemma start_client_spec write file offset buffer cs s A : client_inv s A cs →
  spare 1 A →
  wp (start as_raw_fd as_slice iovec_addr write file offset buffer) (λ st s', ∃ A',
    starts_new s A st A' ∧
    steps_to s A (cs ++ [mkClient (Io st) Empty])%list s' A' ∧
    io_started write file offset buffer st s' A') s.
Proof.
  intros Hi Hlt. set (h := regs (rt_inner s)). set (a := alloc (cells h)).
  destruct (alloc_valid (cells h)) as [Ha0 Ha]. fold a in Ha0, Ha.
  assert (cells h !! a = None) as Hfresh by apply alloc_fresh.
  destruct (fresh_refs _ _ _ _ Hi Ha Hfresh) as [Hz Hnin].
  destruct (rt_alive s) eqn:Hal.
  2: { apply wp_run. eexists _, _. split; [by apply start_dead|]. exists A. split; [by apply Permutation_refl|].
       split; [|eexists; split; [done|by unfold refused; rewrite Hal]]. eapply inv_snoc; [exact Hi|done|done|done| |done| |done]; [|by split].
       eapply reactor_at_own; [|apply (ci_at _ _ _ Hi)]. intros b. rewrite refs_snoc. simpl. lia. }
  eapply wp_mono; [by apply (start_spec as_raw_fd as_slice iovec_addr write file offset buffer (refs cs) s A);
    [|apply (ci_at _ _ _ Hi)|]|].
  intros st s' (A' & Hal' & Hst). exists A'. destruct st as [b|e|]; [| |done].
  - destruct Hst as (-> & Hat' & Ho & Hin & Hregs). fold h a in Hat', Ho, Hin, Hregs |- *.
    split; [by split; [apply only_new_one|]|]. split; [|split; [done|rewrite Hregs; apply live_put]].
    eapply inv_snoc; [exact Hi|intros b [= <-]; exact Hz|congruence|congruence| | | |].
    + eapply reactor_at_own; [|exact Hat']. intros b. by apply refs_acquire.
    + by rewrite Hregs.
    + split.
      * intros b Hne. assert (b ≠ a) by (intros ->; by apply Hne).
        split; [rewrite Hregs; simpl; by rewrite lookup_insert_ne|rewrite Ho; set_solver].
      * intros b [= <-] _. rewrite Hregs, (live_data _ _ _ _ (live_put a 2 _ _)). by split.
    + split; [done|]. eexists _, _, _. rewrite Hregs. split; [apply live_put|]. split; [done|].
      unfold awaited. simpl. rewrite Ho. split; [left|done].
  - destruct Hst as ([-> Hfull] & Hat' & Ho & Hregs). split; [done|].
    split; [|eexists; split; [done|by unfold refused; rewrite Hal']].
    eapply inv_snoc; [exact Hi|done|congruence|congruence| |by rewrite Hregs| |done].
    + eapply reactor_at_own; [|exact Hat']. intros b. rewrite refs_snoc. simpl. lia.
    + split; [|done]. intros b _. split; [by rewrite Hregs|by rewrite Ho].
Qed.

(** ** A turn of the reactor *)

Lemma turned_other own r A xs r' A' a : Z.land a 1 = 0 → turned own r A xs r' A' →
  a ∉ (cqe_user_data <$> xs) → unchanged A (regs r) A' (regs r') a.
Proof.
  intros Ha Ht Hnin. pose proof (turned_occ _ _ _ _ _ _ a Ha Ht) as Ho.
  split; [destruct Ht as (_ & [_ ->] & _); by apply delivers_other|].
  rewrite <-!occ_pos, Ho, (proj2 (occ_zero _ _) Hnin). lia.
Qed.
(** A delivered registration was outstanding, has its result, and its waker was
    woken. *)
Lemma turned_done own r A xs r' A' a n i w : turned own r A xs r' A' → reactor_at own r A →
  Z.land a 1 = 0 → live a n i (regs r) → own a ≠ 0%nat → a ∈ (cqe_user_data <$> xs) →
  awaited w A (regs r) a i →
  ∃ m res, live a m (mkInner res true Empty (data i)) (regs r') ∧
    (w = Empty ∨ w ∈ woken (regs r')).
Proof.
  intros Ht [Hd Hb] Ha Hl Ho Hin Haw. pose proof (bk_regs _ _ _ Hb a Ha) as Hra.
  pose proof Hl as Hl'. unfold live in Hl'. rewrite Hl' in Hra.
  destruct Hra as (Hs & _ & Hle & Hfo). simpl in *.
  pose proof (turned_occ _ _ _ _ _ _ a Ha Ht) as Hoa. pose proof (proj2 (occ_pos _ _) Hin) as Hp.
  assert (a ∈ open A) as Hopen by (apply occ_pos; lia).
  unfold awaited in Haw. rewrite (Hfo Hopen) in Haw. destruct Haw as [_ Hw].
  apply list_elem_of_fmap in Hin as (x & Hxa & Hx).
  assert (∃ k, n = S (S k)) as [k ->] by (exists (n - 2)%nat; lia).
  destruct (delivers_one _ xs x a k i Ha Hx (eq_sym Hxa) ltac:(lia) Hl) as (Hl2 & ws & Hws & Hsub).
  destruct Ht as (_ & [_ Hregs] & _). rewrite <-Hregs in Hl2, Hws. eexists _, _. split; [exact Hl2|].
  rewrite Hw in Hsub. destruct w; [by left|right..]; rewrite Hws;
    apply elem_of_app; right; eapply elem_of_submseteq; [|exact Hsub| |exact Hsub]; by left.
Qed.

Lemma future_ok_turned own r A xs r' A' c : turned own r A xs r' A' → reactor_at own r A →
  (∀ a, reg_of c = Some a → own a ≠ 0%nat) → future_ok A (regs r) c → future_ok A' (regs r') c.
Proof.
  intros Ht Hat Hown Hok.
  assert ((∃ a, reg_of c = Some a ∧ a ∈ (cqe_user_data <$> xs)) ∨
    ∀ a, reg_of c = Some a → a ∉ (cqe_user_data <$> xs)) as [(a & Hc & Hin)|Hno].
  { destruct (reg_of c) as [a|]; [|by right].
    destruct (decide (a ∈ (cqe_user_data <$> xs))); [left; by exists a|right; by intros ? [= <-]]. }
  - specialize (Hown a Hc). unfold future_ok, reg_of in *. destruct (fut c) as [[]|p|]; simplify_eq.
    + destruct Hok as (Ha & n & i & x & Hl & Hdata & Haw). split; [done|].
      destruct (turned_done _ _ _ _ _ _ a n i _ Ht Hat Ha Hl Hown Hin Haw) as (m & res & Hl' & Hw).
      eexists _, _, x. split; [exact Hl'|]. by split.
    + destruct Hok as ([Ha0 Ha] & n & i & Hl & Hdi & Haw). split; [done|]. destruct (ap_active p).
      * destruct (turned_done _ _ _ _ _ _ _ n i _ Ht Hat Ha Hl Hown Hin Haw) as (m & res & Hl' & Hw).
        eexists _, _. split; [exact Hl'|done].
      * pose proof (turned_occ _ _ _ _ _ _ _ Ha Ht) as Hoa.
        pose proof (proj2 (occ_pos _ _) Hin) as Hp. destruct Haw as [_ Hn%occ_zero]. lia.
  - eapply future_ok_frame; [destruct Ht as (_ & [_ ->] & _); apply woken_delivers| |exact Hok].
    intros a Ha. eapply turned_other; [|exact Ht|by apply Hno].
    unfold future_ok, reg_of in *. destruct (fut c) as [[]|p|]; simplify_eq; naive_solver.
Qed.

(** A request outstanding before and after a turn was not delivered. *)
Lemma turned_data own r A xs r' A' a : turned own r A xs r' A' → reactor_at own r A →
  Z.land a 1 = 0 → a ∈ open A' → a ∈ open A ∧ data_at (regs r') a = data_at (regs r) a.
Proof.
  intros Ht [_ Hb] Ha Hin. pose proof (turned_occ _ _ _ _ _ _ a Ha Ht) as Ho.
  apply occ_pos in Hin. assert (a ∈ open A) as Hop by (apply occ_pos; lia). split; [done|].
  pose proof (bk_regs _ _ _ Hb a Ha) as Hra.
  destruct (cells (regs r) !! a) as [b|] eqn:Hc; [|by destruct Hra].
  destruct Hra as (_ & _ & Hle & _). unfold data_at.
  destruct (turned_other own r A xs r' A' a Ha Ht) as [-> _]; [|done]. apply occ_zero. lia.
Qed.

Lemma park_client_spec fuel timeout cs s A : rt_alive s = true → client_inv s A cs →
  (length (open A) + 2 < fuel)%nat → spare 2 A →
  wp (match timeout with Some d => Reactor_park_timeout fuel d | None => Reactor_park fuel end)
    (λ _ s', ∃ A', ((length (open A') ≤ length (open A) + 2)%nat ∧
      ∀ a, Z.land a 1 = 0 → a ∈ open A' → a ∈ open A) ∧ steps_to s A cs s' A') s.
Proof.
  intros Hal [Hat Hnd Hf Hdata] Hfuel Hlt.
  assert (match timeout with Some d => Reactor_park_timeout fuel d | None => Reactor_park fuel end =
    on_inner (match timeout with Some d => park_timeout fuel d | None => park fuel end))
    as -> by by destruct timeout.
  unfold on_inner. rewrite wp_zoom.
  eapply wp_mono; [by eapply (park_spec fuel timeout _ (rt_inner s) A Hat Hfuel)|].
  intros res r' (xs & A' & Ht). exists A'. pose proof Ht as (Hat' & _ & polls & Hpolls & Hperm).
  split; [split|]; [|intros a Ha Hin; by apply (turned_data _ _ _ _ _ _ a Ht Hat)|].
  - apply submseteq_length in Hpolls. apply Permutation_length in Hperm.
    rewrite !length_app in Hperm. simpl in Hpolls. lia.
  - pose proof (λ a, turned_data _ _ _ _ _ _ a Ht Hat) as Htd.
    split; [constructor|split; [constructor|]]; try done.
    4: { intros Hal'. simpl in Hal'. congruence. }
    3: { intros a Ha _ Hin. by apply Htd. }
    2: { intros a Ha Hin. destruct (Htd a Ha Hin) as [Hop Heq]. simpl. rewrite Heq. by apply Hdata. }
    rewrite list.Forall_forall in Hf. apply list.Forall_forall.
    intros c Hc. eapply future_ok_turned; [exact Ht|done| |by apply Hf].
    intros a Ha Hz. apply occ_zero in Hz. apply Hz. apply list_elem_of_omap. by exists c.
Qed.

(** ** Programs *)

(** The order of the futures does not matter, nor those that need nothing. *)
Lemma client_inv_perm s A cs cs' : cs ≡ₚ cs' → client_inv s A cs → client_inv s A cs'.
Proof.
  intros Hp [Hat Hnd Hf Hd]. assert (omap reg_of cs ≡ₚ omap reg_of cs') as Ho by by rewrite Hp.
  constructor; [|by rewrite <-Ho|by rewrite <-Hp|done].
  eapply reactor_at_own; [|exact Hat]. intros a. unfold refs, occ. by rewrite Ho.
Qed.
Lemma client_inv_idle s A c cs : reg_of c = None → (∀ h, future_ok A h c) →
  client_inv s A (c :: cs) ↔ client_inv s A cs.
Proof.
  intros Hc Hok. assert (omap reg_of (c :: cs) = omap reg_of cs) as Ho by (csimpl; by rewrite Hc).
  assert (∀ a, refs (c :: cs) a = refs cs a) as Hr by (intros a; unfold refs; by rewrite Ho).
  split; intros [Hat Hnd Hf Hd]; constructor; rewrite ?Ho in *; try done.
  - by apply (reactor_at_own _ _ _ _ Hr).
  - by apply List.Forall_cons_iff in Hf as [_ Hf].
  - by apply (reactor_at_own (refs cs)).
  - by constructor.
Qed.

Lemma middle_split cs i c : cs !! i = Some c →
  ∃ l1 l2, cs = (l1 ++ c :: l2)%list ∧ ∀ x, <[i := x]> cs = (l1 ++ x :: l2)%list.
Proof.
  intros Hi. exists (take i cs), (drop (S i) cs). split; [by rewrite take_drop_middle|].
  intros x. apply insert_take_drop. by eapply lookup_lt_Some.
Qed.

Lemma steps_same cs s A : client_inv s A cs → steps_to s A cs s A.
Proof. intros Hi. split; [done|]. split; [apply keeps_refl|done]. Qed.
Lemma steps_keep s A cs' s' A' : steps_to s A cs' s' A' → client_inv s' A' cs' ∧ keeps s A s' A'.
Proof. by intros (? & ? & _). Qed.

(** What the futures of a program put into their registrations, by address (the
    last one counts): a read or write the buffer, the file and the iovec of the
    buffer, a watch nothing. *)
Definition put_by (cm : cmd (B := B) (F := F)) cs' (g : gmap Z D) : gmap Z D :=
  match cm, (λ c, fut (B := B) (F := F) c) <$> list.last cs' with
  | CStart _ file _ buffer, Some (Io (Pending a)) => <[a := box (io_context as_slice buffer file)]> g
  | CWatch _ _, Some (Ready p) => <[ap_registration p := box tt]> g
  | _, _ => g
  end.
Fixpoint puts fuel (cmds : list (cmd (B := B) (F := F))) cs s (g : gmap Z D) : gmap Z D :=
  match cmds with
  | [] => g
  | cm :: cmds =>
      match exec as_raw_fd as_slice iovec_addr fuel cm cs s with
      | (Done cs', s') => puts fuel cmds cs' s' (put_by cm cs' g)
      | _ => g
      end
  end.

(** [g] has what the outstanding requests need, and what the watches put. *)
Definition recorded (g : gmap Z D) s A cs : Prop :=
  (∀ a, Z.land a 1 = 0 → a ∈ open A → data_at (regs (rt_inner s)) a = g !! a) ∧
  (∀ c p, c ∈ cs → fut c = Ready p → g !! ap_registration p = Some (box tt)).

Lemma recorded_same g s A cs s' A' cs' : recorded g s A cs → keeps s A s' A' →
  (∀ a, Z.land a 1 = 0 → a ∈ open A' →
     a ∈ open A ∨ data_at (regs (rt_inner s')) a = Some (box tt) ∧ g !! a = Some (box tt)) →
  (∀ c' p', c' ∈ cs' → fut c' = Ready p' → ∃ c p, c ∈ cs ∧ fut c = Ready p ∧
     ap_registration p = ap_registration p') →
  recorded g s' A' cs'.
Proof.
  intros [Hg Hw] [Hk _] Hnew Hcs. split.
  - intros a Ha Hin. destruct (Hnew a Ha Hin) as [Hop|[-> ->]]; [|done]. by rewrite Hk, Hg.
  - intros c' p' Hc' Hf'. destruct (Hcs c' p' Hc' Hf') as (c & p & Hc & Hf & <-). by eapply Hw.
Qed.
Lemma recorded_put g s A cs s' A' c a d : recorded g s A cs → client_inv s A cs → keeps s A s' A' →
  cells (regs (rt_inner s)) !! a = None → data_at (regs (rt_inner s')) a = Some d →
  (∀ b, b ∈ open A' → b = a ∨ b ∈ open A) →
  (∀ p, fut c = Ready p → ap_registration p = a ∧ d = box tt) →
  recorded (<[a := d]> g) s' A' (cs ++ [c])%list.
Proof.
  intros [Hg Hw] Hi [Hk _] Hfresh Hd Hnew Hc. pose proof Hi as [_ _ Hf Hdata]. split.
  - intros b Hb Hin. destruct (decide (b = a)) as [->|Hne]; [by rewrite lookup_insert_eq|].
    rewrite lookup_insert_ne by done. destruct (Hnew b Hin) as [|Hop]; [done|]. by rewrite Hk, Hg.
  - intros c' p' [Hc'|Hc']%elem_of_app Hf'.
    2: { apply list_elem_of_singleton in Hc' as ->. destruct (Hc p' Hf') as [<- ->]. by rewrite lookup_insert_eq. }
    rewrite lookup_insert_ne; [by eapply Hw|]. intros ->. rewrite list.Forall_forall in Hf.
    specialize (Hf c' Hc'). unfold future_ok in Hf. rewrite Hf' in Hf. destruct Hf as (_ & n & i & Hl & _).
    unfold live in Hl. by rewrite Hl in Hfresh.
Qed.

(** A future in the middle that stays a watch of its registration, or is none. *)
Lemma middle_watch l1 c l2 f w : (∀ p', f = Ready p' → ∃ p, fut c = Ready p ∧ ap_registration p = ap_registration p') →
  ∀ c' p', c' ∈ (l1 ++ mkClient f w :: l2)%list → fut c' = Ready p' →
    ∃ c0 p, c0 ∈ (l1 ++ c :: l2)%list ∧ fut c0 = Ready p ∧ ap_registration p = ap_registration p'.
Proof.
  intros Hf c' p' Hin Hc'. apply elem_of_app in Hin as [Hin|[->|Hin]%elem_of_cons].
  - exists c', p'. split; [set_solver|done].
  - destruct (Hf p' Hc') as (p & Hp & Hr). exists c, p. split; [set_solver|done].
  - exists c', p'. split; [set_solver|done].
Qed.
Lemma recorded_poll g l1 c l2 f w s A s' A' : recorded g s A (l1 ++ c :: l2)%list →
  client_inv s' A' (l1 ++ mkClient f w :: l2)%list → keeps s A s' A' → polled_to (fut c) A f A' →
  recorded g s' A' (l1 ++ mkClient f w :: l2)%list.
Proof.
  intros Hg Hi Hk Hp. apply (recorded_same g s A (l1 ++ c :: l2)%list); [done|done| |apply middle_watch].
  - intros a Ha Hin. destruct (fut c) as [st|p|] eqn:Hc; [by destruct Hp as [<- _]; left| |by destruct Hp as [<- _]; left].
    destruct Hp as ([_ Hnew] & p' & -> & Hr). destruct (Hnew a Hin) as [->|]; [right|by left]. split.
    + pose proof (ci_futures _ _ _ Hi) as Hf. apply list.Forall_app in Hf as [_ [Hok _]%List.Forall_cons_iff].
      unfold future_ok in Hok. simpl in Hok. rewrite Hr in Hok. destruct Hok as (_ & n & i & Hl & Hd & _).
      by rewrite (live_data _ _ _ _ Hl).
    + destruct Hg as [_ Hw]. eapply Hw; [|exact Hc]. set_solver.
  - intros p' ->. destruct (fut c) as [st|p|]; simpl in Hp; [by destruct Hp as [_ Hp]; destruct (Hp p')| |by destruct Hp as [_ Hp]; destruct (Hp p')].
    destruct Hp as (_ & p2 & [= ->] & Hr). by exists p.
Qed.
Lemma recorded_idle g s A cs s' A' c : recorded g s A cs → keeps s A s' A' →
  open A' ≡ₚ open A → (∀ p, fut c ≠ Ready p) → recorded g s' A' (cs ++ [c])%list.
Proof.
  intros Hg Hk Ho Hc. apply (recorded_same g s A cs); [done|done| |].
  - intros a _. rewrite Ho. by left.
  - intros c' p' [Hin|Hin]%elem_of_app Hf; [by exists c', p'|].
    apply list_elem_of_singleton in Hin as ->. by destruct (Hc p').
Qed.

(** A command keeps the invariant and the record. *)
Definition cmd_post cm cs s A cs' s' : Prop := ∃ A',
  (length (open A') ≤ length (open A) + 2)%nat ∧ client_inv s' A' cs' ∧ keeps s A s' A' ∧
  ∀ g, recorded g s A cs → recorded (put_by cm cs' g) s' A' cs'.
Lemma cmd_post_same cm cs s A : client_inv s A cs → (∀ g, put_by cm cs g = g) → cmd_post cm cs s A cs s.
Proof.
  intros Hi Hg. exists A. split; [lia|]. split; [done|]. split; [apply keeps_refl|]. intros g. by rewrite Hg.
Qed.

Lemma exec_spec fuel cm cs s A : overflow_checks = false → client_inv s A cs →
  (length (open A) + 2 < fuel)%nat → spare 2 A →
  wp (exec as_raw_fd as_slice iovec_addr fuel cm cs) (cmd_post cm cs s A) s.
Proof.
  intros Hov Hi Hf Hlt.
  assert (spare 1 A) as Hlt1 by (eapply spare_le; [|exact Hlt]; lia).
  destruct cm as [write file offset buffer|fd flags|i b|i|timeout|]; simpl.
  - rewrite wp_bind. eapply wp_mono; [by apply (start_client_spec write file offset buffer cs s A Hi)|].
    intros st s' (A' & Hnew & [Hi' Hk]%steps_keep & Hst). apply wp_ret. exists A'.
    split; [apply starts_new_length in Hnew; lia|]. split; [done|]. split; [done|]. intros g Hg.
    unfold put_by. rewrite last_snoc. destruct st as [a|e|]; [|by apply (recorded_idle _ s A)|done].
    destruct Hnew as [[_ Hnew] Hfresh], Hst as [_ Hl]. simpl.
    apply (recorded_put _ s A); [done..|by rewrite (live_data _ _ _ _ Hl)|done|done].
  - rewrite wp_bind. eapply wp_mono; [apply (watch_spec fd flags cs s A Hi)|].
    intros p s' [[Hi' Hk]%steps_keep Hfresh]. apply wp_ret. exists A. split; [lia|]. split; [done|]. split; [done|].
    intros g Hg. unfold put_by. rewrite last_snoc. simpl.
    apply (recorded_put _ s A); [done..| |by right|by intros p' [= <-]].
    destruct (inv_middle cs _ [] _ _ _ Hi' eq_refl) as (_ & _ & _ & n & i & Hl & Hd & _). by rewrite (live_data _ _ _ _ Hl).
  - destruct (cs !! i) as [c|] eqn:Hc; [|by apply wp_ret, cmd_post_same].
    destruct (middle_split _ _ _ Hc) as (l1 & l2 & Hcs & Hins). rewrite Hcs in Hi. rewrite wp_bind.
    eapply wp_mono; [by apply (exec_poll_spec b l1 c l2 s A Hov Hi)|].
    intros f s' (A' & Hp & [Hi' Hk]%steps_keep). apply wp_ret. exists A'. rewrite Hins.
    split; [apply polled_to_length in Hp; lia|]. split; [done|]. split; [done|].
    intros g. rewrite Hcs. intros Hg. by apply (recorded_poll g l1 c l2 f _ s A).
  - destruct (cs !! i) as [c|] eqn:Hc; [|by apply wp_ret, cmd_post_same].
    destruct (middle_split _ _ _ Hc) as (l1 & l2 & Hcs & Hins). rewrite Hcs in Hi. rewrite wp_bind.
    eapply wp_mono; [apply (drop_client_spec l1 c l2 Empty s A Hi)|].
    intros [] s' [Hi' Hk]%steps_keep. apply wp_ret. exists A. rewrite Hins. split; [lia|]. split; [done|]. split; [done|].
    intros g. rewrite Hcs. intros Hg. apply (recorded_same g s A (l1 ++ c :: l2)%list); [done|done|by left|].
    by apply middle_watch.
  - rewrite wp_bind, wp_gets. destruct (rt_alive s) eqn:Hal; [|by apply wp_ret, cmd_post_same].
    rewrite wp_bind. eapply wp_mono; [by apply (park_client_spec fuel timeout cs s A Hal Hi Hf)|].
    intros res s' (A' & [Hlen Hold] & [Hi' Hk]%steps_keep). apply wp_ret. exists A'. split; [done|]. split; [done|].
    split; [done|]. intros g Hg. apply (recorded_same g s A cs); [done|done|left; auto|eauto].
  - unfold Reactor_drop. rewrite wp_bind, wp_modify. apply wp_ret. exists A. split; [lia|].
    destruct Hi. by split_and!; [constructor|constructor|].
Qed.

(** After a shutdown: no request is added or completed, and what the
    outstanding ones hold stays. *)
Definition shut_keeps s A s' A' : Prop := rt_alive s = false → rt_alive s' = false ∧ A' = A ∧
  ∀ a, Z.land a 1 = 0 → a ∈ open A → data_at (regs (rt_inner s')) a = data_at (regs (rt_inner s)) a.

(** Room in the completion queue for the next command, that is, for the requests
    it may submit, if the device can lose completions at all; and at every point
    of a program. *)
Definition room_left s : Prop := lossless ∨ active_wait (cs (rt_inner s)) + 2 ≤ dev_cap.
Definition room_left_b s : bool := active_wait (cs (rt_inner s)) + 2 <=? dev_cap.
Definition keeps_room fuel cmds cs : Rt W D → Prop :=
  along (λ cmds, exec_all as_raw_fd as_slice iovec_addr fuel cmds cs) (λ _, room_left) cmds.
(** It can be evaluated. *)
Definition keeps_room_b fuel cmds cs : Rt W D → bool :=
  along_b (λ cmds, exec_all as_raw_fd as_slice iovec_addr fuel cmds cs) (λ _, room_left_b) cmds.

Lemma lossless_room fuel cmds cs s : lossless → keeps_room fuel cmds cs s.
Proof. intros Hll. apply along_always. by left. Qed.
Lemma room_eval s : room_left_b s = true → room_left s.
Proof. right. by apply Z.leb_le. Qed.
Lemma keeps_room_eval fuel cmds cs s : keeps_room_b fuel cmds cs s = true → keeps_room fuel cmds cs s.
Proof. by apply along_eval; intros _ ? ?%room_eval. Qed.
Lemma keeps_room_now fuel cmds cs s : keeps_room fuel cmds cs s → room_left s.
Proof. intros Hk. apply (Hk [] cs s); [apply prefix_nil|done]. Qed.
Lemma keeps_room_next fuel cm cmds cs s cs' s' : keeps_room fuel (cm :: cmds) cs s →
  exec as_raw_fd as_slice iovec_addr fuel cm cs s = (Done cs', s') → keeps_room fuel cmds cs' s'.
Proof.
  intros Hk Hrun done_ cs2 s2 Hp Hrun2. apply (Hk (cm :: done_) cs2); [by apply prefix_cons|].
  simpl. by erewrite run_bind_done by exact Hrun.
Qed.
Lemma room_spare cs s A n : client_inv s A cs → room_left s → 0 ≤ n ≤ 2 →
  Z.of_nat (length (open A)) + n < 2 ^ 64 → spare n A.
Proof.
  intros Hi Hr Hn Hlt. pose proof (bk_wait _ _ _ (proj2 (ci_at _ _ _ Hi))) as Hw. split; [done|].
  destruct Hr as [Hl|Hr]; [by left|right; lia].
Qed.

Lemma exec_all_spec fuel cmds cs s A : overflow_checks = false → client_inv s A cs →
  keeps_room fuel cmds cs s ∨ rt_alive s = false ∧ room_left s →
  (length (open A) + 2 * length cmds + 2 < fuel)%nat →
  Z.of_nat (length (open A) + 2 * length cmds + 2) < 2 ^ 64 →
  wp (exec_all as_raw_fd as_slice iovec_addr fuel cmds cs) (λ cs' s', ∃ A',
    (length (open A') ≤ length (open A) + 2 * length cmds)%nat ∧ client_inv s' A' cs' ∧
    shut_keeps s A s' A' ∧ ∀ g, recorded g s A cs → recorded (puts fuel cmds cs s g) s' A' cs') s.
Proof.
  intros Hov. revert cs s A. induction cmds as [|cm cmds IH]; intros cs s A Hi Hroom Hf Hlt; simpl in *.
  - apply wp_ret. exists A. split; [lia|]. by split_and!.
  - assert (room_left s) as Hnow by (destruct Hroom as [Hr|[_ Hr]]; [by eapply keeps_room_now|done]).
    pose proof (room_spare _ _ _ 2 Hi Hnow ltac:(lia) ltac:(lia)) as Hsp.
    pose proof (exec_spec fuel cm cs s A Hov Hi ltac:(lia) Hsp) as Hw.
    apply wp_run in Hw as (cs' & s' & Hrun & A' & Hlen & Hi' & [Hk Hd] & Hput).
    rewrite wp_bind. apply wp_run. exists cs', s'. split; [done|].
    assert (keeps_room fuel cmds cs' s' ∨ rt_alive s' = false ∧ room_left s') as Hroom'.
    { destruct Hroom as [Hr|[Hal Hr]]; [left; by eapply keeps_room_next|right].
      destruct (Hd Hal) as [? ->]. split; [done|]. unfold room_left in *.
      by rewrite (bk_wait _ _ _ (proj2 (ci_at _ _ _ Hi'))), <-(bk_wait _ _ _ (proj2 (ci_at _ _ _ Hi))). }
    eapply wp_mono; [apply (IH _ _ A'); [done|done|lia|lia]|].
    intros cs2 s2 (A2 & Hlen2 & Hi2 & Hs2 & Hg2). exists A2. split; [lia|]. split; [done|].
    split; [|intros g Hg; rewrite Hrun; by apply Hg2, Hput]. intros Hal. destruct (Hd Hal) as [Hal' ->]. destruct (Hs2 Hal') as (? & -> & Hk2).
    split_and!; [done|done|]. intros a Ha Hin. by rewrite Hk2, Hk.
Qed.

(** The program has not started, the reactor is as [Reactor::new] leaves it. *)
Definition started s A : Prop :=
  rt_alive s = true ∧ reactor_at (λ _, 0%nat) (rt_inner s) A ∧ open A = [].
(** [cs] and [s'] are what a program ends with that always had room. *)
Definition reachable cs s' : Prop := ∃ fuel cmds s A, started s A ∧
  (length (open A) + 2 * length cmds + 2 < fuel)%nat ∧ Z.of_nat fuel < 2 ^ 64 ∧
  keeps_room fuel cmds [] s ∧
  exec_all as_raw_fd as_slice iovec_addr fuel cmds [] s = (Done cs, s').

Lemma started_inv s A : started s A → client_inv s A [].
Proof.
  intros (Hal & Hat & Ho). constructor; [done|constructor|done|]. intros a _ Hin.
  rewrite Ho in Hin. by apply not_elem_of_nil in Hin.
Qed.
Lemma reachable_inv cs s : overflow_checks = false → reachable cs s →
  ∃ A, client_inv s A cs ∧ room_left s ∧ spare 1 A.
Proof.
  intros Hov (fuel & cmds & s0 & A & Hs & Hf & Hlt & Hroom & Hrun).
  pose proof (exec_all_spec fuel cmds [] s0 A Hov (started_inv _ _ Hs) (or_introl Hroom) Hf ltac:(lia)) as Hw.
  unfold wp in Hw. rewrite Hrun in Hw. destruct Hw as (A' & Hlen & Hi & _). exists A'.
  assert (room_left s) as Hr by by eapply Hroom. split_and!; [done|done|].
  eapply room_spare; [done|done|lia|lia].
Qed.

(** C6: any program over the reactor is safe.  Whatever reads and writes it
    starts, descriptors it watches, futures it polls from tasks or with wakers,
    drops at any point, turns of the reactor it takes, and whenever it drops
    the reactor itself, in any order and against any kernel and other threads:
    as long as the completion queue has room for what it has outstanding, or the
    kernel loses no completion, it runs to its end, without a panic, an access to
    freed or unmapped memory, an endless wait or a lost completion.  The
    references to every registration are exactly those of the futures alive and
    of the requests outstanding, and every outstanding request still has the data
    its future put there when it was started (a read's or write's own buffer, file
    and iovec; [puts] goes through the program and notes them by address), whether
    or not that future is still alive.  This is for builds without overflow
    checks, like release builds: with them the reactor's count of its submissions
    panics once a 32-bit counter has wrapped ([pending_submissions_counts]). *)
Theorem programs_are_safe fuel cmds s A (Hov : overflow_checks = false)
    (Hroom : keeps_room fuel cmds [] s) (Hs : started s A) (Hf : (length (open A) + 2 * length cmds + 2 < fuel)%nat)
    (Hlt : Z.of_nat fuel < 2 ^ 64) :
  ∃ cs s' A', exec_all as_raw_fd as_slice iovec_addr fuel cmds [] s = (Done cs, s') ∧
    (dev_at (dev (rt_inner s')) A' ∧ lost_ops A' = []) ∧
    ∀ a, Z.land a 1 = 0 → match cells (regs (rt_inner s')) !! a with
      | Some b => strong b = (refs cs a + occ a (open A'))%nat ∧ strong b ≠ 0%nat ∧
          (a ∈ open A' → finished (value b) = false ∧
             data (value b) = puts fuel cmds [] s ∅ !! a ∧ data (value b) ≠ None)
      | None => refs cs a = 0%nat ∧ a ∉ open A'
      end.
Proof.
  pose proof (exec_all_spec fuel cmds [] s A Hov (started_inv _ _ Hs) (or_introl Hroom) Hf ltac:(lia)) as Hw.
  apply wp_run in Hw as (cs & s' & Hrun & A' & _ & [[Hd Hb] Hnd Hfs Hdata] & _ & Hg). exists cs, s', A'.
  assert (recorded ∅ s A []) as Hg0.
  { split; [|by intros ? ? ?%not_elem_of_nil]. intros a _. destruct Hs as (_ & _ & ->). by intros ?%not_elem_of_nil. }
  destruct (Hg ∅ Hg0) as [Hput _].
  split; [done|]. split; [split; [apply Hd|by eapply ring_lost]|]. intros a Ha. pose proof (bk_regs _ _ _ Hb a Ha) as Hra.
  specialize (Hdata a Ha). specialize (Hput a Ha). unfold data_at in Hdata, Hput.
  destruct (cells _ !! a); [|done]. destruct Hra as (? & ? & _ & ?). simpl in Hdata, Hput. split_and!; auto.
Qed.

(** C15: the memory the kernel may still write to outlives the reactor.  From
    the moment a program dropped the reactor, every read or write that was with
    the ring keeps its registration, and in it the same buffer, iovec and file,
    whatever the program does afterwards: dropping the future does not free
    them, no operation can be started, and no allocation reuses the address. *)
Theorem shutdown_keeps_buffers cs s (Hov : overflow_checks = false)
    (Hran : reachable cs s) (Hdead : rt_alive s = false) :
  ∃ A, dev_at (dev (rt_inner s)) A ∧ ∀ fuel cmds,
    (length (open A) + 2 * length cmds + 2 < fuel)%nat → Z.of_nat fuel < 2 ^ 64 →
    ∃ cs' s', exec_all as_raw_fd as_slice iovec_addr fuel cmds cs s = (Done cs', s') ∧
      ∀ a, Z.land a 1 = 0 → a ∈ pending_ops A → ∃ n i d, live a n i (regs (rt_inner s')) ∧
        n ≠ 0%nat ∧ data i = Some d ∧ data_at (regs (rt_inner s)) a = Some d.
Proof.
  destruct (reachable_inv _ _ Hov Hran) as (A & Hi0 & Hr & _). exists A.
  split; [apply (ci_at _ _ _ Hi0)|]. intros fuel cmds Hf Hlt.
  pose proof (exec_all_spec fuel cmds cs s A Hov Hi0 (or_intror (conj Hdead Hr)) Hf ltac:(lia)) as Hw.
  apply wp_run in Hw as (cs' & s' & Hrun & A' & _ & Hi & Hk & _). exists cs', s'. split; [done|].
  destruct (Hk Hdead) as (_ & -> & Hkeep). intros a Ha Hin.
  assert (a ∈ open A) as Hop by (unfold open; set_solver).
  pose proof (bk_regs _ _ _ (proj2 (ci_at _ _ _ Hi)) a Ha) as Hra. pose proof (Hkeep a Ha Hop) as Heq.
  pose proof (ci_data _ _ _ Hi0 a Ha Hop) as Hd. unfold data_at at 1 in Heq. unfold live.
  destruct (cells (regs (rt_inner s')) !! a) as [[n i]|] eqn:Hc; [|by destruct Hra].
  simpl in *. destruct (data_at (regs (rt_inner s)) a) as [d|] eqn:Hda; [|done].
  exists n, i, d. destruct Hra as (_ & Hn & _). by split_and!.
Qed.

(** C7: no future is forgotten.  After any program that had room in the completion
    queue (or with a kernel that loses no completion), every read or write that
    was started and not finished, and every watch last polled without a result,
    either has its result in place, and the waker of its last poll was woken,
    or its request is still with the ring (after a shutdown: the ring that was
    closed), and that waker is the one its completion will wake. *)
Theorem programs_never_stall cs s k c a (Hov : overflow_checks = false)
    (Hran : reachable cs s) (Hc : cs !! k = Some c)
    (Ha : fut c = Io (Pending a) ∨ ∃ p, fut c = Ready p ∧ ap_active p = true ∧ ap_registration p = a) :
  ∃ n i A, live a n i (regs (rt_inner s)) ∧ dev_at (dev (rt_inner s)) A ∧
    ((finished i = true ∧ (last_poll c = Empty ∨ last_poll c ∈ woken (regs (rt_inner s)))) ∨
     (finished i = false ∧ waker_ i = last_poll c ∧ a ∈ pending_ops A)).
Proof.
  destruct (reachable_inv _ _ Hov Hran) as (A & [[Hd Hb] Hnd Hfs _] & _).
  rewrite list.Forall_forall in Hfs. pose proof (Hfs c (list_elem_of_lookup_2 _ _ _ Hc)) as Hok.
  assert (∃ n i, live a n i (regs (rt_inner s)) ∧
    awaited (last_poll c) A (regs (rt_inner s)) a i) as (n & i & Hl & Haw).
  { unfold future_ok in *. destruct Ha as [Hf'|(p & Hf' & Hact & <-)]; rewrite Hf' in *;
      [|rewrite Hact in Hok]; naive_solver. }
  exists n, i, A. split; [done|]. split; [apply Hd|]. unfold awaited in Haw.
  destruct (finished i); [by left|right]. split; [done|]. split; [apply Haw|].
  destruct Haw as [Hin _]. unfold open in Hin. by rewrite (ring_lost _ _ Hd), app_nil_r in Hin.
Qed.


End clients.
