(* ===== verification/AsyncDemo.v ===== *)
(** * The reactor's theorems at work

    An idealised device (the abstract queues themselves, with a completion queue
    of eight slots that loses what does not fit) and a reactor on it, at which
    the theorems of [ReactorProps], [AsyncProps] and [ClientProps] are applied. *)

From S2P Require Import Prelude Std Sys Submission Ring Kern Mmap SubQueue CompQueue Rings.
From S2P Require Import QueueOps Registration RegistrationProps Unpark Device Reactor.
From S2P Require Import ReactorProps AsyncIo AsyncProps Clients ClientProps.

Local Open Scope Z_scope.

(** ** A device that is its specification *)

Definition Ideal : Type := Rings * Shared.

(** Its kernel, when entered, takes every published entry and completes those
    that are not the reactor's own polls, if there is a slot. *)
Definition serve_one (A : Rings) : Rings :=
  match staged A, published A with
  | e :: st, S n =>
      if Z.land (sqe_user_data e) 1 =? 0 then
        if Z.of_nat (held A + length (completed A)) =? room A then
          mkRings st n (in_flight A) (completed A) ((log A ++ [Take e]) ++ [Lose e]) (held A) (room A)
        else
          mkRings st n (in_flight A) (completed A ++ [completion_of e 512 0])
            ((log A ++ [Take e]) ++ [Post (completion_of e 512 0)]) (held A) (room A)
      else mkRings st n (in_flight A ++ [e]) (completed A) (log A ++ [Take e]) (held A) (room A)
  | _, _ => A
  end.
Definition serve (A : Rings) : Rings := Nat.iter (length (staged A)) serve_one A.

#[export] Instance ideal_device : RingDevice Ideal := {|
  d_submit f := λ w,
    match f zeroed_entry with
    | (Done (Ok _), e) => (Done (Ok tt), (publish (stage e w.1), w.2))
    | (Done (Err x), _) => (Done (Err (FillError x)), w)
    | (Panic m, _) => (Panic m, w)
    | (UB m, _) => (UB m, w)
    | (Hang m, _) => (Hang m, w)
    end;
  d_pending := gets (λ w, Z.of_nat (length (staged w.1)));
  d_next := λ w,
    match completed w.1 with
    | [] => (Done None, w)
    | x :: _ => (Done (Some x), (take_completion w.1, w.2))
    end;
  d_finish := λ w, (Done tt, (free_slots w.1, w.2));
  d_enter _ _ _ := λ w, (Done (Ok tt), (serve w.1, w.2));
  d_timer _ := mret tt;
  shared := snd;
  put_shared s w := (w.1, s) |}.

Definition ideal_at (w : Ideal) (A : Rings) : Prop :=
  w.1 = A ∧ readable A w.2 ∧ 8 ≤ room A.

Lemma serve_one_ok A s : readable A s → 8 ≤ room A →
  rtc kacts A (serve_one A) ∧ readable (serve_one A) s ∧ 8 ≤ room (serve_one A).
Proof.
  intros Hr Hl. destruct A as [[|e st] [|n] fl cp lg hd rm]; try done. unfold serve_one. simpl in *.
  set (A1 := mkRings st n (fl ++ [e]) cp (lg ++ [Take e]) hd rm).
  assert (kacts (mkRings (e :: st) (S n) fl cp lg hd rm) A1) as Htake
    by (exists (Take e); split_and!; [done..|constructor]).
  destruct (Z.eqb_spec (Z.land (sqe_user_data e) 1) 0) as [He|Ho];
    [destruct (Z.eqb_spec (Z.of_nat (hd + length cp)) rm) as [Hfull|Hfree]|]; (split; [|split; [|done]]).
  - eapply rtc_l; [exact Htake|]. apply rtc_once. exists (Lose e). split; [done|]. split; [done|].
    pose proof (kact_lose st n fl e [] cp (lg ++ [Take e]) hd rm) as Hk. by rewrite app_nil_r in Hk.
  - exact Hr.
  - eapply rtc_l; [exact Htake|]. apply rtc_once. exists (Post (completion_of e 512 0)).
    split; [done|]. split; [done|].
    pose proof (kact_post st n fl e [] cp 512 0 (lg ++ [Take e]) hd rm) as Hk. by rewrite app_nil_r in Hk.
  - unfold readable in *. simpl in *. rewrite fmap_app. intros [Hin|Hin]%elem_of_app; [by apply Hr|].
    apply list_elem_of_singleton in Hin. simpl in Hin. by rewrite <-Hin in He.
  - by apply rtc_once.
  - exact Hr.
Qed.
Lemma serve_ok n A s : readable A s → 8 ≤ room A →
  rtc kacts A (Nat.iter n serve_one A) ∧ readable (Nat.iter n serve_one A) s ∧
  8 ≤ room (Nat.iter n serve_one A).
Proof.
  intros Hr Hl. induction n as [|n (Hk & Hr' & Hl')]; [done|]. simpl.
  destruct (serve_one_ok _ s Hr' Hl') as (? & ? & ?). split_and!; try done. by etrans.
Qed.

#[export] Instance ideal_device_ok : RingDeviceOk ideal_device.
Proof.
  refine {| dev_at := ideal_at; dev_cap := 8; dev_slots _ := 8 |}.
  - by intros w A (_ & _ & ?).
  - by intros w A (_ & ? & _).
  - by intros w A s (? & _ & ?) Hr.
  - done.
  - intros f Φ w A (<- & Hr & Hl) Hf. specialize (Hf zeroed_entry).
    change (clear zeroed_entry) with zeroed_entry in Hf. unfold wp, d_submit in *. simpl.
    destruct (f zeroed_entry) as [[[[]|[]]| | |] e]; try done.
    exists w.1. split; [done|]. exists e. split; [done|]. by split_and!.
  - intros w A (<- & Hr & Hl). exists w.1. by split_and!.
  - intros w A (<- & Hr & Hl). unfold wp, d_next. simpl. pose proof Hr as Hr'. unfold readable in Hr'.
    destruct (completed w.1) as [|x rest] eqn:Hc.
    { exists w.1. by split. }
    exists w.1. split; [done|]. exists rest. split; [done|]. csimpl in Hr'. split.
    + split_and!; try done. unfold readable, take_completion. simpl. rewrite Hc. simpl.
      intros Hin. apply Hr'. by right.
    + intros Hx. apply Hr'. rewrite Hx. left.
  - by intros w A (<- & Hr & Hl).
  - intros w A n min flags (<- & Hr & Hl) _. unfold wp. simpl. exists (serve w.1).
    destruct (serve_ok (length (staged w.1)) w.1 w.2 Hr Hl) as (? & ? & ?). by split_and!.
  - intros t w A Hw. exists A. by split.
Defined.

#[export] Instance demo_poll : LibcPoll := {|
  POLLIN := 1; POLLOUT := 4; POLLPRI := 2; POLLERR := 8; POLLNVAL := 32; POLLRDNORM := 64;
  POLLRDBAND := 128; POLLWRNORM := 256; POLLWRBAND := 512; POLLHUP := 16 |}.
#[local] Existing Instances alone alone_ok release_build.

(** Buffers and files are numbers; a registration holds a [Context], or [()]. *)
Definition Ctx : Type := Context_ (B := Z) (F := Z).
Definition Boxes : Type := Ctx + unit.
#[local] Instance boxed_ctx : Boxed Ctx Boxes := {|
  box := inl; downcast b := match b with inl x => Some x | inr _ => None end |}.
#[local] Instance boxed_ctx_ok : BoxedOk boxed_ctx.
Proof. by intros x. Qed.
#[local] Instance boxed_unit : Boxed unit Boxes := {|
  box := inr; downcast b := match b with inl _ => None | inr x => Some x end |}.
#[local] Instance boxed_unit_ok : BoxedOk boxed_unit.
Proof. by intros x. Qed.

(** ** Reactors *)

#[local] Instance ctx_alloc : Alloc Boxes := demo_alloc.
#[local] Instance ctx_alloc_ok : AllocOk ctx_alloc := demo_alloc_ok.

Definition ideal_reactor (A : Rings) (c : CompletionState) (h : Heap Boxes) : RInner Ideal Boxes :=
  mkInner_ (A, Shared_new) 4 5 c h.
Definition no_rings : Rings := mkRings [] 0 [] [] [] 0 8.
Definition no_heap : Heap Boxes := mkHeap ∅ None [].
Definition no_refs : Z → nat := λ _, 0%nat.

Lemma fresh_reactor : reactor_at no_refs (ideal_reactor no_rings CompletionState_new no_heap) no_rings.
Proof.
  split.
  - split_and!; [|by right|done]. split_and!; [done| |done]. intros Hin. by apply not_elem_of_nil in Hin.
  - change (open no_rings) with (@nil Z). constructor; try done; try set_solver.
    intros a Ha. simpl. rewrite lookup_empty. split; [done|apply not_elem_of_nil].
Qed.
(** There is room, by the number of slots. *)
Lemma no_rings_spare n : n ≤ 8 → spare n no_rings.
Proof. change (n ≤ 8) with (0 + n ≤ dev_cap). intros Hn. split; [|by right]. simpl in *. lia. Qed.

(** A first turn: both polls are queued. *)
Lemma reactor_park_returns_witness :
  ∃ res r' xs A',
    park 3 (ideal_reactor no_rings CompletionState_new no_heap) = (Done res, r') ∧
    turned no_refs (ideal_reactor no_rings CompletionState_new no_heap) no_rings xs r' A'.
Proof.
  apply (reactor_park_returns 3 None no_refs _ no_rings fresh_reactor);
    [vm_compute; repeat constructor|by apply no_rings_spare].
Defined.

(** The completion of the operation with registration 16, not yet read. *)
Definition done_16 : CompletionEntry := {| cqe_user_data := 16; cqe_res := 512; cqe_flags := 0 |}.
Definition one_done : Rings := mkRings [] 0 [] [done_16] [] 0 8.
Definition ctx_16 : Ctx := mkContext (mkIovec 4096 512) 1 7.
Definition heap_16 : Heap Boxes := mkHeap {[ 16 := mkRc 2 (waiting_on (Old 9) ctx_16) ]} None [].
Definition ref_16 : Z → nat := λ a, if decide (a = 16) then 1%nat else 0%nat.
Definition waiting_reactor : RInner Ideal Boxes :=
  ideal_reactor one_done (mkCS true false true 1) heap_16.
Definition told_rings : Rings := free_slots (take_completion one_done).
Definition told_reactor : RInner Ideal Boxes :=
  ideal_reactor told_rings (mkCS true false true 0) (deliver_to heap_16 done_16).

Lemma waiting_reactor_at : reactor_at ref_16 waiting_reactor one_done.
Proof.
  split.
  - split_and!; [|by right|done]. split_and!; [done| |done]. intros Hin. change (PARK ∈ [16]) in Hin. set_solver.
  - change (open one_done) with [16]. constructor; try done; try set_solver.
    intros a Ha. change (cells (regs waiting_reactor)) with (cells heap_16). unfold ref_16.
    destruct (decide (a = 16)) as [->|Hne]; [done|].
    unfold heap_16. simpl. rewrite lookup_singleton_ne by done. set_solver.
Qed.
Lemma told_reactor_at : reactor_at ref_16 told_reactor told_rings.
Proof.
  split.
  - split_and!; [|by right|done]. split_and!; [done| |done]. intros Hin. by apply not_elem_of_nil in Hin.
  - change (open _) with (@nil Z). constructor; try done; try set_solver.
    intros a Ha. unfold ref_16. destruct (decide (a = 16)) as [->|Hne].
    { split; [done|]. split; [done|]. split; [vm_compute; lia|].
      intros Hin. by apply not_elem_of_nil in Hin. }
    change (regs told_reactor) with (deliver_to heap_16 done_16).
    rewrite (deliver_other heap_16 done_16) by (simpl; done).
    unfold heap_16. simpl. rewrite lookup_singleton_ne by done. set_solver.
Qed.

Lemma check_completions_delivers_all_witness :
  ∃ got r' xs A', check_completions 2 waiting_reactor = (Done got, r') ∧
    delivered ref_16 waiting_reactor one_done xs r' A' ∧ completed A' = [] ∧ (got = true ↔ xs ≠ []) ∧
    ∃ lg, log A' = (log one_done ++ lg)%list ∧ xs = (completed one_done ++ posts lg)%list.
Proof.
  apply (check_completions_delivers_all 2 ref_16 waiting_reactor one_done waiting_reactor_at).
  vm_compute. repeat constructor.
Defined.

(** The same operation, when the kernel had no slot for its completion. *)
Definition lost_rings : Rings := mkRings [] 0 [] [] [Lose (set_user_data 16 zeroed_entry)] 0 8.
Definition stranded_reactor : RInner Ideal Boxes :=
  ideal_reactor lost_rings (mkCS true false true 1) heap_16.
Lemma stranded_draining : draining ref_16 stranded_reactor lost_rings.
Proof.
  split.
  - split_and!; [done| |done]. intros Hin. by apply not_elem_of_nil in Hin.
  - destruct waiting_reactor_at as [_ Hb]. change (open lost_rings) with (open one_done). by destruct Hb.
Qed.
Lemma lost_completion_never_arrives_witness :
  ∃ got r' xs A', check_completions 2 stranded_reactor = (Done got, r') ∧
    handed stranded_reactor lost_rings xs r' A' ∧ draining ref_16 r' A' ∧ 16 ∈ lost_ops A' ∧
    16 ∉ (cqe_user_data <$> xs) ∧ cells (regs r') !! 16 = Some (mkRc 2 (waiting_on (Old 9) ctx_16)) ∧
    false = false ∧ 0 < active_wait (cs r').
Proof.
  apply (lost_completion_never_arrives 2 ref_16 stranded_reactor lost_rings 16
    (mkRc 2 (waiting_on (Old 9) ctx_16)) stranded_draining eq_refl); [left|reflexivity|].
  vm_compute. repeat constructor.
Defined.

(** The future of that operation is polled with a waker. *)
Lemma turned_16 : turned ref_16 waiting_reactor one_done [done_16] told_reactor told_rings.
Proof. split; [apply told_reactor_at|]. split; [by split; [exists []|]|]. exists []. split; [apply submseteq_nil_l|done]. Qed.
Lemma async_io_completes_witness :
  (∃ ws, woken (regs told_reactor) = (woken heap_16 ++ ws)%list ∧ wakes (Old 9) ⊆+ ws) ∧
  ∃ s', AsyncRw_poll_async 3 (Pending 16) (mkRt true told_reactor) =
      (Done (Some (Ok (512, 1, 7)), Closed), s') ∧
    reactor_at (release 16 ref_16) (rt_inner s') told_rings ∧
    cells (regs (rt_inner s')) !! 16 = None.
Proof.
  exact (async_io_completes (poll_async 16 3) 16 ctx_16 (Old 9) ref_16 (mkRt true waiting_reactor)
    one_done [done_16] done_16 told_reactor told_rings eq_refl eq_refl
    waiting_reactor_at eq_refl turned_16 (list_elem_of_here _ _) eq_refl eq_refl
    (or_intror (ex_intro _ 3 eq_refl))).
Defined.

(** A read of file 7 at offset 1024 into buffer 1. *)
Definition demo_slice (buffer : Z) : slice_ptr := {| as_ptr := 4096 * buffer; slice_len := 512 |}.
Definition demo_rt (alive : bool) : Rt Ideal Boxes :=
  mkRt alive (ideal_reactor no_rings CompletionState_new no_heap).
Lemma async_io_starts_witness :
  ∃ st s' A', AsyncRead_new id demo_slice (Z.add 8) 7 1024 1 (demo_rt true) = (Done st, s') ∧
    ((∃ a, st = Pending a ∧ a ∉ open no_rings ∧ open A' ≡ₚ a :: open no_rings ∧
        reactor_at (acquire a 1 no_refs) (rt_inner s') A' ∧
        io_entry (Z.add 8) false 7 1024 a ∈ staged A' ∧
        live a 2 (waiting_on Empty (io_context demo_slice 1 7)) (regs (rt_inner s'))) ∨
     (∃ e, st = InitFailed e ∧ sq_full (dev (rt_inner s')) A' ∧
        open A' ≡ₚ open no_rings ∧ regs (rt_inner s') = no_heap ∧
        reactor_at no_refs (rt_inner s') A' ∧
        AsyncRw_poll st s' = (Done (Some (Err
          (mkAsyncError (Custom Other "submission queue full") 1 7)), Closed), s') ∧
        AsyncRw_poll (Closed (B := Z) (F := Z)) s' = (Panic "already finished", s'))).
Proof.
  exact (async_io_starts id demo_slice (Z.add 8) false 7 1024 1 no_refs (demo_rt true) no_rings eq_refl
    fresh_reactor (no_rings_spare 1 (Zle_bool_imp_le 1 8 eq_refl))).
Defined.
Lemma async_io_dead_handle_witness :
  ∃ e, AsyncWrite_new id demo_slice (Z.add 8) 7 0 1 (demo_rt false) = (Done (InitFailed e), demo_rt false) ∧
    AsyncRw_poll (InitFailed e) (demo_rt false) = (Done (Some (Err e), Closed), demo_rt false) ∧
    e = mkAsyncError (Custom Other "uring reactor dead") 1 7 ∧
    io_error_from e = Custom Other "uring reactor dead".
Proof.
  exact (async_io_dead_handle id demo_slice (Z.add 8) true 7 0 1 (demo_rt false) eq_refl).
Defined.

(** ** A program

    A read, polled by task 9, and a watch on file 7, polled with waker 3; a turn
    of the reactor completes both; both are polled again. *)
Definition demo_program : list (cmd (B := Z) (F := Z)) :=
  [CStart false 7 1024 1; CWatch 7 PollFlags_IN; CPoll 0 (ByTask 9); CPoll 1 (ByWaker 3);
   CPark None; CPoll 0 (ByTask 9); CPoll 1 (ByWaker 3)].
Definition demo_exec (cmds : list (cmd (B := Z) (F := Z))) :=
  exec_all id demo_slice (Z.add 8) 100 cmds [] (demo_rt true).

Example demo_program_runs :
  match demo_exec demo_program with
  | (Done [c1; c2], s) => fut c1 = Gone ∧ fut c2 = Ready (mkAsyncPoll 7 false PollFlags_IN 272) ∧
      woken (regs (rt_inner s)) = [Old 9; New 3] ∧ active_wait (cs (rt_inner s)) = 2
  | _ => False
  end.
Proof. by vm_compute. Qed.

Lemma demo_unchecked : @overflow_checks release_build = false.
Proof. reflexivity. Qed.
Lemma demo_started : started (demo_rt true) no_rings.
Proof. split; [reflexivity|]. split; [apply fresh_reactor|reflexivity]. Qed.
Lemma demo_room cmds : keeps_room_b id demo_slice (Z.add 8) 100 cmds [] (demo_rt true) = true →
  keeps_room id demo_slice (Z.add 8) 100 cmds [] (demo_rt true).
Proof. apply keeps_room_eval. Qed.
(** Before the turn of the reactor the read and the watch are outstanding. *)
Lemma programs_are_safe_witness :
  puts id demo_slice (Z.add 8) 100 (take 4 demo_program) [] (demo_rt true) ∅ !! 16 =
    Some (inl (mkContext (mkIovec 4096 512) 1 7)) ∧
  ∃ cs s' A', demo_exec (take 4 demo_program) = (Done cs, s') ∧
    (dev_at (dev (rt_inner s')) A' ∧ lost_ops A' = []) ∧
    ∀ a, Z.land a 1 = 0 → match cells (regs (rt_inner s')) !! a with
      | Some b => strong b = (refs cs a + occ a (open A'))%nat ∧ strong b ≠ 0%nat ∧
          (a ∈ open A' → finished (value b) = false ∧
             data (value b) = puts id demo_slice (Z.add 8) 100 (take 4 demo_program) [] (demo_rt true) ∅ !! a ∧
             data (value b) ≠ None)
      | None => refs cs a = 0%nat ∧ a ∉ open A'
      end.
Proof.
  split; [vm_compute; reflexivity|]. unfold demo_exec.
  apply (programs_are_safe id demo_slice (Z.add 8) 100 (take 4 demo_program) (demo_rt true) no_rings
    demo_unchecked (demo_room (take 4 demo_program) eq_refl) demo_started).
  - vm_compute. repeat constructor.
  - reflexivity.
Defined.

Lemma demo_reachable cmds cs s : demo_exec cmds = (Done cs, s) → (2 * length cmds + 2 < 100)%nat →
  keeps_room_b id demo_slice (Z.add 8) 100 cmds [] (demo_rt true) = true →
  reachable id demo_slice (Z.add 8) cs s.
Proof.
  intros Hrun Hlen Hroom. exists 100%nat, cmds, (demo_rt true), no_rings. split; [exact demo_started|].
  split; [exact Hlen|]. split; [reflexivity|]. split; [by apply keeps_room_eval|exact Hrun].
Qed.

(** A read is with the ring when the reactor is dropped; its future is dropped,
    a write is attempted, and a turn. *)
Definition demo_shutdown : list (cmd (B := Z) (F := Z)) := [CStart false 7 1024 1; CShutdown].
Definition demo_after : list (cmd (B := Z) (F := Z)) := [CDrop 0; CStart true 7 0 2; CPark None].
Lemma shutdown_keeps_buffers_witness :
  match demo_exec demo_shutdown with
  | (Done cs, s) => rt_alive s = false ∧
      ∃ cs' s', exec_all id demo_slice (Z.add 8) 100 demo_after cs s = (Done cs', s') ∧
        ∃ n i d, live 16 n i (regs (rt_inner s')) ∧ n ≠ 0%nat ∧ data i = Some d ∧
          data_at (regs (rt_inner s)) 16 = Some d
  | _ => False
  end.
Proof.
  destruct (demo_exec demo_shutdown) as [[cs| | |] s] eqn:Hrun;
    pose proof Hrun as Hout; vm_compute in Hout; try discriminate Hout.
  assert (rt_alive s = false ∧ pending_ops (dev (rt_inner s)).1 = [16] ∧ open (dev (rt_inner s)).1 = [16])
    as (Hdead & Hpend & Hopen) by (injection Hout as <- <-; vm_compute; repeat constructor).
  clear Hout. split; [exact Hdead|].
  destruct (shutdown_keeps_buffers id demo_slice (Z.add 8) cs s demo_unchecked)
    as (A & (HA & _) & Hany); [apply (demo_reachable _ _ _ Hrun); [vm_compute; repeat constructor|vm_compute; reflexivity]|exact Hdead|].
  rewrite <-HA, Hopen, Hpend in Hany. specialize (Hany 100%nat demo_after).
  destruct Hany as (cs' & s' & Hrun' & Hkeep); [vm_compute; repeat constructor|reflexivity|].
  exists cs', s'. split; [exact Hrun'|]. apply Hkeep; [reflexivity|left].
Defined.

(** Before the turn the read waits with its task. *)
Lemma programs_never_stall_witness :
  match demo_exec (take 4 demo_program) with
  | (Done (c :: _), s') => fut c = Io (Pending 16) ∧
      ∃ n i A', live 16 n i (regs (rt_inner s')) ∧ dev_at (dev (rt_inner s')) A' ∧
        ((finished i = true ∧ (last_poll c = Empty ∨ last_poll c ∈ woken (regs (rt_inner s')))) ∨
         (finished i = false ∧ waker_ i = last_poll c ∧ 16 ∈ pending_ops A'))
  | _ => False
  end.
Proof.
  destruct (demo_exec (take 4 demo_program)) as [[[|c cs]| | |] s'] eqn:Hrun;
    pose proof Hrun as Hout; vm_compute in Hout; try discriminate Hout.
  assert (fut c = Io (Pending 16)) as Hc by (injection Hout as <- <- <-; reflexivity). clear Hout.
  split; [exact Hc|].
  apply (programs_never_stall id demo_slice (Z.add 8) (c :: cs) s' 0 c 16 demo_unchecked).
  - apply (demo_reachable _ _ _ Hrun); [vm_compute; repeat constructor|vm_compute; reflexivity].
  - reflexivity.
  - left. exact Hc.
Defined.

(** The watch before its first poll. *)
Definition demo_watch : AsyncPoll := mkAsyncPoll 7 false PollFlags_IN 272.

(** The watch after the turn. *)
Definition demo_watching : AsyncPoll := mkAsyncPoll 7 true PollFlags_IN 272.
