(* ===== verification/Termination.v ===== *)
(** * Fuel is only a bound: the loops of the reactor terminate

    The reactor's loop over the completion queue, which runs for as long as the
    kernel has completions, carries fuel.  This file orders runs by how far
    their fuel takes them, shows that every operation is monotone in it, and
    concludes that programs terminate with one result, whatever the fuel from
    some bound on. *)

From S2P Require Import Prelude Std Sys Submission Ring Kern Mmap SubQueue CompQueue Rings.
From S2P Require Import QueueOps Registration RegistrationProps Unpark Device Reactor.
From S2P Require Import ReactorProps AsyncIo AsyncProps Clients ClientProps AsyncDemo.

Local Open Scope Z_scope.
Local Open Scope rust_scope.

(** ** Runs that got further *)

(** [m'] does what [m] does, unless [m] hangs, as it does for lack of fuel. *)
Definition goes_on {S A} (m m' : M S A) : Prop :=
  ∀ s, match (m s).1 with Hang _ => True | _ => m' s = m s end.
Infix "⊑?" := goes_on (at level 70).

Section goes_on.
Context {S : Type}.

#[export] Instance goes_on_refl {A} : Reflexive (goes_on (S := S) (A := A)).
Proof. intros m s. by destruct (m s) as [[] ?]. Qed.
Lemma goes_on_done {A} (m m' : M S A) s a s' : m ⊑? m' → m s = (Done a, s') → m' s = (Done a, s').
Proof. intros Hm Hrun. specialize (Hm s). by rewrite Hrun in Hm. Qed.

Lemma goes_on_bind {A B} (m m' : M S A) (k k' : A → M S B) :
  m ⊑? m' → (∀ a, k a ⊑? k' a) → (m ≫= k) ⊑? (m' ≫= k').
Proof.
  intros Hm Hk s. specialize (Hm s). unfold mbind, M_bind.
  destruct (m s) as [[a|w|w|w] s'] eqn:Hr; simpl in *; rewrite ?Hm; try done. apply Hk.
Qed.
Lemma goes_on_with_drop {A} (m m' : M S A) d : m ⊑? m' → with_drop m d ⊑? with_drop m' d.
Proof.
  intros Hm s. specialize (Hm s). unfold with_drop, mbind, M_bind.
  destruct (m s) as [[a|w|w|w] s'] eqn:Hr; simpl in *; rewrite ?Hm; try done;
    by destruct (d s') as [[] ?].
Qed.
Lemma goes_on_zoom {T A} (get : S → T) put (m m' : M T A) :
  m ⊑? m' → zoom get put m ⊑? zoom (S := S) get put m'.
Proof.
  intros Hm s. specialize (Hm (get s)). unfold zoom. destruct (m (get s)) as [[] t]; simpl in *; by rewrite ?Hm.
Qed.
End goes_on.

(** Walks over the code down to the places where the fuel is used. *)
Ltac goes_on_step :=
  lazymatch goal with
  | |- goes_on ?m ?m => reflexivity
  | |- goes_on (mbind _ _) (mbind _ _) => apply goes_on_bind; [|intros ?]
  | |- goes_on (with_drop _ _) (with_drop _ _) => apply goes_on_with_drop
  | |- goes_on (zoom _ _ _) (zoom _ _ _) => apply goes_on_zoom
  | |- goes_on (match ?x with _ => _ end) _ => destruct x
  end.
Ltac goes_on := repeat goes_on_step.

(** ** The operations that carry fuel *)

Section fuel.
Context {W D : Type} `{R : !RingDevice W} `{!Others} `{!Build} `{!LibcPoll} `{!Alloc D}.
Implicit Types (fuel : nat).

Lemma drain_mono fuel fuel' b : (fuel ≤ fuel')%nat →
  drain (W := W) (D := D) fuel b ⊑? drain fuel' b.
Proof.
  revert fuel' b. induction fuel as [|fuel IH]; intros fuel' b Hle; [done|].
  destruct fuel' as [|fuel']; [lia|]. cbn [drain]. goes_on. apply IH. lia.
Qed.
Lemma check_completions_mono fuel fuel' : (fuel ≤ fuel')%nat →
  check_completions (W := W) (D := D) fuel ⊑? check_completions fuel'.
Proof. intros. by apply goes_on_with_drop, drain_mono. Qed.
Lemma park_inner_mono fuel fuel' wait timeout : (fuel ≤ fuel')%nat →
  park_inner (W := W) (D := D) fuel wait timeout ⊑? park_inner fuel' wait timeout.
Proof. intros. unfold park_inner. goes_on; by apply check_completions_mono. Qed.
Lemma park_mono fuel fuel' (timeout : option Z) : (fuel ≤ fuel')%nat →
  match timeout with Some d => park_timeout (W := W) (D := D) fuel d | None => park fuel end ⊑?
  match timeout with Some d => park_timeout fuel' d | None => park fuel' end.
Proof.
  intros. unfold park, park_timeout. destruct timeout as [d|]; [destruct (d =? 0)|];
    by apply park_inner_mono.
Qed.

Context {B F : Type} `{Bx : !Boxed (Context_ (B := B) (F := F)) D} `{Bu : !Boxed unit D}.
Context (as_raw_fd : F → Z) (as_slice : B → slice_ptr) (iovec_addr : Z → Z).

Lemma exec_mono fuel fuel' c cs : (fuel ≤ fuel')%nat →
  exec (W := W) (D := D) as_raw_fd as_slice iovec_addr fuel c cs ⊑?
  exec as_raw_fd as_slice iovec_addr fuel' c cs.
Proof.
  intros Hle. destruct c as [| | | |timeout|]; try reflexivity. simpl. goes_on.
  - by apply goes_on_zoom, (park_mono _ _ (Some _)).
  - by apply goes_on_zoom, (park_mono _ _ None).
Qed.
Lemma exec_all_mono fuel fuel' cmds cs : (fuel ≤ fuel')%nat →
  exec_all (W := W) (D := D) as_raw_fd as_slice iovec_addr fuel cmds cs ⊑?
  exec_all as_raw_fd as_slice iovec_addr fuel' cmds cs.
Proof.
  intros Hle. revert cs. induction cmds as [|c cmds IH]; intros cs; [reflexivity|].
  cbn [exec_all]. apply goes_on_bind; [by apply exec_mono|done].
Qed.

Context `{!RingDeviceOk R} `{!OthersOk _} `{!AllocOk _} `{!BoxedOk Bx} `{!BoxedOk Bu}.

(** C23: the reactor's loops terminate.  A turn of the reactor ends with one
    result, and so does a whole program over it, the same for every fuel from
    a bound on that depends only on the number of requests outstanding and of
    commands, given room in the completion queue: the loop over the completion
    queue runs dry although the kernel keeps adding completions while it runs,
    since each one belongs to a request, and the loop submits none. *)
Theorem reactor_loops_terminate cmds s A (duration : option Z)
    (Hov : overflow_checks = false) (Hs : started s A)
    (Hroom : keeps_room as_raw_fd as_slice iovec_addr (2 * length cmds + 3) cmds [] s) (Hlt : Z.of_nat (2 * length cmds + 4) < 2 ^ 64) :
  ∃ cs s', (∀ fuel, (2 * length cmds + 2 < fuel)%nat →
      exec_all as_raw_fd as_slice iovec_addr fuel cmds [] s = (Done cs, s')) ∧
    ∃ n res r', (n ≤ 2 * length cmds)%nat ∧ ∀ fuel, (n + 2 < fuel)%nat →
      match duration with
      | Some d => park_timeout fuel d (rt_inner s')
      | None => park fuel (rt_inner s')
      end = (Done res, r').
Proof.
  pose proof Hs as (_ & _ & Ho). set (f := (2 * length cmds + 3)%nat) in *.
  pose proof (exec_all_spec as_raw_fd as_slice iovec_addr f cmds [] s A Hov (started_inv _ _ Hs)
    (or_introl Hroom)) as Hw.
  rewrite Ho in Hw. specialize (Hw ltac:(simpl; lia) ltac:(simpl; lia)). simpl in Hw.
  apply wp_run in Hw as (cs & s' & Hrun & A' & Hlen & Hi & _). exists cs, s'. split.
  { intros fuel Hf. eapply goes_on_done; [|exact Hrun]. apply exec_all_mono. lia. }
  exists (length (open A')). set (f' := (length (open A') + 3)%nat).
  pose proof (room_spare _ _ _ 2 Hi (Hroom cmds cs s' ltac:(done) Hrun) ltac:(lia) ltac:(lia)) as Hsp.
  pose proof (park_spec f' duration (refs cs) (rt_inner s') A' (ci_at _ _ _ Hi) ltac:(lia) Hsp) as Hp.
  apply wp_run in Hp as (res & r' & Hrun' & _). exists res, r'. split; [done|].
  intros fuel Hf. pose proof (park_mono f' fuel duration ltac:(lia)) as Hm.
  pose proof (goes_on_done _ _ _ _ _ Hm Hrun') as Hd. by destruct duration.
Qed.
End fuel.

#[local] Existing Instances alone alone_ok release_build boxed_ctx boxed_ctx_ok boxed_unit boxed_unit_ok
  ctx_alloc ctx_alloc_ok.

Lemma reactor_loops_terminate_witness :
  ∃ cs s', (∀ fuel, (16 < fuel)%nat →
      exec_all id demo_slice (Z.add 8) fuel demo_program [] (demo_rt true) = (Done cs, s')) ∧
    ∃ n res r', (n ≤ 14)%nat ∧ ∀ fuel, (n + 2 < fuel)%nat → park fuel (rt_inner s') = (Done res, r').
Proof.
  apply (reactor_loops_terminate id demo_slice (Z.add 8) demo_program (demo_rt true) no_rings None
    demo_unchecked demo_started).
  - apply keeps_room_eval. vm_compute. reflexivity.
  - reflexivity.
Defined.
