(* ===== verification/ReactorNew.v ===== *)
(** * [Reactor::new]: from the system calls to a reactor at work

    [Inner::build], [CompletionState::new], [init] and the drop of a reactor,
    over a process.  Every failing step gives back what was acquired before,
    and what is built is a state from which every program is safe. *)

From S2P Require Import Prelude Std Sys Submission Ring Kern Mmap SubQueue CompQueue Uring Rings.
From S2P Require Import UringProps Demo QueueOps Queues UringNew Registration RegistrationProps.
From S2P Require Import Unpark Device UringDevice Reactor ReactorProps AsyncIo AsyncProps.
From S2P Require Import Clients ClientProps AsyncDemo.

Local Open Scope Z_scope.
Local Open Scope rust_scope.

(** [timerfd::TimerFd]: a descriptor. *)
Class LibcTimer (S : Type) := {
  TimerFd_new : M S (result Z io_error);
  TimerFd_drop : Z → M S unit }.

(** [reactor::Inner] as it is built: the ring, the completion state and the two
    ends of its [Park]'s pipe, the timer, and the iovec for the read buffer. *)
Record Built : Type := mkBuilt {
  b_uring : Uring; b_cs : CompletionState; b_park : Z * Z; b_timer : Z; b_iovec : iovec }.

Section build.
Context `{!Kernel} `{!Libc Proc} `{!LibcPipe Proc} `{!LibcTimer Proc} `{!Build}.

Definition CompletionState_build : M Proc (result (CompletionState * (Z * Z)) io_error) :=
  park ←? Park_new; mret (Ok (CompletionState_new, park)).

(** The write end lies in the shared part, which is dropped first; no [unpark]
    call is in progress. *)
Definition Park_drop (park : Z * Z) : M Proc unit := close park.2;; close park.1.

Definition Inner_build : M Proc (result Built io_error) :=
  uring ←? Uring_new 4096 (SetupParameters_new 0);
  drop_on_failure (
    cs ←? CompletionState_build;
    drop_on_failure (
      timerfd ←? TimerFd_new;
      mret (Ok (mkBuilt uring cs.1 cs.2 timerfd iovec_empty)))
      (Park_drop cs.2))
    (Uring_drop uring).

(** [read_buf] lies in the pinned [Inner], at [buf]. *)
Definition Inner_init (buf : Z) (b : Built) : Built :=
  mkBuilt (b_uring b) (b_cs b) (b_park b) (b_timer b)
    (iovec_from {| as_ptr := buf; slice_len := 32 |}).

Definition Reactor_new (buf : Z) : M Proc (result Built io_error) :=
  b ←? Inner_build; mret (Ok (Inner_init buf b)).

(** [tokio_uring::Runtime::new]; [new_with_park] is
    [CurrentThread::new_with_park(Timer::new(reactor))]. *)
Definition Runtime_new {X} (new_with_park : Built → X) (buf : Z) : M Proc (result X io_error) :=
  reactor ←? Reactor_new buf;
  let executor := new_with_park reactor in
  mret (Ok executor).

(** Fields are dropped in declaration order. *)
Definition Inner_drop (b : Built) : M Proc unit :=
  Uring_drop (b_uring b);; Park_drop (b_park b);; TimerFd_drop (b_timer b).
End build.

(** The new reactor, with no registration yet. *)
Definition reactor_of {D} (b : Built) (k : Kern) : RInner URing D :=
  mkInner_ (mkURing (u_sq (b_uring b)) (u_cq (b_uring b)) k Shared_new (u_file (b_uring b)))
    (b_timer b) (Park_as_raw_fd (b_park b)) (b_cs b) (mkHeap ∅ None []).

(** What the calls for the pipe and the timer do to a process: open and close
    the descriptors they name, nothing else. *)
Class LibcFdOk (L : LibcPipe Proc) (T : LibcTimer Proc) : Prop := {
  pipe2_spec flags p : ∃ r a b p', pipe2 flags p = (Done (r, (a, b)), p') ∧
    maps p' = maps p ∧ kern p' = kern p ∧
    fds p' = if 0 =? r then a :: b :: fds p else fds p;
  getfl_spec fd p : ∃ v p', F_GETFL fd p = (Done v, p') ∧
    maps p' = maps p ∧ kern p' = kern p ∧ fds p' = fds p;
  setfl_spec fd fl p : ∃ p', F_SETFL fd fl p = (Done tt, p') ∧
    maps p' = maps p ∧ kern p' = kern p ∧ fds p' = fds p;
  timer_new_spec p : ∃ r p', TimerFd_new p = (Done r, p') ∧
    maps p' = maps p ∧ kern p' = kern p ∧
    fds p' = match r with Ok fd => fd :: fds p | Err _ => fds p end;
  timer_drop_spec fd p : fd ∈ fds p → ∃ p', TimerFd_drop fd p = (Done tt, p') ∧
    maps p' = maps p ∧ kern p' = kern p ∧ fds p ≡ₚ fd :: fds p' }.

Section props.
Context `{!Kernel} `{!Libc Proc} `{!LibcOk _} `{!LibcPipe Proc} `{!LibcTimer Proc}.
Context `{!LibcFdOk _ _} `{!Build}.

Lemma closes_releases fd : releases ([], [fd]) (close fd).
Proof. apply close_releases. Qed.
Lemma park_releases park : releases ([], [park.2; park.1]) (Park_drop park).
Proof. apply (releases_seq ([], [park.2]) ([], [park.1])); apply closes_releases. Qed.
Lemma uring_releases u : releases (uring_resources u) (Uring_drop u).
Proof.
  intros F p Hp.
  assert (releases (res_app ([], [u_file u]) (res_app (sq_mappings (u_sq u)) (cq_mappings (u_cq u))))
    (Uring_drop u)) as Hd.
  { unfold Uring_drop. apply releases_seq; [apply close_releases|].
    apply releases_seq; [apply sq_drop_releases|apply cq_drop_releases]. }
  apply Hd. destruct Hp as [Hm Hf]. split; [rewrite Hm|rewrite Hf]; unfold uring_resources; simpl;
    solve_Permutation.
Qed.

(** In the state [p] the pipe cannot be had, with the error [e]. *)
Definition pipe_fails (p : Proc) (e : io_error) : Prop :=
  ∃ r ends q err q', pipe2 O_CLOEXEC p = (Done (r, ends), q) ∧ r ≠ 0 ∧
    errno q = (Done err, q') ∧ e = Os err.
(** A system call by which the reactor is set up from [p] fails, where the steps
    before it have brought the process, and [e] is its error. *)
Definition call_fails (p : Proc) (e : io_error) : Prop :=
  uring_fails 4096 (SetupParameters_new 0) p e ∨
  ∃ u q, Uring_new 4096 (SetupParameters_new 0) p = (Done (Ok u), q) ∧
    (pipe_fails q e ∨
     ∃ park q1 q2, Park_new q = (Done (Ok park), q1) ∧ TimerFd_new q1 = (Done (Err e), q2)).

Lemma park_new_spec F p : holds F p →
  wp Park_new (λ r p', kern p' = kern p ∧
    match r with
    | Ok park => holds (res_app ([], [park.2; park.1]) F) p'
    | Err e => holds F p' ∧ pipe_fails p e
    end) p.
Proof.
  intros [Hm Hf]. unfold Park_new. destruct (pipe2_spec O_CLOEXEC p) as (r & a & b & p1 & Hrun & Hm1 & Hk1 & Hf1).
  rewrite wp_bind. unfold wp at 1. rewrite Hrun. simpl. destruct (Z.eqb_spec 0 r) as [Hz|Hnz]; simpl.
  - unfold set_non_block. rewrite !wp_bind.
    destruct (getfl_spec b p1) as (v & p2 & Hrun2 & Hm2 & Hk2 & Hf2). unfold wp at 1. rewrite Hrun2.
    assert (∀ p', maps p' = maps p → kern p' = kern p → fds p' = a :: b :: fds p →
      wp (mret (Ok (a, b) : result (Z * Z) io_error)) (λ r p', kern p' = kern p ∧
        match r with
        | Ok park => holds (res_app ([], [park.2; park.1]) F) p'
        | Err e => holds F p' ∧ pipe_fails p e
        end) p')
      as Hend.
    { intros p' Hm' Hk' Hf'. apply wp_ret. split; [done|]. split; simpl; [by rewrite Hm'|].
      rewrite Hf', Hf. apply Permutation_swap. }
    destruct (0 =? Z.land v O_NONBLOCK); [|apply wp_ret, Hend; congruence].
    destruct (setfl_spec b (Z.lor v O_NONBLOCK) p2) as (p3 & Hrun3 & Hm3 & Hk3 & Hf3).
    unfold wp at 1. rewrite Hrun3. apply Hend; congruence.
  - unfold last_os_error. rewrite !wp_bind. destruct (errno_spec p1) as [e He].
    unfold wp at 1. rewrite He. apply wp_ret, wp_ret. split; [done|].
    split; [split; [by rewrite Hm1|by rewrite Hf1]|].
    exists r, (a, b), p1, e, p1. split_and!; [done|congruence|done..].
Qed.
Lemma park_new_acquires P : acquires P CompletionState_build (λ c, res_app ([], [c.2.2; c.2.1]) P).
Proof.
  intros F p Hp. pose proof (park_new_spec _ p Hp) as Hw.
  apply wp_run in Hw as ([park|e] & p' & Hrun & _ & Hh); unfold CompletionState_build, try_bind, mbind, M_bind;
    rewrite Hrun; simpl; [by rewrite <-res_app_assoc|by destruct Hh].
Qed.

Definition park_ends (park : Z * Z) : res := ([], [park.2; park.1]).
Definition built_resources (b : Built) : res :=
  res_app ([], [b_timer b]) (res_app (park_ends (b_park b)) (uring_resources (b_uring b))).

Lemma timer_acquires P (f : Z → Built) :
  (∀ t, b_timer (f t) = t) →
  acquires P (t ←? TimerFd_new; mret (Ok (f t))) (λ b, res_app ([], [b_timer b]) P).
Proof.
  intros Hf F p [Hm Hfd]. unfold try_bind, mbind, M_bind.
  destruct (timer_new_spec p) as ([t|e] & p' & -> & Hm' & _ & Hf'); simpl.
  - split; simpl; [by rewrite Hm'|by rewrite Hf', Hf, Hfd].
  - split; [by rewrite Hm'|by rewrite Hf'].
Qed.
Lemma acquires_weaken {A} P (m : M Proc (result A io_error)) R R' :
  acquires P m R → (∀ p a p', m p = (Done (Ok a), p') → R a = R' a) → acquires P m R'.
Proof.
  intros Hm Hr F p Hp. specialize (Hm F p Hp). destruct (m p) as [[[a|e]|?|?|?] p'] eqn:Hrun; try done.
  by rewrite <-(Hr _ _ _ Hrun).
Qed.

Lemma reactor_new_acquires buf : acquires ([], []) (Reactor_new buf) built_resources.
Proof.
  assert (acquires ([], []) Inner_build built_resources) as Hb.
  { unfold Inner_build.
    apply (acquires_try ([], []) _ uring_resources); [apply uring_new_acquires| |apply uring_releases].
    intros u. apply (acquires_try _ _ (λ c : CompletionState * (Z * Z), park_ends c.2));
      [apply park_new_acquires| |intros c; apply park_releases].
    intros c. eapply acquires_weaken; [by apply timer_acquires|].
    intros p b p' Hrun. unfold built_resources. unfold try_bind, mbind, M_bind in Hrun.
    destruct (timer_new_spec p) as ([t|e] & p1 & Ht & _); rewrite Ht in Hrun;
      unfold mret, M_ret in Hrun; simplify_eq. simpl. by rewrite res_app_nil_r. }
  intros F p Hp. specialize (Hb F p Hp). unfold Reactor_new, try_bind, mbind, M_bind.
  by destruct (Inner_build p) as [[[b|e]|?|?|?] p'].
Qed.

(** C30: setting a reactor up leaks nothing: when [Reactor::new] returns one, the
    process owns its ring's mappings and descriptor, the pipe's two ends and
    the timer beside what it owned before, and dropping it gives all of them
    back; when any step fails or panics, the process owns what it did before. *)
Theorem Reactor_new_owns_its_resources buf p :
  match Reactor_new buf p with
  | (Done (Ok b), p') =>
      holds (res_app (built_resources b) (maps p, fds p)) p' ∧
      ∃ p'', Inner_drop b p' = (Done tt, p'') ∧ maps p'' ≡ₚ maps p ∧ fds p'' ≡ₚ fds p
  | (Done (Err _), p') | (Panic _, p') => maps p' ≡ₚ maps p ∧ fds p' ≡ₚ fds p
  | (UB _, _) => True
  | (Hang _, _) => False
  end.
Proof.
  pose proof (reactor_new_acquires buf (maps p, fds p) p) as Ha. rewrite res_app_nil_l in Ha.
  specialize (Ha ltac:(by split)). destruct (Reactor_new buf p) as [[[b|e]|?|?|?] p1]; try done.
  split; [done|].
  assert (releases (res_app (uring_resources (b_uring b)) (res_app (park_ends (b_park b)) ([], [b_timer b])))
    (Inner_drop b)) as Hd.
  { apply releases_seq; [apply uring_releases|]. apply releases_seq; [apply park_releases|].
    intros F q [Hm Hf]. destruct (timer_drop_spec (b_timer b) q) as (q' & Hrun & Hm' & _ & Hf').
    { rewrite Hf. left. }
    exists q'. split; [done|]. split; [by rewrite Hm'|].
    rewrite Hf' in Hf. by apply Permutation.Permutation_cons_inv in Hf. }
  destruct (Hd (maps p, fds p) p1) as (p2 & Hrun & Hm2 & Hf2).
  - destruct Ha as [Hm Hf]. split; [rewrite Hm|rewrite Hf]; unfold built_resources; simpl; solve_Permutation.
  - by exists p2.
Qed.

(** A run and what it owns. *)
Lemma acquires_wp {A E} P F (m : M Proc (result A E)) R Q p : acquires P m R →
  holds (res_app P F) p → wp m Q p →
  wp m (λ r p', Q r p' ∧
    match r with Ok a => holds (res_app (R a) F) p' | Err _ => holds (res_app P F) p' end) p.
Proof.
  intros Hm Hp Hw. specialize (Hm F p Hp). unfold wp in *.
  by destruct (m p) as [[[a|e]|?|?|?] p'].
Qed.

Section starts.
Context `{!KernelOk _}.
Context (base : Z → Z) (cap : Z).

(** The completion ring has the slots [io_uring_setup] reports. *)
Definition sized (u : Uring) (p : Proc) : Prop :=
  ∃ r ps p1, syscall_setup SYS_io_uring_setup 4096 (SetupParameters_new 0) p = (Done (r, ps), p1) ∧
    0 ≤ as_i32 r ∧ entries (cq_ring_mask (u_cq u)) = cq_entries ps.
Definition is_fresh (u : Uring) (p : Proc) : Prop := fresh (mkSys (u_sq u) (u_cq u) (kern p) [] []).

Lemma Inner_build_spec p : mapped_at base →
  (∀ r ps p1, syscall_setup SYS_io_uring_setup 4096 (SetupParameters_new 0) p = (Done (r, ps), p1) →
    0 ≤ as_i32 r → ready base ps (kern p1)) →
  wp Inner_build (λ r p', match r with
    | Ok b => is_fresh (b_uring b) p' ∧ sized (b_uring b) p ∧ b_cs b = CompletionState_new
    | Err e => holds (maps p, fds p) p' ∧ call_fails p e end) p.
Proof.
  intros Hat Hready. unfold Inner_build. rewrite wp_try_bind. eapply wp_mono.
  { apply (acquires_wp ([], []) (maps p, fds p)); [apply uring_new_acquires|by split|].
    by apply wp_saw, (Uring_new_spec base). }
  intros [u|e] p1 [[Hrun1 Hfs] Hh]; [destruct Hfs as [Hf Hsz]|by destruct Hfs as [? ?]; split; [|left]].
  rewrite res_app_nil_r in Hh.
  assert (∀ (e : io_error) p', holds (res_app (uring_resources u) (maps p, fds p)) p' → call_fails p e →
    wp (Uring_drop u) (λ _ p'', holds (maps p, fds p) p'' ∧ call_fails p e) p') as Hdrop.
  { intros e p' Hp' He. eapply wp_releases; [apply uring_releases|exact Hp'|done]. }
  rewrite wp_drop_on_failure, wp_try_bind. unfold CompletionState_build. rewrite wp_try_bind.
  eapply wp_mono; [by apply wp_saw, park_new_spec|]. intros [park|e] p2 (Hrun2 & Hk2 & Hh2).
  2: { destruct Hh2 as [Hh2 He]. apply Hdrop; [done|]. right. exists u, p1. auto. }
  apply wp_ret. rewrite wp_drop_on_failure, wp_try_bind.
  destruct (timer_new_spec p2) as ([t|e] & p3 & Hrun & Hm3 & Hk3 & Hf3); unfold wp at 1; rewrite Hrun.
  - apply wp_ret. split; [|done]. unfold is_fresh in *. simpl. by rewrite Hk3, Hk2.
  - simpl. eapply wp_releases; [apply (park_releases park)|split; [rewrite Hm3|rewrite Hf3]; apply Hh2|].
    intros p4 Hp4. apply Hdrop; [done|]. right. exists u, p1. split; [done|]. right. by exists park, p2, p3.
Qed.

Context {D : Type} `{!World} `{!WorldOk} `{!Others} `{!OthersOk _} `{!LibcPoll}.
Context `{!Alloc D} `{!AllocOk _} {B F : Type}.
Context (as_raw_fd : F → Z) (as_slice : B → slice_ptr) (iovec_addr : Z → Z).
Context `{Bx : !Boxed (Context_ (B := B) (F := F)) D} `{!BoxedOk Bx} `{Bu : !Boxed unit D} `{!BoxedOk Bu}.

Lemma uring_lossless (Hov : overflow_checks = false) (Hlog : log_debug = false) :
  lossy = false → lossless (RingDeviceOk0 := uring_device_ok cap Hov Hlog).
Proof. intros Hl w A (_ & _ & Hd & _). by apply Hd. Qed.

Lemma fresh_started (Hov : overflow_checks = false) (Hlog : log_debug = false) b p :
  is_fresh (b_uring b) p → cap ≤ entries (cq_ring_mask (u_cq (b_uring b))) →
  b_cs b = CompletionState_new →
  ∃ A, open A = [] ∧ started (RingDeviceOk0 := uring_device_ok cap Hov Hlog)
    (mkRt true (reactor_of (D := D) b (kern p))) A.
Proof.
  intros [(lg & rm & Hr & Hlg) _] Hcap Hcs.
  assert (lost_ops (mkRings [] 0 [] [] lg 0 rm) = []) as Hlost.
  { clear Hr. unfold lost_ops. simpl. by induction Hlg as [|ev lg -> _ IH]. }
  set (A := mkRings [] 0 [] [] lg 0 rm) in *. exists A.
  assert (cap ≤ room A) as Hroom by (pose proof (ur_cq _ _ _ _ Hr) as Hc; simpl in Hcap, Hc;
    by rewrite (cqr_mask _ _ _ _ _ Hc), (cqr_room _ _ _ _ _ Hc) in Hcap).
  assert (held A = 0%nat ∧ Z.of_nat (in_use A) ≤ room A) as [Hheld Hload].
  { split; [done|]. destruct (ur_cq _ _ _ _ Hr). change (in_use A) with 0%nat.
    pose proof (entries_pos _ (geo_cq_mask _ cqr_geo)). simpl in *. lia. }
  assert (open A = []) as Hopen by (unfold open; by rewrite Hlost).
  split; [done|]. split; [done|]. split; [|done]. split.
  - split_and!; [|by right|done]. split; [exact Hr|]. split_and!; [|done..].
    intros Hin. by apply not_elem_of_nil in Hin.
  - rewrite Hopen. constructor; simpl; rewrite ?Hcs; try done.
    + apply not_elem_of_nil.
    + intros u Hu. by apply not_elem_of_nil in Hu.
    + intros a _. rewrite lookup_empty. split; [done|apply not_elem_of_nil].
Qed.

Lemma Reactor_new_starts buf p (Hov : overflow_checks = false) (Hlog : log_debug = false) :
  mapped_at base →
  (∀ r ps p1, syscall_setup SYS_io_uring_setup 4096 (SetupParameters_new 0) p = (Done (r, ps), p1) →
    0 ≤ as_i32 r → ready base ps (kern p1) ∧ cap ≤ cq_entries ps) →
  ∃ r p', Reactor_new buf p = (Done r, p') ∧
    match r with
    | Ok b => ∃ A, started (RingDeviceOk0 := uring_device_ok cap Hov Hlog)
        (mkRt true (reactor_of (D := D) b (kern p'))) A
    | Err e => (maps p' ≡ₚ maps p ∧ fds p' ≡ₚ fds p) ∧ call_fails p e
    end.
Proof.
  intros Hat Hready.
  pose proof (Inner_build_spec p Hat (λ r ps p1 Hs Hr, proj1 (Hready r ps p1 Hs Hr))) as Hw.
  apply wp_run in Hw as (r & p' & Hrun & Hr). unfold Reactor_new, try_bind, mbind, M_bind. rewrite Hrun.
  destruct r as [b|e]; [|by exists (Err e), p']. exists (Ok (Inner_init buf b)), p'. split; [done|].
  destruct Hr as (Hf & (r & ps & p1 & Hset & Hr & Hsz) & Hcs).
  destruct (Hready r ps p1 Hset Hr) as [_ Hcap]. rewrite <-Hsz in Hcap.
  destruct (fresh_started Hov Hlog (Inner_init buf b) p' Hf Hcap Hcs) as (A & _ & Hs).
  by exists A.
Qed.

(** C4: the whole stack works together.  On the memory [io_uring_setup]
    prepares, [Reactor::new] returns an error only when [io_uring_setup], a
    mapping of the ring, the creation of the pipe or that of the timer fails
    where the run has got to, and then the error of that call ([call_fails]),
    with nothing left behind; otherwise any program over the reactor it built
    (reads, writes, watches, polls, drops, turns and the reactor's own drop, in
    any order), on the rings in shared memory, with the kernel and other threads
    acting at every access, and with room in the completion ring unless the
    kernel loses no completion, runs to its end: no panic, no access outside the
    mappings or to freed memory, no endless wait.
    This is for builds without overflow checks and without debug logging, like
    release builds that do not ask for it: with the former
    [pending_submissions] can panic ([pending_submissions_counts]), and with the
    latter the log line of a submitted [poll_add] is undefined behaviour
    ([Debug_undefined_iff_poll_add]). *)
Theorem Reactor_new_runs_programs buf p fuel cmds
    (Hov : overflow_checks = false) (Hlog : log_debug = false) (Hat : mapped_at base)
    (Hready : ∀ r ps p1, syscall_setup SYS_io_uring_setup 4096 (SetupParameters_new 0) p
      = (Done (r, ps), p1) → 0 ≤ as_i32 r → ready base ps (kern p1) ∧ cap ≤ cq_entries ps)
    (Hroom : lossy = false ∨ ∀ b p', Reactor_new buf p = (Done (Ok b), p') →
      keeps_room (RingDeviceOk0 := uring_device_ok cap Hov Hlog) as_raw_fd as_slice iovec_addr fuel cmds []
        (mkRt true (reactor_of b (kern p'))))
    (Hfuel : (2 * length cmds + 2 < fuel)%nat) (Hlt : Z.of_nat fuel < 2 ^ 64) :
  ∃ r p', Reactor_new buf p = (Done r, p') ∧
    match r with
    | Ok b => ∃ cs s', exec_all as_raw_fd as_slice iovec_addr fuel cmds []
        (mkRt true (reactor_of b (kern p'))) = (Done cs, s')
    | Err e => (maps p' ≡ₚ maps p ∧ fds p' ≡ₚ fds p) ∧ call_fails p e
    end.
Proof.
  destruct (Reactor_new_starts buf p Hov Hlog Hat Hready) as (r & p' & Hrun & Hr). exists r, p'.
  split; [done|]. destruct r as [b|e]; [|done]. destruct Hr as (A & Hs).
  assert (keeps_room (RingDeviceOk0 := uring_device_ok cap Hov Hlog) as_raw_fd as_slice iovec_addr fuel
    cmds [] (mkRt true (reactor_of b (kern p')))) as Hkeeps.
  { destruct Hroom as [Hlossy|Hroom]; [|by apply Hroom].
    apply lossless_room. by apply uring_lossless. }
  pose proof (exec_all_spec (RingDeviceOk0 := uring_device_ok cap Hov Hlog) as_raw_fd as_slice iovec_addr
    fuel cmds [] (mkRt true (reactor_of b (kern p'))) A Hov) as He. rewrite (proj2 (proj2 Hs)) in He.
  specialize (He (started_inv _ _ Hs) (or_introl Hkeeps) Hfuel ltac:(simpl; lia)).
  apply wp_run in He as (cs & s' & Hexec & _). by exists cs, s'.
Qed.
End starts.
End props.

(** ** A concrete operating system *)

#[local] Existing Instances alone alone_ok.
Definition demo_pipe : LibcPipe Proc := {|
  pipe2 := λ _ p, (Done (0, (5, 6)), demo_fds (5 :: 6 :: fds p) p);
  F_GETFL := λ _ p, (Done 1, p); F_SETFL := λ _ _ p, (Done tt, p);
  O_CLOEXEC := 524288; O_NONBLOCK := 2048 |}.
Definition demo_timer (ok : bool) : LibcTimer Proc := {|
  TimerFd_new := λ p, if ok then (Done (Ok 7), demo_fds (7 :: fds p) p) else (Done (Err (Os 24)), p);
  TimerFd_drop := λ fd p, (Done tt, demo_fds (drop_one fd (fds p)) p) |}.
Lemma demo_fd_ok ok : LibcFdOk demo_pipe (demo_timer ok).
Proof.
  split; simpl.
  - intros flags p. by exists 0, 5, 6, (demo_fds (5 :: 6 :: fds p) p).
  - intros fd p. by exists 1, p.
  - intros fd fl p. by exists p.
  - intros p. destruct ok; [by exists (Ok 7), (demo_fds (7 :: fds p) p)|by exists (Err (Os 24)), p].
  - intros fd p Hin. eexists. split_and!; [done..|]. by apply drop_one_spec.
Qed.
Definition demo_reactor (ok : bool) : outcome (result Built io_error) * Proc :=
  @Reactor_new quiet (demo_libc 3) demo_pipe (demo_timer ok) release_build 65536 demo_proc.

(** No timer to be had: the ring and the pipe are given back. *)
Lemma Reactor_new_owns_its_resources_witness :
  (demo_reactor false).1 = Done (Err (Os 24)) ∧
  maps (demo_reactor false).2 ≡ₚ [] ∧ fds (demo_reactor false).2 ≡ₚ [].
Proof.
  pose proof (@Reactor_new_owns_its_resources quiet (demo_libc 3) (demo_libc_ok 3) demo_pipe
    (demo_timer false) (demo_fd_ok false) release_build 65536 demo_proc) as Hw.
  fold (demo_reactor false) in Hw. destruct (demo_reactor false) as [o p] eqn:Hr. revert Hw.
  assert (o = Done (Err (Os 24))) as -> by (apply (f_equal fst) in Hr; vm_compute in Hr; congruence).
  intros Hw. split; [reflexivity|exact Hw].
Defined.

Lemma Reactor_new_runs_programs_witness : ∃ b p', demo_reactor true = (Done (Ok b), p') ∧
  ∃ cs s', @exec_all URing Boxes (@uring_device demo_world release_build) alone release_build demo_poll
    demo_alloc Z Z id demo_slice (Z.add 8)
    {| box := inl; downcast b := match b with inl x => Some x | inr _ => None end |}
    {| box := inr; downcast b := match b with inl _ => None | inr x => Some x end |}
    100 demo_program [] (mkRt true (reactor_of b (kern p'))) = (Done cs, s').
Proof.
  destruct (@Reactor_new_runs_programs quiet (demo_libc 3) (demo_libc_ok 3) demo_pipe (demo_timer true)
    (demo_fd_ok true) release_build quiet_ok demo_base 2 Boxes demo_world demo_world_ok alone alone_ok
    demo_poll demo_alloc demo_alloc_ok Z Z id demo_slice (Z.add 8)
    {| box := inl; downcast b := match b with inl x => Some x | inr _ => None end |} (λ x, eq_refl)
    {| box := inr; downcast b := match b with inl _ => None | inr x => Some x end |} (λ x, eq_refl)
    65536 demo_proc 100 demo_program eq_refl eq_refl (demo_mapped_at 3)) as (r & p' & Hr & Hm).
  - intros r ps p1 [= <- <- <-] _. split; [exact demo_ready|]. vm_compute. discriminate.
  - left. reflexivity.
  - vm_compute. repeat constructor.
  - reflexivity.
  - destruct r as [b|e]; [exists b, p'; split; [exact Hr|exact Hm]|]. exfalso.
    assert ((demo_reactor true).1 = Done (Err e)) as Hx by (unfold demo_reactor; by rewrite Hr).
    vm_compute in Hx. discriminate Hx.
Defined.
