(* ===== verification/Overrun.v ===== *)
(** * A completion queue that overruns

    Nothing in the reactor compares the number of outstanding requests with the
    size of the completion ring.  Here it is run on rings of two slots with a
    kernel that completes three reads at once: the third completion has no slot,
    and its future waits for ever. *)

From S2P Require Import Prelude Std Sys Submission Ring Kern Mmap SubQueue CompQueue Rings.
From S2P Require Import Demo QueueOps Queues Registration RegistrationProps Unpark Device UringDevice Reactor.
From S2P Require Import ReactorProps AsyncIo AsyncProps Clients ClientProps AsyncDemo ReactorNew.

Local Open Scope Z_scope.

(** ** The kernel *)

Definition exec_lose (k : Kern) : option (kevent * Kern) :=
  h ← u32s k !! g_cq_head (geo k);
  t ← u32s k !! g_cq_tail (geo k);
  o ← u32s k !! g_cq_overflow (geo k);
  match fly k with
  | e :: l =>
      if decide (dist h t = entries (g_cq_mask (geo k))) then
        Some (Lose e, set_fly l (set_u32s <[g_cq_overflow (geo k) := next_ndx o]> k))
      else None
  | [] => None
  end.
Lemma exec_lose_sound k ev k' : exec_lose k = Some (ev, k') → kdo k ev k'.
Proof.
  unfold exec_lose. intros Hx. destruct (fly k) as [|e l] eqn:Hf; simplify_option_eq.
  by eapply (kdo_overflow k _ _ _ e [] l).
Qed.

(** It finishes the oldest request, with or without a slot, unless that is the
    wake-up poll; it takes over one entry. *)
Definition finish_one (k : Kern) : Kern :=
  match fly k with
  | e :: _ =>
      if decide (sqe_user_data e = PARK) then k
      else match exec_post k with
           | Some (ev, k') => log_event ev k'
           | None => match exec_lose k with Some (ev, k') => log_event ev k' | None => k end
           end
  | [] => k
  end.
Definition take_one (k : Kern) : Kern :=
  match exec_take k with Some (ev, k') => log_event ev k' | None => k end.
(** A call takes what there is, and finishes requests when three are in flight. *)
Definition batch (k : Kern) : Kern :=
  let k := take_one (take_one k) in
  if decide (3 ≤ length (fly k))%nat then finish_one (finish_one (finish_one k)) else k.

Lemma take_one_moves s k : rtc (kmove_in (polled true s)) k (take_one k).
Proof.
  unfold take_one. destruct (exec_take k) as [[ev k']|] eqn:Ht; [|done]. apply rtc_once. exists ev.
  split; [|by apply kstep_do, exec_take_sound]. unfold exec_take in Ht. by simplify_option_eq.
Qed.
Lemma finish_one_moves s k : rtc (kmove_in (polled true s)) k (finish_one k).
Proof.
  unfold finish_one. destruct (fly k) as [|e l] eqn:Hf; [done|]. case_decide as He; [done|].
  destruct (exec_post k) as [[ev k']|] eqn:Hp; [|destruct (exec_lose k) as [[ev k']|] eqn:Hl; [|done]].
  - apply rtc_once. exists ev. split; [|by apply kstep_do, exec_post_sound].
    unfold exec_post in Hp. rewrite Hf in Hp. by simplify_option_eq.
  - apply rtc_once. exists ev. split; [|by apply kstep_do, exec_lose_sound].
    unfold exec_lose in Hl. rewrite Hf in Hl. by simplify_option_eq.
Qed.
Lemma batch_moves s k : rtc (kmove_in (polled true s)) k (batch k).
Proof.
  unfold batch. etrans; [apply take_one_moves|]. etrans; [apply take_one_moves|]. case_decide; [|done].
  do 2 (etrans; [apply finish_one_moves|]). apply finish_one_moves.
Qed.

(** It acts in [io_uring_enter] only. *)
Definition overrun_serve (w : URing) : URing := mkURing (w_q w) (w_c w) (batch (w_k w)) (w_sh w) (w_fd w).
Definition overrun_world : World := {|
  pturn := λ _, quiet;
  world_libc := {|
    syscall := λ _ _ w, (Done 2, overrun_serve w);
    syscall_setup := λ _ _ ps w, (Done (- 38, ps), w);
    errno := λ w, (Done 11, w);
    mmap := λ _ _ _ _ _ _ w, (Done 0, w); munmap := λ _ _ w, (Done 0, w);
    close := λ _ w, (Done tt, w); sizeof_sigset_t := 128;
    PROT_READ := 1; PROT_WRITE := 2; MAP_SHARED := 1; MAP_POPULATE := 32768; MAP_FAILED := 0 |};
  timer_set := λ _ w, (Done tt, w);
  lossy := true |}.
Lemma overrun_world_ok : WorldOk (H := overrun_world).
Proof.
  split; simpl.
  - intros s n k. apply rtc_refl.
  - intros w A n min flags _ _. exists 2, (overrun_serve w). split; [done|].
    constructor; try done. apply batch_moves.
  - intros w. by exists 11.
  - intros t w. by exists w.
Qed.

(** ** The program

    Two reads are submitted and taken over, then a third; the next turn sees the
    completions of the first two. *)

#[local] Existing Instances alone alone_ok release_build boxed_ctx boxed_ctx_ok boxed_unit boxed_unit_ok
  ctx_alloc ctx_alloc_ok overrun_world overrun_world_ok.

Definition overrun_start : Rt URing Boxes :=
  mkRt true (mkInner_ (demo_uring 0) 4 5 CompletionState_new no_heap).
Definition overrun_program : list (cmd (B := Z) (F := Z)) :=
  [CStart false 7 0 1; CStart false 7 0 2; CPark (Some 0); CStart false 7 0 3; CPark (Some 0);
   CPoll 0 (ByTask 9); CPoll 1 (ByTask 9); CPoll 2 (ByTask 9); CPark (Some 0); CPoll 2 (ByTask 9)].
Definition overrun : outcome (list (Client Z Z)) * Rt URing Boxes :=
  exec_all id demo_slice (Z.add 8) 100 overrun_program [] overrun_start.

Lemma overrun_started : started (R := uring_device) (RingDeviceOk0 := uring_device_ok 2 eq_refl eq_refl)
  overrun_start (mkRings [] 0 [] [] [] 0 2).
Proof.
  split; [done|]. split; [|done]. split.
  - split_and!; [|by right|done]. split; [apply demo_rep; unfold in_u; lia|].
    split_and!; [|done|done]. intros Hin. by apply not_elem_of_nil in Hin.
  - change (open _) with (@nil Z). constructor; try done; try set_solver.
    intros a Ha. simpl. rewrite lookup_empty. split; [done|apply not_elem_of_nil].
Qed.

(** Without room in the completion queue a read is forgotten
    ([ReactorProps.lost_completion_never_arrives]), and a program gets there.  On
    rings of two slots, with a kernel and a world that keep to what is asked of them, a
    program with three reads outstanding gets to where the first two are done and
    nothing is left that could complete the third: the kernel had no slot for its
    completion and has no request in flight, and both queues are empty, but the
    registration is unfinished, still holds buffer and file, and waits with the
    waker of the last poll, and [active_wait] stays at one. *)
Example overrun_forgets_a_read :
  started (R := uring_device) (RingDeviceOk0 := uring_device_ok 2 eq_refl eq_refl)
    overrun_start (mkRings [] 0 [] [] [] 0 2) ∧
  match overrun with
  | (Done [c1; c2; c3], s) =>
      fut c1 = Gone ∧ fut c2 = Gone ∧ fut c3 = Io (Pending 4368) ∧
      live 4368 2 (waiting_on (Old 9) (io_context demo_slice 3 7)) (regs (rt_inner s)) ∧
      active_wait (cs (rt_inner s)) = 1 ∧
      let w := dev (rt_inner s) in
      fly (w_k w) = [] ∧ (sqe_user_data <$> losses (klog (w_k w))) = [4368] ∧
      u32s (w_k w) !! sq_k_head (w_q w) = u32s (w_k w) !! sq_k_tail (w_q w) ∧
      u32s (w_k w) !! cq_k_head (w_c w) = u32s (w_k w) !! cq_k_tail (w_c w)
  | _ => False
  end.
Proof. split; [apply overrun_started|]. vm_compute. repeat split. Qed.
