(* ===== verification/Net.v ===== *)
(** * [tokio-uring-reactor/src/net.rs] and [io.rs]: sockets on the reactor

    [TcpListener], its stream [Incoming] of connections, and the reads and
    writes of a stream.  The listener's [accept] is the operating system's; the
    state is the runtime's beside the system's. *)

From S2P Require Import Prelude Std Sys Submission Ring Kern Mmap SubQueue CompQueue Rings.
From S2P Require Import QueueOps Registration RegistrationProps Unpark Device Reactor.
From S2P Require Import ReactorProps AsyncIo AsyncProps Clients ClientProps.

Local Open Scope Z_scope.
Local Open Scope rust_scope.

(** [std::net::TcpListener::accept] on a listener's descriptor: a stream's
    descriptor and a peer address, or an error. *)
Class Accept (N : Type) := accept : Z → M N (result (Z * Z) io_error).

(** [Incoming]; its listener is a descriptor. *)
Record Incoming : Type := mkIncoming { in_listener : Z; in_blocked : bool; in_poll : AsyncPoll }.

Section net.
Context {W D N : Type} `{R : !RingDevice W} `{!Others} `{!Build} `{!LibcPoll} `{!Alloc D}.
Context `{Bu : !Boxed unit D} `{!Accept N}.

Definition Net : Type := Rt W D * N.
Definition on_rt {X} (m : M (Rt W D) X) : M Net X := zoom fst (λ s n, (s, n.2)) m.
Definition on_os {X} (m : M N X) : M Net X := zoom snd (λ x n, (n.1, x)) m.

(** [From<net::TcpListener>]: the descriptor is made non-blocking. *)
Definition TcpListener_from `{!LibcPipe N} (l : Z) : M N Z := set_non_block l;; mret l.

(** [TcpListener::incoming] *)
Definition incoming (listener : Z) : M Net Incoming :=
  p ← on_rt (Handle_async_poll listener PollFlags_IN); mret (mkIncoming listener true p).

(** The second half of the loop's body, which goes on with [again] when the
    listener is readable; [Ok None] is pending. *)
Definition Incoming_wait
    (again : Incoming → M Net (result (option (Z * Z)) io_error * Incoming))
    (b : poller) (self : Incoming) : M Net (result (option (Z * Z)) io_error * Incoming) :=
  '(r, p) ← on_rt (poll_by b AsyncPoll_poll AsyncPoll_poll_async (in_poll self));
  match r with
  | Err e => mret (Err e, mkIncoming (in_listener self) (in_blocked self) p)
  | Ok None => mret (Ok None, mkIncoming (in_listener self) (in_blocked self) p)
  | Ok (Some _events) => again (mkIncoming (in_listener self) false p)
  end.

(** The loop of [Stream::poll] and [Stream::poll_next], for at most [fuel]
    turns. *)
Fixpoint Incoming_poll (fuel : nat) (b : poller) (self : Incoming)
    : M Net (result (option (Z * Z)) io_error * Incoming) :=
  match fuel with
  | O => hang "accept keeps being interrupted"
  | S fuel =>
      if negb (in_blocked self) then
        r ← on_os (accept (in_listener self));
        match r with
        | Ok (s, a) => mret (Ok (Some (s, a)), self)
        | Err e =>
            if decide (kind e = Interrupted) then Incoming_poll fuel b self
            else if decide (kind e = WouldBlock) then
              Incoming_wait (Incoming_poll fuel b) b
                (mkIncoming (in_listener self) true (in_poll self))
            else mret (Err e, self)
        end
      else Incoming_wait (Incoming_poll fuel b) b self
  end.
End net.

(** ** [io.rs] *)

Section io.
Context {W D : Type} `{R : !RingDevice W} `{!Build} `{!Alloc D}.
Context {B F : Type} (as_raw_fd : F → Z) (as_slice : B → slice_ptr) (iovec_addr : Z → Z).
Context `{Bx : !Boxed (Context_ (B := B) (F := F)) D}.

(** [SocketRead::read] and [SocketWrite::write]: at offset 0, which sockets
    ignore. *)
Definition SocketRead_read (self : F) (buf : B) : M (Rt W D) (State (B := B) (F := F)) :=
  Handle_async_read as_raw_fd as_slice iovec_addr self 0 buf.
Definition SocketWrite_write (self : F) (buf : B) : M (Rt W D) (State (B := B) (F := F)) :=
  Handle_async_write as_raw_fd as_slice iovec_addr self 0 buf.
End io.

(** [SplitRead] and [SplitWrite]: the two halves share the socket, which is
    closed when both are dropped. *)
Inductive Split (T : Type) : Type := SplitRead (rw : T) | SplitWrite (rw : T).
Arguments SplitRead {T}.
Arguments SplitWrite {T}.
Definition split {T} (rw : T) : Split T * Split T := (SplitRead rw, SplitWrite rw).
Definition Split_as_raw_fd {T} (as_raw_fd : T → Z) (s : Split T) : Z :=
  match s with SplitRead rw | SplitWrite rw => as_raw_fd rw end.

(** ** Accepting connections *)

Section accepting.
Context {W D N : Type} `{R : !RingDevice W} `{!RingDeviceOk R} `{!Others} `{!OthersOk _}
  `{!Build} `{!LibcPoll} `{!Alloc D} `{!AllocOk _}.
Context {B F : Type}.
Context `{Bx : !Boxed (Context_ (B := B) (F := F)) D} `{!BoxedOk Bx}.
Context `{Bu : !Boxed unit D} `{!BoxedOk Bu} `{!Accept N}.
Implicit Types (s : Rt W D) (x : N).

(** [accept] is interrupted at most [n] times in a row. *)
Inductive settles (fd : Z) : nat → N → Prop :=
| settles_now n x r x' :
    accept fd x = (Done r, x') → (∀ e, r = Err e → kind e ≠ Interrupted) → settles fd n x
| settles_later n x e x' :
    accept fd x = (Done (Err e), x') → kind e = Interrupted → settles fd n x' → settles fd (S n) x.

(** A call of [accept]. *)
Definition accepts (fd : Z) x x' : Prop := ∃ r, accept fd x = (Done r, x').

(** The result of a poll of the stream: when it is pending, the listener would
    block and the watch on it is active, last polled by the caller; one request
    is added at most, and none with a connection. *)
Definition incoming_post (b : poller) fd (l1 l2 : list (Client B F)) A x
    (o : result (option (Z * Z)) io_error * Incoming) (n : Net (W := W) (D := D) (N := N)) : Prop :=
  in_listener o.2 = fd ∧
  (∃ A' w, (length (open A') ≤ length (open A) + 1)%nat ∧
    client_inv n.1 A' (l1 ++ mkClient (Ready (in_poll o.2)) w :: l2)%list ∧
    (∀ conn, o.1 = Ok (Some conn) → A' = A) ∧
    (o.1 = Ok None → in_blocked o.2 = true ∧ ap_active (in_poll o.2) = true ∧ w = poller_waker b)) ∧
  ∃ y, rtc (accepts fd) x y ∧
    match o.1 with
    | Ok (Some conn) => in_blocked o.2 = false ∧ accept fd y = (Done (Ok conn), n.2)
    | _ => True
    end.

Lemma incoming_wait_spec again b self l1 c l2 s A x0 x : overflow_checks = false →
  client_inv s A (l1 ++ c :: l2)%list → fut c = Ready (in_poll self) →
  spare 1 A → in_blocked self = true → rtc (accepts (in_listener self)) x0 x →
  (ap_active (in_poll self) = true → ∀ p s', ap_active p = false →
    client_inv s' A (l1 ++ mkClient (Ready p) (poller_waker b) :: l2)%list →
    wp (again (mkIncoming (in_listener self) false p))
      (incoming_post b (in_listener self) l1 l2 A x0) (s', x)) →
  wp (Incoming_wait again b self) (incoming_post b (in_listener self) l1 l2 A x0) (s, x).
Proof.
  intros Hov Hi Hc Hlt Hbl Hx Hagain. unfold Incoming_wait. rewrite wp_bind. unfold on_rt. rewrite wp_zoom.
  eapply wp_mono; [by apply (poll_watch_spec b l1 c l2 s A (in_poll self))|].
  intros [r p] s' (A' & [[Hlen _] _] & [Hi' _] & Hr). unfold watch_polled in Hr. simpl in *.
  assert (∀ r, (r = Ok None → ap_active p = true) → (∀ c, r ≠ Ok (Some c)) →
    incoming_post b (in_listener self) l1 l2 A x0
      (r, mkIncoming (in_listener self) (in_blocked self) p) (s', x)) as Hend.
  { intros r' Hr1 Hr2. split; [done|]. split; [exists A', (poller_waker b); split_and!; [done..| |]; intros; simpl in *; [by edestruct Hr2|auto]|].
    exists x. split; [done|]. simpl. destruct r' as [[c'|]|]; [by destruct (Hr2 c')|done..]. }
  destruct r as [[ev|]|e].
  - destruct Hr as (Hact & Hact' & ->). by apply Hagain.
  - apply wp_ret. by apply Hend.
  - apply wp_ret. by apply Hend.
Qed.

(** The accept calls, up to the one that is not interrupted. *)
Lemma incoming_loop b fd k m x0 x fuel self l1 c l2 s A : settles fd m x → (m + k < fuel)%nat →
  rtc (accepts fd) x0 x →
  in_listener self = fd → client_inv s A (l1 ++ c :: l2)%list → fut c = Ready (in_poll self) →
  (∀ fuel x', (k ≤ fuel)%nat → rtc (accepts fd) x0 x' →
    wp (Incoming_wait (Incoming_poll fuel b) b (mkIncoming fd true (in_poll self)))
      (incoming_post b fd l1 l2 A x0) (s, x')) →
  wp (Incoming_poll fuel b self) (incoming_post b fd l1 l2 A x0) (s, x).
Proof.
  intros Hset Hf Hx Hfd Hi Hc Hwait. revert fuel Hf. destruct self as [fd' [|] p]; simpl in *; subst fd'.
  { intros [|fuel] Hf; [lia|]. apply Hwait; [lia|done]. }
  induction Hset as [m x r x' Hr Hne|m x e x' Hr He _ IH]; intros [|fuel] Hf; try lia; simpl;
    rewrite wp_bind; unfold on_os; rewrite wp_zoom; simpl; unfold wp at 1; rewrite Hr.
  - assert (client_inv s A (l1 ++ mkClient (Ready p) (last_poll c) :: l2)%list) as Hi'
      by (destruct c as [f w]; simpl in *; by subst f).
    destruct r as [[conn addr]|e]; simpl.
    + apply wp_ret. split; [done|]. split; [exists A, (last_poll c); split; [lia|by split]|].
      exists x. by split_and!.
    + specialize (Hne e eq_refl). rewrite decide_False by done. case_decide.
      * apply Hwait; [lia|]. eapply rtc_r; [exact Hx|by eexists].
      * apply wp_ret. split; [done|]. split; [exists A, (last_poll c); split; [lia|by split]|]. by exists x.
  - rewrite decide_True by done. apply IH; [|lia]. eapply rtc_r; [exact Hx|by eexists].
Qed.
(** A completed watch is followed by one more round. *)
Lemma incoming_spec b fd n x fuel self l1 c l2 s A : overflow_checks = false →
  (∀ y, settles fd n y) → (2 * n + 2 < fuel)%nat → in_listener self = fd →
  client_inv s A (l1 ++ c :: l2)%list → fut c = Ready (in_poll self) →
  spare 1 A →
  wp (Incoming_poll fuel b self) (incoming_post b fd l1 l2 A x) (s, x).
Proof.
  intros Hov Hall Hf Hfd Hi Hc Hlt.
  apply (incoming_loop b fd (n + 2) n x x fuel self l1 c l2 s A (Hall x)); [lia|done..|].
  intros fuel1 x1 Hf1 Hx1.
  apply (incoming_wait_spec _ b (mkIncoming fd true (in_poll self)) l1 c l2 s A x x1 Hov Hi Hc Hlt eq_refl Hx1).
  intros _ p s' Hact Hi'.
  apply (incoming_loop b fd 0 n x x1 fuel1 (mkIncoming fd false p) l1 (mkClient (Ready p) (poller_waker b))
    l2 s' A (Hall x1)); [lia|done..|].
  intros fuel2 x2 _ Hx2. eapply incoming_wait_spec; [done|exact Hi'|done..|]. simpl. by rewrite Hact.
Qed.

End accepting.
