(* ===== verification/NetDemo.v ===== *)
(** * Sockets and programs at work: accepting on the idealised device *)

From S2P Require Import Prelude Std Sys Submission Ring Kern Mmap SubQueue CompQueue Rings.
From S2P Require Import QueueOps Registration RegistrationProps Unpark Device Reactor.
From S2P Require Import ReactorProps AsyncIo AsyncProps Clients ClientProps AsyncDemo Net.

Local Open Scope Z_scope.

(** The connections waiting at the listener. *)
#[local] Instance demo_accept : Accept (list (Z * Z)) := λ _ x,
  match x with
  | [] => (Done (Err (Os EAGAIN)), [])
  | conn :: x => (Done (Ok conn), x)
  end.
Lemma demo_settles fd x : settles fd 0 x.
Proof. destruct x as [|conn x]; (eapply settles_now; [reflexivity|]); by intros e [= <-]. Qed.

#[local] Existing Instances alone alone_ok release_build boxed_ctx boxed_ctx_ok boxed_unit boxed_unit_ok
  ctx_alloc ctx_alloc_ok.

