(* ===== verification/Runtime.v ===== *)
(** * [tokio-uring/src/lib.rs]: the runtime

    [Runtime] and [Entered], which run the executor with the runtime's reactor
    as the thread's current one.  The executor ([tokio_current_thread] over
    [tokio_timer] over the reactor) is a parameter; the state is the thread's:
    [CURRENT_REACTOR], whether a [tokio_executor::Enter] is out, the executor. *)

From S2P Require Import Prelude Std.

Local Open Scope Z_scope.
Local Open Scope rust_scope.

Record Thread (X H : Type) : Type := mkThread {
  current : option H; in_enter : bool; exec_state : X }.
Arguments mkThread {X H}.
Arguments current {X H}.
Arguments in_enter {X H}.
Arguments exec_state {X H}.

(** [CurrentThread<Timer<Reactor>>]: its futures run on the thread. *)
Class Executor (X H T F V : Type) := {
  reactor_of : X → H;                              (* get_park().get_park().handle() *)
  timer_of : X → T;                                (* get_park().handle() *)
  ex_spawn : F → X → X;
  ex_is_idle : X → bool;
  ex_run : M (Thread X H) (result unit string);
  ex_run_timeout : Z → M (Thread X H) (result unit string);
  ex_turn : option Z → M (Thread X H) (result bool string);
  ex_block_on : F → M (Thread X H) (result V string);
  (* tokio_timer::with_default: what it sets before and resets after *)
  timer_set : T → Thread X H → Thread X H;
  timer_reset : Thread X H → Thread X H }.

(** The timer's default is a thread-local of its own; the executor leaves what
    this file keeps to itself as it finds it. *)
Class ExecutorOk {X H T F V} (E : Executor X H T F V) : Prop := {
  timer_set_current t s : current (timer_set t s) = current s ∧ in_enter (timer_set t s) = in_enter s;
  timer_set_exec t s : exec_state (timer_set t s) = exec_state s;
  timer_reset_current s : current (timer_reset s) = current s ∧ in_enter (timer_reset s) = in_enter s;
  timer_reset_exec s : exec_state (timer_reset s) = exec_state s }.

Section runtime.
Context {X H T F V : Type} `{E : !Executor X H T F V}.
Abbreviation MT := (M (Thread X H)).

Definition set_current (h : option H) (s : Thread X H) : Thread X H :=
  mkThread h (in_enter s) (exec_state s).
Definition set_in_enter (b : bool) (s : Thread X H) : Thread X H :=
  mkThread (current s) b (exec_state s).

(** [tokio_uring_reactor::with_default] *)
Definition with_default {A} (_handle : H) (f : MT A) : MT A := f.

(** [with_reactor_handle]: the [Reset] guard runs on return and on unwinding. *)
Definition with_reactor_handle {A} (handle : H) (f : MT A) : MT A :=
  with_drop (modify (set_current (Some handle));; with_default handle f)
    (modify (set_current None)).
Definition current_reactor_handle : MT (option H) := gets current.

(** [tokio_timer::with_default], which resets on unwinding as well. *)
Definition with_timer {A} (t : T) (f : MT A) : MT A :=
  with_drop (modify (timer_set t);; f) (modify timer_reset).

(** [Entered::with] *)
Definition Entered_with {A} (f : MT A) : MT A :=
  reactor_handle ← gets (λ s, reactor_of (exec_state s));
  timer_handle ← gets (λ s, timer_of (exec_state s));
  with_reactor_handle reactor_handle (with_timer timer_handle f).

Definition Entered_spawn (future : F) : MT unit :=
  modify (λ s, mkThread (current s) (in_enter s) (ex_spawn future (exec_state s))).
Definition Entered_run : MT (result unit string) := Entered_with ex_run.
Definition Entered_run_timeout (duration : Z) : MT (result unit string) :=
  Entered_with (ex_run_timeout duration).
Definition Entered_block_on_all (future : F) : MT (result V string) :=
  Entered_with (
    ret ← ex_block_on future;
    r ← ex_run;
    match r with
    | Ok _ => mret ret
    | Err _ => panic "called `Result::unwrap()` on an `Err` value"
    end).
Definition Entered_turn (duration : option Z) : MT (result bool string) :=
  Entered_with (ex_turn duration).
Definition Entered_is_idle : MT bool := gets (λ s, ex_is_idle (exec_state s)).

(** [tokio_executor::enter().unwrap()], and the guard it returns. *)
Definition with_enter {A} (f : MT A) : MT A :=
  e ← gets in_enter;
  if (e : bool) then panic "called `Result::unwrap()` on an `Err` value"
  else with_drop (modify (set_in_enter true);; f) (modify (set_in_enter false)).

Definition Runtime_spawn : F → MT unit := Entered_spawn.
Definition Runtime_run : MT (result unit string) := with_enter Entered_run.
Definition Runtime_run_timeout (duration : Z) : MT (result unit string) :=
  with_enter (Entered_run_timeout duration).
Definition Runtime_block_on_all (future : F) : MT (result V string) :=
  with_enter (Entered_block_on_all future).
Definition Runtime_turn (duration : option Z) : MT (result bool string) :=
  with_enter (Entered_turn duration).
Definition Runtime_is_idle : MT bool := Entered_is_idle.
Definition reactor_handle : MT H := gets (λ s, reactor_of (exec_state s)).
Definition timer_handle : MT T := gets (λ s, timer_of (exec_state s)).

(** ** The current reactor *)

Context `{!ExecutorOk E}.

(** It returned, or unwound. *)
Definition ended {A} (o : outcome A) : Prop :=
  match o with Done _ | Panic _ => True | _ => False end.

Lemma with_drop_ended {A} (m : MT A) (g : Thread X H → Thread X H) s o s' :
  with_drop m (modify g) s = (o, s') → ended o → ∃ s1, m s = (o, s1) ∧ s' = g s1.
Proof.
  unfold with_drop, modify, mbind, M_bind. destruct (m s) as [[] s1]; simpl; intros [= <- <-] He;
    try destruct He; by exists s1.
Qed.

(** What runs inside [Entered::with], and the thread it starts on. *)
Definition inside (s : Thread X H) : Thread X H :=
  timer_set (timer_of (exec_state s)) (set_current (Some (reactor_of (exec_state s))) s).
Lemma Entered_with_ended {A} (f : MT A) s o s' : Entered_with f s = (o, s') → ended o →
  ∃ s1, f (inside s) = (o, s1) ∧ s' = set_current None (timer_reset s1).
Proof.
  unfold Entered_with, mbind, M_bind, gets. simpl. intros Hrun Ho.
  destruct (with_drop_ended _ _ _ _ _ Hrun Ho) as (s1 & Hrun1 & ->).
  unfold with_default, with_timer, mbind, M_bind, modify in Hrun1. simpl in Hrun1.
  destruct (with_drop_ended _ _ _ _ _ Hrun1 Ho) as (s2 & Hrun2 & ->). by exists s2.
Qed.

(** C36: the runtime's reactor is the current one exactly while its futures run:
    whatever runs inside [Entered::with] starts with
    [current_reactor_handle()] giving the handle of this runtime's reactor, and
    once it returned or unwound there is no current reactor; entering from the
    inside of a run panics instead of nesting, and the enter guard is given
    back on return and on unwinding. *)
Theorem runtime_scopes_current_reactor {A} (f : MT A) s o s'
    (Hrun : Entered_with f s = (o, s')) (Hend : ended o) :
  current s' = None ∧
  current_reactor_handle (inside s) = (Done (Some (reactor_of (exec_state s))), inside s) ∧
  (∃ s1, f (inside s) = (o, s1)) ∧
  (∀ o2 s2, with_enter (Entered_with f) s = (o2, s2) → ended o2 →
    if in_enter s then o2 = Panic "called `Result::unwrap()` on an `Err` value" ∧ s2 = s
    else in_enter s2 = false ∧ current s2 = None).
Proof.
  destruct (Entered_with_ended f s o s' Hrun Hend) as (s1 & Hf & ->).
  split; [done|]. split; [|split; [by eexists|]].
  { unfold current_reactor_handle, gets, inside.
    by rewrite (proj1 (timer_set_current _ _)). }
  intros o2 s2. unfold with_enter, mbind, M_bind, gets at 1.
  destruct (in_enter s); intros Hrun2 Ho2; [by injection Hrun2 as <- <-|].
  destruct (with_drop_ended _ _ _ _ _ Hrun2 Ho2) as (s3 & Hrun3 & ->).
  unfold mbind, M_bind, modify in Hrun3. simpl in Hrun3.
  by destruct (Entered_with_ended f _ _ _ Hrun3 Ho2) as (s4 & _ & ->).
Qed.

(** C40: [block_on_all] returns the future's own result once all other tasks
    have completed too; an error of the event loop in that second part is not
    returned, as the outer [Result] of its documentation promises, but panics. *)
Theorem block_on_all_panics_on_late_errors future ret s s1 r s2
    (Hblock : ex_block_on future (inside s) = (Done ret, s1)) (Hrun : ex_run s1 = (Done r, s2)) :
  (Entered_block_on_all future s).1 =
    match r with
    | Ok _ => Done ret
    | Err _ => Panic "called `Result::unwrap()` on an `Err` value"
    end.
Proof.
  unfold Entered_block_on_all, Entered_with, with_reactor_handle, with_default, with_timer, with_drop,
    mbind, M_bind, gets, modify. simpl.
  change (timer_set (timer_of (exec_state s)) (set_current (Some (reactor_of (exec_state s))) s))
    with (inside s).
  rewrite Hblock, Hrun. by destruct r.
Qed.
End runtime.

(** ** The theorems at work: an executor whose run fails after [n] runs *)

Definition demo_executor : Executor nat Z Z Z Z := {|
  reactor_of _ := 5; timer_of _ := 6;
  ex_spawn _ n := n; ex_is_idle n := (n =? 0)%nat;
  ex_run := λ s, match exec_state s with
    | O => (Done (Err "park error"), s)
    | S n => (Done (Ok tt), mkThread (current s) (in_enter s) n)
    end;
  ex_run_timeout _ := mret (Ok tt); ex_turn _ := mret (Ok true);
  ex_block_on f := mret (Ok f); timer_set _ s := s; timer_reset s := s |}.
#[local] Existing Instance demo_executor.
Lemma demo_executor_ok : ExecutorOk demo_executor.
Proof. by split. Qed.

Lemma runtime_scopes_current_reactor_witness :
  current (Entered_run (mkThread None false 1%nat)).2 = None ∧
  ∀ o2 s2, with_enter Entered_run (mkThread None true 1%nat) = (o2, s2) → ended o2 →
    o2 = Panic "called `Result::unwrap()` on an `Err` value" ∧ s2 = mkThread None true 1%nat.
Proof.
  split.
  - exact (proj1 (@runtime_scopes_current_reactor nat Z Z Z Z demo_executor demo_executor_ok _ ex_run
      (mkThread None false 1%nat) (Done (Ok tt)) (mkThread None false 0%nat) eq_refl I)).
  - exact (proj2 (proj2 (proj2 (@runtime_scopes_current_reactor nat Z Z Z Z demo_executor
      demo_executor_ok _ ex_run (mkThread None true 1%nat) (Done (Ok tt)) (mkThread None true 0%nat)
      eq_refl I)))).
Defined.
Lemma block_on_all_panics_on_late_errors_witness :
  (Entered_block_on_all 3 (mkThread None true 0%nat)).1 =
    Panic "called `Result::unwrap()` on an `Err` value" ∧
  (Entered_block_on_all 3 (mkThread None true 1%nat)).1 = Done (Ok 3).
Proof.
  split.
  - exact (@block_on_all_panics_on_late_errors nat Z Z Z Z demo_executor 3 (Ok 3)
      (mkThread None true 0%nat) (mkThread (Some 5) true 0%nat) (Err "park error")
      (mkThread (Some 5) true 0%nat) eq_refl eq_refl).
  - exact (@block_on_all_panics_on_late_errors nat Z Z Z Z demo_executor 3 (Ok 3)
      (mkThread None true 1%nat) (mkThread (Some 5) true 1%nat) (Ok tt)
      (mkThread (Some 5) true 0%nat) eq_refl eq_refl).
Defined.
