(* ===== verification/Timeout.v ===== *)
(** * [echo-async/src/timeout.rs]: a future with a deadline

    [Timeout] around any future; the clock and [tokio_timer::Delay] are
    parameters. *)

From S2P Require Import Prelude Std.

Local Open Scope Z_scope.
Local Open Scope rust_scope.

(** A delay is its deadline. *)
Class Timer (S : Type) := {
  now : M S Z;                                   (* tokio_timer::clock::now() *)
  Delay_poll : Z → M S (option (result unit string)) }.

Inductive TimeoutError (E : Type) : Type :=
| Elapsed                        (* TimeoutError::Timeout *)
| InnerError (e : E)             (* TimeoutError::Inner *)
| TimerError (e : string).       (* TimeoutError::Timer *)
Arguments Elapsed {E}.
Arguments InnerError {E}.
Arguments TimerError {E}.

(** [From<TimeoutError<E>> for io::Error]; [tokio_timer::Error] is its message. *)
Definition TimeoutError_into {E} (into : E → io_error) (e : TimeoutError E) : io_error :=
  match e with
  | Elapsed => Custom TimedOut "async operation timed out"
  | InnerError e => into e
  | TimerError e => Custom Other e
  end.

Record Timeout (T : Type) : Type := mkTimeout { timeout : Z; delay : option Z; inner : T }.
Arguments mkTimeout {T}.
Arguments timeout {T}.
Arguments delay {T}.
Arguments inner {T}.

Section timeout.
Context {S T I E : Type} `{!Timer S}.
(** [Future::poll] of the inner future: [None] is pending. *)
Context (poll_inner : T → M S (option (result I E) * T)).

Definition Timeout_new (inner : T) (timeout : Z) : Timeout T := mkTimeout timeout None inner.

Definition map_err {X Y Z'} (f : X → Y) (r : result Z' X) : result Z' Y :=
  match r with Ok a => Ok a | Err e => Err (f e) end.

Definition Timeout_poll (this : Timeout T)
    : M S (option (result I (TimeoutError E)) * Timeout T) :=
  '(r, inner) ← poll_inner (inner this);
  match r with
  | None =>
      d ← (match delay this with
           | None => n ← now; mret (Some (n + timeout this))
           | Some d => mret (Some d)
           end);
      d' ← expect d "delay";
      p ← Delay_poll d';
      let this := mkTimeout (timeout this) d inner in
      match p with
      | None => mret (None, this)
      | Some (Ok _) => mret (Some (Err Elapsed), this)
      | Some (Err e) => mret (Some (Err (TimerError e)), this)
      end
  | Some r => mret (Some (map_err InnerError r), mkTimeout (timeout this) None inner)
  end.

(** [n] polls, until one is ready. *)
Fixpoint polls_until (n : nat) (this : Timeout T)
    : M S (option (result I (TimeoutError E)) * Timeout T) :=
  match n with
  | O => mret (None, this)
  | Datatypes.S n =>
      '(r, this) ← Timeout_poll this;
      match r with None => polls_until n this | Some r => mret (Some r, this) end
  end.
End timeout.

(** The deadline a poll uses: the one there is, or a new one. *)
Definition uses_deadline {S T} `{!Timer S} (this : Timeout T) (s : S) (d : Z) (s' : S) : Prop :=
  match delay this with
  | Some d' => d = d' ∧ s' = s
  | None => ∃ t, now s = (Done t, s') ∧ d = t + timeout this
  end.
(** What it returns when the inner future is pending, by what the timer says. *)
Definition timer_says {I E} (r : option (result unit string)) : option (result I (TimeoutError E)) :=
  match r with
  | None => None
  | Some (Ok _) => Some (Err Elapsed)
  | Some (Err e) => Some (Err (TimerError e))
  end.

(** A poll, when the clock and the timer return. *)
Lemma wp_Timeout_poll {S T I E} `{!Timer S} (poll_inner : T → M S (option (result I E) * T)) this Φ s :
  (∀ s, ∃ t s', now s = (Done t, s')) → (∀ d s, ∃ r s', Delay_poll d s = (Done r, s')) →
  wp (poll_inner (inner this)) (λ o s1, match o.1 with
    | Some r => Φ (Some (map_err InnerError r), mkTimeout (timeout this) None o.2) s1
    | None => ∀ d s2 r s3, uses_deadline this s1 d s2 → Delay_poll d s2 = (Done r, s3) →
        Φ (timer_says r, mkTimeout (timeout this) (Some d) o.2) s3
    end) s →
  wp (Timeout_poll poll_inner this) Φ s.
Proof.
  intros Hnow Hdelay Hw. unfold Timeout_poll. rewrite wp_bind. eapply wp_mono; [exact Hw|]. clear Hw.
  intros [[r|] f] s1 HΦ; simpl in HΦ; [by apply wp_ret|]. rewrite wp_bind.
  assert (∀ d s2, uses_deadline this s1 d s2 → wp (d' ← expect (Some d) "delay"; p ← Delay_poll d';
      let this := mkTimeout (timeout this) (Some d) f in
      match p with
      | None => mret (None, this)
      | Some (Ok _) => mret (Some (Err Elapsed), this)
      | Some (Err e) => mret (Some (Err (TimerError e)), this)
      end) Φ s2) as Hgo.
  { intros d s2 Hs2. unfold expect. rewrite wp_bind. apply wp_ret. rewrite wp_bind.
    destruct (Hdelay d s2) as (r & s3 & Hrun). unfold wp at 1. rewrite Hrun.
    pose proof (HΦ d s2 r s3 Hs2 Hrun) as Hend. destruct r as [[[]|e]|]; by apply wp_ret. }
  unfold uses_deadline in Hgo. destruct (delay this) as [d|]; [by apply wp_ret, Hgo|].
  rewrite wp_bind. destruct (Hnow s1) as (t & s2 & Hrun). unfold wp at 1. rewrite Hrun.
  apply wp_ret, Hgo. by exists t.
Qed.
(** The same, when they do no more than [R]. *)
Lemma wp_Timeout {S T I E} `{!Timer S} (R : S → S → Prop) `{!Transitive R}
    (poll_inner : T → M S (option (result I E) * T)) this Φ s :
  (∀ s, ∃ t s', now s = (Done t, s') ∧ R s s') →
  (∀ d s, ∃ r s', Delay_poll d s = (Done r, s') ∧ R s s') →
  wp (poll_inner (inner this)) (λ o s1, match o.1 with
    | Some r => Φ (Some (map_err InnerError r), mkTimeout (timeout this) None o.2) s1
    | None => ∀ r d s2, R s1 s2 →
        r = None ∨ r = Some (Err Elapsed) ∨ (∃ e, r = Some (Err (TimerError e))) →
        Φ (r, mkTimeout (timeout this) (Some d) o.2) s2
    end) s →
  wp (Timeout_poll poll_inner this) Φ s.
Proof.
  intros Hnow Hdelay Hw. apply wp_Timeout_poll.
  - intros s1. destruct (Hnow s1) as (t & s2 & Hrun & _). by exists t, s2.
  - intros d s1. destruct (Hdelay d s1) as (r & s2 & Hrun & _). by exists r, s2.
  - eapply wp_mono; [exact Hw|]. intros [[r|] f] s1 HΦ; [done|]. intros d s2 r s3 Hd Hrun. simpl in HΦ.
    apply HΦ; [|destruct r as [[[]|e]|]; naive_solver].
    destruct (Hdelay d s2) as (r' & s3' & Hrun' & H3). rewrite Hrun in Hrun'. injection Hrun' as <- <-.
    unfold uses_deadline in Hd. destruct (delay this); [by destruct Hd as [_ ->]|].
    destruct Hd as (t & Hn & _). destruct (Hnow s1) as (t' & s2' & Hn' & H2). rewrite Hn in Hn'.
    injection Hn' as <- <-. by etrans.
Qed.

(** What is relied on: reading the clock and polling a delay take no time; a
    delay is ready from its deadline on, not before, unless the timer failed. *)
Class TimerOk {S} (C : Timer S) := {
  time : S → Z;
  now_ok s : now s = (Done (time s), s);
  delay_ok d s : ∃ r, Delay_poll d s = (Done r, s) ∧
    match r with
    | None => time s < d
    | Some (Ok _) => d ≤ time s
    | Some (Err _) => True
    end }.

(** ** Deadlines *)

Section deadline.
Context {S T I E : Type} `{!Timer S} `{!TimerOk _}.
Context (poll_inner : T → M S (option (result I E) * T)).

(** The inner future takes time, never ends in a panic, and time does not go
    back. *)
Definition takes_time : Prop :=
  ∀ x s, ∃ o s', poll_inner x s = (Done o, s') ∧ time s ≤ time s'.

Lemma Timeout_poll_run this s : takes_time →
  ∃ o x s', poll_inner (inner this) s = (Done (o, x), s') ∧ time s ≤ time s' ∧
    let d := match delay this with Some d => d | None => time s' + timeout this end in
    ∃ r, Timeout_poll poll_inner this s = (Done r, s') ∧
      match o with
      | Some v => r = (Some (map_err InnerError v), mkTimeout (timeout this) None x)
      | None => r.2 = mkTimeout (timeout this) (Some d) x ∧
          match r.1 with
          | None => time s' < d
          | Some (Err Elapsed) => d ≤ time s'
          | Some (Err (TimerError _)) => True
          | _ => False
          end
      end.
Proof.
  intros Ht. destruct (Ht (inner this) s) as ([o x] & s' & Hrun & Hle). exists o, x, s'.
  split; [done|]. split; [done|]. unfold Timeout_poll, mbind, M_bind. rewrite Hrun.
  destruct o as [r|]; [by eexists|]. set (d := match delay this with Some d => d | None => _ end). simpl.
  assert ((match delay this with None => n ← now; mret (Some (n + timeout this)) | Some d => mret (Some d) end : M S _)
    s' = (Done (Some d), s')) as Hd.
  { unfold d. destruct (delay this); [done|]. unfold mbind, M_bind. by rewrite now_ok. }
  unfold mbind, M_bind in Hd. rewrite Hd. simpl. destruct (delay_ok d s') as (r & -> & Hr).
  destruct r as [[[]|e]|]; by eexists.
Qed.

End deadline.

(** Five seconds pass at every poll; the inner future is ready at the third. *)
#[local] Instance demo_clock : Timer Z := {|
  now := gets id; Delay_poll d := t ← gets id; mret (if d <=? t then Some (Ok tt) else None) |}.
#[local] Instance demo_clock_ok : TimerOk demo_clock.
Proof.
  refine {| time := id |}; [done|]. intros d s. eexists. split; [reflexivity|]. simpl.
  destruct (Z.leb_spec d s); done.
Defined.
Definition demo_inner (x : nat) : M Z (option (result Z io_error) * nat) := λ s,
  (Done (match x with O => (Some (Ok 7), 0%nat) | S n => (None, n) end), s + 5).
