(* ===== verification/Echo.v ===== *)
(** * [echo-async/src/main.rs]: the echo server's connection handler

    [handle_connection], an asynchronous function: its awaits are calls that
    return when the operation has completed.  The socket, with its reads under
    a timeout, is a parameter. *)

From S2P Require Import Prelude Std.

Local Open Scope Z_scope.
Local Open Scope rust_scope.

(** [await!(con.read(&handle, buf).timeout(3 s))] and
    [await!(con.write(&handle, buf))]: the number of bytes, the buffer and the
    connection; bytes are numbers. *)
Class Peer (S : Type) := {
  con_read : Z → list Z → M S (result (Z * list Z * Z) io_error);
  con_write : Z → list Z → M S (result (Z * list Z * Z) io_error) }.

(** [Vec::resize_with(512, Default::default)] and [Vec::truncate]. *)
Definition resize (n : nat) (buf : list Z) : list Z := resize n 0 buf.
Definition truncate (n : Z) (buf : list Z) : list Z := take (Z.to_nat n) buf.

Section echo.
Context {S : Type} `{!Peer S}.

(** The [loop], for at most [fuel] turns. *)
Fixpoint handle_loop (fuel : nat) (storage : option (list Z)) (connection : option Z)
    : M S (result unit io_error) :=
  match fuel with
  | O => hang "the peer keeps sending"
  | Datatypes.S fuel =>
      let buf := default [] storage in
      con ← expect connection "connection missing";
      let buf := resize 512 buf in
      '(n, buf, con) ←? con_read con buf;
      if n =? 0 then mret (Ok tt)
      else
        let buf := truncate n buf in
        '(_n, buf, con) ←? con_write con buf;
        handle_loop fuel (Some buf) (Some con)
  end.
Definition handle_connection (fuel : nat) (c : Z) : M S (result unit io_error) :=
  handle_loop fuel None (Some c).
End echo.

(** What a socket does: a read fills the front of the buffer with the next
    bytes received, a write sends the front of the buffer; the buffer and the
    connection come back.  [pending_reads] bounds the reads that return data. *)
Class PeerOk {S} (P : Peer S) := {
  received : S → list Z;
  sent : S → list Z;
  pending_reads : S → nat;
  read_ok con buf s : ∃ r s', con_read con buf s = (Done r, s') ∧ sent s' = sent s ∧
    match r with
    | Ok (n, buf', con') => con' = con ∧ length buf' = length buf ∧
        0 ≤ n ≤ Z.of_nat (length buf) ∧
        received s' = (received s ++ take (Z.to_nat n) buf')%list ∧
        (0 < n → (pending_reads s' < pending_reads s)%nat)
    | Err _ => received s' = received s
    end;
  write_ok con buf s : ∃ r s', con_write con buf s = (Done r, s') ∧
    received s' = received s ∧ pending_reads s' = pending_reads s ∧
    match r with
    | Ok (n, buf', con') => con' = con ∧ buf' = buf ∧ 0 ≤ n ≤ Z.of_nat (length buf) ∧
        sent s' = (sent s ++ take (Z.to_nat n) buf)%list
    | Err _ => sent s' = sent s
    end }.

Section props.
Context {S : Type} `{P : !Peer S} `{!PeerOk P}.

(** A write sends the whole buffer. *)
Definition whole_writes : Prop := ∀ con buf s n buf' con' s',
  con_write con buf s = (Done (Ok (n, buf', con')), s') → n = Z.of_nat (length buf).

(** What one turn of the loop received, and how much of it the socket took. *)
Definition turns_received (turns : list (list Z * nat)) : list Z := concat (fst <$> turns).
Definition turns_sent (turns : list (list Z * nat)) : list Z :=
  concat ((λ t, take t.2 t.1) <$> turns).
Definition whole_turn (t : list Z * nat) : Prop := t.2 = length t.1.

Lemma whole_turns_sent turns : Forall whole_turn turns → turns_sent turns = turns_received turns.
Proof.
  unfold turns_sent, turns_received. induction 1 as [|[ch m] turns Hm _ IH]; csimpl; [done|].
  unfold whole_turn in Hm. simpl in Hm. by rewrite IH, Hm, firstn_all.
Qed.

(** The turns of the loop: each but the last one sends what the socket takes of
    the chunk it received. *)
Lemma handle_loop_turns fuel c s storage : (pending_reads s < fuel)%nat →
  ∃ r s' turns unsent, handle_loop fuel storage (Some c) s = (Done r, s') ∧
    received s' = (received s ++ turns_received turns ++ unsent)%list ∧
    sent s' = (sent s ++ turns_sent turns)%list ∧
    (r = Ok tt → unsent = []) ∧ (length unsent ≤ 512)%nat ∧
    Forall (λ t, t.2 ≤ length t.1 ≤ 512)%nat turns ∧ (whole_writes → Forall whole_turn turns).
Proof.
  revert c s storage. induction fuel as [|fuel IH]; intros c s storage Hf; [lia|].
  cbn [handle_loop]. unfold expect, try_bind, mbind, M_bind at 1. simpl. unfold mbind, M_bind.
  set (buf := resize 512 (default [] storage)).
  assert (length buf = 512%nat) as H512 by apply length_resize.
  destruct (read_ok c buf s) as ([[[n b1] c1]|e] & s1 & -> & Hs1 & Hr1).
  2: { exists (Err e), s1, [], []. unfold turns_sent. simpl. rewrite !app_nil_r. split_and!; try done; lia. }
  destruct Hr1 as (-> & Hlen & Hn & Hrec1 & Hdec). destruct (Z.eqb_spec n 0) as [->|Hn0].
  { exists (Ok tt), s1, [], []. simpl in Hrec1. unfold turns_sent. simpl. rewrite !app_nil_r in *.
    split_and!; try done; lia. }
  unfold mbind, M_bind. assert (length (truncate n b1) ≤ 512)%nat as Hch.
  { unfold truncate. rewrite length_take. lia. }
  destruct (write_ok c (truncate n b1) s1) as ([[[m b2] c2]|e] & s2 & Hwr & Hrec2 & Hp2 & Hr2);
    rewrite Hwr.
  2: { exists (Err e), s2, [], (truncate n b1). unfold turns_sent. simpl.
       rewrite Hrec2, Hrec1, Hr2, Hs1, app_nil_r. by split_and!. }
  destruct Hr2 as (-> & -> & Hm & Hsent2).
  destruct (IH c s2 (Some (truncate n b1)) ltac:(lia))
    as (r & s3 & turns & unsent & Hrun & Hg & Hb & Hok & Hu & Hle & Hwt).
  exists r, s3, ((truncate n b1, Z.to_nat m) :: turns), unsent.
  split; [exact Hrun|]. rewrite Hg, Hrec2, Hrec1, Hb, Hsent2, Hs1.
  unfold turns_received, turns_sent. csimpl. rewrite <-!app_assoc. split_and!; try done.
  - constructor; [simpl; lia|done].
  - intros Hw. constructor; [|by apply Hwt]. apply Hw in Hwr as ->. unfold whole_turn. simpl. lia.
Qed.

(** C35: the handler returns once the peer stops sending, never for lack of its
    buffer or connection.  It sent, chunk by chunk and in order, what the
    socket took of each write, so a short write loses the rest of its chunk; if
    the writes are whole it sent all it received when the peer closed the
    connection, and all but the last chunk when an operation failed or timed
    out. *)
Theorem echo_sends_what_it_received fuel c s (Hf : (pending_reads s < fuel)%nat) :
  ∃ r s' turns unsent, handle_connection fuel c s = (Done r, s') ∧
    received s' = (received s ++ turns_received turns ++ unsent)%list ∧
    sent s' = (sent s ++ turns_sent turns)%list ∧
    (r = Ok tt → unsent = []) ∧ (length unsent ≤ 512)%nat ∧
    Forall (λ t, t.2 ≤ length t.1 ≤ 512)%nat turns ∧
    (whole_writes → turns_sent turns = turns_received turns).
Proof.
  destruct (handle_loop_turns fuel c s None Hf) as (r & s' & turns & u & ? & ? & ? & ? & ? & ? & Hw).
  exists r, s', turns, u. split_and!; try done. intros Hww. by apply whole_turns_sent, Hw.
Qed.
End props.

(** ** The handler at work

    A peer that sends chunks, and a socket that takes at most [limit] bytes of
    each write. *)

Record DemoPeer : Type := mkDemoPeer { to_send : list (list Z); d_received : list Z; d_sent : list Z }.
Definition taken (limit : option nat) (buf : list Z) : list Z :=
  match limit with None => buf | Some l => take l buf end.
Definition demo_peer (limit : option nat) : Peer DemoPeer := {|
  con_read con buf s := match to_send s with
    | [] => (Done (Ok (0, buf, con)), s)
    | ch :: rest =>
        let ch := take (length buf) ch in
        (Done (Ok (Z.of_nat (length ch), ch ++ drop (length ch) buf, con))%list,
          mkDemoPeer rest (d_received s ++ ch) (d_sent s))
    end;
  con_write con buf s :=
    (Done (Ok (Z.of_nat (length (taken limit buf)), buf, con)),
      mkDemoPeer (to_send s) (d_received s) (d_sent s ++ taken limit buf)) |}.
Lemma taken_prefix limit buf : ∃ rest, buf = (taken limit buf ++ rest)%list.
Proof.
  destruct limit as [l|]; [exists (drop l buf); symmetry; apply take_drop|exists []; by rewrite app_nil_r].
Qed.
Lemma demo_peer_ok limit : PeerOk (demo_peer limit).
Proof.
  refine {| received := d_received; sent := d_sent; pending_reads s := length (to_send s) |}.
  - intros con buf s. simpl. destruct (to_send s) as [|ch rest].
    + eexists _, _. split; [done|]. split; [done|]. simpl. rewrite app_nil_r. split_and!; try done; lia.
    + eexists _, _. split; [done|]. simpl. split_and!; try done; rewrite ?Nat2Z.id; try lia.
      * rewrite length_app, length_drop, length_take. lia.
      * rewrite length_take. lia.
      * by rewrite take_app_length.
  - intros con buf s. simpl. eexists _, _. split; [done|]. destruct (taken_prefix limit buf) as [rest Hr].
    split_and!; try done; try lia.
    + apply (f_equal length) in Hr. rewrite length_app in Hr. lia.
    + rewrite Nat2Z.id. rewrite Hr at 3. by rewrite take_app_length.
Defined.

Definition demo_chunks : DemoPeer := mkDemoPeer [[1; 2; 3]; [4]] [] [].
Lemma echo_sends_what_it_received_witness :
  ∃ r s' turns unsent, @handle_connection _ (demo_peer (Some 2%nat)) 3 8 demo_chunks = (Done r, s') ∧
    d_received s' = (turns_received turns ++ unsent)%list ∧ d_sent s' = turns_sent turns ∧
    (r = Ok tt → unsent = []) ∧ (length unsent ≤ 512)%nat ∧
    Forall (λ t, t.2 ≤ length t.1 ≤ 512)%nat turns ∧
    (@whole_writes _ (demo_peer (Some 2%nat)) → turns_sent turns = turns_received turns).
Proof.
  apply (@echo_sends_what_it_received _ (demo_peer (Some 2%nat)) (demo_peer_ok (Some 2%nat)) 3 8 demo_chunks).
  vm_compute. repeat constructor.
Defined.

(** The same socket loses the third byte of the first chunk. *)
Example echo_drops_rest_of_short_writes :
  @handle_connection _ (demo_peer (Some 2%nat)) 3 8 demo_chunks =
    (Done (Ok tt), mkDemoPeer [] [1; 2; 3; 4] [1; 2; 4]).
Proof. vm_compute. reflexivity. Qed.
