(* ===== verification/Serve.v ===== *)
(** * [echo-async/src/serve_tcp.rs]: accepting connections

    [serve] spawns one task that takes connections off the listener, each under
    a timeout of 30 seconds, and spawns a task for every one of them.  The
    task is written as the state machine an [async] block is: polled until it
    waits.  The stream of connections, the clock and the executor's [spawn] are
    an interface, whose laws the theorem relies on. *)

From S2P Require Import Prelude Std Timeout Runtime Echo.

Local Open Scope Z_scope.
Local Open Scope rust_scope.

(** Nanoseconds. *)
Definition from_secs (n : Z) : Z := n * 1000000000.

(** ** The task of one connection *)

Section task.
Context {T H : Type}.
Context (handle_con : H → Z → Z → M T (result unit io_error)).
Context (handle_err : H → io_error → Z → M T unit).

(** [handle_con(...).or_else(move |e| handle_err(ehandle, e, addr).map(Ok))] *)
Definition connection_task (handle : H) (con addr : Z) : M T (result unit io_error) :=
  r ← handle_con handle con addr;
  match r with
  | Ok _ => mret (Ok tt)
  | Err e => handle_err handle e addr;; mret (Ok tt)
  end.
End task.

(** ** The task that accepts *)

(** [listen] is [TcpListener::from(l)] and [incoming(&handle)]; [try_next] polls
    the stream's [TryNext]: [None] is pending; [close_listener] drops it. *)
Class Listener (S H I : Type) := {
  listen : H → Z → M S I;
  try_next : I → M S (option (result (option (Z * Z)) io_error) * I);
  close_listener : I → M S unit }.

(** [tokio_current_thread::spawn] of a connection's task, and [eprintln!]. *)
Class Spawner (S H : Type) := {
  spawn : H → Z * Z → M S unit;
  serve_error : io_error → M S unit }.

(** The states of the [async] block; it waits at [try_next] only. *)
Inductive Serve (H I : Type) : Type :=
| Unresumed (handle : H) (l : Z)
| Waiting (handle : H) (t : Timeout I)
| Returned.
Arguments Unresumed {H I}.
Arguments Waiting {H I}.
Arguments Returned {H I}.

Section serve.
Context {S H I : Type} `{!Listener S H I} `{!Spawner S H} `{!Timer S}.

(** The [loop], for at most [fuel] turns in one poll. *)
Fixpoint serve_loop (fuel : nat) (handle : H) (t : Timeout I)
    : M S (option unit * Serve H I) :=
  match fuel with
  | O => hang "there is always another connection"
  | Datatypes.S fuel =>
      '(r, t) ← Timeout_poll try_next t;
      match r with
      | None => mret (None, Waiting handle t)
      | Some (Ok (Some conn)) =>
          spawn handle conn;;
          serve_loop fuel handle (Timeout_new (inner t) (from_secs 30))
      | Some (Ok None) => panic "called `Option::unwrap()` on a `None` value"
      | Some (Err e) =>
          (* the inner block ends, and drops its listener, before the report *)
          close_listener (inner t);;
          serve_error (TimeoutError_into id e);; mret (Some tt, Returned)
      end
  end.
Definition Serve_poll (fuel : nat) (this : Serve H I) : M S (option unit * Serve H I) :=
  match this with
  | Unresumed handle l =>
      i ← listen handle l; serve_loop fuel handle (Timeout_new i (from_secs 30))
  | Waiting handle t => serve_loop fuel handle t
  | Returned => panic "`async fn` resumed after completion"
  end.
End serve.

(** [serve]: the task is spawned on the runtime, with its reactor's handle. *)
Definition serve {X H T I V} `{!Executor X H T (Serve H I) V} (l : Z) : M (Thread X H) unit :=
  handle ← reactor_handle; Runtime_spawn (Unresumed handle l).

(** ** What it does *)

(** The listener, the executor and the clock keep to themselves: what the task
    reads of each is the connections given, with the time of each, the tasks
    spawned, the errors printed, and how many connections the listener can give
    before it has to wait. *)
Class ServeOk {S H I} (L : Listener S H I) (P : Spawner S H) (C : Timer S) `{K : !TimerOk C} := {
  accepted : S → list (Z * Z * Z);
  spawned : S → list (H * (Z * Z));
  printed : S → list io_error;
  backlog : S → nat;
  listen_ok h l s : ∃ i s', listen h l s = (Done i, s') ∧ time s ≤ time s' ∧
    accepted s' = accepted s ∧ spawned s' = spawned s ∧ printed s' = printed s ∧ backlog s' = backlog s;
  try_next_ok i s : ∃ r i' s', try_next i s = (Done (r, i'), s') ∧ time s ≤ time s' ∧
    spawned s' = spawned s ∧ printed s' = printed s ∧
    match r with
    | Some (Ok (Some conn)) =>
        accepted s' = (accepted s ++ [(conn, time s')])%list ∧ (backlog s' < backlog s)%nat
    | Some (Ok None) => False
    | _ => accepted s' = accepted s
    end;
  close_ok (i : I) s : ∃ s', close_listener i s = (Done tt, s') ∧ time s ≤ time s' ∧
    accepted s' = accepted s ∧ spawned s' = spawned s ∧ printed s' = printed s;
  spawn_ok h c s : ∃ s', spawn h c s = (Done tt, s') ∧ time s ≤ time s' ∧
    accepted s' = accepted s ∧ spawned s' = (spawned s ++ [(h, c)])%list ∧ printed s' = printed s ∧
    backlog s' = backlog s;
  serve_error_ok (e : io_error) s : ∃ s', serve_error e s = (Done tt, s') ∧ time s ≤ time s' ∧
    accepted s' = accepted s ∧ spawned s' = spawned s ∧ printed s' = (printed s ++ [e])%list }.

Section props.
Context {S H I : Type} `{L : !Listener S H I} `{P : !Spawner S H} `{C : !Timer S}.
Context `{!TimerOk C} `{!ServeOk L P C}.

(** Between two polls of the task time passes, and connections arrive. *)
Definition waits (s s' : S) : Prop :=
  time s ≤ time s' ∧ accepted s' = accepted s ∧ spawned s' = spawned s ∧ printed s' = printed s.

(** The task and the state it has after some polls, from [s0] on. *)
Inductive serving (h : H) (l : Z) (s0 : S) : Serve H I → S → Prop :=
| serving_start : serving h l s0 (Unresumed h l) s0
| serving_polled fuel this s this' s' : serving h l s0 this s → (backlog s < fuel)%nat →
    Serve_poll fuel this s = (Done (None, this'), s') → serving h l s0 this' s'
| serving_waits this s s' : serving h l s0 this s → waits s s' → serving h l s0 this s'.

(** Since [s0], the connections in [new] were accepted and no other. *)
Definition took (h : H) (s0 : S) (new : list (Z * Z * Z)) (s : S) : Prop :=
  accepted s = (accepted s0 ++ new)%list ∧
  spawned s = (spawned s0 ++ ((λ a, (h, a.1)) <$> new))%list ∧
  time s0 ≤ time s ∧ Forall (λ a, a.2 ≤ time s) new.

(** Nothing happened in the 30 seconds before [d]. *)
Definition idle_until (s0 : S) (new : list (Z * Z * Z)) (d : Z) : Prop :=
  time s0 + from_secs 30 ≤ d ∧ Forall (λ a, a.2 + from_secs 30 ≤ d) new.

Definition deadline_ok (s0 : S) new (t : Timeout I) : Prop :=
  timeout t = from_secs 30 ∧ ∀ d, delay t = Some d → idle_until s0 new d.
Definition serve_inv (h : H) (l : Z) (s0 : S) (this : Serve H I) (s : S) : Prop :=
  printed s = printed s0 ∧ ∃ new, took h s0 new s ∧
  match this with
  | Unresumed h' l' => h' = h ∧ l' = l ∧ new = []
  | Waiting h' t => h' = h ∧ deadline_ok s0 new t
  | Returned => False
  end.

(** What a poll of the task gives. *)
Definition polled (h : H) (s0 : S) (o : option unit * Serve H I) (s' : S) : Prop :=
  ∃ new, took h s0 new s' ∧
  match o.1 with
  | None => printed s' = printed s0 ∧
      ∃ t d, o.2 = Waiting h t ∧ deadline_ok s0 new t ∧ delay t = Some d ∧ time s' < d
  | Some _ => o.2 = Returned ∧ ∃ e, printed s' = (printed s0 ++ [TimeoutError_into id e])%list ∧
      match e with
      | Elapsed => idle_until s0 new (time s')
      | InnerError e => ∃ i s1 i' s2, try_next i s1 = (Done (Some (Err e), i'), s2)
      | TimerError _ => True
      end
  end.

Lemma took_later h s0 new s s' : took h s0 new s → time s ≤ time s' →
  accepted s' = accepted s → spawned s' = spawned s → took h s0 new s'.
Proof.
  intros (Ha & Hs & Ht & Hall) Hle Ha' Hs'. unfold took. rewrite Ha', Hs'. split_and!; try done; [lia|].
  eapply List.Forall_impl; [|exact Hall]. simpl. lia.
Qed.
Lemma idle_later s0 new d d' : idle_until s0 new d → d ≤ d' → idle_until s0 new d'.
Proof. intros [Ht Hall] Hle. split; [lia|]. eapply List.Forall_impl; [|exact Hall]. simpl. lia. Qed.
Lemma took_idle h s0 new s : took h s0 new s → idle_until s0 new (time s + from_secs 30).
Proof.
  intros (_ & _ & Ht & Hall). split; [lia|]. eapply List.Forall_impl; [|exact Hall]. simpl. lia.
Qed.
Lemma try_next_takes_time : takes_time (try_next : I → M S _).
Proof. intros i s. destruct (try_next_ok i s) as (r & i' & s' & Hrun & Hle & _). by eexists _, s'. Qed.

(** The end of the task. *)
Lemma serve_end_spec h s0 new i e s : took h s0 new s → printed s = printed s0 →
  match e with
  | Elapsed => idle_until s0 new (time s)
  | InnerError e => ∃ i s1 i' s2, try_next i s1 = (Done (Some (Err e), i'), s2)
  | TimerError _ => True
  end →
  wp (close_listener i;; serve_error (TimeoutError_into id e);; mret (Some tt, Returned)) (polled h s0) s.
Proof.
  intros Htk Hpr He. rewrite !wp_bind.
  destruct (close_ok i s) as (s1 & Hrun1 & Hle1 & Ha1 & Hs1 & Hp1). unfold wp at 1. rewrite Hrun1.
  rewrite wp_bind.
  destruct (serve_error_ok (TimeoutError_into id e) s1) as (s2 & Hrun2 & Hle2 & Ha2 & Hs2 & Hp2).
  unfold wp at 1. rewrite Hrun2. apply wp_ret. exists new.
  split; [eapply took_later; [exact Htk|lia|congruence..]|]. simpl. split; [done|]. exists e.
  split; [by rewrite Hp2, Hp1, Hpr|]. destruct e; [eapply idle_later; [exact He|lia]|done..].
Qed.

Lemma serve_loop_spec h s0 fuel : ∀ new t s, took h s0 new s → printed s = printed s0 →
  deadline_ok s0 new t → (backlog s < fuel)%nat → wp (serve_loop fuel h t) (polled h s0) s.
Proof.
  induction fuel as [|fuel IH]; intros new t s Htk Hpr [Hlim Hd] Hf; [lia|]. cbn [serve_loop].
  destruct (Timeout_poll_run try_next t s try_next_takes_time) as (o & i & s1 & Hin & Hle & r & Hrun & Hr).
  destruct (try_next_ok (inner t) s) as (r1 & i1 & s1' & Hin' & _ & Hsp & Hpr1 & Hacc).
  rewrite Hin in Hin'. injection Hin' as <- <- <-.
  rewrite wp_bind. unfold wp at 1. rewrite Hrun. simpl in Hr. destruct o as [[[conn|]|e]|]; try done.
  - subst r. simpl. rewrite wp_bind. destruct Hacc as [Hacc Hbl].
    destruct (spawn_ok h conn s1) as (s2 & Hrun2 & Hle2 & Hacc2 & Hsp2 & Hpr2 & Hbl2).
    unfold wp at 1. rewrite Hrun2. apply (IH (new ++ [(conn, time s1)])%list); [|congruence|done|lia].
    destruct Htk as (Ha & Hs & Ht & Hall). split_and!; [| |lia|].
    + by rewrite Hacc2, Hacc, Ha, <-app_assoc.
    + by rewrite Hsp2, Hsp, Hs, fmap_app, <-app_assoc.
    + apply Forall_app. split; [|by constructor]. eapply List.Forall_impl; [|exact Hall]. simpl. lia.
  - subst r. eapply serve_end_spec; [by eapply took_later|congruence|]. by eexists _, _, _, _.
  - destruct r as [r t']. simpl in Hr. destruct Hr as [-> Hr].
    assert (took h s0 new s1) as Htk1 by by eapply took_later.
    set (d := match delay t with Some d => d | None => time s1 + timeout t end) in *.
    assert (idle_until s0 new d) as Hidle.
    { unfold d. destruct (delay t) as [d'|]; [by apply Hd|]. rewrite Hlim. by eapply took_idle. }
    destruct r as [[v|[|e|e]]|]; try done.
    + eapply serve_end_spec; [done|congruence|]. by eapply idle_later.
    + by eapply serve_end_spec; [|congruence|].
    + apply wp_ret. exists new. split; [done|]. simpl. split; [congruence|]. eexists _, d.
      split; [reflexivity|]. split; [|done]. split; [done|]. by intros ? [= <-].
Qed.

Lemma serve_poll_spec h l s0 fuel this s : serve_inv h l s0 this s → (backlog s < fuel)%nat →
  wp (Serve_poll fuel this) (polled h s0) s.
Proof.
  intros (Hpr & new & Htk & Hthis) Hf. destruct this as [h' l'|h' t|]; [| |done].
  - destruct Hthis as (-> & -> & ->). unfold Serve_poll. rewrite wp_bind.
    destruct (listen_ok h l s) as (i & s1 & Hrun & Hle & Ha & Hs & Hp & Hb). unfold wp at 1. rewrite Hrun.
    apply (serve_loop_spec h s0 fuel []); [by eapply took_later|congruence|done|lia].
  - destruct Hthis as [-> Hd]. by eapply serve_loop_spec.
Qed.

Lemma serving_inv h l s0 this s : serving h l s0 this s → serve_inv h l s0 this s.
Proof.
  induction 1 as [|fuel this s this' s' _ IH Hf Hrun|this s s' _ IH Hw].
  - split; [done|]. exists []. split; [|done]. unfold took. rewrite !app_nil_r. by split_and!.
  - pose proof (serve_poll_spec _ _ _ _ _ _ IH Hf) as Hp. unfold wp in Hp. rewrite Hrun in Hp.
    destruct Hp as (new & Htk & Hpr & t & d & Ht & Hd & _). simpl in Ht. subst this'.
    split; [done|]. by exists new.
  - destruct IH as (Hpr & new & Htk & Hthis), Hw as (Hle & Ha & Hs & Hp).
    split; [congruence|]. exists new. split; [by eapply took_later|done].
Qed.

(** C27: the server gives a task to every connection it accepts, in the order
    they came, and to nothing else: at every poll of the serving task, however
    many came before it and whatever happened between them, the tasks spawned
    are the connections the listener gave.  While the task waits, a deadline is
    set and not past; it is done only when the listener failed, the timer
    failed, or nothing was accepted for 30 seconds, and prints that error; it
    never panics. *)
Theorem serve_spawns_every_connection h l s0 this s fuel
    (Hserving : serving h l s0 this s) (Hfuel : (backlog s < fuel)%nat) :
  ∃ o this' s' new, Serve_poll fuel this s = (Done (o, this'), s') ∧
    accepted s' = (accepted s0 ++ new)%list ∧
    spawned s' = (spawned s0 ++ ((λ a, (h, a.1)) <$> new))%list ∧
    match o with
    | None => printed s' = printed s0 ∧
        ∃ t d, this' = Waiting h t ∧ delay t = Some d ∧ time s' < d ∧ idle_until s0 new d
    | Some _ => this' = Returned ∧ ∃ e, printed s' = (printed s0 ++ [TimeoutError_into id e])%list ∧
        match e with
        | Elapsed => idle_until s0 new (time s')
        | InnerError e => ∃ i s1 i' s2, try_next i s1 = (Done (Some (Err e), i'), s2)
        | TimerError _ => True
        end
    end.
Proof.
  pose proof (serve_poll_spec _ _ _ _ _ _ (serving_inv _ _ _ _ _ Hserving) Hfuel) as Hw.
  apply wp_run in Hw as ([o this'] & s' & Hrun & new & (Ha & Hs & _) & Ho). exists o, this', s', new.
  split_and!; try done. destruct o as [[]|]; [done|]. destruct Ho as (Hp & t & d & Ht & [_ Hd] & Hdel & Hlt).
  split; [done|]. exists t, d. split_and!; [done|done|done|]. by apply Hd.
Qed.

End props.

(** The task of a connection the echo server handles ends without an error,
    which goes to [handle_err] with the peer's address, once. *)
Lemma echo_task_ends {T H} `{P : !Peer T} `{!PeerOk P} (he : H → io_error → Z → M T unit)
    fuel (h : H) con addr x :
  (pending_reads x < fuel)%nat → (∀ e y, ∃ y', he h e addr y = (Done tt, y')) →
  ∃ r x' x'', handle_connection fuel con x = (Done r, x') ∧
    connection_task (λ _ c _, handle_connection fuel c) he h con addr x = (Done (Ok tt), x'') ∧
    match r with Ok _ => x'' = x' | Err e => he h e addr x' = (Done tt, x'') end.
Proof.
  intros Hf Hhe. destruct (handle_loop_turns fuel con x None Hf) as (r & x' & _ & _ & Hrun & _).
  exists r, x'. unfold connection_task, handle_connection, mbind, M_bind. rewrite Hrun.
  destruct r as [[]|e]; [by exists x'|]. destruct (Hhe e x') as [x'' He]. exists x''. by rewrite He.
Qed.

(** ** The server at work: one connection, then nobody *)

Record DemoServer : Type := mkDemoServer {
  ds_clock : Z; ds_arrivals : list (Z * Z);
  ds_accepted : list (Z * Z * Z); ds_spawned : list (Z * (Z * Z)); ds_printed : list io_error }.
#[local] Instance demo_listener : Listener DemoServer Z Z := {|
  listen _ l := mret l;
  try_next i := λ s, match ds_arrivals s with
    | [] => (Done (None, i), s)
    | c :: cs => (Done (Some (Ok (Some c)), i),
        mkDemoServer (ds_clock s) cs (ds_accepted s ++ [(c, ds_clock s)]) (ds_spawned s) (ds_printed s))
    end;
  close_listener _ := mret tt |}.
#[local] Instance demo_spawner : Spawner DemoServer Z := {|
  spawn h c := λ s, (Done tt, mkDemoServer (ds_clock s) (ds_arrivals s) (ds_accepted s)
    (ds_spawned s ++ [(h, c)]) (ds_printed s));
  serve_error e := λ s, (Done tt, mkDemoServer (ds_clock s) (ds_arrivals s) (ds_accepted s)
    (ds_spawned s) (ds_printed s ++ [e])) |}.
#[local] Instance server_clock : Timer DemoServer := {|
  now := gets ds_clock;
  Delay_poll d := t ← gets ds_clock; mret (if d <=? t then Some (Ok tt) else None) |}.
#[local] Instance server_clock_ok : TimerOk server_clock.
Proof.
  refine {| time := ds_clock |}; [done|]. intros d s. eexists. split; [reflexivity|]. simpl.
  destruct (Z.leb_spec d (ds_clock s)); done.
Defined.
#[local] Instance demo_serve_ok : ServeOk demo_listener demo_spawner server_clock.
Proof.
  refine {| accepted := ds_accepted; spawned := ds_spawned; printed := ds_printed;
    backlog s := length (ds_arrivals s) |}.
  - intros h l s. eexists _, s. by split_and!.
  - intros i s. simpl. destruct (ds_arrivals s) as [|c cs]; (eexists _, _, _; split; [reflexivity|]);
      simpl; split_and!; try done; lia.
  - intros i s. exists s. by split_and!.
  - intros h c s. eexists. split; [reflexivity|]. by split_and!.
  - intros e s. eexists. split; [reflexivity|]. by split_and!.
Defined.

Definition server_start : DemoServer := mkDemoServer 0 [(8, 80)] [] [] [].
Definition server_idle (clock : Z) : DemoServer := mkDemoServer clock [] [((8, 80), 0)] [(5, (8, 80))] [].
Definition server_waiting : Serve Z Z :=
  Waiting 5 (mkTimeout (from_secs 30) (Some (from_secs 30)) 3).
Lemma serve_spawns_every_connection_witness :
  Serve_poll 2 (Unresumed 5 3) server_start = (Done (None, server_waiting), server_idle 0) ∧
  (∃ o this' s' new, Serve_poll 1 server_waiting (server_idle (from_secs 31)) = (Done (o, this'), s') ∧
    ds_accepted s' = new ∧ ds_spawned s' = ((λ a, (5, a.1)) <$> new) ∧
    match o with
    | None => ds_printed s' = [] ∧
        ∃ t d, this' = Waiting 5 t ∧ delay t = Some d ∧ ds_clock s' < d ∧ idle_until server_start new d
    | Some _ => this' = Returned ∧ ∃ e, ds_printed s' = [TimeoutError_into id e] ∧
        match e with
        | Elapsed => idle_until server_start new (ds_clock s')
        | InnerError e => ∃ i s1 i' s2, try_next i s1 = (Done (Some (Err e), i'), s2)
        | TimerError _ => True
        end
    end) ∧
  (Serve_poll 1 server_waiting (server_idle (from_secs 31))).1 = Done (Some tt, Returned).
Proof.
  split; [reflexivity|]. split; [|reflexivity].
  refine (serve_spawns_every_connection (L := demo_listener) (P := demo_spawner) (C := server_clock)
    5 3 server_start server_waiting (server_idle (from_secs 31)) 1 _ _).
  - apply (serving_waits _ _ _ _ (server_idle 0)); [|vm_compute; by split_and!].
    apply (serving_polled _ _ _ 2 (Unresumed 5 3) server_start); [apply serving_start| |reflexivity].
    vm_compute. repeat constructor.
  - vm_compute. repeat constructor.
Defined.
