(* ===== verification/EchoExample.v ===== *)
(** * [tokio-uring/examples/echo.rs]: the example

    The task the example spawns for a connection, which answers one read, and
    the loop over the connections.  Combinators of the [futures] crate are
    written as the sequence of awaits they stand for; the sockets, the
    [tokio_timer::Timeout] around a read and around the stream of connections,
    and the executor's [spawn] are parameters. *)

From S2P Require Import Prelude Std Echo.

Local Open Scope Z_scope.
Local Open Scope rust_scope.

(** [tokio_timer::timeout::Error], with its inner error if it has one. *)
Class TimeoutErrors (E : Type) := { is_inner : E → bool; into_inner : E → option io_error }.

Class Sockets (S E : Type) := {
  (* Timeout::new(c.read(&handle, buf).from_err(), 3 s) *)
  timed_read : Z → list Z → M S (result (Z * list Z * Z) E);
  (* c.write(&whandle, buf).from_err() *)
  write : Z → list Z → M S (result (Z * list Z * Z) io_error);
  (* the next item of Timeout::new(l.incoming(&handle), 30 s) *)
  timed_incoming : M S (result (option (Z * Z)) E);
  spawn_connection : Z → M S unit;
  error_line : io_error → M S unit }.

Section example.
Context {S E : Type} `{!TimeoutErrors E} `{!Sockets S E}.

(** The closure of [map_err] after the read. *)
Definition read_error (e : E) : M S io_error :=
  if is_inner e then expect (into_inner e) "inner"
  else mret (Custom TimedOut "timeout").

(** What [connection_handler] spawns. *)
Definition answer (c : Z) : M S (result unit io_error) :=
  let buf := resize 512 [] in
  r ← timed_read c buf;
  match r with
  | Err e => e ← read_error e; mret (Err e)
  | Ok (n, buf, c) =>
      let buf := truncate n buf in
      '(_, _, _) ←? write c buf;
      mret (Ok tt)
  end.
Definition connection (c : Z) : M S (result unit unit) :=
  r ← answer c;
  match r with Ok _ => mret (Ok tt) | Err e => error_line e;; mret (Err tt) end.

(** The closure of [map_err] on the stream. *)
Definition incoming_error (e : E) : M S unit :=
  if is_inner e then _e ← expect (into_inner e) "inner"; panic "Box<Any>" else mret tt.

(** [for_each(connection_handler)], for at most [fuel] items. *)
Fixpoint listening (fuel : nat) : M S (result unit unit) :=
  match fuel with
  | O => hang "there is always another connection"
  | Datatypes.S fuel =>
      r ← timed_incoming;
      match r with
      | Ok (Some (c, _)) => spawn_connection c;; listening fuel
      | Ok None => mret (Ok tt)
      | Err e => incoming_error e;; mret (Err tt)
      end
  end.

(** An error that says it has an inner error gives it. *)
Class TimeoutErrorsOk : Prop :=
  inner_ok (e : E) : is_inner e = true → ∃ e', into_inner e = Some e'.
Context `{!TimeoutErrorsOk}.

Lemma read_error_runs e s : ∃ e', read_error e s = (Done e', s) ∧
  (if is_inner e then into_inner e = Some e' else e' = Custom TimedOut "timeout").
Proof.
  unfold read_error. destruct (is_inner e) eqn:Hi; [|by eexists].
  destruct (inner_ok e Hi) as [e' He]. rewrite He. by exists e'.
Qed.

(** The sockets, as the handler of [echo-async] sees them: with the errors of
    its timed reads turned into I/O errors. *)
Definition example_peer : Peer S := {|
  con_read c buf := r ← timed_read c buf;
    match r with Ok x => mret (Ok x) | Err e => e ← read_error e; mret (Err e) end;
  con_write := write |}.

#[local] Existing Instance example_peer.

Lemma answer_peer c s : answer c s =
  ('(n, buf, c) ←? con_read c (resize 512 []);
   '(_, _, _) ←? con_write c (truncate n buf);
   mret (Ok tt)) s.
Proof.
  unfold answer, try_bind, mbind, M_bind. simpl. unfold mbind, M_bind.
  destruct (timed_read c (resize 512 []) s) as [[[[[n buf] c']|e]|?|?|?] s1]; try done.
  destruct (read_error_runs e s1) as (e' & -> & _). done.
Qed.

Context `{P : !PeerOk example_peer}.

(** The example's task is the first turn of the handler of [echo-async], on the
    same sockets: it never panics, takes one chunk of at most 512 bytes and
    sends what the socket takes of it, and where it got data the handler goes
    on from there. *)
Theorem example_answers_one_read c s :
  ∃ r s' got m, answer c s = (Done r, s') ∧ (length got ≤ 512)%nat ∧
    received s' = (received s ++ got)%list ∧ sent s' = (sent s ++ take m got)%list ∧
    (got ≠ [] → ∀ fuel, handle_connection (Datatypes.S fuel) c s =
      match r with
      | Err e => (Done (Err e), s')
      | Ok _ => handle_loop fuel (Some got) (Some c) s'
      end).
Proof.
  rewrite answer_peer. unfold try_bind, mbind, M_bind.
  assert (length (resize 512 []) = 512%nat) as H512 by apply length_resize.
  destruct (read_ok c (resize 512 []) s) as ([[[n b1] c1]|e] & s1 & Hrd & Hs1 & Hr1); rewrite Hrd.
  2: { exists (Err e), s1, [], 0%nat. simpl. rewrite Hs1, Hr1, !app_nil_r. split_and!; [done|lia|done..]. }
  destruct Hr1 as (-> & Hlen & Hn & Hrec1 & _).
  assert (length (truncate n b1) ≤ 512)%nat as Hch by (unfold truncate; rewrite length_take; lia).
  assert (truncate n b1 ≠ [] → (n =? 0) = false) as Hn0.
  { intros Hne. destruct (Z.eqb_spec n 0) as [->|]; done. }
  destruct (write_ok c (truncate n b1) s1) as ([[[k b2] c2]|e] & s2 & Hwr & Hrec2 & _ & Hr2); rewrite Hwr.
  - destruct Hr2 as (-> & -> & _ & Hsent2). exists (Ok tt), s2, (truncate n b1), (Z.to_nat k).
    rewrite Hrec2, Hrec1, Hsent2, Hs1. split_and!; [done..|]. intros Hne fuel.
    unfold handle_connection. cbn [handle_loop]. unfold expect, try_bind, mbind, M_bind. cbn -[con_read con_write resize truncate].
    by rewrite Hrd, Hn0, Hwr.
  - exists (Err e), s2, (truncate n b1), 0%nat. simpl take. rewrite app_nil_r, Hrec2, Hrec1, Hr2, Hs1.
    split_and!; [done..|]. intros Hne fuel.
    unfold handle_connection. cbn [handle_loop]. unfold expect, try_bind, mbind, M_bind. cbn -[con_read con_write resize truncate].
    by rewrite Hrd, Hn0, Hwr.
Qed.
End example.

(** ** The example at work: its first chunk is answered *)

#[local] Instance no_errors : TimeoutErrors unit := {| is_inner _ := false; into_inner _ := None |}.
#[local] Instance demo_sockets : Sockets DemoPeer unit := {|
  timed_read c buf := r ← @con_read _ (demo_peer None) c buf;
    match r with Ok x => mret (Ok x) | Err _ => mret (Err tt) end;
  write := @con_write _ (demo_peer None);
  timed_incoming := mret (Err tt); spawn_connection _ := mret tt; error_line _ := mret tt |}.
Example demo_answer : connection 8 demo_chunks = (Done (Ok tt), mkDemoPeer [[4]] [1; 2; 3] [1; 2; 3]).
Proof. vm_compute. reflexivity. Qed.
