(* ===== verification/Conn.v ===== *)
(** * [echo-async/src/main.rs] on the reactor: the task of a connection

    [handle_connection] once more, now as the state machine an [async fn] is,
    over the reactor's own reads and writes: a poll goes on from the await it
    stopped at.  [Echo] has the same code as a sequence of calls that return
    when they are done. *)

From S2P Require Import Prelude Std Sys Submission Ring Kern Mmap SubQueue CompQueue Rings.
From S2P Require Import QueueOps Registration RegistrationProps Unpark Device Reactor.
From S2P Require Import ReactorProps AsyncIo AsyncProps Clients ClientProps Net Timeout Serve.

Local Open Scope Z_scope.
Local Open Scope rust_scope.

(** ** [Vec<u8>]: where its bytes are *)

Record Vec : Type := mkVec { vec_ptr : Z; vec_cap : Z; vec_len : Z }.
Definition vec_new : Vec := mkVec 1 0 0.
Definition vec_slice (v : Vec) : slice_ptr := {| as_ptr := vec_ptr v; slice_len := vec_len v |}.

(** Growing a vector to a capacity moves it where the allocator wants. *)
Class VecAlloc (N : Type) := vec_reserve : Z → Vec → M N Vec.
Definition vec_resize {N : Type} `{!VecAlloc N} (n : Z) (v : Vec) : M N Vec :=
  v ← (if vec_cap v <? n then vec_reserve n v else mret v);
  mret (mkVec (vec_ptr v) (vec_cap v) n).
Definition vec_truncate (n : Z) (v : Vec) : Vec :=
  mkVec (vec_ptr v) (vec_cap v) (Z.min n (vec_len v)).

(** ** The task *)

Abbreviation ConnIo := (State (B := Vec) (F := Z)).

(** The awaits of [handle_connection]; a connection is its descriptor. *)
Inductive Conn : Type :=
| ConnNew (c : Z)
| ConnRead (t : Timeout ConnIo)
| ConnWrite (st : ConnIo)
| ConnEnd.

Section conn.
Context {W D N : Type} `{R : !RingDevice W} `{!Others} `{!Build} `{!LibcPoll} `{!Alloc D}.
Context (iovec_addr : Z → Z) `{Bx : !Boxed (Context_ (B := Vec) (F := Z)) D}.
Context `{!Timer N} `{!VecAlloc N}.
Abbreviation MN := (M (Net (W := W) (D := D) (N := N))).

#[export] Instance net_timer : Timer (Net (W := W) (D := D) (N := N)) := {|
  now := on_os now; Delay_poll d := on_os (Delay_poll d) |}.

Definition read_poll (b : poller) (st : ConnIo)
    : MN (option (result (Z * Vec * Z) (AsyncError (B := Vec) (F := Z))) * ConnIo) :=
  on_rt (poll_by b AsyncRead_poll AsyncRead_poll_async st).
Definition write_poll (b : poller) (st : ConnIo)
    : MN (option (result (Z * Vec * Z) (AsyncError (B := Vec) (F := Z))) * ConnIo) :=
  on_rt (poll_by b AsyncWrite_poll AsyncWrite_poll_async st).

(** The drop of an [AsyncRead] or [AsyncWrite]. *)
Definition io_drop (st : ConnIo) : MN unit :=
  on_rt (match st with Pending a => on_heap (rc_drop a) | _ => mret tt end).

(** [await!(con.write(&handle, buf))?], and the rest of the turn. *)
Definition conn_write (again : option Vec → option Z → MN (option (result unit io_error) * Conn))
    (b : poller) (st : ConnIo) : MN (option (result unit io_error) * Conn) :=
  '(r, st) ← write_poll b st;
  match r with
  | None => mret (None, ConnWrite st)
  | Some (Err e) => mret (Some (Err (write_error_into e)), ConnEnd)
  | Some (Ok (_n, buf, con)) => again (Some buf) (Some con)
  end.

(** [await!(con.read(&handle, buf).timeout(Duration::from_secs(3)))?], and the
    turn from there; the future is dropped when it was awaited. *)
Definition conn_read (again : option Vec → option Z → MN (option (result unit io_error) * Conn))
    (b : poller) (t : Timeout ConnIo) : MN (option (result unit io_error) * Conn) :=
  '(r, t) ← Timeout_poll (read_poll b) t;
  match r with
  | None => mret (None, ConnRead t)
  | Some (Err e) =>
      io_drop (inner t);; mret (Some (Err (TimeoutError_into io_error_from e)), ConnEnd)
  | Some (Ok (n, buf, con)) =>
      if n =? 0 then mret (Some (Ok tt), ConnEnd)
      else
        let buf := vec_truncate n buf in
        st ← on_rt (SocketWrite_write id vec_slice iovec_addr con buf);
        conn_write again b st
  end.

(** The [loop], for at most [fuel] turns in one poll. *)
Fixpoint conn_loop (fuel : nat) (b : poller) (storage : option Vec) (connection : option Z)
    : MN (option (result unit io_error) * Conn) :=
  match fuel with
  | O => hang "operations complete as soon as they are started"
  | S fuel =>
      let buf := default vec_new storage in
      con ← expect connection "connection missing";
      buf ← on_os (vec_resize 512 buf);
      st ← on_rt (SocketRead_read id vec_slice iovec_addr con buf);
      conn_read (conn_loop fuel b) b (Timeout_new st (from_secs 3))
  end.

Definition Conn_poll (fuel : nat) (b : poller) (this : Conn)
    : MN (option (result unit io_error) * Conn) :=
  match this with
  | ConnNew c => conn_loop fuel b None (Some c)
  | ConnRead t => conn_read (conn_loop fuel b) b t
  | ConnWrite st => conn_write (conn_loop fuel b) b st
  | ConnEnd => panic "`async fn` resumed after completion"
  end.
End conn.

(** ** What a poll of it does *)

(** What is relied on: the clock, the timer and the allocator return. *)
Class OsReturns {N} (T : Timer N) (V : VecAlloc N) : Prop := {
  now_returns (x : N) : ∃ t x', now x = (Done t, x');
  delay_returns d (x : N) : ∃ r x', Delay_poll d x = (Done r, x');
  reserve_returns n v (x : N) : ∃ v' x', vec_reserve n v x = (Done v', x') ∧ n ≤ vec_cap v' }.

Section props.
Context {W D N : Type} `{R : !RingDevice W} `{!RingDeviceOk R} `{!Others} `{!OthersOk _}
  `{!Build} `{!LibcPoll} `{!Alloc D} `{!AllocOk _}.
Context (iovec_addr : Z → Z).
Context `{Bx : !Boxed (Context_ (B := Vec) (F := Z)) D} `{!BoxedOk Bx}.
Context `{Bu : !Boxed unit D} `{!BoxedOk Bu}.
Context `{T : !Timer N} `{V : !VecAlloc N} `{!OsReturns T V}.
Implicit Types (n : Net (W := W) (D := D) (N := N)) (cs : list (Client Vec Z)) (A : Rings).

(** The clock leaves the runtime alone. *)
Lemma net_now_returns n : ∃ t n', now n = (Done t, n') ∧ n'.1 = n.1.
Proof.
  destruct n as [s x]. destruct (now_returns x) as (t & x' & Hrun). exists t, (s, x').
  split; [|done]. simpl. unfold on_os, zoom. simpl. by rewrite Hrun.
Qed.
Lemma net_delay_returns d n : ∃ r n', Delay_poll d n = (Done r, n') ∧ n'.1 = n.1.
Proof.
  destruct n as [s x]. destruct (delay_returns d x) as (r & x' & Hrun). exists r, (s, x').
  split; [|done]. simpl. unfold on_os, zoom. simpl. by rewrite Hrun.
Qed.

(** Some reading of the clock puts the deadline of a timeout of [l] at [d]. *)
Definition deadline (l d : Z) : Prop := ∃ t (x x' : N), now x = (Done t, x') ∧ d = t + l.
(** The timer says [r] of the deadline [d]. *)
Definition timer_at (d : Z) (r : option (result unit string)) : Prop :=
  ∃ x x' : N, Delay_poll d x = (Done r, x').

(** A future with a timeout: it is done, or the timer decides. *)
Lemma wp_conn_Timeout {F I E} (poll_inner : F → M (Net (W := W) (D := D) (N := N)) (option (result I E) * F)) this Φ n :
  wp (poll_inner (inner this)) (λ o n1, match o.1 with
    | Some r => Φ (Some (map_err InnerError r), mkTimeout (timeout this) None o.2) n1
    | None => ∀ d r x', (match delay this with Some d' => d = d' | None => deadline (timeout this) d end) →
        timer_at d r → Φ (timer_says r, mkTimeout (timeout this) (Some d) o.2) (n1.1, x')
    end) n →
  wp (Timeout_poll poll_inner this) Φ n.
Proof.
  intros Hw. apply wp_Timeout_poll.
  - intros m. destruct (net_now_returns m) as (t & m' & Hrun & _). by exists t, m'.
  - intros d m. destruct (net_delay_returns d m) as (r & m' & Hrun & _). by exists r, m'.
  - eapply wp_mono; [exact Hw|]. intros [[r|] f] [s1 y1] HΦ; [done|]. intros d [s2 y2] r [s3 y3] Hd Hrun.
    simpl in HΦ, Hrun. unfold on_os, zoom in Hrun. simpl in Hrun.
    destruct (delay_returns d y2) as (r' & y3' & Hrun2). rewrite Hrun2 in Hrun. simplify_eq.
    assert (s3 = s1 ∧ match delay this with Some d' => d = d' | None => deadline (timeout this) d end)
      as [-> Hd'].
    { unfold uses_deadline in Hd. destruct (delay this); [by destruct Hd as [-> [= -> ->]]|].
      destruct Hd as (t & Hn & ->). simpl in Hn. unfold on_os, zoom in Hn. simpl in Hn.
      destruct (now_returns y1) as (t' & y2' & Hn2). rewrite Hn2 in Hn. simplify_eq. split; [done|]. by eexists _, _, _. }
    apply HΦ; [done|]. by eexists _, _.
Qed.

Definition conn_fut (c : Conn) : Fut Vec Z :=
  match c with ConnRead t => Io (inner t) | ConnWrite st => Io st | _ => Gone end.
(** It waits for a read, with a deadline, or for a write. *)
Definition conn_waits (c : Conn) : Prop :=
  match c with
  | ConnRead t => delay t ≠ None ∧ ∃ a, inner t = Pending a
  | ConnWrite st => ∃ a, st = Pending a
  | _ => False
  end.

(** The read or write of [buf] on [con] is submitted, [buf] in its registration. *)
Definition submitted (write : bool) (con : Z) (buf : Vec) (a : Z) (s : Rt W D) A : Prop :=
  io_entry iovec_addr write con 0 a ∈ staged A ∧
  data_at (regs (rt_inner s)) a = Some (box (io_context vec_slice buf con)).

(** What a task reports when the timer ends the wait for its read. *)
Definition timer_error (r : result unit string) : io_error :=
  match r with Ok _ => Custom TimedOut "async operation timed out" | Err m => Custom Other m end.
Definition out_of_time (d : Z) (e : io_error) : Prop :=
  ∃ r, timer_at d (Some r) ∧ e = timer_error r.

(** The task goes on to read into [buf], under a deadline, or to write it.  It
    ends with an error only if the submission is refused ([refused]: every
    submission slot holds an entry, or the reactor is gone), or, for a read, if
    the timer says at once that the deadline is over or that it failed. *)
Definition goes_to_read con (buf : Vec) (o : option (result unit io_error) * Conn) s A : Prop :=
  match o with
  | (None, c) => ∃ d a, c = ConnRead (mkTimeout (from_secs 3) (Some d) (Pending a)) ∧
      deadline (from_secs 3) d ∧ submitted false con buf a s A
  | (Some (Err e), c) => c = ConnEnd ∧
      (refused e s A ∨ (∃ d, deadline (from_secs 3) d ∧ out_of_time d e))
  | (Some (Ok _), _) => False
  end.
Definition goes_to_write con (buf : Vec) (o : option (result unit io_error) * Conn) s A : Prop :=
  match o with
  | (None, c) => ∃ a, c = ConnWrite (Pending a) ∧ submitted true con buf a s A
  | (Some (Err e), c) => c = ConnEnd ∧ refused e s A
  | (Some (Ok _), _) => False
  end.

Lemma timer_says_some {I E} r : r ≠ None → ∃ e : TimeoutError E, timer_says (I := I) r = Some (Err e) ∧
  ∀ into, Some (TimeoutError_into into e) = timer_error <$> r.
Proof. intros Hr. by destruct r as [[[]|m]|]; [eexists; split; [done|]..|]. Qed.
Lemma timer_out_of_time d r e : timer_at d r → Some e = timer_error <$> r → out_of_time d e.
Proof. intros Ht He. destruct r as [r|]; [|done]. injection He as ->. by exists r. Qed.

(** What holds of the other futures after a poll of the task. *)
Definition conn_post (b : poller) cs A (P : option (result unit io_error) * Conn → Rt W D → Rings → Prop)
    (o : option (result unit io_error) * Conn) n' : Prop :=
  ∃ A', (length (open A') ≤ length (open A) + 1)%nat ∧
    client_inv n'.1 A' (mkClient (conn_fut o.2) (poller_waker b) :: cs) ∧
    match o.1 with None => conn_waits o.2 | Some _ => o.2 = ConnEnd end ∧ P o n'.1 A'.

(** ** An operation that was just started *)

Lemma start_conn (write : bool) (con : Z) (buf : Vec) cs n A : client_inv n.1 A cs → spare 1 A →
  wp (on_rt (if write then SocketWrite_write id vec_slice iovec_addr con buf
             else SocketRead_read id vec_slice iovec_addr con buf))
    (λ st n', ∃ A', (length (open A') ≤ length (open A) + 1)%nat ∧
      client_inv n'.1 A' (mkClient (Io st) Empty :: cs) ∧
      io_started id vec_slice iovec_addr write con 0 buf st n'.1 A') n.
Proof.
  intros Hi Hlt.
  assert ((if write then SocketWrite_write id vec_slice iovec_addr con buf
    else SocketRead_read id vec_slice iovec_addr con buf) =
    start id vec_slice iovec_addr write con 0 buf) as -> by by destruct write.
  unfold on_rt. rewrite wp_zoom.
  eapply wp_mono; [apply (start_client_spec id vec_slice iovec_addr write con 0 buf cs n.1 A Hi Hlt)|].
  intros st s' (A' & Hlen & [Hi' _] & Hst). exists A'. split; [by eapply starts_new_length|]. split; [|done].
  eapply client_inv_perm; [|exact Hi']. simpl. solve_Permutation.
Qed.

(** The first poll finds it pending, or gets the error of the refusal. *)
Lemma fresh_poll (write : bool) b (con : Z) (buf : Vec) cs n A st : overflow_checks = false →
  client_inv n.1 A (mkClient (Io st) Empty :: cs) →
  io_started id vec_slice iovec_addr write con 0 buf st n.1 A →
  wp (on_rt (poll_by b AsyncRw_poll AsyncRw_poll_async st)) (λ o n',
    client_inv n'.1 A (mkClient (io_after o) (poller_waker b) :: cs) ∧
    match o with
    | (None, Pending a) => submitted write con buf a n'.1 A
    | (Some (Err e), Closed) => refused (error_ e) n'.1 A
    | _ => False
    end) n.
Proof.
  intros Hov Hi Hst. unfold on_rt. rewrite wp_zoom.
  pose proof (poll_io_by b [] _ cs n.1 A st Hov Hi eq_refl) as Hw. destruct st as [a|e|]; [| |done]; simpl in Hst.
  - eapply wp_mono; [exact Hw|]. intros o s' [(Hi' & Hk & _) Ho]. split; [exact Hi'|]. simpl in Ho. destruct Hst as [Hin Hl]. destruct Ho as (m & i & x & Hl' & _ & Ho).
    unfold live in Hl, Hl'. rewrite Hl in Hl'. injection Hl' as <- <-. simpl in Ho. subst o. simpl.
    destruct (inv_middle [] _ _ _ _ a Hi eq_refl) as (Ha & _ & Hok). unfold future_ok in Hok. simpl in Hok.
    destruct Hok as (_ & m & i & y & Hl2 & _ & Haw). unfold live in Hl2. rewrite Hl in Hl2.
    injection Hl2 as <- <-. unfold awaited in Haw. simpl in Haw. destruct Haw as [Hop _].
    split; [done|]. rewrite (ks_data _ _ _ _ Hk a Ha Hop Hop). unfold data_at. by rewrite Hl.
  - destruct Hst as (err & -> & Href).
    assert (poll_by b AsyncRw_poll AsyncRw_poll_async (InitFailed (mkAsyncError err buf con)) n.1 =
      (Done (Some (Err (mkAsyncError err buf con)), Closed), entering b n.1)) as Hrun by by destruct b.
    unfold wp in Hw |- *. rewrite Hrun in Hw |- *. destruct Hw as [[Hi' _] _]. split; [exact Hi'|]. by destruct b.
Qed.
(** What holds after the poll of an operation that was just started. *)
Definition fresh_post (b : poller) cs A (P : option (result unit io_error) * Conn → Rt W D → Rings → Prop)
    (o : option (result unit io_error) * Conn) n' : Prop :=
  client_inv n'.1 A (mkClient (conn_fut o.2) (poller_waker b) :: cs) ∧
  match o.1 with None => conn_waits o.2 | Some _ => o.2 = ConnEnd end ∧ P o n'.1 A.

Lemma io_drop_spec a w w' cs n A : client_inv n.1 A (mkClient (Io (Pending a)) w :: cs) →
  wp (io_drop (Pending a)) (λ _ n', client_inv n'.1 A (mkClient Gone w' :: cs)) n.
Proof.
  intros Hi. unfold io_drop, on_rt. rewrite wp_zoom.
  eapply wp_mono; [apply (drop_client_spec [] _ cs w' n.1 A Hi)|]. by intros [] s' [Hi' _].
Qed.

Lemma conn_write_fresh again b con buf cs n A st : overflow_checks = false →
  client_inv n.1 A (mkClient (Io st) Empty :: cs) →
  io_started id vec_slice iovec_addr true con 0 buf st n.1 A →
  wp (conn_write again b st) (fresh_post b cs A (goes_to_write con buf)) n.
Proof.
  intros Hov Hi Hst. unfold conn_write. rewrite wp_bind.
  eapply wp_mono; [by apply (fresh_poll true b con buf cs n A st Hov Hi Hst)|].
  intros [[[?|e]|] st'] n' [Hi' Ho]; destruct st' as [a|?|]; try by destruct Ho.
  all: apply wp_ret.
  - split; [exact Hi'|]. split; [done|]. split; [done|exact Ho].
  - split; [exact Hi'|]. split; [by eexists|]. by eexists.
Qed.

Lemma conn_read_fresh again b con buf cs n A st : overflow_checks = false →
  client_inv n.1 A (mkClient (Io st) Empty :: cs) →
  io_started id vec_slice iovec_addr false con 0 buf st n.1 A →
  wp (conn_read iovec_addr again b (Timeout_new st (from_secs 3)))
    (fresh_post b cs A (goes_to_read con buf)) n.
Proof.
  intros Hov Hi Hst. unfold conn_read. rewrite wp_bind. apply wp_conn_Timeout.
  eapply wp_mono; [by apply (fresh_poll false b con buf cs n A st Hov Hi Hst)|].
  intros [[[?|e]|] st'] n' [Hi' Ho]; destruct st' as [a|?|]; try by destruct Ho.
  - apply wp_ret, wp_ret. split; [exact Hi'|]. split; [done|]. split; [done|]. left. exact Ho.
  - intros d r x' Hd Hr. simpl in Hd. destruct (decide (r = None)) as [->|Hne].
    + apply wp_ret. split; [exact Hi'|]. split; [by split; [|eexists]|]. by eexists d, a.
    + destruct (timer_says_some (E := AsyncError (B := Vec) (F := Z)) (I := Z * Vec * Z) r Hne) as (e & He & Hinto). rewrite He, wp_bind.
      eapply wp_mono; [exact (io_drop_spec a _ (poller_waker b) cs (n'.1, x') A Hi')|]. intros [] [s2 x2] Hi2.
      apply wp_ret. split; [exact Hi2|]. split; [done|]. split; [done|]. right. exists d. split; [done|].
      by apply (timer_out_of_time _ r).
Qed.

(** Starting and the first poll of it. *)
Lemma started_post b cs A P (m : ConnIo → M _ (option (result unit io_error) * Conn)) write con buf n :
  client_inv n.1 A cs → spare 1 A →
  (∀ st n' A', client_inv n'.1 A' (mkClient (Io st) Empty :: cs) →
    io_started id vec_slice iovec_addr write con 0 buf st n'.1 A' →
    wp (m st) (fresh_post b cs A' P) n') →
  wp (st ← on_rt (if write then SocketWrite_write id vec_slice iovec_addr con buf
                  else SocketRead_read id vec_slice iovec_addr con buf); m st) (conn_post b cs A P) n.
Proof.
  intros Hi Hlt Hm. rewrite wp_bind. eapply wp_mono; [by apply start_conn|].
  intros st n' (A' & Hlen & Hi' & Hst). eapply wp_mono; [by apply Hm|].
  intros o n2 (Hi2 & Hc & HP). by exists A'.
Qed.

(** The buffer of the next turn: room for 512 bytes, in place if it has it. *)
Definition read_buffer (storage : option Vec) (buf : Vec) : Prop :=
  vec_len buf = 512 ∧ 512 ≤ vec_cap buf ∧
  ∀ v, storage = Some v → 512 ≤ vec_cap v → vec_ptr buf = vec_ptr v.
Lemma vec_resize_runs storage (x : N) : ∃ buf x', vec_resize 512 (default vec_new storage) x = (Done buf, x') ∧
  read_buffer storage buf.
Proof.
  unfold vec_resize, mbind, M_bind. destruct (Z.ltb_spec (vec_cap (default vec_new storage)) 512) as [Hlt|Hge].
  - destruct (reserve_returns 512 (default vec_new storage) x) as (v & x' & -> & Hv).
    eexists _, x'. split; [done|]. split_and!; [done..|]. intros v0 ->. simpl in Hlt. lia.
  - eexists _, x. split; [done|]. split_and!; [done..|]. by intros v ->.
Qed.

Lemma conn_loop_spec fuel b storage con cs n A : overflow_checks = false → (0 < fuel)%nat →
  client_inv n.1 A cs → spare 1 A →
  wp (conn_loop iovec_addr fuel b storage (Some con))
    (conn_post b cs A (λ o s A, ∃ buf, read_buffer storage buf ∧ goes_to_read con buf o s A)) n.
Proof.
  intros Hov Hf Hi Hlt. destruct fuel as [|fuel]; [lia|]. cbn [conn_loop].
  unfold expect. rewrite wp_bind. apply wp_ret. rewrite wp_bind. unfold on_os. rewrite wp_zoom.
  destruct (vec_resize_runs storage n.2) as (buf & x' & Hrun & Hbuf). unfold wp at 1. rewrite Hrun.
  apply (started_post b cs A _ _ false con buf (n.1, x')); [done|done|].
  intros st n' A' Hi' Hst. eapply wp_mono; [by apply conn_read_fresh|].
  intros o n2 (Hi2 & Hc & Hg). split; [done|]. split; [done|]. by exists buf.
Qed.
(** ** Going on from an await *)

(** The operation of the registration [a]: it is still pending, or it ended
    with a code, holding a buffer and a connection. *)
Definition polled_io (h : Heap D) (a : Z) (pending : Prop)
    (ended : Z → Context_ (B := Vec) (F := Z) → Prop) : Prop :=
  ∃ m i x, live a m i h ∧ data i = Some (box (x : Context_ (B := Vec) (F := Z))) ∧
    if finished i then - 2 ^ 31 < result_code (result_ i) → ended (result_code (result_ i)) x
    else pending.

Definition failed (code : Z) (o : option (result unit io_error) * Conn) : Prop :=
  o = (Some (Err (Os (- code))), ConnEnd).
Definition conn_step (this : Conn) (h : Heap D) (o : option (result unit io_error) * Conn)
    (s : Rt W D) A : Prop :=
  match this with
  | ConnNew c => ∃ buf, read_buffer None buf ∧ goes_to_read c buf o s A
  | ConnRead t => ∀ a, inner t = Pending a → polled_io h a
      (o = (None, ConnRead t) ∨
       ∃ d e, delay t = Some d ∧ out_of_time d e ∧ o = (Some (Err e), ConnEnd))
      (λ code x, if code <? 0 then failed code o
                 else if code =? 0 then o = (Some (Ok tt), ConnEnd)
                 else goes_to_write (c_file x) (vec_truncate code (c_buffer x)) o s A)
  | ConnWrite st => ∀ a, st = Pending a → polled_io h a (o = (None, ConnWrite (Pending a)))
      (λ code x, if code <? 0 then failed code o
                 else ∃ buf, read_buffer (Some (c_buffer x)) buf ∧ goes_to_read (c_file x) buf o s A)
  | ConnEnd => False
  end.

Lemma gone_idle s A w cs : client_inv s A (mkClient Gone w :: cs) ↔ client_inv s A cs.
Proof. by apply client_inv_idle. Qed.

(** A task that ended. *)
Lemma conn_post_end b cs A P r s A' x w : (length (open A') ≤ length (open A) + 1)%nat →
  client_inv s A' (mkClient Gone w :: cs) → P (Some r, ConnEnd) s A' →
  conn_post b cs A P (Some r, ConnEnd) (s, x : N).
Proof. intros Hlen Hi HP. exists A'. rewrite gone_idle in Hi. simpl. by rewrite gone_idle. Qed.

Lemma conn_post_mono b cs A (P Q : option (result unit io_error) * Conn → Rt W D → Rings → Prop) o n :
  (∀ s A', P o s A' → Q o s A') → conn_post b cs A P o n → conn_post b cs A Q o n.
Proof. intros HPQ (A' & ? & ? & ? & ?). exists A'. split_and!; auto. Qed.

Lemma conn_write_spec fuel b a w cs n A : overflow_checks = false → (0 < fuel)%nat →
  client_inv n.1 A (mkClient (Io (Pending a)) w :: cs) → spare 1 A →
  wp (conn_write (conn_loop iovec_addr fuel b) b (Pending a))
    (conn_post b cs A (conn_step (ConnWrite (Pending a)) (regs (rt_inner n.1)))) n.
Proof.
  intros Hov Hf Hi Hlt. unfold conn_write. rewrite wp_bind. unfold write_poll, on_rt. rewrite wp_zoom.
  eapply wp_mono; [apply (poll_io_by b [] _ cs n.1 A (Pending a) Hov Hi eq_refl)|].
  intros o s' [[Hi' _] (m & i & x & Hl & Hd & Ho)]. destruct (finished i) eqn:Hfin.
  - destruct Ho as (v & -> & Hv). simpl in Hi'. destruct v as [[[code buf] con]|e].
    + simpl in Hi'. rewrite gone_idle in Hi'.
      eapply wp_mono; [by apply (conn_loop_spec fuel b (Some buf) con cs (s', n.2) A)|].
      intros o n2. apply conn_post_mono. intros s2 A2 (buf' & Hbuf & Hg) a' [= <-].
      exists m, i, x. rewrite Hfin. split_and!; [done..|]. intros Hmin. specialize (Hv Hmin).
      unfold io_result in Hv. destruct (_ <? 0); [done|]. injection Hv as -> -> ->. by exists buf'.
    + apply wp_ret. apply (conn_post_end _ _ _ _ _ _ A _ (poller_waker b)); [lia|done|].
      intros a' [= <-]. exists m, i, x. rewrite Hfin. split_and!; [done..|]. intros Hmin.
      specialize (Hv Hmin). unfold io_result in Hv. destruct (_ <? 0); [|done]. by injection Hv as ->.
  - subst o. apply wp_ret. exists A. split; [lia|]. split; [exact Hi'|]. split; [by eexists|].
    intros a' [= <-]. exists m, i, x. by rewrite Hfin.
Qed.

Lemma conn_read_spec again b a d t w cs n A : overflow_checks = false → t = mkTimeout (timeout t) (Some d) (Pending a) →
  client_inv n.1 A (mkClient (Io (inner t)) w :: cs) → spare 1 A →
  wp (conn_read iovec_addr again b t)
    (conn_post b cs A (conn_step (ConnRead t) (regs (rt_inner n.1)))) n.
Proof.
  intros Hov Heq Hi Hlt. assert (inner t = Pending a) as Ht by by rewrite Heq.
  assert (delay t = Some d) as Hdel by by rewrite Heq.
  unfold conn_read. rewrite wp_bind. apply wp_conn_Timeout. unfold read_poll, on_rt. rewrite wp_zoom.
  eapply wp_mono; [apply (poll_io_by b [] _ cs n.1 A _ Hov Hi eq_refl)|].
  rewrite Ht. intros o s' [[Hi' _] (m & i & x & Hl & Hd & Ho)].
  assert (∀ P Q : Prop, (if finished i then Q else P) → ∀ a', Pending (B := Vec) (F := Z) a = Pending a' →
    ∀ ended, (Q → - 2 ^ 31 < result_code (result_ i) → ended (result_code (result_ i)) x) →
    polled_io (regs (rt_inner n.1)) a' P ended) as Hpolled.
  { intros P Q HPQ a' [= <-] ended HQ. exists m, i, x. destruct (finished i); auto. }
  destruct (finished i) eqn:Hfin.
  - destruct Ho as (v & -> & Hv). destruct v as [[[code buf] con]|e]; simpl.
    + unfold io_result in Hv. simpl in Hi'. destruct (Z.eqb_spec code 0) as [->|Hne].
      { apply wp_ret. apply (conn_post_end _ _ _ _ _ _ A _ (poller_waker b)); [lia|done|].
        intros a' Ha'. rewrite Ht in Ha'. eapply Hpolled; [exact I|done|]. intros _ Hmin.
        specialize (Hv Hmin). destruct (_ <? 0); [done|]. injection Hv as <- -> ->. done. }
      rewrite gone_idle in Hi'.
      eapply wp_mono; [apply (started_post b cs A (goes_to_write con (vec_truncate code buf)) _ true con
        (vec_truncate code buf) (s', n.2) Hi' Hlt)|].
      { intros st n' A' Hi2 Hst. by apply conn_write_fresh. }
      intros o n2. apply conn_post_mono. intros s2 A2 Hg a' Ha'. rewrite Ht in Ha'.
      eapply Hpolled; [exact I|done|]. intros _ Hmin. specialize (Hv Hmin).
      destruct (Z.ltb_spec (result_code (result_ i)) 0); [done|]. injection Hv as -> -> ->.
      by rewrite (proj2 (Z.eqb_neq _ _) Hne).
    + rewrite wp_bind. apply wp_ret, wp_ret.
      apply (conn_post_end _ _ _ _ _ _ A _ (poller_waker b)); [lia|exact Hi'|].
      intros a' Ha'. rewrite Ht in Ha'. eapply Hpolled; [exact I|done|]. intros _ Hmin. specialize (Hv Hmin).
      unfold io_result in Hv. destruct (_ <? 0); [|done]. by injection Hv as ->.
  - subst o. simpl. rewrite Hdel. intros d' r x' -> Hr. destruct (decide (r = None)) as [->|Hne].
    + apply wp_ret. simpl. rewrite <-Heq. exists A. split; [lia|]. simpl. rewrite Ht. split; [exact Hi'|].
      split; [by split; [rewrite Hdel|eexists]|].
      intros a' Ha'. eapply (Hpolled _ False); [|done|by intros []]. by left.
    + destruct (timer_says_some (E := AsyncError (B := Vec) (F := Z)) (I := Z * Vec * Z) r Hne) as (e & He & Hinto). rewrite He, wp_bind. simpl.
      eapply wp_mono; [exact (io_drop_spec a _ (poller_waker b) cs (s', x') A Hi')|]. intros [] [s2 x2] Hi2.
      apply wp_ret. apply (conn_post_end _ _ _ _ _ _ A _ (poller_waker b)); [lia|exact Hi2|].
      intros a' Ha'. rewrite Ht in Ha'. eapply (Hpolled _ False); [|done|by intros []]. right.
      eexists d, _. split; [done|]. split; [by apply (timer_out_of_time _ r)|done].
Qed.

Lemma Conn_poll_spec fuel b this w cs n A : overflow_checks = false → (0 < fuel)%nat →
  conn_waits this ∨ (∃ c, this = ConnNew c) →
  client_inv n.1 A (mkClient (conn_fut this) w :: cs) → spare 1 A →
  wp (Conn_poll iovec_addr fuel b this) (conn_post b cs A (conn_step this (regs (rt_inner n.1)))) n.
Proof.
  intros Hov Hf Hthis Hi Hlt. destruct this as [c|t|st|]; simpl in *.
  - rewrite gone_idle in Hi. by apply conn_loop_spec.
  - destruct Hthis as [[Hd [a Ha]]|[c Hc]]; [|done]. destruct t as [l [d|] st]; [|done]. simpl in *. subst st.
    by apply (conn_read_spec _ b a d _ w cs n A).
  - destruct Hthis as [[a ->]|[c Hc]]; [|done]. by eapply conn_write_spec.
  - by destruct Hthis as [|[]].
Qed.
End props.
