(* ===== verification/Server.v ===== *)
(** * The echo server at work: [echo-async] on [tokio-uring-reactor]

    The tasks of the server, the one that accepts ([Serve] over [Net]) and
    those of the connections ([Conn]), on one reactor.  An executor polls them in
    any order, lets the reactor wait between polls, and time passes and
    connections arrive as they like. *)

From S2P Require Import Prelude Std Sys Submission Ring Kern Mmap SubQueue CompQueue Rings.
From S2P Require Import QueueOps Registration RegistrationProps Unpark Device Reactor.
From S2P Require Import ReactorProps AsyncIo AsyncProps Clients ClientProps Net Timeout Serve Conn.

Local Open Scope Z_scope.
Local Open Scope rust_scope.

(** [eprintln!] of the serving task and of [main]'s [handle_err]. *)
Class Stderr (N : Type) := {
  serve_line : io_error → M N unit;
  connection_line : Z → io_error → M N unit }.

Section server.
Context {W D N : Type} `{R : !RingDevice W} `{!Others} `{!Build} `{!LibcPoll} `{!Alloc D}.
Context (iovec_addr : Z → Z).
Context `{Bx : !Boxed (Context_ (B := Vec) (F := Z)) D} `{Bu : !Boxed unit D}.
Context `{!Timer N} `{!VecAlloc N} `{!Accept N} `{!LibcPipe N} `{!Stderr N}.

(** The state while the serving task is polled: the tasks it spawned. *)
Definition Srv : Type := Net (W := W) (D := D) (N := N) * list (Z * Z).
Definition on_net {X} (m : M (Net (W := W) (D := D) (N := N)) X) : M Srv X :=
  zoom fst (λ n s, (n, s.2)) m.

#[export] Instance srv_timer : Timer Srv := {|
  now := on_net now; Delay_poll d := on_net (Delay_poll d) |}.

(** [TcpListener::from(l)] and [incoming(&handle)]; the stream's [try_next], on
    the reactor of the runtime; dropping the stream drops its watch. *)
Definition srv_listen (l : Z) : M Srv Incoming := on_net (l ← on_os (TcpListener_from l); incoming l).
Definition srv_try_next (fuel : nat) (b : poller) (i : Incoming)
    : M Srv (option (result (option (Z * Z)) io_error) * Incoming) :=
  on_net (
    '(r, i) ← Incoming_poll fuel b i;
    mret (match r with
          | Ok None => None
          | Ok (Some conn) => Some (Ok (Some conn))
          | Err e => Some (Err e)
          end, i)).
Definition srv_close (i : Incoming) : M Srv unit :=
  on_net (on_rt (on_heap (rc_drop (ap_registration (in_poll i))))).
(** [tokio_current_thread::spawn] of the connection's task. *)
Definition srv_spawn (conn : Z * Z) : M Srv unit := modify (λ s : Srv, (s.1, s.2 ++ [conn])%list).

#[export] Instance srv_listener (fuel : nat) (b : poller) : Listener Srv unit Incoming := {|
  listen _ := srv_listen; try_next := srv_try_next fuel b; close_listener := srv_close |}.
#[export] Instance srv_spawner : Spawner Srv unit := {|
  spawn _ := srv_spawn; serve_error e := on_net (on_os (serve_line e)) |}.

(** ** The tasks and the executor *)

Inductive Task : Type :=
| TServe (s : Serve unit Incoming)
| TConn (addr : Z) (c : Conn)
| TDone.
(** A task and the waker of its last poll. *)
Definition Slot : Type := Task * CompatWaker.

Definition serve_poll (fuel : nat) (b : poller) (s : Serve unit Incoming)
    : M (Net (W := W) (D := D) (N := N)) (option unit * Serve unit Incoming * list (Z * Z)) :=
  zoom (λ n, (n, [])) (λ s _, s.1)
    ('(o, s) ← Serve_poll (Listener0 := srv_listener fuel b) fuel s;
     new ← gets snd; mret (o, s, new)).

(** A poll gives the task and those it spawned. *)
Definition task_poll (fuel : nat) (b : poller) (t : Task)
    : M (Net (W := W) (D := D) (N := N)) (Task * list (Z * Z)) :=
  match t with
  | TServe s =>
      '(o, s, new) ← serve_poll fuel b s;
      mret (match o with None => TServe s | Some _ => TDone end, new)
  | TConn addr c =>
      '(r, c) ← Conn_poll iovec_addr fuel b c;
      match r with
      | None => mret (TConn addr c, [])
      | Some (Ok _) => mret (TDone, [])
      | Some (Err e) => on_os (connection_line addr e);; mret (TDone, [])
      end
  | TDone => mret (TDone, [])
  end.
Definition spawn_slot (conn : Z * Z) : Slot := (TConn conn.2 (ConnNew conn.1), Empty).

(** What happens: the executor polls a task, or parks on the reactor; or time
    passes in the world. *)
Inductive event : Type :=
| EvPoll (i : nat) (b : poller)
| EvPark (timeout : option Z)
| EvWorld (f : N → N).

(** A failing park ends the executor's run. *)
Definition server_step (fuel : nat) (ev : event) (ts : list Slot)
    : M (Net (W := W) (D := D) (N := N)) (result (list Slot) io_error) :=
  match ev with
  | EvPoll i b =>
      match ts !! i with
      | None => mret (Ok ts)
      | Some (t, _) =>
          '(t, new) ← task_poll fuel b t;
          mret (Ok (<[i := (t, poller_waker b)]> ts ++ (spawn_slot <$> new))%list)
      end
  | EvPark timeout =>
      r ← on_rt (match timeout with
                 | Some d => Reactor_park_timeout fuel d
                 | None => Reactor_park fuel
                 end);
      mret (match r with Ok _ => Ok ts | Err e => Err e end)
  | EvWorld f => modify (λ n, (n.1, f n.2));; mret (Ok ts)
  end.
Fixpoint server_run (fuel : nat) (evs : list event) (ts : list Slot)
    : M (Net (W := W) (D := D) (N := N)) (result (list Slot) io_error) :=
  match evs with
  | [] => mret (Ok ts)
  | ev :: evs => ts ←? server_step fuel ev ts; server_run fuel evs ts
  end.
End server.

(** ** What is relied on

    The system's calls return, and [accept] has at most [most] connections and
    interruptions in store at any time. *)
Class OsOk {N} (T : Timer N) (V : VecAlloc N) (A : Accept N) (P : LibcPipe N) (E : Stderr N) := {
  os_returns :: OsReturns T V;
  waiting : N → nat;
  most : nat;
  waiting_most (x : N) : (waiting x ≤ most)%nat;
  accept_returns fd (x : N) : ∃ r x', accept fd x = (Done r, x') ∧
    match r with
    | Ok _ => (waiting x' < waiting x)%nat
    | Err e => (if decide (kind e = Interrupted) then waiting x' < waiting x
                else waiting x' ≤ waiting x)%nat
    end;
  getfl_returns fd (x : N) : ∃ v x', F_GETFL fd x = (Done v, x');
  setfl_returns fd fl (x : N) : ∃ x', F_SETFL fd fl x = (Done tt, x');
  serve_line_returns e (x : N) : ∃ x', serve_line e x = (Done tt, x');
  connection_line_returns a e (x : N) : ∃ x', connection_line a e x = (Done tt, x') }.

Section props.
Context {W D N : Type} `{R : !RingDevice W} `{!RingDeviceOk R} `{!Others} `{!OthersOk _}
  `{!Build} `{!LibcPoll} `{!Alloc D} `{!AllocOk _}.
Context (iovec_addr : Z → Z).
Context `{Bx : !Boxed (Context_ (B := Vec) (F := Z)) D} `{!BoxedOk Bx}.
Context `{Bu : !Boxed unit D} `{!BoxedOk Bu}.
Context `{T : !Timer N} `{V : !VecAlloc N} `{Ac : !Accept N} `{Pi : !LibcPipe N} `{E : !Stderr N}.
Context `{O : !OsOk T V Ac Pi E}.
Implicit Types (n : Net (W := W) (D := D) (N := N)) (cs : list (Client Vec Z)) (A : Rings) (ts : list Slot).

(** ** The listener *)

Lemma accept_settles fd m (x : N) : (waiting x ≤ m)%nat → settles fd m x.
Proof.
  revert x. induction m as [|m IH]; intros x Hm;
    destruct (accept_returns fd x) as ([c|e] & x' & Hrun & Hx').
  1,3: eapply settles_now; [exact Hrun|done].
  all: destruct (decide (kind e = Interrupted)) as [Hk|Hk];
    [|eapply settles_now; [exact Hrun|by intros ? [= <-]]].
  - lia.
  - eapply settles_later; [exact Hrun|exact Hk|]. apply IH. lia.
Qed.
Lemma accepts_waiting fd (x y : N) : rtc (accepts fd) x y → (waiting y ≤ waiting x)%nat.
Proof.
  induction 1 as [|x y z [r Hxy] _ IH]; [done|].
  destruct (accept_returns fd x) as (r' & y' & Hrun & Hy). rewrite Hxy in Hrun. injection Hrun as <- <-.
  destruct r; [|case_decide]; lia.
Qed.

Lemma listener_from l (x : N) : ∃ x', TcpListener_from l x = (Done l, x').
Proof.
  unfold TcpListener_from, set_non_block, mbind, M_bind.
  destruct (getfl_returns l x) as (v & x1 & ->). destruct (0 =? _); [|by eexists].
  by destruct (setfl_returns l (Z.lor v O_NONBLOCK) x1) as (x2 & ->); eexists.
Qed.
Lemma srv_now_returns (s : Srv (W := W) (D := D) (N := N)) :
  ∃ t s', now s = (Done t, s') ∧ (s'.1.1 = s.1.1 ∧ s'.2 = s.2).
Proof.
  destruct s as [n l]. destruct (net_now_returns n) as (t & n' & Hrun & Hn). exists t, (n', l).
  split; [|done]. simpl in *. unfold on_net, zoom at 1. simpl. by rewrite Hrun.
Qed.
Lemma srv_delay_returns d (s : Srv (W := W) (D := D) (N := N)) :
  ∃ r s', Delay_poll d s = (Done r, s') ∧ (s'.1.1 = s.1.1 ∧ s'.2 = s.2).
Proof.
  destruct s as [n l]. destruct (net_delay_returns d n) as (t & n' & Hrun & Hn). exists t, (n', l).
  split; [|done]. simpl in *. unfold on_net, zoom at 1. simpl. by rewrite Hrun.
Qed.

Definition task_fut (t : Task) : Fut Vec Z :=
  match t with
  | TServe (Waiting _ t) => Ready (in_poll (inner t))
  | TConn _ c => conn_fut c
  | _ => Gone
  end.
Definition serve_fut (s : Serve unit Incoming) : Fut Vec Z := task_fut (TServe s).

(** The serving task waits for its watch, or ended. *)
Definition serve_post (b : poller) cs A (o : option unit * Serve unit Incoming)
    (s : Srv (W := W) (D := D) (N := N)) : Prop :=
  ∃ A', (length (open A') ≤ length (open A) + 1)%nat ∧
    client_inv s.1.1 A' (mkClient (serve_fut o.2) (poller_waker b) :: cs) ∧
    match o.1 with
    | None => ∃ t, o.2 = Waiting tt t ∧ delay t ≠ None ∧ ap_active (in_poll (inner t)) = true
    | Some _ => o.2 = Returned
    end.

(** One poll of the stream of connections. *)
Lemma try_next_spec fuel b i w cs A (s : Srv (W := W) (D := D) (N := N)) : overflow_checks = false →
  (2 * most + 2 < fuel)%nat → client_inv s.1.1 A (mkClient (Ready (in_poll i)) w :: cs) →
  spare 1 A →
  wp (try_next (Listener := srv_listener fuel b) i) (λ o s', s'.2 = s.2 ∧
    ∃ A' w', (length (open A') ≤ length (open A) + 1)%nat ∧
      client_inv s'.1.1 A' (mkClient (Ready (in_poll o.2)) w' :: cs) ∧
      match o.1 with
      | Some (Ok (Some _)) => A' = A ∧ (waiting s'.1.2 < waiting s.1.2)%nat
      | Some (Ok None) => False
      | Some (Err _) => True
      | None => ap_active (in_poll o.2) = true ∧ w' = poller_waker b
      end) s.
Proof.
  intros Hov Hf Hi Hlt. destruct s as [[s x] l]. simpl in *. unfold srv_try_next, on_net. rewrite wp_zoom, wp_bind.
  eapply wp_mono.
  { apply (incoming_spec b (in_listener i) most x fuel i [] (mkClient (Ready (in_poll i)) w) cs s A Hov);
      [|lia|done|exact Hi|done|done].
    intros y. apply accept_settles, waiting_most. }
  intros [r i'] [s' x'] (Hl & (A' & w' & Hlen & Hi' & Hsome & Hnone) & y & Hy & Hr). apply wp_ret.
  simpl in *. split; [done|]. exists A', w'. destruct r as [[conn|]|e]; simpl.
  - split_and!; [done..| |]; [by eapply Hsome|]. destruct Hr as [_ Hr].
    apply accepts_waiting in Hy. destruct (accept_returns (in_listener i) y) as (r & x2 & Hrun & Hx2).
    rewrite Hr in Hrun. injection Hrun as <- <-. lia.
  - destruct (Hnone eq_refl) as (_ & Ha & Hw). by split_and!.
  - by split_and!.
Qed.
(** ** No task ends the reactor *)

Abbreviation alive := (λ n, rt_alive n.1).
Abbreviation srv_alive := (λ s : Srv (W := W) (D := D) (N := N), rt_alive s.1.1).

Lemma on_rt_alive {X} (m : M (Rt W D) X) : preserves rt_alive m → preserves alive (on_rt (N := N) m).
Proof. intros Hm. by apply (preserves_zoom_in _ rt_alive). Qed.
Lemma on_os_alive {X} (m : M N X) : preserves alive (on_os (W := W) (D := D) m).
Proof. by apply preserves_zoom. Qed.
Lemma on_net_alive {X} (m : M (Net (W := W) (D := D) (N := N)) X) :
  preserves alive m → preserves srv_alive (on_net m).
Proof. intros Hm. by apply (preserves_zoom_in _ alive). Qed.
Lemma poll_by_alive {X Y} b (old : X → M (Rt W D) Y) new x :
  preserves rt_alive (old x) → (∀ w, preserves rt_alive (new w x)) → preserves rt_alive (poll_by b old new x).
Proof. intros Ho Hn. unfold poll_by. destruct b; [|done]. apply preserves_bind; auto with preserves. Qed.
#[local] Hint Resolve on_rt_alive on_os_alive on_net_alive poll_by_alive : preserves.

Lemma Timeout_poll_alive {S F I X} `{!Timer S} (f : S → bool) (poll_inner : F → M S (option (result I X) * F)) t :
  (∀ x, preserves f (poll_inner x)) → preserves f now → (∀ d, preserves f (Delay_poll d)) →
  preserves f (Timeout_poll poll_inner t).
Proof. intros Hp Hn Hd. unfold Timeout_poll. solve_preserves. Qed.
Lemma net_timer_alive : preserves alive (now (Timer := net_timer)) ∧
  ∀ d, preserves alive (Delay_poll (Timer := net_timer) d).
Proof. split; simpl; eauto with preserves. Qed.

Lemma read_poll_alive b st : preserves alive (read_poll (N := N) b st).
Proof. unfold read_poll. eauto with preserves. Qed.
Lemma write_poll_alive b st : preserves alive (write_poll (N := N) b st).
Proof. unfold write_poll. eauto with preserves. Qed.
Lemma io_drop_alive st : preserves alive (io_drop (N := N) st).
Proof. unfold io_drop. destruct st; eauto with preserves. Qed.
#[local] Hint Resolve read_poll_alive write_poll_alive io_drop_alive : preserves.

Lemma Conn_poll_alive fuel b c : preserves alive (Conn_poll iovec_addr fuel b c).
Proof.
  assert (∀ again st, (∀ x y, preserves alive (again x y)) → preserves alive (conn_write (N := N) again b st))
    as Hwrite by (intros again st Ha; unfold conn_write; solve_preserves).
  assert (∀ again t, (∀ x y, preserves alive (again x y)) → preserves alive (conn_read iovec_addr again b t))
    as Hread.
  { intros again t Ha. unfold conn_read. destruct net_timer_alive.
    apply preserves_bind; [apply Timeout_poll_alive; auto with preserves|]. intros. solve_preserves. }
  assert (∀ k x y, preserves alive (conn_loop iovec_addr k b x y)) as Hloop.
  { intros k. induction k as [|k IH]; intros x y; [apply preserves_fail|]. cbn [conn_loop]. solve_preserves. }
  destruct c; simpl; auto. apply preserves_fail.
Qed.

Lemma Incoming_poll_alive fuel b i : preserves alive (Incoming_poll fuel b i).
Proof.
  revert i. induction fuel as [|fuel IH]; intros i; [apply preserves_fail|]. cbn [Incoming_poll].
  unfold Incoming_wait. solve_preserves.
Qed.
#[local] Hint Resolve Incoming_poll_alive Conn_poll_alive : preserves.

Lemma srv_listen_alive l : preserves srv_alive (srv_listen l).
Proof. apply on_net_alive. unfold incoming. solve_preserves. Qed.
Lemma srv_try_next_alive fuel b i : preserves srv_alive (srv_try_next fuel b i).
Proof. apply on_net_alive. solve_preserves. Qed.
Lemma srv_close_alive i : preserves srv_alive (srv_close i).
Proof. apply on_net_alive. auto with preserves. Qed.
Lemma srv_spawn_alive conn : preserves srv_alive (srv_spawn conn).
Proof. by apply preserves_modify. Qed.
#[local] Hint Resolve srv_listen_alive srv_try_next_alive srv_close_alive srv_spawn_alive : preserves.

Lemma serve_poll_alive fuel b sv : preserves alive (serve_poll fuel b sv).
Proof.
  unfold serve_poll. apply (preserves_zoom_in _ srv_alive); [done..|].
  assert (∀ t, preserves srv_alive (Timeout_poll (try_next (Listener := srv_listener fuel b)) t)) as Hpoll.
  { intros t. destruct net_timer_alive. apply Timeout_poll_alive; simpl; auto with preserves. }
  assert (∀ k t, preserves srv_alive (serve_loop (Listener0 := srv_listener fuel b) k tt t)) as Hloop.
  { intros k. induction k as [|k IH]; intros t; [apply preserves_fail|]. cbn [serve_loop].
    apply preserves_bind; [done|]. intros [[[[c|]|e]|] t']; simpl; solve_preserves. }
  apply preserves_bind; [|intros; solve_preserves].
  destruct sv as [[] l|[] t|]; simpl; [|done|apply preserves_fail].
  apply preserves_bind; auto with preserves.
Qed.
#[local] Hint Resolve serve_poll_alive : preserves.
Lemma task_poll_alive fuel b t : preserves alive (task_poll iovec_addr fuel b t).
Proof. destruct t; simpl; solve_preserves. Qed.

(** ** The serving task *)

Lemma serve_post_end b w cs A s A' (l : list (Z * Z)) : (length (open A') ≤ length (open A) + 1)%nat →
  client_inv (fst s) A' (mkClient Gone w :: cs) → serve_post b cs A (Some tt, Returned) (s : Net, l).
Proof. intros Hlen Hi. exists A'. rewrite gone_idle in Hi. simpl. by rewrite gone_idle. Qed.

Lemma serve_finish fuel b i w cs A A' e (s : Srv (W := W) (D := D) (N := N)) :
  (length (open A') ≤ length (open A) + 1)%nat →
  client_inv s.1.1 A' (mkClient (Ready (in_poll i)) w :: cs) →
  wp (close_listener (Listener := srv_listener fuel b) i;; serve_error (H := unit) e;;
      mret (Some tt, Returned)) (serve_post b cs A) s.
Proof.
  intros Hlen Hi. destruct s as [[s x] l]. rewrite wp_bind. simpl. unfold srv_close, on_net at 1, on_rt.
  rewrite !wp_zoom. simpl in *.
  eapply wp_mono; [apply (drop_client_spec [] _ cs w s A' Hi)|]. intros [] s' [Hi' _].
  rewrite wp_bind. unfold on_net, on_os. rewrite !wp_zoom.
  destruct (serve_line_returns e x) as (x' & Hrun). simpl. unfold wp at 1. rewrite Hrun.
  apply wp_ret. by eapply serve_post_end.
Qed.

Lemma serve_loop_runs fuel b k : ∀ t w cs A (s : Srv (W := W) (D := D) (N := N)),
  overflow_checks = false → (2 * most + 2 < fuel)%nat → (waiting s.1.2 < k)%nat →
  client_inv s.1.1 A (mkClient (Ready (in_poll (inner t))) w :: cs) →
  spare 1 A →
  wp (serve_loop (Listener0 := srv_listener fuel b) k tt t) (serve_post b cs A) s.
Proof.
  induction k as [|k IH]; intros t w cs A s Hov Hf Hk Hi Hlt; [lia|]. cbn [serve_loop].
  rewrite wp_bind.
  set (R0 := λ s s' : Srv (W := W) (D := D) (N := N), s'.1.1 = s.1.1 ∧ s'.2 = s.2).
  assert (Transitive R0) as Htr by (intros ? ? ? [] []; split; congruence).
  apply (wp_Timeout R0); [apply srv_now_returns|apply srv_delay_returns|].
  eapply wp_mono; [exact (try_next_spec fuel b (inner t) w cs A s Hov Hf Hi Hlt)|].
  intros [[[[conn|]|e]|] i] s1 (Hl & A' & w' & Hlen & Hi' & Ho); simpl in *; try done.
  - destruct Ho as [-> Hw]. rewrite wp_bind. simpl. unfold srv_spawn. rewrite wp_modify. apply (IH _ w' cs A); [done|done|simpl; lia|exact Hi'|done].
  - by eapply (serve_finish fuel b).
  - destruct Ho as [Hact ->]. intros r d s2 [Hs2 _] [->|Hr].
    + apply wp_ret. exists A'. split; [done|]. split; [by rewrite Hs2|]. by eexists.
    + assert (∃ e, r = Some (Err e)) as [e ->] by naive_solver.
      eapply (serve_finish fuel b); [exact Hlen|]. rewrite Hs2. exact Hi'.
Qed.

Lemma serve_poll_runs fuel b sv w cs A n : overflow_checks = false → (2 * most + 2 < fuel)%nat →
  client_inv n.1 A (mkClient (serve_fut sv) w :: cs) → spare 1 A →
  sv ≠ Returned →
  wp (serve_poll fuel b sv) (λ o n', ∃ l, serve_post b cs A o.1 (n', l)) n.
Proof.
  intros Hov Hf Hi Hlt Hsv. unfold serve_poll. rewrite wp_zoom, wp_bind.
  assert (∀ x, waiting x < fuel)%nat as Hw by (intros x; pose proof (waiting_most x); lia).
  eapply (wp_mono _ (serve_post b cs A)).
  2: { intros [o s] [n' l] Hp. rewrite wp_bind, wp_gets. apply wp_ret. simpl. by exists l. }
  destruct sv as [[] l|[] t|]; [| |done].
  - cbn [Serve_poll]. simpl in Hi. rewrite gone_idle in Hi. destruct n as [s x].
    rewrite wp_bind. simpl. unfold srv_listen, on_net. rewrite wp_zoom, !wp_bind. simpl. unfold on_os at 1.
    rewrite wp_zoom. simpl.
    destruct (listener_from l x) as [x' Hrun].
    unfold wp at 1. rewrite Hrun. unfold incoming. rewrite wp_bind. unfold on_rt. rewrite wp_zoom. simpl.
    eapply wp_mono; [apply (watch_spec l PollFlags_IN cs s A Hi)|]. intros p s' [[Hi' _] _]. apply wp_ret.
    eapply serve_loop_runs; [done|done|apply Hw| |done]. simpl.
    eapply client_inv_perm; [|exact Hi']. simpl. solve_Permutation.
  - by eapply serve_loop_runs; [..|exact Hi|].
Qed.

(** ** All tasks *)

Definition task_ok (t : Task) : Prop :=
  match t with
  | TServe (Waiting _ t) => delay t ≠ None ∧ ap_active (in_poll (inner t)) = true
  | TServe Returned => False
  | TConn _ c => conn_waits c ∨ ∃ c0, c = ConnNew c0
  | _ => True
  end.
Definition slot_client (sl : Slot) : Client Vec Z := mkClient (task_fut sl.1) sl.2.
(** The registration it waits for; it was polled then. *)
Definition task_reg (t : Task) : option Z := reg_of (mkClient (task_fut t) Empty).
Definition slot_ok (sl : Slot) : Prop := task_ok sl.1 ∧ (sl.2 = Empty → task_reg sl.1 = None).
Definition server_inv (s : Rt W D) A ts : Prop :=
  client_inv s A (slot_client <$> ts) ∧ Forall slot_ok ts.

Lemma task_poll_runs fuel b t w cs A n : overflow_checks = false → (2 * most + 2 < fuel)%nat →
  client_inv n.1 A (mkClient (task_fut t) w :: cs) → task_ok t → spare 1 A →
  wp (task_poll iovec_addr fuel b t) (λ o n', task_ok o.1 ∧
    ∃ A', (length (open A') ≤ length (open A) + 1)%nat ∧
      client_inv n'.1 A' (mkClient (task_fut o.1) (poller_waker b) :: cs)) n.
Proof.
  intros Hov Hf Hi Hok Hlt. destruct t as [sv|addr c|]; simpl.
  - rewrite wp_bind. eapply wp_mono; [apply (serve_poll_runs fuel b sv w cs A n Hov Hf Hi Hlt); by destruct sv|].
    intros [[o sv'] new] n' (l & A' & Hlen & Hi' & Ho). apply wp_ret. simpl in *. destruct o as [[]|].
    + subst sv'. split; [done|]. by exists A'.
    + destruct Ho as (t & -> & Hact). split; [done|]. by exists A'.
  - rewrite wp_bind. eapply wp_mono; [apply (Conn_poll_spec iovec_addr fuel b c w cs n A Hov); [lia|done..]|].
    intros [r c'] n' (A' & Hlen & Hi' & Hc & _). simpl in *. destruct r as [[[]|e]|].
    + subst c'. apply wp_ret. split; [done|]. by exists A'.
    + subst c'. rewrite wp_bind. unfold on_os. rewrite wp_zoom.
      destruct (connection_line_returns addr e n'.2) as (x' & Hrun). unfold wp at 1. rewrite Hrun.
      apply wp_ret. split; [done|]. by exists A'.
    + apply wp_ret. split; [by left|]. by exists A'.
  - apply wp_ret. split; [done|]. exists A. split; [lia|]. simpl in *.
    by rewrite gone_idle in *.
Qed.

(** A task in the middle of the others, and those that were spawned. *)
Lemma server_inv_split s A ts i t w : server_inv s A ts → ts !! i = Some (t, w) →
  ∃ rest, (∀ sl, slot_client <$> <[i := sl]> ts ≡ₚ slot_client sl :: rest) ∧ task_ok t ∧
    client_inv s A (mkClient (task_fut t) w :: rest) ∧
    ∀ sl new, slot_ok sl → Forall slot_ok (<[i := sl]> ts ++ (spawn_slot <$> new)).
Proof.
  intros [Hi Hok] Hts. exists (slot_client <$> (take i ts ++ drop (S i) ts)).
  assert (∀ sl, slot_client <$> <[i := sl]> ts ≡ₚ slot_client sl :: (slot_client <$> (take i ts ++ drop (S i) ts)))
    as Hperm.
  { intros sl. rewrite insert_take_drop by by eapply lookup_lt_Some. rewrite !fmap_app. csimpl.
    solve_Permutation. }
  split_and!; [done| | |].
  - rewrite list.Forall_forall in Hok. exact (proj1 (Hok _ (list_elem_of_lookup_2 _ _ _ Hts))).
  - eapply client_inv_perm; [|exact Hi]. rewrite <-(Hperm (t, w)). by rewrite list_insert_id.
  - intros sl new Hsl. apply list.Forall_app. split; [by apply Forall_insert|].
    apply list.Forall_forall. intros x (c & -> & _)%list_elem_of_fmap. split; [|done]. right. by eexists.
Qed.
Lemma spawned_idle s A cs new :
  client_inv s A cs → client_inv s A (cs ++ (slot_client <$> (spawn_slot <$> new))).
Proof.
  intros Hi. eapply client_inv_perm; [apply Permutation_app_comm|].
  induction new as [|c new IH]; csimpl; [done|]. by apply gone_idle.
Qed.

Lemma server_step_runs fuel ev ts n A : overflow_checks = false → rt_alive n.1 = true →
  server_inv n.1 A ts → (2 * most + 2 < fuel)%nat → (length (open A) + 2 < fuel)%nat →
  spare 2 A →
  wp (server_step iovec_addr fuel ev ts) (λ r n', rt_alive n'.1 = true ∧
    ∃ A', (length (open A') ≤ length (open A) + 2)%nat ∧
    server_inv n'.1 A' match r with Ok ts' => ts' | Err _ => ts end) n.
Proof.
  intros Hov Hal Hinv Hf Hfo Hlt. pose proof Hinv as [Hi Hok]. destruct ev as [i b|timeout|f]; simpl.
  - destruct (ts !! i) as [[t w]|] eqn:Hti; [|apply wp_ret; split; [done|]; exists A; split; [lia|done]].
    destruct (server_inv_split n.1 A ts i t w) as (rest & Hperm & Ht & Hc & Hnew); [done..|].
    rewrite wp_bind. eapply wp_mono.
    { apply (wp_preserves alive); [apply task_poll_alive|].
      eapply (task_poll_runs fuel b t w rest A n); [done|lia|done..|eapply spare_le; [|exact Hlt]; lia]. }
    intros [t' new] n' [(Ht' & A' & Hlen & Hc') Hal']. apply wp_ret. simpl in *. split; [congruence|].
    exists A'. split; [lia|]. split; [|apply Hnew; split; [done|by destruct b]]. rewrite fmap_app. apply spawned_idle.
    eapply client_inv_perm; [symmetry; apply Hperm|exact Hc'].
  - rewrite wp_bind. unfold on_rt. rewrite wp_zoom.
    eapply wp_mono; [by apply (park_client_spec fuel timeout _ n.1 A Hal Hi)|].
    intros r s' (A' & [Hlen _] & Hi' & _ & Hal'). apply wp_ret. simpl. split; [congruence|].
    exists A'. split; [lia|]. by destruct r.
  - rewrite wp_bind, wp_modify. apply wp_ret. split; [done|]. exists A. split; [lia|done].
Qed.

(** Room in the completion queue after every event. *)
Definition server_room fuel evs ts : Net (W := W) (D := D) (N := N) → Prop :=
  along (λ evs, server_run iovec_addr fuel evs ts)
    (λ r n, match r with Ok _ => room_left n.1 | Err _ => True end) evs.
Definition server_room_b fuel evs ts : Net (W := W) (D := D) (N := N) → bool :=
  along_b (λ evs, server_run iovec_addr fuel evs ts)
    (λ r n, match r with Ok _ => room_left_b n.1 | Err _ => true end) evs.
Lemma server_room_eval fuel evs ts n : server_room_b fuel evs ts n = true → server_room fuel evs ts n.
Proof. by apply along_eval; intros [] ? Hb; [apply room_eval|]. Qed.
Lemma lossless_server_room fuel evs ts n : lossless → server_room fuel evs ts n.
Proof. intros Hll. apply along_always. intros [] ?; [by left|done]. Qed.
Lemma server_room_next fuel ev evs ts n ts' n' : server_room fuel (ev :: evs) ts n →
  server_step iovec_addr fuel ev ts n = (Done (Ok ts'), n') → server_room fuel evs ts' n'.
Proof.
  intros Hk Hrun evs0 r n2 Hp Hrun2. apply (Hk (ev :: evs0) r); [by apply prefix_cons|].
  simpl. unfold try_bind. by erewrite run_bind_done by exact Hrun.
Qed.

Lemma server_run_spec fuel evs : ∀ ts n A, overflow_checks = false → server_room fuel evs ts n →
  rt_alive n.1 = true → server_inv n.1 A ts → (2 * most + 2 < fuel)%nat → (length (open A) + 2 * length evs + 2 < fuel)%nat →
  Z.of_nat fuel < 2 ^ 64 →
  wp (server_run iovec_addr fuel evs ts) (λ r n', ∃ A' ts', server_inv n'.1 A' ts' ∧
    (length (open A') ≤ length (open A) + 2 * length evs)%nat ∧ rt_alive n'.1 = true ∧
    match r with Ok ts2 => ts2 = ts' | Err _ => True end) n.
Proof.
  induction evs as [|ev evs IH]; intros ts n A Hov Hroom Hal Hi Hf Hfo Hlt; simpl in *.
  - apply wp_ret. exists A, ts. split; [done|]. split; [lia|done].
  - assert (spare 2 A) as Hsp.
    { eapply room_spare; [apply Hi| |lia|lia]. apply (Hroom [] (Ok ts)); [apply prefix_nil|done]. }
    pose proof (server_step_runs fuel ev ts n A Hov Hal Hi Hf ltac:(lia) Hsp) as Hw.
    apply wp_run in Hw as ([ts'|e] & n' & Hrun & Hal' & A' & Hlen & Hi'); rewrite wp_try_bind;
      apply wp_run; (eexists _, n'; split; [exact Hrun|]).
    + pose proof (server_room_next _ _ _ _ _ _ _ Hroom Hrun) as Hroom'.
      eapply wp_mono; [by apply (IH ts' n' A'); try lia|].
      intros r n2 (A2 & ts2 & Hi2 & Hlen2 & Hr). exists A2, ts2. split; [done|]. split; [lia|exact Hr].
    + exists A', ts. split; [done|]. split; [lia|done].
Qed.

(** A run of the server, which had room in the completion queue: whatever happened
    since it started. *)
Definition server_reaches (l : Z) n (r : result (list Slot) io_error) : Prop :=
  ∃ fuel evs s A (x : N), started s A ∧ (2 * most + 2 * length evs + 2 < fuel)%nat ∧
    Z.of_nat fuel < 2 ^ 64 ∧ server_room fuel evs [(TServe (Unresumed tt l), Empty)] (s, x) ∧
    server_run iovec_addr fuel evs [(TServe (Unresumed tt l), Empty)] (s, x) = (Done r, n).

Lemma server_from_start fuel evs l s A (x : N) : overflow_checks = false →
  server_room fuel evs [(TServe (Unresumed tt l), Empty)] (s, x) → started s A →
  (2 * most + 2 * length evs + 2 < fuel)%nat → Z.of_nat fuel < 2 ^ 64 →
  ∃ r n A' ts, server_run iovec_addr fuel evs [(TServe (Unresumed tt l), Empty)] (s, x) = (Done r, n) ∧
    server_inv n.1 A' ts ∧ rt_alive n.1 = true ∧ (∀ ts', r = Ok ts' → ts' = ts ∧ spare 1 A').
Proof.
  intros Hov Hroom Hs Hf Hlt. pose proof (started_inv _ _ Hs) as Hi. destruct Hs as (Hal & _ & Ho).
  pose proof (server_run_spec fuel evs [(TServe (Unresumed tt l), Empty)] (s, x) A Hov Hroom Hal) as Hw.
  assert (server_inv s A [(TServe (Unresumed tt l), Empty)]) as Hinv.
  { split; [by apply gone_idle|]. by constructor. }
  specialize (Hw Hinv ltac:(lia) ltac:(rewrite Ho; simpl; lia) Hlt). rewrite Ho in Hw.
  apply wp_run in Hw as (r & n & Hrun & A' & ts & Hinv' & Hlen & Hal' & Hr). exists r, n, A', ts.
  split; [done|]. split; [done|]. split; [done|]. intros ts' ->. split; [done|]. subst ts'.
  eapply room_spare; [apply Hinv'|by apply (Hroom evs (Ok ts))|lia|simpl in Hlen; lia].
Qed.
Lemma server_reaches_inv l n ts : overflow_checks = false → server_reaches l n (Ok ts) →
  ∃ A, server_inv n.1 A ts ∧ spare 1 A ∧ rt_alive n.1 = true.
Proof.
  intros Hov (fuel & evs & s & A & x & Hs & Hf & Hlt & Hroom & Hrun).
  destruct (server_from_start fuel evs l s A x Hov Hroom Hs Hf Hlt) as (r & n' & A' & ts' & Hrun' & Hi & Hal & Hr).
  rewrite Hrun in Hrun'. injection Hrun' as <- <-. destruct (Hr ts eq_refl) as [-> ?]. by exists A'.
Qed.

(** A task is done, not started, or waits for its registration [a]. *)
Definition task_waits (s : Rt W D) A (t : Task) (w : CompatWaker) : Prop :=
  match task_reg t with
  | None => t = TDone ∨ (∃ l, t = TServe (Unresumed tt l)) ∨ ∃ addr c, t = TConn addr (ConnNew c)
  | Some a => ∃ m j, live a m j (regs (rt_inner s)) ∧
      if finished j then w ∈ woken (regs (rt_inner s)) else a ∈ pending_ops A ∧ waker_ j = w
  end.
Lemma server_inv_waits s A ts i t w : server_inv s A ts → ts !! i = Some (t, w) → task_waits s A t w.
Proof.
  intros [Hi Hok] Ht. rewrite list.Forall_forall in Hok.
  destruct (Hok _ (list_elem_of_lookup_2 _ _ _ Ht)) as [Htok Hwk]. simpl in Htok, Hwk.
  assert (future_ok A (regs (rt_inner s)) (slot_client (t, w))) as Hfo.
  { pose proof (ci_futures _ _ _ Hi) as Hfs. rewrite list.Forall_forall in Hfs. apply Hfs.
    apply list_elem_of_fmap. exists (t, w). split; [done|]. by eapply list_elem_of_lookup_2. }
  unfold task_waits, task_reg, future_ok, slot_client, reg_of in *. simpl in *.
  assert (∀ a, (w = Empty → False) → (∃ m j, live a m j (regs (rt_inner s)) ∧ awaited w A (regs (rt_inner s)) a j) →
    ∃ m j, live a m j (regs (rt_inner s)) ∧
      if finished j then w ∈ woken (regs (rt_inner s)) else a ∈ pending_ops A ∧ waker_ j = w) as Haw.
  { intros a Hne (m & j & Hl & Ha). exists m, j. split; [done|]. unfold awaited in Ha.
    destruct (finished j); [naive_solver|]. destruct Ha as [Hin Hwj]. split; [|done]. unfold open in Hin.
    by rewrite (ring_lost _ _ (proj1 (ci_at _ _ _ Hi))), app_nil_r in Hin. }
  destruct t as [[[] l'|h t|]|addr [c|t|st|]|]; simpl in *; try done; eauto.
  - destruct Htok as [_ Hact]. rewrite Hact in Hfo. apply Haw; naive_solver.
  - destruct Htok as [[_ [a Ha]]|[? ?]]; [|done]. rewrite Ha in *. apply Haw; naive_solver.
  - destruct Htok as [[a Ha]|[? ?]]; [|done]. subst st. apply Haw; naive_solver.
  - destruct Htok as [[]|[]]; done.
Qed.

(** C2: the echo server never fails, and none of its tasks is forgotten.  From
    the start on, whatever the order in which the executor polls the serving
    task and the tasks of the connections and parks on the reactor, whatever
    arrives and however long it takes, against any kernel and other threads, as
    long as the completion queue has room or the kernel loses no completion: no
    poll panics, touches freed memory or waits for ever, and only a failing
    system call can end the run.  This is for builds without overflow checks,
    like release builds: with them [pending_submissions] panics once the 32-bit
    tail counter has wrapped ([pending_submissions_counts]), and so does the
    negation of a result code of [i32::MIN].  Every task that is not done is new and about
    to be polled, or waits for an operation of the reactor: its result is there
    and the waker of its last poll was woken (since that poll, when every poll
    brings a waker of its own), or its request is with the ring and that waker
    is the one its completion will wake. *)
Theorem server_never_fails fuel evs l s A (x : N) (Hov : overflow_checks = false)
    (Hroom : server_room fuel evs [(TServe (Unresumed tt l), Empty)] (s, x))
    (Hs : started s A) (Hf : (2 * most + 2 * length evs + 2 < fuel)%nat) (Hlt : Z.of_nat fuel < 2 ^ 64) :
  ∃ r s' x', server_run iovec_addr fuel evs [(TServe (Unresumed tt l), Empty)] (s, x) =
      (Done r, (s', x')) ∧
    ∀ ts, r = Ok ts → ∃ A', dev_at (dev (rt_inner s')) A' ∧
      ∀ i t w, ts !! i = Some (t, w) → task_waits s' A' t w.
Proof.
  destruct (server_from_start fuel evs l s A x Hov Hroom Hs Hf Hlt) as (r & [s' x'] & A' & ts & Hrun & Hi & _ & Hr).
  exists r, s', x'. split; [done|]. intros ts' Hts. destruct (Hr ts' Hts) as [-> _]. exists A'.
  split; [apply (ci_at _ _ _ (proj1 Hi))|]. intros i t w. by apply server_inv_waits.
Qed.

(** C3: a connection is echoed.  In every state the running server reaches, a
    poll of the task of a connection returns and takes the step of the code:
    a new connection has a read of 512 bytes submitted on it, under a deadline
    three seconds from then; a read that is still out is waited for, or given up
    if the timer says that its deadline is over, or fails; a read of [n > 0]
    bytes has the write of exactly these bytes, from the buffer they are in, to
    the same connection submitted; a read of nothing ends the task, and a failed
    operation ends it with the error of its code; a finished write leads to the
    next read, into the same memory.  A submission is refused, which ends the
    task with that error, only while every slot of the submission queue holds an
    entry the kernel has not taken.  This is for builds without overflow checks
    (with them [pending_submissions] can panic, [pending_submissions_counts]). *)
Theorem connection_echoes l n ts i addr c w fuel b (Hov : overflow_checks = false)
    (Hs : server_reaches l n (Ok ts)) (Hi : ts !! i = Some (TConn addr c, w)) (Hf : (0 < fuel)%nat) :
  ∃ o n' A', Conn_poll iovec_addr fuel b c n = (Done o, n') ∧ dev_at (dev (rt_inner n'.1)) A' ∧
    conn_step iovec_addr c (regs (rt_inner n.1)) o n'.1 A' ∧
    match o.1 with None => conn_waits o.2 | Some _ => o.2 = ConnEnd end ∧ rt_alive n'.1 = true.
Proof.
  destruct (server_reaches_inv l n ts Hov Hs) as (A & Hinv & Hlt & Hal).
  destruct (server_inv_split n.1 A ts i _ w Hinv Hi) as (rest & _ & Hok & Hc & _).
  pose proof (Conn_poll_spec iovec_addr fuel b c w rest n A Hov Hf Hok Hc Hlt) as Hw.
  apply wp_run in Hw as (o & n' & Hrun & A' & _ & Hi' & Hend & Hstep).
  exists o, n', A'. split_and!; try done; [apply (ci_at _ _ _ Hi')|].
  pose proof (Conn_poll_alive fuel b c n) as Hp. unfold preserves in Hp. rewrite Hrun in Hp. simpl in Hp. congruence.
Qed.
End props.
