(* ===== verification/Main.v ===== *)
(** * [echo-async/src/main.rs]: the program

    [main] from the bind of its listener over [Runtime::new] to the run of the
    executor, with the tasks of [Server] on the reactor that [ReactorNew] builds
    and the current-reactor bookkeeping of [Runtime]. *)

From S2P Require Import Prelude Std Sys Submission Ring Kern Mmap SubQueue CompQueue Uring Rings.
From S2P Require Import UringProps QueueOps Queues UringNew Registration RegistrationProps Unpark.
From S2P Require Import Device UringDevice Reactor ReactorProps AsyncIo AsyncProps Clients.
From S2P Require Import ClientProps ReactorNew Net Runtime Timeout Serve Conn Server.

Local Open Scope Z_scope.
Local Open Scope rust_scope.

(** [std::net::TcpListener::bind] *)
Class TcpBind (N : Type) := tcp_bind : string → M N (result Z io_error).

(** [Result::expect] *)
Definition expect_ok {S A E} (r : result A E) (why : string) : M S A :=
  match r with Ok a => mret a | Err _ => panic why end.

Section main.
Context `{!Kernel} `{!Libc Proc} `{Pp : !LibcPipe Proc} `{!LibcTimer Proc} `{!Build} `{!World}.
Context {D N : Type} `{!Others} `{!LibcPoll} `{!Alloc D} (iovec_addr : Z → Z).
Context `{Bx : !Boxed (Context_ (B := Vec) (F := Z)) D} `{Bu : !Boxed unit D}.
Context `{T : !Timer N} `{Al : !VecAlloc N} `{Ac : !Accept N} `{Pn : !LibcPipe N} `{E : !Stderr N}.
Context `{!TcpBind N}.

(** What the executor keeps: the tasks, and the reactor below the timer. *)
Definition Exec : Type := list Slot * Net (W := URing) (D := D) (N := N).
Context {V : Type} `{Ex : !Executor Exec unit unit (Serve unit Incoming) V}.

(** [bind], what is done with the listener, and [Runtime::new] *)
Definition main_start (from : Z → M N Z) (buf : Z) : M (Proc * N) (Z * Built) :=
  r ← zoom snd (λ x s, (s.1, x)) (tcp_bind "[::]:22");
  l ← expect_ok r "bind";
  l ← zoom snd (λ x s, (s.1, x)) (from l);
  r ← zoom fst (λ p s, (p, s.2)) (Runtime_new id buf);
  runtime ← expect_ok r "new runtime";
  mret (l, runtime).

(** [serve_tcp::serve] and [runtime.run()] *)
Definition main_run (l : Z) : M (Thread Exec unit) unit :=
  Serve.serve l;;
  r ← Runtime_run;
  expect_ok r "runtime run".

(** The thread once the runtime is there. *)
Definition main_thread (b : Built) (s : Proc * N) : Thread Exec unit :=
  mkThread None false ([], (mkRt true (ReactorNew.reactor_of b (kern s.1)), s.2)).

(** It starts on the process and goes on in the thread of the runtime.  The call
    of [env_logger::init] that comes first is left out: it decides, from the
    environment, whether debug logging is on, which is [log_debug] here. *)
Definition main (buf : Z) (s : Proc * N) : outcome unit * (Proc * N + Thread Exec unit) :=
  match main_start (λ l, mret l) buf s with
  | (Done (l, b), s) => let '(o, t) := main_run l (main_thread b s) in (o, inr t)
  | (Panic w, s) => (Panic w, inl s)
  | (UB w, s) => (UB w, inl s)
  | (Hang w, s) => (Hang w, inl s)
  end.

(** ** The example's [main]

    [tokio-uring/examples/echo.rs] makes the listener non-blocking first and
    spawns the loop over its connections, [listening] of [EchoExample], which
    gets two handles: one for the connections, one for the listener. *)
Definition example_run {X H T F V} `{!Executor X H T F V} (listening : H → H → Z → F) (l : Z)
    : M (Thread X H) unit :=
  handle ← reactor_handle;
  lhandle ← reactor_handle;
  Runtime_spawn (listening handle lhandle l);;
  r ← Runtime_run;
  expect_ok r "runtime run".
Definition example_main {X H T F V} `{!Executor X H T F V} (listening : H → H → Z → F)
    (new_with_park : Built → Proc * N → X) (buf : Z) (s : Proc * N)
    : outcome unit * (Proc * N + Thread X H) :=
  match main_start TcpListener_from buf s with
  | (Done (l, b), s) =>
      let '(o, t) := example_run listening l (mkThread None false (new_with_park b s)) in (o, inr t)
  | (Panic w, s) => (Panic w, inl s)
  | (UB w, s) => (UB w, inl s)
  | (Hang w, s) => (Hang w, inl s)
  end.

(** ** The executor

    [spawn] queues a task.  [run] polls tasks and parks, in an order of its own,
    while time passes in the world, until no task is left or a park fails. *)
Definition idle (ts : list Slot) : Prop := Forall (λ sl, sl.1 = TDone) ts.
Definition run_ends (ts : list Slot) (o : outcome (result (list Slot) io_error))
    (r : outcome (result unit string)) (ts' : list Slot) : Prop :=
  match o with
  | Done (Ok ts2) => ts' = ts2 ∧ ((idle ts2 ∧ r = Done (Ok tt)) ∨ ∃ why, r = Hang why)
  | Done (Err _) => ∃ why, r = Done (Err why)
  | Panic why => r = Panic why
  | UB why => r = UB why
  | Hang why => r = Hang why
  end.
Class RunsServer `{O : !OsOk T Al Ac Pn E} : Prop := {
  runs_spawn f (e : Exec) : ex_spawn f e = ((e.1 ++ [(TServe f, Empty)])%list, e.2);
  runs_run (t : Thread Exec unit) : ∃ fuel evs ts' r,
    (2 * most + 2 * length evs + 2 < fuel)%nat ∧ Z.of_nat fuel < 2 ^ 64 ∧
    run_ends (exec_state t).1 (server_run iovec_addr fuel evs (exec_state t).1 (exec_state t).2).1 r ts' ∧
    ex_run t = (r, mkThread (current t) (in_enter t)
      (ts', (server_run iovec_addr fuel evs (exec_state t).1 (exec_state t).2).2)) }.
End main.

(** ** What it does *)

Section props.
Context `{!Kernel} `{!KernelOk _} `{!Libc Proc} `{!LibcOk _} `{Pp : !LibcPipe Proc} `{!LibcTimer Proc}.
Context `{!LibcFdOk _ _} `{!Build} `{!World} `{!WorldOk}.
Context {D N : Type} `{!Others} `{!OthersOk _} `{!LibcPoll} `{!Alloc D} `{!AllocOk _} (iovec_addr : Z → Z).
Context `{Bx : !Boxed (Context_ (B := Vec) (F := Z)) D} `{!BoxedOk Bx} `{Bu : !Boxed unit D} `{!BoxedOk Bu}.
Context `{T : !Timer N} `{Al : !VecAlloc N} `{Ac : !Accept N} `{Pn : !LibcPipe N} `{E : !Stderr N}.
Context `{Bd : !TcpBind N} `{O : !OsOk T Al Ac Pn E}.
Context {V : Type} `{Ex : !Executor (Exec (D := D) (N := N)) unit unit (Serve unit Incoming) V}.
Context `{!ExecutorOk Ex} `{!RunsServer iovec_addr (Ex := Ex) (O := O)}.
Context (base : Z → Z) (cap : Z).
Implicit Types (p : Proc) (x : N).

Lemma main_start_runs from buf p x (Hov : overflow_checks = false) (Hlog : log_debug = false) :
  (∀ why x, ∃ r x', tcp_bind why x = (Done r, x')) → (∀ l x, ∃ x', from l x = (Done l, x')) →
  mapped_at base →
  (∀ r ps p1, syscall_setup SYS_io_uring_setup 4096 (SetupParameters_new 0) p = (Done (r, ps), p1) →
    0 ≤ as_i32 r → ready base ps (kern p1) ∧ cap ≤ cq_entries ps) →
  ∃ o p' x', main_start from buf (p, x) = (o, (p', x')) ∧
    match o with
    | Done (l, b) => (∃ x1, tcp_bind "[::]:22" x = (Done (Ok l), x1) ∧ from l x1 = (Done l, x')) ∧
        Reactor_new buf p = (Done (Ok b), p') ∧
        ∃ A, started (RingDeviceOk0 := uring_device_ok cap Hov Hlog)
          (mkRt true (ReactorNew.reactor_of (D := D) b (kern p'))) A
    | Panic why => maps p' ≡ₚ maps p ∧ fds p' ≡ₚ fds p ∧
        ((why = "bind" ∧ ∃ e, tcp_bind "[::]:22" x = (Done (Err e), x')) ∨
         (why = "new runtime" ∧ ∃ e, Reactor_new buf p = (Done (Err e), p') ∧ call_fails p e))
    | _ => False
    end.
Proof.
  intros Hbind Hfrom Hat Hready. destruct (Hbind "[::]:22" x) as (r & x1 & Hb).
  unfold main_start, zoom, mbind, M_bind. cbn [fst snd]. rewrite Hb.
  destruct r as [l|e]; cbn [expect_ok].
  2: { exists (Panic "bind"), p, x1. split; [done|]. split_and!; [done..|]. left. split; [done|]. by exists e. }
  destruct (Hfrom l x1) as [x' Hl]. unfold mret at 1, M_ret at 1. cbn [fst snd]. rewrite Hl.
  destruct (Reactor_new_starts (D := D) base cap buf p Hov Hlog Hat Hready) as (r & p' & Hrun & Hr).
  unfold Runtime_new, try_bind, mbind, M_bind, mret, M_ret, panic. cbn [fst snd]. rewrite Hrun.
  destruct r as [b|e]; cbn [expect_ok].
  - exists (Done (l, b)), p', x'. split; [done|]. split; [by exists x1|done].
  - exists (Panic "new runtime"), p', x'. split; [done|]. destruct Hr as [[Hm Hf] He]. split_and!; [done..|].
    right. split; [done|]. by exists e.
Qed.

(** The example: where it does not get to its runtime, or what its thread starts with. *)
Lemma example_main_runs {X H' T' F V'} `{Ex' : !Executor X H' T' F V'} (listening : H' → H' → Z → F)
    (new_with_park : Built → Proc * N → X) buf p x
    (Hov : overflow_checks = false) (Hlog : log_debug = false) :
  (∀ why x, ∃ r x', tcp_bind why x = (Done r, x')) → mapped_at base →
  (∀ r ps p1, syscall_setup SYS_io_uring_setup 4096 (SetupParameters_new 0) p = (Done (r, ps), p1) →
    0 ≤ as_i32 r → ready base ps (kern p1) ∧ cap ≤ cq_entries ps) →
  match example_main listening new_with_park buf (p, x) with
  | (o, inl (p', x')) => maps p' ≡ₚ maps p ∧ fds p' ≡ₚ fds p ∧ (o = Panic "bind" ∨ o = Panic "new runtime")
  | (o, inr t) => ∃ l b p' x' A, let s := new_with_park b (p', x') in
      started (RingDeviceOk0 := uring_device_ok cap Hov Hlog)
        (mkRt true (ReactorNew.reactor_of (D := D) b (kern p'))) A ∧
      ∃ r t', Runtime_run (mkThread None false
          (ex_spawn (listening (Runtime.reactor_of s) (Runtime.reactor_of s) l) s)) = (r, t') ∧
        (o, t) = match r with
                 | Done (Ok _) => (Done tt, t')
                 | Done (Err _) => (Panic "runtime run", t')
                 | Panic w => (Panic w, t')
                 | UB w => (UB w, t')
                 | Hang w => (Hang w, t')
                 end
  end.
Proof.
  intros Hbind Hat Hready.
  destruct (main_start_runs TcpListener_from buf p x Hov Hlog Hbind (λ l x, listener_from l x) Hat Hready)
    as (o & p' & x' & Hrun & Ho). unfold example_main. rewrite Hrun.
  destruct o as [[l b]|why|why|why]; try done.
  - destruct Ho as (_ & _ & A & Hs). unfold example_run, reactor_handle, Runtime_spawn, Entered_spawn, mbind,
      M_bind, gets, modify. cbn [exec_state current in_enter].
    destruct (Runtime_run _) as [r t'] eqn:Hr.
    destruct r as [[[]|e]|w|w|w]; (exists l, b, p', x', A; split; [exact Hs|]; eexists _, t';
      split; [exact Hr|done]).
  - destruct Ho as (Hm & Hf & Ho). split; [done|]. split; [done|].
    destruct Ho as [[-> _]|[-> _]]; [by left|by right].
Qed.

(** The thread in a run of the runtime, and after it. *)
Abbreviation Th := (Thread (Exec (D := D) (N := N)) unit).
Definition after_run (o : outcome (result unit string)) (t : Th) : Th :=
  match o with
  | Done _ | Panic _ => set_in_enter false (set_current None (Runtime.timer_reset t))
  | _ => t
  end.
Lemma Runtime_run_runs (t : Th) : in_enter t = false →
  Runtime_run t = let '(o, t') := ex_run (inside (set_in_enter true t)) in (o, after_run o t').
Proof.
  intros Ht. unfold Runtime_run, with_enter, Entered_run, Entered_with, with_reactor_handle, with_default,
    with_timer, with_drop, mbind, M_bind, gets, modify. rewrite Ht. cbn [exec_state set_in_enter].
  unfold inside. destruct (ex_run _) as [[]]; done.
Qed.
Lemma after_run_exec o t : exec_state (after_run o t) = exec_state t.
Proof. destruct o; simpl; rewrite ?timer_reset_exec; done. Qed.

(** How [main] ends, or that it is running, and where the server is then. *)
Definition server_at l (s : Rt URing D) x (o : outcome unit) (t : Th) : Prop :=
  ∃ fuel evs, (2 * most + 2 * length evs + 2 < fuel)%nat ∧ Z.of_nat fuel < 2 ^ 64 ∧
    match server_run iovec_addr fuel evs [(TServe (Unresumed tt l), Empty)] (s, x) with
    | (Done (Ok ts), n) => exec_state t = (ts, n) ∧
        ((o = Done tt ∧ idle ts ∧ current t = None ∧ in_enter t = false) ∨ ∃ why, o = Hang why)
    | (Done (Err _), n) => o = Panic "runtime run" ∧ (exec_state t).2 = n
    | (Panic why, _) => o = Panic why
    | (UB why, _) => o = UB why
    | (Hang why, _) => o = Hang why
    end.

Lemma main_run_runs l b p x : ∃ o t, main_run l (main_thread b (p, x)) = (o, t) ∧
  server_at l (mkRt true (ReactorNew.reactor_of b (kern p))) x o t.
Proof.
  unfold main_run, Serve.serve, reactor_handle, Runtime_spawn, Entered_spawn, mbind, M_bind, gets, modify.
  cbn [exec_state main_thread fst snd current in_enter]. destruct (Runtime.reactor_of _).
  rewrite (runs_spawn iovec_addr), Runtime_run_runs by done.
  set (t0 := inside _). assert (exec_state t0 = ([(TServe (Unresumed tt l), Empty)],
    (mkRt true (ReactorNew.reactor_of b (kern p)), x))) as Ht0 by (unfold t0, inside; by rewrite timer_set_exec).
  destruct (runs_run iovec_addr t0) as (fuel & evs & ts' & r & Hf & Hlt & Hr & ->). rewrite Ht0 in Hr |- *. simpl in Hr |- *.
  destruct (server_run _ _ _ _ _) as [o n] eqn:Hrun. simpl in Hr |- *.
  set (t1 := after_run _ _). assert (exec_state t1 = (ts', n)) as Ht1 by (unfold t1; by rewrite after_run_exec).
  assert (∀ v, r = Done v → current t1 = None ∧ in_enter t1 = false) as Hend by (unfold t1; by intros v ->).
  destruct o as [[ts|e]|why|why|why]; simpl in Hr.
  - destruct Hr as [-> [[Hi ->]|[why ->]]]; eexists _, t1; (split; [done|]);
      exists fuel, evs; rewrite Hrun; (split; [done|]); (split; [done|]); (split; [done|]).
    + left. destruct (Hend _ eq_refl). by split_and!.
    + right. by eexists.
  - destruct Hr as [why ->]. eexists _, t1. split; [done|]. exists fuel, evs. rewrite Hrun. by rewrite Ht1.
  - subst r. eexists _, t1. split; [done|]. exists fuel, evs. by rewrite Hrun.
  - subst r. eexists _, t1. split; [done|]. exists fuel, evs. by rewrite Hrun.
  - subst r. eexists _, t1. split; [done|]. exists fuel, evs. by rewrite Hrun.
Qed.

Section unchecked.
Context (Hov : overflow_checks = false) (Hlog : log_debug = false).
#[local] Instance ring_ok : RingDeviceOk uring_device := uring_device_ok cap Hov Hlog.

(** The server on the ring that was built always has room in the completion
    queue: no more is outstanding than it has slots, less two. *)
Definition always_room (s : Rt URing D) x : Prop := ∀ fuel evs l,
  server_room iovec_addr fuel evs [(TServe (Unresumed tt l), Empty)] (s, x).

Lemma server_at_reaches l b p x o t A :
  lossy = false ∨ always_room (mkRt true (ReactorNew.reactor_of b (kern p))) x →
  started (mkRt true (ReactorNew.reactor_of (D := D) b (kern p))) A →
  server_at l (mkRt true (ReactorNew.reactor_of b (kern p))) x o t →
  let n := (exec_state t).2 in let ts := (exec_state t).1 in
  match o with
  | Done _ => server_reaches iovec_addr l n (Ok ts) ∧ idle ts ∧ current t = None ∧ in_enter t = false
  | Panic why => why = "runtime run" ∧ ∃ e, server_reaches iovec_addr l n (Err e)
  | UB _ => False
  | Hang _ => server_reaches iovec_addr l n (Ok ts) ∧ ∃ A, dev_at (dev (rt_inner n.1)) A ∧
      ∀ i k w, ts !! i = Some (k, w) → task_waits n.1 A k w
  end.
Proof.
  intros Hroom Hs (fuel & evs & Hf & Hlt & Hat).
  assert (server_room iovec_addr fuel evs [(TServe (Unresumed tt l), Empty)]
    (mkRt true (ReactorNew.reactor_of b (kern p)), x)) as Hrm
    by (destruct Hroom as [Hlossy|Hroom]; [by apply lossless_server_room, uring_lossless|apply Hroom]).
  destruct (server_from_start iovec_addr fuel evs l _ A x Hov Hrm Hs Hf Hlt)
    as (r & n & A' & ts & Hrun & Hi & _ & Hr). rewrite Hrun in Hat.
  assert (server_reaches iovec_addr l n r) as Hreach by by exists fuel, evs, (mkRt true (ReactorNew.reactor_of b (kern p))), A, x.
  destruct r as [ts'|e].
  - destruct Hat as [Ht Ho]. rewrite Ht. simpl. destruct Ho as [(-> & Hidle & Hc & He)|[why ->]]; [done|].
    split; [done|]. exists A'. split; [apply (ci_at _ _ _ (proj1 Hi))|]. intros i k w.
    rewrite (proj1 (Hr ts' eq_refl)). by eapply server_inv_waits.
  - destruct Hat as [-> ->]. split; [done|]. by exists e.
Qed.
End unchecked.

(** C1: [main] is the server, in a build without overflow checks, like a release
    build, and with debug logging off.  (The latter is up to the environment, as
    [main] starts with [env_logger::init]; with debug logging the first
    [poll_add] of the reactor is undefined behaviour,
    [Debug_undefined_iff_poll_add], and with overflow checks
    [pending_submissions] can panic, [pending_submissions_counts].)  Then it
    ends before serving only by the panic of the [expect] on a listener or a
    runtime that could not be had, the latter because a system call failed, with
    everything given back that the runtime had acquired.  Otherwise it runs the server of
    [server_never_fails] on a fresh reactor over the rings the kernel set up,
    inside [Runtime::run].  There, with room in the completion ring or a kernel
    that loses no completion, it returns when every task is done, with no reactor
    left current, panics when a wait of the reactor failed, and nothing else can
    end it; while it runs, no task is forgotten. *)
Theorem main_runs_the_server buf p x (Hov : overflow_checks = false) (Hlog : log_debug = false)
    (Hbind : ∀ why x, ∃ r x', tcp_bind why x = (Done r, x')) (Hat : mapped_at base)
    (Hready : ∀ r ps p1, syscall_setup SYS_io_uring_setup 4096 (SetupParameters_new 0) p
      = (Done (r, ps), p1) → 0 ≤ as_i32 r → ready base ps (kern p1) ∧ cap ≤ cq_entries ps)
    (Hroom : lossy = false ∨ ∀ l b p' x', main_start (λ l, mret l) buf (p, x) = (Done (l, b), (p', x')) →
      always_room Hov Hlog (mkRt true (ReactorNew.reactor_of b (kern p'))) x') :
  let ok := uring_device_ok cap Hov Hlog in ∃ o t, main buf (p, x) = (o, t) ∧
    match t with
    | inl (p', x') => maps p' ≡ₚ maps p ∧ fds p' ≡ₚ fds p ∧
        ((o = Panic "bind" ∧ ∃ e, tcp_bind "[::]:22" x = (Done (Err e), x')) ∨
         (o = Panic "new runtime" ∧ ∃ e, Reactor_new buf p = (Done (Err e), p') ∧ call_fails p e))
    | inr th => ∃ l x', tcp_bind "[::]:22" x = (Done (Ok l), x') ∧
        let n := (exec_state th).2 in let ts := (exec_state th).1 in
        match o with
        | Done _ => server_reaches (RingDeviceOk0 := ok) iovec_addr l n (Ok ts) ∧ idle ts ∧
            current th = None ∧ in_enter th = false
        | Panic why => why = "runtime run" ∧ ∃ e, server_reaches (RingDeviceOk0 := ok) iovec_addr l n (Err e)
        | UB _ => False
        | Hang _ => server_reaches (RingDeviceOk0 := ok) iovec_addr l n (Ok ts) ∧
            ∃ A, dev_at (RingDeviceOk := ok) (dev (rt_inner n.1)) A ∧ ∀ i k w, ts !! i = Some (k, w) → task_waits n.1 A k w
        end
    end.
Proof.
  intros ok. destruct (main_start_runs (λ l, mret l : M N Z) buf p x Hov Hlog Hbind) as (o & p' & x' & Hrun & Ho); [|done|done|].
  { intros l y. by exists y. }
  unfold main. rewrite Hrun. destruct o as [[l b]|why|why|why]; [|eexists _, _; split; [done|]|done|done].
  - destruct Ho as ((x1 & Hb & [= ->]) & _ & A & Hs). destruct (main_run_runs l b p' x') as (o & t & -> & Hserver).
    exists o, (inr t). split; [done|]. exists l, x'. split; [done|].
    apply (server_at_reaches Hov Hlog l b p' x' o t A); [|exact Hs|exact Hserver].
    destruct Hroom as [?|Hroom]; [by left|right]. by apply (Hroom l b).
  - destruct Ho as (Hm & Hf & Ho). simpl. split; [done|]. split; [done|].
    destruct Ho as [[-> ?]|[-> ?]]; [by left|by right].
Qed.
End props.
