(* ===== verification/ServerDemo.v ===== *)
(** * The echo server's theorems at work

    A world in which a connection arrives now and then, and the server on the
    idealised device and on the demonstration rings. *)

From S2P Require Import Prelude Std Sys Submission Ring Kern Mmap SubQueue CompQueue Uring Rings.
From S2P Require Import QueueOps Queues UringNew Registration RegistrationProps Unpark Device.
From S2P Require Import UringDevice Reactor ReactorProps AsyncIo AsyncProps Clients ClientProps.
From S2P Require Import AsyncDemo ReactorNew Net Runtime Timeout Serve Conn Server Main.

Local Open Scope Z_scope.

#[local] Existing Instances alone alone_ok release_build.

(** ** The world: whether a connection waits, and the clock *)

Definition Town : Type := bool * Z.
#[local] Instance town_timer : Timer Town := {|
  now := gets snd;
  Delay_poll d := gets (λ x : Town, if d <=? x.2 then Some (Ok tt) else None) |}.
#[local] Instance town_alloc : VecAlloc Town := λ n v x, (Done (mkVec 4096 n (vec_len v)), x).
#[local] Instance town_accept : Accept Town := λ _ x,
  if x.1 then (Done (Ok (8, 80)), (false, x.2)) else (Done (Err (Os EAGAIN)), x).
#[local] Instance town_pipe : LibcPipe Town := {|
  pipe2 := λ _ x, (Done (0, (5, 6)), x);
  F_GETFL := λ _ x, (Done 0, x); F_SETFL := λ _ _ x, (Done tt, x);
  O_CLOEXEC := 524288; O_NONBLOCK := 2048 |}.
#[local] Instance town_stderr : Stderr Town := {|
  serve_line := λ _ x, (Done tt, x); connection_line := λ _ _ x, (Done tt, x) |}.
#[local] Instance town_bind : TcpBind Town := λ _ x, (Done (Ok 3), x).

#[local] Instance town_ok : OsOk town_timer town_alloc town_accept town_pipe town_stderr.
Proof.
  refine {| waiting (x : Town) := if x.1 then 1%nat else 0%nat; most := 1 |}.
  - split.
    + intros x. by exists x.2, x.
    + intros d x. by eexists _, x.
    + intros n v x. eexists _, x. split; [reflexivity|]. simpl. lia.
  - intros [[] t]; simpl; lia.
  - intros fd [[] t]; eexists _, _; (split; [reflexivity|]); simpl; lia.
  - intros fd x. by exists 0, x.
  - intros fd fl x. by exists x.
  - intros e x. by exists x.
  - intros a e x. by exists x.
Defined.

Definition Cells : Type := Context_ (B := Vec) (F := Z) + unit.
#[local] Instance boxed_conn : Boxed (Context_ (B := Vec) (F := Z)) Cells := {|
  box := inl; downcast b := match b with inl x => Some x | inr _ => None end |}.
#[local] Instance boxed_conn_ok : BoxedOk boxed_conn.
Proof. by intros x. Qed.
#[local] Instance boxed_watch : Boxed unit Cells := {|
  box := inr; downcast b := match b with inl _ => None | inr x => Some x end |}.
#[local] Instance boxed_watch_ok : BoxedOk boxed_watch.
Proof. by intros x. Qed.
#[local] Instance cells_alloc : Alloc Cells := demo_alloc.
#[local] Instance cells_alloc_ok : AllocOk cells_alloc := demo_alloc_ok.

(** ** On the idealised device *)

Definition town_rt : Rt Ideal Cells :=
  mkRt true (mkInner_ (no_rings, Shared_new) 4 5 CompletionState_new (mkHeap ∅ None [])).
Lemma town_started : started town_rt no_rings.
Proof.
  split; [done|]. split; [|done]. split.
  - split_and!; [|by right|done]. split_and!; [done| |done]. intros Hin. by apply not_elem_of_nil in Hin.
  - change (open no_rings) with (@nil Z). constructor; try done; try set_solver.
    intros a Ha. simpl. rewrite lookup_empty. split; [done|apply not_elem_of_nil].
Qed.

(** The listener's task waits, is woken by a turn of the reactor and accepts a
    connection, whose task reads; after another turn it writes, after another it
    reads again, while a second connection arrives and is accepted. *)
Definition town_events : list (event (N := Town)) :=
  [EvPoll 0 (ByTask 1); EvPark None; EvPoll 0 (ByTask 1); EvPoll 1 (ByTask 2); EvPark None;
   EvPoll 1 (ByTask 3); EvWorld (λ x, (true, x.2 + 5)); EvPark (Some 7); EvPoll 1 (ByWaker 4);
   EvPoll 0 (ByTask 5)].
Definition town_run (evs : list (event (N := Town))) :=
  server_run (Z.add 8) 100 evs [(TServe (Unresumed tt 3), Empty)] (town_rt, (true, 0)).

Example town_serves :
  match town_run town_events with
  | (Done (Ok [(TServe (Waiting _ _), Old 5); (TConn 80 (ConnRead _), New 4); (TConn 80 (ConnNew 8), Empty)]), _) => True
  | _ => False
  end.
Proof. by vm_compute. Qed.

Lemma server_never_fails_witness :
  ∃ r s' x', town_run town_events = (Done r, (s', x')) ∧
    ∀ ts, r = Ok ts → ∃ A', dev_at (dev (rt_inner s')) A' ∧
      ∀ i t w, ts !! i = Some (t, w) → task_waits s' A' t w.
Proof.
  unfold town_run.
  apply (server_never_fails (Z.add 8) 100 town_events 3 town_rt no_rings (true, 0) demo_unchecked).
  - apply server_room_eval. vm_compute. reflexivity.
  - exact town_started.
  - vm_compute. repeat constructor.
  - reflexivity.
Defined.

Lemma town_reaches evs r n : town_run evs = (Done r, n) → (2 * most + 2 * length evs + 2 < 100)%nat →
  server_room_b (Z.add 8) 100 evs [(TServe (Unresumed tt 3), Empty)] (town_rt, (true, 0)) = true →
  server_reaches (Z.add 8) 3 n r.
Proof.
  intros Hrun Hlen Hroom. exists 100%nat, evs, town_rt, no_rings, (true, 0). split; [exact town_started|].
  split; [exact Hlen|]. split; [reflexivity|]. split; [by apply server_room_eval|exact Hrun].
Qed.

(** The read of the first connection is done, its task is woken. *)
Lemma connection_echoes_witness :
  match town_run (take 5 town_events) with
  | (Done (Ok [_; (TConn addr c, w)]), n) => conn_waits c ∧
      ∃ o n' A', Conn_poll (Z.add 8) 1 (ByTask 3) c n = (Done o, n') ∧ dev_at (dev (rt_inner n'.1)) A' ∧
        conn_step (Z.add 8) c (regs (rt_inner n.1)) o n'.1 A' ∧
        match o.1 with None => conn_waits o.2 | Some _ => o.2 = ConnEnd end ∧ rt_alive n'.1 = true
  | _ => False
  end.
Proof.
  destruct (town_run (take 5 town_events)) as [[[ts|e]| | |] n] eqn:Hrun;
    pose proof (f_equal fst Hrun) as Hout; vm_compute in Hout; try discriminate Hout.
  assert (server_reaches (Z.add 8) 3 n (Ok ts)) as Hreach
    by (apply (town_reaches _ _ _ Hrun); [vm_compute; repeat constructor|vm_compute; reflexivity]).
  clear Hrun. injection Hout as <-. split; [split; [discriminate|by eexists]|].
  apply (connection_echoes (Z.add 8) 3 n _ 1 80 _ (Old 2) 1 (ByTask 3) demo_unchecked Hreach);
    [reflexivity|repeat constructor].
Defined.

(** ** The program on the demonstration rings *)

Abbreviation TownExec := (Exec (D := Cells) (N := Town)).
#[local] Existing Instances demo_world demo_world_ok.

(** An executor that goes through the events; tasks that are left then, it waits for. *)
Definition ended_by (o : outcome (result (list Slot) io_error)) : outcome (result unit string) :=
  match o with
  | Done (Ok ts) =>
      if forallb (λ sl : Slot, match sl.1 with TDone => true | _ => false end) ts
      then Done (Ok tt) else Hang "waiting"
  | Done (Err _) => Done (Err "park")
  | Panic why => Panic why
  | UB why => UB why
  | Hang why => Hang why
  end.
Definition left_by (ts : list Slot) (o : outcome (result (list Slot) io_error)) : list Slot :=
  match o with Done (Ok ts) => ts | _ => ts end.
Lemma ended_by_ends ts o : run_ends ts o (ended_by o) (left_by ts o).
Proof.
  destruct o as [[ts'|e]|?|?|?]; simpl; try done; [|by eexists]. split; [done|].
  destruct (forallb _ ts') eqn:Hts; [left|right; by eexists]. split; [|done].
  apply list.Forall_forall. intros [k w] Hin. rewrite forallb_forall in Hts.
  specialize (Hts _ (proj1 (list_elem_of_In _ _) Hin)). simpl in *. by destruct k.
Qed.
#[local] Instance town_executor : Executor TownExec unit unit (Serve unit Incoming) unit := {|
  reactor_of _ := tt; timer_of _ := tt;
  ex_spawn f e := ((e.1 ++ [(TServe f, Empty)])%list, e.2);
  ex_is_idle e := forallb (λ sl : Slot, match sl.1 with TDone => true | _ => false end) e.1;
  ex_run := λ t,
    let o := server_run (Z.add 8) 100 town_events (exec_state t).1 (exec_state t).2 in
    (ended_by o.1, mkThread (current t) (in_enter t) (left_by (exec_state t).1 o.1, o.2));
  ex_run_timeout _ := mret (Ok tt); ex_turn _ := mret (Ok true); ex_block_on _ := mret (Ok tt);
  timer_set _ t := t; timer_reset t := t |}.
Lemma town_executor_ok : ExecutorOk town_executor.
Proof. by split. Qed.
Lemma town_executor_runs : RunsServer (Z.add 8) (Ex := town_executor) (O := town_ok).
Proof.
  split; [done|]. intros t. exists 100%nat, town_events, (left_by (exec_state t).1
    (server_run (Z.add 8) 100 town_events (exec_state t).1 (exec_state t).2).1),
    (ended_by (server_run (Z.add 8) 100 town_events (exec_state t).1 (exec_state t).2).1).
  split; [vm_compute; repeat constructor|]. split; [reflexivity|].
  split; [apply ended_by_ends|reflexivity].
Qed.
Definition town_main : outcome unit * (Proc * Town + Thread TownExec unit) :=
  @main quiet (demo_libc 3) demo_pipe (demo_timer true) release_build Cells Town town_bind unit
    town_executor 65536 (demo_proc, (true, 0)).

(** No tasks are forgotten when the events are over. *)
Lemma main_runs_the_server_witness :
  match town_main with
  | (Hang _, inr th) => length (exec_state th).1 = 1%nat ∧
      ∃ A, ∀ i k w, (exec_state th).1 !! i = Some (k, w) → task_waits (exec_state th).2.1 A k w
  | _ => False
  end.
Proof.
  destruct (@main_runs_the_server quiet quiet_ok (demo_libc 3) (demo_libc_ok 3) demo_pipe
    (demo_timer true) (demo_fd_ok true) release_build demo_world demo_world_ok Cells Town alone alone_ok
    demo_poll cells_alloc cells_alloc_ok (Z.add 8) boxed_conn boxed_conn_ok boxed_watch boxed_watch_ok
    town_timer town_alloc town_accept town_pipe town_stderr town_bind town_ok unit town_executor
    town_executor_ok town_executor_runs demo_base 2 65536 demo_proc (true, 0) eq_refl eq_refl)
    as (o & t & Hrun & Ht).
  - intros why x. by exists (Ok 3), x.
  - exact (demo_mapped_at 3).
  - intros r ps p1 [= <- <- <-] _. split; [exact demo_ready|]. vm_compute. discriminate.
  - left. reflexivity.
  - change (town_main = (o, t)) in Hrun. pose proof (f_equal (λ s, (s.1, match s.2 with
      | inl _ => 0%nat | inr th => length (exec_state th).1 end)) Hrun) as Hout. rewrite Hrun. clear Hrun. vm_compute in Hout.
    destruct t as [s|th]; [discriminate Hout|]. injection Hout as <- Hlen. destruct Ht as (l & x' & _ & _ & A & _ & Hw).
    split; [exact (eq_sym Hlen)|]. exists A. exact Hw.
Defined.
